(* ===== verification/_CoqProject ===== *)
-Q . S2P
Prelude.v
Lru.v
Storage.v
StorageInv.v
StorageSpec.v
StorageThms.v
Conc.v
StoreConc.v
StoreConcThms.v
StoreRely.v
Resp.v
RespThms.v
Commands.v
CommandsThms.v
Persistence.v
PersistenceThms.v
Buffer.v
Connection.v
ConnectionThms.v
EventLoop.v
EventLoopInv.v
EventLoopThms.v
Config.v
ConfigThms.v
Maintenance.v
MaintenanceThms.v
MaintenanceLin.v
Scans.v
Requests.v
Capacity.v
Double.v
Metrics.v
MetricsThms.v
MetricsConc.v
HttpServer.v
HttpThms.v
ThreadPool.v
ThreadPoolThms.v
Listener.v
Logger.v
Server.v
ServerInv.v
ServerThms.v
ServerLin.v
