(* ===== verification/Prelude.v ===== *)
(** * A verification of the cache server (an in-memory key-value store speaking RESP2)

    ** The program

    src/src/ holds a single-process cache server in C++20.  A client's bytes
    are read by a [Connection] (network/) into a [Buffer], cut into values by
    the RESP parser (protocol/), routed by the [Dispatcher] to a handler
    (commands/), which calls the sharded [Store] (storage/); the reply goes
    through the serializer into the outgoing [Buffer].  Snapshots and an
    append-only file (persistence/) write and rebuild the store.  Around this
    core are the event loop, which owns the connections, a thread pool, metrics
    with an HTTP endpoint, the configuration and the [Server] that wires them
    together and runs the maintenance thread.

    ** The files

    - Prelude.v: bytes, machine integers, decimal text ([std::to_string],
      [std::from_chars]), the outcome of a C++ call (a value, an exception, an
      undefined behaviour), the state monad [M] of the stateful operations,
      its weakest preconditions [wp], shared lemmas and automation.
    - Lru.v (Module [LruList]): storage/LruEviction.{hpp,cpp}.  A
      [std::list] iterator is the identity of a node.
    - Storage.v (Module [Store]): storage/Entry.hpp, storage/Store.{hpp,cpp} and
      [util::now_ms].  Sixteen shards, each a map, an access list and the heap
      cells behind [Entry::lru_node]; one function per locked section, one per
      operation.  [std::hash], the iteration order of [std::unordered_map] and
      [fnmatch] are the parameters of the class [Platform].
    - StorageInv.v: the invariant of a shard and of the store, preserved by
      every locked section.  StorageSpec.v: the contract (Module [Spec], a map
      with deadlines and a clock) and the simulation of each operation.
      StorageThms.v: the guarantees.
    - Conc.v: programs of atomic sections, threads and their interleavings; how
      to show that a program keeps an invariant ([keeps]), what it does beside
      threads of which only a rely condition is known ([amid]), and that threads
      add to a counter without losing anything ([adds]).
    - StoreConc.v: the operations of the store as programs of locked sections.
      StoreConcThms.v: the programs are the operations of Storage.v when nothing
      comes between, and the guarantees in any interleaving.  StoreRely.v: what
      an operation does beside threads that spare a key, or only remove entries.
    - Resp.v: protocol/RespTypes.hpp, RespParser.{hpp,cpp} (Module
      [RespParser]) and RespSerializer.{hpp,cpp} (Module [RespSerializer]).
      The limits of [std::vector::reserve] and of strings are the class
      [VecLimits].  RespThms.v: the theorems about them.
    - Commands.v: commands/ and commands/handlers/.  The handlers see the store
      through the class [StoreOps]; the unspecified evaluation order of call
      arguments is the class [Compiler].  CommandsThms.v: what a store promises
      ([StoreSafe]: its operations keep an invariant; [StoreLaws]: they are those
      of the contract), the handlers proved against it, the sharded store as an
      instance of both, and the guarantees.
    - Persistence.v: persistence/Aof.{hpp,cpp} (Module [Aof]) and
      persistence/Rdb.{hpp,cpp} (Module [Rdb]).  The disk is a map from paths
      to contents; what the operating system decides is the class [Io].
      PersistenceThms.v: the guarantees.
    - Buffer.v: network/Buffer.hpp, its invariant and its operations as those
      of a bounded queue.
    - Connection.v: network/Connection.{hpp,cpp}.  The socket is a script of
      results of [recv] and [send]; the store is any that has [StoreOps], the
      metrics are behind the class [MetricsSink].  ConnectionThms.v: what a
      connection relies on in its metrics ([MetricsLaws]) and the guarantees.
    - EventLoop.v: network/EventLoop.{hpp,cpp} and the destructor of
      [Connection].  Sockets, registrations and descriptors are state; the
      events of a wait, and whether the multiplexer takes a registration, are
      inputs.  What differs between epoll and kqueue is the class [Poller] with an
      instance for each.  EventLoopInv.v: what the loop
      relies on in a poller ([PollerLaws]) and its invariant, kept by every
      handler.  EventLoopThms.v: the guarantees.
    - Config.v: server/Config.{hpp,cpp} and the arguments of main.cpp.
      ConfigThms.v: the guarantees.
    - Maintenance.v: [Server::maintenance_loop] as a program of sections, and the
      store with that thread beside it: between any two sections of a command
      the scheduler, a script, runs any number of sections of the thread.  This
      store is one more instance of [StoreOps].  MaintenanceThms.v: it is an
      instance of [StoreSafe], so all of the network layer runs on it; what an
      iteration does.  MaintenanceLin.v: the operations of the command thread stay
      linearizable, and the store promises that too ([served_safe]).  Scans.v:
      what FLUSHALL, DBSIZE and KEYS do as a whole beside that thread, and
      sequences of operations ([performs]).  Requests.v: the requests of clients,
      from the event loop through the handlers to a history of the contract.
      Capacity.v: requests other than INCR keep the
      capacity.
    - Double.v: binary64 as rationals with rounding to nearest even, and error
      bounds; [FpContract] says whether the compiler fuses a product with a sum.
      Metrics.v: metrics/Metrics.{hpp,cpp}.  MetricsThms.v: the guarantees.
      MetricsConc.v: its operations as programs of accesses to the atomics, and
      what holds when they interleave.
    - HttpServer.v: metrics/HttpServer.{hpp,cpp}.  The thread of the endpoint is
      in [accept], in [recv] for a client that has sent nothing yet, or behind its
      loop; a [Visit] takes it from one wait to the next, and it can be joined
      only behind its loop.  HttpThms.v: the guarantees.
    - ThreadPool.v: concurrency/ThreadPool.{hpp,cpp} as a step relation: each
      critical section, notification, start and end of a task is one step, in
      any order; a packaged task and its future share a state.  ThreadPoolThms.v:
      its invariant and the guarantees.
    - Listener.v: network/TcpListener.cpp.  Logger.v: the set-up of util/Logger.hpp;
      spdlog is the class [Spdlog].
    - Server.v: server/Server.{hpp,cpp} and [main]: construction, the steps of
      the set-up, the event loop beside the maintenance thread, the steps of the
      shutdown, destruction; between all of them clients may visit the endpoint.
      What the process finds is the record [Env], what the system answers in the
      set-up the record [Boot]; [Phase] says whether [Server::run] is in the event
      loop, in the join of the endpoint's thread, or has returned.
      ServerInv.v: the metrics as an instance of [MetricsLaws], and what every
      part of the server keeps.  ServerThms.v: the guarantees.  ServerLin.v: what
      the clients of a running server get.

    ** What the theorems show

    - Store: every operation refines the contract; any run is free of dangling
      iterators, double frees, leaks and bad indices; what set, get, incr,
      keys, eviction and expiry do.  Under threads, however their sections
      are mixed, it stays safe, operations on one key are linearizable with
      respect to the contract, no increment is lost, snapshots and KEYS report
      what other threads leave alone, and a thread that is the only one to
      insert keeps the store within its capacity.
    - Protocol: the parser is total, stays in its buffer, inverts the
      serializer, recognises every strict prefix of a command as incomplete,
      and its decisions do not depend on later bytes.
    - Commands: no request can make a handler misbehave except by [int64_t]
      overflow or, for SET with EX or PX only, under a compiler that evaluates
      arguments from the right; the reply to a known command, or to an unknown one
      whose name has no CRLF, is one RESP value; SET, GET, DEL, NX, XX, EX and
      INCRBY mean what they say.
    - Persistence: a snapshot is written atomically and reads back, deadlines
      later by at most the time the load takes; loading ends on any file; a log
      replays exactly its complete records.
    - Network: a buffer is a queue of at most 64 MiB; whatever a peer sends, a
      connection and the store stay well-formed, and what can stop it is listed;
      pipelining and fragmentation do not change what is executed and answered;
      sending keeps every byte in order.
    - Event loop: its map, the open sockets and the registrations agree at all
      times, except for connections whose registration the system refused; clients
      do not disturb each other; any mixture of their requests is executed one
      after the other, each client getting its own replies.
    - Metrics: the average follows its rule up to a hundredth of a microsecond
      and settles; snapshots and the exposition text report the counters; under
      several threads no count is lost and the average stays in bounds; every
      HTTP request is answered by a response a client can read.
    - Configuration: a written file reads back, arguments override, only
      numbers can fail.
    - Thread pool: no task is lost, repeated or started out of order; no
      wake-up is missed; a future gets the result of its own task; shutdown
      drains the queue and ends, and the destructor settles every future.
    - Maintenance: requests other than INCR keep the capacity wherever the
      sections of the maintenance thread fall between theirs; an undisturbed
      iteration sweeps, counts and saves as it should.
    - Server: it is safe from start-up to shutdown, and what can end it before a
      stop is listed; at any time its clients get the replies that the handlers
      compute from a history of the contract, with the maintenance thread working
      beside them; once it returns it has given back what it took, down to the
      last descriptor and thread; a restart finds what a shutdown left; how the
      process ends.  A stopped server returns unless a client of the metrics
      endpoint has connected and sent nothing; such a client blocks it
      ([silent_client_blocks_stop]).
    - The theorems whose names end in [_accepted], [_throws], [_splits],
      [_drops_replies], [_drops_commands], [_unanswered], [_stops_loop],
      [_is_lost], [_is_ok], [_reports_zero], [_never_written], [_counts_all],
      [_right_to_left], [_lost_write], [_blocks_stop], [_drifts] and
      [get_live_keeps_order] pin down
      behaviour that differs from what the documentation says or the protocol
      intends.

    ** Bounds and fuel

    [RespParser.parse] has the length of its buffer as fuel, since a nested
    array starts behind its parent's type byte and each element consumes a
    byte ([parse_fuel_enough]: more fuel changes nothing).  The loops of
    replay, load, process_commands, on_readable and on_writable have the
    number of bytes or events left as fuel; each round uses up one
    (theorems [aof_replays_torn_log], [rdb_load_total], [connection_safe],
    [on_writable_delivers], [server_safe] exclude [OutOfFuel]).  64 doublings
    reach any capacity of a buffer.  Twenty digits print any 64-bit number.
    The event loop and the server run for as many rounds as their script has
    and say where they are then.  The bounds on the latency average hold for
    latencies up to 2^36 microseconds, nineteen hours.

    ** What is not modelled

    The mutual exclusion of a shard's lock is built in: a locked section is one
    step.  The accesses to the atomics of the metrics interleave as if they were
    sequentially consistent; the claims made are about single variables.  In the
    server all commands run on the event-loop thread, as in the program; a stop
    arrives within a round.  The endpoint handles a request in one piece, between
    two rounds of the loop or two steps of the set-up and the shutdown, and its
    [send] does not wait; [server_fd_], which [stop] writes while the thread may
    read it, is no data race in the model.  The metrics, the disk and the sockets
    of the server are touched by other threads only between the sections of the
    store.  The iteration order of a hash map is some function of its contents,
    and does not depend on its history.  There is no native stack, no log output,
    and no memory exhaustion other than for vectors, the room the maps of the
    store reserve and the reply batch. *)

From Corelib Require Export ssreflect.
From stdpp Require Export base gmap list strings.
From Stdlib Require Export ZArith Lia.
From Stdlib Require Import Strings.Byte.

Global Open Scope Z_scope.
Global Set Default Goal Selector "!".

(** ** Bytes and byte strings *)

Abbreviation bytes := (list Byte.byte).

#[global] Instance byte_eq_dec : EqDecision Byte.byte := Byte.byte_eq_dec.

#[global] Instance byte_countable : Countable Byte.byte :=
  inj_countable Byte.to_N Byte.of_N Byte.of_to_N.

#[global] Instance byte_inhabited : Inhabited Byte.byte := populate Byte.x00.

(** [bs "text"] is the C++ string literal ["text"], without its terminator. *)
Definition bs (s : String.string) : bytes := String.list_byte_of_string s.
Arguments bs _%_string.

Definition byte_val (b : Byte.byte) : Z := Z.of_N (Byte.to_N b).

(** [static_cast<uint8_t>(z)] *)
Definition byte_of (z : Z) : Byte.byte :=
  default Byte.x00 (Byte.of_N (Z.to_N (z mod 256))).

Definition CR : Byte.byte := Byte.x0d.
Definition LF : Byte.byte := Byte.x0a.
Definition CRLF : bytes := [CR; LF].

(** [std::string_view::substr(pos, n)] for [pos <= size()]. *)
Definition substr (s : bytes) (pos n : nat) : bytes := take n (drop pos s).

(** ** Machine integers: [int64_t] is a [Z] in range, [size_t] wraps at 2^64. *)

Definition INT64_MIN : Z := - 2 ^ 63.
Definition INT64_MAX : Z := 2 ^ 63 - 1.
Definition in_i64 (z : Z) : bool := (INT64_MIN <=? z) && (z <=? INT64_MAX).
Definition u64 (z : Z) : Z := z mod 2 ^ 64.
Definition u32 (z : Z) : Z := z mod 2 ^ 32.
(** [static_cast<int64_t>] of a [uint64_t] *)
Definition i64 (z : Z) : Z := (z + 2 ^ 63) mod 2 ^ 64 - 2 ^ 63.

(** [s.size()] *)
Abbreviation zlen s := (Z.of_nat (List.length s)).

(** ** Outcomes of a C++ call *)

Inductive exn :=
  | runtime_error (what : bytes)
  | length_error
  | bad_alloc
  | out_of_range
  | invalid_argument
  | system_error
  | spdlog_ex (what : bytes).

(** The undefined behaviours the models keep apart. *)
Inductive ub :=
  | SignedOverflow      (* int64_t arithmetic out of range *)
  | BadIterator         (* a std::list iterator whose node is gone *)
  | BadPointer          (* a pointer to freed memory, or nullptr *)
  | OutOfBounds         (* operator[] past the end *)
  | FloatToInt.         (* a double converted to an int64_t that cannot hold it *)

Inductive fault :=
  | Throw (e : exn)
  | Undef (u : ub)
  | Terminate           (* [std::terminate] *)
  | OutOfFuel.          (* a bound of the model, never of the program *)

Inductive outcome (A : Type) :=
  | Ret (a : A)
  | Fail (f : fault).
Arguments Ret {A} a.
Arguments Fail {A} f.

Definition obind {A B} (o : outcome A) (k : A → outcome B) : outcome B :=
  match o with Ret a => k a | Fail f => Fail f end.

(** ** State and outcome: the monad of the stateful operations *)

Definition M (S A : Type) : Type := S → outcome (A * S).

Definition ret {S A} (a : A) : M S A := λ s, Ret (a, s).
Definition bind {S A B} (m : M S A) (k : A → M S B) : M S B :=
  λ s, match m s with Ret (a, s') => k a s' | Fail f => Fail f end.
Definition fail {S A} (f : fault) : M S A := λ _, Fail f.
Definition lift {S A} (o : outcome A) : M S A :=
  λ s, match o with Ret a => Ret (a, s) | Fail f => Fail f end.
Definition gets {S A} (f : S → A) : M S A := λ s, Ret (f s, s).
Definition modify {S} (f : S → S) : M S unit := λ s, Ret (tt, f s).

(** [for (x : l) body(x, acc)] *)
Fixpoint foldM {S A B} (f : B → A → M S B) (l : list A) (acc : B) : M S B :=
  match l with
  | [] => ret acc
  | x :: l' => bind (f acc x) (foldM f l')
  end.

(** The same loop over a plain value. *)
Fixpoint foldO {A B} (f : B → A → outcome B) (l : list A) (acc : B) : outcome B :=
  match l with
  | [] => Ret acc
  | x :: l' => obind (f acc x) (foldO f l')
  end.

Declare Scope cpp_scope.
Delimit Scope cpp_scope with cpp.
Notation "'let!' x := e 'in' k" := (bind e (λ x, k))
  (at level 10, x pattern, e at level 200, k at level 200,
   format "'[v' 'let!'  x  :=  e  'in' '/' k ']'") : cpp_scope.
Notation "'let?' x := e 'in' k" := (obind e (λ x, k))
  (at level 10, x pattern, e at level 200, k at level 200,
   format "'[v' 'let?'  x  :=  e  'in' '/' k ']'") : cpp_scope.
Notation "e ;;; k" := (bind e (λ _, k)) (at level 199, right associativity) : cpp_scope.
Open Scope cpp_scope.

(** [int64_t] arithmetic: a result out of range is undefined behaviour. *)
Definition checked (z : Z) : outcome Z :=
  if in_i64 z then Ret z else Fail (Undef SignedOverflow).

(** ** Numbers as text: [std::to_string], [fmt "{}"], [std::from_chars] *)

Definition is_digit (b : Byte.byte) : bool :=
  (48 <=? byte_val b) && (byte_val b <=? 57).
Definition digit_val (b : Byte.byte) : Z := byte_val b - 48.
Definition digit (d : Z) : Byte.byte := byte_of (48 + d).

Fixpoint dec_aux (fuel : nat) (n : Z) (acc : bytes) : bytes :=
  match fuel with
  | O => acc
  | S f =>
      let acc' := digit (n mod 10) :: acc in
      if n <? 10 then acc' else dec_aux f (n / 10) acc'
  end.

(** Twenty digits are enough for any 64-bit integer. *)
Definition dec_nat (n : Z) : bytes := dec_aux 20 n [].
Definition to_string (n : Z) : bytes :=
  if n <? 0 then Byte.x2d :: dec_nat (- n) else dec_nat n.

Fixpoint take_digits (s : bytes) : bytes :=
  match s with
  | [] => []
  | b :: s' => if is_digit b then b :: take_digits s' else []
  end.

Definition digits_val (ds : bytes) : Z :=
  foldl (λ acc d, acc * 10 + digit_val d) 0 ds.

Inductive errc := errc_ok | errc_invalid_argument | errc_result_out_of_range.

#[global] Instance errc_eq_dec : EqDecision errc.
Proof. solve_decision. Defined.

Record from_chars_result := { fc_ptr : nat; fc_ec : errc }.

(** [std::from_chars(first, last, value)] for [int64_t] in base 10: an optional
    minus sign and the longest run of digits; [value] is written only on
    success. *)
Definition from_chars (s : bytes) (value : Z) : from_chars_result * Z :=
  let '(neg, body) := match s with
                      | b :: r => if bool_decide (b = Byte.x2d) then (true, r) else (false, s)
                      | [] => (false, s)
                      end in
  let ds := take_digits body in
  match ds with
  | [] => ({| fc_ptr := 0; fc_ec := errc_invalid_argument |}, value)
  | _ =>
      let v := if (neg : bool) then - digits_val ds else digits_val ds in
      let ptr := ((if (neg : bool) then 1 else 0) + length ds)%nat in
      if in_i64 v
      then ({| fc_ptr := ptr; fc_ec := errc_ok |}, v)
      else ({| fc_ptr := ptr; fc_ec := errc_result_out_of_range |}, value)
  end.

(** [std::tolower] and [std::toupper] in the "C" locale. *)
Definition tolower (b : Byte.byte) : Byte.byte :=
  if (65 <=? byte_val b) && (byte_val b <=? 90) then byte_of (byte_val b + 32) else b.
Definition toupper (b : Byte.byte) : Byte.byte :=
  if (97 <=? byte_val b) && (byte_val b <=? 122) then byte_of (byte_val b - 32) else b.

(** ** Reasoning about outcomes

    [wp E m Q s] : running [m] in [s] returns, with a result and state in [Q],
    or stops with a fault that [E] allows.  [E := no_fault] is total
    correctness without undefined behaviour and without exceptions. *)

Definition no_fault : fault → Prop := λ _, False.
(** Only [int64_t] overflow is allowed to stop the run. *)
Definition overflow_only : fault → Prop := λ f, f = Undef SignedOverflow.

Definition wp {S A} (E : fault → Prop) (m : M S A) (Q : A → S → Prop) (s : S) : Prop :=
  match m s with Ret (a, s') => Q a s' | Fail f => E f end.

Section wp.
Context {S : Type} (E : fault → Prop).

Lemma wp_ret {A} (a : A) Q (s : S) : Q a s → wp E (ret a) Q s.
Proof. done. Qed.

Lemma wp_bind {A B} (m : M S A) (k : A → M S B) Q s :
  wp E m (λ a s', wp E (k a) Q s') s → wp E (bind m k) Q s.
Proof. rw /wp /bind. by destruct (m s) as [[a s']|f]. Qed.

Lemma wp_mono {A} (m : M S A) (Q Q' : A → S → Prop) s :
  wp E m Q s → (∀ a s', Q a s' → Q' a s') → wp E m Q' s.
Proof. rw /wp. destruct (m s) as [[a s']|f]; eauto. Qed.

Lemma wp_gets {A} (f : S → A) Q s : Q (f s) s → wp E (gets f) Q s.
Proof. done. Qed.

Lemma wp_modify f Q (s : S) : Q tt (f s) → wp E (modify f) Q s.
Proof. done. Qed.

Lemma wp_lift {A} (o : outcome A) Q (s : S) :
  match o with Ret a => Q a s | Fail f => E f end → wp E (lift o) Q s.
Proof. rw /wp /lift. by destruct o. Qed.

Lemma wp_fail {A} f (Q : A → S → Prop) s : E f → wp E (fail f) Q s.
Proof. done. Qed.

(** The loop rule: an invariant on the elements already visited. *)
Lemma wp_foldM {A B} (f : B → A → M S B) (I : list A → B → S → Prop) l acc s Q :
  I [] acc s →
  (∀ done x todo b s', l = done ++ x :: todo → I done b s' →
     wp E (f b x) (I (done ++ [x])) s') →
  (∀ b s', I l b s' → Q b s') →
  wp E (foldM f l acc) Q s.
Proof.
  intros H0 Hstep Hend.
  enough (∀ done todo b s', l = done ++ todo → I done b s' →
    wp E (foldM f todo b) Q s') as Hall by (by apply (Hall [] l)).
  intros done todo. revert done.
  induction todo as [|x todo IH]; intros done b s' Hl HI; simpl.
  { rw app_nil_r in Hl. subst done. apply wp_ret, Hend, HI. }
  apply wp_bind. eapply wp_mono; [by eapply Hstep|].
  intros b' s'' HI'. apply (IH (done ++ [x])); [|done].
  by rw -app_assoc.
Qed.
End wp.

Lemma wp_Ret {S A} (m : M S A) Q s :
  wp no_fault m Q s → ∃ a s', m s = Ret (a, s') ∧ Q a s'.
Proof. rw /wp. destruct (m s) as [[a s']|f]; [eauto|done]. Qed.

(** A run without a fault is a run under any fault. *)
Lemma wp_faultless {S A} E (m : M S A) Q s : wp no_fault m Q s → wp E m Q s.
Proof. rw /wp. by destruct (m s) as [[a s']|f]. Qed.

(** [wp_step] peels one primitive; [wp_go] peels all of them. *)
Ltac wp_step :=
  match goal with
  | |- wp _ (bind _ _) _ _ => apply wp_bind
  | |- wp _ (ret _) _ _ => apply wp_ret
  | |- wp _ (gets _) _ _ => apply wp_gets
  | |- wp _ (modify _) _ _ => apply wp_modify
  | |- wp _ (lift _) _ _ => apply wp_lift
  | |- wp _ (fail _) _ _ => apply wp_fail
  end.
Ltac wp_go := repeat wp_step; cbv beta.

(** ** Bytes and decimal text: the facts the components share *)

(** [i64] is a congruence for the sum. *)
Lemma i64_add a b d : i64 a = i64 b → i64 (a + d) = i64 (b + d).
Proof.
  rw /i64. intros H. assert ((a + 2 ^ 63) mod 2 ^ 64 = (b + 2 ^ 63) mod 2 ^ 64) as He by lia. f_equal.
  replace (a + d + 2 ^ 63) with (a + 2 ^ 63 + d) by lia. replace (b + d + 2 ^ 63) with (b + 2 ^ 63 + d) by lia.
  rw -(Zplus_mod_idemp_l (a + _)) -(Zplus_mod_idemp_l (b + _)) He //.
Qed.
Lemma i64_idem a : i64 (i64 a) = i64 a.
Proof.
  rw /i64. f_equal. replace ((a + 2 ^ 63) mod 2 ^ 64 - 2 ^ 63 + 2 ^ 63) with ((a + 2 ^ 63) mod 2 ^ 64) by lia.
  by rw Z.mod_mod.
Qed.

Lemma in_i64_spec z : in_i64 z = true ↔ - 2 ^ 63 ≤ z < 2 ^ 63.
Proof. rw /in_i64 /INT64_MIN /INT64_MAX andb_true_iff !Z.leb_le. lia. Qed.

Lemma byte_val_range b : 0 ≤ byte_val b < 256.
Proof. rw /byte_val. pose proof (Byte.to_N_bounded b). lia. Qed.

Lemma byte_val_inj b1 b2 : byte_val b1 = byte_val b2 → b1 = b2.
Proof.
  rw /byte_val. intros H%N2Z.inj.
  pose proof (Byte.of_to_N b1) as H1. pose proof (Byte.of_to_N b2) as H2. congruence.
Qed.

Lemma byte_val_of z : byte_val (byte_of z) = z mod 256.
Proof.
  rw /byte_val /byte_of. pose proof (Z.mod_pos_bound z 256 ltac:(lia)).
  destruct (Byte.of_N (Z.to_N (z mod 256))) as [b|] eqn:Hb; simpl.
  - apply Byte.to_of_N in Hb. rw Hb. lia.
  - apply Byte.of_N_None_iff in Hb. lia.
Qed.

Lemma byte_of_val b : byte_of (byte_val b) = b.
Proof.
  apply byte_val_inj. rw byte_val_of. pose proof (byte_val_range b).
  by rw Z.mod_small.
Qed.

Lemma digit_val_digit d : 0 ≤ d < 10 → digit_val (digit d) = d.
Proof. intros ?. rw /digit_val /digit byte_val_of Z.mod_small; lia. Qed.

Lemma is_digit_digit d : 0 ≤ d < 10 → is_digit (digit d) = true.
Proof. intros ?. rw /is_digit /digit byte_val_of Z.mod_small; lia. Qed.

Lemma digits_val_app ds1 ds2 :
  digits_val (ds1 ++ ds2) = digits_val ds1 * 10 ^ zlen ds2 + digits_val ds2.
Proof.
  rw /digits_val foldl_app. generalize (foldl (λ acc d, acc * 10 + digit_val d) 0 ds1).
  induction ds2 as [|d ds2 IH] using rev_ind; intros a; simpl.
  { lia. }
  rw !foldl_app !length_app /= IH. rw Nat2Z.inj_add Z.pow_add_r; [lia..|].
  change (10 ^ Z.of_nat 1) with 10. lia.
Qed.

Lemma dec_aux_app fuel n acc : dec_aux fuel n acc = dec_aux fuel n [] ++ acc.
Proof.
  revert n acc. induction fuel as [|f IH]; intros n acc; [done|]; simpl.
  case_match; [done|]. rw IH (IH _ [_]). by rw -app_assoc.
Qed.

Lemma dec_aux_digits fuel n acc :
  0 ≤ n → Forall is_digit acc → Forall is_digit (dec_aux fuel n acc).
Proof.
  revert n acc. induction fuel as [|f IH]; intros n acc Hn Hacc; [done|]; simpl.
  pose proof (Z.mod_pos_bound n 10 ltac:(lia)).
  assert (Forall is_digit (digit (n mod 10) :: acc)).
  { constructor; [|done]. by rw is_digit_digit. }
  case_match; [done|]. apply IH; [|done]. apply Z.div_pos; lia.
Qed.

Lemma dec_aux_val fuel n :
  0 ≤ n < 10 ^ Z.of_nat fuel → digits_val (dec_aux fuel n []) = n.
Proof.
  revert n. induction fuel as [|f IH]; intros n Hn.
  { change (10 ^ Z.of_nat 0) with 1 in Hn. simpl. rw /digits_val /=. lia. }
  rw Nat2Z.inj_succ Z.pow_succ_r in Hn; [lia|]. simpl.
  pose proof (Z.mod_pos_bound n 10 ltac:(lia)).
  destruct (Z.ltb_spec n 10).
  - rw /digits_val /= digit_val_digit; [done|]. rw Z.mod_small; lia.
  - rw dec_aux_app digits_val_app IH.
    + split; [apply Z.div_pos; lia|]. apply Z.div_lt_upper_bound; lia.
    + rw /digits_val /= digit_val_digit; [done|].
      change (10 ^ Z.of_nat 1) with 10. pose proof (Z.div_mod n 10). lia.
Qed.

Lemma dec_aux_nonempty fuel n acc : dec_aux (S fuel) n acc ≠ [].
Proof. simpl. case_match; [done|]. rw dec_aux_app. by destruct (dec_aux _ _ []). Qed.

Lemma dec_aux_length fuel n acc : (length (dec_aux fuel n acc) ≤ fuel + length acc)%nat.
Proof.
  revert n acc. induction fuel as [|f IH]; intros n acc; simpl; [lia|].
  destruct (n <? 10); simpl; [lia|]. pose proof (IH (n / 10) (digit (n mod 10) :: acc)). simpl in *. lia.
Qed.

Lemma length_to_string n : (length (to_string n) ≤ 21)%nat.
Proof.
  assert (∀ m, length (dec_nat m) ≤ 20)%nat as H by (intros m; apply (dec_aux_length 20 m [])).
  rw /to_string. destruct (n <? 0); simpl; [pose proof (H (- n))|pose proof (H n)]; lia.
Qed.

Lemma dec_nat_digits n : 0 ≤ n → Forall is_digit (dec_nat n).
Proof. intros. by apply dec_aux_digits. Qed.

Lemma dec_nat_val n : 0 ≤ n < 2 ^ 64 → digits_val (dec_nat n) = n.
Proof.
  intros. apply dec_aux_val. assert (2 ^ 64 < 10 ^ Z.of_nat 20) by reflexivity. lia.
Qed.

Lemma take_digits_app ds s :
  Forall is_digit ds → take_digits (ds ++ s) = ds ++ take_digits s.
Proof.
  induction 1 as [|d ds Hd _ IH]; [done|]; simpl.
  destruct (is_digit d); [by rw IH|done].
Qed.

Lemma digit_not_minus b : is_digit b = true → b ≠ Byte.x2d.
Proof. by intros ? ->. Qed.

(** [from_chars] reads back what [to_string] printed, up to a byte that does not
    continue the number. *)
Lemma from_chars_to_string n v rest :
  in_i64 n = true → take_digits rest = [] →
  from_chars (to_string n ++ rest) v =
    ({| fc_ptr := length (to_string n); fc_ec := errc_ok |}, n).
Proof.
  intros Hn Hrest.
  pose proof (proj1 (in_i64_spec n) Hn) as Hr.
  rw /to_string. destruct (Z.ltb_spec n 0) as [Hneg|Hpos].
  - rw /from_chars /= take_digits_app; [apply dec_nat_digits; lia|].
    rw Hrest app_nil_r. rw dec_nat_val; [lia|]. rw Z.opp_involutive Hn.
    destruct (dec_nat (- n)) eqn:Hd; [by apply dec_aux_nonempty in Hd|done].
  - pose proof (dec_nat_digits n Hpos) as Hds. pose proof (dec_nat_val n) as Hval.
    destruct (dec_nat n) as [|d ds] eqn:Hd; [by apply dec_aux_nonempty in Hd|].
    assert (d ≠ Byte.x2d) as Hd'.
    { apply digit_not_minus. inversion Hds as [|?? Hx]. by destruct (is_digit d). }
    rw /from_chars. cbn [app]. rw bool_decide_false //. change (d :: ds ++ rest) with ((d :: ds) ++ rest).
    rw take_digits_app; [done|]. rw Hrest app_nil_r Hval; [lia|]. by rw Hn.
Qed.

(** ** Lists *)

Create HintDb len discriminated.
#[export] Hint Rewrite @length_app @length_cons @length_take @length_drop @length_fmap
  @length_replicate : len.

Lemma length_CRLF : length CRLF = 2%nat.
Proof. done. Qed.
#[export] Hint Rewrite length_CRLF : len.

(** [len] decides arithmetic on the lengths of concatenations and slices. *)
Ltac len := autorewrite with len in *; simpl length in *; lia.

Lemma filter_all_true {A} (P : A → Prop) {dec : ∀ x, Decision (P x)} (l : list A) :
  (∀ x, x ∈ l → P x) → filter P l = l.
Proof.
  induction l as [|x l IH]; intros H; [done|].
  rw filter_cons_True; [apply H; left|]. f_equal. apply IH. intros. apply H. by right.
Qed.

(** ** Operations that keep a property of a part of the state *)

Definition any_fault (f : fault) : Prop := True.

Lemma wp_fault_mono {S A} (E E' : fault → Prop) (m : M S A) Q (x : S) :
  (∀ f, E f → E' f) → wp E m Q x → wp E' m Q x.
Proof. rw /wp. destruct (m x) as [[]|]; auto. Qed.

Lemma wp_and {S A} E (m : M S A) (Q Q' : A → S → Prop) (x : S) :
  wp E m Q x → wp any_fault m Q' x → wp E m (λ a y, Q a y ∧ Q' a y) x.
Proof. rw /wp. by destruct (m x) as [[]|]. Qed.

Section Closed.
Context {X : Type} (P : X → Prop).

Definition closed {S A} (f : S → X) (m : M S A) : Prop :=
  ∀ s, P (f s) → wp any_fault m (λ _ s', P (f s')) s.

Lemma closed_ret {S A} f (a : A) : closed (S := S) f (ret a).
Proof. by intros s. Qed.
Lemma closed_gets {S A} f (g : S → A) : closed f (gets g).
Proof. by intros s. Qed.
Lemma closed_fail {S A} f e : closed (S := S) (A := A) f (fail e).
Proof. by intros s. Qed.
Lemma closed_lift {S A} f (o : outcome A) : closed (S := S) f (lift o).
Proof. intros s H. apply wp_lift. by destruct o. Qed.
Lemma closed_modify {S} f (g : S → S) : (∀ s, f (g s) = f s) → closed f (modify g).
Proof. intros Hg s H. apply wp_modify. by rw Hg. Qed.
Lemma closed_update {S} f (g : S → S) : (∀ s, P (f s) → P (f (g s))) → closed f (modify g).
Proof. intros Hg s H. by apply wp_modify, Hg. Qed.
Lemma closed_bind {S A B} f (m : M S A) (k : A → M S B) :
  closed f m → (∀ a, closed f (k a)) → closed f (bind m k).
Proof. intros Hm Hk s H. apply wp_bind. eapply wp_mono; [by apply Hm|]. intros a s' H'. by apply Hk. Qed.
Lemma closed_foldM {S A B} f (g : B → A → M S B) xs b :
  (∀ b x, closed f (g b x)) → closed f (foldM g xs b).
Proof. intros Hg. revert b. induction xs as [|x xs IH]; intros b; cbn [foldM]; [apply closed_ret|by apply closed_bind]. Qed.

Lemma closed_same {S A} f (m : M S A) : (∀ s, wp any_fault m (λ _ s', f s' = f s) s) → closed f m.
Proof. intros Hm s H. eapply wp_mono; [apply Hm|]. by intros a s' ->. Qed.

End Closed.

Ltac close_step :=
  match goal with
  | |- closed _ _ (bind _ _) => apply closed_bind; [|intros ?]
  | |- closed _ _ (ret _) => apply closed_ret
  | |- closed _ _ (gets _) => apply closed_gets
  | |- closed _ _ (fail _) => apply closed_fail
  | |- closed _ _ (lift _) => apply closed_lift
  | |- closed _ _ (modify _) => apply closed_modify; by intros []
  | |- closed _ _ (foldM _ _ _) => apply closed_foldM; intros ? ?
  | H : context [closed _ _ _] |- closed _ _ _ => apply H
  | |- closed _ _ (match ?x with _ => _ end) => destruct x
  end.
Ltac close := repeat close_step.
