(* ===== verification/Lru.v ===== *)
(** The access-order list of a shard: src/storage/LruEviction.{hpp,cpp}.

    [std::list<std::string>] is a list of nodes, each with an identity: a
    [std::list] iterator names one node and stays valid while other nodes are
    inserted, spliced or erased, so [Node] is that identity and not a position.
    Using an iterator whose node has been erased is undefined behaviour. *)

From S2P Require Import Prelude.

Module LruList.

(** [using Node = std::list<std::string>::iterator] *)
Definition Node : Type := nat.

(** [list_], front = most recently used; [fresh] numbers the next node. *)
Record t := mk { list_ : list (Node * bytes); fresh : nat }.

Definition new : t := mk [] 0.

(** [list_.push_front(key); return list_.begin();] *)
Definition insert (key : bytes) (l : t) : Node * t :=
  (fresh l, mk ((fresh l, key) :: list_ l) (S (fresh l))).

(** Unlinks the node an iterator names. *)
Fixpoint unlink (n : Node) (l : list (Node * bytes)) : option (bytes * list (Node * bytes)) :=
  match l with
  | [] => None
  | (m, k) :: l' =>
      if Nat.eqb m n then Some (k, l')
      else match unlink n l' with
           | Some (k', rest) => Some (k', (m, k) :: rest)
           | None => None
           end
  end.

(** [list_.splice(list_.begin(), list_, node)] *)
Definition touch (node : Node) (l : t) : outcome t :=
  match unlink node (list_ l) with
  | Some (k, rest) => Ret (mk ((node, k) :: rest) (fresh l))
  | None => Fail (Undef BadIterator)
  end.

(** [list_.erase(node)] *)
Definition remove (node : Node) (l : t) : outcome t :=
  match unlink node (list_ l) with
  | Some (_, rest) => Ret (mk rest (fresh l))
  | None => Fail (Undef BadIterator)
  end.

Definition empty_msg : bytes := bs "LRU list is empty".

(** [list_.back()], guarded by [list_.empty()] *)
Definition lru_key (l : t) : outcome bytes :=
  match last (list_ l) with
  | None => Fail (Throw (runtime_error empty_msg))
  | Some (_, k) => Ret k
  end.

(** [key = std::move(list_.back()); list_.pop_back(); return key;] *)
Definition evict_lru (l : t) : outcome (bytes * t) :=
  match last (list_ l) with
  | None => Fail (Throw (runtime_error empty_msg))
  | Some (_, k) => Ret (k, mk (removelast (list_ l)) (fresh l))
  end.

Definition empty (l : t) : bool := match list_ l with [] => true | _ => false end.
Definition size (l : t) : nat := length (list_ l).

(** [lru = LruList{}]: every node is destroyed, and no later node has the
    identity of one of them. *)
Definition reset (l : t) : t := mk [] (fresh l).

(** ** Invariant: node identities are distinct and already handed out. *)
Record wf (l : t) : Prop := {
  wf_nodup : NoDup ((list_ l).*1);
  wf_fresh : ∀ n k, (n, k) ∈ list_ l → (n < fresh l)%nat
}.

(** The keys from most to least recently used. *)
Definition order (l : t) : list bytes := (list_ l).*2.

Lemma unlink_split n k l1 l2 :
  n ∉ l1.*1 → unlink n (l1 ++ (n, k) :: l2) = Some (k, l1 ++ l2).
Proof.
  induction l1 as [|[m k'] l1 IH]; simpl; intros Hn.
  { by rw Nat.eqb_refl. }
  destruct (Nat.eqb_spec m n) as [->|Hne]; [set_solver|].
  rw IH; [set_solver|done].
Qed.

Lemma unlink_None n l : n ∉ l.*1 → unlink n l = None.
Proof.
  induction l as [|[m k] l IH]; simpl; intros Hn; [done|].
  destruct (Nat.eqb_spec m n) as [->|Hne]; [set_solver|].
  rw IH; [set_solver|done].
Qed.

(** The shape of a list around one of its nodes. *)
Lemma node_split l n k :
  wf l → (n, k) ∈ list_ l →
  ∃ l1 l2, list_ l = l1 ++ (n, k) :: l2 ∧ n ∉ l1.*1 ∧ n ∉ l2.*1 ∧
    unlink n (list_ l) = Some (k, l1 ++ l2).
Proof.
  intros [Hnd _] Hin. apply list_elem_of_split in Hin as (l1 & l2 & Hl).
  rw Hl fmap_app fmap_cons in Hnd.
  apply NoDup_app in Hnd as (_ & Hd & Hnd'). apply NoDup_cons in Hnd' as [Hn2 _].
  assert (n ∉ l1.*1) as Hn1 by (intros H; apply (Hd _ H); simpl; left).
  exists l1, l2. rw Hl. split_and!; [done..|]. by apply unlink_split.
Qed.

Lemma wf_new : wf new.
Proof. split; [constructor|]. intros n k H. inversion H. Qed.

Lemma insert_wf key l : wf l → wf (insert key l).2.
Proof.
  intros [Hnd Hf]. split; simpl.
  - constructor; [|done]. intros ([n k] & Heq & Hin)%list_elem_of_fmap.
    simpl in Heq. apply Hf in Hin. lia.
  - intros n k [[= -> ->]|Hin]%elem_of_cons; [lia|]. apply Hf in Hin. lia.
Qed.

Lemma unlink_wf l n k l1 l2 :
  wf l → list_ l = l1 ++ (n, k) :: l2 → n ∉ l1.*1 → n ∉ l2.*1 →
  wf (mk (l1 ++ l2) (fresh l)) ∧ wf (mk ((n, k) :: l1 ++ l2) (fresh l)).
Proof.
  intros [Hnd Hf] Hl Hn1 Hn2. rw Hl in Hnd Hf.
  rw fmap_app fmap_cons in Hnd. apply NoDup_app in Hnd as (H1 & Hd & [_ H2]%NoDup_cons).
  assert (NoDup (l1 ++ l2).*1) as H12.
  { rw fmap_app. apply NoDup_app. split_and!; [done| |done]. set_solver. }
  assert (∀ m k', (m, k') ∈ l1 ++ l2 → (m < fresh l)%nat) as Hf'.
  { intros m k' Hin. apply (Hf m k'). set_solver. }
  assert (n ∉ (l1 ++ l2).*1) as Hn by (rw fmap_app; set_solver).
  split; split; simpl; [done|done| |].
  - by constructor.
  - intros m k' [[= -> ->]|Hin]%elem_of_cons; [|by eapply Hf'].
    apply (Hf n k). set_solver.
Qed.

(** [touch] on a node of the list succeeds, moves it to the front and keeps the
    relative order of all others. *)
Lemma touch_spec l n k :
  wf l → (n, k) ∈ list_ l →
  ∃ l1 l2, list_ l = l1 ++ (n, k) :: l2 ∧
    touch n l = Ret (mk ((n, k) :: l1 ++ l2) (fresh l)) ∧
    wf (mk ((n, k) :: l1 ++ l2) (fresh l)).
Proof.
  intros Hwf Hin. destruct (node_split l n k Hwf Hin) as (l1 & l2 & Hl & H1 & H2 & Hu).
  exists l1, l2. rw /touch Hu. split_and!; [done..|]. by eapply unlink_wf.
Qed.

Lemma remove_spec l n k :
  wf l → (n, k) ∈ list_ l →
  ∃ l1 l2, list_ l = l1 ++ (n, k) :: l2 ∧ n ∉ (l1 ++ l2).*1 ∧
    remove n l = Ret (mk (l1 ++ l2) (fresh l)) ∧ wf (mk (l1 ++ l2) (fresh l)).
Proof.
  intros Hwf Hin. destruct (node_split l n k Hwf Hin) as (l1 & l2 & Hl & H1 & H2 & Hu).
  exists l1, l2. rw /remove Hu. split_and!; [done| |done|by eapply unlink_wf].
  rw fmap_app. set_solver.
Qed.

Lemma evict_lru_spec l l' n k :
  wf l → list_ l = l' ++ [(n, k)] →
  n ∉ l'.*1 ∧ evict_lru l = Ret (k, mk l' (fresh l)) ∧ wf (mk l' (fresh l)).
Proof.
  intros Hwf Hl. destruct (Hwf) as [Hnd _].
  rw Hl fmap_app in Hnd. apply NoDup_app in Hnd as (_ & Hd & _).
  assert (n ∉ l'.*1) as Hn by (intros H; apply (Hd _ H); simpl; left).
  split_and!; [done| |].
  - rw /evict_lru Hl last_snoc. by rw removelast_last.
  - pose proof (unlink_wf l n k l' [] Hwf Hl Hn) as H. rw app_nil_r in H.
    apply H. simpl. set_solver.
Qed.

(** A stale iterator is undefined behaviour in [touch] and in [remove]. *)
Lemma stale_node l n :
  n ∉ (list_ l).*1 → touch n l = Fail (Undef BadIterator) ∧ remove n l = Fail (Undef BadIterator).
Proof. intros Hn. by rw /touch /remove unlink_None. Qed.

End LruList.
