(* ===== verification/Storage.v ===== *)
(** The sharded store: src/storage/Entry.hpp, Store.{hpp,cpp} and the clock of
    src/util/TimeUtils.hpp.

    [World] is what a store operation sees: the store and the system clock.
    Every critical section of Store.cpp is one function on the locked shard
    (or, where the lock is shared, a read of it); an operation is the sequence
    of its sections.  [lru_node] is a pointer to a heap cell that holds a list
    iterator, so [Shard] carries the cells that [new LruList::Node] allocated
    for its entries and [delete] has not freed: a use after free, a double
    free and a leak are visible in the model. *)

From S2P Require Import Prelude Lru.

Module Store.

(** ** Entry.hpp *)

(** A heap address returned by [new LruList::Node]. *)
Definition Ptr : Type := nat.

Record Entry := mkEntry {
  value : bytes;
  expires_at_ms : Z;
  lru_node : option Ptr    (* nullptr is [None] *)
}.

#[global] Instance Entry_eq_dec : EqDecision Entry.
Proof. solve_decision. Defined.

Definition has_expiry (e : Entry) : bool := 0 <=? expires_at_ms e.
Definition is_expired (e : Entry) (now_ms : Z) : bool :=
  has_expiry e && (expires_at_ms e <=? now_ms).

(** ** What the code takes from its platform

    [std::hash<std::string>], the iteration order of a
    [std::unordered_map] and libc's [fnmatch] are parameters. *)
Class Platform := {
  hash_string : bytes → N;
  bucket_order : gmap bytes Entry → list (bytes * Entry);
  (** iterating a map visits each of its elements exactly once *)
  bucket_order_perm : ∀ m, bucket_order m ≡ₚ map_to_list m;
  (** [fnmatch(pattern, string, 0)]: 0 is a match *)
  fnmatch : bytes → bytes → Z
}.

(** ** Store.hpp *)

Definition SHARD_COUNT : nat := 16.

Record Shard := mkShard {
  map : gmap bytes Entry;
  lru : LruList.t;
  cells : gmap Ptr LruList.Node;   (* live [LruList::Node] heap cells *)
  next_cell : Ptr
}.

Record Store := mkStore { shards_ : list Shard; max_keys_ : Z }.

Record World := mkWorld {
  clock : nat → Z;      (* the successive readings of [system_clock] *)
  ticks : nat;          (* how many of them were taken *)
  store : Store
}.

Definition set_store (s : Store) (w : World) : World := mkWorld (clock w) (ticks w) s.

(** [util::now_ms()]: one more reading of the clock. *)
Definition now_ms : M World Z :=
  λ w, Ret (clock w (ticks w), mkWorld (clock w) (S (ticks w)) (store w)).

Definition empty_shard : Shard := mkShard ∅ LruList.new ∅ 0%nat.
(** The store that [Store::Store] makes. *)
Definition new_store (max_keys : Z) : Store :=
  mkStore (replicate SHARD_COUNT empty_shard) max_keys.

(** [Store::Store]; [reserve i n] is what the map of shard [i] throws when it is
    asked for room for [n] entries, [None] where there is room. *)
Definition make_store (reserve : nat → Z → option exn) (max_keys : Z) : outcome Store :=
  let? _ := foldO (λ _ i, match reserve i (max_keys / Z.of_nat SHARD_COUNT + 64) with
                          | None => Ret tt
                          | Some x => Fail (Throw x)
                          end) (seq 0 SHARD_COUNT) tt in
  Ret (new_store max_keys).

(** ** The heap cells of a shard *)

(** [new LruList::Node(n)] *)
Definition new_node (n : LruList.Node) (sh : Shard) : Ptr * Shard :=
  (next_cell sh,
   mkShard (map sh) (lru sh) (<[next_cell sh := n]> (cells sh)) (S (next_cell sh))).

(** [*static_cast<LruList::Node*>(p)] *)
Definition deref (p : option Ptr) (sh : Shard) : outcome LruList.Node :=
  match p with
  | None => Fail (Undef BadPointer)
  | Some a => match cells sh !! a with
              | None => Fail (Undef BadPointer)
              | Some n => Ret n
              end
  end.

(** [delete static_cast<LruList::Node*>(p)] of a non-null pointer. *)
Definition delete_node (p : option Ptr) (sh : Shard) : outcome Shard :=
  match p with
  | None => Ret sh       (* delete nullptr does nothing *)
  | Some a => match cells sh !! a with
              | None => Fail (Undef BadPointer)
              | Some _ => Ret (mkShard (map sh) (lru sh) (delete a (cells sh)) (next_cell sh))
              end
  end.

Definition with_map (m : gmap bytes Entry) (sh : Shard) : Shard :=
  mkShard m (lru sh) (cells sh) (next_cell sh).
Definition with_lru (l : LruList.t) (sh : Shard) : Shard :=
  mkShard (map sh) l (cells sh) (next_cell sh).

(** [lru.remove( *node ); delete node; map.erase(it);] with [it] at [key]. *)
Definition erase_entry (sh : Shard) (key : bytes) (e : Entry) : outcome Shard :=
  let? node := deref (lru_node e) sh in
  let? l := LruList.remove node (lru sh) in
  let? sh1 := delete_node (lru_node e) (with_lru l sh) in
  Ret (with_map (delete key (map sh1)) sh1).

(** [lru.touch( *node )] *)
Definition touch_entry (sh : Shard) (e : Entry) : outcome Shard :=
  let? node := deref (lru_node e) sh in
  let? l := LruList.touch node (lru sh) in
  Ret (with_lru l sh).

(** [Store::set_locked] *)
Definition set_locked (sh : Shard) (key val : bytes) (expires_at : Z) : outcome Shard :=
  match map sh !! key with
  | Some e =>
      let e' := mkEntry val expires_at (lru_node e) in
      touch_entry (with_map (<[key := e']> (map sh)) sh) e'
  | None =>
      let e := mkEntry val expires_at None in
      let sh1 := with_map (<[key := e]> (map sh)) sh in
      let '(n, l) := LruList.insert key (lru sh1) in
      let '(p, sh2) := new_node n (with_lru l sh1) in
      Ret (with_map (<[key := mkEntry val expires_at (Some p)]> (map sh2)) sh2)
  end.

Section Operations.
Context {plat : Platform}.

(** [std::hash<std::string>{}(key) % SHARD_COUNT] *)
Definition shard_for (key : bytes) : nat :=
  N.to_nat (hash_string key `mod` N.of_nat SHARD_COUNT)%N.

(** [shards_[i]], read under its lock. *)
Definition read_shard (i : nat) : M World Shard :=
  λ w, match shards_ (store w) !! i with
       | Some sh => Ret (sh, w)
       | None => Fail (Undef OutOfBounds)
       end.

Definition write_shard (i : nat) (sh : Shard) : M World unit :=
  modify (λ w, set_store (mkStore (<[i := sh]> (shards_ (store w))) (max_keys_ (store w))) w).

(** [Store::size] *)
Definition size_of (s : Store) : Z :=
  foldl (λ total sh, total + Z.of_nat (base.size (map sh))) 0 (shards_ s).
Definition size : M World Z := gets (λ w, size_of (store w)).

(** The scan of [Store::maybe_evict]: first shard with the largest map. *)
Definition largest (shards : list Shard) : nat :=
  (foldl (λ '(max_sz, max_idx, i) sh,
            let sz := base.size (map sh) in
            if Nat.ltb max_sz sz then (sz, i, S i) else (max_sz, max_idx, S i))
         (0, 0, 0)%nat shards).1.2.

(** The exclusive section of [Store::maybe_evict]. *)
Definition evict_locked (sh : Shard) : outcome Shard :=
  if LruList.empty (lru sh) then Ret sh else
  let? (evict_key, l) := LruList.evict_lru (lru sh) in
  let sh1 := with_lru l sh in
  match map sh1 !! evict_key with
  | None => Ret sh1
  | Some e =>
      let? sh2 := delete_node (lru_node e) sh1 in
      Ret (with_map (delete evict_key (map sh2)) sh2)
  end.

(** [Store::maybe_evict] *)
Definition maybe_evict : M World unit :=
  let! approx := size in
  let! max_keys := gets (λ w, max_keys_ (store w)) in
  if approx <? max_keys then ret tt else
  let! max_idx := gets (λ w, largest (shards_ (store w))) in
  let! sh := read_shard max_idx in
  let! sh' := lift (evict_locked sh) in
  write_shard max_idx sh'.

(** [Store::set] *)
Definition set (key val : bytes) (ttl_ms : Z) : M World unit :=
  maybe_evict ;;;
  let! expires_at := (if 0 <? ttl_ms
                      then let! now := now_ms in lift (checked (now + ttl_ms))
                      else ret (-1)) in
  let i := shard_for key in
  let! sh := read_shard i in
  let! sh' := lift (set_locked sh key val expires_at) in
  write_shard i sh'.

(** [Store::get], the section under the shared lock: [Some r] is
    [return r], [None] falls through to the exclusive section. *)
Definition get_shared (key : bytes) : M World (option (option bytes)) :=
  let! sh := read_shard (shard_for key) in
  match map sh !! key with
  | None => ret (Some None)
  | Some e =>
      let! now := now_ms in
      if is_expired e now then ret None else ret (Some (Some (value e)))
  end.

(** [Store::get], the section under the exclusive lock. *)
Definition get_exclusive (key : bytes) : M World (option bytes) :=
  let i := shard_for key in
  let! sh := read_shard i in
  match map sh !! key with
  | None => ret None
  | Some e =>
      let! now := now_ms in
      if is_expired e now then
        let! sh' := lift (erase_entry sh key e) in
        write_shard i sh' ;;;
        ret None
      else
        let! sh' := lift (touch_entry sh e) in
        write_shard i sh' ;;;
        ret (Some (value e))
  end.

(** [Store::get] *)
Definition get (key : bytes) : M World (option bytes) :=
  let! r := get_shared key in
  match r with
  | Some res => ret res
  | None => get_exclusive key
  end.

(** [Store::del] *)
Definition del (key : bytes) : M World bool :=
  let i := shard_for key in
  let! sh := read_shard i in
  match map sh !! key with
  | None => ret false
  | Some e =>
      let! sh' := lift (erase_entry sh key e) in
      write_shard i sh' ;;;
      ret true
  end.

(** [Store::exists] *)
Definition exists_ (key : bytes) : M World bool :=
  let! sh := read_shard (shard_for key) in
  match map sh !! key with
  | None => ret false
  | Some e => let! now := now_ms in ret (negb (is_expired e now))
  end.

(** [Store::ttl] *)
Definition ttl (key : bytes) : M World Z :=
  let! sh := read_shard (shard_for key) in
  match map sh !! key with
  | None => ret (-2)
  | Some e =>
      if negb (has_expiry e) then ret (-1) else
      let! now := now_ms in
      let! remaining := lift (checked (expires_at_ms e - now)) in
      ret (if 0 <? remaining then remaining else -2)
  end.

(** [Store::expire] *)
Definition expire (key : bytes) (ttl_ms : Z) : M World bool :=
  let i := shard_for key in
  let! sh := read_shard i in
  match map sh !! key with
  | None => ret false
  | Some e =>
      let! now := now_ms in
      if is_expired e now then ret false else
      let! now' := now_ms in
      let! at_ms := lift (checked (now' + ttl_ms)) in
      write_shard i (with_map (<[key := mkEntry (value e) at_ms (lru_node e)]> (map sh)) sh) ;;;
      ret true
  end.

(** [++current; set_locked(shard, key, std::to_string(current), -1);] *)
Definition incr_store (i : nat) (sh : Shard) (key : bytes) (current : Z) : M World (option Z) :=
  let! next := lift (checked (current + 1)) in
  let! sh' := lift (set_locked sh key (to_string next) (-1)) in
  write_shard i sh' ;;;
  ret (Some next).

(** [Store::incr] *)
Definition incr (key : bytes) : M World (option Z) :=
  let i := shard_for key in
  let! sh := read_shard i in
  match map sh !! key with
  | None => incr_store i sh key 0
  | Some e =>
      let! now := now_ms in
      if is_expired e now then
        let! sh' := lift (erase_entry sh key e) in
        incr_store i sh' key 0
      else
        let '(r, current) := from_chars (value e) 0 in
        if bool_decide (fc_ec r ≠ errc_ok) then ret None
        else incr_store i sh key current
  end.

(** [s.c_str()] ends at the first NUL. *)
Fixpoint c_str (s : bytes) : bytes :=
  match s with
  | [] => []
  | b :: s' => if bool_decide (b = Byte.x00) then [] else b :: c_str s'
  end.

(** The filter of [Store::keys]. *)
Definition key_selected (pattern : bytes) (now : Z) (kv : bytes * Entry) : bool :=
  negb (is_expired kv.2 now) &&
  (bool_decide (pattern = bs "*") || (fnmatch (c_str pattern) (c_str kv.1) =? 0)).

(** [Store::keys] *)
Definition keys (pattern : bytes) : M World (list bytes) :=
  let! now := now_ms in
  let! shards := gets (λ w, shards_ (store w)) in
  ret (foldl (λ result sh,
          foldl (λ result kv, if key_selected pattern now kv then result ++ [kv.1] else result)
                result (bucket_order (map sh)))
        [] shards).

(** One shard of [Store::flush]: free every cell, clear the map, reset the list. *)
Definition flush_locked (sh : Shard) : outcome Shard :=
  let? sh1 := foldO (λ s kv, delete_node (lru_node kv.2) s) (bucket_order (map sh)) sh in
  Ret (with_lru (LruList.reset (lru sh1)) (with_map ∅ sh1)).

(** Runs one locked section on every shard, in order. *)
Definition for_shards (f : Shard → outcome Shard) : M World unit :=
  foldM (λ _ i,
    let! sh := read_shard i in
    let! sh' := lift (f sh) in
    write_shard i sh') (seq 0 SHARD_COUNT) tt.

(** [Store::flush] *)
Definition flush : M World unit := for_shards flush_locked.

(** One shard of [Store::sweep_expired]. *)
Definition sweep_locked (now : Z) (sh : Shard) : outcome Shard :=
  foldO (λ s kv, if is_expired kv.2 now then erase_entry s kv.1 kv.2 else Ret s)
        (bucket_order (map sh)) sh.

(** [Store::sweep_expired] *)
Definition sweep_expired : M World unit :=
  let! now := now_ms in
  for_shards (sweep_locked now).

(** [Store::for_each]: the callback, as a fold over its own state. *)
Definition for_each {B} (cb : B → bytes → bytes → Z → B) (acc : B) : M World B :=
  let! now := now_ms in
  let! shards := gets (λ w, shards_ (store w)) in
  ret (foldl (λ acc sh,
          foldl (λ acc kv, if is_expired kv.2 now then acc
                           else cb acc kv.1 (value kv.2) (expires_at_ms kv.2))
                acc (bucket_order (map sh)))
        acc shards).

End Operations.

(** A concrete platform: the hash adds the bytes, maps iterate in key order and
    patterns match literally. *)
Definition demo_platform : Platform := {|
  hash_string k := foldl (λ h b, (h + Byte.to_N b)%N) 0%N k;
  bucket_order m := map_to_list m;
  bucket_order_perm m := reflexivity _;
  fnmatch p k := if bool_decide (p = k) then 0 else 1
|}.

End Store.
