(* ===== verification/StorageInv.v ===== *)
(** Memory safety of the store.

    [shard_ok] ties the three structures of a shard together: the hash map,
    the access-order list and the heap cells that connect them.  Every locked
    section of Store.cpp keeps it and never reaches a dangling iterator, a
    freed cell or an index out of range. *)

From S2P Require Import Prelude Lru Storage.

Module StoreInv.
Import Store.

Section Inv.
Context {plat : Platform}.

(** The list node that the entry at [k] points to. *)
Definition node_of (sh : Shard) (k : bytes) : option LruList.Node :=
  e ← map sh !! k; p ← lru_node e; cells sh !! p.

Record shard_ok (i : nat) (sh : Shard) : Prop := {
  ok_lru : LruList.wf (lru sh);
  ok_list : ∀ n k, (n, k) ∈ LruList.list_ (lru sh) ↔ node_of sh k = Some n;
  ok_ptr : ∀ k e, map sh !! k = Some e → is_Some (node_of sh k);
  ok_cells : ∀ p n, cells sh !! p = Some n →
    ∃ k e, map sh !! k = Some e ∧ lru_node e = Some p;
  ok_next : ∀ p n, cells sh !! p = Some n → (p < next_cell sh)%nat;
  ok_hash : ∀ k e, map sh !! k = Some e → shard_for k = i
}.

Record store_ok (s : Store) : Prop := {
  ok_count : length (shards_ s) = SHARD_COUNT;
  ok_shards : ∀ i sh, shards_ s !! i = Some sh → shard_ok i sh
}.

(** ** Facts about one entry *)

Lemma node_of_Some sh k e p n :
  map sh !! k = Some e → lru_node e = Some p → cells sh !! p = Some n →
  node_of sh k = Some n.
Proof. intros H1 H2 H3. by rw /node_of H1 /= H2 /= H3. Qed.

Lemma entry_node i sh k e :
  shard_ok i sh → map sh !! k = Some e →
  ∃ p n, lru_node e = Some p ∧ cells sh !! p = Some n ∧ (n, k) ∈ LruList.list_ (lru sh).
Proof.
  intros Hok Hk. destruct (ok_ptr _ _ Hok k e Hk) as [n Hn].
  pose proof (proj2 (ok_list _ _ Hok n k) Hn) as Hin.
  rw /node_of Hk /= in Hn. destruct (lru_node e) as [p|] eqn:Hp; simpl in Hn; [|done].
  eauto.
Qed.

(** The keys of the list are distinct, and so are the cells of the entries. *)
Lemma node_key_inj i sh n k1 k2 :
  shard_ok i sh → (n, k1) ∈ LruList.list_ (lru sh) → (n, k2) ∈ LruList.list_ (lru sh) → k1 = k2.
Proof.
  intros Hok H1 H2. pose proof (LruList.wf_nodup _ (ok_lru _ _ Hok)) as Hnd.
  apply list_elem_of_lookup in H1 as [j1 H1]. apply list_elem_of_lookup in H2 as [j2 H2].
  assert (j1 = j2) as ->; [|congruence].
  eapply (NoDup_lookup _ j1 j2 n Hnd); rw list_lookup_fmap; [by rw H1|by rw H2].
Qed.

Lemma ptr_inj i sh k1 k2 e1 e2 p :
  shard_ok i sh → map sh !! k1 = Some e1 → map sh !! k2 = Some e2 →
  lru_node e1 = Some p → lru_node e2 = Some p → k1 = k2.
Proof.
  intros Hok H1 H2 Hp1 Hp2.
  destruct (entry_node _ _ _ _ Hok H1) as (p1 & n1 & ? & Hc1 & Hin1).
  destruct (entry_node _ _ _ _ Hok H2) as (p2 & n2 & ? & Hc2 & Hin2).
  assert (n1 = n2) as -> by congruence. by eapply node_key_inj.
Qed.

Lemma shard_ok_empty i f c : shard_ok i (mkShard ∅ (LruList.mk [] f) ∅ c).
Proof.
  split; simpl; intros *; rw ?/node_of ?lookup_empty //.
  - split; [constructor|]. intros n k Hin. inversion Hin.
  - split; [intros Hin; inversion Hin|done].
Qed.

Lemma new_store_ok max_keys : store_ok (new_store max_keys).
Proof.
  split; [done|]. intros i sh [-> _]%lookup_replicate. apply shard_ok_empty.
Qed.

(** ** The locked sections *)

Lemma elem_of_unlinked {n k : _} {m : nat} {k' : bytes} {l1 l2 : list (nat * bytes)} :
  n ∉ (l1 ++ l2).*1 →
  (m, k') ∈ l1 ++ l2 ↔ (m, k') ∈ l1 ++ (n, k) :: l2 ∧ m ≠ n.
Proof.
  intros Hn. rw !elem_of_app elem_of_cons. split.
  - intros H. split; [naive_solver|]. intros ->. apply Hn, list_elem_of_fmap.
    exists (n, k'). split; [done|]. by apply elem_of_app.
  - intros [[H|[[= -> ->]|H]] Hne]; naive_solver.
Qed.

(** Taking the entry at [k] out of the map, its node out of the list and its
    cell off the heap. *)
Lemma shard_ok_erase i sh k e p n l1 l2 :
  shard_ok i sh → map sh !! k = Some e → lru_node e = Some p → cells sh !! p = Some n →
  LruList.list_ (lru sh) = l1 ++ (n, k) :: l2 → n ∉ (l1 ++ l2).*1 →
  LruList.wf (LruList.mk (l1 ++ l2) (LruList.fresh (lru sh))) →
  shard_ok i (mkShard (delete k (map sh)) (LruList.mk (l1 ++ l2) (LruList.fresh (lru sh)))
                      (delete p (cells sh)) (next_cell sh)).
Proof.
  intros Hok Hk Hp Hc Hl Hn Hwf.
  assert (∀ k', k' ≠ k → node_of (mkShard (delete k (map sh))
    (LruList.mk (l1 ++ l2) (LruList.fresh (lru sh))) (delete p (cells sh)) (next_cell sh)) k'
    = node_of sh k') as Hnode.
  { intros k' Hne. rw /node_of /= lookup_delete_ne; [done|].
    destruct (map sh !! k') as [e'|] eqn:Hk'; simpl; [|done].
    destruct (lru_node e') as [p'|] eqn:Hp'; simpl; [|done].
    rw lookup_delete_ne; [|done]. intros <-. by apply Hne, (ptr_inj i sh k' k e' e p). }
  split; simpl.
  - done.
  - intros m k'. rw (elem_of_unlinked (k := k) Hn) -Hl (ok_list _ _ Hok).
    destruct (decide (k' = k)) as [->|Hne].
    + rw (node_of_Some sh k e p n) //. rw /node_of /= lookup_delete_eq. naive_solver.
    + rw Hnode; [done|]. split; [naive_solver|]. intros H. split; [done|]. intros ->.
      apply Hne. apply (node_key_inj i sh n); [done| |].
      * by apply (ok_list _ _ Hok).
      * rw Hl. set_solver.
  - intros k' e' [Hne Hk']%lookup_delete_Some. rw Hnode; [done|].
    by eapply ok_ptr.
  - intros p' n' [Hne Hc']%lookup_delete_Some.
    destruct (ok_cells _ _ Hok _ _ Hc') as (k' & e' & Hk' & Hp').
    exists k', e'. split; [|done]. rw lookup_delete_ne; [congruence|done].
  - intros p' n' [Hne Hc']%lookup_delete_Some. by eapply ok_next.
  - intros k' e' [Hne Hk']%lookup_delete_Some. by eapply ok_hash.
Qed.

Lemma erase_entry_ok i sh k e :
  shard_ok i sh → map sh !! k = Some e →
  ∃ sh' n l1 l2, erase_entry sh k e = Ret sh' ∧ shard_ok i sh' ∧
    map sh' = delete k (map sh) ∧
    LruList.list_ (lru sh) = l1 ++ (n, k) :: l2 ∧ LruList.list_ (lru sh') = l1 ++ l2.
Proof.
  intros Hok Hk. destruct (entry_node _ _ _ _ Hok Hk) as (p & n & Hp & Hc & Hin).
  destruct (LruList.remove_spec _ _ _ (ok_lru _ _ Hok) Hin) as (l1 & l2 & Hl & Hn & Hr & Hwf).
  eexists _, n, l1, l2. split_and!.
  - rw /erase_entry Hp /deref Hc /= Hr /= Hc /=. reflexivity.
  - by apply (shard_ok_erase i sh k e p n).
  - done.
  - done.
  - done.
Qed.

(** Reordering the list, and changing values and deadlines, keep a shard
    well-formed. *)
Lemma shard_ok_reorder i sh m l :
  shard_ok i sh → LruList.wf l →
  (∀ x, x ∈ LruList.list_ l ↔ x ∈ LruList.list_ (lru sh)) →
  (∀ k, lru_node <$> m !! k = lru_node <$> map sh !! k) →
  shard_ok i (mkShard m l (cells sh) (next_cell sh)).
Proof.
  intros Hok Hwf Hl Hm.
  assert (∀ k, node_of (mkShard m l (cells sh) (next_cell sh)) k = node_of sh k) as Hnode.
  { intros k. rw /node_of /=. specialize (Hm k).
    destruct (m !! k), (map sh !! k); simplify_eq/=; [congruence|done]. }
  assert (∀ k e, m !! k = Some e → ∃ e', map sh !! k = Some e' ∧ lru_node e' = lru_node e) as Hex.
  { intros k e Hk. specialize (Hm k). rw Hk in Hm.
    destruct (map sh !! k) as [e'|]; simplify_eq/=. by exists e'. }
  split; simpl.
  - done.
  - intros n k. by rw Hl Hnode (ok_list _ _ Hok).
  - intros k e (e' & Hk & _)%Hex. rw Hnode. by eapply ok_ptr.
  - intros p n Hc. destruct (ok_cells _ _ Hok _ _ Hc) as (k & e & Hk & Hp).
    specialize (Hm k). rw Hk in Hm. destruct (m !! k) as [e'|] eqn:?; simplify_eq/=.
    exists k, e'. split; [done|congruence].
  - intros p n. by apply (ok_next i).
  - intros k e (e' & Hk & _)%Hex. by eapply ok_hash.
Qed.

Lemma touch_entry_ok i sh k e m :
  shard_ok i sh → map sh !! k = Some e →
  (∀ k', lru_node <$> m !! k' = lru_node <$> map sh !! k') →
  ∃ sh' n l1 l2, touch_entry (with_map m sh) e = Ret sh' ∧ shard_ok i sh' ∧ map sh' = m ∧
    LruList.list_ (lru sh) = l1 ++ (n, k) :: l2 ∧
    LruList.list_ (lru sh') = (n, k) :: l1 ++ l2.
Proof.
  intros Hok Hk Hm. destruct (entry_node _ _ _ _ Hok Hk) as (p & n & Hp & Hc & Hin).
  destruct (LruList.touch_spec _ _ _ (ok_lru _ _ Hok) Hin) as (l1 & l2 & Hl & Ht & Hwf).
  eexists _, n, l1, l2. split_and!.
  - rw /touch_entry Hp /deref /= Hc /= Ht /=. reflexivity.
  - apply (shard_ok_reorder i sh m (LruList.mk _ _)); [done|done| |done].
    intros x. rw Hl /=. set_solver.
  - done.
  - done.
  - done.
Qed.

(** [set_locked] on a new key: a fresh node, a fresh cell, a new entry. *)
Lemma shard_ok_insert i sh k v x :
  shard_ok i sh → map sh !! k = None → shard_for k = i →
  shard_ok i (mkShard (<[k := mkEntry v x (Some (next_cell sh))]> (map sh))
    (LruList.insert k (lru sh)).2
    (<[next_cell sh := LruList.fresh (lru sh)]> (cells sh)) (S (next_cell sh))).
Proof.
  intros Hok Hk Hi. set (sh' := mkShard _ _ _ _).
  assert (cells sh !! next_cell sh = None) as Hfresh.
  { destruct (cells sh !! next_cell sh) eqn:Hc; [|done].
    pose proof (ok_next _ _ Hok _ _ Hc). lia. }
  assert (node_of sh' k = Some (LruList.fresh (lru sh))) as Hnew.
  { by rw /node_of /sh' /= lookup_insert_eq /= lookup_insert_eq. }
  assert (∀ k', k' ≠ k → node_of sh' k' = node_of sh k') as Hnode.
  { intros k' Hne. rw /node_of /= lookup_insert_ne; [done|].
    destruct (map sh !! k') as [e'|] eqn:Hk'; simpl; [|done].
    destruct (entry_node _ _ _ _ Hok Hk') as (p' & n' & -> & Hc' & _). simpl.
    rw lookup_insert_ne; [congruence|done]. }
  split; simpl.
  - apply LruList.insert_wf, (ok_lru _ _ Hok).
  - intros n k'. rw elem_of_cons. destruct (decide (k' = k)) as [->|Hne].
    + rw Hnew (ok_list _ _ Hok) /node_of Hk /=. naive_solver.
    + rw Hnode; [done|]. rw (ok_list _ _ Hok). naive_solver.
  - intros k' e' Hk'. destruct (decide (k' = k)) as [->|Hne]; [by rw Hnew|].
    rw Hnode; [done|]. rw lookup_insert_ne in Hk'; [done|]. by eapply ok_ptr.
  - intros p n. destruct (decide (p = next_cell sh)) as [->|Hne].
    + intros _. eexists k, _. by rw lookup_insert_eq.
    + rw lookup_insert_ne; [done|]. intros Hc.
      destruct (ok_cells _ _ Hok _ _ Hc) as (k' & e' & Hk' & Hp').
      exists k', e'. rw lookup_insert_ne; [congruence|done].
  - intros p n. destruct (decide (p = next_cell sh)) as [->|Hne]; [lia|].
    rw lookup_insert_ne; [done|]. intros Hc. pose proof (ok_next _ _ Hok _ _ Hc). lia.
  - intros k' e' Hk'. destruct (decide (k' = k)) as [->|Hne]; [done|].
    rw lookup_insert_ne in Hk'; [done|]. by eapply ok_hash.
Qed.

(** [set_locked] succeeds, leaves the value and deadline at [key], keeps every
    other entry, and makes [key] the most recently used. *)
Lemma set_locked_ok i sh k v x :
  shard_ok i sh → shard_for k = i →
  ∃ sh' p n rest, set_locked sh k v x = Ret sh' ∧ shard_ok i sh' ∧
    map sh' = <[k := mkEntry v x p]> (map sh) ∧
    LruList.list_ (lru sh') = (n, k) :: rest.
Proof.
  intros Hok Hi. rw /set_locked. destruct (map sh !! k) as [e|] eqn:Hk.
  - set (e' := mkEntry v x (lru_node e)).
    assert (∀ k', lru_node <$> <[k:=e']> (map sh) !! k' = lru_node <$> map sh !! k') as Hm.
    { intros k'. destruct (decide (k' = k)) as [->|Hne].
      - by rw lookup_insert_eq Hk.
      - by rw lookup_insert_ne. }
    destruct (touch_entry_ok i sh k e _ Hok Hk Hm) as (sh' & n & l1 & l2 & Ht & Hok' & Hm' & _ & Hl).
    exists sh', (lru_node e), n, (l1 ++ l2). split_and!; [|done..]. exact Ht.
  - eexists _, _, _, _. split_and!.
    + rw /= insert_insert_eq. reflexivity.
    + by apply shard_ok_insert.
    + done.
    + done.
Qed.

Lemma node_last i sh n k :
  shard_ok i sh → last (LruList.list_ (lru sh)) = Some (n, k) →
  ∃ e p, map sh !! k = Some e ∧ lru_node e = Some p ∧ cells sh !! p = Some n.
Proof.
  intros Hok Hlast.
  assert (node_of sh k = Some n) as Hn.
  { apply (ok_list _ _ Hok). apply last_Some in Hlast as [l' ->]. set_solver. }
  rw /node_of in Hn. destruct (map sh !! k) as [e|]; [|done].
  simpl in Hn. destruct (lru_node e) as [p|] eqn:Hp; [|done]. eauto.
Qed.

(** The eviction section takes out exactly the least recently used key. *)
Lemma evict_locked_ok i sh n k :
  shard_ok i sh → last (LruList.list_ (lru sh)) = Some (n, k) →
  ∃ sh', evict_locked sh = Ret sh' ∧ shard_ok i sh' ∧ map sh' = delete k (map sh) ∧
    is_Some (map sh !! k) ∧ LruList.list_ (lru sh) = LruList.list_ (lru sh') ++ [(n, k)].
Proof.
  intros Hok Hlast. destruct (node_last _ _ _ _ Hok Hlast) as (e & p & Hk & Hp & Hc).
  apply last_Some in Hlast as [l' Hl].
  destruct (LruList.evict_lru_spec _ _ _ _ (ok_lru _ _ Hok) Hl) as (Hn & He & Hwf).
  assert (LruList.empty (lru sh) = false) as Hne by (rw /LruList.empty Hl; by destruct l').
  eexists. split_and!.
  - rw /evict_locked Hne He /= Hk /= Hp /delete_node /= Hc /=. reflexivity.
  - pose proof (shard_ok_erase i sh k e p n l' []) as H. rw app_nil_r in H. by apply H.
  - done.
  - by rw Hk.
  - done.
Qed.

Lemma evict_locked_empty sh :
  LruList.list_ (lru sh) = [] → evict_locked sh = Ret sh.
Proof. intros H. by rw /evict_locked /LruList.empty H. Qed.

(** ** Loops over the entries of a shard *)

Lemma bucket_order_lookup m k e : (k, e) ∈ bucket_order m ↔ m !! k = Some e.
Proof. by rw bucket_order_perm elem_of_map_to_list. Qed.

Lemma bucket_order_nodup m : NoDup (bucket_order m).*1.
Proof. rw bucket_order_perm. apply NoDup_fst_map_to_list. Qed.

(** Sweeping a list of current entries erases exactly the expired ones. *)
Lemma sweep_loop now i (L : list (bytes * Entry)) sh :
  shard_ok i sh → NoDup L.*1 → (∀ k e, (k, e) ∈ L → map sh !! k = Some e) →
  ∃ sh', foldO (λ s kv, if is_expired kv.2 now then erase_entry s kv.1 kv.2 else Ret s) L sh
         = Ret sh' ∧ shard_ok i sh' ∧
    ∀ k, map sh' !! k = match map sh !! k with
                        | Some e => if bool_decide ((k, e) ∈ L) && is_expired e now
                                    then None else Some e
                        | None => None
                        end.
Proof.
  revert sh. induction L as [|[k0 e0] L IH]; intros sh Hok Hnd HL; simpl.
  { exists sh. split_and!; [done..|]. intros k. by destruct (map sh !! k). }
  simpl in Hnd. apply NoDup_cons in Hnd as [Hk0 Hnd].
  assert (map sh !! k0 = Some e0) as Hm0 by (apply HL; left).
  assert (∀ k e, (k, e) ∈ L → k ≠ k0) as Hne.
  { intros k e Hin ->. apply Hk0, list_elem_of_fmap. by exists (k0, e). }
  destruct (is_expired e0 now) eqn:Hexp.
  - destruct (erase_entry_ok _ _ _ _ Hok Hm0) as (sh1 & n & l1 & l2 & Her & Hok1 & Hm1 & _).
    destruct (IH sh1 Hok1 Hnd) as (sh' & Hf & Hok' & Hm').
    { intros k e Hin. rw Hm1 lookup_delete_ne; [by apply not_eq_sym, (Hne _ e)|].
      apply HL. by right. }
    exists sh'. rw Her /= Hf. split_and!; [done..|]. intros k. rw Hm' Hm1.
    destruct (decide (k = k0)) as [->|Hk].
    + rw lookup_delete_eq Hm0 bool_decide_true; [left|]. by rw Hexp.
    + rw lookup_delete_ne; [done|]. destruct (map sh !! k) as [e|]; [|done].
      by rw (bool_decide_ext _ ((k, e) ∈ (k0, e0) :: L)); [rw elem_of_cons; naive_solver|].
  - destruct (IH sh Hok Hnd) as (sh' & Hf & Hok' & Hm').
    { intros k e Hin. apply HL. by right. }
    exists sh'. rw /= Hf. split_and!; [done..|]. intros k. rw Hm'.
    destruct (map sh !! k) as [e|] eqn:Hk; [|done].
    destruct (decide (k = k0)) as [->|Hne']; [simplify_eq; by rw Hexp !andb_false_r|].
    by rw (bool_decide_ext _ ((k, e) ∈ (k0, e0) :: L)); [rw elem_of_cons; naive_solver|].
Qed.

Lemma sweep_locked_ok now i sh :
  shard_ok i sh →
  ∃ sh', sweep_locked now sh = Ret sh' ∧ shard_ok i sh' ∧
    ∀ k, map sh' !! k = match map sh !! k with
                        | Some e => if is_expired e now then None else Some e
                        | None => None
                        end.
Proof.
  intros Hok. destruct (sweep_loop now i (bucket_order (map sh)) sh Hok) as (sh' & Hf & Hok' & Hm).
  - apply bucket_order_nodup.
  - intros k e. apply bucket_order_lookup.
  - exists sh'. split_and!; [done..|]. intros k. rw Hm.
    destruct (map sh !! k) as [e|] eqn:Hk; [|done].
    by rw bool_decide_true; [apply bucket_order_lookup|].
Qed.

(** Freeing the cells of a list of entries with distinct pointers. *)
Lemma flush_loop (L : list (bytes * Entry)) sh :
  NoDup (lru_node ∘ snd <$> L) →
  (∀ k e, (k, e) ∈ L → ∃ p n, lru_node e = Some p ∧ cells sh !! p = Some n) →
  ∃ c, foldO (λ s kv, delete_node (lru_node kv.2) s) L sh
       = Ret (mkShard (map sh) (lru sh) c (next_cell sh)) ∧
    ∀ p n, c !! p = Some n → cells sh !! p = Some n ∧ ∀ k e, (k, e) ∈ L → lru_node e ≠ Some p.
Proof.
  revert sh. induction L as [|[k0 e0] L IH]; intros sh Hnd HL; simpl.
  { exists (cells sh). split; [by destruct sh|]. intros p n Hc. split; [done|].
    intros k e Hin. inversion Hin. }
  simpl in Hnd. apply NoDup_cons in Hnd as [Hp0 Hnd].
  destruct (HL k0 e0) as (p0 & n0 & Hp & Hc0); [left|].
  rw Hp /delete_node Hc0 /=.
  destruct (IH (mkShard (map sh) (lru sh) (delete p0 (cells sh)) (next_cell sh)) Hnd) as (c & Hf & Hc).
  - intros k e Hin. destruct (HL k e) as (p & n & Hpe & Hcp); [by right|].
    exists p, n. split; [done|]. simpl. rw lookup_delete_ne; [|done]. intros <-.
    apply Hp0, list_elem_of_fmap. exists (k, e). split; [|done]. simpl. congruence.
  - exists c. split; [exact Hf|]. intros p n Hcp. destruct (Hc _ _ Hcp) as [Hd Hno].
    simpl in Hd. apply lookup_delete_Some in Hd as [Hne Hd]. split; [done|].
    intros k e [[= -> ->]|Hin]%elem_of_cons; [congruence|by eapply Hno].
Qed.

(** [flush] leaves a shard empty and frees every cell exactly once. *)
Lemma flush_locked_ok i sh :
  shard_ok i sh →
  ∃ sh', flush_locked sh = Ret sh' ∧ shard_ok i sh' ∧ map sh' = ∅ ∧ cells sh' = ∅.
Proof.
  intros Hok. destruct (flush_loop (bucket_order (map sh)) sh) as (c & Hf & Hc).
  - pose proof (bucket_order_nodup (map sh)) as Hnd.
    assert (∀ k e, (k, e) ∈ bucket_order (map sh) → map sh !! k = Some e) as HL
      by (intros; by apply bucket_order_lookup).
    induction (bucket_order (map sh)) as [|[k e] L IH]; [constructor|].
    simpl in *. apply NoDup_cons in Hnd as [Hk Hnd]. constructor.
    + intros ([k' e'] & Hp & Hin)%list_elem_of_fmap. simpl in Hp.
      assert (map sh !! k = Some e) as Hke by (apply HL; left).
      assert (map sh !! k' = Some e') as Hke' by (apply HL; by right).
      destruct (entry_node _ _ _ _ Hok Hke) as (p & n & Hpe & _).
      apply Hk, list_elem_of_fmap. exists (k', e'). split; [|done].
      simpl. apply (ptr_inj i sh k k' e e' p); congruence.
    + apply IH; [done|]. intros k' e' Hin. apply HL. by right.
  - intros k e Hin. apply bucket_order_lookup in Hin.
    destruct (entry_node _ _ _ _ Hok Hin) as (p & n & ? & ? & _). eauto.
  - assert (c = ∅) as ->.
    { apply map_empty. intros p. destruct (c !! p) as [n|] eqn:Hp; [|done]. exfalso.
      destruct (Hc _ _ Hp) as [Hcp Hno].
      destruct (ok_cells _ _ Hok _ _ Hcp) as (k & e & Hk & Hpe).
      by apply (Hno k e); [apply bucket_order_lookup|]. }
    rw /flush_locked Hf /=. eexists. split_and!; [reflexivity| |done..].
    apply shard_ok_empty.
Qed.

End Inv.
End StoreInv.
