(* ===== verification/StorageSpec.v ===== *)
(** What the store promises, and that it keeps the promise.

    [Spec] is the contract: a map from keys to values and deadlines, a
    capacity and a clock.  It has no shards, no lists, no heap cells.  An
    eviction is the only choice the contract leaves open, so [Spec.set] takes
    the victim as an argument.  [StoreSpec] shows that every operation of
    Store.cpp on a well-formed store behaves as its counterpart on
    [abs w], and keeps the store well-formed. *)

From S2P Require Import Prelude Lru Storage StorageInv.

Module Spec.

Record World := mkWorld {
  clock : nat → Z;
  ticks : nat;
  contents : gmap bytes (bytes * Z);   (* value and deadline, negative for none *)
  capacity : Z
}.

Definition with_contents (m : gmap bytes (bytes * Z)) (w : World) : World :=
  mkWorld (clock w) (ticks w) m (capacity w).

Definition now : M World Z :=
  λ w, Ret (clock w (ticks w), mkWorld (clock w) (S (ticks w)) (contents w) (capacity w)).

Definition lookup (k : bytes) : M World (option (bytes * Z)) := gets (λ w, contents w !! k).
Definition put (k v : bytes) (x : Z) : M World unit :=
  modify (λ w, with_contents (<[k := (v, x)]> (contents w)) w).
Definition drop (k : bytes) : M World unit :=
  modify (λ w, with_contents (base.delete k (contents w)) w).

Definition expired (x now : Z) : bool := (0 <=? x) && (x <=? now).

(** At capacity one entry, the victim, makes room. *)
Definition make_room (victim : option bytes) : M World unit :=
  let! full := gets (λ w, capacity w <=? Z.of_nat (base.size (contents w))) in
  match victim with
  | Some k => if (full : bool) then drop k else ret tt
  | None => ret tt
  end.

Definition set (victim : option bytes) (key val : bytes) (ttl_ms : Z) : M World unit :=
  make_room victim ;;;
  if 0 <? ttl_ms
  then let! t := now in let! x := lift (checked (t + ttl_ms)) in put key val x
  else put key val (-1).

(** A dead entry is dropped by the second look at the clock. *)
Definition get (key : bytes) : M World (option bytes) :=
  let! r := lookup key in
  match r with
  | None => ret None
  | Some (v, x) =>
      let! t := now in
      if negb (expired x t) then ret (Some v) else
      let! t' := now in
      if expired x t' then drop key ;;; ret None else ret (Some v)
  end.

Definition del (key : bytes) : M World bool :=
  let! r := lookup key in
  match r with
  | None => ret false
  | Some _ => drop key ;;; ret true
  end.

Definition exists_ (key : bytes) : M World bool :=
  let! r := lookup key in
  match r with
  | None => ret false
  | Some (_, x) => let! t := now in ret (negb (expired x t))
  end.

Definition ttl (key : bytes) : M World Z :=
  let! r := lookup key in
  match r with
  | None => ret (-2)
  | Some (_, x) =>
      if x <? 0 then ret (-1) else
      let! t := now in
      let! left_ms := lift (checked (x - t)) in
      ret (if 0 <? left_ms then left_ms else -2)
  end.

Definition expire (key : bytes) (ttl_ms : Z) : M World bool :=
  let! r := lookup key in
  match r with
  | None => ret false
  | Some (v, x) =>
      let! t := now in
      if expired x t then ret false else
      let! t' := now in
      let! x' := lift (checked (t' + ttl_ms)) in
      put key v x' ;;; ret true
  end.

(** A missing or dead counter starts at 0; a counter never keeps a deadline. *)
Definition incr (key : bytes) : M World (option Z) :=
  let bump cur := (let! n := lift (checked (cur + 1)) in
                   put key (to_string n) (-1) ;;; ret (Some n)) in
  let! r := lookup key in
  match r with
  | None => bump 0
  | Some (v, x) =>
      let! t := now in
      if expired x t then bump 0 else
      let '(res, cur) := from_chars v 0 in
      if bool_decide (fc_ec res ≠ errc_ok) then ret None else bump cur
  end.

Definition size : M World Z := gets (λ w, Z.of_nat (base.size (contents w))).
Definition flush : M World unit := modify (with_contents ∅).
Definition sweep_expired : M World unit :=
  let! t := now in
  modify (λ w, with_contents (filter (λ kv, expired kv.2.2 t = false) (contents w)) w).

End Spec.

Module StoreSpec.
Import Store StoreInv.

Section Refinement.
Context {plat : Platform}.

(** ** The abstraction *)

Definition view (e : Entry) : bytes * Z := (value e, expires_at_ms e).

Definition contents (s : Store) : gmap bytes (bytes * Z) :=
  foldr (λ sh m, (view <$> map sh) ∪ m) ∅ (shards_ s).

Definition abs (w : World) : Spec.World :=
  Spec.mkWorld (clock w) (ticks w) (contents (store w)) (max_keys_ (store w)).

Lemma shard_for_lt k : (shard_for k < SHARD_COUNT)%nat.
Proof.
  rw /shard_for. pose proof (N.mod_upper_bound (hash_string k) (N.of_nat SHARD_COUNT)).
  rw /SHARD_COUNT in H |- *. lia.
Qed.

(** Shards from position [j] on, each holding only the keys that hash to it. *)
Definition placed (j : nat) (l : list Shard) : Prop :=
  ∀ a sh k e, l !! a = Some sh → map sh !! k = Some e → shard_for k = (j + a)%nat.

Lemma placed_cons j sh l :
  placed j (sh :: l) → (∀ k e, map sh !! k = Some e → shard_for k = j) ∧ placed (S j) l.
Proof.
  intros H. split.
  - intros k e Hk. by rw (H 0%nat sh k e) // Nat.add_0_r.
  - intros a sh' k e Ha Hk. rw (H (S a) sh' k e) //; lia.
Qed.

Lemma store_placed s : store_ok s → placed 0 (shards_ s).
Proof. intros Hok a sh k e Ha. by apply (ok_hash _ _ (ok_shards _ Hok _ _ Ha)). Qed.

Lemma foldr_lookup j l k :
  placed j l →
  foldr (λ sh m, (view <$> map sh) ∪ m) ∅ l !! k =
    if bool_decide (j ≤ shard_for k)%nat
    then sh ← l !! (shard_for k - j)%nat; view <$> map sh !! k
    else None.
Proof.
  revert j. induction l as [|sh l IH]; intros j H; simpl.
  { rw lookup_empty. by case_bool_decide. }
  apply placed_cons in H as [H0 H]. rw lookup_union lookup_fmap (IH (S j)) //.
  destruct (decide (shard_for k = j)) as [<-|Hne].
  - rw bool_decide_false; [lia|]. rw bool_decide_true; [lia|]. rw Nat.sub_diag /=.
    by destruct (map sh !! k).
  - destruct (map sh !! k) as [e|] eqn:Hk; [by apply H0 in Hk|]. rw /= left_id_L.
    do 2 case_bool_decide; [|lia|lia|done].
    by replace (shard_for k - j)%nat with (S (shard_for k - S j)) by lia.
Qed.

Lemma contents_lookup s k :
  store_ok s → contents s !! k = sh ← shards_ s !! shard_for k; view <$> map sh !! k.
Proof.
  intros Hok. rw /contents (foldr_lookup 0); [by apply store_placed|].
  rw bool_decide_true; [lia|]. by rw Nat.sub_0_r.
Qed.

Lemma contents_size s : store_ok s → size_of s = Z.of_nat (base.size (contents s)).
Proof.
  intros Hok%store_placed. rw /size_of /contents.
  enough (∀ j l z, placed j l →
    foldl (λ total sh, total + Z.of_nat (base.size (map sh))) z l =
    z + Z.of_nat (base.size (foldr (λ sh m, (view <$> map sh) ∪ m) ∅ l))) as Hall by (by rw (Hall 0%nat)).
  clear. intros j l. revert j. induction l as [|sh l IH]; intros j z H; simpl.
  { rw map_size_empty. lia. }
  pose proof (placed_cons _ _ _ H) as [H0 H1]. rw (IH (S j)) // map_size_disj_union.
  - apply map_disjoint_spec. intros k x y. rw lookup_fmap (foldr_lookup (S j)) //.
    destruct (map sh !! k) eqn:Hk; [|done]. apply H0 in Hk. rw bool_decide_false; [lia|done].
  - rw map_size_fmap. lia.
Qed.

(** ** Replacing one shard *)

Definition put_shard (i : nat) (sh : Shard) (w : World) : World :=
  set_store (mkStore (<[i := sh]> (shards_ (store w))) (max_keys_ (store w))) w.

Lemma store_ok_put i sh w :
  store_ok (store w) → shard_ok i sh → store_ok (store (put_shard i sh w)).
Proof.
  intros Hok Hsh. split; simpl; [by rw length_insert; apply ok_count|].
  intros j sh' [(-> & -> & _)|[_ Hj]]%list_lookup_insert_Some; [done|]. by apply (ok_shards _ Hok).
Qed.

(** If the locked section changed the map of its shard by [f] on the entries,
    it changed the contents by [f]. *)
Lemma abs_put i sh sh' w m' :
  store_ok (store w) → shards_ (store w) !! i = Some sh → shard_ok i sh' →
  (∀ k, shard_for k = i → m' !! k = view <$> map sh' !! k) →
  (∀ k, shard_for k ≠ i → m' !! k = contents (store w) !! k) →
  abs (put_shard i sh' w) = Spec.with_contents m' (abs w).
Proof.
  intros Hok Hi Hsh H1 H2. rw /abs /Spec.with_contents /=. f_equal. apply map_eq. intros k.
  rw contents_lookup; [by apply store_ok_put|]. simpl.
  destruct (decide (shard_for k = i)) as [<-|Hne].
  - rw list_lookup_insert_eq; [by eapply lookup_lt_Some|]. by rw /= H1.
  - rw list_lookup_insert_ne; [done|]. by rw H2 // contents_lookup.
Qed.

Lemma abs_put_insert k sh sh' w e :
  store_ok (store w) → shards_ (store w) !! shard_for k = Some sh → shard_ok (shard_for k) sh' →
  map sh' = <[k := e]> (map sh) →
  abs (put_shard (shard_for k) sh' w) =
    Spec.with_contents (<[k := view e]> (contents (store w))) (abs w).
Proof.
  intros Hok Hi Hsh Hm. apply (abs_put _ sh); [done..| |].
  - intros k' Hk'. rw Hm. destruct (decide (k' = k)) as [->|Hne].
    + by rw !lookup_insert_eq.
    + rw !lookup_insert_ne // contents_lookup // Hk' Hi //.
  - intros k' Hk'. rw lookup_insert_ne; [congruence|done].
Qed.

Lemma abs_put_delete k sh sh' w i :
  store_ok (store w) → shards_ (store w) !! i = Some sh → shard_for k = i → shard_ok i sh' →
  map sh' = delete k (map sh) →
  abs (put_shard i sh' w) = Spec.with_contents (delete k (contents (store w))) (abs w).
Proof.
  intros Hok Hi Hk Hsh Hm. apply (abs_put _ sh); [done..| |].
  - intros k' Hk'. rw Hm. destruct (decide (k' = k)) as [->|Hne].
    + by rw !lookup_delete_eq.
    + rw !lookup_delete_ne // contents_lookup // Hk' Hi //.
  - intros k' Hk'. rw lookup_delete_ne; [congruence|done].
Qed.

Lemma abs_put_same i sh sh' w :
  store_ok (store w) → shards_ (store w) !! i = Some sh → shard_ok i sh' →
  map sh' = map sh → abs (put_shard i sh' w) = abs w.
Proof.
  intros Hok Hi Hsh Hm. rw (abs_put i sh sh' w (contents (store w))) //.
  intros k Hk. rw Hm contents_lookup // Hk Hi //.
Qed.

(** ** Simulation: the same result in related states, or the same overflow *)

Definition sim {A} (w : World) (m : M World A) (m' : M Spec.World A) : Prop :=
  match m w with
  | Ret (a, w') => m' (abs w) = Ret (a, abs w') ∧ store_ok (store w')
  | Fail f => m' (abs w) = Fail f ∧ overflow_only f
  end.

Definition tick (w : World) : World := mkWorld (clock w) (S (ticks w)) (store w).

Lemma sim_ret {A} (a : A) w : store_ok (store w) → sim w (ret a) (ret a).
Proof. done. Qed.

Lemma sim_bind {A B} w (m : M World A) m' (k : A → M World B) k' :
  sim w m m' → (∀ a w', store_ok (store w') → sim w' (k a) (k' a)) →
  sim w (bind m k) (bind m' k').
Proof.
  rw /sim /bind. intros Hm Hk. destruct (m w) as [[a w']|f].
  - destruct Hm as [-> Hok]. by apply Hk.
  - by destruct Hm as [-> Hf].
Qed.

Lemma sim_read {A} i sh w (k : Shard → M World A) m' :
  shards_ (store w) !! i = Some sh → sim w (k sh) m' → sim w (bind (read_shard i) k) m'.
Proof. intros Hi. by rw /sim /bind /read_shard Hi. Qed.

Lemma sim_lookup {A} key w (m : M World A) k' :
  sim w m (k' (contents (store w) !! key)) → sim w m (bind (Spec.lookup key) k').
Proof. done. Qed.

Lemma sim_now {A} w (k : Z → M World A) k' :
  sim (tick w) (k (clock w (ticks w))) (k' (clock w (ticks w))) →
  sim w (bind now_ms k) (bind Spec.now k').
Proof. done. Qed.

Lemma sim_lift {A B} (o : outcome A) a w (k : A → M World B) m' :
  o = Ret a → sim w (k a) m' → sim w (bind (lift o) k) m'.
Proof. by intros ->. Qed.

Lemma sim_checked {A} z w (k : Z → M World A) k' :
  (∀ y, sim w (k y) (k' y)) → sim w (bind (lift (checked z)) k) (bind (lift (checked z)) k').
Proof. intros Hk. rw /checked. case_match; [by apply Hk|done]. Qed.

Lemma sim_assoc {A B C} w (m : M World A) (k : A → M World B) (h : B → M World C) m' :
  sim w (bind m (λ a, bind (k a) h)) m' → sim w (bind (bind m k) h) m'.
Proof. rw /sim /bind. by destruct (m w) as [[]|]. Qed.

Lemma sim_ret_bind {A B} (a : A) w (k : A → M World B) m' :
  sim w (k a) m' → sim w (bind (ret a) k) m'.
Proof. done. Qed.

(** A locked section that only reorders the access list is invisible. *)
Lemma sim_write_same {A} i sh sh' w (k : M World A) k' :
  store_ok (store w) → shards_ (store w) !! i = Some sh → shard_ok i sh' → map sh' = map sh →
  (∀ w', store_ok (store w') → sim w' k k') →
  sim w (bind (write_shard i sh') (λ _, k)) k'.
Proof.
  intros Hok Hi Hsh Hm Hk. specialize (Hk _ (store_ok_put i sh' w Hok Hsh)).
  rw /sim /bind /write_shard /modify -/(put_shard i sh' w) in Hk |- *.
  by rw -(abs_put_same i sh sh' w).
Qed.

(** A locked section ends by writing its shard back. *)
Lemma sim_write {A} i sh' m' w (k : M World A) k' (a : M Spec.World unit) :
  store_ok (store w) → shard_ok i sh' →
  abs (put_shard i sh' w) = Spec.with_contents m' (abs w) →
  a (abs w) = Ret (tt, Spec.with_contents m' (abs w)) →
  (∀ w', store_ok (store w') → sim w' k k') →
  sim w (bind (write_shard i sh') (λ _, k)) (bind a (λ _, k')).
Proof.
  intros Hok Hsh Habs Ha Hk. specialize (Hk _ (store_ok_put i sh' w Hok Hsh)).
  rw /sim /bind /write_shard /modify -/(put_shard i sh' w) in Hk |- *. by rw Ha -Habs.
Qed.

Lemma sim_write_end i sh' m' w (a : M Spec.World unit) :
  store_ok (store w) → shard_ok i sh' →
  abs (put_shard i sh' w) = Spec.with_contents m' (abs w) →
  a (abs w) = Ret (tt, Spec.with_contents m' (abs w)) →
  sim w (write_shard i sh') a.
Proof.
  intros Hok Hsh Habs Ha. rw /sim /write_shard /modify -/(put_shard i sh' w) Ha -Habs.
  split; [done|by apply store_ok_put].
Qed.

Lemma shard_at w k :
  store_ok (store w) →
  ∃ sh, shards_ (store w) !! shard_for k = Some sh ∧ shard_ok (shard_for k) sh ∧
    contents (store w) !! k = view <$> map sh !! k.
Proof.
  intros Hok. destruct (lookup_lt_is_Some_2 (shards_ (store w)) (shard_for k)) as [sh Hsh].
  { rw (ok_count _ Hok). apply shard_for_lt. }
  exists sh. split_and!; [done|by apply (ok_shards _ Hok)|]. by rw contents_lookup // Hsh.
Qed.

(** ** The operations *)

Lemma expired_view e t : is_expired e t = Spec.expired (expires_at_ms e) t.
Proof. done. Qed.

Lemma del_sim w key : store_ok (store w) → sim w (del key) (Spec.del key).
Proof.
  intros Hok. destruct (shard_at w key Hok) as (sh & Hi & Hsh & Hc).
  apply (sim_read _ sh); [done|]. apply sim_lookup. rw Hc.
  destruct (map sh !! key) as [e|] eqn:Hk; simpl; [|by apply sim_ret].
  destruct (erase_entry_ok _ _ _ _ Hsh Hk) as (sh' & n & l1 & l2 & He & Hsh' & Hm & _).
  apply (sim_lift _ sh'); [done|].
  eapply sim_write; [done..|by apply (abs_put_delete key sh)|done|by intros; apply sim_ret].
Qed.

Lemma exists_sim w key : store_ok (store w) → sim w (exists_ key) (Spec.exists_ key).
Proof.
  intros Hok. destruct (shard_at w key Hok) as (sh & Hi & Hsh & Hc).
  apply (sim_read _ sh); [done|]. apply sim_lookup. rw Hc.
  destruct (map sh !! key) as [e|]; simpl; [|by apply sim_ret].
  apply sim_now. by apply sim_ret.
Qed.

Lemma ttl_sim w key : store_ok (store w) → sim w (ttl key) (Spec.ttl key).
Proof.
  intros Hok. destruct (shard_at w key Hok) as (sh & Hi & Hsh & Hc).
  apply (sim_read _ sh); [done|]. apply sim_lookup. rw Hc.
  destruct (map sh !! key) as [e|]; simpl; [|by apply sim_ret].
  rw /has_expiry -Z.ltb_antisym. case_match; [by apply sim_ret|].
  apply sim_now, sim_checked. intros y. by apply sim_ret.
Qed.

Lemma get_sim w key : store_ok (store w) → sim w (get key) (Spec.get key).
Proof.
  intros Hok. destruct (shard_at w key Hok) as (sh & Hi & Hsh & Hc).
  rw /get /get_shared. apply sim_assoc, (sim_read _ sh); [done|]. apply sim_lookup. rw Hc.
  destruct (map sh !! key) as [e|] eqn:Hk; simpl; [|by apply sim_ret].
  apply sim_assoc, sim_now. rw expired_view.
  destruct (Spec.expired _ _); [|by apply sim_ret].
  apply sim_ret_bind, (sim_read _ sh); [done|]. rw Hk. apply sim_now. rw expired_view.
  destruct (Spec.expired _ _).
  - destruct (erase_entry_ok _ _ _ _ Hsh Hk) as (sh' & n & l1 & l2 & He & Hsh' & Hm & _).
    apply (sim_lift _ sh'); [done|].
    eapply sim_write; [done..|by apply (abs_put_delete key sh)|done|by intros; apply sim_ret].
  - destruct (touch_entry_ok _ _ _ _ (map sh) Hsh Hk) as (sh' & n & l1 & l2 & He & Hsh' & Hm & _);
      [done|].
    apply (sim_lift _ sh'); [by destruct sh|].
    apply (sim_write_same _ sh); [done..|]. intros. by apply sim_ret.
Qed.

Lemma expire_sim w key ttl_ms :
  store_ok (store w) → sim w (expire key ttl_ms) (Spec.expire key ttl_ms).
Proof.
  intros Hok. destruct (shard_at w key Hok) as (sh & Hi & Hsh & Hc).
  apply (sim_read _ sh); [done|]. apply sim_lookup. rw Hc.
  destruct (map sh !! key) as [e|] eqn:Hk; simpl; [|by apply sim_ret].
  apply sim_now. rw expired_view. destruct (Spec.expired _ _); [by apply sim_ret|].
  apply sim_now, sim_checked. intros x.
  assert (shard_ok (shard_for key)
    (with_map (<[key:=mkEntry (value e) x (lru_node e)]> (map sh)) sh)) as Hsh'.
  { apply (shard_ok_reorder _ sh); [done|apply (ok_lru _ _ Hsh)|done|]. intros k.
    destruct (decide (k = key)) as [->|Hne]; [by rw lookup_insert_eq Hk|by rw lookup_insert_ne]. }
  eapply sim_write; [done..|by apply (abs_put_insert key sh)|done|by intros; apply sim_ret].
Qed.

Lemma incr_store_sim w sh sh0 key cur :
  store_ok (store w) → shards_ (store w) !! shard_for key = Some sh0 →
  shard_ok (shard_for key) sh → (map sh = map sh0 ∨ map sh = delete key (map sh0)) →
  sim w (incr_store (shard_for key) sh key cur)
    (let! n := lift (checked (cur + 1)) in
     Spec.put key (to_string n) (-1) ;;; ret (Some n)).
Proof.
  intros Hok Hi Hsh Hm. apply sim_checked. intros n.
  destruct (set_locked_ok _ sh key (to_string n) (-1) Hsh eq_refl)
    as (sh' & p & nd & rest & Hs & Hsh' & Hm' & _).
  apply (sim_lift _ sh'); [done|].
  assert (map sh' = <[key:=mkEntry (to_string n) (-1) p]> (map sh0)) as Hm0.
  { rw Hm'. destruct Hm as [->| ->]; [done|]. by rw insert_delete_eq. }
  eapply sim_write; [done..|by apply (abs_put_insert key sh0)|done|by intros; apply sim_ret].
Qed.

Lemma incr_sim w key : store_ok (store w) → sim w (incr key) (Spec.incr key).
Proof.
  intros Hok. destruct (shard_at w key Hok) as (sh & Hi & Hsh & Hc).
  apply (sim_read _ sh); [done|]. apply sim_lookup. rw Hc.
  destruct (map sh !! key) as [e|] eqn:Hk; simpl.
  - apply sim_now. rw expired_view. destruct (Spec.expired _ _).
    + destruct (erase_entry_ok _ _ _ _ Hsh Hk) as (sh' & n & l1 & l2 & He & Hsh' & Hm & _).
      apply (sim_lift _ sh'); [done|]. apply (incr_store_sim _ _ sh); by auto.
    + destruct (from_chars (value e) 0) as [r cur].
      case_bool_decide; [by apply sim_ret|]. apply (incr_store_sim _ _ sh); by auto.
  - apply (incr_store_sim _ _ sh); by auto.
Qed.

Lemma size_sim w : store_ok (store w) → sim w size Spec.size.
Proof. intros Hok. rw /sim /size /Spec.size /gets /= contents_size //. Qed.

(** ** Eviction *)

(** The scan finds a shard that no other shard exceeds. *)
Lemma largest_spec l :
  l ≠ [] → ∃ sh, l !! largest l = Some sh ∧
    ∀ j sh', l !! j = Some sh' → (base.size (map sh') ≤ base.size (map sh))%nat.
Proof.
  intros Hne. rw /largest. set (f := λ '(_, _, _) _, _).
  assert (∀ l, let '(sz, i, n) := foldl f (0, 0, 0)%nat l in
    n = length l ∧ Forall (λ sh, base.size (map sh) ≤ sz)%nat l ∧
    ((sz = 0 ∧ i = 0)%nat ∨ ∃ sh, l !! i = Some sh ∧ base.size (map sh) = sz)) as H.
  { clear. intros l. induction l as [|sh l IH] using rev_ind; simpl; [by auto|].
    rw foldl_app. destruct (foldl f (0, 0, 0)%nat l) as [[sz i] n]. destruct IH as (-> & Hall & Hi).
    simpl. destruct (Nat.ltb_spec sz (base.size (map sh))) as [Hlt|Hge]; rw length_app Forall_app /=.
    - split_and!; [lia| |repeat constructor|].
      + eapply Forall_impl; [done|]. simpl. lia.
      + right. exists sh. split; [|done]. by rw lookup_app_r // Nat.sub_diag.
    - split_and!; [lia|done|by repeat constructor|]. destruct Hi as [Hi|(sh' & Hi & Hs)]; [by left|].
      right. exists sh'. split; [|done]. by apply lookup_app_l_Some. }
  specialize (H l). destruct (foldl f (0, 0, 0)%nat l) as [[sz i] n]. simpl.
  destruct H as (_ & Hall & Hi). rw Forall_lookup in Hall.
  destruct Hi as [[-> ->]|(sh & Hsh & <-)]; [|by eauto].
  destruct l as [|sh l]; [done|]. exists sh. split; [done|]. intros j sh' Hj.
  apply Hall in Hj. lia.
Qed.

(** The key that [maybe_evict] takes out when the store is full. *)
Definition victim (s : Store) : option bytes :=
  sh ← shards_ s !! largest (shards_ s); snd <$> last (LruList.list_ (lru sh)).

Lemma largest_shard s :
  store_ok s →
  ∃ sh, shards_ s !! largest (shards_ s) = Some sh ∧ shard_ok (largest (shards_ s)) sh ∧
    ∀ j sh', shards_ s !! j = Some sh' → (base.size (map sh') ≤ base.size (map sh))%nat.
Proof.
  intros Hok. destruct (largest_spec (shards_ s)) as (sh & Hi & Hmax).
  { intros H. pose proof (ok_count _ Hok). by rw H in H0. }
  exists sh. split_and!; [done|by apply (ok_shards _ Hok)|done].
Qed.

Lemma maybe_evict_sim w :
  store_ok (store w) → sim w maybe_evict (Spec.make_room (victim (store w))).
Proof.
  intros Hok. destruct (largest_shard _ Hok) as (sh & Hi & Hsh & _).
  assert (victim (store w) = snd <$> last (LruList.list_ (lru sh))) as Hv by (by rw /victim Hi).
  rw /maybe_evict /Spec.make_room Hv.
  change (sim w (if size_of (store w) <? max_keys_ (store w) then ret tt else
    let! max_idx := gets (λ w, largest (shards_ (store w))) in
    let! sh := read_shard max_idx in let! sh' := lift (evict_locked sh) in
    write_shard max_idx sh')
    (match snd <$> last (LruList.list_ (lru sh)) with
     | Some k => if max_keys_ (store w) <=? Z.of_nat (base.size (contents (store w)))
                 then Spec.drop k else ret tt
     | None => ret tt end)).
  rw Z.leb_antisym -contents_size //.
  destruct (size_of (store w) <? max_keys_ (store w)); simpl.
  { destruct (snd <$> _); by apply sim_ret. }
  change (sim w (bind (read_shard (largest (shards_ (store w)))) (λ sh,
    let! sh' := lift (evict_locked sh) in write_shard (largest (shards_ (store w))) sh'))
    (match snd <$> last (LruList.list_ (lru sh)) with Some k => Spec.drop k | None => ret tt end)).
  apply (sim_read _ sh); [done|].
  destruct (last (LruList.list_ (lru sh))) as [[n k]|] eqn:Hlast; simpl.
  - destruct (evict_locked_ok _ _ _ _ Hsh Hlast) as (sh' & He & Hsh' & Hm & [e Hk] & _).
    apply (sim_lift _ sh'); [done|]. eapply sim_write_end; [done..| |done].
    apply (abs_put_delete k sh); [done|done|by apply (ok_hash _ _ Hsh _ e)|done|done].
  - apply last_None in Hlast. apply (sim_lift _ sh); [by apply evict_locked_empty|].
    rw /sim /write_shard /modify -/(put_shard _ sh w).
    split; [by rw /ret (abs_put_same _ sh)|by apply store_ok_put].
Qed.

Lemma set_sim w key val ttl_ms :
  store_ok (store w) →
  sim w (set key val ttl_ms) (Spec.set (victim (store w)) key val ttl_ms).
Proof.
  intros Hok. apply sim_bind; [by apply maybe_evict_sim|]. clear w Hok. intros _ w Hok.
  assert (∀ w x, store_ok (store w) → sim w
    (let! sh := read_shard (shard_for key) in
     let! sh' := lift (set_locked sh key val x) in write_shard (shard_for key) sh')
    (Spec.put key val x)) as Hput.
  { clear w Hok. intros w x Hok. destruct (shard_at w key Hok) as (sh & Hi & Hsh & _).
    apply (sim_read _ sh); [done|].
    destruct (set_locked_ok _ sh key val x Hsh eq_refl) as (sh' & p & n & rest & Hs & Hsh' & Hm & _).
    apply (sim_lift _ sh'); [done|].
    eapply sim_write_end; [done..|by apply (abs_put_insert key sh)|done]. }
  destruct (0 <? ttl_ms).
  - apply sim_assoc, sim_now, sim_checked. intros x. by apply Hput.
  - apply sim_ret_bind. by apply Hput.
Qed.

(** ** Operations on every shard *)

(** A section that acts on each entry by [F] gives a store operation that acts
    on each entry by [F]. *)
Lemma for_shards_ok (f : Shard → outcome Shard) (F : bytes → option (bytes * Z) → option (bytes * Z)) w :
  (∀ i sh, shard_ok i sh → ∃ sh', f sh = Ret sh' ∧ shard_ok i sh' ∧
     ∀ k, view <$> map sh' !! k = F k (view <$> map sh !! k)) →
  store_ok (store w) →
  wp no_fault (for_shards f) (λ _ w',
    store_ok (store w') ∧ clock w' = clock w ∧ ticks w' = ticks w ∧
    max_keys_ (store w') = max_keys_ (store w) ∧
    ∀ k, contents (store w') !! k = F k (contents (store w) !! k)) w.
Proof.
  intros Hf Hok.
  apply (wp_foldM _ _ (λ visited _ w', store_ok (store w') ∧ clock w' = clock w ∧
    ticks w' = ticks w ∧ max_keys_ (store w') = max_keys_ (store w) ∧
    ∀ k, contents (store w') !! k =
      if bool_decide (shard_for k < length visited)%nat
      then F k (contents (store w) !! k) else contents (store w) !! k)).
  - split_and!; [done..|]. intros k. rw bool_decide_false; [simpl; lia|done].
  - intros visited i todo _ w' Hseq (Hok' & Hck & Htk & Hmx & Hc).
    assert (i = length visited ∧ length visited < SHARD_COUNT)%nat as [-> Hlt].
    { assert (seq 0 SHARD_COUNT !! length visited = Some i) as Hl.
      { by rw Hseq lookup_app_r // Nat.sub_diag. }
      apply lookup_seq in Hl. lia. }
    destruct (lookup_lt_is_Some_2 (shards_ (store w')) (length visited)) as [sh Hi].
    { by rw (ok_count _ Hok'). }
    pose proof (ok_shards _ Hok' _ _ Hi) as Hsh.
    destruct (Hf _ _ Hsh) as (sh' & Hfs & Hsh' & HF).
    rw /wp /bind /read_shard Hi /lift Hfs /write_shard /modify -/(put_shard (length visited) sh' w').
    assert (store_ok (store (put_shard (length visited) sh' w'))) as Hok'' by (by apply store_ok_put).
    split_and!; [done..|]. intros k. rw contents_lookup // length_app /=.
    specialize (Hc k). rw contents_lookup // in Hc.
    destruct (decide (shard_for k = length visited)) as [Hk|Hk].
    + rw Hk list_lookup_insert_eq /=; [by rw (ok_count _ Hok')|]. rw HF.
      rw Hk Hi /= bool_decide_false in Hc; [lia|]. rw Hc. by rw bool_decide_true; [lia|].
    + rw list_lookup_insert_ne // Hc. by do 2 case_bool_decide; try lia.
  - intros _ w' (Hok' & Hck & Htk & Hmx & Hc). split_and!; [done..|].
    intros k. rw Hc length_seq bool_decide_true; [apply shard_for_lt|done].
Qed.

Lemma flush_sim w : store_ok (store w) → sim w flush Spec.flush.
Proof.
  intros Hok. destruct (wp_Ret _ _ _ (for_shards_ok flush_locked (λ _ _, None) w
    ltac:(intros i sh Hsh; destruct (flush_locked_ok _ _ Hsh) as (sh' & ? & ? & Hm & _);
          exists sh'; split_and!; [done..|]; intros k; by rw Hm lookup_empty) Hok))
    as ([] & w' & Hrun & Hok' & Hck & Htk & Hmx & Hc).
  rw /sim /flush Hrun. split; [|done]. rw /Spec.flush /modify /abs Hck Htk Hmx.
  rw /Spec.with_contents /=. do 3 f_equal. apply map_eq. intros k. by rw Hc lookup_empty.
Qed.

Lemma sweep_sim w : store_ok (store w) → sim w sweep_expired Spec.sweep_expired.
Proof.
  intros Hok. apply sim_now. set (t := clock w (ticks w)).
  destruct (wp_Ret _ _ _ (for_shards_ok (sweep_locked t)
    (λ _ o, match o with Some (v, x) => if Spec.expired x t then None else Some (v, x) | None => None end)
    (tick w)
    ltac:(intros i sh Hsh; destruct (sweep_locked_ok t _ _ Hsh) as (sh' & ? & ? & Hm);
          exists sh'; split_and!; [done..|]; intros k; rw Hm;
          destruct (map sh !! k) as [e|]; simpl; [rw expired_view; by destruct (Spec.expired _ _)|done])
    Hok)) as ([] & w' & Hrun & Hok' & Hck & Htk & Hmx & Hc).
  rw /sim Hrun. split; [|done]. rw /modify /abs Hck Htk Hmx /Spec.with_contents /=.
  do 3 f_equal. apply map_eq. intros k. rw Hc map_lookup_filter /=.
  destruct (contents (store w) !! k) as [[v x]|]; simpl; [|done].
  by destruct (Spec.expired x t).
Qed.

(** ** [keys] and [for_each]: loops over all shards *)

(** The entries in the order in which the loops of Store.cpp visit them. *)
Definition visit (l : list Shard) : list (bytes * Entry) :=
  flat_map (λ sh, bucket_order (map sh)) l.

Lemma foldl_visit {B} (f : B → bytes * Entry → B) l acc :
  foldl (λ a sh, foldl f a (bucket_order (map sh))) acc l = foldl f acc (visit l).
Proof.
  revert acc. induction l as [|sh l IH]; intros acc; simpl; [done|]. by rw foldl_app IH.
Qed.

Lemma visit_lookup s k v x :
  store_ok s →
  (∃ e, (k, e) ∈ visit (shards_ s) ∧ view e = (v, x)) ↔ contents s !! k = Some (v, x).
Proof.
  intros Hok. rw contents_lookup // /visit. split.
  - intros (e & (sh & Hsh & Hin)%list_elem_of_In%in_flat_map & Hv).
    apply list_elem_of_In, list_elem_of_lookup in Hsh as [i Hi].
    apply list_elem_of_In, bucket_order_lookup in Hin.
    pose proof (ok_hash _ _ (ok_shards _ Hok _ _ Hi) _ _ Hin) as ->. by rw Hi /= Hin /= Hv.
  - destruct (shards_ s !! shard_for k) as [sh|] eqn:Hi; simpl; [|done].
    destruct (map sh !! k) as [e|] eqn:Hk; simpl; [|done]. intros [= Hv].
    exists e. split; [|by rw /view; f_equal]. apply list_elem_of_In, in_flat_map. exists sh.
    split; apply list_elem_of_In; [by apply (list_elem_of_lookup_2 _ (shard_for k))|].
    by apply bucket_order_lookup.
Qed.

Lemma visit_nodup s : store_ok s → NoDup (visit (shards_ s)).*1.
Proof.
  intros Hok%store_placed. revert Hok. generalize 0%nat. rw /visit.
  induction (shards_ s) as [|sh l IH]; intros j Hp; simpl; [constructor|].
  apply placed_cons in Hp as [Hsh Hp]. rw fmap_app. apply NoDup_app.
  split_and!; [apply bucket_order_nodup| |by apply (IH (S j))].
  intros k ([? e] & -> & Hin%bucket_order_lookup)%list_elem_of_fmap
    ([? e'] & Hk & (sh' & Hsh' & Hin')%list_elem_of_In%in_flat_map)%list_elem_of_fmap.
  simpl in *. subst. apply list_elem_of_In, list_elem_of_lookup in Hsh' as [a Ha].
  apply list_elem_of_In, bucket_order_lookup in Hin'.
  apply Hsh in Hin. apply (Hp a sh' _ _ Ha) in Hin'. lia.
Qed.

Lemma keys_eq pattern w :
  keys pattern w =
    Ret ((filter (key_selected pattern (clock w (ticks w))) (visit (shards_ (store w)))).*1, tick w).
Proof.
  rw /keys /bind /now_ms /gets /ret /=. do 2 f_equal. rw foldl_visit.
  set (sel := key_selected pattern (clock w (ticks w))).
  enough (∀ l acc, foldl (λ r kv, if sel kv then r ++ [kv.1] else r) acc l
    = acc ++ (filter sel l).*1) as -> by done.
  induction l as [|kv l IH]; intros acc; simpl; [by rw app_nil_r|].
  rw IH filter_cons. destruct (sel kv); simpl; [by rw -app_assoc|done].
Qed.

(** [for_each] visits each live entry exactly once. *)
Lemma for_each_eq {B} (cb : B → bytes → bytes → Z → B) acc w :
  for_each cb acc w =
    Ret (foldl (λ a kv, cb a kv.1 (value kv.2) (expires_at_ms kv.2)) acc
           (filter (λ kv, is_expired kv.2 (clock w (ticks w)) = false) (visit (shards_ (store w)))),
         tick w).
Proof.
  rw /for_each /bind /now_ms /gets /ret /=. do 2 f_equal. rw foldl_visit.
  generalize (visit (shards_ (store w))) => l. revert acc.
  induction l as [|kv l IH]; intros acc; simpl; [done|].
  rw IH filter_cons. by destruct (is_expired kv.2 _).
Qed.

End Refinement.
End StoreSpec.
