(* ===== verification/StorageThms.v ===== *)
(** The guarantees of the store, for the components that use it. *)

From S2P Require Import Prelude Lru Storage StorageInv StorageSpec.

Module StoreThms.
Import Store StoreInv StoreSpec.

(** ** Every public operation of Store.hpp that changes or reads an entry *)

Inductive Op :=
  | OSet (key val : bytes) (ttl_ms : Z)
  | OGet (key : bytes)
  | ODel (key : bytes)
  | OExists (key : bytes)
  | OTtl (key : bytes)
  | OExpire (key : bytes) (ttl_ms : Z)
  | OIncr (key : bytes)
  | OKeys (pattern : bytes)
  | OFlush
  | OSweep
  | OSize.

Inductive Res :=
  | RUnit
  | RBytes (r : option bytes)
  | RBool (b : bool)
  | RInt (z : Z)
  | ROptInt (r : option Z)
  | RKeys (ks : list bytes).

(** Results are compared as they are, lists of keys up to their order. *)
Definition res_equiv (r1 r2 : Res) : Prop :=
  match r1, r2 with
  | RKeys a, RKeys b => a ≡ₚ b
  | _, _ => r1 = r2
  end.

Definition mapM {S A B} (f : A → B) (m : M S A) : M S B := let! a := m in ret (f a).

Section Thms.
Context {plat : Platform}.

Definition run_op (op : Op) : M World Res :=
  match op with
  | OSet k v t => mapM (λ _, RUnit) (set k v t)
  | OGet k => mapM RBytes (get k)
  | ODel k => mapM RBool (del k)
  | OExists k => mapM RBool (exists_ k)
  | OTtl k => mapM RInt (ttl k)
  | OExpire k t => mapM RBool (expire k t)
  | OIncr k => mapM ROptInt (incr k)
  | OKeys p => mapM RKeys (keys p)
  | OFlush => mapM (λ _, RUnit) flush
  | OSweep => mapM (λ _, RUnit) sweep_expired
  | OSize => mapM RInt size
  end.

(** The contract of [keys]: the live keys that match, each once. *)
Definition spec_keys (pattern : bytes) : M Spec.World (list bytes) :=
  let! t := Spec.now in
  gets (λ w, (filter (λ kv, Spec.expired kv.2.2 t = false ∧
                        (pattern = bs "*" ∨ fnmatch (c_str pattern) (c_str kv.1) = 0))
                     (map_to_list (Spec.contents w))).*1).

Definition spec_op (victim : option bytes) (op : Op) : M Spec.World Res :=
  match op with
  | OSet k v t => mapM (λ _, RUnit) (Spec.set victim k v t)
  | OGet k => mapM RBytes (Spec.get k)
  | ODel k => mapM RBool (Spec.del k)
  | OExists k => mapM RBool (Spec.exists_ k)
  | OTtl k => mapM RInt (Spec.ttl k)
  | OExpire k t => mapM RBool (Spec.expire k t)
  | OIncr k => mapM ROptInt (Spec.incr k)
  | OKeys p => mapM RKeys (spec_keys p)
  | OFlush => mapM (λ _, RUnit) Spec.flush
  | OSweep => mapM (λ _, RUnit) Spec.sweep_expired
  | OSize => mapM RInt Spec.size
  end.

(** A run of the store: operations one after the other. *)
Fixpoint run_ops (ops : list Op) : M World (list Res) :=
  match ops with
  | [] => ret []
  | op :: ops' => let! r := run_op op in let! rs := run_ops ops' in ret (r :: rs)
  end.

(** ** Lemmas *)

Lemma sim_mapM {A B} (f : A → B) w m m' : sim w m m' → sim w (mapM f m) (mapM f m').
Proof. intros H. apply sim_bind; [done|]. intros a w' Hok. by apply sim_ret. Qed.

Lemma key_selected_spec pattern t kv :
  key_selected pattern t kv ↔
    Spec.expired (expires_at_ms kv.2) t = false ∧
    (pattern = bs "*" ∨ fnmatch (c_str pattern) (c_str kv.1) = 0).
Proof.
  rw /key_selected expired_view. destruct (Spec.expired _ _); simpl; [naive_solver|].
  rw orb_True bool_decide_spec. assert (∀ z, (z =? 0) ↔ z = 0) as ->; [|naive_solver].
  intros z. destruct (Z.eqb_spec z 0); naive_solver.
Qed.

Lemma keys_spec pattern w :
  store_ok (store w) →
  ∃ ks ks', keys pattern w = Ret (ks, tick w) ∧
    spec_keys pattern (abs w) = Ret (ks', abs (tick w)) ∧ ks ≡ₚ ks' ∧ NoDup ks.
Proof.
  intros Hok. rw keys_eq. eexists _, _. split_and!; [done|done| |].
  - set (t := clock w (ticks w)). apply NoDup_Permutation.
    + eapply sublist_NoDup; [by apply visit_nodup|]. apply fmap_sublist, sublist_filter.
    + eapply sublist_NoDup; [apply (NoDup_fst_map_to_list (contents (store w)))|].
      apply fmap_sublist, sublist_filter.
    + intros k. rw !list_elem_of_fmap. split.
      * intros ([k' e] & -> & [Hsel Hin]%list_elem_of_filter).
        apply key_selected_spec in Hsel. exists (k', view e). split; [done|].
        apply list_elem_of_filter. split; [done|]. apply elem_of_map_to_list.
        apply visit_lookup; [done|]. by exists e.
      * intros ([k' [v x]] & -> & [Hsel Hin]%list_elem_of_filter).
        apply elem_of_map_to_list, visit_lookup in Hin as (e & Hin & [= <- <-]); [|done].
        exists (k', e). split; [done|]. apply list_elem_of_filter. split; [|done].
        by apply key_selected_spec.
  - eapply sublist_NoDup; [by apply visit_nodup|]. apply fmap_sublist, sublist_filter.
Qed.

Lemma run_op_spec op w :
  store_ok (store w) →
  match run_op op w with
  | Ret (r, w') => ∃ r', spec_op (victim (store w)) op (abs w) = Ret (r', abs w') ∧
                         res_equiv r r' ∧ store_ok (store w')
  | Fail f => spec_op (victim (store w)) op (abs w) = Fail f ∧ overflow_only f
  end.
Proof.
  intros Hok.
  assert (∀ m m', sim w m m' →
    match m w with
    | Ret (r, w') => ∃ r', m' (abs w) = Ret (r', abs w') ∧ res_equiv r r' ∧ store_ok (store w')
    | Fail f => m' (abs w) = Fail f ∧ overflow_only f end) as Hsim.
  { rw /sim. intros m m' Hs. destruct (m w) as [[r w']|f] eqn:Hm; [|done].
    destruct Hs as [Hs Hok']. exists r. split_and!; [done| |done]. destruct r; simpl; reflexivity. }
  destruct op; cbn [run_op spec_op].
  8: { destruct (keys_spec pattern w Hok) as (ks & ks' & Hk & Hs & Hp & _).
       rw /mapM /bind Hk Hs /ret. eexists. by split_and!. }
  all: apply Hsim, sim_mapM; auto using set_sim, get_sim, del_sim, exists_sim, ttl_sim,
    expire_sim, incr_sim, flush_sim, sweep_sim, size_sim.
Qed.

(** The list holds exactly the keys of the map, each once. *)
Lemma lru_keys i sh :
  shard_ok i sh → LruList.order (lru sh) ≡ₚ (map_to_list (map sh)).*1.
Proof.
  intros Hok. apply NoDup_Permutation; [|apply NoDup_fst_map_to_list|].
  - pose proof (LruList.wf_nodup _ (ok_lru _ _ Hok)) as Hnd. apply NoDup_fmap_2_strong.
    + intros [n1 k1] [n2 k2] H1 H2 [= ->]. apply (ok_list _ _ Hok) in H1, H2. congruence.
    + by eapply NoDup_fmap_1.
  - intros k. rw /LruList.order !list_elem_of_fmap. split.
    + intros ([n k'] & -> & Hin%(ok_list _ _ Hok)). rw /node_of in Hin.
      destruct (map sh !! k') as [e|] eqn:Hk; [|done]. exists (k', e). split; [done|].
      by apply elem_of_map_to_list.
    + intros ([k' e] & -> & Hin%elem_of_map_to_list).
      destruct (entry_node _ _ _ _ Hok Hin) as (p & n & _ & _ & Hl). by exists (n, k').
Qed.

(** Distinct entries own distinct cells. *)
Lemma entry_cells_nodup i sh L :
  shard_ok i sh → NoDup L → (∀ k e, (k, e) ∈ L → map sh !! k = Some e) →
  NoDup (omap (λ kv, lru_node kv.2) L) ∧ length (omap (λ kv, lru_node kv.2) L) = length L.
Proof.
  intros Hok. induction L as [|[k e] L IH]; intros Hnd HL; [split; [constructor|done]|].
  apply NoDup_cons in Hnd as [Hni Hnd].
  assert (map sh !! k = Some e) as Hk by (apply HL; left).
  destruct (entry_node _ _ _ _ Hok Hk) as (p & n & Hp & _). simpl. rw Hp.
  destruct IH as [IH1 IH2]; [done|by intros; apply HL; right|].
  split; [|by rw /= IH2]. constructor; [|done].
  intros ([k' e'] & Hin & Hp')%list_elem_of_omap. simpl in Hp'.
  assert (map sh !! k' = Some e') as Hk' by (apply HL; by right).
  assert (k = k') as <- by (by eapply (ptr_inj _ sh)). by simplify_eq.
Qed.

(** The live cells are exactly those the entries own: none leaked. *)
Lemma cells_owned i sh :
  shard_ok i sh →
  (map_to_list (cells sh)).*1 ≡ₚ omap (λ kv, lru_node kv.2) (map_to_list (map sh)).
Proof.
  intros Hok. apply NoDup_Permutation; [apply NoDup_fst_map_to_list| |].
  - eapply entry_cells_nodup; [done|apply NoDup_map_to_list|]. intros k e. apply elem_of_map_to_list.
  - intros p. rw list_elem_of_fmap list_elem_of_omap. split.
    + intros ([p' n] & -> & Hin%elem_of_map_to_list).
      destruct (ok_cells _ _ Hok _ _ Hin) as (k & e & Hk & Hp). exists (k, e).
      by rw elem_of_map_to_list.
    + intros ([k e] & Hin%elem_of_map_to_list & Hp).
      destruct (entry_node _ _ _ _ Hok Hin) as (p' & n & Hp' & Hc & _).
      exists (p', n). simpl in *. rw elem_of_map_to_list. split; [congruence|done].
Qed.

Lemma shard_sizes i sh :
  shard_ok i sh →
  base.size (cells sh) = base.size (map sh) ∧ LruList.size (lru sh) = base.size (map sh).
Proof.
  intros Hok.
  pose proof (Permutation_length (lru_keys i sh Hok)) as Hkeys.
  pose proof (Permutation_length (cells_owned i sh Hok)) as Hcells.
  destruct (entry_cells_nodup i sh (map_to_list (map sh)) Hok) as [_ Hlen].
  { apply NoDup_map_to_list. }
  { intros k e. apply elem_of_map_to_list. }
  rw Hlen in Hcells. rw /LruList.order !length_fmap !length_map_to_list in Hkeys, Hcells.
  by rw /LruList.size.
Qed.

(** What a successful [set] did to the contents. *)
Lemma set_contents w w' key val ttl_ms :
  store_ok (store w) → set key val ttl_ms w = Ret (tt, w') →
  ∃ x m, store_ok (store w') ∧ clock w' = clock w ∧
    ticks w' = (if 0 <? ttl_ms then S (ticks w) else ticks w) ∧
    max_keys_ (store w') = max_keys_ (store w) ∧
    contents (store w') = <[key := (val, x)]> m ∧
    x = (if 0 <? ttl_ms then clock w (ticks w) + ttl_ms else -1) ∧
    m = (if max_keys_ (store w) <=? size_of (store w)
         then match victim (store w) with
              | Some k => delete k (contents (store w))
              | None => contents (store w) end
         else contents (store w)).
Proof.
  intros Hok Hset. pose proof (set_sim w key val ttl_ms Hok) as Hs. rw /sim Hset in Hs.
  destruct Hs as [Hs Hok'].
  rw /Spec.set /Spec.make_room /bind /gets /= -contents_size // in Hs.
  destruct (victim (store w)) as [k|], (max_keys_ (store w) <=? size_of (store w)), (0 <? ttl_ms);
    rw /Spec.now /Spec.drop /Spec.put /modify /ret /lift /checked /= in Hs;
    repeat case_match; simplify_eq/=.
  all: eexists _, _; split_and!; [done|congruence|congruence|congruence|by symmetry|done|done].
Qed.

(** The victim of a full, non-empty store is one of its keys. *)
Lemma victim_present s :
  store_ok s → 0 < size_of s → ∃ k, victim s = Some k ∧ is_Some (contents s !! k).
Proof.
  intros Hok Hpos. destruct (largest_shard s Hok) as (sh & Hi & Hsh & Hmax).
  rw /victim Hi /=.
  destruct (last (LruList.list_ (lru sh))) as [[n k]|] eqn:Hlast; simpl.
  - exists k. split; [done|]. destruct (node_last _ _ _ _ Hsh Hlast) as (e & p & Hk & _).
    rw contents_lookup // (ok_hash _ _ Hsh _ _ Hk) Hi /= Hk. by eexists.
  - exfalso. apply last_None in Hlast. destruct (shard_sizes _ _ Hsh) as [_ Hsz].
    rw /LruList.size Hlast /= in Hsz. rw contents_size // in Hpos.
    assert (contents s = ∅) as Hemp; [|rw Hemp map_size_empty in Hpos; lia].
    apply map_empty. intros k. rw contents_lookup //.
    destruct (shards_ s !! shard_for k) as [sh'|] eqn:Hk; [|done]. simpl.
    apply Hmax in Hk. assert (map sh' = ∅) as -> by (apply map_size_empty_inv; lia).
    by rw lookup_empty.
Qed.

(** [incr] through the contract. *)
Lemma incr_run w key cur :
  store_ok (store w) → 
  (contents (store w) !! key = None ∧ cur = 0 ∨
   ∃ v x p, contents (store w) !! key = Some (v, x) ∧
     Spec.expired x (clock w (ticks w)) = false ∧
     from_chars v 0 = ({| fc_ptr := p; fc_ec := errc_ok |}, cur)) →
  match checked (cur + 1) with
  | Ret n => ∃ w', incr key w = Ret (Some n, w') ∧ store_ok (store w') ∧
      contents (store w') = <[key := (to_string n, -1)]> (contents (store w))
  | Fail f => incr key w = Fail f
  end.
Proof.
  intros Hok Hk. pose proof (incr_sim w key Hok) as Hs. rw /sim in Hs.
  assert (∃ w1, Spec.contents w1 = contents (store w) ∧ Spec.incr key (abs w) =
    bind (lift (checked (cur + 1))) (λ n, Spec.put key (to_string n) (-1) ;;; ret (Some n)) w1) as (w1 & Hw1 & Hspec).
  { rw /Spec.incr /bind /Spec.lookup /gets /=.
    destruct Hk as [[-> ->]|(v & x & p & -> & He & Hf)]; [by exists (abs w)|].
    exists (abs (tick w)). split; [done|]. rw /Spec.now /= He Hf. by case_bool_decide. }
  rw Hspec /bind /lift in Hs. rw /checked in Hs |- *. destruct (in_i64 (cur + 1)).
  - destruct (incr key w) as [[r w']|f]; [|by destruct Hs].
    destruct Hs as [[= <- _ _ Hct _] Hok']. exists w'. split_and!; [done|done|]. by rw -Hct Hw1.
  - destruct (incr key w) as [[r w']|f]; destruct Hs as [Hs _]; [done|]. congruence.
Qed.

(** ** Claims *)

(** C1: every operation of the store returns what the contract [Spec] returns
    for the same clock, leaves the store in the state the contract describes
    and well-formed, whatever the shards, the access lists and the heap cells
    look like; it stops only where the contract overflows an [int64_t]. *)
Theorem store_refines op w :
  store_ok (store w) →
  match run_op op w with
  | Ret (r, w') => ∃ r', spec_op (victim (store w)) op (abs w) = Ret (r', abs w') ∧
                         res_equiv r r' ∧ store_ok (store w')
  | Fail f => spec_op (victim (store w)) op (abs w) = Fail f ∧ f = Undef SignedOverflow
  end.
Proof. apply run_op_spec. Qed.

(** C6: memory safety.  Whatever sequence of operations a fresh store executes,
    under any clock and capacity, it never throws, never uses an erased list
    node, a freed cell or an index out of range, and never leaks: at the end
    each shard has as many heap cells and as many list nodes as entries. *)
Theorem store_memory_safe clk max_keys ops :
  match run_ops ops (mkWorld clk 0 (new_store max_keys)) with
  | Ret (_, w') => store_ok (store w') ∧
      Forall (λ sh, base.size (cells sh) = base.size (map sh) ∧
                    LruList.size (lru sh) = base.size (map sh)) (shards_ (store w'))
  | Fail f => f = Undef SignedOverflow
  end.
Proof.
  assert (∀ w, store_ok (store w) →
    match run_ops ops w with Ret (_, w') => store_ok (store w') | Fail f => overflow_only f end) as H.
  { induction ops as [|op ops IH]; intros w Hok; [done|]. simpl. rw /bind.
    pose proof (run_op_spec op w Hok) as Hop. destruct (run_op op w) as [[r w']|f]; [|by destruct Hop].
    destruct Hop as (_ & _ & _ & Hok'). specialize (IH w' Hok').
    by destruct (run_ops ops w') as [[rs w'']|]. }
  specialize (H (mkWorld clk 0 (new_store max_keys)) (new_store_ok _)).
  destruct (run_ops _ _) as [[rs w']|f]; [|done]. split; [done|].
  apply Forall_lookup. intros i sh Hi. by apply (shard_sizes i), (ok_shards _ H).
Qed.

(** Read your write.  After a successful [set], [get] returns the value as
    long as the clock has not reached the deadline ([ttl_ms <= 0] sets none). *)
Theorem set_then_get w w' key val ttl_ms :
  store_ok (store w) → set key val ttl_ms w = Ret (tt, w') →
  ttl_ms ≤ 0 ∨ clock w (ticks w') < clock w (ticks w) + ttl_ms →
  ∃ w'', get key w' = Ret (Some val, w'') ∧ store w'' = store w'.
Proof.
  intros Hok Hset Hlive.
  destruct (set_contents _ _ _ _ _ Hok Hset) as (x & m & Hok' & Hck & Htk & Hmx & Hc & Hx & _).
  destruct (shard_at w' key Hok') as (sh & Hi & Hsh & Hk). rw Hc lookup_insert_eq in Hk.
  destruct (map sh !! key) as [e|] eqn:Hm; [|done]. injection Hk as Hv Hxe.
  exists (tick w'). rw /get /get_shared /bind /read_shard Hi Hm /now_ms expired_view /= -Hxe Hck.
  assert (Spec.expired x (clock w (ticks w')) = false) as ->; [|by rw Hv /tick Hck].
  rw /Spec.expired Hx. destruct (Z.ltb_spec 0 ttl_ms); lia.
Qed.

(** A [set] touches no other key, except the one key that a full store
    evicts to make room. *)
Theorem set_frame w w' key val ttl_ms k :
  store_ok (store w) → set key val ttl_ms w = Ret (tt, w') → k ≠ key →
  contents (store w') !! k = contents (store w) !! k ∨
  (max_keys_ (store w) ≤ size_of (store w) ∧ victim (store w) = Some k ∧
   contents (store w') !! k = None).
Proof.
  intros Hok Hset Hne.
  destruct (set_contents _ _ _ _ _ Hok Hset) as (x & m & _ & _ & _ & _ & -> & _ & ->).
  rw lookup_insert_ne //. destruct (Z.leb_spec (max_keys_ (store w)) (size_of (store w))); [|by left].
  destruct (victim (store w)) as [v|]; [|by left].
  destruct (decide (v = k)) as [->|Hv]; [right; by rw lookup_delete_eq|].
  left. by rw lookup_delete_ne.
Qed.

(** [set] respects the capacity: a store within [max_keys_ >= 1] stays
    within it, and one that is over it does not grow. *)
Theorem set_respects_capacity w w' key val ttl_ms :
  store_ok (store w) → 1 ≤ max_keys_ (store w) → set key val ttl_ms w = Ret (tt, w') →
  size_of (store w') ≤ Z.max (max_keys_ (store w)) (size_of (store w)).
Proof.
  intros Hok Hcap Hset.
  destruct (set_contents _ _ _ _ _ Hok Hset) as (x & m & Hok' & _ & _ & _ & Hc & _ & Hm).
  rw contents_size // Hc map_size_insert.
  assert (Z.of_nat (base.size m) + 1 ≤ Z.max (max_keys_ (store w)) (size_of (store w))).
  { rw Hm. destruct (Z.leb_spec (max_keys_ (store w)) (size_of (store w))) as [Hle|Hlt].
    - destruct (victim_present _ Hok ltac:(lia)) as (k & -> & Hk).
      rw contents_size // in Hle |- *. destruct Hk as [y Hk].
      rw map_size_delete_Some; [by eexists|]. lia.
    - rw -contents_size //. lia. }
  destruct (m !! key); rw ?/id; lia.
Qed.

(** C39: eviction is least-recently-used.  When the store is full, [set] first
    removes one key: the last in the access order of a shard that no other
    shard exceeds; the order of the remaining keys is kept. *)
Theorem eviction_is_lru w :
  store_ok (store w) → max_keys_ (store w) ≤ size_of (store w) → 0 < size_of (store w) →
  ∃ i sh sh' k w', maybe_evict w = Ret (tt, w') ∧
    shards_ (store w) !! i = Some sh ∧ shards_ (store w') = <[i := sh']> (shards_ (store w)) ∧
    (∀ j sh2, shards_ (store w) !! j = Some sh2 → (base.size (map sh2) ≤ base.size (map sh))%nat) ∧
    LruList.order (lru sh) = LruList.order (lru sh') ++ [k] ∧
    map sh' = delete k (map sh) ∧ is_Some (map sh !! k).
Proof.
  intros Hok Hfull Hpos. destruct (largest_shard _ Hok) as (sh & Hi & Hsh & Hmax).
  destruct (victim_present _ Hok Hpos) as (k & Hv & _). rw /victim Hi /= in Hv.
  destruct (last (LruList.list_ (lru sh))) as [[n k']|] eqn:Hlast; simplify_eq/=.
  destruct (evict_locked_ok _ _ _ _ Hsh Hlast) as (sh' & He & Hsh' & Hm & Hk & Hl).
  eexists _, sh, sh', k, (put_shard _ sh' w). split_and!; [|done|done|done| |done|done].
  - rw /maybe_evict /bind /size /gets. destruct (Z.ltb_spec (size_of (store w)) (max_keys_ (store w))); [lia|].
    by rw /read_shard Hi /lift He.
  - by rw /LruList.order Hl fmap_app.
Qed.

(** A write makes its key the most recently used of its shard and keeps
    the relative order of all the others. *)
Theorem set_locked_order i sh key val x :
  shard_ok i sh → shard_for key = i →
  ∃ sh', set_locked sh key val x = Ret sh' ∧
    LruList.order (lru sh') = key :: filter (λ k, k ≠ key) (LruList.order (lru sh)).
Proof.
  intros Hok Hi. destruct (set_locked_ok i sh key val x Hok Hi) as (sh' & p & n & rest & Hs & Hok' & Hm & Hl).
  exists sh'. split; [done|].
  assert (NoDup (LruList.order (lru sh'))) as Hnd'.
  { rw (lru_keys _ _ Hok'). apply NoDup_fst_map_to_list. }
  revert Hs. rw /set_locked. destruct (map sh !! key) as [e|] eqn:Hk.
  - set (e' := mkEntry val x (lru_node e)). intros Hs.
    destruct (touch_entry_ok i sh key e (<[key:=e']> (map sh)) Hok Hk) as (sh1 & n1 & l1 & l2 & Ht & _ & _ & Hl1 & Hl2).
    { intros k'. destruct (decide (k' = key)) as [->|]; [by rw lookup_insert_eq Hk|by rw lookup_insert_ne]. }
    change (touch_entry (with_map (<[key:=e']> (map sh)) sh) e = Ret sh') in Hs.
    assert (sh1 = sh') as -> by congruence.
    rw /LruList.order Hl2 fmap_cons fmap_app in Hnd'. apply NoDup_cons in Hnd' as [Hni _].
    simpl in Hni. rw /LruList.order Hl1 Hl2 fmap_cons !fmap_app fmap_cons filter_app.
    rw filter_cons_False; [by intros []|]. by rw !filter_all_true; [set_solver..|].
  - intros [= <-]. rw /LruList.order /=. f_equal. symmetry. apply filter_all_true.
    intros k Hin ->. change (key ∈ LruList.order (lru sh)) in Hin. rw (lru_keys _ _ Hok) in Hin.
    apply list_elem_of_fmap in Hin as ([k' e] & -> & Hin%elem_of_map_to_list). by rw Hk in Hin.
Qed.

(** An entry whose deadline has passed is never served: [get] finds
    nothing and removes it, [exists] is false, [ttl] is -2. *)
Theorem expired_never_served w key v x :
  store_ok (store w) → contents (store w) !! key = Some (v, x) →
  0 ≤ x ≤ clock w (ticks w) → x ≤ clock w (S (ticks w)) → clock w (ticks w) ≤ INT64_MAX →
  (∃ w', get key w = Ret (None, w') ∧ contents (store w') = delete key (contents (store w))) ∧
  (∃ w', exists_ key w = Ret (false, w') ∧ store w' = store w) ∧
  (∃ w', ttl key w = Ret (-2, w') ∧ store w' = store w).
Proof.
  intros Hok Hk Hx1 Hx2 Hmax.
  assert (Spec.expired x (clock w (ticks w)) = true) as He1 by (rw /Spec.expired; lia).
  assert (Spec.expired x (clock w (S (ticks w))) = true) as He2 by (rw /Spec.expired; lia).
  destruct (shard_at w key Hok) as (sh & Hi & Hsh & Hc). rw Hk in Hc.
  destruct (map sh !! key) as [e|] eqn:Hm; [|done]. injection Hc as -> ->.
  split_and!.
  - pose proof (get_sim w key Hok) as Hs. rw /sim in Hs.
    rw /Spec.get /bind /Spec.lookup /gets /Spec.now /= Hk He1 /= He2 /= in Hs.
    destruct (get key w) as [[r w']|f]; [|by destruct Hs]. destruct Hs as [Hs _].
    injection Hs as <- Hck Htk Hct Hmx. by exists w'.
  - exists (tick w). by rw /exists_ /bind /read_shard Hi Hm /now_ms expired_view He1.
  - exists (tick w). rw /ttl /bind /read_shard Hi Hm /has_expiry. rw (proj2 (Z.leb_le _ _)); [lia|].
    rw /= /now_ms /lift /checked (proj2 (in_i64_spec _)); [rw /INT64_MAX in Hmax; lia|].
    rw (proj2 (Z.ltb_ge _ _)); [lia|done].
Qed.

(** Counting.  On a key that is absent, [n] increments return 1, 2, ..., n
    and leave the decimal text of [n], without a deadline. *)
Theorem incr_counts n w key :
  store_ok (store w) → contents (store w) !! key = None → Z.of_nat n ≤ INT64_MAX →
  ∃ w', run_ops (replicate n (OIncr key)) w
        = Ret ((λ i, ROptInt (Some (Z.of_nat i))) <$> seq 1 n, w') ∧
    store_ok (store w') ∧
    contents (store w') !! key = match n with O => None | S _ => Some (to_string (Z.of_nat n), -1) end.
Proof.
  intros Hok Hk Hn.
  assert (∀ m c w, (c + m = n)%nat → store_ok (store w) →
    contents (store w) !! key = match c with O => None | S _ => Some (to_string (Z.of_nat c), -1) end →
    ∃ w', run_ops (replicate m (OIncr key)) w
      = Ret ((λ i, ROptInt (Some (Z.of_nat i))) <$> seq (S c) m, w') ∧ store_ok (store w') ∧
      contents (store w') !! key = match n with O => None | S _ => Some (to_string (Z.of_nat n), -1) end)
    as Hall; [|by apply (Hall n 0%nat)].
  clear w Hok Hk. induction m as [|m IH]; intros c w Hcm Hok Hk.
  { exists w. split_and!; [done..|]. by assert (c = n) as -> by lia. }
  pose proof (incr_run w key (Z.of_nat c) Hok) as Hr.
  rw /checked (_ : in_i64 (Z.of_nat c + 1) = true) in Hr.
  { apply in_i64_spec. rw /INT64_MAX in Hn. lia. }
  destruct Hr as (w' & Hinc & Hok' & Hc).
  { destruct c as [|c]; [by left|]. right.
    eexists _, _, _. split_and!; [done|done|].
    rw -{1}(app_nil_r (to_string _)). apply from_chars_to_string; [|done].
    apply in_i64_spec. rw /INT64_MAX in Hn. lia. }
  destruct (IH (S c) w') as (w'' & Hrun & Hok'' & Hc''); [lia|done| |].
  { rw Hc lookup_insert_eq. by replace (Z.of_nat c + 1) with (Z.of_nat (S c)) by lia. }
  exists w''. split_and!; [|done..]. cbn [replicate run_ops run_op]. rw /mapM /bind Hinc /ret Hrun.
  by replace (Z.of_nat c + 1) with (Z.of_nat (S c)) by lia.
Qed.

(** [incr] on a live value.  It takes the longest integer prefix of the
    text, stores the successor without a deadline and returns it; at the
    largest [int64_t] the increment is undefined behaviour. *)
Theorem incr_live w key v x p cur :
  store_ok (store w) → contents (store w) !! key = Some (v, x) →
  Spec.expired x (clock w (ticks w)) = false →
  from_chars v 0 = ({| fc_ptr := p; fc_ec := errc_ok |}, cur) →
  (cur < INT64_MAX → ∃ w', incr key w = Ret (Some (cur + 1), w') ∧
     contents (store w') = <[key := (to_string (cur + 1), -1)]> (contents (store w))) ∧
  (cur = INT64_MAX → incr key w = Fail (Undef SignedOverflow)).
Proof.
  intros Hok Hk He Hf. pose proof (incr_run w key cur Hok) as Hr.
  rw /checked in Hr. specialize (Hr ltac:(right; eauto 6)). split.
  - intros Hlt. assert (in_i64 cur = true) as Hin.
    { revert Hf. rw /from_chars. repeat case_match; congruence. }
    rw (_ : in_i64 (cur + 1) = true) in Hr; [apply in_i64_spec; apply in_i64_spec in Hin; rw /INT64_MAX in Hlt; lia|].
    destruct Hr as (w' & ? & _ & ?). by exists w'.
  - intros ->. exact Hr.
Qed.

(** [incr] does not make room: on a key that is not there it adds an entry, however
    full the store is. *)
Theorem incr_ignores_capacity w key :
  store_ok (store w) → contents (store w) !! key = None →
  ∃ w', incr key w = Ret (Some 1, w') ∧ size_of (store w') = size_of (store w) + 1.
Proof.
  intros Hok Hk. pose proof (incr_run w key 0 Hok ltac:(by left)) as (w' & Hr & Hok' & Hc). exists w'.
  split; [done|]. rw !contents_size // Hc map_size_insert_None //. lia.
Qed.

(** [keys] lists exactly the live keys that match the pattern, each once. *)
Theorem keys_exact pattern w :
  store_ok (store w) →
  ∃ ks, keys pattern w = Ret (ks, tick w) ∧ NoDup ks ∧
    ∀ k, k ∈ ks ↔ ∃ v x, contents (store w) !! k = Some (v, x) ∧
      Spec.expired x (clock w (ticks w)) = false ∧
      (pattern = bs "*" ∨ fnmatch (c_str pattern) (c_str k) = 0).
Proof.
  intros Hok. destruct (keys_spec pattern w Hok) as (ks & ks' & Hk & [= <-] & Hp & Hnd).
  exists ks. split_and!; [done..|]. intros k. rw Hp list_elem_of_fmap. split.
  - intros ([k' [v x]] & -> & [[He Hm] Hin%elem_of_map_to_list]%list_elem_of_filter). eauto 6.
  - intros (v & x & Hkv & He & Hm). exists (k, (v, x)). split; [done|].
    apply list_elem_of_filter. split; [done|]. by apply elem_of_map_to_list.
Qed.

(** A [get] that finds a live value changes nothing but the clock: it
    returns under the shared lock, so the access order is not updated and
    reads do not protect a key from eviction. *)
Theorem get_live_keeps_order w key v x :
  store_ok (store w) → contents (store w) !! key = Some (v, x) →
  Spec.expired x (clock w (ticks w)) = false →
  get key w = Ret (Some v, mkWorld (clock w) (S (ticks w)) (store w)).
Proof.
  intros Hok Hk He. destruct (shard_at w key Hok) as (sh & Hi & Hsh & Hc). rw Hk in Hc.
  destruct (map sh !! key) as [e|] eqn:Hm; [|done]. injection Hc as -> ->.
  by rw /get /get_shared /bind /read_shard Hi Hm /now_ms expired_view He.
Qed.

End Thms.
(** ** Concrete runs

    A store of capacity 2, clock readings 1000, 1010, 1020, ...; [demo1] holds
    one key with a deadline at 1005, [demo2] a second one without. *)

Module Demo.
#[local] Existing Instance demo_platform.

Definition after {A} (m : M World A) (w : World) : World :=
  match m w with Ret (_, w') => w' | Fail _ => w end.

Definition demo0 : World := mkWorld (λ n, 1000 + 10 * Z.of_nat n) 0 (new_store 2).
Definition demo1 : World := after (set (bs "k") (bs "41") 5) demo0.
Definition demo2 : World := after (set (bs "c") (bs "9x") 0) demo1.

Lemma demo1_run : set (bs "k") (bs "41") 5 demo0 = Ret (tt, demo1).
Proof. vm_compute. reflexivity. Qed.

Lemma demo2_run : set (bs "c") (bs "9x") 0 demo1 = Ret (tt, demo2).
Proof. vm_compute. reflexivity. Qed.

Lemma demo1_ok : store_ok (store demo1).
Proof. by destruct (set_contents demo0 _ _ _ _ (new_store_ok 2) demo1_run) as (? & ? & ? & _). Qed.

Lemma demo2_ok : store_ok (store demo2).
Proof. by destruct (set_contents _ _ _ _ _ demo1_ok demo2_run) as (? & ? & ? & _). Qed.

Lemma store_refines_witness :
  ∃ r' w', spec_op (victim (store demo2)) (OGet (bs "c")) (abs demo2) = Ret (r', abs w') ∧
    res_equiv (RBytes (Some (bs "9x"))) r' ∧ store_ok (store w').
Proof.
  pose proof (store_refines (OGet (bs "c")) demo2 demo2_ok) as H.
  assert (run_op (OGet (bs "c")) demo2 = Ret (RBytes (Some (bs "9x")), tick demo2)) as E
    by (vm_compute; reflexivity).
  rw E in H. destruct H as [r' H]. exists r', (tick demo2). exact H.
Defined.

Lemma set_then_get_witness :
  ∃ w'', get (bs "c") demo2 = Ret (Some (bs "9x"), w'') ∧ store w'' = store demo2.
Proof. apply (set_then_get demo1 demo2 (bs "c") (bs "9x") 0 demo1_ok demo2_run). left. lia. Defined.

Lemma set_frame_witness :
  contents (store demo2) !! bs "k" = contents (store demo1) !! bs "k" ∨
  (max_keys_ (store demo1) ≤ size_of (store demo1) ∧ victim (store demo1) = Some (bs "k") ∧
   contents (store demo2) !! bs "k" = None).
Proof. apply (set_frame demo1 demo2 (bs "c") (bs "9x") 0 (bs "k") demo1_ok demo2_run). done. Defined.

Lemma set_respects_capacity_witness : size_of (store demo2) ≤ 2.
Proof.
  pose proof (set_respects_capacity demo1 demo2 (bs "c") (bs "9x") 0 demo1_ok
    ltac:(vm_compute; discriminate) demo2_run) as H.
  vm_compute in H. vm_compute. exact H.
Defined.

Lemma eviction_is_lru_witness :
  ∃ i sh sh' k w', maybe_evict demo2 = Ret (tt, w') ∧
    shards_ (store demo2) !! i = Some sh ∧ shards_ (store w') = <[i := sh']> (shards_ (store demo2)) ∧
    (∀ j sh2, shards_ (store demo2) !! j = Some sh2 → (base.size (map sh2) ≤ base.size (map sh))%nat) ∧
    LruList.order (lru sh) = LruList.order (lru sh') ++ [k] ∧
    map sh' = delete k (map sh) ∧ is_Some (map sh !! k).
Proof.
  apply (eviction_is_lru demo2 demo2_ok); [vm_compute; discriminate|vm_compute; reflexivity].
Defined.

Lemma set_locked_order_witness :
  ∃ sh', set_locked empty_shard (bs "k") (bs "v") (-1) = Ret sh' ∧
    LruList.order (lru sh') = bs "k" :: filter (λ k, k ≠ bs "k") (LruList.order (lru empty_shard)).
Proof.
  apply (set_locked_order (shard_for (bs "k"))); [apply shard_ok_empty|reflexivity].
Defined.

Lemma expired_never_served_witness :
  ∃ w', get (bs "k") demo1 = Ret (None, w') ∧
    contents (store w') = delete (bs "k") (contents (store demo1)).
Proof.
  apply (expired_never_served demo1 (bs "k") (bs "41") 1005 demo1_ok);
    [vm_compute; reflexivity|vm_compute; split; discriminate|vm_compute; discriminate..].
Defined.

Lemma incr_counts_witness :
  ∃ w', run_ops (replicate 3 (OIncr (bs "n"))) demo1
        = Ret ((λ i, ROptInt (Some (Z.of_nat i))) <$> seq 1 3, w') ∧
    store_ok (store w') ∧ contents (store w') !! bs "n" = Some (to_string 3, -1).
Proof.
  apply (incr_counts 3 demo1 (bs "n") demo1_ok); [vm_compute; reflexivity|vm_compute; discriminate].
Defined.

Lemma incr_live_witness :
  ∃ w', incr (bs "c") demo2 = Ret (Some 10, w') ∧
    contents (store w') = <[bs "c" := (to_string 10, -1)]> (contents (store demo2)).
Proof.
  apply (incr_live demo2 (bs "c") (bs "9x") (-1) 1 9 demo2_ok);
    [vm_compute; reflexivity..|].
  reflexivity.
Defined.

Lemma keys_exact_witness :
  ∃ ks, keys (bs "*") demo2 = Ret (ks, tick demo2) ∧ NoDup ks ∧
    ∀ k, k ∈ ks ↔ ∃ v x, contents (store demo2) !! k = Some (v, x) ∧
      Spec.expired x (clock demo2 (ticks demo2)) = false ∧
      (bs "*" = bs "*" ∨ fnmatch (c_str (bs "*")) (c_str k) = 0).
Proof. apply (keys_exact (bs "*") demo2 demo2_ok). Defined.

Lemma get_live_keeps_order_witness :
  get (bs "c") demo2 = Ret (Some (bs "9x"), mkWorld (clock demo2) (S (ticks demo2)) (store demo2)).
Proof.
  apply (get_live_keeps_order demo2 (bs "c") (bs "9x") (-1) demo2_ok); vm_compute; reflexivity.
Defined.
End Demo.

End StoreThms.
