(* ===== verification/Conc.v ===== *)
(** Threads over a shared state: programs of atomic sections, and their
    interleavings.

    A section is what a thread does in one piece: under one lock, or one access
    to an atomic variable.  Between two sections of a program anything can
    happen.  The store (StoreConc.v), the metrics (MetricsConc.v) and the
    maintenance thread of the server (Maintenance.v) are written in this form. *)

From S2P Require Import Prelude.

Module Conc.

(** A program: sections, and what comes after each. *)
Inductive Prog (S A : Type) : Type :=
  | PRet (a : A)
  | PSec {X : Type} (m : M S X) (k : X → Prog S A).
Arguments PRet {S A} a.
Arguments PSec {S A X} m k.

Fixpoint pbind {S A B} (p : Prog S A) (h : A → Prog S B) : Prog S B :=
  match p with
  | PRet a => h a
  | PSec m k => PSec m (λ x, pbind (k x) h)
  end.

(** [for (x : l)], with sections in the body *)
Fixpoint pfold {S A B} (f : B → A → Prog S B) (l : list A) (acc : B) : Prog S B :=
  match l with
  | [] => PRet acc
  | x :: l' => pbind (f acc x) (pfold f l')
  end.

Definition section {S A} (m : M S A) : Prog S A := PSec m PRet.

Definition pmap {S A B} (f : A → B) (p : Prog S A) : Prog S B := pbind p (λ a, PRet (f a)).

(** The program on a part of a larger state. *)
Fixpoint pzoom {S T A} (z : ∀ X, M S X → M T X) (p : Prog S A) : Prog T A :=
  match p with
  | PRet a => PRet a
  | PSec m k => PSec (z _ m) (λ x, pzoom z (k x))
  end.

(** The program when nothing comes between its sections. *)
Fixpoint alone {S A} (p : Prog S A) : M S A :=
  match p with
  | PRet a => ret a
  | PSec m k => let! x := m in alone (k x)
  end.

(** ** Threads *)

Section Threads.
Context {S Op Res : Type} (prog_of : Op → Prog S Res).

(** What a thread has got so far, the operation it is in and those left to do. *)
Record Thread := mkThread {
  t_results : list Res;
  t_prog : option (Prog S Res);
  t_todo : list Op
}.

Record Sys := mkSys {
  sys_world : S;
  sys_threads : list Thread
}.

(** The next step of a thread: an operation starts, one of its sections runs, or
    it returns. *)
Definition thread_step (t : Thread) : M S Thread :=
  match t_prog t with
  | None =>
      match t_todo t with
      | [] => ret t
      | op :: ops => ret (mkThread (t_results t) (Some (prog_of op)) ops)
      end
  | Some (PRet r) => ret (mkThread (t_results t ++ [r]) None (t_todo t))
  | Some (PSec m k) => let! x := m in ret (mkThread (t_results t) (Some (k x)) (t_todo t))
  end.

(** One step of the thread the scheduler chose. *)
Definition sys_step (i : nat) : M Sys unit := λ s,
  match sys_threads s !! i with
  | None => Ret (tt, s)
  | Some t =>
      match thread_step t (sys_world s) with
      | Ret (t', w') => Ret (tt, mkSys w' (<[i := t']> (sys_threads s)))
      | Fail f => Fail f
      end
  end.

Definition run_schedule (schedule : list nat) : M Sys unit :=
  foldM (λ _ i, sys_step i) schedule tt.

(** A thread that runs [ops], before its first operation. *)
Definition new_thread (ops : list Op) : Thread := mkThread [] None ops.

(** A thread that has done all it had to do. *)
Definition finished (t : Thread) : Prop := t_prog t = None ∧ t_todo t = [].
Definition all_finished (s : Sys) : bool :=
  forallb (λ t, match t_prog t, t_todo t with None, [] => true | _, _ => false end) (sys_threads s).

Lemma all_finished_spec s : all_finished s = true → Forall finished (sys_threads s).
Proof.
  rw /all_finished. intros H. apply Forall_forall. intros t Hin%list_elem_of_In. rw forallb_forall in H.
  specialize (H t Hin). rw /finished. by destruct (t_prog t), (t_todo t).
Qed.

End Threads.
Arguments Thread S Op Res : clear implicits.
Arguments Sys S Op Res : clear implicits.

(** Where a computation leads, and that it leads there. *)
Definition reached {S} (s0 : S) (o : outcome (unit * S)) : S := match o with Ret (_, s) => s | Fail _ => s0 end.

Lemma reached_ok {S} (s0 : S) o : match o with Ret _ => true | Fail _ => false end = true → o = Ret (tt, reached s0 o).
Proof. by destruct o as [[[] s]|f]. Qed.

(** ** A program alone *)

Lemma alone_bind {S A B} (p : Prog S A) (h : A → Prog S B) w :
  alone (pbind p h) w = bind (alone p) (λ a, alone (h a)) w.
Proof.
  revert w. induction p as [a|X m k IH]; intros w; [done|]. cbn [pbind alone]. rw /bind in IH |- *.
  destruct (m w) as [[x w']|f]; [|done]. apply IH.
Qed.

Lemma alone_section {S A} (m : M S A) w : alone (section m) w = m w.
Proof. rw /section. cbn [alone]. rw /bind. by destruct (m w) as [[]|]. Qed.

Lemma bind_cong {S A B} (m1 m2 : M S A) (k1 k2 : A → M S B) w :
  m1 w = m2 w → (∀ a w', k1 a w' = k2 a w') → bind m1 k1 w = bind m2 k2 w.
Proof. rw /bind. intros -> Hk. by destruct (m2 w) as [[]|]. Qed.

(** ** Invariants *)

Section Keeps.
Context {S : Type} (E : fault → Prop) (I : S → Prop) (G : S → S → Prop).

(** Every section of the program keeps [I] and is a step of [G], whatever happens
    in between as long as that keeps [I] too; the result satisfies [Q]. *)
Fixpoint keeps {A} (Q : A → Prop) (p : Prog S A) : Prop :=
  match p with
  | PRet a => Q a
  | PSec m k => ∀ s, I s → wp E m (λ x s', I s' ∧ G s s' ∧ keeps Q (k x)) s
  end.

Lemma keeps_bind {A B} (R : A → Prop) (Q : B → Prop) (p : Prog S A) (h : A → Prog S B) :
  keeps R p → (∀ a, R a → keeps Q (h a)) → keeps Q (pbind p h).
Proof.
  induction p as [a|X m k IH]; intros Hp Hh; [by apply Hh|]. cbn [keeps pbind] in *. intros s Hs.
  eapply wp_mono; [by apply Hp|]. intros x s' (? & ? & ?). auto.
Qed.

Lemma keeps_fold {A B} (R : B → Prop) (f : B → A → Prog S B) l acc :
  R acc → (∀ b x, R b → x ∈ l → keeps R (f b x)) → keeps R (pfold f l acc).
Proof.
  revert acc. induction l as [|x l IH]; intros acc Hacc Hf; [done|]. cbn [pfold].
  apply (keeps_bind R); [apply Hf; [done|by left]|]. intros b Hb. apply IH; [done|]. intros b' y ? ?. apply Hf; [done|by right].
Qed.

Lemma keeps_section {A} (Q : A → Prop) (m : M S A) :
  (∀ s, I s → wp E m (λ a s', I s' ∧ G s s' ∧ Q a) s) → keeps Q (section m).
Proof. done. Qed.

(** Alone, the program keeps the invariant. *)
Lemma keeps_alone {A} (Q : A → Prop) (p : Prog S A) s :
  keeps Q p → I s → wp E (alone p) (λ a s', I s' ∧ Q a) s.
Proof.
  revert s. induction p as [a|X m k IH]; intros s Hp Hs; cbn [keeps alone] in *; [by apply wp_ret|]. wp_go.
  eapply wp_mono; [by apply Hp|]. intros x s' (? & _ & ?). auto.
Qed.

End Keeps.

(** On a part of the state that the sections reach through [z]. *)
Lemma keeps_zoom {S T A} E (I : S → Prop) (G : S → S → Prop) (J : T → Prop) (H : T → T → Prop)
    (z : ∀ X, M S X → M T X) (Q : A → Prop) p :
  (∀ X (m : M S X) (R : X → Prop), (∀ s, I s → wp E m (λ x s', I s' ∧ G s s' ∧ R x) s) →
     ∀ t, J t → wp E (z X m) (λ x t', J t' ∧ H t t' ∧ R x) t) →
  keeps E I G Q p → keeps E J H Q (pzoom z p).
Proof.
  intros Hz. induction p as [a|X m k IH]; intros Hp; [done|]. cbn [keeps pzoom] in *. intros t Ht.
  eapply wp_mono; [by eapply (Hz X m (λ x, keeps E I G Q (k x)))|]. intros x t' (? & ? & ?). auto.
Qed.

(** ** Beside other threads *)

Section Amid.
Context {S : Type} (E : fault → Prop) (R : S → S → Prop).

(** A run of the program; after each of its sections other threads change the
    state as [R] allows. *)
Fixpoint amid {A} (p : Prog S A) (Q : A → S → Prop) (s : S) : Prop :=
  match p with
  | PRet a => Q a s
  | PSec m k => wp E m (λ x s1, ∀ s2, R s1 s2 → amid (k x) Q s2) s
  end.

Lemma amid_bind {A B} (p : Prog S A) (h : A → Prog S B) Q s :
  amid p (λ a s', amid (h a) Q s') s → amid (pbind p h) Q s.
Proof.
  revert s. induction p as [a|X m k IH]; intros s H; [done|]. cbn [pbind amid] in *.
  eapply wp_mono; [exact H|]. intros x s1 H1 s2 H2. auto.
Qed.

Lemma amid_mono {A} (p : Prog S A) (Q Q' : A → S → Prop) s :
  (∀ a s, Q a s → Q' a s) → amid p Q s → amid p Q' s.
Proof.
  intros HQ. revert s. induction p as [a|X m k IH]; intros s H; [by apply HQ|]. cbn [amid] in *.
  eapply wp_mono; [exact H|]. intros x s1 H1 s2 H2. auto.
Qed.

Lemma amid_section {A} (m : M S A) (Q : A → S → Prop) s :
  wp E m (λ a s1, ∀ s2, R s1 s2 → Q a s2) s → amid (section m) Q s.
Proof. done. Qed.

End Amid.

(** ** Counters that wrap around *)

Section Adds.
Context {S : Type} (E : fault → Prop) (I : S → Prop) (c : S → Z).

(** The program adds [n] to the counter [c] in all, each section a fixed amount,
    and keeps [I], whatever happens in between; the result satisfies [Q]. *)
Fixpoint adds {A} (Q : A → Prop) (n : Z) (p : Prog S A) : Prop :=
  match p with
  | PRet a => n = 0%Z ∧ Q a
  | PSec m k => ∃ d, ∀ s, I s → wp E m (λ x s', I s' ∧ i64 (c s') = i64 (c s + d) ∧ adds Q (n - d) (k x)) s
  end.

Lemma adds_map {A B} (R : A → Prop) (Q : B → Prop) (f : A → B) n (p : Prog S A) :
  (∀ a, R a → Q (f a)) → adds R n p → adds Q n (pmap f p).
Proof.
  intros Hf. rw /pmap. revert n. induction p as [a|X m k IH]; intros n; cbn [adds pbind]; [naive_solver|].
  intros [d Hd]. exists d. intros s Hs. eapply wp_mono; [by apply Hd|]. intros x s' (? & ? & ?). auto.
Qed.

Context {Op Res : Type} (prog_of : Op → Prog S Res) (Q : Res → Prop) (P : Op → Prop) (weight : Op → Z).
Context (op_adds : ∀ op, P op → adds Q (weight op) (prog_of op)).

Definition sum (l : list Z) : Z := foldr Z.add 0%Z l.

(** A thread that has [r] left to add. *)
Definition thread_adds (r : Z) (t : Thread S Op Res) : Prop :=
  Forall Q (t_results t) ∧ Forall P (t_todo t) ∧
  ∃ n, r = (n + sum (weight <$> t_todo t))%Z ∧
    match t_prog t with Some p => adds Q n p | None => n = 0%Z end.

(** All threads together have added what is not left of [total]. *)
Definition sys_adds (total : Z) (s : Sys S Op Res) : Prop :=
  I (sys_world s) ∧ ∃ rs, Forall2 thread_adds rs (sys_threads s) ∧ i64 (c (sys_world s) + sum rs) = i64 total.

Lemma sum_insert rs i r r' : rs !! i = Some r → sum (<[i := r']> rs) = (sum rs - r + r')%Z.
Proof.
  revert i. induction rs as [|x rs IH]; intros [|i] Hi; [done..| |].
  - injection Hi as ->. cbn. lia.
  - change (sum (<[Datatypes.S i := r']> (x :: rs))) with (x + sum (<[i := r']> rs))%Z. rw (IH i Hi). cbn. rw /sum. lia.
Qed.

Lemma thread_step_adds r t w :
  I w → thread_adds r t →
  wp E (thread_step prog_of t) (λ t' w', I w' ∧ ∃ d, i64 (c w') = i64 (c w + d) ∧ thread_adds (r - d) t') w.
Proof.
  intros Hw (HQ & HP & n & -> & Hp). rw /thread_step. destruct t as [res [[a|X m k]|] todo]; cbn [t_prog t_todo t_results] in *.
  - destruct Hp as [-> Ha]. wp_go. split; [done|]. exists 0%Z. rw Z.add_0_r Z.sub_0_r. split; [done|].
    split_and!; [cbn; by apply Forall_app_2, Forall_singleton|done|]. by exists 0%Z.
  - destruct Hp as [d Hd]. wp_go. eapply wp_mono; [by apply Hd|]. intros x w' (H1 & H2 & H3). wp_go. split; [done|].
    exists d. split; [done|]. split_and!; [done..|]. exists (n - d)%Z. split; [cbn [t_todo]; lia|done].
  - subst n. destruct todo as [|op ops]; wp_go; (split; [done|]); exists 0%Z; rw Z.add_0_r Z.sub_0_r; (split; [done|]).
    + split_and!; [done..|]. by exists 0%Z.
    + apply Forall_cons in HP as [Hop HP]. split_and!; [done..|]. exists (weight op). split; [cbn [t_todo sum fmap list_fmap foldr]; lia|by apply op_adds].
Qed.

Lemma sys_step_adds total i s : sys_adds total s → wp E (sys_step prog_of i) (λ _ s', sys_adds total s') s.
Proof.
  intros (Hw & rs & Hrs & Hsum). rw /wp /sys_step. destruct (sys_threads s !! i) as [t|] eqn:Ht; [|by split; [|exists rs]].
  destruct (Forall2_lookup_r _ _ _ _ _ Hrs Ht) as (r & Hr & Hta).
  pose proof (thread_step_adds r t (sys_world s) Hw Hta) as Hstep. rw /wp in Hstep.
  destruct (thread_step _ _ _) as [[t' w']|f]; [|done]. destruct Hstep as (HI & d & Hd & Ht').
  split; [done|]. exists (<[i := (r - d)%Z]> rs). split; [by apply Forall2_insert|]. rw (sum_insert _ _ _ _ Hr) -Hsum. cbn.
  rw (i64_add _ _ (sum rs - r + (r - d)) Hd). f_equal. lia.
Qed.

Lemma run_adds total schedule s :
  sys_adds total s → wp E (run_schedule prog_of schedule) (λ _ s', sys_adds total s') s.
Proof.
  rw /run_schedule. revert s. induction schedule as [|i l IH]; intros s Hs; cbn [foldM]; wp_go; [done|].
  eapply wp_mono; [by apply sys_step_adds|]. intros [] s' ?. by apply IH.
Qed.

(** A run from the start: when all threads are done, all of it has been added. *)
Lemma schedule_adds w opss schedule :
  I w → Forall (Forall P) opss →
  wp E (run_schedule prog_of schedule) (λ _ s, I (sys_world s) ∧ Forall (λ t, Forall Q (t_results t)) (sys_threads s) ∧
      (Forall finished (sys_threads s) → i64 (c (sys_world s)) = i64 (c w + sum ((λ ops, sum (weight <$> ops)) <$> opss))))
    (mkSys w (new_thread <$> opss)).
Proof.
  intros Hw HP. eapply wp_mono; [apply (run_adds (c w + sum ((λ ops, sum (weight <$> ops)) <$> opss)))|].
  - split; [done|]. exists ((λ ops, sum (weight <$> ops)) <$> opss). split; [|done].
    apply Forall2_fmap, Forall_Forall2_diag. eapply Forall_impl; [exact HP|]. intros ops Hops.
    split_and!; [constructor|done|]. by exists 0%Z.
  - intros _ s (HI & rs & Hrs & Hsum). split_and!; [done| |].
    + clear Hsum. induction Hrs as [|r t rs ts (? & _) _ IH]; by constructor.
    + intros Hfin. rw -Hsum. f_equal. enough (sum rs = 0%Z) by lia. clear Hsum HI.
      induction Hrs as [|r t rs ts (_ & _ & n & -> & Hn) _ IH]; [done|]. apply Forall_cons in Hfin as [[Hp Ht] Hfin].
      rw Hp in Hn. rw Ht. subst n. cbn. rw /sum in IH. rw IH //.
Qed.

End Adds.

End Conc.
