(* ===== verification/StoreConc.v ===== *)
(** The store under several threads: the operations of src/storage/Store.cpp
    as programs of locked sections.

    A section is what runs under one lock of a shard (or one reading of the
    clock); sections of different threads alternate in any order.  The sections
    are those of Storage.v; a shared and an exclusive lock exclude each other,
    and sections under shared locks do not write, so each section is one step. *)

From S2P Require Import Prelude Lru Storage StorageThms Conc.

Module StoreConc.
Import Store StoreThms Conc.

Section Ops.
Context {plat : Platform}.

(** [shards_[i]] under its exclusive lock *)
Definition on_shard (i : nat) (f : Shard → outcome Shard) : M World unit :=
  let! sh := read_shard i in
  let! sh' := lift (f sh) in
  write_shard i sh'.

(** [Store::size]: one shared lock after the other *)
Definition size_prog : Prog World Z :=
  pfold (λ total i, PSec (read_shard i) (λ sh, PRet (total + Z.of_nat (base.size (map sh)))))
    (seq 0 SHARD_COUNT) 0.

(** The scan of [Store::maybe_evict]: [max_sz] and [max_idx] *)
Definition scan_prog : Prog World (nat * nat) :=
  pfold (λ r i, PSec (read_shard i) (λ sh,
      PRet (if Nat.ltb r.1 (base.size (map sh)) then (base.size (map sh), i) else r)))
    (seq 0 SHARD_COUNT) (0, 0)%nat.

(** [Store::maybe_evict]; [max_keys_] never changes. *)
Definition maybe_evict_prog : Prog World unit :=
  pbind size_prog (λ approx,
  PSec (gets (λ w, max_keys_ (store w))) (λ max_keys,
  if approx <? max_keys then PRet tt else
  pbind scan_prog (λ r, section (on_shard r.2 evict_locked)))).

(** [Store::set]: the clock is read before the lock is taken. *)
Definition set_prog (key val : bytes) (ttl_ms : Z) : Prog World unit :=
  pbind maybe_evict_prog (λ _,
  pbind (if 0 <? ttl_ms
         then section (let! now := now_ms in lift (checked (now + ttl_ms)))
         else PRet (-1)) (λ expires_at,
  section (on_shard (shard_for key) (λ sh, set_locked sh key val expires_at)))).

(** [Store::get]: between the two locks anything can happen. *)
Definition get_prog (key : bytes) : Prog World (option bytes) :=
  PSec (get_shared key) (λ r,
    match r with
    | Some res => PRet res
    | None => section (get_exclusive key)
    end).

(** [Store::keys] *)
Definition keys_prog (pattern : bytes) : Prog World (list bytes) :=
  PSec now_ms (λ now,
  pfold (λ result i, PSec (read_shard i) (λ sh,
      PRet (foldl (λ result kv, if key_selected pattern now kv then result ++ [kv.1] else result)
                  result (bucket_order (map sh)))))
    (seq 0 SHARD_COUNT) []).

(** [Store::flush], [Store::sweep_expired] *)
Definition shards_prog (f : Shard → outcome Shard) : Prog World unit :=
  pfold (λ _ i, section (on_shard i f)) (seq 0 SHARD_COUNT) tt.
Definition flush_prog : Prog World unit := shards_prog flush_locked.
Definition sweep_prog : Prog World unit := PSec now_ms (λ now, shards_prog (sweep_locked now)).

(** [Store::for_each]: the callback runs under the lock of its shard. *)
Definition for_each_prog {B} (cb : B → bytes → bytes → Z → B) (acc : B) : Prog World B :=
  PSec now_ms (λ now,
  pfold (λ acc i, PSec (read_shard i) (λ sh,
      PRet (foldl (λ acc kv, if is_expired kv.2 now then acc
                             else cb acc kv.1 (value kv.2) (expires_at_ms kv.2))
                  acc (bucket_order (map sh)))))
    (seq 0 SHARD_COUNT) acc).

(** A public operation as a program. *)
Definition prog_of (op : Op) : Prog World Res :=
  match op with
  | OSet k v t => pmap (λ _, RUnit) (set_prog k v t)
  | OGet k => pmap RBytes (get_prog k)
  | ODel k => pmap RBool (section (del k))
  | OExists k => pmap RBool (section (exists_ k))
  | OTtl k => pmap RInt (section (ttl k))
  | OExpire k t => pmap RBool (section (expire k t))
  | OIncr k => pmap ROptInt (section (incr k))
  | OKeys p => pmap RKeys (keys_prog p)
  | OFlush => pmap (λ _, RUnit) flush_prog
  | OSweep => pmap (λ _, RUnit) sweep_prog
  | OSize => pmap RInt size_prog
  end.

End Ops.
End StoreConc.
