(* ===== verification/StoreConcThms.v ===== *)
(** What the store guarantees under several threads: alone, a program of
    sections is the operation it stands for; in any interleaving the store stays
    sound. *)

From S2P Require Import Prelude Lru Storage StorageInv StorageSpec StorageThms Conc StoreConc.

Module StoreConcThms.
Import Store StoreInv StoreSpec StoreThms Conc StoreConc.

Section Thms.
Context {plat : Platform}.

(** ** A program alone *)

(** A loop that only reads the shards, one after the other. *)
Definition fold_shards {B} (g : B → nat → Shard → B) (acc : B) (i : nat) (l : list Shard) : B :=
  (foldl (λ '(acc, i) sh, (g acc i sh, S i)) (acc, i) l).1.

Lemma alone_reads {B} (g : B → nat → Shard → B) acc w :
  length (shards_ (store w)) = SHARD_COUNT →
  alone (pfold (λ acc i, PSec (read_shard i) (λ sh, PRet (g acc i sh))) (seq 0 SHARD_COUNT) acc) w =
    Ret (fold_shards g acc 0 (shards_ (store w)), w).
Proof.
  intros Hlen. rw -Hlen. clear Hlen.
  enough (∀ l pre acc, shards_ (store w) = pre ++ l →
    alone (pfold (λ acc i, PSec (read_shard i) (λ sh, PRet (g acc i sh))) (seq (length pre) (length l)) acc) w =
      Ret (fold_shards g acc (length pre) l, w)) as H by (by apply (H (shards_ (store w)) [])).
  induction l as [|sh l IH]; intros pre acc' Heq; [done|]. cbn [length seq pfold pbind alone].
  rw {1}/bind /read_shard Heq list_lookup_middle //.
  specialize (IH (pre ++ [sh]) (g acc' (length pre) sh)). rw length_app Nat.add_1_r -app_assoc in IH.
  by apply IH.
Qed.

Lemma fold_shards_foldl {B} (g : B → Shard → B) acc i l :
  fold_shards (λ acc _ sh, g acc sh) acc i l = foldl g acc l.
Proof. rw /fold_shards. revert acc i. induction l as [|sh l IH]; intros acc i; [done|]. cbn [foldl]. apply IH. Qed.

Lemma alone_reads_foldl {B} (g : B → Shard → B) acc w :
  length (shards_ (store w)) = SHARD_COUNT →
  alone (pfold (λ acc i, PSec (read_shard i) (λ sh, PRet (g acc sh))) (seq 0 SHARD_COUNT) acc) w =
    Ret (foldl g acc (shards_ (store w)), w).
Proof. intros Hlen. rw -(fold_shards_foldl g acc 0). by apply (alone_reads (λ acc _ sh, g acc sh)). Qed.

Lemma alone_scan w :
  length (shards_ (store w)) = SHARD_COUNT →
  ∃ sz, alone scan_prog w = Ret ((sz, largest (shards_ (store w))), w).
Proof.
  intros Hlen. rw /scan_prog (alone_reads (λ r i sh, if Nat.ltb r.1 (base.size (map sh)) then (base.size (map sh), i) else r)) //.
  rw /fold_shards /largest.
  enough (∀ l i r, ∃ sz, (foldl (λ '(acc, i) sh,
    (if Nat.ltb acc.1 (base.size (map sh)) then (base.size (map sh), i) else acc, S i)) (r, i) l).1 =
    (sz, (foldl (λ '(max_sz, max_idx, i) sh, let sz := base.size (map sh) in
      if Nat.ltb max_sz sz then (sz, i, S i) else (max_sz, max_idx, S i)) (r.1, r.2, i) l).1.2)) as H.
  { destruct (H (shards_ (store w)) 0%nat (0, 0)%nat) as [sz ->]. by exists sz. }
  induction l as [|sh l IH]; intros i [sz j]; cbn [foldl fst snd]; [by exists sz|].
  destruct (Nat.ltb sz (base.size (map sh))).
  - apply (IH (S i) (base.size (map sh), i)).
  - apply (IH (S i) (sz, j)).
Qed.

Lemma alone_evict w :
  length (shards_ (store w)) = SHARD_COUNT → alone maybe_evict_prog w = maybe_evict w.
Proof.
  intros Hlen. rw /maybe_evict_prog alone_bind {1}/bind /size_prog.
  rw (alone_reads_foldl (λ total sh, total + Z.of_nat (base.size (map sh)))) //.
  rw /maybe_evict /size /bind /gets /size_of. cbn [alone]. rw /bind.
  destruct (_ <? _); [done|]. rw alone_bind /bind. destruct (alone_scan w Hlen) as [sz ->].
  cbn [snd]. by rw alone_section.
Qed.

(** Two loops with the same bodies. *)
Lemma alone_shards f w : alone (shards_prog f) w = for_shards f w.
Proof.
  rw /shards_prog /for_shards. generalize (seq 0 SHARD_COUNT). intros l. revert w.
  induction l as [|i l IH]; intros w; [done|]. cbn [pfold foldM]. rw alone_bind.
  apply bind_cong; [apply alone_section|]. intros []. apply IH.
Qed.

Lemma alone_set k v t w :
  length (shards_ (store w)) = SHARD_COUNT → alone (set_prog k v t) w = set k v t w.
Proof.
  intros Hlen. rw /set_prog alone_bind. apply bind_cong; [by apply alone_evict|]. intros _ w1.
  rw alone_bind. apply bind_cong; [destruct (0 <? t); [apply alone_section|done]|]. intros x w2. apply alone_section.
Qed.

Lemma alone_get k w : alone (get_prog k) w = get k w.
Proof.
  rw /get_prog /get. cbn [alone]. apply bind_cong; [done|]. intros [r|] w'; [done|apply alone_section].
Qed.

Lemma alone_keys p w :
  length (shards_ (store w)) = SHARD_COUNT → alone (keys_prog p) w = keys p w.
Proof.
  intros Hlen. rw /keys_prog /keys. cbn [alone]. rw {1 2}/bind. cbn [now_ms].
  by rw (alone_reads_foldl (λ result sh, foldl (λ result kv,
    if key_selected p (clock w (ticks w)) kv then result ++ [kv.1] else result) result (bucket_order (map sh)))).
Qed.

Lemma alone_for_each {B} (cb : B → bytes → bytes → Z → B) acc w :
  length (shards_ (store w)) = SHARD_COUNT → alone (for_each_prog cb acc) w = for_each cb acc w.
Proof.
  intros Hlen. rw /for_each_prog /for_each. cbn [alone]. rw {1 2}/bind. cbn [now_ms].
  by rw (alone_reads_foldl (λ acc sh, foldl (λ acc kv, if is_expired kv.2 (clock w (ticks w)) then acc
    else cb acc kv.1 (value kv.2) (expires_at_ms kv.2)) acc (bucket_order (map sh)))).
Qed.

(** A thread that is not disturbed sees the operations of the sequential
    model.  Running the locked sections of a public operation one after the
    other, with nothing in between, gives the same result and the same state as
    the operation. *)
Lemma sections_compose op w :
  length (shards_ (store w)) = SHARD_COUNT → alone (prog_of op) w = run_op op w.
Proof.
  intros Hlen. destruct op; cbn [prog_of run_op]; rw /pmap /mapM alone_bind; (apply bind_cong; [|done]);
    auto using alone_set, alone_get, alone_section, alone_keys, alone_shards.
  by apply (alone_reads_foldl (λ total sh, total + Z.of_nat (base.size (map sh)))).
Qed.

(** ** What a step does to the contents *)

(** The contract of [get] as one step. *)
Definition get_now (key : bytes) : M Spec.World (option bytes) :=
  let! r := Spec.lookup key in
  match r with
  | None => ret None
  | Some (v, x) =>
      let! t := Spec.now in
      if Spec.expired x t then Spec.drop key ;;; ret None else ret (Some v)
  end.

(** The operations on one key that take effect in one section. *)
Definition atomic_op (op : Op) : option (M Spec.World Res) :=
  match op with
  | OGet k => Some (mapM RBytes (get_now k))
  | ODel k => Some (mapM RBool (Spec.del k))
  | OExists k => Some (mapM RBool (Spec.exists_ k))
  | OTtl k => Some (mapM RInt (Spec.ttl k))
  | OExpire k t => Some (mapM RBool (Spec.expire k t))
  | OIncr k => Some (mapM ROptInt (Spec.incr k))
  | _ => None
  end.

(** The operations that visit every shard. *)
Definition scans (op : Op) : Prop :=
  match op with OKeys _ | OFlush | OSweep | OSize => True | _ => False end.

(** [effect op r u u']: the moment at which [op] takes effect, with result [r].
    A [set] stores its value with the deadline it computed from an earlier
    reading of the clock. *)
Inductive effect : Op → Res → Spec.World → Spec.World → Prop :=
  | eff_atomic op m r u u' : atomic_op op = Some m → m u = Ret (r, u') → effect op r u u'
  | eff_set k v t u :
      t ≤ 0 → effect (OSet k v t) RUnit u (Spec.with_contents (<[k := (v, -1)]> (Spec.contents u)) u)
  | eff_set_ttl k v t n u :
      0 < t → (n < Spec.ticks u)%nat →
      effect (OSet k v t) RUnit u
        (Spec.with_contents (<[k := (v, Spec.clock u n + t)]> (Spec.contents u)) u)
  | eff_scan op r u : scans op → effect op r u u.

(** What an operation does to the contents before or apart from that: a [set]
    evicts a key, a sweep drops entries that had expired at an earlier reading
    of the clock, a flush drops entries. *)
Inductive internal : Op → Spec.World → Spec.World → Prop :=
  | int_evict k v t k' u :
      is_Some (Spec.contents u !! k') →
      internal (OSet k v t) u (Spec.with_contents (delete k' (Spec.contents u)) u)
  | int_sweep n u c :
      (n < Spec.ticks u)%nat → c ⊆ Spec.contents u →
      (∀ k vx, Spec.contents u !! k = Some vx → c !! k = None → Spec.expired vx.2 (Spec.clock u n)) →
      internal OSweep u (Spec.with_contents c u)
  | int_flush u c : c ⊆ Spec.contents u → internal OFlush u (Spec.with_contents c u).

(** Readings of the clock change nothing else. *)
Definition later (u u' : Spec.World) : Prop :=
  ∃ n, (Spec.ticks u ≤ n)%nat ∧ u' = Spec.mkWorld (Spec.clock u) n (Spec.contents u) (Spec.capacity u).

(** One section of [op], for an operation that has taken effect with a result
    ([fin]) or not yet; [ev] is what it contributes to the history. *)
Definition advances (op : Op) (fin : option Res) (ev : option (option Res)) (u u' : Spec.World) : Prop :=
  match ev with
  | None => later u u'
  | Some None => fin = None ∧ internal op u u'
  | Some (Some r) => fin = None ∧ effect op r u u'
  end.

Definition now_fin (fin : option Res) (ev : option (option Res)) : option Res :=
  match ev with Some (Some r) => Some r | _ => fin end.

(** Whatever other threads do in between, each section of the program keeps the
    store well-formed and advances [op]; the result, the number of readings of
    the clock by then and what was done satisfy [Q]. *)
Fixpoint implements {A} (clk : nat → Z) (op : Op) (Q : A → nat → option Res → Prop) (p : Prog World A)
    (n : nat) (fin : option Res) : Prop :=
  match p with
  | PRet a => Q a n fin
  | PSec m k => ∀ w, store_ok (store w) → clock w = clk → (n ≤ ticks w)%nat →
      wp overflow_only m (λ x w', store_ok (store w') ∧ clock w' = clk ∧ (ticks w ≤ ticks w')%nat ∧
        ∃ ev, advances op fin ev (abs w) (abs w') ∧ implements clk op Q (k x) (ticks w') (now_fin fin ev)) w
  end.

Lemma implements_bind {A B} clk op R Q (p : Prog World A) (h : A → Prog World B) n fin :
  implements clk op R p n fin → (∀ a n d, R a n d → implements clk op Q (h a) n d) →
  implements clk op Q (pbind p h) n fin.
Proof.
  intros Hp Hh. revert n fin Hp. induction p as [a|X m k IH]; intros n fin Hp; [by apply Hh|].
  cbn [pbind implements] in *. intros w Hw Hc Hn. eapply wp_mono; [by apply Hp|].
  intros x w' (? & ? & ? & ev & ? & ?). split_and!; [done..|]. exists ev. auto.
Qed.

Lemma implements_mono {A} clk op (R Q : A → nat → option Res → Prop) p n fin :
  (∀ a n d, R a n d → Q a n d) → implements clk op R p n fin → implements clk op Q p n fin.
Proof.
  intros HQ. revert n fin. induction p as [a|X m k IH]; intros n fin Hp; [by apply HQ|].
  cbn [implements] in *. intros w Hw Hc Hn. eapply wp_mono; [by apply Hp|].
  intros x w' (? & ? & ? & ev & ? & ?). split_and!; [done..|]. exists ev. auto.
Qed.

(** A loop with an invariant on its accumulator. *)
Lemma implements_fold {A B} clk op (I : B → nat → option Res → Prop) (f : B → A → Prog World B) l acc n fin :
  I acc n fin → (∀ b x n d, I b n d → x ∈ l → implements clk op I (f b x) n d) →
  implements clk op I (pfold f l acc) n fin.
Proof.
  revert acc n fin. induction l as [|x l IH]; intros acc n fin Hacc Hf; [done|]. cbn [pfold].
  apply (implements_bind _ _ I); [apply Hf; [done|by left]|]. intros b n' d Hb. apply IH; [done|].
  intros b' y m d' Hb' Hy. apply Hf; [done|by right].
Qed.

Lemma later_refl u : later u u.
Proof. exists (Spec.ticks u). by destruct u. Qed.

Lemma shard_some i w : (i < SHARD_COUNT)%nat → store_ok (store w) →
  ∃ sh, shards_ (store w) !! i = Some sh ∧ shard_ok i sh.
Proof.
  intros Hi Hw. destruct (lookup_lt_is_Some_2 (shards_ (store w)) i) as [sh Hsh]; [by rw (ok_count _ Hw)|].
  exists sh. split; [done|]. by apply (ok_shards _ Hw).
Qed.

Lemma seq_lt i n : i ∈ seq 0 n → (i < n)%nat.
Proof. rw elem_of_seq. lia. Qed.

Lemma implements_reads {B} clk op (I : B → option Res → Prop) (g : B → nat → Shard → B) acc n fin :
  I acc fin → (∀ b i sh d, I b d → (i < SHARD_COUNT)%nat → I (g b i sh) d) →
  implements clk op (λ b _, I b) (pfold (λ acc i, PSec (read_shard i) (λ sh, PRet (g acc i sh))) (seq 0 SHARD_COUNT) acc) n fin.
Proof.
  intros H0 Hg. apply implements_fold; [done|]. intros b i m d Hb Hi%seq_lt w Hw Hc Hn.
  destruct (shard_some i w Hi Hw) as (sh & Hsh & _). rw /wp /read_shard Hsh. split_and!; [done..|].
  exists None. split; [apply later_refl|]. by apply Hg.
Qed.

(** ** Each operation *)

(** The operations of the contract leave the clock alone, so the sections do. *)
Definition keeps_clock {A} (m : M Spec.World A) : Prop :=
  ∀ u a u', m u = Ret (a, u') → Spec.clock u' = Spec.clock u ∧ (Spec.ticks u ≤ Spec.ticks u')%nat.

Lemma clock_bind {A B} (m : M Spec.World A) (k : A → M Spec.World B) :
  keeps_clock m → (∀ a, keeps_clock (k a)) → keeps_clock (bind m k).
Proof.
  intros Hm Hk u b u2. rw /bind. destruct (m u) as [[a u1]|] eqn:He; [|done]. intros [H1 H2]%Hk.
  apply Hm in He as [H3 H4]. split; [congruence|lia].
Qed.
Lemma clock_simple {A} (m : M Spec.World A) :
  (∀ u, ∃ a u', m u = Ret (a, u') ∧ Spec.clock u' = Spec.clock u ∧ (Spec.ticks u ≤ Spec.ticks u')%nat) →
  keeps_clock m.
Proof. intros Hm u a u' H. destruct (Hm u) as (a2 & u2 & H2 & H3). rw H in H2. by injection H2 as _ <-. Qed.
Lemma clock_lift {A} (o : outcome A) : keeps_clock (lift o).
Proof. intros u a u'. rw /lift. destruct o; [|done]. by intros [= _ <-]. Qed.

Ltac keep_clock :=
  repeat match goal with
  | |- keeps_clock (bind _ _) => apply clock_bind; [|intros ?]
  | |- keeps_clock (lift _) => apply clock_lift
  | |- keeps_clock (match ?x with _ => _ end) => destruct x
  | |- keeps_clock _ => apply clock_simple; intros ?; eexists _, _; (split_and!; [done|done|cbn; lia])
  end.

(** A section that is the effect of its operation. *)
Lemma section_effect {A} clk op m (f : A → Res) (s : M World A) (s' : M Spec.World A) n :
  atomic_op op = Some m → m = mapM f s' → (∀ w, store_ok (store w) → sim w s s') → keeps_clock s' →
  implements clk op (λ r _ fin, fin = Some r) (pmap f (section s)) n None.
Proof.
  intros Hop -> Hs Hk w Hw Hc _. pose proof (Hs w Hw) as H. rw /sim in H. rw /wp.
  destruct (s w) as [[a w']|e] eqn:He; [|by destruct H]. destruct H as [H Hw']. pose proof (Hk _ _ _ H) as [Hk1 Hk2].
  split_and!; [done|by rw -Hc|done|].
  exists (Some (Some (f a))). split; [|done]. split; [done|]. eapply eff_atomic; [done|]. by rw /mapM /bind H.
Qed.

Lemma get_exclusive_sim w key : store_ok (store w) → sim w (get_exclusive key) (get_now key).
Proof.
  intros Hok. destruct (shard_at w key Hok) as (sh & Hi & Hsh & Hc).
  rw /get_exclusive /get_now. apply (sim_read _ sh); [done|]. apply sim_lookup. rw Hc.
  destruct (map sh !! key) as [e|] eqn:Hk; simpl; [|by apply sim_ret]. apply sim_now. rw expired_view.
  destruct (Spec.expired _ _).
  - destruct (erase_entry_ok _ _ _ _ Hsh Hk) as (sh' & n & l1 & l2 & He & Hsh' & Hm & _).
    apply (sim_lift _ sh'); [done|].
    eapply sim_write; [done..|by apply (abs_put_delete key sh)|done|by intros; apply sim_ret].
  - destruct (touch_entry_ok _ _ _ _ (map sh) Hsh Hk) as (sh' & n & l1 & l2 & He & Hsh' & Hm & _); [done|].
    apply (sim_lift _ sh'); [by destruct sh|].
    apply (sim_write_same _ sh); [done..|]. intros. by apply sim_ret.
Qed.

(** The program of an operation ends with the result it took effect with. *)
Definition delivers (r : Res) (n : nat) (fin : option Res) : Prop := fin = Some r.

Lemma get_implements clk key n : implements clk (OGet key) delivers (prog_of (OGet key)) n None.
Proof.
  cbn [prog_of]. rw /pmap /get_prog. cbn [pbind implements]. intros w Hw Hc _.
  destruct (shard_at w key Hw) as (sh & Hi & Hsh & Hcon). rw /get_shared /wp /bind /read_shard Hi.
  assert (∀ r u', get_now key (abs w) = Ret (r, u') → effect (OGet key) (RBytes r) (abs w) u') as Heff.
  { intros r u' H. eapply eff_atomic; [done|]. by rw /mapM /bind H. }
  rw /get_now /bind /Spec.lookup /gets /= Hcon in Heff. destruct (map sh !! key) as [e|] eqn:Hk; cbn in Heff.
  - cbn [now_ms]. rw expired_view. destruct (Spec.expired (expires_at_ms e) (clock w (ticks w))); cbn [ret].
    + split_and!; [done|done|cbn; lia|]. exists None. split; [exists (S (ticks w)); split; [cbn; lia|done]|].
      eapply section_effect; [done|done|intros; by apply get_exclusive_sim|rw /get_now; keep_clock].
    + split_and!; [done|done|cbn; lia|]. exists (Some (Some (RBytes (Some (value e))))). split; [|done]. split; [done|]. by apply Heff.
  - split_and!; [done..|]. exists (Some (Some (RBytes None))). split; [|done]. split; [done|]. by apply Heff.
Qed.

(** A section on one shard, by what it does to the contents. *)
Lemma on_shard_run i (f : Shard → outcome Shard) w (Q : World → Prop) :
  (i < SHARD_COUNT)%nat → store_ok (store w) →
  (∀ sh, shards_ (store w) !! i = Some sh → shard_ok i sh →
    ∃ sh', f sh = Ret sh' ∧ shard_ok i sh' ∧ Q (put_shard i sh' w)) →
  wp overflow_only (on_shard i f) (λ _ w', store_ok (store w') ∧ clock w' = clock w ∧ ticks w' = ticks w ∧ Q w') w.
Proof.
  intros Hi Hw Hf. destruct (shard_some i w Hi Hw) as (sh & Hsh & Hok).
  destruct (Hf sh Hsh Hok) as (sh' & He & Hok' & HQ).
  rw /wp /on_shard /bind /read_shard Hsh /lift He /write_shard /modify. split_and!; [|done..].
  by apply (store_ok_put i sh' w).
Qed.

(** Such a section as part of an operation: [ev] is its event. *)
Lemma on_shard_implements {R : unit → nat → option Res → Prop} clk op i (f : Shard → outcome Shard) n fin :
  (i < SHARD_COUNT)%nat →
  (∀ w sh, store_ok (store w) → clock w = clk → (n ≤ ticks w)%nat →
    shards_ (store w) !! i = Some sh → shard_ok i sh →
    ∃ sh' ev, f sh = Ret sh' ∧ shard_ok i sh' ∧ advances op fin ev (abs w) (abs (put_shard i sh' w)) ∧
      R tt (ticks w) (now_fin fin ev)) →
  implements clk op R (section (on_shard i f)) n fin.
Proof.
  intros Hi Hf w Hw Hc Hn. eapply wp_mono; [apply (on_shard_run i f w (λ w', ∃ ev,
    advances op fin ev (abs w) (abs w') ∧ R tt (ticks w) (now_fin fin ev))); [done..|]|].
  - intros sh Hsh Hok. destruct (Hf w sh Hw Hc Hn Hsh Hok) as (sh' & ev & ? & ? & ? & ?). exists sh'. eauto.
  - intros [] w' (? & Hc' & Ht & ev & ? & ?). split_and!; [done|by rw Hc'|by rw Ht|]. exists ev.
    split; [done|]. cbn [implements]. by rw Ht.
Qed.

Lemma evict_implements clk k v t i n :
  (i < SHARD_COUNT)%nat →
  implements clk (OSet k v t) (λ _ _ fin, fin = None) (section (on_shard i evict_locked)) n None.
Proof.
  intros Hi. apply on_shard_implements; [done|]. intros w sh Hw Hc _ Hsh Hok.
  destruct (last (LruList.list_ (lru sh))) as [[m k']|] eqn:Hl.
  - destruct (evict_locked_ok _ _ _ _ Hok Hl) as (sh' & He & Hok' & Hm & [e Hk] & _). exists sh', (Some None).
    pose proof (ok_hash _ _ Hok _ _ Hk) as Hh. split_and!; [done..| |done]. cbn [advances].
    split; [done|]. rw (abs_put_delete k' sh) //. apply int_evict. cbn. rw contents_lookup // Hh Hsh /= Hk. by eexists.
  - apply last_None in Hl. exists sh, None. split_and!; [by apply evict_locked_empty|done| |done].
    cbn [advances]. rw (abs_put_same i sh) //. apply later_refl.
Qed.

Lemma maybe_evict_implements clk k v t n :
  implements clk (OSet k v t) (λ _ _ fin, fin = None) maybe_evict_prog n None.
Proof.
  apply (implements_bind _ _ (λ _ _ fin, fin = None)); [by apply (implements_reads _ _ (λ _ fin, fin = None))|].
  intros approx m ? -> w Hw Hc _. apply wp_gets. split_and!; [done..|]. exists None. split; [apply later_refl|].
  destruct (_ <? _); [done|].
  apply (implements_bind _ _ (λ (r : nat * nat) _ fin, fin = None ∧ (r.2 < SHARD_COUNT)%nat)).
  - apply (implements_reads _ _ (λ (r : nat * nat) fin, fin = None ∧ (r.2 < SHARD_COUNT)%nat));
      [split; [done|cbn; rw /SHARD_COUNT; lia]|]. intros r i sh d [-> Hr] Hi. by destruct (Nat.ltb _ _).
  - intros r m' ? [-> Hr]. by apply evict_implements.
Qed.

(** The deadline a [set] has computed by the time of [n] readings. *)
Definition deadline (clk : nat → Z) (t x : Z) (n : nat) : Prop :=
  (t ≤ 0 ∧ x = -1) ∨ (0 < t ∧ ∃ m, (m < n)%nat ∧ x = clk m + t).

Lemma set_implements clk k v t n : implements clk (OSet k v t) delivers (prog_of (OSet k v t)) n None.
Proof.
  cbn [prog_of]. rw /pmap /set_prog.
  apply (implements_bind _ _ (λ _ _ fin, fin = Some RUnit)); [|by intros a m ? ->].
  apply (implements_bind _ _ (λ _ _ fin, fin = None)); [apply maybe_evict_implements|]. intros _ m ? ->.
  apply (implements_bind _ _ (λ x n fin, fin = None ∧ deadline clk t x n)).
  - destruct (Z.ltb_spec 0 t); [|split; [done|by left]]. intros w Hw Hc _.
    rw /wp /bind /now_ms /lift /checked. destruct (in_i64 _); [|done]. cbn [store clock ticks].
    split_and!; [done|done|lia|]. exists None. split; [exists (S (ticks w)); split; [cbn; lia|done]|].
    split; [done|]. right. split; [done|]. exists (ticks w). rw Hc. split; [lia|done].
  - intros x m' ? [-> Hx]. apply on_shard_implements; [apply shard_for_lt|]. intros w sh Hw Hc Hn Hsh Hok.
    destruct (set_locked_ok _ sh k v x Hok eq_refl) as (sh' & p & nd & rest & Hs & Hok' & Hm & _).
    exists sh', (Some (Some RUnit)). split_and!; [done..| |done]. split; [done|].
    rw (abs_put_insert k sh sh' w (mkEntry v x p)) //. destruct Hx as [[Ht ->]|[Ht (j & Hj & ->)]]; [by apply eff_set|].
    rw -Hc. apply eff_set_ttl; [done|]. cbn. lia.
Qed.

Lemma put_shard_lookup i sh sh' w k :
  store_ok (store w) → shards_ (store w) !! i = Some sh → shard_ok i sh' →
  contents (store (put_shard i sh' w)) !! k =
    if bool_decide (shard_for k = i) then view <$> map sh' !! k else contents (store w) !! k.
Proof.
  intros Hw Hi Hsh. rw contents_lookup; [by apply store_ok_put|]. simpl. case_bool_decide as Hk; [subst i|].
  - by rw list_lookup_insert_eq; [by eapply lookup_lt_Some|].
  - rw list_lookup_insert_ne //. by rw contents_lookup.
Qed.

(** A section that only drops entries. *)
Lemma put_shard_shrinks i sh sh' w (gone : bytes → bytes * Z → Prop) :
  store_ok (store w) → shards_ (store w) !! i = Some sh → shard_ok i sh' →
  (∀ k e, map sh' !! k = Some e → map sh !! k = Some e) →
  (∀ k e, map sh !! k = Some e → map sh' !! k = None → gone k (view e)) →
  contents (store (put_shard i sh' w)) ⊆ contents (store w) ∧
  ∀ k vx, contents (store w) !! k = Some vx → contents (store (put_shard i sh' w)) !! k = None → gone k vx.
Proof.
  intros Hw Hi Hsh Hsub Hgone. assert (∀ k, shard_for k = i → contents (store w) !! k = view <$> map sh !! k) as Hk.
  { intros k Hk. by rw contents_lookup // Hk Hi. }
  split.
  - apply map_subseteq_spec. intros k vx. rw (put_shard_lookup i sh) //.
    case_bool_decide; [|done]. rw Hk // !fmap_Some. intros (e & ?%Hsub & ->). by exists e.
  - intros k vx. rw (put_shard_lookup i sh) //. case_bool_decide; [|congruence].
    rw Hk // fmap_Some fmap_None. intros (e & He1 & ->) He2. by apply Hgone.
Qed.

(** An operation on every shard, with no effect beyond what each section does. *)
Lemma shards_implements clk op (f : Shard → outcome Shard) n0 n :
  (n0 ≤ n)%nat →
  (∀ w i sh, store_ok (store w) → clock w = clk → (n0 ≤ ticks w)%nat →
    shards_ (store w) !! i = Some sh → shard_ok i sh →
    ∃ sh', f sh = Ret sh' ∧ shard_ok i sh' ∧ internal op (abs w) (abs (put_shard i sh' w))) →
  implements clk op (λ _ _ fin, fin = None) (shards_prog f) n None.
Proof.
  intros Hn Hf. apply (implements_mono _ _ (λ _ n fin, fin = None ∧ (n0 ≤ n)%nat)); [by intros ??? []|].
  apply implements_fold; [done|]. intros b i m d [-> Hm] Hi%seq_lt. apply on_shard_implements; [done|].
  intros w sh Hw Hc Hn' Hsh Hok. destruct (Hf w i sh Hw Hc ltac:(lia) Hsh Hok) as (sh' & ? & ? & ?).
  exists sh', (Some None). split_and!; [done..|]. lia.
Qed.

Lemma flush_shard w i sh :
  store_ok (store w) → shards_ (store w) !! i = Some sh → shard_ok i sh →
  ∃ sh', flush_locked sh = Ret sh' ∧ shard_ok i sh' ∧ internal OFlush (abs w) (abs (put_shard i sh' w)).
Proof.
  intros Hw Hi Hok. destruct (flush_locked_ok _ _ Hok) as (sh' & ? & ? & Hm & _). exists sh'. split_and!; [done..|].
  apply (int_flush (abs w) (contents (store (put_shard i sh' w)))).
  apply (put_shard_shrinks i sh sh' w (λ _ _, True)); try done. intros k e. by rw Hm lookup_empty.
Qed.

Lemma sweep_shard w i sh n :
  store_ok (store w) → shards_ (store w) !! i = Some sh → shard_ok i sh → (n < ticks w)%nat →
  ∃ sh', sweep_locked (clock w n) sh = Ret sh' ∧ shard_ok i sh' ∧
    internal OSweep (abs w) (abs (put_shard i sh' w)).
Proof.
  intros Hw Hi Hok Hn. destruct (sweep_locked_ok (clock w n) _ _ Hok) as (sh' & ? & ? & Hm). exists sh'.
  split_and!; [done..|].
  destruct (put_shard_shrinks i sh sh' w (λ _ vx, Spec.expired vx.2 (clock w n))) as [H1 H2]; try done.
  - intros k e. rw Hm. destruct (map sh !! k) as [e'|]; [|done]. by destruct (is_expired e' _).
  - intros k e Hk. rw Hm Hk. rw expired_view. by destruct (Spec.expired _ _).
  - by apply (int_sweep n (abs w) (contents (store (put_shard i sh' w)))).
Qed.

(** How the program of an operation ends: with the result it took effect with,
    or as a scan, whose result is its own. *)
Definition ends (op : Op) (r : Res) (n : nat) (fin : option Res) : Prop :=
  fin = Some r ∨ (fin = None ∧ scans op).

Lemma op_implements clk op n : implements clk op (ends op) (prog_of op) n None.
Proof.
  assert (∀ p, implements clk op delivers p n None → implements clk op (ends op) p n None) as Hd.
  { intros p. apply implements_mono. intros r m fin ->. by left. }
  assert (∀ A (f : A → Res) p, scans op → implements clk op (λ _ _ fin, fin = None) p n None →
    implements clk op (ends op) (pmap f p) n None) as Hs.
  { intros A f p Hop Hp. eapply implements_bind; [done|]. intros a m ? ->. by right. }
  destruct op; cbn [prog_of].
  - apply Hd, set_implements.
  - apply Hd, get_implements.
  - apply Hd. eapply section_effect; [done|done|intros; by apply del_sim|rw /Spec.del; keep_clock].
  - apply Hd. eapply section_effect; [done|done|intros; by apply exists_sim|rw /Spec.exists_; keep_clock].
  - apply Hd. eapply section_effect; [done|done|intros; by apply ttl_sim|rw /Spec.ttl; keep_clock].
  - apply Hd. eapply section_effect; [done|done|intros; by apply expire_sim|rw /Spec.expire; keep_clock].
  - apply Hd. eapply section_effect; [done|done|intros; by apply incr_sim|rw /Spec.incr; keep_clock].
  - apply Hs; [done|]. intros w Hw Hc _. rw /wp /now_ms. split_and!; [done|done|cbn; lia|]. exists None.
    split; [exists (S (ticks w)); split; [cbn; lia|done]|]. by apply (implements_reads _ _ (λ _ fin, fin = None)).
  - apply Hs; [done|]. apply (shards_implements _ _ _ 0); [lia|]. intros. by apply flush_shard.
  - apply Hs; [done|]. intros w Hw Hc _. rw /wp /now_ms. split_and!; [done|done|cbn; lia|]. exists None.
    split; [exists (S (ticks w)); split; [cbn; lia|done]|]. apply (shards_implements _ _ _ (S (ticks w))); [done|].
    intros w' i sh Hw' Hc' Ht Hi Hok. rw Hc -Hc'. by apply sweep_shard.
  - apply Hs; [done|]. by apply (implements_reads _ _ (λ _ fin, fin = None)).
Qed.

(** ** Histories *)

(** A thread and what its operation did: took effect with a result, or changed
    the contents on the way. *)
Definition Event : Type := nat * (Op * option Res).

(** A history explains how the contents came about. *)
Inductive explains : Spec.World → list Event → Spec.World → Prop :=
  | ex_nil u : explains u [] u
  | ex_later u u1 h u2 : later u u1 → explains u1 h u2 → explains u h u2
  | ex_internal i op u u1 h u2 :
      internal op u u1 → explains u1 h u2 → explains u ((i, (op, None)) :: h) u2
  | ex_effect i op r u u1 h u2 :
      effect op r u u1 → explains u1 h u2 → explains u ((i, (op, Some r)) :: h) u2.

Definition of_thread (i : nat) (h : list Event) : list (Op * option Res) :=
  snd <$> filter (λ e, e.1 = i) h.

Definition returned (l : list (Op * option Res)) : list Res := omap snd l.

(** The events of a thread follow its operations in order; [rem] are those
    which have not taken effect. *)
Inductive obeys : list Op → list (Op * option Res) → list Op → Prop :=
  | ob_nil ops : obeys ops [] ops
  | ob_internal op ops l rem : obeys (op :: ops) l rem → obeys (op :: ops) ((op, None) :: l) rem
  | ob_effect op ops r l rem : obeys ops l rem → obeys (op :: ops) ((op, Some r) :: l) rem.

Lemma explains_app u h1 u1 h2 u2 : explains u h1 u1 → explains u1 h2 u2 → explains u (h1 ++ h2) u2.
Proof.
  induction 1; intros; [done|..]; cbn [app]; [eapply ex_later|eapply ex_internal|eapply ex_effect]; eauto.
Qed.

Lemma obeys_app ops l1 ops1 l2 ops2 : obeys ops l1 ops1 → obeys ops1 l2 ops2 → obeys ops (l1 ++ l2) ops2.
Proof. induction 1; intros; [done|..]; cbn [app]; constructor; eauto. Qed.

Lemma of_thread_app i h1 h2 : of_thread i (h1 ++ h2) = of_thread i h1 ++ of_thread i h2.
Proof. by rw /of_thread filter_app fmap_app. Qed.

Lemma of_thread_snoc i j x h :
  of_thread j (h ++ [(i, x)]) = of_thread j h ++ (if bool_decide (i = j) then [x] else []).
Proof. rw of_thread_app /of_thread filter_cons filter_nil /=. by repeat case_decide; case_bool_decide. Qed.

Lemma returned_snoc l x : returned (l ++ [x]) = returned l ++ (match x.2 with Some r => [r] | None => [] end).
Proof. rw /returned omap_app /=. by destruct (x.2). Qed.

(** ** The invariant of a system of threads *)

(** A thread with operations [ops] whose events are [l]. *)
Definition thread_ok (clk : nat → Z) (now : nat) (ops : list Op) (l : list (Op * option Res)) (t : Thread World Op Res) : Prop :=
  match t_prog t with
  | None => obeys ops l (t_todo t) ∧ returned l = t_results t
  | Some p => ∃ op n fin, (n ≤ now)%nat ∧ implements clk op (ends op) p n fin ∧
      match fin with
      | None => obeys ops l (op :: t_todo t) ∧ returned l = t_results t
      | Some r => obeys ops l (t_todo t) ∧ returned l = t_results t ++ [r]
      end
  end.

Record sys_ok (u0 : Spec.World) (opss : list (list Op)) (h : list Event) (s : Sys World Op Res) : Prop := {
  s_store : store_ok (store (sys_world s));
  s_clock : clock (sys_world s) = Spec.clock u0;
  s_history : explains u0 h (abs (sys_world s));
  s_threads : ∀ i ops t, opss !! i = Some ops → sys_threads s !! i = Some t →
    thread_ok (Spec.clock u0) (ticks (sys_world s)) ops (of_thread i h) t;
  s_length : length (sys_threads s) = length opss;
  s_known : Forall (λ e : Event, (e.1 < length opss)%nat) h
}.

(** One step of a thread and the event it adds to the history. *)
Lemma thread_step_ok clk ops l t w :
  store_ok (store w) → clock w = clk → thread_ok clk (ticks w) ops l t →
  wp overflow_only (thread_step prog_of t) (λ t' w', store_ok (store w') ∧ clock w' = clk ∧ (ticks w ≤ ticks w')%nat ∧
    ∃ x : list (Op * option Res), (∀ i, explains (abs w) (pair i <$> x) (abs w')) ∧
      thread_ok clk (ticks w') ops (l ++ x) t') w.
Proof.
  intros Hw Hc. destruct t as [res [p|] todo]; rw /thread_ok /thread_step; cbn [t_prog t_todo t_results].
  2:{ intros [Ho Hr]. assert (∀ i, explains (abs w) (pair i <$> ([] : list (Op * option Res))) (abs w)) as He by (by constructor).
      destruct todo as [|op todo]; wp_go; (split_and!; [done..|]); exists []; rw app_nil_r; cbn [t_prog t_todo t_results];
        (split; [done|]); [done|]. exists op, (ticks w), None. split_and!; [done|apply op_implements|done|done]. }
  intros (op & n & fin & Hn & Hi & Hf). destruct p as [r|X m k]; cbn [implements] in Hi.
  - wp_go. split_and!; [done..|]. cbn [t_prog t_todo t_results]. destruct Hi as [->|[-> Hs]]; destruct Hf as [Ho Hr].
    + exists []. rw app_nil_r. split; [by constructor|done].
    + exists [(op, Some r)]. split.
      * intros i. eapply ex_effect; [by apply eff_scan|constructor].
      * rw returned_snoc Hr. split; [|done]. eapply obeys_app; [done|]. repeat constructor.
  - wp_go. eapply wp_mono; [by apply Hi|]. intros x w' (Hw' & Hc' & Ht & ev & Ha & Hk). wp_go.
    split_and!; [done..|]. cbn [t_prog t_todo t_results]. destruct ev as [[r|]|]; cbn [advances now_fin] in Ha, Hk.
    + destruct Ha as [-> Ha]. destruct Hf as [Ho Hr]. exists [(op, Some r)]. split.
      * intros i. by eapply ex_effect; [done|constructor].
      * exists op, (ticks w'), (Some r). rw returned_snoc Hr. split_and!; [done..| |done].
        eapply obeys_app; [done|]. repeat constructor.
    + destruct Ha as [-> Ha]. destruct Hf as [Ho Hr].
      exists [(op, None)]. split; [intros i; by eapply ex_internal; [done|constructor]|].
      exists op, (ticks w'), None. rw returned_snoc app_nil_r. split_and!; [done..| |done].
      eapply obeys_app; [done|]. repeat constructor.
    + exists []. rw app_nil_r. split; [intros i; eapply ex_later; [done|constructor]|].
      exists op, (ticks w'), fin. by split_and!.
Qed.

Lemma thread_ok_later clk n n' ops l t : (n ≤ n')%nat → thread_ok clk n ops l t → thread_ok clk n' ops l t.
Proof.
  intros Hn. rw /thread_ok. destruct (t_prog t); [|done]. intros (op & m & fin & ? & ?). exists op, m, fin.
  split; [lia|done].
Qed.

Lemma of_thread_map i j (x : list (Op * option Res)) :
  of_thread j (pair i <$> x) = if bool_decide (i = j) then x else [].
Proof.
  rw /of_thread. case_bool_decide as Hij; induction x as [|y x IH]; try done; rw fmap_cons filter_cons /=;
    case_decide; try done. rw fmap_cons IH //.
Qed.

Lemma sys_step_ok u0 opss h s i :
  sys_ok u0 opss h s → wp overflow_only (sys_step prog_of i)
    (λ _ s', ∃ x, explains (abs (sys_world s)) x (abs (sys_world s')) ∧ sys_ok u0 opss (h ++ x) s') s.
Proof.
  intros [Hst Hc He Ht Hl Hk]. rw /wp /sys_step. destruct (sys_threads s !! i) as [t|] eqn:Hi.
  2:{ exists []. rw app_nil_r. split; [constructor|by split]. }
  destruct (lookup_lt_is_Some_2 opss i) as [ops Hops]; [rw -Hl; by eapply lookup_lt_Some|].
  pose proof (thread_step_ok _ _ _ _ _ Hst Hc (Ht _ _ _ Hops Hi)) as Hwp. rw /wp in Hwp.
  destruct (thread_step prog_of t (sys_world s)) as [[t' w']|f]; [|done]. destruct Hwp as (Hst' & Hc' & Htk & x & Hx & Hok).
  exists (pair i <$> x). split; [done|]. split; cbn [sys_world sys_threads]; [done|done| | |by rw length_insert|].
  - by eapply explains_app.
  - intros j ops' t2 Hj. rw of_thread_app of_thread_map. intros [(-> & <- & _)|[Hne Hj']]%list_lookup_insert_Some.
    + rw Hops in Hj. injection Hj as <-. by rw bool_decide_true.
    + rw bool_decide_false // app_nil_r. eapply thread_ok_later; [done|]. by apply Ht.
  - apply Forall_app. split; [done|]. apply Forall_fmap, Forall_forall. intros y _. cbn. by eapply lookup_lt_Some.
Qed.

Lemma new_sys_ok w opss :
  store_ok (store w) → sys_ok (abs w) opss [] (mkSys w (new_thread <$> opss)).
Proof.
  intros Hw. split; cbn [sys_world sys_threads]; [done|done|constructor| |by rw length_fmap|constructor].
  intros i ops t Hi. rw list_lookup_fmap Hi. intros [= <-]. split; [constructor|done].
Qed.

Lemma schedule_from u0 opss h s schedule :
  sys_ok u0 opss h s →
  wp overflow_only (run_schedule prog_of schedule)
    (λ _ s', ∃ x, explains (abs (sys_world s)) x (abs (sys_world s')) ∧ sys_ok u0 opss (h ++ x) s') s.
Proof.
  intros Hs.
  apply (wp_foldM _ _ (λ _ _ s', ∃ x, explains (abs (sys_world s)) x (abs (sys_world s')) ∧ sys_ok u0 opss (h ++ x) s')).
  - exists []. rw app_nil_r. split; [constructor|done].
  - intros ? i ? _ s' _ (x & Hx & Hs'). eapply wp_mono; [by apply sys_step_ok|]. intros _ s2 (y & Hy & H2).
    exists (x ++ y). rw app_assoc. split; [by eapply explains_app|done].
  - done.
Qed.

Lemma schedule_ok w opss schedule :
  store_ok (store w) →
  wp overflow_only (run_schedule prog_of schedule) (λ _ s', ∃ h, sys_ok (abs w) opss h s') (mkSys w (new_thread <$> opss)).
Proof.
  intros Hw. eapply wp_mono; [by apply schedule_from, new_sys_ok|]. intros _ s (x & _ & Hx). by exists x.
Qed.

(** C7: the store is safe under any number of threads.  Whatever operations
    they run and however the scheduler mixes their locked sections, no dangling
    iterator or pointer is used, nothing is freed twice or leaked, no index is
    out of range, and the store is well-formed between any two sections; only
    an overflow of a deadline or a counter can stop it. *)
Theorem interleavings_safe w opss schedule :
  store_ok (store w) →
  match run_schedule prog_of schedule (mkSys w (new_thread <$> opss)) with
  | Ret (_, s) => store_ok (store (sys_world s))
  | Fail f => f = Undef SignedOverflow
  end.
Proof.
  intros Hw. pose proof (schedule_ok w opss schedule Hw) as H. rw /wp in H.
  destruct (run_schedule _ _ _) as [[? s]|f]; [|done]. destruct H as [h []]. done.
Qed.

(** The history [h] accounts for what each thread has got by now: its events
    follow its operations in order and carry the results it got; those of the
    operations it has not begun ([t_todo]) are not among them, the operation it
    is in may have taken effect or not. *)
Definition accounts (opss : list (list Op)) (h : list Event) (s : Sys World Op Res) : Prop :=
  ∀ i ops t, opss !! i = Some ops → sys_threads s !! i = Some t →
    match t_prog t with
    | None => obeys ops (of_thread i h) (t_todo t) ∧ returned (of_thread i h) = t_results t
    | Some _ =>
        (∃ op, obeys ops (of_thread i h) (op :: t_todo t) ∧ returned (of_thread i h) = t_results t) ∨
        (∃ r, obeys ops (of_thread i h) (t_todo t) ∧ returned (of_thread i h) = t_results t ++ [r])
    end.

Lemma sys_ok_accounts u0 opss h s : sys_ok u0 opss h s → accounts opss h s.
Proof.
  intros [_ _ _ Ht _ _] i ops t Hi Hti. specialize (Ht i ops t Hi Hti). rw /thread_ok in Ht.
  destruct (t_prog t); [|done]. destruct Ht as (op & n & [r|] & _ & _ & Ho & Hr); eauto.
Qed.

(** C2: operations on one key are linearizable.  Whatever the threads do and
    however their sections are mixed, there is a history in which each get, del,
    exists, ttl, expire and incr happens in one step, exactly as the contract
    says, each set stores its value in one step, evictions being steps of their
    own, and sweeps and flushes drop entries (a sweep only expired ones).  At
    every moment of the run a part of it explains the contents and accounts for
    the results the threads have got by then, and the rest explains what comes
    later: an operation that returned before another began precedes it.  (The
    results of keys and size, which visit the shards one after the other, are
    not constrained.) *)
Theorem store_linearizable w opss before after s1 s2 :
  store_ok (store w) → run_schedule prog_of before (mkSys w (new_thread <$> opss)) = Ret (tt, s1) →
  run_schedule prog_of after s1 = Ret (tt, s2) →
  ∃ h1 h2, explains (abs w) h1 (abs (sys_world s1)) ∧ accounts opss h1 s1 ∧
    explains (abs (sys_world s1)) h2 (abs (sys_world s2)) ∧ accounts opss (h1 ++ h2) s2.
Proof.
  intros Hw H1 H2. pose proof (schedule_ok w opss before Hw) as Hb. rw /wp H1 in Hb. destruct Hb as [h1 Hb].
  pose proof (schedule_from _ _ _ _ after Hb) as Ha. rw /wp H2 in Ha. destruct Ha as (h2 & He & Ha).
  exists h1, h2. split_and!; [by apply (s_history _ _ _ _ Hb)|by eapply sys_ok_accounts|done|by eapply sys_ok_accounts].
Qed.

(** ** Counters *)

(** The value of a counter without a deadline. *)
Definition counts (u : Spec.World) (k : bytes) (z : Z) : Prop :=
  (z = 0 ∧ Spec.contents u !! k = None) ∨ (in_i64 z = true ∧ Spec.contents u !! k = Some (to_string z, -1)).

Lemma incr_effect_counts u k z r u' :
  counts u k z → Spec.incr k u = Ret (r, u') → counts u' k (z + 1).
Proof.
  assert (∀ cur v, (let! n := lift (checked (cur + 1)) in Spec.put k (to_string n) (-1) ;;; ret (Some n)) v = Ret (r, u') →
    counts u' k (cur + 1)) as Hbump.
  { intros cur v. rw /bind /lift /checked. destruct (in_i64 (cur + 1)) eqn:Hi; [|done]. intros [= _ <-].
    right. split; [done|]. cbn. by rw lookup_insert_eq. }
  rw /Spec.incr. intros [[-> Hk]|[Hz Hk]]; rw {1}/bind /Spec.lookup /gets Hk; [apply Hbump|].
  rw {1}/bind. cbn [Spec.now]. change (Spec.expired (-1) _) with false. cbn iota.
  rw -(app_nil_r (to_string z)) from_chars_to_string; [done|done|]. cbn [fc_ec]. apply Hbump.
Qed.

Lemma explains_counts u h u' k z :
  explains u h u' → Forall (λ e : Event, e.2.1 = OIncr k) h → counts u k z →
  counts u' k (z + zlen (returned h.*2)).
Proof.
  intros He. revert z. induction He as [u|u u1 h u2 Hl _ IH|i op u u1 h u2 Hi _ IH|i op r u u1 h u2 Hf _ IH]; intros z Hh Hz.
  - by rw Z.add_0_r.
  - apply IH; [done|]. destruct Hl as (n & _ & ->). done.
  - apply Forall_cons in Hh as [He _]. cbn in He. subst op. inversion Hi.
  - apply Forall_cons in Hh as [He Hh]. cbn in He. subst op. inversion Hf as [op m r' v v' Hop Hm| | |]; subst; [|done].
    injection Hop as <-. rw /mapM /bind in Hm. destruct (Spec.incr k u) as [[a u3]|] eqn:Hinc; [|done].
    injection Hm as _ <-. rw fmap_cons /returned. cbn [omap list_omap snd length].
    replace (z + Z.of_nat (S (length (omap snd h.*2)))) with (z + 1 + zlen (returned h.*2)) by (rw /returned; lia).
    apply IH; [done|]. by eapply incr_effect_counts.
Qed.

Lemma sum_at n i c (f g : nat → nat) :
  (∀ j, g j = f j + (if bool_decide (i = j) then c else 0))%nat →
  (sum_list_with g (seq 0 n) = sum_list_with f (seq 0 n) + (if bool_decide (i < n)%nat then c else 0))%nat.
Proof.
  intros Hg. induction n as [|n IH]; [done|]. rw seq_S !sum_list_with_app IH. cbn. rw Hg.
  repeat case_bool_decide; lia.
Qed.

(** Every effect is that of some thread. *)
Lemma effects_total n (h : list Event) :
  Forall (λ e, (e.1 < n)%nat) h →
  length (returned h.*2) = sum_list_with (λ i, length (returned (of_thread i h))) (seq 0 n).
Proof.
  induction h as [|[i [op r]] h IH] using rev_ind; intros Hh.
  { cbn. by induction (seq 0 n). }
  apply Forall_app in Hh as [Hh Hi]. apply Forall_cons in Hi as [Hi _]. cbn in Hi.
  rw fmap_app returned_snoc length_app IH //. cbn [snd].
  rw (sum_at n i (length (match r with Some r => [r] | None => [] end)) (λ j, length (returned (of_thread j h)))
    (λ j, length (returned (of_thread j (h ++ [(i, (op, r))]))))).
  - intros j. rw of_thread_snoc. case_bool_decide; [by rw returned_snoc length_app|]. rw app_nil_r. lia.
  - by rw bool_decide_true.
Qed.

Lemma lengths_total {A} (ls : list (list A)) (f : nat → nat) :
  (∀ i l, ls !! i = Some l → f i = length l) → sum_list_with f (seq 0 (length ls)) = length (mjoin ls).
Proof.
  induction ls as [|l ls IH] using rev_ind; intros Hf; [done|].
  rw length_app Nat.add_1_r seq_S sum_list_with_app join_app length_app IH.
  - intros i l' Hl. apply Hf. by apply lookup_app_l_Some.
  - cbn. rw (Hf (length ls) l) ?app_nil_r ?Nat.add_0_r //. by rw lookup_app_r // Nat.sub_diag.
Qed.

Lemma obeys_ops ops l rem P : obeys ops l rem → Forall P ops → Forall (λ x, P x.1) l.
Proof.
  induction 1 as [|op ops l rem _ IH|op ops r l rem _ IH]; intros Hops; [constructor|..];
    (constructor; [by inversion Hops|]); apply IH; [done|by inversion Hops].
Qed.

Lemma obeys_returned ops l rem : obeys ops l rem → length (returned l) = (length ops - length rem)%nat ∧
  (length rem ≤ length ops)%nat.
Proof.
  induction 1 as [ops|op ops l rem _ IH|op ops r l rem _ IH]; cbn [length] in *.
  - cbn. lia.
  - exact IH.
  - rw /returned. cbn [omap list_omap snd length]. rw -/(returned l). lia.
Qed.

(** C40: concurrent increments are not lost.  Whatever number of threads
    increment a fresh counter and however they interleave, when all are done its
    value is the number of increments. *)
Theorem incr_loses_nothing w k opss schedule s :
  store_ok (store w) → contents (store w) !! k = None → Forall (Forall (λ op, op = OIncr k)) opss →
  run_schedule prog_of schedule (mkSys w (new_thread <$> opss)) = Ret (tt, s) → Forall finished (sys_threads s) →
  mjoin opss ≠ [] →
  contents (store (sys_world s)) !! k = Some (to_string (zlen (mjoin opss)), -1).
Proof.
  intros Hw Hk Hops Hrun Hfin Hne. pose proof (schedule_ok w opss schedule Hw) as H. rw /wp Hrun in H.
  destruct H as (h & [_ _ He Ht Hl Hkn]).
  assert (∀ i ops, opss !! i = Some ops → obeys ops (of_thread i h) [] ∧
    length (returned (of_thread i h)) = length ops) as Hobey.
  { intros i ops Hi. destruct (lookup_lt_is_Some_2 (sys_threads s) i) as [t Hti]; [rw Hl; by eapply lookup_lt_Some|].
    pose proof (Ht i ops t Hi Hti) as Hok. rw Forall_lookup in Hfin. destruct (Hfin _ _ Hti) as [Hp Htd].
    rw /thread_ok Hp Htd in Hok. destruct Hok as [Ho _]. split; [done|]. apply obeys_returned in Ho. cbn in Ho. lia. }
  assert (length (returned h.*2) = length (mjoin opss)) as Htotal.
  { rw (effects_total (length opss)) //. apply lengths_total. intros i ops Hi. by apply Hobey. }
  assert (Forall (λ e : Event, e.2.1 = OIncr k) h) as Hall.
  { apply Forall_forall. intros [i x] Hin. rw Forall_forall in Hkn. pose proof (Hkn _ Hin) as Hi. cbn in Hi.
    destruct (lookup_lt_is_Some_2 opss i Hi) as [ops Hio]. rw Forall_lookup in Hops. specialize (Hops _ _ Hio).
    destruct (Hobey _ _ Hio) as [Ho _]. apply (obeys_ops _ _ _ _ Ho), Forall_forall with (x := x) in Hops; [done|].
    apply list_elem_of_fmap. exists (i, x). split; [done|]. by apply list_elem_of_filter. }
  destruct (explains_counts _ _ _ k 0 He Hall ltac:(by left)) as [[Hz _]|[_ Hz]]; rw Htotal in Hz.
  - destruct (mjoin opss); [done|]. cbn in Hz. lia.
  - by rw Z.add_0_l in Hz.
Qed.

End Thms.

(** ** Concrete runs *)

Module Demo.
Import StoreThms.Demo.
#[local] Existing Instance demo_platform.

(** A set, a get and a sweep of three threads, looked at after 20 rounds and at
    the end. *)
Definition mixed : list (list Op) :=
  [[OSet (bs "c") (bs "1") 0; OGet (bs "a")]; [OGet (bs "c"); ODel (bs "c")]; [OSweep]].
Definition rounds (n : nat) : list nat := concat (replicate n [0; 1; 2]%nat).
Definition mixed_mid : Sys World Op Res := reached (mkSys demo2 []) (run_schedule prog_of (rounds 20) (mkSys demo2 (new_thread <$> mixed))).
Definition mixed_end : Sys World Op Res := reached (mkSys demo2 []) (run_schedule prog_of (rounds 40) mixed_mid).

Lemma mixed_run_mid : run_schedule prog_of (rounds 20) (mkSys demo2 (new_thread <$> mixed)) = Ret (tt, mixed_mid).
Proof. apply reached_ok. vm_compute. reflexivity. Qed.

Lemma mixed_run_rest : run_schedule prog_of (rounds 40) mixed_mid = Ret (tt, mixed_end).
Proof. apply reached_ok. vm_compute. reflexivity. Qed.

Lemma interleavings_safe_witness : store_ok (store (sys_world mixed_mid)).
Proof.
  pose proof (interleavings_safe demo2 mixed (rounds 20) demo2_ok) as H. rewrite mixed_run_mid in H. exact H.
Defined.

Lemma store_linearizable_witness :
  ∃ h1 h2, explains (abs demo2) h1 (abs (sys_world mixed_mid)) ∧ accounts mixed h1 mixed_mid ∧
    explains (abs (sys_world mixed_mid)) h2 (abs (sys_world mixed_end)) ∧ accounts mixed (h1 ++ h2) mixed_end.
Proof.
  apply (store_linearizable demo2 mixed (rounds 20) (rounds 40) mixed_mid mixed_end demo2_ok mixed_run_mid mixed_run_rest).
Defined.

(** Two threads that increment a fresh counter. *)
Definition increments : list (list Op) := [[OIncr (bs "n"); OIncr (bs "n")]; [OIncr (bs "n")]].
Definition incr_schedule : list nat := concat (replicate 8 [0; 1]%nat).
Definition incr_end : Sys World Op Res := reached (mkSys demo2 []) (run_schedule prog_of incr_schedule (mkSys demo2 (new_thread <$> increments))).

Lemma increments_run : run_schedule prog_of incr_schedule (mkSys demo2 (new_thread <$> increments)) = Ret (tt, incr_end).
Proof. apply reached_ok. vm_compute. reflexivity. Qed.

Lemma incr_finished : Forall finished (sys_threads incr_end).
Proof.
  apply all_finished_spec. vm_compute. reflexivity.
Qed.

Lemma incr_loses_nothing_witness :
  contents (store (sys_world incr_end)) !! bs "n" = Some (to_string 3, -1).
Proof.
  apply (incr_loses_nothing demo2 (bs "n") increments incr_schedule incr_end demo2_ok);
    [vm_compute; reflexivity|repeat constructor|exact increments_run|exact incr_finished|discriminate].
Defined.
End Demo.

End StoreConcThms.
