(* ===== verification/StoreRely.v ===== *)
(** Operations of the store beside other threads, by what these may do (their
    rely condition): scans see what the others leave alone, and a thread that
    is the only one to insert keeps the store within its capacity. *)

From S2P Require Import Prelude Lru Storage StorageInv StorageSpec StorageThms Conc StoreConc StoreConcThms.

Module StoreRely.
Import Store StoreInv StoreSpec StoreThms Conc StoreConc StoreConcThms.

Section Thms.
Context {plat : Platform}.

(** ** A loop that reads the shards *)

(** [J j acc] is stable, and holds of the shards before [j]. *)
Lemma amid_reads {B} (R : World → World → Prop) (g : B → nat → Shard → B) (J : nat → B → World → Prop) :
  (∀ j acc w w', J j acc w → R w w' → J j acc w') →
  (∀ j acc w, J j acc w → store_ok (store w)) →
  (∀ j acc w sh, J j acc w → shards_ (store w) !! j = Some sh → J (S j) (g acc j sh) w) →
  ∀ m j acc w, (j + m = SHARD_COUNT)%nat → J j acc w →
  amid overflow_only R (pfold (λ acc i, PSec (read_shard i) (λ sh, PRet (g acc i sh))) (seq j m) acc) (J SHARD_COUNT) w.
Proof.
  intros Hst Hok Hstep. induction m as [|m IH]; intros j acc w Hj HJ.
  { rw Nat.add_0_r in Hj. by subst j. }
  cbn [seq pfold pbind amid]. destruct (shard_some j w ltac:(lia) (Hok _ _ _ HJ)) as (sh & Hsh & _).
  rw /wp /read_shard Hsh. intros w2 HR. apply IH; [lia|]. by eapply Hst, HR; eapply Hstep.
Qed.

(** ** Scans *)

(** Other threads do what they like to all keys but [k]. *)
Definition spares (k : bytes) (r : option (bytes * Z)) (w w' : World) : Prop :=
  store_ok (store w') ∧ clock w' = clock w ∧ contents (store w') !! k = r.

Section Scan.
Context {O : Type} (sel : bytes → bytes * Z → bool) (out : bytes → bytes * Z → O) (key : O → bytes).
Context (key_out : ∀ k vx, key (out k vx) = k).

(** One shard of a scan that picks entries by key, value and deadline. *)
Definition scan_shard (acc : list O) (sh : Shard) : list O :=
  foldl (λ acc kv, if sel kv.1 (view kv.2) then acc ++ [out kv.1 (view kv.2)] else acc) acc (bucket_order (map sh)).

(** What a scan says about a key. *)
Definition reported (k : bytes) (r : option (bytes * Z)) : list O :=
  match r with Some vx => if sel k vx then [out k vx] else [] | None => [] end.

Lemma scan_shard_key acc i sh k w r :
  store_ok (store w) → shards_ (store w) !! i = Some sh → contents (store w) !! k = r →
  filter (λ y, key y = k) (scan_shard acc sh) =
    filter (λ y, key y = k) acc ++ (if bool_decide (shard_for k = i) then reported k r else []).
Proof.
  intros Hw Hi Hk. pose proof (ok_shards _ Hw _ _ Hi) as Hok. rw contents_lookup // in Hk.
  assert (∀ e, (k, e) ∈ bucket_order (map sh) → shard_for k = i ∧ map sh !! k = Some e) as Hin.
  { intros e He%bucket_order_lookup. split; [|done]. by apply (ok_hash _ _ Hok) in He. }
  assert (shard_for k = i → r = view <$> map sh !! k) as Hr by (intros He; by rw -Hk He Hi).
  assert (∀ e, shard_for k = i → map sh !! k = Some e → (k, e) ∈ bucket_order (map sh)) as Hin'.
  { intros e _ He. by apply bucket_order_lookup. }
  pose proof (bucket_order_nodup (map sh)) as Hnd. rw /scan_shard.
  assert (∀ l acc, NoDup l.*1 → (∀ e, (k, e) ∈ l → shard_for k = i ∧ map sh !! k = Some e) →
    filter (λ y, key y = k) (foldl (λ acc kv, if sel kv.1 (view kv.2) then acc ++ [out kv.1 (view kv.2)] else acc) acc l) =
    filter (λ y, key y = k) acc ++ (if bool_decide (k ∈ l.*1) then reported k r else [])) as Hfold.
  { clear Hnd Hin Hin'. induction l as [|[k' e] l IH]; intros acc' Hnd Hl; cbn [foldl]; [by rw app_nil_r|].
    rw fmap_cons NoDup_cons in Hnd. destruct Hnd as [Hni Hnd]. cbn [fst] in Hni. rw IH //.
    { intros e' He'. apply Hl. by right. }
    cbn [fst snd]. assert (filter (λ y, key y = k) (if sel k' (view e) then acc' ++ [out k' (view e)] else acc') =
      filter (λ y, key y = k) acc' ++ (if bool_decide (k' = k) then reported k r else [])) as ->.
    { destruct (decide (k' = k)) as [->|Hkk]; [rw bool_decide_true //|rw (bool_decide_false (k' = k)) //].
      - destruct (Hl e) as [Hs Hm]; [by left|]. rw Hr // Hm /=. destruct (sel k (view e)); [|by rw app_nil_r].
        rw filter_app. f_equal. rw filter_cons key_out decide_True //.
      - rw app_nil_r. destruct (sel k' (view e)); [|done]. rw filter_app filter_cons key_out decide_False // app_nil_r //. }
    rw -app_assoc. f_equal. destruct (decide (k' = k)) as [->|Hkk]; [rw (bool_decide_true (k = k)) //|rw (bool_decide_false (k' = k)) //].
    - rw bool_decide_false // app_nil_r bool_decide_true //. by left.
    - cbn [app]. apply (f_equal (λ b : bool, if b then _ else _)). apply bool_decide_ext. rw fmap_cons elem_of_cons. naive_solver. }
  rw Hfold //. f_equal. case_bool_decide as Hkin; case_bool_decide as Hs; try done.
  - apply list_elem_of_fmap in Hkin as ([k' e] & -> & He). by destruct (Hin _ He).
  - rw Hr //. destruct (map sh !! k) as [e|] eqn:Hm; [|done]. destruct Hkin. apply list_elem_of_fmap. exists (k, e). auto.
Qed.

(** A whole scan reports a key exactly as it stays. *)
Lemma scan_beside (g : list O → Shard → list O) k r w :
  (∀ acc sh, g acc sh = scan_shard acc sh) → store_ok (store w) → contents (store w) !! k = r →
  amid overflow_only (spares k r)
    (pfold (λ acc i, PSec (read_shard i) (λ sh, PRet (g acc sh))) (seq 0 SHARD_COUNT) [])
    (λ l _, filter (λ y, key y = k) l = reported k r) w.
Proof.
  intros Hg Hw Hk. eapply amid_mono; [|apply (amid_reads (spares k r) (λ acc _ sh, g acc sh) (λ j acc w,
    store_ok (store w) ∧ contents (store w) !! k = r ∧
    filter (λ y, key y = k) acc = (if bool_decide (shard_for k < j)%nat then reported k r else [])))]; cbv beta.
  - intros l w' (_ & _ & ->). rw bool_decide_true //. apply shard_for_lt.
  - intros j acc w1 w2 (_ & _ & Hacc) (? & _ & ?). done.
  - by intros j acc w1 (? & _).
  - intros j acc w1 sh (H1 & H2 & Hacc) Hsh. split_and!; [done..|]. rw Hg (scan_shard_key acc j sh k w1 r) // Hacc.
    repeat case_bool_decide; rw ?app_nil_r //; lia.
  - done.
  - split_and!; [done..|]. by rw filter_nil bool_decide_false; [lia|].
Qed.
End Scan.

(** ** Claims about scans *)

Definition collect (l : list (bytes * (bytes * Z))) (k v : bytes) (x : Z) : list (bytes * (bytes * Z)) :=
  l ++ [(k, (v, x))].

(** An entry that stays alive is not expired at any reading of the clock *)
Definition live (r : option (bytes * Z)) (w : World) : Prop :=
  ∀ vx n, r = Some vx → Spec.expired vx.2 (clock w n) = false.

(** C22: a snapshot taken while other threads work keeps what they leave alone.
    Whatever they do to other keys between its visits to the shards, an entry
    that is there throughout and does not expire is recorded by [for_each]
    exactly once, with its value and deadline, and a key that is absent
    throughout is not recorded. *)
Theorem snapshot_beside_writers k r w :
  store_ok (store w) → contents (store w) !! k = r → live r w →
  amid overflow_only (spares k r) (for_each_prog collect [])
    (λ l _, filter (λ y, y.1 = k) l = match r with Some vx => [(k, vx)] | None => [] end) w.
Proof.
  intros Hw Hk Hlive. rw /for_each_prog. cbn [amid]. rw /wp /now_ms. intros w1 (Hw1 & Hc & Hk1).
  eapply amid_mono; [|apply (scan_beside (λ _ vx, negb (Spec.expired vx.2 (clock w (ticks w)))) (λ k vx, (k, vx)) fst)]; try done.
  - intros l w2 ->. rw /reported. destruct r as [vx|]; [|done]. by rw (Hlive vx _ eq_refl).
  - intros acc sh. rw /scan_shard. revert acc. induction (bucket_order (map sh)) as [|kv l IH]; intros acc; [done|].
    cbn [foldl]. rw IH expired_view. by destruct (Spec.expired _ _).
Qed.

(** C23: KEYS beside other threads.  A key that is there throughout and does not
    expire is listed exactly once if it matches the pattern, and not otherwise; a
    key that is absent throughout is not listed, whatever happens to others. *)
Theorem keys_beside_writers k r pattern w :
  store_ok (store w) → contents (store w) !! k = r → live r w →
  amid overflow_only (spares k r) (keys_prog pattern)
    (λ l _, filter (λ y, y = k) l =
       match r with
       | Some _ => if bool_decide (pattern = bs "*" ∨ fnmatch (c_str pattern) (c_str k) = 0) then [k] else []
       | None => []
       end) w.
Proof.
  intros Hw Hk Hlive. rw /keys_prog. cbn [amid]. rw /wp /now_ms. intros w1 (Hw1 & Hc & Hk1).
  eapply amid_mono; [|apply (scan_beside (λ k vx, key_selected pattern (clock w (ticks w)) (k, mkEntry vx.1 vx.2 None)) (λ k _, k) id)];
    try done.
  - intros l w2 Hl. rw Hl /reported. destruct r as [vx|]; [|done]. rw /key_selected expired_view /=.
    rw (Hlive vx _ eq_refl) /= bool_decide_or.
    by assert ((fnmatch (c_str pattern) (c_str k) =? 0)%Z = bool_decide (fnmatch (c_str pattern) (c_str k) = 0%Z)) as ->
      by (apply Bool.eq_iff_eq_true; rw Z.eqb_eq bool_decide_eq_true //).
Qed.

(** ** The capacity *)

(** How many entries each shard has. *)
Definition sizes (w : World) : list nat := (λ sh, base.size (map sh)) <$> shards_ (store w).

Lemma size_of_sizes w : size_of (store w) = Z.of_nat (sum_list (sizes w)).
Proof.
  rw /size_of /sizes. rewrite <- (Z.add_0_l (Z.of_nat _)). generalize 0%Z.
  induction (shards_ (store w)) as [|sh l IH]; intros z; cbn; [lia|]. rw IH. lia.
Qed.

(** Other threads only remove entries, as sweeps, deletions and flushes do. *)
Definition shrinks (w w' : World) : Prop :=
  store_ok (store w') ∧ max_keys_ (store w') = max_keys_ (store w) ∧ Forall2 (λ a b, b ≤ a)%nat (sizes w) (sizes w').

Lemma sum_le (l l' : list nat) : Forall2 (λ a b, b ≤ a)%nat l l' → (sum_list l' ≤ sum_list l)%nat.
Proof. induction 1; cbn; lia. Qed.

Lemma sum_lt (l l' : list nat) i a b :
  Forall2 (λ a b, b ≤ a)%nat l l' → l !! i = Some a → l' !! i = Some b → (b < a)%nat → (sum_list l' < sum_list l)%nat.
Proof.
  intros Hl. revert i. induction Hl as [|x y l l' Hxy Hl IH]; intros [|i]; cbn; [done..| |].
  - intros [= ->] [= ->]. pose proof (sum_le _ _ Hl). lia.
  - intros Ha Hb Hlt. specialize (IH i Ha Hb Hlt). lia.
Qed.

Lemma sum_put (l : list nat) i x y : l !! i = Some y → (sum_list (<[i := x]> l) + y = sum_list l + x)%nat.
Proof.
  revert i. induction l as [|z l IH]; intros [|i] Hi; [done..| |].
  - injection Hi as ->. cbn. lia.
  - specialize (IH i Hi). change (z + sum_list (<[i := x]> l) + y = z + sum_list l + x)%nat. lia.
Qed.

Lemma sizes_lookup w i sh : shards_ (store w) !! i = Some sh → sizes w !! i = Some (base.size (map sh)).
Proof. intros H. by rw /sizes list_lookup_fmap H. Qed.

Lemma sizes_put w i sh : sizes (put_shard i sh w) = <[i := base.size (map sh)]> (sizes w).
Proof. by rw /sizes /put_shard /= list_fmap_insert. Qed.

Lemma Forall2_trans_ge (l1 l2 l3 : list nat) :
  Forall2 (λ a b, b ≤ a)%nat l1 l2 → Forall2 (λ a b, b ≤ a)%nat l2 l3 → Forall2 (λ a b, b ≤ a)%nat l1 l3.
Proof.
  intros H. revert l3. induction H as [|x y l1 l2 Hxy H IH]; intros l3 H3; [done|].
  apply Forall2_cons_inv_l in H3 as (z & l & Hz & Hl & ->). constructor; [lia|by apply IH].
Qed.

Lemma shrinks_same w w' : store w' = store w → store_ok (store w) → shrinks w w'.
Proof. intros He Hw. rw /shrinks /sizes He. split_and!; [done..|]. by apply Forall_Forall2_diag, Forall_forall. Qed.

Lemma shrinks_trans w1 w2 w3 : shrinks w1 w2 → shrinks w2 w3 → shrinks w1 w3.
Proof.
  intros (_ & H1 & H2) (? & H3 & H4). split_and!; [done|congruence|].
  by eapply Forall2_trans_ge.
Qed.

Lemma shrinks_put i sh sh' w :
  store_ok (store w) → shards_ (store w) !! i = Some sh → shard_ok i sh' → (base.size (map sh') ≤ base.size (map sh))%nat →
  shrinks w (put_shard i sh' w).
Proof.
  intros Hw Hi Hok Hle. split_and!; [by apply store_ok_put|done|]. rw sizes_put.
  rw -{1}(list_insert_id (sizes w) i (base.size (map sh))); [by apply sizes_lookup|].
  apply Forall2_insert; [by apply Forall_Forall2_diag, Forall_forall|done].
Qed.

Section Capacity.
Context (N : Z).

(** The store is well-formed and holds at most [n] entries. *)
Record within (n : Z) (w : World) : Prop := {
  in_ok : store_ok (store w);
  in_max : max_keys_ (store w) = N;
  in_size : (Z.of_nat (sum_list (sizes w)) ≤ n)%Z
}.

Lemma within_shrinks n w w' : within n w → shrinks w w' → within n w'.
Proof. intros [H1 H2 H3] (H4 & H5 & H6%sum_le). split; [done|congruence|lia]. Qed.

(** The size that [maybe_evict] computes is at least the size when it is done. *)
Lemma size_beside w :
  within N w → amid overflow_only shrinks size_prog (λ total w', within N w' ∧ within total w') w.
Proof.
  intros Hw. eapply amid_mono; [|apply (amid_reads shrinks (λ total _ sh, total + Z.of_nat (base.size (map sh)))%Z (λ j total w,
    within N w ∧ (Z.of_nat (sum_list (take j (sizes w))) ≤ total)%Z))]; cbv beta.
  - intros total w' [H1 H2]. split; [done|]. destruct H1 as [Ha Hb _]. split; [done..|].
    rw take_ge in H2; [|done]. by rw /sizes length_fmap (ok_count _ Ha).
  - intros j acc w1 w2 [H1 H2] H3. split; [by eapply within_shrinks|]. destruct H3 as (_ & _ & H3).
    apply (Forall2_take _ _ _ j), sum_le in H3. lia.
  - by intros j acc w1 [[] _].
  - intros j acc w1 sh [H1 H2] Hsh. split; [done|]. rw (take_S_r _ _ _ (sizes_lookup _ _ _ Hsh)).
    rw sum_list_with_app. cbn. lia.
  - done.
  - by split.
Qed.

(** What the scan for the largest shard knows: there is room already, all shards
    seen are empty, or the shard it has found is as large as it was. *)
Definition found (j : nat) (r : nat * nat) (w : World) : Prop :=
  within N w ∧ (r.2 < SHARD_COUNT)%nat ∧
  (within (N - 1) w ∨ (r.1 = 0%nat ∧ sum_list (take j (sizes w)) = 0%nat) ∨
   ((0 < r.1)%nat ∧ sizes w !! r.2 = Some r.1)).

Lemma found_shrinks j r w w' : found j r w → shrinks w w' → found j r w'.
Proof.
  intros (H1 & H2 & H3) Hs. pose proof (within_shrinks _ _ _ H1 Hs) as H1'. split_and!; [done..|].
  destruct H3 as [H3|[[H3 H4]|[H3 H4]]]; [left; by eapply within_shrinks|right; left; split; [done|]|].
  - destruct Hs as (_ & _ & Hs). apply (Forall2_take _ _ _ j), sum_le in Hs. lia.
  - destruct Hs as (_ & _ & Hs). destruct (Forall2_lookup_l _ _ _ _ _ Hs H4) as (b & Hb & Hle).
    destruct (decide (b = r.1)) as [->|Hne]; [right; right; done|left].
    pose proof (sum_lt _ _ _ _ _ Hs H4 Hb ltac:(lia)). destruct H1 as [_ _ H1], H1' as [? ? _]. split; [done..|lia].
Qed.

Lemma scan_finds w : within N w → amid overflow_only shrinks scan_prog (found SHARD_COUNT) w.
Proof.
  intros Hw. apply (amid_reads shrinks (λ r i sh,
    if Nat.ltb r.1 (base.size (map sh)) then (base.size (map sh), i) else r) found); try done.
  - intros. by eapply found_shrinks.
  - by intros j acc w1 [[] _].
  - intros j r w1 sh (H1 & H2 & H3) Hsh. pose proof (sizes_lookup _ _ _ Hsh) as Hj. split; [done|].
    assert (j < SHARD_COUNT)%nat as Hlt.
    { destruct H1 as [Hok _ _]. rw -(ok_count _ Hok). by eapply lookup_lt_Some. }
    destruct (Nat.ltb_spec r.1 (base.size (map sh))) as [Hb|Hb]; (split; [done|]).
    + destruct H3 as [H3|_]; [by left|]. right. right. cbn. split; [lia|done].
    + destruct H3 as [H3|[[H3 H4]|H3]]; [by left| |by right; right]. right. left. split; [done|].
      rw (take_S_r _ _ _ Hj) sum_list_with_app H4. cbn. lia.
  - split_and!; [done|cbn; rw /SHARD_COUNT; lia|]. right. left. done.
Qed.

Lemma evict_makes_room r w :
  (1 ≤ N)%Z → found SHARD_COUNT r w →
  wp overflow_only (on_shard r.2 evict_locked) (λ _ w', within (N - 1) w') w.
Proof.
  intros HN ([Hok Hm Hs] & Hr & Hf). eapply wp_mono; [apply (on_shard_run r.2 evict_locked w (λ w',
    max_keys_ (store w') = N ∧ (Z.of_nat (sum_list (sizes w')) ≤ N - 1)%Z)); [done..|]|by intros ? w' (? & _ & _ & ? & ?)].
  intros sh Hsh Hsok. pose proof (sizes_lookup _ _ _ Hsh) as Hi. pose proof (sum_put _ _ (base.size (map sh)) _ Hi) as Hsame.
  destruct (last (LruList.list_ (lru sh))) as [[n k']|] eqn:Hl.
  - destruct (evict_locked_ok _ _ _ _ Hsok Hl) as (sh' & He & Hok' & Hm' & [e Hk] & _). exists sh'. split_and!; [done..|].
    rw sizes_put Hm'. pose proof (sum_put _ _ (base.size (base.delete k' (map sh))) _ Hi) as Hsum.
    rw map_size_delete_Some // in Hsum |- *. assert (base.size (map sh) ≠ 0%nat).
    { rw map_size_ne_0_lookup. eauto. }
    lia.
  - apply last_None in Hl. exists sh. split_and!; [by apply evict_locked_empty|done..|]. rw sizes_put list_insert_id //.
    assert (base.size (map sh) = 0%nat) as H0.
    { destruct (shard_sizes _ _ Hsok) as [_ <-]. by rw /LruList.size Hl. }
    destruct Hf as [[_ _ Hf]|[[_ Hf]|[Hpos Hf]]]; [done| |].
    + rw take_ge in Hf; [by rw /sizes length_fmap (ok_count _ Hok)|]. lia.
    + rw Hi in Hf. injection Hf as Hf. lia.
Qed.

Lemma maybe_evict_makes_room w :
  (1 ≤ N)%Z → within N w → amid overflow_only shrinks maybe_evict_prog (λ _ w', within (N - 1) w') w.
Proof.
  intros HN Hw. apply amid_bind. eapply amid_mono; [|by apply size_beside]. intros approx w1 [H1 Ha]. cbn [amid].
  apply wp_gets. intros w2 H2. pose proof (within_shrinks _ _ _ H1 H2) as H1'. pose proof (within_shrinks _ _ _ Ha H2) as Ha'.
  rw (in_max _ _ H1). destruct (Z.ltb_spec approx N) as [Hlt|Hge].
  { cbn [amid]. destruct Ha' as [? ? ?]. split; [done..|lia]. }
  apply amid_bind. eapply amid_mono; [|by apply scan_finds]. intros r w3 H3. apply amid_section.
  eapply wp_mono; [by apply evict_makes_room|]. intros ? w4 H4 w5 H5. exact (within_shrinks _ _ _ H4 H5).
Qed.

(** A set beside threads that only remove entries. *)
Lemma set_beside k v t w :
  (1 ≤ N)%Z → within N w → amid overflow_only shrinks (set_prog k v t) (λ _ w', within N w') w.
Proof.
  intros HN Hw. apply amid_bind. eapply amid_mono; [|by apply maybe_evict_makes_room]. intros ? w1 H1. apply amid_bind.
  apply (amid_mono _ _ _ (λ _ w', within (N - 1) w')).
  - intros x w2 H2. apply amid_section. destruct H2 as [Hok Hm Hs]. eapply wp_mono; [apply (on_shard_run (shard_for k) _ w2 (λ w',
      within N w')); [apply shard_for_lt|done|]|].
    + intros sh Hsh Hsok. destruct (set_locked_ok _ sh k v x Hsok eq_refl) as (sh' & p & n & rest & He & Hok' & Hm' & _).
      exists sh'. split_and!; [done..|]. split; [by apply store_ok_put|done|]. rw sizes_put Hm'.
      pose proof (sum_put _ _ (base.size (<[k := mkEntry v x p]> (map sh))) _ (sizes_lookup _ _ _ Hsh)) as Hsum.
      rw map_size_insert in Hsum |- *. destruct (map sh !! k); cbn in Hsum |- *; lia.
    + intros ? w3 (_ & _ & _ & H3) w4 H4. exact (within_shrinks _ _ _ H3 H4).
  - destruct (0 <? t)%Z; [|done]. apply amid_section. rw /wp /bind /now_ms /lift /checked. destruct (in_i64 _); [|done].
    intros w2 H2. eapply within_shrinks; [|exact H2]. by destruct H1.
Qed.

End Capacity.

End Thms.

(** ** Concrete runs *)

Module Demo.
Import StoreThms.Demo.
#[local] Existing Instance demo_platform.

Lemma snapshot_beside_writers_witness :
  amid overflow_only (spares (bs "c") (Some (bs "9x", -1)%Z)) (for_each_prog collect [])
    (λ l _, filter (λ y, y.1 = bs "c") l = [(bs "c", (bs "9x", -1)%Z)]) demo2.
Proof.
  apply (snapshot_beside_writers (bs "c") (Some (bs "9x", -1)%Z) demo2 demo2_ok);
    [vm_compute; reflexivity|intros vx n [= <-]; reflexivity].
Defined.

Lemma keys_beside_writers_witness :
  amid overflow_only (spares (bs "c") (Some (bs "9x", -1)%Z)) (keys_prog (bs "*"))
    (λ l _, filter (λ y, y = bs "c") l = [bs "c"]) demo2.
Proof.
  apply (keys_beside_writers (bs "c") (Some (bs "9x", -1)%Z) (bs "*") demo2 demo2_ok);
    [vm_compute; reflexivity|intros vx n [= <-]; reflexivity].
Defined.

(** Two threads that insert at the same time into a store with room for one
    more entry both find that there is room: the capacity is exceeded. *)
Definition two_writers : list (list Op) := [[OSet (bs "x") (bs "1") 0]; [OSet (bs "y") (bs "2") 0]].
Definition one_entry : World := mkWorld (λ _, 0%Z) 0 (store demo1).
Definition overfull : Sys World Op Res :=
  reached (mkSys one_entry []) (run_schedule prog_of (concat (replicate 25 [0; 1]%nat)) (mkSys one_entry (new_thread <$> two_writers))).

Example two_writers_exceed :
  size_of (store one_entry) = 1%Z ∧ max_keys_ (store one_entry) = 2%Z ∧
  size_of (store (sys_world overfull)) = 3%Z ∧ all_finished overfull = true.
Proof. vm_compute. auto. Qed.
End Demo.
End StoreRely.
