(* ===== verification/Resp.v ===== *)
(** The RESP2 protocol: src/protocol/RespTypes.hpp, RespParser.{hpp,cpp} and
    RespSerializer.{hpp,cpp}.

    The parser works on a [std::string_view]; lengths and offsets are
    [size_t], so the sums that the source computes wrap at 2^64 here as well.
    [std::vector::reserve] may throw, and so may a growing string: [VecLimits]
    says for which requests. *)

From S2P Require Import Prelude.

(** ** RespTypes.hpp *)

Inductive RespType := SimpleString | RError | Integer | BulkString | Array | Null.

#[global] Instance RespType_eq_dec : EqDecision RespType.
Proof. solve_decision. Defined.

Inductive RespValue := mkResp {
  type : RespType;
  str : bytes;
  integer : Z;
  array : list RespValue;
  is_null : bool
}.

(** ** RespParser.hpp *)

Inductive ParseStatus := Ok | Incomplete | Error.

#[global] Instance ParseStatus_eq_dec : EqDecision ParseStatus.
Proof. solve_decision. Defined.

Definition default_value : RespValue := mkResp Null [] 0 [] false.

Record ParseResult := mkResult {
  status : ParseStatus;
  rvalue : RespValue;
  consumed : Z
}.

Definition incomplete : ParseResult := mkResult Incomplete default_value 0.
Definition parse_failure : ParseResult := mkResult Error default_value 0.

(** How large a [std::vector<RespValue>] the allocator provides:
    [reserve(n)] throws [std::length_error] beyond [max_size()] and
    [std::bad_alloc] when the memory is not there. *)
Class VecLimits := {
  max_size : Z;
  alloc_limit : Z;
  (** a vector never holds more than [PTRDIFF_MAX] bytes *)
  max_size_range : 0 ≤ max_size < 2 ^ 63;
  (** the longest [std::string] there is memory for, far below [PTRDIFF_MAX] *)
  string_limit : Z;
  string_limit_range : 0 ≤ string_limit < 2 ^ 61
}.

(** [a += b] on strings. *)
Definition string_append `{!VecLimits} (a b : bytes) : outcome bytes :=
  if string_limit <? zlen (a ++ b) then Fail (Throw bad_alloc) else Ret (a ++ b).

Definition reserve `{!VecLimits} (n : Z) : outcome unit :=
  if max_size <? n then Fail (Throw length_error)
  else if alloc_limit <? n then Fail (Throw bad_alloc)
  else Ret tt.

Module RespParser.

(** [buf.find("\r\n")] *)
Fixpoint find_crlf (buf : bytes) : option nat :=
  match buf with
  | b :: rest =>
      match rest with
      | c :: _ => if bool_decide (b = CR) && bool_decide (c = LF) then Some 0%nat
                  else S <$> find_crlf rest
      | [] => None
      end
  | [] => None
  end.

(** [from_chars] over the whole line, or nothing. *)
Definition parse_length (line : bytes) : option Z :=
  let '(r, n) := from_chars line 0 in
  if bool_decide (fc_ec r ≠ errc_ok) || negb (Nat.eqb (fc_ptr r) (length line))
  then None else Some n.

Definition parse_simple_string (buf : bytes) : ParseResult :=
  match find_crlf buf with
  | None => incomplete
  | Some crlf => mkResult Ok (mkResp SimpleString (take crlf buf) 0 [] false)
                   (u64 (1 + Z.of_nat crlf + 2))
  end.

Definition parse_error (buf : bytes) : ParseResult :=
  match find_crlf buf with
  | None => incomplete
  | Some crlf => mkResult Ok (mkResp RError (take crlf buf) 0 [] false)
                   (u64 (1 + Z.of_nat crlf + 2))
  end.

Definition parse_integer (buf : bytes) : ParseResult :=
  match find_crlf buf with
  | None => incomplete
  | Some crlf =>
      match parse_length (take crlf buf) with
      | None => parse_failure
      | Some n => mkResult Ok (mkResp Integer [] n [] false) (u64 (1 + Z.of_nat crlf + 2))
      end
  end.

Definition parse_bulk_string (buf : bytes) : ParseResult :=
  match find_crlf buf with
  | None => incomplete
  | Some crlf =>
      match parse_length (take crlf buf) with
      | None => parse_failure
      | Some len =>
          if len =? -1
          then mkResult Ok (mkResp BulkString [] 0 [] true) (u64 (1 + Z.of_nat crlf + 2))
          else
            let header_size := u64 (1 + Z.of_nat crlf + 2) in
            let content_size := u64 (u64 len + 2) in
            if zlen buf <? u64 (Z.of_nat crlf + 2 + content_size) then incomplete
            else
              (* substr(crlf + 2, size_t(len)) stops at the end of the view *)
              let n := Z.min (u64 len) (zlen buf) in
              mkResult Ok (mkResp BulkString (substr buf (crlf + 2) (Z.to_nat n)) 0 [] false)
                (u64 (header_size + u64 len + 2))
      end
  end.

Section Parse.
Context {limits : VecLimits}.

(** The loop of [parse_array]: [i < count] elements to go, [acc] is
    [arr.array]; [parse] is the recursive call. *)
Fixpoint parse_elements (parse : bytes → outcome ParseResult) (fuel : nat) (buf : bytes)
    (todo : Z) (acc : list RespValue) (offset : Z) : outcome ParseResult :=
  if todo <=? 0
  then Ret (mkResult Ok (mkResp Array [] 0 acc false) (u64 (1 + offset)))
  else
    match fuel with
    | O => Fail OutOfFuel
    | S fuel' =>
        if zlen buf <=? offset then Ret incomplete else
        let? res := parse (drop (Z.to_nat offset) buf) in
        match status res with
        | Incomplete => Ret incomplete
        | Error => Ret parse_failure
        | Ok => parse_elements parse fuel' buf (todo - 1) (acc ++ [rvalue res])
                  (u64 (offset + consumed res))
        end
    end.

Definition parse_array (parse : bytes → outcome ParseResult) (fuel : nat) (buf : bytes)
    : outcome ParseResult :=
  match find_crlf buf with
  | None => Ret incomplete
  | Some crlf =>
      match parse_length (take crlf buf) with
      | None => Ret parse_failure
      | Some count =>
          if count =? -1
          then Ret (mkResult Ok (mkResp Array [] 0 [] true) (u64 (1 + Z.of_nat crlf + 2)))
          else
            let? _ := reserve (u64 count) in
            parse_elements parse fuel buf count [] (u64 (Z.of_nat crlf + 2))
      end
  end.

(** [RespParser::parse], with [fuel] for the nesting of arrays. *)
Fixpoint parse_fuel (fuel : nat) (buf : bytes) : outcome ParseResult :=
  match fuel with
  | O => Fail OutOfFuel
  | S fuel' =>
      match buf with
      | [] => Ret incomplete
      | b :: rest =>
          if bool_decide (b = Byte.x2b) then Ret (parse_simple_string rest)      (* '+' *)
          else if bool_decide (b = Byte.x2d) then Ret (parse_error rest)         (* '-' *)
          else if bool_decide (b = Byte.x3a) then Ret (parse_integer rest)       (* ':' *)
          else if bool_decide (b = Byte.x24) then Ret (parse_bulk_string rest)   (* '$' *)
          else if bool_decide (b = Byte.x2a)                                     (* '*' *)
               then parse_array (parse_fuel fuel') (S (length rest)) rest
          else Ret parse_failure
      end
  end.

(** A nested array starts behind its parent's type byte, so the nesting is
    bounded by the length of the buffer. *)
Definition parse (buf : bytes) : outcome ParseResult := parse_fuel (S (length buf)) buf.

End Parse.
End RespParser.

Module RespSerializer.

Definition ok : bytes := bs "+OK" ++ CRLF.
Definition error (msg : bytes) : bytes := bs "-ERR " ++ msg ++ CRLF.
Definition null_bulk : bytes := bs "$-1" ++ CRLF.
Definition bulk (s : bytes) : bytes := bs "$" ++ to_string (zlen s) ++ CRLF ++ s ++ CRLF.
Definition integer (n : Z) : bytes := bs ":" ++ to_string n ++ CRLF.
Definition simple (s : bytes) : bytes := bs "+" ++ s ++ CRLF.
Definition array (elements : list bytes) : bytes :=
  foldl (λ out e, out ++ bulk e) (bs "*" ++ to_string (zlen elements) ++ CRLF) elements.
Definition nil_array : bytes := bs "*-1" ++ CRLF.

End RespSerializer.

(** A concrete allocator: vectors of 80-byte elements, a million at most. *)
Definition demo_limits : VecLimits.
Proof.
  refine {| max_size := (2 ^ 63 - 1) / 80; alloc_limit := 1000000; string_limit := 2 ^ 40 |};
    by vm_compute.
Defined.
