(* ===== verification/RespThms.v ===== *)
(** The parser: it terminates, it never reads past the buffer, it inverts the
    serializer, and it recognises every incomplete command as incomplete. *)

From S2P Require Import Prelude Resp.

Module RespThms.
Import RespParser.

(** ** Lines *)

Lemma find_crlf_cons b c buf :
  find_crlf (b :: c :: buf) =
    if bool_decide (b = CR) && bool_decide (c = LF) then Some 0%nat
    else S <$> find_crlf (c :: buf).
Proof. done. Qed.

Lemma find_crlf_split buf i :
  find_crlf buf = Some i →
  buf = take i buf ++ CRLF ++ drop (i + 2) buf ∧ (i + 2 ≤ length buf)%nat.
Proof.
  revert i. induction buf as [|b buf IH]; intros i; [done|]. simpl.
  destruct buf as [|c buf]; [done|].
  destruct (bool_decide (b = CR) && bool_decide (c = LF)) eqn:Hb.
  - intros [= <-]. apply andb_true_iff in Hb as [H1%bool_decide_eq_true H2%bool_decide_eq_true].
    subst. split; [done|simpl; lia].
  - intros (j & Hj & ->)%fmap_Some. destruct (IH j Hj) as [H1 H2]. split; [|simpl in *; lia].
    simpl. by f_equal.
Qed.

Lemma find_crlf_app s rest :
  find_crlf s = None → find_crlf (s ++ CRLF ++ rest) = Some (length s).
Proof.
  induction s as [|b s IH]; intros H; [done|].
  destruct s as [|c s].
  - by rw /= andb_false_r.
  - change ((b :: c :: s) ++ CRLF ++ rest) with (b :: c :: s ++ CRLF ++ rest).
    rw find_crlf_cons in H. rw find_crlf_cons.
    destruct (bool_decide (b = CR) && bool_decide (c = LF)); [done|].
    destruct (find_crlf (c :: s)) eqn:Hs; [done|]. specialize (IH eq_refl).
    cbn [app] in IH. by rw IH.
Qed.

Lemma find_crlf_mono buf more i : find_crlf buf = Some i → find_crlf (buf ++ more) = Some i.
Proof.
  revert i. induction buf as [|b buf IH]; intros i; [done|].
  destruct buf as [|c buf]; [done|].
  change ((b :: c :: buf) ++ more) with (b :: c :: buf ++ more). rw !find_crlf_cons.
  destruct (bool_decide (b = CR) && bool_decide (c = LF)); [done|].
  intros (j & Hj & ->)%fmap_Some. by rw (IH j Hj).
Qed.

Lemma find_crlf_None s : CR ∉ s → find_crlf s = None.
Proof.
  induction s as [|b s IH]; intros H; [done|]. simpl. destruct s as [|c s]; [done|].
  rw bool_decide_false; [set_solver|]. rw IH; [set_solver|done].
Qed.

(** A line that is cut before its end has no terminator. *)
Lemma find_crlf_cut s n : CR ∉ s → (n < length s + 2)%nat → find_crlf (take n (s ++ CRLF)) = None.
Proof.
  intros Hs Hn. rw take_app. destruct (n - length s)%nat as [|[|m]] eqn:Hm; [| |lia].
  - rw app_nil_r. apply find_crlf_None. 
    intros [i [Hi _]%lookup_take_Some]%list_elem_of_lookup. apply Hs. by eapply list_elem_of_lookup_2.
  - assert (n = length s + 1)%nat as -> by lia. rw take_ge; [lia|]. simpl.
    clear Hn Hm. induction s as [|b s IH]; [done|]. simpl.
    destruct (s ++ [CR]) eqn:E; [by destruct s|]. rw bool_decide_false; [set_solver|].
    rw -E in IH. rw -E IH; [set_solver|done].
Qed.

(** ** Numbers *)

Lemma to_string_no_CR n : CR ∉ to_string n.
Proof.
  assert (∀ m, 0 ≤ m → CR ∉ dec_nat m) as H.
  { intros m Hm Hin. pose proof (dec_nat_digits m Hm) as Hd.
    rw Forall_forall in Hd. by apply Hd in Hin. }
  rw /to_string. destruct (Z.ltb_spec n 0); [|by apply H].
  intros [Hx|Hin]%elem_of_cons; [done|]. apply H in Hin; [done|lia].
Qed.

Lemma parse_length_to_string n : in_i64 n = true → parse_length (to_string n) = Some n.
Proof.
  intros Hn. rw /parse_length -{1}(app_nil_r (to_string n)) from_chars_to_string // /=.
  by rw Nat.eqb_refl.
Qed.

Lemma parse_length_range line n : parse_length line = Some n → - 2 ^ 63 ≤ n < 2 ^ 63.
Proof.
  rw /parse_length /from_chars. set (body := match line with [] => _ | _ => _ end).
  destruct body as [neg b]. destruct (take_digits b) as [|d ds] eqn:E; [done|].
  destruct (in_i64 (if neg then _ else _)) eqn:Hr; [|done].
  destruct (bool_decide _ || _); [done|]. intros [= <-]. by apply in_i64_spec.
Qed.

(** A header line: the decimal text of [n] and its terminator. *)
Lemma header_line n rest :
  in_i64 n = true →
  find_crlf (to_string n ++ CRLF ++ rest) = Some (length (to_string n)) ∧
  parse_length (take (length (to_string n)) (to_string n ++ CRLF ++ rest)) = Some n.
Proof.
  intros Hn. split; [apply find_crlf_app, find_crlf_None, to_string_no_CR|].
  rw take_app_length. by apply parse_length_to_string.
Qed.

Lemma u64_small z : 0 ≤ z < 2 ^ 64 → u64 z = z.
Proof. apply Z.mod_small. Qed.

(** ** Termination and progress *)

(** What one call of the parser guarantees about a buffer. *)
Definition parse_post (buf : bytes) (o : outcome ParseResult) : Prop :=
  match o with
  | Ret r => status r = Ok → 1 ≤ consumed r ≤ zlen buf
  | Fail f => f = Throw length_error ∨ f = Throw bad_alloc
  end.

Lemma line_post buf crlf :
  find_crlf buf = Some crlf → zlen buf < 2 ^ 63 - 1 →
  1 ≤ u64 (1 + Z.of_nat crlf + 2) ≤ 1 + zlen buf.
Proof. intros [_ H]%find_crlf_split Hfit. rw u64_small; lia. Qed.

(** [content_size] and the guard may wrap for a negative length; when the guard
    passes, the number of consumed bytes is still within the buffer. *)
Lemma bulk_consumed crlf len :
  u64 (u64 (1 + Z.of_nat crlf + 2) + u64 len + 2) =
  u64 (1 + u64 (Z.of_nat crlf + 2 + u64 (u64 len + 2))).
Proof.
  rw /u64. change (2 ^ 64) with 18446744073709551616. Z.div_mod_to_equations. lia.
Qed.

Lemma parse_bulk_post buf :
  zlen buf < 2 ^ 63 - 1 →
  status (parse_bulk_string buf) = Ok → 1 ≤ consumed (parse_bulk_string buf) ≤ 1 + zlen buf.
Proof.
  intros Hfit. rw /parse_bulk_string. destruct (find_crlf buf) as [crlf|] eqn:Hc; [|done].
  pose proof (line_post _ _ Hc Hfit). destruct (parse_length _) as [len|]; [|done].
  case_match; [done|]. rw bulk_consumed.
  destruct (Z.ltb_spec (zlen buf) (u64 (Z.of_nat crlf + 2 + u64 (u64 len + 2)))) as [|Hge]; [done|].
  intros _. cbn [consumed].
  pose proof (Z.mod_pos_bound (Z.of_nat crlf + 2 + u64 (u64 len + 2)) (2 ^ 64) ltac:(lia)) as Hb.
  rw -/(u64 (Z.of_nat crlf + 2 + u64 (u64 len + 2))) in Hb. rw u64_small; lia.
Qed.

Section Parser.
Context {limits : VecLimits}.

Lemma reserve_faults n :
  match reserve n with Ret _ => 0 ≤ n → n ≤ max_size | Fail f => f = Throw length_error ∨ f = Throw bad_alloc end.
Proof.
  rw /reserve. destruct (Z.ltb_spec max_size n); [by left|].
  destruct (Z.ltb_spec alloc_limit n); [by right|done].
Qed.

Lemma parse_elements_post p fuel buf todo acc offset :
  (∀ s, (length s ≤ length buf)%nat → parse_post s (p s)) →
  zlen buf < 2 ^ 63 - 1 → 0 ≤ offset ≤ zlen buf → zlen buf - offset < Z.of_nat fuel →
  match parse_elements p fuel buf todo acc offset with
  | Ret r => status r = Ok → 1 ≤ consumed r ≤ 1 + zlen buf
  | Fail f => f = Throw length_error ∨ f = Throw bad_alloc
  end.
Proof.
  intros Hp Hfit. revert todo acc offset.
  induction fuel as [|fuel IH]; intros todo acc offset Ho Hf; [lia|].
  cbn [parse_elements]. destruct (todo <=? 0).
  { simpl. intros _. rw u64_small; lia. }
  destruct (Z.leb_spec (zlen buf) offset); [done|].
  specialize (Hp (drop (Z.to_nat offset) buf)). rw length_drop in Hp.
  specialize (Hp ltac:(lia)). destruct (p _) as [res|f]; [|done]. simpl in Hp |- *.
  destruct (status res); [|done..]. specialize (Hp eq_refl). rw length_drop in Hp.
  rw u64_small; [lia|]. apply IH; lia.
Qed.

Lemma parse_fuel_post fuel buf :
  (length buf < fuel)%nat → zlen buf < 2 ^ 63 → parse_post buf (parse_fuel fuel buf).
Proof.
  revert buf. induction fuel as [|fuel IH]; intros buf Hf Hfit; [lia|].
  destruct buf as [|b rest]; [done|]. simpl in Hf. rw length_cons in Hfit.
  assert (zlen rest < 2 ^ 63 - 1) as Hfit' by lia.
  assert (∀ r, (status r = Ok → 1 ≤ consumed r ≤ 1 + zlen rest) → parse_post (b :: rest) (Ret r)) as Hret.
  { intros r H. rw /parse_post length_cons. intros ?%H. lia. }
  cbn [parse_fuel].
  destruct (bool_decide (b = Byte.x2b)); [|destruct (bool_decide (b = Byte.x2d));
    [|destruct (bool_decide (b = Byte.x3a)); [|destruct (bool_decide (b = Byte.x24));
    [|destruct (bool_decide (b = Byte.x2a)); [|done]]]]].
  - apply Hret. rw /parse_simple_string. destruct (find_crlf rest) eqn:Hc; [|done].
    intros _. by apply (line_post _ _ Hc).
  - apply Hret. rw /parse_error. destruct (find_crlf rest) eqn:Hc; [|done].
    intros _. by apply (line_post _ _ Hc).
  - apply Hret. rw /parse_integer. destruct (find_crlf rest) eqn:Hc; [|done].
    destruct (parse_length _); [|done]. intros _. by apply (line_post _ _ Hc).
  - by apply Hret, parse_bulk_post.
  - rw /parse_array. destruct (find_crlf rest) as [crlf|] eqn:Hc; [|done].
    pose proof (line_post _ _ Hc Hfit') as Hl. apply find_crlf_split in Hc as [_ Hc].
    destruct (parse_length _) as [count|]; [|done].
    destruct (count =? -1); [by apply Hret; intros _|].
    pose proof (reserve_faults (u64 count)) as Hres. destruct (reserve _) as [[]|f]; cbn [obind]; [|done].
    pose proof (parse_elements_post (parse_fuel fuel) (S (length rest)) rest count []
      (u64 (Z.of_nat crlf + 2))) as He.
    rw u64_small in He |- *; [lia..|].
    destruct (parse_elements _ _ _ _ _ _) as [r|f]; [apply Hret|]; apply He; try lia.
    all: intros s Hs; apply IH; lia.
Qed.

Lemma parse_elements_ext p1 p2 fuel buf todo acc offset :
  (∀ s, (length s ≤ length buf)%nat → p1 s = p2 s) →
  parse_elements p1 fuel buf todo acc offset = parse_elements p2 fuel buf todo acc offset.
Proof.
  intros Hp. revert todo acc offset.
  induction fuel as [|fuel IH]; intros todo acc offset; cbn [parse_elements]; [done|].
  destruct (todo <=? 0); [done|]. destruct (zlen buf <=? offset); [done|].
  rw Hp; [rw length_drop; lia|].
  destruct (p2 _) as [res|]; [|done]. simpl. destruct (status res); [apply IH|done..].
Qed.

(** Any fuel above the length of the buffer gives the same answer. *)
Lemma parse_fuel_enough fuel buf : (length buf < fuel)%nat → parse_fuel fuel buf = parse buf.
Proof.
  rw /parse. generalize (Nat.lt_succ_diag_r (length buf)). generalize (S (length buf)).
  revert buf. induction fuel as [|fuel IH]; intros buf g Hg Hf; [lia|].
  destruct g as [|g]; [lia|]. destruct buf as [|b rest]; [done|]. cbn [parse_fuel].
  do 4 (destruct (bool_decide _); [done|]). destruct (bool_decide _); [|done]. rw /parse_array.
  destruct (find_crlf rest); [|done]. destruct (parse_length _) as [cnt|]; [|done].
  destruct (cnt =? -1); [done|]. destruct (reserve _); [|done]. apply parse_elements_ext. simpl in *.
  intros s Hs. apply IH; lia.
Qed.

(** The equations of the parser, free of fuel. *)
Lemma parse_cons b rest :
  parse (b :: rest) =
    if bool_decide (b = Byte.x2b) then Ret (parse_simple_string rest)
    else if bool_decide (b = Byte.x2d) then Ret (parse_error rest)
    else if bool_decide (b = Byte.x3a) then Ret (parse_integer rest)
    else if bool_decide (b = Byte.x24) then Ret (parse_bulk_string rest)
    else if bool_decide (b = Byte.x2a) then parse_array parse (S (length rest)) rest
    else Ret parse_failure.
Proof.
  rw {1}/parse. cbn [parse_fuel].
  do 4 (destruct (bool_decide _); [done|]). destruct (bool_decide _); [|done].
  rw /parse_array. destruct (find_crlf rest); [|done]. destruct (parse_length _) as [cnt|]; [|done].
  destruct (cnt =? -1); [done|]. destruct (reserve _); [|done]. apply parse_elements_ext.
  intros s Hs. apply parse_fuel_enough. simpl. lia.
Qed.

Lemma parse_plus rest : parse (Byte.x2b :: rest) = Ret (parse_simple_string rest).
Proof. by rw parse_cons. Qed.
Lemma parse_minus rest : parse (Byte.x2d :: rest) = Ret (parse_error rest).
Proof. by rw parse_cons. Qed.
Lemma parse_colon rest : parse (Byte.x3a :: rest) = Ret (parse_integer rest).
Proof. by rw parse_cons. Qed.
Lemma parse_dollar rest : parse (Byte.x24 :: rest) = Ret (parse_bulk_string rest).
Proof. by rw parse_cons. Qed.
Lemma parse_star rest : parse (Byte.x2a :: rest) = parse_array parse (S (length rest)) rest.
Proof. by rw parse_cons. Qed.

(** ** The serializer and the parser *)

Definition bulk_value (s : bytes) : RespValue := mkResp BulkString s 0 [] false.
Definition command_value (args : list bytes) : RespValue :=
  mkResp Array [] 0 (bulk_value <$> args) false.

Lemma command_args args : str <$> array (command_value args) = args.
Proof.
  rw /command_value. cbn [array]. induction args as [|a args IH]; [done|]. by rw !fmap_cons IH.
Qed.

(** The vector of [n] elements can be allocated. *)
Definition reservable (n : Z) : Prop := n ≤ max_size ∧ n ≤ alloc_limit.

Lemma bulk_cons s rest :
  RespSerializer.bulk s ++ rest = Byte.x24 :: (to_string (zlen s) ++ CRLF ++ s ++ CRLF ++ rest).
Proof. rw /RespSerializer.bulk. change (bs "$") with [Byte.x24]. by rw -!app_assoc. Qed.

Lemma length_bulk s : length (RespSerializer.bulk s) = (length (to_string (zlen s)) + length s + 5)%nat.
Proof. rw /RespSerializer.bulk !length_app /=. lia. Qed.

Lemma array_concat args :
  RespSerializer.array args =
    Byte.x2a :: (to_string (zlen args) ++ CRLF ++ flat_map RespSerializer.bulk args).
Proof.
  rw /RespSerializer.array.
  enough (∀ acc, foldl (λ out e, out ++ RespSerializer.bulk e) acc args
    = acc ++ flat_map RespSerializer.bulk args) as ->
    by (change (bs "*") with [Byte.x2a]; by rw -!app_assoc).
  induction args as [|a args IH]; intros acc; simpl; [by rw app_nil_r|]. by rw IH -app_assoc.
Qed.

#[local] Opaque RespSerializer.bulk RespSerializer.array.

(** A header and its content, complete or cut short. *)
Lemma bulk_string_run s tail :
  zlen s < 2 ^ 62 → zlen tail < 2 ^ 62 →
  parse_bulk_string (to_string (zlen s) ++ CRLF ++ tail) =
    if zlen tail <? zlen s + 2 then incomplete
    else mkResult Ok (bulk_value (take (length s) tail)) (zlen (RespSerializer.bulk s)).
Proof.
  intros Hs Ht. rw length_bulk. assert (in_i64 (zlen s) = true) as Hin by (apply in_i64_spec; lia).
  destruct (header_line (zlen s) tail Hin) as [Hc Hl].
  assert (length (to_string (zlen s)) ≤ 21)%nat as Hlen by apply length_to_string.
  rw /parse_bulk_string Hc Hl. rw (proj2 (Z.eqb_neq _ _)); [lia|].
  rw (u64_small (zlen s)); [lia|]. rw (u64_small (zlen s + 2)); [lia|].
  rw !length_app !u64_small; [lia..|]. change (length CRLF) with 2%nat.
  assert (∀ a b c d : Z, a - b = c - d → (a <? b) = (c <? d)) as Hlt by (intros; lia).
  rw (Hlt _ _ (zlen tail) (zlen s + 2)); [lia|]. destruct (Z.ltb_spec (zlen tail) (zlen s + 2)); [done|].
  rw Z.min_l; [lia|]. rw Nat2Z.id /substr drop_app_ge; [lia|].
  replace (_ - _)%nat with 2%nat by lia. simpl. f_equal. lia.
Qed.

Lemma parse_bulk s rest :
  zlen (RespSerializer.bulk s ++ rest) < 2 ^ 62 →
  parse (RespSerializer.bulk s ++ rest) =
    Ret (mkResult Ok (bulk_value s) (zlen (RespSerializer.bulk s))).
Proof.
  intros Hfit. rw length_app length_bulk in Hfit. rw bulk_cons parse_dollar.
  rw bulk_string_run; [lia|rw !length_app /=; lia|].
  rw (proj2 (Z.ltb_ge _ _)); [rw !length_app /=; lia|]. by rw take_app_length.
Qed.

Lemma parse_bulk_cut s n :
  zlen (RespSerializer.bulk s) < 2 ^ 62 → (n < length (RespSerializer.bulk s))%nat →
  parse (take n (RespSerializer.bulk s)) = Ret incomplete.
Proof.
  intros Hfit Hn. pose proof (bulk_cons s []) as Hb. rw !app_nil_r in Hb.
  rw length_bulk in Hfit Hn. rw Hb. destruct n as [|n]; [done|]. cbn [take].
  rw parse_dollar. f_equal.
  destruct (decide (n < length (to_string (zlen s)) + 2)%nat) as [Hlt|Hge].
  - rw app_assoc take_app_le; [rw length_app /=; lia|].
    rw /parse_bulk_string find_crlf_cut; [apply to_string_no_CR|done|done].
  - rw take_app_ge; [lia|]. rw take_app_ge; [simpl; lia|]. rw bulk_string_run.
    + lia.
    + rw length_take. lia.
    + rw (proj2 (Z.ltb_lt _ _)); [rw length_take length_app /=; lia|done].
Qed.

(** The element loop on serialized elements, all there or cut short. *)
Lemma elements_run args : ∀ fuel pre rest acc,
  zlen (pre ++ flat_map RespSerializer.bulk args ++ rest) < 2 ^ 62 →
  (length args ≤ fuel)%nat →
  parse_elements parse fuel (pre ++ flat_map RespSerializer.bulk args ++ rest)
    (zlen args) acc (zlen pre) =
  Ret (mkResult Ok (mkResp Array [] 0 (acc ++ (bulk_value <$> args)) false)
         (1 + zlen pre + zlen (flat_map RespSerializer.bulk args))).
Proof.
  induction args as [|a args IH]; intros fuel pre rest acc Hfit Hf; simpl.
  { assert (zlen pre < 2 ^ 62) by len. destruct fuel; simpl; rw app_nil_r u64_small; try lia;
      do 2 f_equal; lia. }
  destruct fuel as [|fuel]; [simpl in Hf; lia|]. simpl in Hf, Hfit.
  rw -app_assoc in Hfit |- *. cbn [parse_elements]. pose proof (length_bulk a).
  rw (proj2 (Z.leb_gt _ _)); [lia|]. rw (proj2 (Z.leb_gt _ _)); [len|].
  rw Nat2Z.id drop_app_length parse_bulk; [len|]. cbn [obind status rvalue consumed].
  rw u64_small; [len|]. rw -Nat2Z.inj_add -length_app app_assoc.
  replace (Z.of_nat (S (length args)) - 1) with (zlen args) by lia.
  rw IH; [by rw -app_assoc|lia|]. do 2 f_equal; [by rw -app_assoc|]. len.
Qed.

Lemma elements_cut args : ∀ fuel pre acc n,
  zlen (pre ++ flat_map RespSerializer.bulk args) < 2 ^ 62 →
  (n < length (flat_map RespSerializer.bulk args))%nat → (n < fuel)%nat →
  parse_elements parse fuel (pre ++ take n (flat_map RespSerializer.bulk args))
    (zlen args) acc (zlen pre) = Ret incomplete.
Proof.
  induction args as [|a args IH]; intros fuel pre acc n Hfit Hn Hf; simpl in *; [lia|].
  destruct fuel as [|fuel]; [lia|]. cbn [parse_elements]. pose proof (length_bulk a).
  rw (proj2 (Z.leb_gt _ _)); [lia|].
  destruct (Z.leb_spec (zlen (pre ++ take n (RespSerializer.bulk a ++
    flat_map RespSerializer.bulk args))) (zlen pre)) as [Hle|Hgt]; [done|].
  rw Nat2Z.id drop_app_length.
  destruct (decide (n < length (RespSerializer.bulk a))%nat) as [Hlt|Hge].
  { rw take_app_le; [lia|]. rw parse_bulk_cut; [len|done|done]. }
  rw take_app_ge; [lia|]. rw parse_bulk; [len|]. cbn [obind status rvalue consumed].
  rw u64_small; [len|]. rw -Nat2Z.inj_add -length_app app_assoc.
  replace (Z.of_nat (S (length args)) - 1) with (zlen args) by lia.
  apply IH; len.
Qed.

Lemma array_header (args : list bytes) tail :
  zlen args < 2 ^ 62 → reservable (zlen args) →
  parse (Byte.x2a :: (to_string (zlen args) ++ CRLF ++ tail)) =
    parse_elements parse (S (length (to_string (zlen args) ++ CRLF ++ tail)))
      ((to_string (zlen args) ++ CRLF) ++ tail) (zlen args) [] (zlen (to_string (zlen args) ++ CRLF)).
Proof.
  intros Hfit [Hm Ha]. rw parse_star /parse_array.
  destruct (header_line (zlen args) tail) as [-> ->]; [apply in_i64_spec; lia|].
  rw (proj2 (Z.eqb_neq _ _)); [lia|]. rw u64_small; [lia|]. rw /reserve.
  rw (proj2 (Z.ltb_ge _ _)) // (proj2 (Z.ltb_ge _ _)) //. cbn [obind].
  pose proof (length_to_string (zlen args)). rw -app_assoc u64_small; [lia|].
  f_equal. len.
Qed.

Lemma length_bulks (args : list bytes) : (length args ≤ length (flat_map RespSerializer.bulk args))%nat.
Proof.
  induction args as [|a args IH]; simpl; [lia|]. pose proof (length_bulk a). len.
Qed.

Lemma parse_array_run args rest :
  zlen (RespSerializer.array args ++ rest) < 2 ^ 62 → reservable (zlen args) →
  parse (RespSerializer.array args ++ rest) =
    Ret (mkResult Ok (command_value args) (zlen (RespSerializer.array args))).
Proof.
  intros Hfit Hres. rw array_concat in Hfit. rw array_concat. pose proof (length_bulks args).
  rw -app_comm_cons -!app_assoc in Hfit. rw -app_comm_cons -!app_assoc.
  rw array_header; [len|done|]. rw elements_run; [len|len|].
  rw /command_value. do 2 f_equal. len.
Qed.

Lemma parse_array_cut args n :
  zlen (RespSerializer.array args) < 2 ^ 62 → reservable (zlen args) →
  (n < length (RespSerializer.array args))%nat →
  parse (take n (RespSerializer.array args)) = Ret incomplete.
Proof.
  intros Hfit Hres Hn. rw array_concat in Hfit. rw array_concat in Hn. rw array_concat.
  pose proof (length_bulks args).
  destruct n as [|n]; [done|]. cbn [take].
  destruct (decide (n < length (to_string (zlen args)) + 2)%nat) as [Hlt|Hge].
  - rw parse_star app_assoc take_app_le; [len|].
    rw /parse_array find_crlf_cut; [apply to_string_no_CR|done|done].
  - rw app_assoc take_app_ge; [len|]. rw -app_assoc array_header; [len|done|].
    apply elements_cut; len.
Qed.

(** The reply frames. *)
Lemma parse_simple_frame s rest :
  find_crlf s = None → zlen s < 2 ^ 62 →
  parse (RespSerializer.simple s ++ rest) =
    Ret (mkResult Ok (mkResp SimpleString s 0 [] false) (zlen (RespSerializer.simple s))).
Proof.
  intros Hs Hfit. rw /RespSerializer.simple. change (bs "+") with [Byte.x2b].
  rw -!app_assoc. cbn [app]. rw parse_plus /parse_simple_string find_crlf_app // take_app_length.
  rw u64_small; [lia|]. do 2 f_equal. rw length_cons length_app length_CRLF. lia.
Qed.

Lemma parse_error_line s rest :
  find_crlf s = None → zlen s < 2 ^ 62 →
  parse (Byte.x2d :: s ++ CRLF ++ rest) =
    Ret (mkResult Ok (mkResp RError s 0 [] false) (1 + zlen s + 2)).
Proof.
  intros Hs Hfit. rw parse_minus /parse_error find_crlf_app // take_app_length.
  by rw u64_small; [lia|].
Qed.

Lemma find_crlf_prefix p s : CR ∉ p → find_crlf s = None → find_crlf (p ++ s) = None.
Proof.
  intros Hp Hs. induction p as [|b p IH]; [done|]. simpl.
  destruct (p ++ s) eqn:E; [done|]. rw bool_decide_false; [set_solver|].
  by rw IH; [set_solver|].
Qed.

Lemma parse_error_frame s rest :
  find_crlf s = None → zlen s < 2 ^ 62 - 10 →
  parse (RespSerializer.error s ++ rest) =
    Ret (mkResult Ok (mkResp RError (bs "ERR " ++ s) 0 [] false) (zlen (RespSerializer.error s))).
Proof.
  intros Hs Hfit. rw /RespSerializer.error. change (bs "-ERR ") with (Byte.x2d :: bs "ERR ").
  assert (length (bs "ERR ") = 4%nat) as H4 by done.
  cbn [app]. rw -!app_assoc (app_assoc (bs "ERR ") s) parse_error_line.
  - apply find_crlf_prefix; [|done]. by apply (bool_decide_unpack _).
  - len.
  - do 2 f_equal. rw length_cons !length_app length_CRLF. lia.
Qed.

Lemma parse_integer_frame n rest :
  in_i64 n = true →
  parse (RespSerializer.integer n ++ rest) =
    Ret (mkResult Ok (mkResp Integer [] n [] false) (zlen (RespSerializer.integer n))).
Proof.
  intros Hn. rw /RespSerializer.integer. change (bs ":") with [Byte.x3a].
  pose proof (length_to_string n). rw -!app_assoc. cbn [app].
  rw parse_colon /parse_integer. destruct (header_line n rest Hn) as [-> ->].
  rw u64_small; [lia|]. do 2 f_equal. rw length_cons length_app length_CRLF. lia.
Qed.

Lemma parse_null_frame rest :
  parse (RespSerializer.null_bulk ++ rest) =
    Ret (mkResult Ok (mkResp BulkString [] 0 [] true) (zlen RespSerializer.null_bulk)).
Proof.
  change (RespSerializer.null_bulk ++ rest) with (Byte.x24 :: (to_string (-1) ++ CRLF ++ rest)).
  rw parse_dollar /parse_bulk_string. by destruct (header_line (-1) rest) as [-> ->].
Qed.

(** ** More bytes behind a decided buffer *)

Lemma find_crlf_take buf more i :
  find_crlf buf = Some i →
  find_crlf (buf ++ more) = Some i ∧ take i (buf ++ more) = take i buf.
Proof.
  intros Hi. split; [by apply find_crlf_mono|]. apply find_crlf_split in Hi as [_ Hi].
  by rw take_app_le; [lia|].
Qed.

(** [decided r o] : [o] is a result with the status and the length of [r]. *)
Definition decided (r : ParseResult) (o : outcome ParseResult) : Prop :=
  ∃ v, o = Ret (mkResult (status r) v (consumed r)).

Lemma decided_refl r : decided r (Ret r).
Proof. exists (rvalue r). by destruct r. Qed.

Lemma parse_bulk_more buf more :
  status (parse_bulk_string buf) ≠ Incomplete →
  decided (parse_bulk_string buf) (Ret (parse_bulk_string (buf ++ more))).
Proof.
  rw /parse_bulk_string. destruct (find_crlf buf) as [i|] eqn:Hi; [|done].
  destruct (find_crlf_take _ more _ Hi) as [-> ->].
  destruct (parse_length _) as [len|]; [|intros; apply decided_refl].
  destruct (len =? -1); [intros; apply decided_refl|].
  destruct (Z.ltb_spec (zlen buf) (u64 (Z.of_nat i + 2 + u64 (u64 len + 2)))); [done|].
  rw (proj2 (Z.ltb_ge _ _)); [len|]. by eexists.
Qed.

Lemma parse_elements_more more p fuel buf todo acc offset r acc' g :
  (∀ s r, (length s ≤ length buf)%nat → p s = Ret r → status r ≠ Incomplete →
     decided r (p (s ++ more))) →
  (∀ s, (length s ≤ length buf)%nat → parse_post s (p s)) →
  zlen buf < 2 ^ 63 → 0 ≤ offset ≤ zlen buf → (fuel ≤ g)%nat →
  parse_elements p fuel buf todo acc offset = Ret r → status r ≠ Incomplete →
  decided r (parse_elements p g (buf ++ more) todo acc' offset).
Proof.
  intros Hp Hpost Hfit. revert todo acc acc' offset g.
  induction fuel as [|fuel IH]; intros todo acc acc' offset g Ho Hg.
  { cbn [parse_elements]. destruct (todo <=? 0) eqn:Ht; [|done]. intros [= <-] _.
    destruct g; cbn [parse_elements]; rw Ht; by eexists. }
  destruct g as [|g]; [lia|]. cbn [parse_elements]. destruct (todo <=? 0).
  { intros [= <-] _. by eexists. }
  destruct (Z.leb_spec (zlen buf) offset); [by intros [= <-]|].
  rw (proj2 (Z.leb_gt _ _)); [len|]. rw drop_app_le; [lia|].
  destruct (p (drop _ buf)) as [res|f] eqn:Hres; [|done]. cbn [obind].
  pose proof (Hp (drop (Z.to_nat offset) buf) res) as Hd. pose proof (Hpost (drop (Z.to_nat offset) buf) ltac:(len)) as Hq.
  rw Hres in Hq. destruct (status res) eqn:Hst.
  - destruct Hd as [v ->]; [len|done|done|]. cbn [obind status consumed]. rw Hst.
    specialize (Hq Hst). rw length_drop in Hq.
    rw u64_small; [lia|]. apply IH; lia.
  - by intros [= <-].
  - destruct Hd as [v ->]; [len|done|done|]. cbn [obind status]. rw Hst. intros [= <-] _. apply decided_refl.
Qed.

Lemma parse_more buf more r :
  zlen (buf ++ more) < 2 ^ 63 → parse buf = Ret r → status r ≠ Incomplete →
  decided r (parse (buf ++ more)).
Proof.
  revert r. induction buf as [buf IH] using (induction_ltof1 _ length). rw /ltof in IH.
  intros r Hfit. destruct buf as [|b rest]; [by intros [= <-]|]. cbn [app]. rw !parse_cons.
  assert (zlen (rest ++ more) < 2 ^ 63 - 1) as Hfit' by len.
  destruct (bool_decide (b = Byte.x2b)); [|destruct (bool_decide (b = Byte.x2d));
    [|destruct (bool_decide (b = Byte.x3a)); [|destruct (bool_decide (b = Byte.x24));
    [|destruct (bool_decide (b = Byte.x2a)); [|intros [= <-] _; apply decided_refl]]]]].
  1-3: rw /parse_simple_string /parse_error /parse_integer; intros [= <-];
    destruct (find_crlf rest) as [i|] eqn:Hi; [|done];
    destruct (find_crlf_take _ more _ Hi) as [-> ->]; intros _; apply decided_refl.
  { intros [= <-]. apply parse_bulk_more. }
  rw /parse_array. destruct (find_crlf rest) as [i|] eqn:Hi; [|by intros [= <-]].
  destruct (find_crlf_take _ more _ Hi) as [-> ->]. apply find_crlf_split in Hi as [_ Hi].
  destruct (parse_length _) as [count|]; [|intros [= <-] _; apply decided_refl].
  destruct (count =? -1); [intros [= <-] _; apply decided_refl|].
  destruct (reserve _) as [[]|]; [|done]. cbn [obind]. intros Hr Hst.
  eapply parse_elements_more; [..|exact Hr|exact Hst].
  - intros s' r' Hs Hp Hst'. apply IH; [simpl; lia|len|done|done].
  - intros s' Hs. apply parse_fuel_post; len.
  - len.
  - rw u64_small; len.
  - len.
Qed.

(** ** Claims *)

(** C11: the parser is total.  On every buffer it terminates without undefined
    behaviour; it stops early only when the vector of an array cannot be
    allocated; a complete value takes at least one byte and never more than the
    buffer holds, so that a caller that skips [consumed] bytes always advances
    and stays in bounds. *)
Theorem parse_total buf :
  zlen buf < 2 ^ 63 →
  match parse buf with
  | Ret r => status r = Ok → 1 ≤ consumed r ≤ zlen buf
  | Fail f => f = Throw length_error ∨ f = Throw bad_alloc
  end.
Proof. intros Hfit. apply parse_fuel_post; [lia|done]. Qed.

(** C12: round trip.  The parser reads back the command that the serializer
    wrote, whatever bytes its arguments hold (CRLF and NUL included), and
    consumes exactly that command: pipelined bytes behind it are left alone. *)
Theorem parse_inverts_array args rest :
  zlen (RespSerializer.array args ++ rest) < 2 ^ 62 → reservable (zlen args) →
  parse (RespSerializer.array args ++ rest) =
    Ret (mkResult Ok (command_value args) (zlen (RespSerializer.array args))).
Proof. apply parse_array_run. Qed.

(** C19: no strict prefix of a command is mistaken for a command or for a
    protocol error: the parser asks for more bytes. *)
Theorem parse_prefix_incomplete args n :
  zlen (RespSerializer.array args) < 2 ^ 62 → reservable (zlen args) →
  (n < length (RespSerializer.array args))%nat →
  parse (take n (RespSerializer.array args)) = Ret incomplete.
Proof. apply parse_array_cut. Qed.

(** The frames of replies read back, too: an integer, a line without CRLF
    as simple string or error, a bulk string and the null bulk. *)
Theorem parse_inverts_replies n s rest :
  in_i64 n = true → find_crlf s = None → zlen (s ++ rest) < 2 ^ 61 →
  parse (RespSerializer.integer n ++ rest) =
    Ret (mkResult Ok (mkResp Integer [] n [] false) (zlen (RespSerializer.integer n))) ∧
  parse (RespSerializer.simple s ++ rest) =
    Ret (mkResult Ok (mkResp SimpleString s 0 [] false) (zlen (RespSerializer.simple s))) ∧
  parse (RespSerializer.error s ++ rest) =
    Ret (mkResult Ok (mkResp RError (bs "ERR " ++ s) 0 [] false) (zlen (RespSerializer.error s))) ∧
  parse (RespSerializer.bulk s ++ rest) =
    Ret (mkResult Ok (mkResp BulkString s 0 [] false) (zlen (RespSerializer.bulk s))) ∧
  parse (RespSerializer.null_bulk ++ rest) =
    Ret (mkResult Ok (mkResp BulkString [] 0 [] true) (zlen RespSerializer.null_bulk)).
Proof.
  intros Hn Hs Hfit. split_and!.
  - by apply parse_integer_frame.
  - apply parse_simple_frame; [done|len].
  - apply parse_error_frame; [done|len].
  - apply parse_bulk. pose proof (length_bulk s). pose proof (length_to_string (zlen s)). len.
  - apply parse_null_frame.
Qed.

(** Decisions are final.  Once the parser has answered [Ok] or [Error],
    bytes that arrive later change neither the answer nor the number of bytes
    the value takes: where a command ends does not depend on how the stream was
    cut into reads. *)
Theorem parse_decision_stable buf more r :
  zlen (buf ++ more) < 2 ^ 63 → parse buf = Ret r → status r ≠ Incomplete →
  ∃ v, parse (buf ++ more) = Ret (mkResult (status r) v (consumed r)).
Proof. apply parse_more. Qed.

(** A negative bulk length other than -1 is not rejected.  The check of the
    buffer size wraps around, [$-2] is answered with [Ok] whatever follows, its
    content is everything behind the header, and yet only the header is
    consumed: the same bytes are parsed again as the next value. *)
Theorem negative_bulk_accepted rest :
  zlen rest < 2 ^ 62 →
  parse (bs "$-2" ++ CRLF ++ rest) = Ret (mkResult Ok (bulk_value rest) 5).
Proof.
  intros Hfit.
  change (bs "$-2" ++ CRLF ++ rest) with (Byte.x24 :: (to_string (-2) ++ CRLF ++ rest)).
  rw parse_dollar /parse_bulk_string. destruct (header_line (-2) rest) as [-> ->]; [done|].
  change (Z.of_nat (length (to_string (-2)))) with 2.
  change (length (to_string (-2)) + 2)%nat with 4%nat.
  change (u64 (2 + 2 + u64 (u64 (-2) + 2))) with 4. change (-2 =? -1) with false.
  rw (proj2 (Z.ltb_ge _ _)); [len|]. rw Z.min_r; [change (u64 (-2)) with (2 ^ 64 - 2); len|].
  change (u64 (u64 (1 + 2 + 2) + u64 (-2) + 2)) with 5. rw /bulk_value /substr.
  change (drop 4 (to_string (-2) ++ CRLF ++ rest)) with rest. by rw take_ge; [len|].
Qed.

(** A negative array length other than -1 makes [reserve] throw
    [std::length_error], whatever follows it. *)
Theorem negative_array_throws n rest :
  - 2 ^ 63 ≤ n < -1 →
  parse (bs "*" ++ to_string n ++ CRLF ++ rest) = Fail (Throw length_error).
Proof.
  intros Hn. change (bs "*" ++ to_string n ++ CRLF ++ rest)
    with (Byte.x2a :: (to_string n ++ CRLF ++ rest)).
  rw parse_star /parse_array. destruct (header_line n rest) as [-> ->]; [apply in_i64_spec; lia|].
  rw (proj2 (Z.eqb_neq _ _)); [lia|]. rw /reserve.
  assert (u64 n = n + 2 ^ 64) as ->.
  { rw /u64 -(Z.mod_add n 1) //. apply Z.mod_small. lia. }
  pose proof max_size_range. by rw (proj2 (Z.ltb_lt _ _)); [lia|].
Qed.

End Parser.

(** ** Concrete runs *)

Module Demo.
#[local] Existing Instance demo_limits.

Definition set_args : list bytes := [bs "SET"; bs "k"; CRLF].
Definition pipelined : bytes := bs "*1" ++ CRLF.

Lemma parse_total_witness :
  match parse (RespSerializer.array set_args ++ pipelined) with
  | Ret r => status r = Ok → 1 ≤ consumed r ≤ zlen (RespSerializer.array set_args ++ pipelined)
  | Fail f => f = Throw length_error ∨ f = Throw bad_alloc
  end.
Proof. apply (parse_total (RespSerializer.array set_args ++ pipelined)). reflexivity. Defined.

Lemma parse_inverts_array_witness :
  parse (RespSerializer.array set_args ++ pipelined) =
    Ret (mkResult Ok (command_value set_args) (zlen (RespSerializer.array set_args))).
Proof.
  apply (parse_inverts_array set_args pipelined); [reflexivity|split; vm_compute; discriminate].
Defined.

Lemma parse_prefix_incomplete_witness :
  parse (take 17 (RespSerializer.array set_args)) = Ret incomplete.
Proof.
  apply (parse_prefix_incomplete set_args 17);
    [reflexivity|split; vm_compute; discriminate|vm_compute; lia].
Defined.

Lemma parse_inverts_replies_witness :
  parse (RespSerializer.integer (-42) ++ pipelined) =
    Ret (mkResult Ok (mkResp Integer [] (-42) [] false) (zlen (RespSerializer.integer (-42)))) ∧
  parse (RespSerializer.simple (bs "PONG") ++ pipelined) =
    Ret (mkResult Ok (mkResp SimpleString (bs "PONG") 0 [] false) (zlen (RespSerializer.simple (bs "PONG")))) ∧
  parse (RespSerializer.error (bs "PONG") ++ pipelined) =
    Ret (mkResult Ok (mkResp RError (bs "ERR PONG") 0 [] false) (zlen (RespSerializer.error (bs "PONG")))) ∧
  parse (RespSerializer.bulk (bs "PONG") ++ pipelined) =
    Ret (mkResult Ok (mkResp BulkString (bs "PONG") 0 [] false) (zlen (RespSerializer.bulk (bs "PONG")))) ∧
  parse (RespSerializer.null_bulk ++ pipelined) =
    Ret (mkResult Ok (mkResp BulkString [] 0 [] true) (zlen RespSerializer.null_bulk)).
Proof. apply (parse_inverts_replies (-42) (bs "PONG") pipelined); reflexivity. Defined.

Lemma parse_decision_stable_witness :
  ∃ v, parse (RespSerializer.ok ++ pipelined) = Ret (mkResult Ok v 5).
Proof.
  apply (parse_decision_stable RespSerializer.ok pipelined
    (mkResult Ok (mkResp SimpleString (bs "OK") 0 [] false) 5)); [reflexivity..|discriminate].
Defined.

Lemma negative_bulk_accepted_witness :
  parse (bs "$-2" ++ CRLF ++ pipelined) = Ret (mkResult Ok (bulk_value pipelined) 5).
Proof. apply (negative_bulk_accepted pipelined). reflexivity. Defined.

Lemma negative_array_throws_witness :
  parse (bs "*" ++ to_string (-2) ++ CRLF ++ pipelined) = Fail (Throw length_error).
Proof. apply (negative_array_throws (-2) pipelined). lia. Defined.
End Demo.

End RespThms.
