(* ===== verification/Commands.v ===== *)
(** The command layer: src/commands/Command.hpp, Dispatcher.{hpp,cpp} and the
    handlers under src/commands/handlers/.

    A handler sees the store through [CommandContext::store]; [StoreOps] is the
    part of Store.hpp that the handlers call, over any state [W].  The store
    itself is one instance ([store_ops]).  A handler reads its arguments by
    index: [arg] makes an index past the end visible as undefined behaviour. *)

From S2P Require Import Prelude Lru Storage Resp.

Module Commands.

(** ** The store as the handlers see it *)

Class StoreOps (W : Type) := {
  st_set : bytes → bytes → Z → M W unit;
  st_get : bytes → M W (option bytes);
  st_del : bytes → M W bool;
  st_exists : bytes → M W bool;
  st_ttl : bytes → M W Z;
  st_expire : bytes → Z → M W bool;
  st_incr : bytes → M W (option Z);
  st_keys : bytes → M W (list bytes);
  st_flush : M W unit;
  st_size : M W Z
}.

#[global] Instance store_ops `{!Store.Platform} : StoreOps Store.World := {|
  st_set := Store.set;
  st_get := Store.get;
  st_del := Store.del;
  st_exists := Store.exists_;
  st_ttl := Store.ttl;
  st_expire := Store.expire;
  st_incr := Store.incr;
  st_keys := Store.keys;
  st_flush := Store.flush;
  st_size := Store.size
|}.

(** The order in which a compiler evaluates the arguments of one call is
    unspecified; SetCmd.hpp has a call in which it matters. *)
Class Compiler := { left_to_right : bool }.

(** [ctx.req.array[i]] *)
Definition arg (req : RespValue) (i : nat) : outcome RespValue :=
  match array req !! i with
  | Some v => Ret v
  | None => Fail (Undef OutOfBounds)
  end.

(** [ctx.req.array.size()] *)
Definition argc (req : RespValue) : nat := length (array req).

Definition wrong_args (cmd : bytes) : bytes :=
  RespSerializer.error (bs "wrong number of arguments for '" ++ cmd ++ bs "' command").

Definition not_an_integer : bytes :=
  RespSerializer.error (bs "value is not an integer or out of range").

Section Handlers.
Context {W : Type} {ops : StoreOps W} {cc : Compiler}.

Definition CommandHandler : Type := RespValue → M W bytes.

(** PingCmd.hpp *)
Definition handle_ping : CommandHandler := λ req,
  if Nat.leb 2 (argc req) then
    let! a := lift (arg req 1) in
    if bool_decide (type a = BulkString) then ret (RespSerializer.bulk (str a))
    else ret (RespSerializer.simple (bs "PONG"))
  else ret (RespSerializer.simple (bs "PONG")).

(** SetCmd.hpp: [std::from_chars(args[++i].str.data(), args[i].str.data() +
    args[i].str.size(), out)].  Evaluated from the left both pointers belong to
    the argument behind the option; evaluated from the right they belong to two
    different strings, which is no range. *)
Definition from_next_arg (next : RespValue) (out : Z) : outcome Z :=
  if left_to_right then Ret (from_chars (str next) out).2 else Fail (Undef BadPointer).

(** SetCmd.hpp: the options, [i] from 3 on. *)
Fixpoint set_options (args : list RespValue) (ttl_ms : Z) (nx xx : bool) : outcome (Z * bool * bool) :=
  match args with
  | [] => Ret (ttl_ms, nx, xx)
  | a :: rest =>
      let opt := toupper <$> str a in
      let other :=
        if bool_decide (opt = bs "NX") then set_options rest ttl_ms true xx
        else if bool_decide (opt = bs "XX") then set_options rest ttl_ms nx true
        else set_options rest ttl_ms nx xx in
      match rest with
      | next :: rest' =>
          if bool_decide (opt = bs "EX") then
            let? secs := from_next_arg next 0 in
            let? ms := checked (secs * 1000) in
            set_options rest' ms nx xx
          else if bool_decide (opt = bs "PX") then
            let? ms := from_next_arg next ttl_ms in
            set_options rest' ms nx xx
          else other
      | [] => other
      end
  end.

Definition handle_set : CommandHandler := λ req,
  if Nat.ltb (argc req) 3 then ret (wrong_args (bs "set")) else
  let! key := lift (arg req 1) in
  let! value := lift (arg req 2) in
  let! (ttl_ms, nx, xx) := lift (set_options (drop 3 (array req)) (-1) false false) in
  let! present := (if (nx : bool) then st_exists (str key) else ret false) in
  if (present : bool) then ret RespSerializer.null_bulk else
  let! absent := (if (xx : bool) then let! e := st_exists (str key) in ret (negb e)
                  else ret false) in
  if (absent : bool) then ret RespSerializer.null_bulk else
  st_set (str key) (str value) ttl_ms ;;;
  ret RespSerializer.ok.

(** GetCmd.hpp *)
Definition handle_get : CommandHandler := λ req,
  if Nat.ltb (argc req) 2 then ret (wrong_args (bs "get")) else
  let! key := lift (arg req 1) in
  let! val := st_get (str key) in
  match val with
  | None => ret RespSerializer.null_bulk
  | Some v => ret (RespSerializer.bulk v)
  end.

(** DelCmd.hpp *)
Definition handle_del : CommandHandler := λ req,
  if Nat.ltb (argc req) 2 then ret (wrong_args (bs "del")) else
  let! deleted := foldM (λ deleted a,
      let! b := st_del (str a) in ret (if (b : bool) then deleted + 1 else deleted))
    (drop 1 (array req)) 0 in
  ret (RespSerializer.integer deleted).

(** ExistsCmd.hpp *)
Definition handle_exists : CommandHandler := λ req,
  if Nat.ltb (argc req) 2 then ret (wrong_args (bs "exists")) else
  let! count := foldM (λ count a,
      let! b := st_exists (str a) in ret (if (b : bool) then count + 1 else count))
    (drop 1 (array req)) 0 in
  ret (RespSerializer.integer count).

(** ExpireCmd.hpp *)
Definition handle_expire : CommandHandler := λ req,
  if Nat.ltb (argc req) 3 then ret (wrong_args (bs "expire")) else
  let! key := lift (arg req 1) in
  let! a := lift (arg req 2) in
  let secs := (from_chars (str a) 0).2 in
  let! ms := lift (checked (secs * 1000)) in
  let! ok := st_expire (str key) ms in
  ret (RespSerializer.integer (if (ok : bool) then 1 else 0)).

Definition handle_pexpire : CommandHandler := λ req,
  if Nat.ltb (argc req) 3 then ret (wrong_args (bs "pexpire")) else
  let! key := lift (arg req 1) in
  let! a := lift (arg req 2) in
  let ms := (from_chars (str a) 0).2 in
  let! ok := st_expire (str key) ms in
  ret (RespSerializer.integer (if (ok : bool) then 1 else 0)).

(** TtlCmd.hpp; the division truncates towards zero. *)
Definition handle_ttl : CommandHandler := λ req,
  if Nat.ltb (argc req) 2 then ret (wrong_args (bs "ttl")) else
  let! key := lift (arg req 1) in
  let! ms := st_ttl (str key) in
  if ms =? -2 then ret (RespSerializer.integer (-2)) else
  if ms =? -1 then ret (RespSerializer.integer (-1)) else
  ret (RespSerializer.integer (Z.quot ms 1000)).

Definition handle_pttl : CommandHandler := λ req,
  if Nat.ltb (argc req) 2 then ret (wrong_args (bs "pttl")) else
  let! key := lift (arg req 1) in
  let! ms := st_ttl (str key) in
  ret (RespSerializer.integer ms).

(** IncrCmd.hpp *)
Definition handle_incr : CommandHandler := λ req,
  if Nat.ltb (argc req) 2 then ret (wrong_args (bs "incr")) else
  let! key := lift (arg req 1) in
  let! result := st_incr (str key) in
  match result with
  | None => ret not_an_integer
  | Some n => ret (RespSerializer.integer n)
  end.

Definition handle_incrby : CommandHandler := λ req,
  if Nat.ltb (argc req) 3 then ret (wrong_args (bs "incrby")) else
  let! key := lift (arg req 1) in
  let! a := lift (arg req 2) in
  let '(r, delta) := from_chars (str a) 0 in
  if bool_decide (fc_ec r ≠ errc_ok) then ret not_an_integer else
  let! cur_str := st_get (str key) in
  let '(r2, cur) := match cur_str with
                    | Some s => from_chars s 0
                    | None => ({| fc_ptr := 0; fc_ec := errc_ok |}, 0)
                    end in
  if bool_decide (fc_ec r2 ≠ errc_ok) then ret not_an_integer else
  let! next := lift (checked (cur + delta)) in
  st_set (str key) (to_string next) (-1) ;;;
  ret (RespSerializer.integer next).

(** KeysCmd.hpp *)
Definition handle_keys : CommandHandler := λ req,
  let! pattern := (if Nat.leb 2 (argc req)
                   then let! a := lift (arg req 1) in ret (str a)
                   else ret (bs "*")) in
  let! all_keys := st_keys pattern in
  ret (RespSerializer.array all_keys).

Definition handle_dbsize : CommandHandler := λ req,
  let! n := st_size in
  ret (RespSerializer.integer (i64 n)).

Definition handle_flushall : CommandHandler := λ req,
  st_flush ;;;
  ret RespSerializer.ok.

(** ** Dispatcher.{hpp,cpp} *)

Definition Dispatcher : Type := gmap bytes CommandHandler.

(** [handlers_.emplace(name, handler)] keeps an entry that is there. *)
Definition register_handler (name : bytes) (handler : CommandHandler) (d : Dispatcher) : Dispatcher :=
  match d !! name with
  | Some _ => d
  | None => <[name := handler]> d
  end.

Definition registrations : list (bytes * CommandHandler) := [
  (bs "ping", handle_ping);
  (bs "set", handle_set);
  (bs "get", handle_get);
  (bs "del", handle_del);
  (bs "unlink", handle_del);
  (bs "exists", handle_exists);
  (bs "expire", handle_expire);
  (bs "pexpire", handle_pexpire);
  (bs "ttl", handle_ttl);
  (bs "pttl", handle_pttl);
  (bs "incr", handle_incr);
  (bs "incrby", handle_incrby);
  (bs "keys", handle_keys);
  (bs "dbsize", handle_dbsize);
  (bs "flushall", handle_flushall);
  (bs "flushdb", handle_flushall)
].

(** [Dispatcher::Dispatcher] *)
Definition new_dispatcher : Dispatcher :=
  foldl (λ d '(name, h), register_handler name h d) ∅ registrations.

(** [Dispatcher::dispatch] *)
Definition dispatch (d : Dispatcher) (req : RespValue) : M W bytes :=
  if bool_decide (type req ≠ Array) || Nat.eqb (argc req) 0
  then ret (RespSerializer.error (bs "invalid request format")) else
  let! name := lift (arg req 0) in
  let cmd := tolower <$> str name in
  match d !! cmd with
  | None => ret (RespSerializer.error (bs "unknown command '" ++ cmd ++ bs "'"))
  | Some handler => handler req
  end.

End Handlers.

(** A compiler that evaluates from the left. *)
Definition demo_compiler : Compiler := {| left_to_right := true |}.

End Commands.
