(* ===== verification/CommandsThms.v ===== *)
(** The command layer is safe, answers in the protocol, and does what the
    commands say.

    [StoreSafe] is what a store promises its clients at all times, [StoreLaws]
    what it promises a client that has it for itself; the lemmas about the
    handlers are proved against them, and [store_safe] and [store_laws] show
    that the sharded store keeps the promises. *)

From S2P Require Import Prelude Lru Storage StorageInv StorageSpec StorageThms Resp RespThms Commands.

Module CommandsThms.
Import Commands RespThms.

(** ** The interface *)

(** Every operation keeps [st_inv]; it can only be stopped by an overflow, in a
    deadline, a counter, or another thread that runs beside it. *)
Class StoreSafe (W : Type) {ops : StoreOps W} := {
  st_inv : W → Prop;
  safe_set k v ttl w : st_inv w → wp overflow_only (st_set k v ttl) (λ _ w', st_inv w') w;
  safe_get k w : st_inv w → wp overflow_only (st_get k) (λ _ w', st_inv w') w;
  safe_del k w : st_inv w → wp overflow_only (st_del k) (λ _ w', st_inv w') w;
  safe_exists k w : st_inv w → wp overflow_only (st_exists k) (λ _ w', st_inv w') w;
  safe_ttl k w : st_inv w → wp overflow_only (st_ttl k) (λ r w', st_inv w' ∧ in_i64 r = true) w;
  safe_expire k ttl w : st_inv w → wp overflow_only (st_expire k ttl) (λ _ w', st_inv w') w;
  safe_incr k w : st_inv w → wp overflow_only (st_incr k) (λ r w', st_inv w' ∧
    match r with Some n => in_i64 n = true | None => True end) w;
  safe_keys p w : st_inv w → wp overflow_only (st_keys p) (λ _ w', st_inv w') w;
  safe_flush w : st_inv w → wp overflow_only st_flush (λ _ w', st_inv w') w;
  safe_size w : st_inv w → wp overflow_only st_size (λ _ w', st_inv w') w
}.

(** [st_view] is the contents, expired entries included; [st_now] is what the
    clock will show the next operation. *)
Class StoreLaws (W : Type) {ops : StoreOps W} {safe : StoreSafe W} := {
  st_view : W → gmap bytes (bytes * Z);
  st_now : W → Z;
  law_set k v ttl w : st_inv w →
    wp (λ f, 0 < ttl ∧ overflow_only f) (st_set k v ttl) (λ _ w', st_inv w' ∧
      ∃ m, m ⊆ st_view w ∧
        st_view w' = <[k := (v, if 0 <? ttl then st_now w + ttl else -1)]> m) w;
  law_get k w : st_inv w →
    wp no_fault (st_get k) (λ r w', st_inv w' ∧
      (st_view w !! k = None → r = None ∧ st_view w' = st_view w) ∧
      (∀ v x, st_view w !! k = Some (v, x) → Spec.expired x (st_now w) = false →
         r = Some v ∧ st_view w' = st_view w)) w;
  law_del k w : st_inv w →
    wp no_fault (st_del k) (λ r w', st_inv w' ∧
      r = bool_decide (is_Some (st_view w !! k)) ∧ st_view w' = delete k (st_view w)) w;
  law_exists k w : st_inv w →
    wp no_fault (st_exists k) (λ r w', st_inv w' ∧ st_view w' = st_view w ∧
      r = match st_view w !! k with
          | Some (_, x) => negb (Spec.expired x (st_now w))
          | None => false
          end) w;
  law_ttl k w : st_inv w →
    wp overflow_only (st_ttl k) (λ r w', st_inv w' ∧ st_view w' = st_view w ∧ in_i64 r = true) w;
  law_expire k ttl w : st_inv w →
    wp overflow_only (st_expire k ttl) (λ r w', st_inv w' ∧
      dom (st_view w') = dom (st_view w)) w;
  law_incr k w : st_inv w →
    wp overflow_only (st_incr k) (λ r w', st_inv w' ∧
      match r with Some n => in_i64 n = true | None => True end) w;
  law_keys p w : st_inv w →
    wp no_fault (st_keys p) (λ ks w', st_inv w' ∧ st_view w' = st_view w ∧ NoDup ks) w;
  law_flush w : st_inv w →
    wp no_fault st_flush (λ _ w', st_inv w' ∧ st_view w' = ∅) w;
  law_size w : st_inv w →
    wp no_fault st_size (λ n w', w' = w ∧ n = Z.of_nat (base.size (st_view w))) w
}.

(** An option EX or PX with another argument behind it. *)
Fixpoint timed (args : list RespValue) : bool :=
  match args with
  | a :: rest =>
      match rest with
      | [] => false
      | _ => bool_decide (toupper <$> str a = bs "EX") || bool_decide (toupper <$> str a = bs "PX") || timed rest
      end
  | [] => false
  end.

(** The faults command [cmd] can stop with: [int64_t] overflow, and in SET with
    such an option the call of SetCmd.hpp under a compiler that evaluates
    arguments from the right. *)
Definition cmd_fault `{!Compiler} (cmd : bytes) (req : RespValue) (f : fault) : Prop :=
  f = Undef SignedOverflow ∨
  (left_to_right = false ∧ cmd = bs "set" ∧ timed (drop 3 (array req)) = true ∧ f = Undef BadPointer).

(** Those of a request. *)
Definition request_fault `{!Compiler} (req : RespValue) (f : fault) : Prop :=
  f = Undef SignedOverflow ∨
  ∃ name, array req !! 0%nat = Some name ∧ cmd_fault (tolower <$> str name) req f.

(** Those of any request. *)
Definition handler_fault `{!Compiler} (f : fault) : Prop :=
  f = Undef SignedOverflow ∨ (left_to_right = false ∧ f = Undef BadPointer).

Lemma request_handler `{!Compiler} req f : request_fault req f → handler_fault f.
Proof. intros [->|(name & _ & [->|(? & _ & _ & ->)])]; [by left..|by right]. Qed.

(** The replies a client can read. *)
Inductive reply_ok : bytes → Prop :=
  | reply_simple s : RespParser.find_crlf s = None → reply_ok (RespSerializer.simple s)
  | reply_error s : RespParser.find_crlf s = None → reply_ok (RespSerializer.error s)
  | reply_integer n : in_i64 n = true → reply_ok (RespSerializer.integer n)
  | reply_bulk s : reply_ok (RespSerializer.bulk s)
  | reply_null : reply_ok RespSerializer.null_bulk
  | reply_array ks : reply_ok (RespSerializer.array ks).

Lemma reply_ok_ok : reply_ok RespSerializer.ok.
Proof. by apply (reply_simple (bs "OK")). Qed.

Create HintDb replies discriminated.
#[export] Hint Constructors reply_ok : replies.
#[export] Hint Resolve reply_ok_ok : replies.
#[export] Hint Extern 1 (reply_ok (wrong_args _)) => apply reply_error : replies.
#[export] Hint Extern 1 (reply_ok not_an_integer) => apply reply_error : replies.
#[export] Hint Extern 1 (RespParser.find_crlf _ = None) => vm_compute; reflexivity : replies.


Section Handlers.
Context {W : Type} {ops : StoreOps W} {safe : StoreSafe W} {laws : StoreLaws W} {cc : Compiler}.

(** ** Each operation, in the form the handlers need *)

Lemma wp_fault {S A} (E E' : fault → Prop) (m : M S A) (Q Q' : A → S → Prop) s :
  wp E m Q s → (∀ f, E f → E' f) → (∀ a s', Q a s' → Q' a s') → wp E' m Q' s.
Proof. rw /wp. destruct (m s) as [[a s']|f]; eauto. Qed.

Lemma wp_overflow {A} (E : fault → Prop) (m : M W A) Q Q' w :
  (∀ f, overflow_only f → E f) →
  wp overflow_only m Q w → (∀ a w', Q a w' → Q' a w') → wp E m Q' w.
Proof. intros HE H HQ. by eapply wp_fault. Qed.

Lemma wp_arg (E : fault → Prop) req i (Q : RespValue → W → Prop) w :
  (i < argc req)%nat → (∀ v, array req !! i = Some v → Q v w) → wp E (lift (arg req i)) Q w.
Proof.
  intros Hi HQ. rw /arg. destruct (lookup_lt_is_Some_2 _ _ Hi) as [v Hv]. rw Hv.
  apply wp_lift. by apply HQ.
Qed.

Lemma wp_checked (E : fault → Prop) z (Q : Z → W → Prop) w :
  E (Undef SignedOverflow) → (in_i64 z = true → Q z w) → wp E (lift (checked z)) Q w.
Proof. intros HE HQ. apply wp_lift. rw /checked. destruct (in_i64 z); [by apply HQ|done]. Qed.

(** [handle] runs a handler symbolically. *)
Ltac handle :=
  repeat first
    [ match goal with
      | |- wp _ (lift (arg _ _)) _ _ => apply wp_arg; [lia|intros ? ?]
      | |- wp _ (lift (checked _)) _ _ => apply wp_checked; [by left|intros ?]
      | |- wp _ (st_set _ _ _) _ _ => eapply wp_overflow; [by left|by apply safe_set|intros ? ? ?]
      | |- wp _ (st_get _) _ _ => eapply wp_overflow; [by left|by apply safe_get|intros ? ? ?]
      | |- wp _ (st_del _) _ _ => eapply wp_overflow; [by left|by apply safe_del|intros ? ? ?]
      | |- wp _ (st_exists _) _ _ => eapply wp_overflow; [by left|by apply safe_exists|intros ? ? ?]
      | |- wp _ (st_ttl _) _ _ => eapply wp_overflow; [by left|by apply safe_ttl|intros ? ? [? ?]]
      | |- wp _ (st_expire _ _) _ _ => eapply wp_overflow; [by left|by apply safe_expire|intros ? ? ?]
      | |- wp _ (st_incr _) _ _ => eapply wp_overflow; [by left|by apply safe_incr|intros ? ? [? ?]]
      | |- wp _ (st_keys _) _ _ => eapply wp_overflow; [by left|by apply safe_keys|intros ? ? ?]
      | |- wp _ st_flush _ _ => eapply wp_overflow; [by left|by apply safe_flush|intros ? ? ?]
      | |- wp _ st_size _ _ => eapply wp_overflow; [by left|by apply safe_size|intros ? ? ?]
      | |- wp _ (if Nat.ltb ?a ?b then _ else _) _ _ => destruct (Nat.ltb_spec a b)
      | |- wp _ (if Nat.leb ?a ?b then _ else _) _ _ => destruct (Nat.leb_spec a b)
      | |- wp _ (if ?c then _ else _) _ _ => destruct c eqn:?
      | |- wp _ (match ?c with Some _ => _ | None => _ end) _ _ => destruct c eqn:?
      end
    | wp_step; cbv beta ].

Definition handler_ok (cmd : bytes) (h : CommandHandler) : Prop := ∀ req w,
  st_inv w →
  wp (cmd_fault cmd req) (h req) (λ r w', (zlen (array req) < 2 ^ 63 → reply_ok r) ∧ st_inv w') w.

Lemma ping_ok cmd : handler_ok cmd handle_ping.
Proof. intros req w Hw. rw /handle_ping. handle; auto with replies. Qed.

Lemma get_ok cmd : handler_ok cmd handle_get.
Proof. intros req w Hw. rw /handle_get. handle; auto with replies. Qed.

(** What can stop the loop over the options. *)
Definition option_fault (args : list RespValue) (f : fault) : Prop :=
  f = Undef SignedOverflow ∨ (left_to_right = false ∧ timed args = true ∧ f = Undef BadPointer).

Lemma option_fault_cons a args f : option_fault args f → option_fault (a :: args) f.
Proof.
  intros [->|(? & Ht & ->)]; [by left|]. right. split_and!; [done| |done]. cbn [timed].
  destruct args; [done|]. by rw Ht orb_true_r.
Qed.

Lemma set_options_faults args ttl nx xx :
  match set_options args ttl nx xx with Ret _ => True | Fail f => option_fault args f end.
Proof.
  revert ttl nx xx. induction args as [args IH] using (induction_ltof1 _ length). rw /ltof in IH.
  intros ttl nx xx. destruct args as [|a args]; [done|].
  assert (∀ rest ttl nx xx, (length rest < S (length args))%nat → (∀ f, option_fault rest f → option_fault (a :: args) f) →
    match set_options rest ttl nx xx with Ret _ => True | Fail f => option_fault (a :: args) f end) as Hrest.
  { intros rest ttl' nx' xx' Hlt Hf. specialize (IH rest Hlt ttl' nx' xx').
    destruct (set_options rest _ _ _); [done|by apply Hf]. }
  assert (∀ f, option_fault args f → option_fault (a :: args) f) as Htail by (intros; by apply option_fault_cons).
  cbn [set_options]. destruct args as [|next rest].
  { repeat case_bool_decide; apply Hrest; by [simpl; lia|]. }
  assert (∀ f, option_fault rest f → option_fault (a :: next :: rest) f) as Hskip
    by (intros; by do 2 apply option_fault_cons).
  rw /from_next_arg. case_bool_decide as Hex; [|case_bool_decide as Hpx].
  - destruct left_to_right eqn:?; cbn [obind]; [|right; split_and!; [done| |done]; cbn [timed]; by rw bool_decide_true].
    rw /checked. destruct (in_i64 _); cbn [obind]; [|by left]. apply Hrest; [simpl; lia|done].
  - destruct left_to_right eqn:?; cbn [obind];
      [|right; split_and!; [done| |done]; cbn [timed]; by rw (bool_decide_true (_ = bs "PX")) // orb_true_r].
    apply Hrest; [simpl; lia|done].
  - repeat case_bool_decide; apply Hrest; by [simpl; lia|].
Qed.

Lemma set_ok : handler_ok (bs "set") handle_set.
Proof.
  intros req w Hw. rw /handle_set. handle; auto with replies.
  pose proof (set_options_faults (drop 3 (array req)) (-1) false false) as H3.
  destruct (set_options _ _ _ _) as [[[ttl nx] xx]|f]; [handle; auto with replies|].
  destruct H3 as [->|(? & ? & ->)]; [by left|by right].
Qed.

(** The loops of DEL and EXISTS count at most one per argument. *)
Lemma count_loop E (op : bytes → M W bool) (l : list RespValue) w :
  (∀ k w, st_inv w → wp E (op k) (λ _ w', st_inv w') w) → st_inv w →
  wp E (foldM (λ n a, let! b := op (str a) in ret (if (b : bool) then n + 1 else n)) l 0)
    (λ n w', 0 ≤ n ≤ zlen l ∧ st_inv w') w.
Proof.
  intros Hop Hw.
  apply (wp_foldM _ _ (λ done n w', 0 ≤ n ≤ zlen done ∧ st_inv w')); [by split|..|done].
  intros done x todo n w' _ [Hn Hw']. apply wp_bind. eapply wp_mono; [by apply Hop|].
  intros b w'' Hw''. apply wp_ret. split; [|done]. destruct b; len.
Qed.

Lemma integer_count n (l : list RespValue) : 0 ≤ n ≤ zlen l → zlen l < 2 ^ 63 → reply_ok (RespSerializer.integer n).
Proof. intros. apply reply_integer, in_i64_spec. lia. Qed.

Lemma del_ok cmd : handler_ok cmd handle_del.
Proof.
  intros req w Hw. rw /handle_del. handle; auto with replies.
  eapply wp_mono; [apply count_loop; [intros; eapply wp_overflow; [by left|by apply safe_del|done]|done]|].
  intros n w' [Hn Hw']. handle. split; [intros Hfit|done]. eapply integer_count; [done|]. len.
Qed.

Lemma exists_ok cmd : handler_ok cmd handle_exists.
Proof.
  intros req w Hw. rw /handle_exists. handle; auto with replies.
  eapply wp_mono; [apply count_loop; [intros; eapply wp_overflow; [by left|by apply safe_exists|done]|done]|].
  intros n w' [Hn Hw']. handle. split; [intros Hfit|done]. eapply integer_count; [done|]. len.
Qed.

Lemma expire_ok cmd : handler_ok cmd handle_expire.
Proof.
  intros req w Hw. rw /handle_expire. handle; auto with replies.
  split; [intros _|done]. case_match; auto with replies.
Qed.

Lemma pexpire_ok cmd : handler_ok cmd handle_pexpire.
Proof.
  intros req w Hw. rw /handle_pexpire. handle; auto with replies.
  split; [intros _|done]. case_match; auto with replies.
Qed.

Lemma ttl_ok cmd : handler_ok cmd handle_ttl.
Proof.
  intros req w Hw. rw /handle_ttl. handle; auto with replies. split; [intros _|done].
  apply reply_integer, in_i64_spec.
  match goal with H : in_i64 _ = true |- _ => apply in_i64_spec in H end.
  Z.quot_rem_to_equations. lia.
Qed.

Lemma pttl_ok cmd : handler_ok cmd handle_pttl.
Proof. intros req w Hw. rw /handle_pttl. handle; auto with replies. Qed.

Lemma incr_ok cmd : handler_ok cmd handle_incr.
Proof. intros req w Hw. rw /handle_incr. handle; simplify_eq; auto with replies. Qed.

Lemma incrby_ok cmd : handler_ok cmd handle_incrby.
Proof.
  intros req w Hw. rw /handle_incrby. handle; auto with replies.
  destruct (from_chars _ 0) as [r delta]. handle; auto with replies.
  destruct (match _ with Some _ => _ | None => _ end) as [r2 cur]. handle; auto with replies.
Qed.

Lemma keys_ok cmd : handler_ok cmd handle_keys.
Proof. intros req w Hw. rw /handle_keys. handle; auto with replies. Qed.

Lemma dbsize_ok cmd : handler_ok cmd handle_dbsize.
Proof.
  intros req w Hw. rw /handle_dbsize. handle. split; [intros _|done].
  apply reply_integer, in_i64_spec. rw /i64.
  pose proof (Z.mod_pos_bound (a + 2 ^ 63) (2 ^ 64)). lia.
Qed.

Lemma flushall_ok cmd : handler_ok cmd handle_flushall.
Proof. intros req w Hw. rw /handle_flushall. handle; auto with replies. Qed.

(** ** The table *)

Lemma registrations_ok : Forall (λ nh, handler_ok nh.1 nh.2) registrations.
Proof.
  repeat constructor; simpl; auto using ping_ok, set_ok, get_ok, del_ok, exists_ok, expire_ok,
    pexpire_ok, ttl_ok, pttl_ok, incr_ok, incrby_ok, keys_ok, dbsize_ok, flushall_ok.
Qed.

(** A registration never replaces an earlier one, and only registered handlers
    are found. *)
Lemma new_dispatcher_ok cmd h : new_dispatcher !! cmd = Some h → handler_ok cmd h.
Proof.
  rw /new_dispatcher. pose proof registrations_ok as Hr. revert Hr.
  assert (∀ c h', (∅ : Dispatcher (W:=W)) !! c = Some h' → handler_ok c h') as H0 by done. revert H0.
  generalize (∅ : Dispatcher (W:=W)). induction registrations as [|[n g] l IH]; intros d Hd Hr; [apply Hd|].
  apply Forall_cons in Hr as [Hg Hr]. simpl. apply IH; [|done]. intros c h'. rw /register_handler.
  unfold Dispatcher in *. destruct (d !! n); [apply Hd|].
  intros [[<- <-]|[_ Hc]]%lookup_insert_Some; [done|by eapply Hd].
Qed.

(** What [dispatch] does with a request it does not know. *)
Definition known (req : RespValue) : Prop :=
  ∀ name, array req !! 0%nat = Some name →
    is_Some (new_dispatcher !! (tolower <$> str name)) ∨
    RespParser.find_crlf (bs "unknown command '" ++ (tolower <$> str name) ++ bs "'") = None.

Lemma dispatch_request req w :
  st_inv w →
  wp (request_fault req) (dispatch new_dispatcher req)
    (λ r w', (zlen (array req) < 2 ^ 63 → known req → reply_ok r) ∧ st_inv w') w.
Proof.
  intros Hw. rw /dispatch. destruct (bool_decide _ || _) eqn:Hb.
  { handle. auto with replies. }
  apply orb_false_iff in Hb as [_ Hne%Nat.eqb_neq]. apply wp_bind, wp_arg; [lia|].
  intros v Hv. cbv zeta. destruct (new_dispatcher !! _) as [h|] eqn:Hh.
  - eapply wp_fault; [exact (new_dispatcher_ok _ h Hh req w Hw)|intros f Hf; right; exists v; exact (conj Hv Hf)|].
    intros r w' [? ?]. by split; [auto|].
  - handle. split; [|done]. intros _ Hk. constructor. destruct (Hk v Hv) as [[h Hh']|]; [|done].
    by rw Hh in Hh'.
Qed.

Lemma dispatch_ok req w :
  st_inv w →
  wp handler_fault (dispatch new_dispatcher req)
    (λ r w', (zlen (array req) < 2 ^ 63 → known req → reply_ok r) ∧ st_inv w') w.
Proof. intros Hw. eapply wp_fault; [by apply dispatch_request|apply request_handler|done]. Qed.

(** ** What the commands do *)

(** [run] evaluates a handler on a request of known shape. *)
Ltac run := repeat (wp_step; simpl).

Lemma table_set : new_dispatcher !! bs "set" = Some handle_set.
Proof. reflexivity. Qed.
Lemma table_get : new_dispatcher !! bs "get" = Some handle_get.
Proof. reflexivity. Qed.
Lemma table_del : new_dispatcher !! bs "del" = Some handle_del.
Proof. reflexivity. Qed.
Lemma table_incrby : new_dispatcher !! bs "incrby" = Some handle_incrby.
Proof. reflexivity. Qed.

#[local] Opaque new_dispatcher.

(** A name in any letter case selects its handler. *)
Lemma dispatch_cmd cmd h name args w :
  tolower <$> name = cmd → new_dispatcher !! cmd = Some h →
  dispatch new_dispatcher (command_value (name :: args)) w = h (command_value (name :: args)) w.
Proof. intros <- Hh. rw /dispatch /=. by rw /bind /lift /= Hh. Qed.

Lemma set_plain_run name k v w :
  st_inv w →
  wp no_fault (handle_set (command_value [name; k; v]))
    (λ r w', r = RespSerializer.ok ∧ st_inv w' ∧ st_view w' !! k = Some (v, -1)) w.
Proof.
  intros Hw. rw /handle_set /=. run. eapply wp_fault; [by apply law_set|by intros f [? _]|].
  intros _ w' (Hw' & m & _ & Hm). run. split_and!; [done..|]. by rw Hm lookup_insert_eq.
Qed.

Lemma get_run name k v x w :
  st_inv w → st_view w !! k = Some (v, x) → Spec.expired x (st_now w) = false →
  wp no_fault (handle_get (command_value [name; k]))
    (λ r w', r = RespSerializer.bulk v ∧ st_inv w' ∧ st_view w' = st_view w) w.
Proof.
  intros Hw Hk Hx. rw /handle_get /=. run. eapply wp_mono; [by apply law_get|].
  intros r w' (Hw' & _ & Hr). destruct (Hr v x Hk Hx) as [-> Hv]. by run.
Qed.

(** What EXISTS, SET NX and SET XX look at. *)
Definition live (w : W) (k : bytes) : bool :=
  match st_view w !! k with
  | Some (_, x) => negb (Spec.expired x (st_now w))
  | None => false
  end.

(** SET with one flag: [b] is NX, otherwise XX. *)
Lemma set_flag_run b name k v flag w :
  st_inv w → toupper <$> flag = (if b then bs "NX" else bs "XX") →
  wp no_fault (handle_set (command_value [name; k; v; flag]))
    (λ r w', st_inv w' ∧
       if Bool.eqb (live w k) b
       then r = RespSerializer.null_bulk ∧ st_view w' = st_view w
       else r = RespSerializer.ok ∧ st_view w' !! k = Some (v, -1)) w.
Proof.
  intros Hw Hflag. rw /handle_set /= Hflag.
  assert (∀ w1, st_inv w1 → wp no_fault (st_set k v (-1))
    (λ _ w', st_inv w' ∧ st_view w' !! k = Some (v, -1)) w1) as Hset.
  { intros w1 Hw1. eapply wp_fault; [by apply law_set|by intros f [? _]|].
    intros _ w' (Hw' & m & _ & Hm). split; [done|]. by rw Hm lookup_insert_eq. }
  destruct b; simpl; run; (eapply wp_mono; [by apply law_exists|]);
    intros r w' (Hw' & Hv & ->); fold (live w k); destruct (live w k); simpl; run;
    try (split_and!; [done|done|congruence]).
  all: eapply wp_mono; [by apply Hset|]; intros _ w2 [? ?]; by run.
Qed.

(** SET with EX, arguments evaluated from the left. *)
Lemma set_ex_run name k v ex arg_ secs w :
  st_inv w → left_to_right = true → toupper <$> ex = bs "EX" → (from_chars arg_ 0).2 = secs →
  wp overflow_only (handle_set (command_value [name; k; v; ex; arg_]))
    (λ r w', r = RespSerializer.ok ∧ st_inv w' ∧
       st_view w' !! k = Some (v, if 0 <? secs then st_now w + secs * 1000 else -1)) w.
Proof.
  intros Hw Hl Hex Hsecs. rw /handle_set /= Hex /=. rw /from_next_arg Hl /= Hsecs /checked.
  destruct (in_i64 (secs * 1000)); [|by run]. run. eapply wp_fault; [by apply law_set|by intros f [_ ?]|].
  intros _ w' (Hw' & m & _ & Hm). run. split_and!; [done..|]. rw Hm lookup_insert_eq.
  by destruct (Z.ltb_spec 0 secs), (Z.ltb_spec 0 (secs * 1000)); try lia.
Qed.

(** DEL: the loop removes every key it is given and counts the removed ones. *)
Lemma del_run name ks w :
  st_inv w → ks ≠ [] →
  wp no_fault (handle_del (command_value (name :: ks)))
    (λ r w', st_inv w' ∧ st_view w' = filter (λ kv, kv.1 ∉ ks) (st_view w) ∧
       r = RespSerializer.integer
             (Z.of_nat (base.size (st_view w)) - Z.of_nat (base.size (st_view w')))) w.
Proof.
  intros Hw Hne. rw /handle_del. destruct (Nat.ltb_spec (argc (command_value (name :: ks))) 2) as [Hlt|_].
  { destruct ks; [done|]. rw /argc /= in Hlt. lia. }
  apply wp_bind.
  change (drop 1 (array (command_value (name :: ks)))) with (bulk_value <$> ks).
  apply (wp_foldM _ _ (λ done n w', st_inv w' ∧
    st_view w' = filter (λ kv, kv.1 ∉ str <$> done) (st_view w) ∧
    n = Z.of_nat (base.size (st_view w)) - Z.of_nat (base.size (st_view w')))).
  - split_and!; [done| |lia]. symmetry. apply map_filter_id. set_solver.
  - intros done x todo n w' _ (Hw' & Hv & Hn). run. eapply wp_mono; [by apply law_del|].
    intros b w'' (Hw'' & -> & Hv''). run. split_and!; [done| |].
    + rw Hv'' Hv. apply map_eq. intros k. destruct (decide (k = str x)) as [->|Hk].
      * rw lookup_delete_eq. symmetry. apply map_lookup_filter_None. right. intros y _ Hy. apply Hy.
        simpl. rw fmap_app. set_solver.
      * rw lookup_delete_ne //. rw !map_lookup_filter. destruct (st_view w !! k); [|done]. simpl.
        f_equal. rw fmap_app. repeat case_guard; set_solver.
    + rw Hv'' Hn map_size_delete. destruct (st_view w' !! str x) eqn:Hx.
      * rw bool_decide_true //. assert (base.size (st_view w') ≠ 0)%nat; [|lia].
        intros He%map_size_empty_inv. by rw He lookup_empty in Hx.
      * rw bool_decide_false; [by intros [? ?]|]. simpl. lia.
  - intros n w' (Hw' & Hv & ->). run. split_and!; [done| |done]. rw Hv.
    by rw (command_args ks).
Qed.

(** INCRBY on a counter, present and live or not there. *)
Definition counter (w : W) (k : bytes) (cur : Z) : Prop :=
  st_view w !! k = None ∧ cur = 0 ∨
  ∃ v x p, st_view w !! k = Some (v, x) ∧ Spec.expired x (st_now w) = false ∧
    from_chars v 0 = ({| fc_ptr := p; fc_ec := errc_ok |}, cur).

Lemma incrby_run name k arg_ p delta cur w :
  st_inv w → from_chars arg_ 0 = ({| fc_ptr := p; fc_ec := errc_ok |}, delta) → counter w k cur →
  wp (λ f, in_i64 (cur + delta) = false ∧ f = Undef SignedOverflow)
    (handle_incrby (command_value [name; k; arg_]))
    (λ r w', in_i64 (cur + delta) = true ∧ r = RespSerializer.integer (cur + delta) ∧ st_inv w' ∧
       st_view w' !! k = Some (to_string (cur + delta), -1)) w.
Proof.
  intros Hw Harg Hc. rw /handle_incrby /=. run. rw Harg. rw bool_decide_false; [by intros []|]. run.
  eapply wp_fault; [by apply law_get|done|]. intros r w' (Hw' & Hnone & Hsome). run.
  assert (∃ p', match r with Some s => from_chars s 0
    | None => ({| fc_ptr := 0; fc_ec := errc_ok |}, 0) end = ({| fc_ptr := p'; fc_ec := errc_ok |}, cur)) as [p' ->].
  { destruct Hc as [[Hk ->]|(v & x & p' & Hk & Hx & Hv)].
    - destruct (Hnone Hk) as [-> _]. by eexists.
    - destruct (Hsome v x Hk Hx) as [-> _]. by eexists. }
  rw bool_decide_false; [by intros []|]. run. rw /checked.
  destruct (in_i64 (cur + delta)); [|done].
  run. eapply wp_fault; [by apply law_set|by intros f [? _]|].
  intros _ w'' (Hw'' & m & _ & Hm). run. split_and!; [done..|]. by rw Hm lookup_insert_eq.
Qed.


End Handlers.

(** ** The store keeps the promise *)

Section Discharge.
Context {plat : Store.Platform} {cc : Compiler}.
Import Store StoreInv StoreSpec.

Lemma sim_wp {A} (E : fault → Prop) w (m : M World A) m' Q :
  sim w m m' →
  match m' (abs w) with
  | Ret (r, a) => ∀ w', abs w' = a → store_ok (store w') → Q r w'
  | Fail f => overflow_only f → E f
  end → wp E m Q w.
Proof.
  rw /sim /wp. destruct (m w) as [[r w']|f]; [intros [-> Hok] HQ; by apply HQ|].
  intros [-> Hf] HE. by apply HE.
Qed.

Lemma abs_contents w a : abs w = a → contents (store w) = Spec.contents a.
Proof. by intros <-. Qed.

Lemma set_law k v ttl w :
  store_ok (store w) →
  wp (λ f, 0 < ttl ∧ overflow_only f) (set k v ttl) (λ _ w', store_ok (store w') ∧
    ∃ m, m ⊆ contents (store w) ∧
      contents (store w') = <[k := (v, if 0 <? ttl then clock w (ticks w) + ttl else -1)]> m) w.
Proof.
  intros Hok. rw /wp. destruct (set k v ttl w) as [[[] w']|f] eqn:Hset.
  - destruct (StoreThms.set_contents _ _ _ _ _ Hok Hset) as (x & m & Hok' & _ & _ & _ & Hc & -> & Hm).
    split; [done|]. exists m. split; [|done]. subst m.
    destruct (_ <=? _); [|done]. destruct (victim _); [apply delete_subseteq|done].
  - pose proof (set_sim w k v ttl Hok) as Hs. rw /sim Hset in Hs. destruct Hs as [Hs Hf].
    split; [|done]. destruct (Z.ltb_spec 0 ttl) as [|Hle]; [done|]. exfalso. revert Hs.
    rw /Spec.set /Spec.make_room /bind /gets /=. rw (proj2 (Z.ltb_ge _ _)) //.
    destruct (victim _); [|done]. by destruct (_ <=? _).
Qed.

Lemma get_law k w :
  store_ok (store w) →
  wp no_fault (get k) (λ r w', store_ok (store w') ∧
    (contents (store w) !! k = None → r = None ∧ contents (store w') = contents (store w)) ∧
    (∀ v x, contents (store w) !! k = Some (v, x) → Spec.expired x (clock w (ticks w)) = false →
       r = Some v ∧ contents (store w') = contents (store w))) w.
Proof.
  intros Hok. eapply sim_wp; [by apply get_sim|].
  rw /Spec.get /Spec.lookup /Spec.now /bind /gets /=.
  destruct (contents (store w) !! k) as [[v x]|]; simpl.
  - destruct (Spec.expired x (clock w (ticks w))) eqn:Hx; cbn [negb].
    + assert (∀ r w', store_ok (store w') → store_ok (store w') ∧
        (Some (v, x) = None → r = None ∧ contents (store w') = contents (store w)) ∧
        (∀ v' x', Some (v, x) = Some (v', x') → Spec.expired x' (clock w (ticks w)) = false →
          r = Some v' ∧ contents (store w') = contents (store w))) as Hdead.
      { intros r w' ?. split_and!; [done..|]. intros v' x' [= <- <-]. by rw Hx. }
      simpl. destruct (Spec.expired x (clock w (S (ticks w)))); intros w' _ Hok'; by apply Hdead.
    + intros w' Hw'%abs_contents Hok'. split_and!; [done..|]. by intros v' x' [= <- <-].
  - intros w' Hw' Hok'. split_and!; [done| |done]. intros _. split; [done|]. by apply abs_contents in Hw'.
Qed.

Lemma incr_law k w :
  store_ok (store w) →
  wp overflow_only (incr k) (λ r w', store_ok (store w') ∧
    match r with Some n => in_i64 n = true | None => True end) w.
Proof.
  intros Hok. eapply sim_wp; [by apply incr_sim|].
  rw /Spec.incr /Spec.lookup /Spec.now /bind /gets /lift /checked /=.
  destruct (contents (store w) !! k) as [[v x]|]; simpl; [destruct (Spec.expired x _); simpl|].
  2: destruct (from_chars v 0) as [r cur]; destruct (bool_decide _); simpl; [done|].
  all: match goal with |- context [in_i64 ?z] => destruct (in_i64 z) eqn:Hz end; simpl; by auto.
Qed.

Lemma sim_safe {A} w (m : M World A) m' :
  sim w m m' → wp overflow_only m (λ _ w', store_ok (store w')) w.
Proof. rw /sim /wp. destruct (m w) as [[a w']|f]; by intros []. Qed.

Lemma ttl_law k w :
  store_ok (store w) →
  wp overflow_only (ttl k) (λ r w', store_ok (store w') ∧ contents (store w') = contents (store w) ∧ in_i64 r = true) w.
Proof.
  intros Hok. eapply sim_wp; [by apply ttl_sim|].
  rw /Spec.ttl /Spec.lookup /Spec.now /bind /gets /lift /checked /=.
  destruct (contents (store w) !! k) as [[v x]|]; simpl; [|by intros w' Hw'%abs_contents].
  destruct (x <? 0); simpl; [by intros w' Hw'%abs_contents|].
  destruct (in_i64 _) eqn:Hz; simpl; [|done]. intros w' Hw'%abs_contents Hok'.
  split_and!; [done..|]. by destruct (0 <? _).
Qed.

Lemma keys_law pat w :
  store_ok (store w) →
  wp no_fault (keys pat) (λ ks w', store_ok (store w') ∧ contents (store w') = contents (store w) ∧ NoDup ks) w.
Proof.
  intros Hok. destruct (StoreThms.keys_spec pat w Hok) as (ks & ks' & Hk & _ & _ & Hnd). rw /wp. by rw Hk.
Qed.

#[export, refine] Instance store_safe : StoreSafe World := {|
  st_inv w := store_ok (store w);
  safe_incr := incr_law
|}.
Proof.
  all: intros; cbn [store_ops st_set st_get st_del st_exists st_ttl st_expire st_incr st_keys st_flush st_size].
  - by eapply sim_safe, set_sim.
  - by eapply sim_safe, get_sim.
  - by eapply sim_safe, del_sim.
  - by eapply sim_safe, exists_sim.
  - eapply wp_mono; [by apply ttl_law|]. by intros r w' (? & _ & ?).
  - by eapply sim_safe, expire_sim.
  - apply wp_faultless. eapply wp_mono; [by apply keys_law|]. by intros ks w' (? & _).
  - by eapply sim_safe, flush_sim.
  - by eapply sim_safe, size_sim.
Defined.

#[export, refine] Instance store_laws : StoreLaws World := {|
  st_view w := contents (store w);
  st_now w := clock w (ticks w);
  law_set := set_law;
  law_get := get_law;
  law_ttl := ttl_law;
  law_incr := incr_law;
  law_keys := keys_law
|}.
Proof.
  - intros k w Hok. eapply sim_wp; [by apply del_sim|]. rw /Spec.del /Spec.lookup /bind /gets /=.
    destruct (contents (store w) !! k) eqn:Hk; simpl; intros w' Hw'%abs_contents Hok'; (split; [done|]).
    + done.
    + split; [done|]. rw Hw' /= delete_id //.
  - intros k w Hok. eapply sim_wp; [by apply exists_sim|].
    rw /Spec.exists_ /Spec.lookup /Spec.now /bind /gets /=.
    destruct (contents (store w) !! k) as [[v x]|]; simpl; intros w' Hw'%abs_contents Hok'; done.
  - intros k ttl w Hok. eapply sim_wp; [by apply expire_sim|].
    rw /Spec.expire /Spec.lookup /Spec.now /bind /gets /lift /checked /=.
    destruct (contents (store w) !! k) as [[v x]|] eqn:Hk; simpl;
      [|intros w' Hw'%abs_contents; simpl in Hw'; by rw Hw'].
    destruct (Spec.expired x _); simpl; [intros w' Hw'%abs_contents; simpl in Hw'; by rw Hw'|].
    destruct (in_i64 _); simpl; [|done]. intros w' Hw'%abs_contents Hok'. split; [done|].
    rw Hw' /= dom_insert_lookup_L //.
  - intros w Hok. eapply sim_wp; [by apply flush_sim|]. by intros w' Hw'%abs_contents.
  - intros w Hok. split; [done|]. by apply contents_size.
Defined.

End Discharge.

(** ** Claims *)

#[local] Opaque new_dispatcher.

Section Claims.
Context {plat : Store.Platform} {cc : Compiler} {limits : VecLimits}.
Import Store StoreInv StoreSpec.

Lemma reply_framed r rest :
  reply_ok r → zlen (r ++ rest) < 2 ^ 61 →
  (∀ ks, r = RespSerializer.array ks → reservable (zlen ks)) →
  ∃ v, RespParser.parse (r ++ rest) = Ret (mkResult Ok v (zlen r)).
Proof.
  intros Hr Hfit Hks. destruct Hr as [s Hs|s Hs|n Hn|s| |ks].
  - eexists. apply parse_simple_frame; [done|]. rw /RespSerializer.simple in Hfit. len.
  - eexists. apply parse_error_frame; [done|]. rw /RespSerializer.error in Hfit. len.
  - eexists. by apply parse_integer_frame.
  - eexists. apply parse_bulk. lia.
  - eexists. apply parse_null_frame.
  - eexists. apply parse_array_run; [lia|]. by apply Hks.
Qed.

(** C13: whatever request a client sends (any shape, any number of arguments,
    any bytes), dispatching it on a well-formed store never indexes past the
    arguments, never throws, never breaks the store.  It stops only where an
    [int64_t] overflows, or if it is a SET that has an option EX or PX with
    another argument behind it and the compiler evaluates arguments from the
    right. *)
Theorem dispatch_safe req w :
  store_ok (store w) →
  match dispatch new_dispatcher req w with
  | Ret (_, w') => store_ok (store w')
  | Fail f => f = Undef SignedOverflow ∨
      (f = Undef BadPointer ∧ left_to_right = false ∧
       ∃ name args, array req = name :: args ∧ tolower <$> str name = bs "set" ∧ timed (drop 2 args) = true)
  end.
Proof.
  intros Hok. pose proof (dispatch_request req w Hok) as H. rw /wp in H.
  destruct (dispatch new_dispatcher req w) as [[r w']|f]; [by destruct H|].
  destruct H as [->|(name & Hn & [->|(? & Hs & Ht & ->)])]; [by left..|]. right. split_and!; [done..|].
  destruct (array req) as [|name' args]; [done|]. injection Hn as ->. by exists name, args.
Qed.

(** C20: the reply to a known command, and to an unknown one whose name has no
    CRLF, is exactly one RESP value: a client that parses the reply, whatever
    bytes follow it, consumes precisely the reply.  The client must be able to
    hold the reply: it is shorter than 2^61 bytes with what follows, and the
    vector for the keys of a KEYS reply can be allocated. *)
Theorem dispatch_reply_framed req w reply w' rest :
  store_ok (store w) → zlen (array req) < 2 ^ 63 → known req →
  dispatch new_dispatcher req w = Ret (reply, w') → zlen (reply ++ rest) < 2 ^ 61 →
  (∀ ks, reply = RespSerializer.array ks → reservable (zlen ks)) →
  ∃ v, RespParser.parse (reply ++ rest) = Ret (mkResult Ok v (zlen reply)).
Proof.
  intros Hok Hfit Hk Hd Hsz Hks. pose proof (dispatch_ok req w Hok) as H.
  rw /wp Hd in H. destruct H as [Hr _]. by apply reply_framed; [apply Hr|..].
Qed.

(** The error for an unknown command repeats the name as it is.  A name
    with a CRLF splits the reply: the client sees an error that ends at the
    CRLF, and behind it the rest of the name as if it were the next reply. *)
Theorem unknown_command_splits name args a b w :
  tolower <$> name = a ++ CRLF ++ b → new_dispatcher !! (a ++ CRLF ++ b) = None →
  CR ∉ a → zlen a < 2 ^ 61 →
  ∃ reply r, dispatch new_dispatcher (command_value (name :: args)) w = Ret (reply, w) ∧
    RespParser.parse reply = Ret r ∧ status r = Ok ∧
    drop (Z.to_nat (consumed r)) reply = b ++ bs "'" ++ CRLF.
Proof.
  intros Hn Hunk Ha Hfit. set (line := bs "ERR unknown command '" ++ a).
  set (rest := b ++ bs "'" ++ CRLF).
  assert (length line = 21 + length a)%nat as Hlen by (by rw length_app).
  exists (Byte.x2d :: line ++ CRLF ++ rest), (mkResult Ok (mkResp RError line 0 [] false) (1 + zlen line + 2)).
  split_and!; [|apply parse_error_line|done|].
  - rw /dispatch /bind /lift /= Hn Hunk /RespSerializer.error /line /rest /=.
    by rw -!app_assoc.
  - apply find_crlf_prefix; [by apply (bool_decide_unpack _)|]. by apply find_crlf_None.
  - lia.
  - cbn [consumed]. replace (Z.to_nat (1 + zlen line + 2)) with (S (length (line ++ CRLF))) by len.
    cbn [drop]. by rw app_assoc drop_app_length.
Qed.

(** SET, then GET.  Whatever the state, the letter case of the command
    names and the bytes of key and value, SET answers OK and GET the value. *)
Theorem set_get_commands n1 n2 k v w :
  store_ok (store w) → tolower <$> n1 = bs "set" → tolower <$> n2 = bs "get" →
  ∃ w' w'', dispatch new_dispatcher (command_value [n1; k; v]) w = Ret (RespSerializer.ok, w') ∧
    dispatch new_dispatcher (command_value [n2; k]) w' = Ret (RespSerializer.bulk v, w'').
Proof.
  intros Hok H1 H2.
  destruct (wp_Ret _ _ _ (set_plain_run (laws:=store_laws) n1 k v w Hok)) as (r & w' & Hs & -> & Hok' & Hv).
  destruct (wp_Ret _ _ _ (get_run (laws:=store_laws) n2 k v (-1) w' Hok' Hv ltac:(done))) as (r & w'' & Hg & -> & _).
  exists w', w''. by rw (dispatch_cmd _ _ _ _ _ H1 table_set) (dispatch_cmd _ _ _ _ _ H2 table_get).
Qed.

(** SET with NX writes only a key that is not live, SET with XX only one
    that is; otherwise the answer is null and the contents stay. *)
Theorem set_nx_xx_commands (nx : bool) name k v flag w :
  store_ok (store w) → tolower <$> name = bs "set" →
  toupper <$> flag = (if nx then bs "NX" else bs "XX") →
  ∃ r w', dispatch new_dispatcher (command_value [name; k; v; flag]) w = Ret (r, w') ∧
    if Bool.eqb (live w k) nx
    then r = RespSerializer.null_bulk ∧ contents (store w') = contents (store w)
    else r = RespSerializer.ok ∧ contents (store w') !! k = Some (v, -1).
Proof.
  intros Hok Hn Hflag.
  destruct (wp_Ret _ _ _ (set_flag_run (laws:=store_laws) nx name k v flag w Hok Hflag)) as (r & w' & Hs & _ & Hr).
  exists r, w'. by rw (dispatch_cmd _ _ _ _ _ Hn table_set).
Qed.

(** SET with EX, arguments evaluated from the left, sets the deadline that
    many seconds ahead; a number that is zero, negative or not a number sets no
    deadline at all. *)
Theorem set_ex_command name k v ex n w w' r :
  store_ok (store w) → left_to_right = true → tolower <$> name = bs "set" →
  toupper <$> ex = bs "EX" → 
  dispatch new_dispatcher (command_value [name; k; v; ex; n]) w = Ret (r, w') →
  r = RespSerializer.ok ∧
  contents (store w') !! k =
    Some (v, let secs := (from_chars n 0).2 in
             if 0 <? secs then clock w (ticks w) + secs * 1000 else -1).
Proof.
  intros Hok Hl Hn Hex. rw (dispatch_cmd _ _ _ _ _ Hn table_set).
  pose proof (set_ex_run (laws:=store_laws) name k v ex n _ w Hok Hl Hex eq_refl) as H. rw /wp in H.
  intros Hd. rw Hd in H. by destruct H as (-> & _ & Hv).
Qed.

(** Under a compiler that evaluates arguments from the right the same
    command is undefined: the range passed to [from_chars] starts in one
    string and ends in another. *)
Theorem set_ex_right_to_left name k v ex n w :
  left_to_right = false → tolower <$> name = bs "set" → toupper <$> ex = bs "EX" →
  dispatch new_dispatcher (command_value [name; k; v; ex; n]) w = Fail (Undef BadPointer).
Proof.
  intros Hl Hn Hex. rw (dispatch_cmd _ _ _ _ _ Hn table_set) /handle_set /bind /lift /= Hex /=.
  by rw /from_next_arg Hl.
Qed.

(** DEL removes exactly the keys it names and answers how many of them
    were there, a repeated key counted once. *)
Theorem del_command name ks w :
  store_ok (store w) → tolower <$> name = bs "del" → ks ≠ [] →
  ∃ w', dispatch new_dispatcher (command_value (name :: ks)) w =
      Ret (RespSerializer.integer (size_of (store w) - size_of (store w')), w') ∧
    store_ok (store w') ∧
    contents (store w') = filter (λ kv, kv.1 ∉ ks) (contents (store w)).
Proof.
  intros Hok Hn Hne.
  destruct (wp_Ret _ _ _ (del_run (laws:=store_laws) name ks w Hok Hne)) as (r & w' & Hs & Hok' & Hv & ->).
  exists w'. rw (dispatch_cmd _ _ _ _ _ Hn table_del) Hs !contents_size //.
Qed.

(** INCRBY answers the sum and stores its decimal text without a deadline,
    whatever deadline the counter had; a sum out of range is an overflow. *)
Theorem incrby_command name k n p delta cur w :
  store_ok (store w) → tolower <$> name = bs "incrby" →
  from_chars n 0 = ({| fc_ptr := p; fc_ec := errc_ok |}, delta) → counter w k cur →
  if in_i64 (cur + delta)
  then ∃ w', dispatch new_dispatcher (command_value [name; k; n]) w =
         Ret (RespSerializer.integer (cur + delta), w') ∧
       contents (store w') !! k = Some (to_string (cur + delta), -1)
  else dispatch new_dispatcher (command_value [name; k; n]) w = Fail (Undef SignedOverflow).
Proof.
  intros Hok Hn Harg Hc. rw (dispatch_cmd _ _ _ _ _ Hn table_incrby).
  pose proof (incrby_run (laws:=store_laws) name k n p delta cur w Hok Harg Hc) as H. rw /wp in H.
  destruct (handle_incrby _ w) as [[r w']|f].
  - destruct H as (-> & -> & _ & Hv). by exists w'.
  - by destruct H as [-> ->].
Qed.

End Claims.

(** ** Concrete runs *)

Module Demo.
Import Store StoreInv StoreSpec StoreThms.Demo.
#[local] Existing Instances demo_platform demo_compiler demo_limits.

Definition get_c : RespValue := command_value [bs "GeT"; bs "c"].

Lemma dispatch_safe_witness :
  match dispatch new_dispatcher get_c demo2 with
  | Ret (_, w') => store_ok (store w')
  | Fail f => f = Undef SignedOverflow ∨
      (f = Undef BadPointer ∧ left_to_right = false ∧
       ∃ name args, array get_c = name :: args ∧ tolower <$> str name = bs "set" ∧ timed (drop 2 args) = true)
  end.
Proof. apply (dispatch_safe get_c demo2 demo2_ok). Defined.

Lemma get_c_known : known (W:=World) get_c.
Proof. intros name [= <-]. left. exists handle_get. apply table_get. Qed.

Lemma get_c_run : dispatch new_dispatcher get_c demo2 = Ret (RespSerializer.bulk (bs "9x"), tick demo2).
Proof. vm_compute. reflexivity. Qed.

Lemma dispatch_reply_framed_witness :
  ∃ v, RespParser.parse (RespSerializer.bulk (bs "9x") ++ RespSerializer.ok) =
    Ret (mkResult Ok v (zlen (RespSerializer.bulk (bs "9x")))).
Proof.
  apply (dispatch_reply_framed get_c demo2 (RespSerializer.bulk (bs "9x")) (tick demo2) RespSerializer.ok demo2_ok);
    [reflexivity|apply get_c_known|apply get_c_run|reflexivity|].
  intros ks Hks. exfalso. pose proof (bulk_cons (bs "9x") []) as Hb. rw app_nil_r Hks array_concat in Hb.
  discriminate Hb.
Defined.

Lemma unknown_command_splits_witness :
  ∃ reply r, dispatch new_dispatcher (command_value [bs "X" ++ CRLF ++ bs "+ok" ++ CRLF]) demo2 = Ret (reply, demo2) ∧
    RespParser.parse reply = Ret r ∧ status r = Ok ∧
    drop (Z.to_nat (consumed r)) reply = (bs "+ok" ++ CRLF) ++ bs "'" ++ CRLF.
Proof.
  apply (unknown_command_splits _ [] (bs "x") (bs "+ok" ++ CRLF) demo2);
    [vm_compute; reflexivity|vm_compute; reflexivity| |reflexivity].
  apply (bool_decide_unpack _). exact I.
Defined.

Lemma set_get_commands_witness :
  ∃ w' w'', dispatch new_dispatcher (command_value [bs "Set"; bs "k"; CRLF]) demo2 = Ret (RespSerializer.ok, w') ∧
    dispatch new_dispatcher (command_value [bs "get"; bs "k"]) w' = Ret (RespSerializer.bulk CRLF, w'').
Proof. apply (set_get_commands (bs "Set") (bs "get") (bs "k") CRLF demo2 demo2_ok); reflexivity. Defined.

Lemma set_nx_xx_commands_witness :
  ∃ r w', dispatch new_dispatcher (command_value [bs "set"; bs "c"; bs "w"; bs "nx"]) demo2 = Ret (r, w') ∧
    if Bool.eqb (live demo2 (bs "c")) true
    then r = RespSerializer.null_bulk ∧ contents (store w') = contents (store demo2)
    else r = RespSerializer.ok ∧ contents (store w') !! bs "c" = Some (bs "w", -1).
Proof.
  apply (set_nx_xx_commands true (bs "set") (bs "c") (bs "w") (bs "nx") demo2 demo2_ok); reflexivity.
Defined.

Definition set_ex_world : World :=
  after (dispatch new_dispatcher (command_value [bs "set"; bs "c"; bs "w"; bs "ex"; bs "3"])) demo2.

Lemma set_ex_command_witness :
  RespSerializer.ok = RespSerializer.ok ∧
  contents (store set_ex_world) !! bs "c" =
    Some (bs "w", let secs := (from_chars (bs "3") 0).2 in
                  if 0 <? secs then clock demo2 (ticks demo2) + secs * 1000 else -1).
Proof.
  apply (set_ex_command (bs "set") (bs "c") (bs "w") (bs "ex") (bs "3") demo2 set_ex_world
    RespSerializer.ok demo2_ok); [reflexivity..|]. vm_compute. reflexivity.
Defined.

Lemma set_ex_right_to_left_witness :
  dispatch (new_dispatcher (cc := {| left_to_right := false |}))
    (command_value [bs "set"; bs "c"; bs "w"; bs "ex"; bs "3"]) demo2 = Fail (Undef BadPointer).
Proof.
  apply (set_ex_right_to_left (cc := {| left_to_right := false |})
    (bs "set") (bs "c") (bs "w") (bs "ex") (bs "3") demo2); reflexivity.
Defined.

Lemma del_command_witness :
  ∃ w', dispatch new_dispatcher (command_value [bs "DEL"; bs "c"; bs "c"; bs "z"]) demo2 =
      Ret (RespSerializer.integer (size_of (store demo2) - size_of (store w')), w') ∧
    store_ok (store w') ∧
    contents (store w') = filter (λ kv, kv.1 ∉ [bs "c"; bs "c"; bs "z"]) (contents (store demo2)).
Proof.
  apply (del_command (bs "DEL") [bs "c"; bs "c"; bs "z"] demo2 demo2_ok); [reflexivity|discriminate].
Defined.

Lemma incrby_command_witness :
  ∃ w', dispatch new_dispatcher (command_value [bs "incrby"; bs "c"; bs "-4"]) demo2 =
      Ret (RespSerializer.integer 5, w') ∧
    contents (store w') !! bs "c" = Some (to_string 5, -1).
Proof.
  apply (incrby_command (bs "incrby") (bs "c") (bs "-4") 2 (-4) 9 demo2 demo2_ok); [reflexivity..|].
  right. exists (bs "9x"), (-1), 1%nat. split_and!; vm_compute; reflexivity.
Defined.
End Demo.

End CommandsThms.
