(* ===== verification/Persistence.v ===== *)
(** Persistence: src/persistence/Aof.{hpp,cpp} and Rdb.{hpp,cpp}.

    The disk maps paths to file contents.  What the operating system decides
    (whether a file opens, how many bytes of a write it takes, whether a rename
    succeeds) is a parameter, [Io]; so are the bytes of an uninitialised stack
    buffer, which [Rdb::load] uses when a read comes up short.  Log output has
    no counterpart here, and a string as long as the file says is assumed to
    find its memory. *)

From S2P Require Import Prelude Lru Storage Resp Commands.

Definition Disk : Type := gmap bytes bytes.

Class Io := {
  (** [open] of a path for writing *)
  can_open : Disk → bytes → bool;
  (** how many of the bytes handed to the file reach it; fewer than all set
      the stream's badbit *)
  accepted : Disk → bytes → bytes → nat;
  (** whether a [write] that leaves these bytes in the stream's buffer hands
      them to the file at once *)
  spills : bytes → bool;
  (** [std::rename] *)
  can_rename : Disk → bytes → bytes → bool;
  (** byte [i] of the uninitialised buffer of the [n]th short read *)
  stack_byte : nat → nat → Byte.byte
}.

Module Aof.

(** [file_]: a [std::ofstream]; [buf] are the characters in its buffer. *)
Record Aof := mkAof {
  path_ : bytes;
  is_open : bool;
  bad : bool;
  buf : bytes
}.

(** [Aof::Aof] *)
Definition new (path : bytes) : Aof := mkAof path false false [].

Section Ops.
Context {io : Io}.

(** [Aof::open]: [std::ios::app] creates the file or keeps what it holds; a
    successful [open] clears the state of the stream. *)
Definition open (a : Aof) (d : Disk) : bool * Aof * Disk :=
  if can_open d (path_ a) && negb (is_open a)
  then (true, mkAof (path_ a) true false (buf a),
        <[path_ a := default [] (d !! path_ a)]> d)
  else (false, mkAof (path_ a) (is_open a) true (buf a), d).

(** The buffer goes to the file: [file_.flush()]. *)
Definition flush (a : Aof) (d : Disk) : Aof * Disk :=
  if bad a || negb (is_open a) then (a, d) else
  let n := accepted d (path_ a) (buf a) in
  (mkAof (path_ a) (is_open a) (Nat.ltb n (length (buf a))) [],
   <[path_ a := default [] (d !! path_ a) ++ take n (buf a)]> d).

(** The log record of a command. *)
Definition wire (cmd : RespValue) : bytes :=
  foldl (λ w arg, w ++ RespSerializer.bulk (str arg))
    (bs "*" ++ to_string (zlen (array cmd)) ++ CRLF) (array cmd).

(** [Aof::append]: the stream is tested between [write] and [flush]; writing
    to a file that is not open fails. *)
Definition append (cmd : RespValue) (a : Aof) (d : Disk) : bool * Aof * Disk :=
  if bool_decide (type cmd ≠ Array) then (false, a, d) else
  let w := wire cmd in
  if bad a || negb (is_open a)
  then (false, mkAof (path_ a) (is_open a) true (buf a), d)
  else
    let a1 := mkAof (path_ a) true false (buf a ++ w) in
    let '(a2, d2) := if spills (buf a1) then flush a1 d else (a1, d) in
    if bad a2 then (false, a2, d2) else
    let '(a3, d3) := flush a2 d2 in
    (true, a3, d3).

(** [Aof::close] *)
Definition close (a : Aof) (d : Disk) : Aof * Disk :=
  if is_open a then
    let '(a', d') := flush a d in (mkAof (path_ a') false (bad a') (buf a'), d')
  else (a, d).

End Ops.

Section Replay.
Context {W : Type} {limits : VecLimits}.

(** The loop of [Aof::replay] over the bytes still in [view]. *)
Fixpoint replay_loop (fuel : nat) (executor : RespValue → M W unit) (view : bytes) (count : Z)
    : M W Z :=
  match view with
  | [] => ret count
  | _ =>
      match fuel with
      | O => fail OutOfFuel
      | S fuel' =>
          let! res := lift (RespParser.parse view) in
          match status res with
          | Incomplete => ret count
          | Error => ret count
          | Ok =>
              executor (rvalue res) ;;;
              replay_loop fuel' executor (drop (Z.to_nat (consumed res)) view) (count + 1)
          end
      end
  end.

(** [Aof::replay]; every round consumes a byte, so the file's length is enough
    fuel. *)
Definition replay (a : Aof) (d : Disk) (executor : RespValue → M W unit) : M W Z :=
  match d !! path_ a with
  | None => ret 0
  | Some content => replay_loop (length content) executor content 0
  end.

End Replay.
End Aof.

Module Rdb.

Definition MAGIC : bytes := bs "CACHDB".
Definition VERSION : Byte.byte := Byte.x01.
Definition EOF_MARKER : Z := 4294967295.

(** [write_u32]: big-endian, of a value already cut to 32 bits. *)
Definition write_u32 (v : Z) : bytes :=
  [byte_of (Z.shiftr v 24); byte_of (Z.shiftr v 16); byte_of (Z.shiftr v 8); byte_of v].

(** [write_i64]: [b[7]] first, each time the low byte of what is left. *)
Fixpoint write_be (n : nat) (u : Z) : bytes :=
  match n with
  | O => []
  | S n' => write_be n' (Z.shiftr u 8) ++ [byte_of (Z.land u 255)]
  end.
Definition write_i64 (v : Z) : bytes := write_be 8 (u64 v).

(** The callback of [Rdb::save]. *)
Definition entry_record (key val : bytes) (exp : Z) : bytes :=
  write_u32 (u32 (zlen key)) ++ key ++ write_u32 (u32 (zlen val)) ++ val ++ write_i64 exp.

(** [std::ifstream]: what is left of the file, the state, the short reads so far. *)
Record ifstream := mkIn { rest : bytes; good : bool; shorts : nat }.

Section Ops.
Context {plat : Store.Platform} {io : Io}.

(** [path_ + ".tmp"] *)
Definition tmp_path (path : bytes) : bytes := path ++ bs ".tmp".

(** [Rdb::save] once the records are in the stream: the end marker, the check of
    the stream after [close], the rename. *)
Definition commit (path content : bytes) (d : Disk) : bool * Disk :=
  let tmp := tmp_path path in
  let content := content ++ write_u32 EOF_MARKER in
  let n := accepted d tmp content in
  let d1 := <[tmp := take n content]> d in
  if Nat.ltb n (length content) then (false, d1) else
  if negb (can_rename d1 tmp path) then (false, d1) else
  (true, <[path := content]> (delete tmp d1)).

(** [Rdb::save] *)
Definition save (path : bytes) (d : Disk) : M Store.World (bool * Disk) :=
  if negb (can_open d (tmp_path path)) then ret (false, d) else
  let! content := Store.for_each (λ f key val exp, f ++ entry_record key val exp)
                    (MAGIC ++ [VERSION]) in
  ret (commit path content d).

(** [f.read(buf, n)], with the bytes that [buf] keeps where the file ends: the
    read sets failbit when it comes up short, and does nothing on a stream that
    already failed. *)
Definition read (n : nat) (old : nat → Byte.byte) (f : ifstream) : bytes * ifstream :=
  let got := if good f then take n (rest f) else [] in
  if Nat.ltb (length got) n
  then (got ++ (old <$> seq (length got) (n - length got)), mkIn [] false (S (shorts f)))
  else (got, mkIn (drop n (rest f)) (good f) (shorts f)).

Definition read_u32 (f : ifstream) : Z * ifstream :=
  let '(b, f') := read 4 (stack_byte (shorts f)) f in
  let at_ i := byte_val (b !!! i) in
  (Z.lor (Z.lor (Z.lor (Z.shiftl (at_ 0%nat) 24) (Z.shiftl (at_ 1%nat) 16))
            (Z.shiftl (at_ 2%nat) 8)) (at_ 3%nat), f').

Definition read_i64 (f : ifstream) : Z * ifstream :=
  let '(b, f') := read 8 (stack_byte (shorts f)) f in
  (i64 (foldl (λ u c, u64 (Z.lor (Z.shiftl u 8) (byte_val c))) 0 b), f').

(** [std::string s(len, '\0'); f.read(s.data(), len)] *)
Definition read_string (len : Z) (f : ifstream) : bytes * ifstream :=
  read (Z.to_nat len) (λ _, Byte.x00) f.

(** [f.get()] *)
Definition get (f : ifstream) : ifstream :=
  match rest f with
  | _ :: r => if good f then mkIn r true (shorts f) else mkIn [] false (shorts f)
  | [] => mkIn [] false (shorts f)
  end.

(** The loop of [Rdb::load]. *)
Fixpoint load_loop (fuel : nat) (now : Z) (f : ifstream) (count : Z) : M Store.World Z :=
  if negb (good f) then ret count else
  match fuel with
  | O => fail OutOfFuel
  | S fuel' =>
      let '(klen, f1) := read_u32 f in
      if klen =? EOF_MARKER then ret count else
      let '(key, f2) := read_string klen f1 in
      let '(vlen, f3) := read_u32 f2 in
      let '(val, f4) := read_string vlen f3 in
      let '(exp, f5) := read_i64 f4 in
      if (0 <? exp) && (exp <=? now) then load_loop fuel' now f5 count else
      let! ttl_ms := (if 0 <? exp then lift (checked (exp - now)) else ret (-1)) in
      Store.set key val ttl_ms ;;;
      load_loop fuel' now f5 (count + 1)
  end.

(** [Rdb::load]; a round reads sixteen bytes or fails the stream. *)
Definition load (path : bytes) (d : Disk) : M Store.World Z :=
  match d !! path with
  | None => ret 0
  | Some content =>
      let '(magic, f1) := read 6 (stack_byte 0) (mkIn content true 0) in
      if negb (bool_decide (magic = MAGIC)) then ret 0 else
      let f2 := get f1 in
      let! now_ms_val := Store.now_ms in
      load_loop (S (length content)) now_ms_val f2 0
  end.

End Ops.
End Rdb.
