(* ===== verification/PersistenceThms.v ===== *)
(** What persistence guarantees: a log replays the commands it holds and only
    those, a snapshot is written atomically and reads back. *)

From S2P Require Import Prelude Lru Storage StorageInv StorageSpec StorageThms Resp RespThms Commands CommandsThms Persistence.

Module PersistenceThms.
Import RespThms.

(** ** The log *)

Section Log.
Context {W : Type} {limits : VecLimits}.

Lemma wire_array cmd : Aof.wire cmd = RespSerializer.array (str <$> array cmd).
Proof.
  rw /Aof.wire /RespSerializer.array length_fmap.
  generalize (bs "*" ++ to_string (zlen (array cmd)) ++ CRLF).
  induction (array cmd) as [|a l IH]; intros acc; [done|]. rw fmap_cons. simpl. apply IH.
Qed.

(** A byte stream of commands. *)
Definition stream (cmds : list (list bytes)) : bytes := concat (RespSerializer.array <$> cmds).

Lemma replay_step fuel (executor : RespValue → M W unit) view count :
  view ≠ [] →
  Aof.replay_loop (S fuel) executor view count =
    let! res := lift (RespParser.parse view) in
    match status res with
    | Incomplete => ret count
    | Error => ret count
    | Ok => executor (rvalue res) ;;;
            Aof.replay_loop fuel executor (drop (Z.to_nat (consumed res)) view) (count + 1)
    end.
Proof. by destruct view. Qed.

(** Executing commands one after the other. *)
Definition execute (executor : RespValue → M W unit) (cmds : list (list bytes)) : M W unit :=
  foldM (λ _ args, executor (command_value args)) cmds tt.

Lemma replay_run executor args n : 
  reservable (zlen args) → (n < length (RespSerializer.array args))%nat →
  zlen (RespSerializer.array args) < 2 ^ 62 → ∀ cmds fuel count w,
  Forall (λ c, reservable (zlen c)) cmds →
  zlen (stream cmds ++ take n (RespSerializer.array args)) < 2 ^ 62 →
  (length (stream cmds ++ take n (RespSerializer.array args)) ≤ fuel)%nat →
  Aof.replay_loop fuel executor (stream cmds ++ take n (RespSerializer.array args)) count w =
  bind (execute executor cmds) (λ _, ret (count + zlen cmds)) w.
Proof.
  intros Hres Hn Hfit. set (tail := take n (RespSerializer.array args)).
  induction cmds as [|c cmds IH]; intros fuel count w Hall Hsz Hfuel.
  { change (stream [] ++ tail) with tail in *. simpl. rw Z.add_0_r {1}/bind /=.
    destruct (decide (tail = [])) as [->|Hne]; [by destruct fuel|].
    destruct fuel as [|fuel]; [destruct tail; simpl in *; [done|lia]|].
    rw replay_step // /bind /lift. by rw parse_array_cut. }
  apply Forall_cons in Hall as [Hc Hall].
  change (stream (c :: cmds)) with (RespSerializer.array c ++ stream cmds) in *.
  rw -app_assoc in Hsz. rw -app_assoc in Hfuel. rw -app_assoc.
  assert (0 < length (RespSerializer.array c))%nat as Hpos by (rw array_concat /=; lia).
  rw length_app in Hfuel. destruct fuel as [|fuel]; [lia|].
  rw replay_step; [intros [Hnil _]%app_nil; by rw Hnil in Hpos; inversion Hpos|].
  rw {1}/bind /lift parse_array_run; [done..|].
  cbn [status rvalue consumed]. rw Nat2Z.id drop_app_length /execute. cbn [foldM].
  rw /bind. destruct (executor (command_value c) w) as [[[] w']|f]; [|done].
  rw IH; [done|len|lia|].
  rw /bind /execute. destruct (foldM _ cmds tt w') as [[[] w'']|f]; [|done].
  rw /ret length_cons. do 2 f_equal. lia.
Qed.

(** Appending commands one after the other. *)
Fixpoint append_all `{!Io} (cmds : list (list bytes)) (a : Aof.Aof) (d : Disk) : bool * Aof.Aof * Disk :=
  match cmds with
  | [] => (true, a, d)
  | c :: cmds' =>
      let '(ok, a1, d1) := Aof.append (command_value c) a d in
      let '(oks, a2, d2) := append_all cmds' a1 d1 in
      (ok && oks, a2, d2)
  end.

(** The stream between two appends: open, good, nothing buffered. *)
Definition ready (path : bytes) : Aof.Aof := Aof.mkAof path true false [].

(** A disk that takes every byte written to [path]. *)
Definition healthy `{!Io} (path : bytes) : Prop := ∀ d data, accepted d path data = length data.

Lemma append_ready `{!Io} path c d old :
  healthy path → d !! path = Some old →
  ∃ d', Aof.append (command_value c) (ready path) d = (true, ready path, d') ∧
    d' !! path = Some (old ++ RespSerializer.array c).
Proof.
  intros Hh Hd. rw /Aof.append /ready. cbn [type command_value Aof.bad Aof.is_open Aof.buf Aof.path_ app orb negb].
  rw bool_decide_false; [by intros []|]. rw wire_array command_args.
  assert (∀ b d0 o, d0 !! path = Some o → Aof.flush (Aof.mkAof path true false b) d0 =
    (ready path, <[path := o ++ b]> d0)) as Hflush.
  { intros b d0 o Ho. rw /Aof.flush /= Hh Nat.ltb_irrefl take_ge // Ho //. }
  destruct (spills _); rw (Hflush _ d old) //; cbn [Aof.bad ready].
  - rw (Hflush [] _ (old ++ RespSerializer.array c)); [by rw lookup_insert_eq|].
    eexists. split; [done|]. by rw lookup_insert_eq app_nil_r.
  - eexists. split; [done|]. by rw lookup_insert_eq.
Qed.

Lemma append_all_ready `{!Io} path cmds : ∀ d old,
  healthy path → d !! path = Some old →
  ∃ d', append_all cmds (ready path) d = (true, ready path, d') ∧
    d' !! path = Some (old ++ stream cmds).
Proof.
  induction cmds as [|c cmds IH]; intros d old Hh Hd; simpl.
  { exists d. by rw app_nil_r. }
  destruct (append_ready path c d old Hh Hd) as (d1 & -> & Hd1).
  destruct (IH d1 _ Hh Hd1) as (d2 & -> & Hd2). exists d2. split; [done|].
  by rw Hd2 -app_assoc.
Qed.

(** ** Claims: the log *)

(** C24: a log that ends in a torn record, cut at any byte, replays exactly the
    complete records before it, in order, each once, and reports their number. *)
Theorem aof_replays_torn_log (executor : RespValue → M W unit) a d cmds last n w :
  d !! Aof.path_ a = Some (stream cmds ++ take n (RespSerializer.array last)) →
  (n < length (RespSerializer.array last))%nat →
  zlen (stream cmds ++ RespSerializer.array last) < 2 ^ 62 →
  Forall (λ c, reservable (zlen c)) (last :: cmds) →
  Aof.replay a d executor w =
    (let! _ := execute executor cmds in ret (zlen cmds)) w.
Proof.
  intros Hd Hn Hfit [Hl Hall]%Forall_cons. rw /Aof.replay Hd.
  assert (length (take n (RespSerializer.array last)) ≤ length (RespSerializer.array last))%nat
    by (rw length_take; lia).
  apply replay_run; try done; rw !length_app in Hfit |- *; lia.
Qed.

(** What was appended is what is replayed.  On a disk that takes all
    bytes, every append reports success, and a later process that replays the
    log executes the same commands in the same order. *)
Theorem aof_append_then_replay `{!Io} (executor : RespValue → M W unit) path cmds d w :
  healthy path → d !! path = Some [] → zlen (stream cmds) < 2 ^ 61 →
  reservable 0 → Forall (λ c, reservable (zlen c)) cmds →
  ∃ a' d', append_all cmds (ready path) d = (true, a', d') ∧
    Aof.replay (Aof.new path) d' executor w =
      (let! _ := execute executor cmds in ret (zlen cmds)) w.
Proof.
  intros Hh Hd Hfit H0 Hall. destruct (append_all_ready path cmds d [] Hh Hd) as (d' & Happ & Hd').
  exists (ready path), d'. split; [done|]. rw /Aof.replay /= Hd' /=.
  pose proof (replay_run executor [] 0 H0) as Hrun. simpl in Hrun.
  rw -{1 2}(app_nil_r (stream cmds)). apply Hrun; [vm_compute; lia|done|done|..]; rw app_nil_r; lia.
Qed.

(** An append does not look at the result of its flush.  When the record
    fits the stream's buffer and the disk then refuses it, the append still
    reports success although not one byte was written. *)
Theorem aof_append_reports_lost_write `{!Io} cmd path d :
  type cmd = Array → spills (Aof.wire cmd) = false → accepted d path (Aof.wire cmd) = 0%nat →
  ∃ a' d', Aof.append cmd (ready path) d = (true, a', d') ∧
    d' !! path = Some (default [] (d !! path)).
Proof.
  intros Ht Hsp Hacc. rw /Aof.append /ready Ht /=. rw Hsp. cbn [Aof.bad].
  rw /Aof.flush /= Hacc. do 2 eexists. split; [done|]. by rw lookup_insert_eq app_nil_r.
Qed.

End Log.

(** ** Big-endian numbers *)

Lemma lor_shift a k b : 0 ≤ k → 0 ≤ b < 2 ^ k → Z.lor (Z.shiftl a k) b = a * 2 ^ k + b.
Proof.
  intros Hk Hb. rw -Z.shiftl_mul_pow2 //.
  assert (Z.land (Z.shiftl a k) b = 0) as H0.
  { destruct (decide (b = 0)) as [->|Hb0]; [by rw Z.land_0_r|].
    apply Z.bits_inj'. intros i Hi. rw Z.land_spec Z.bits_0 Z.shiftl_spec //.
    destruct (Z.lt_ge_cases i k); [by rw Z.testbit_neg_r; [lia|]|].
    rw (Z.bits_above_log2 b i); [lia| |by rw andb_false_r].
    assert (Z.log2 b < k) by (apply Z.log2_lt_pow2; [lia|apply Hb]). lia. }
  by rw Z.add_nocarry_lxor // Z.lxor_lor.
Qed.

Lemma write_be_fold n : ∀ u v,
  0 ≤ u → foldl (λ u c, u64 (Z.lor (Z.shiftl u 8) (byte_val c))) (u64 u) (Rdb.write_be n v) =
    u64 (u * 256 ^ Z.of_nat n + v mod 256 ^ Z.of_nat n).
Proof.
  induction n as [|n IH]; intros u v Hu.
  { simpl. change (256 ^ 0) with 1. rw Z.mod_1_r. f_equal. lia. }
  cbn [Rdb.write_be]. rw foldl_app IH //. cbn [foldl].
  pose proof (byte_val_range (byte_of (Z.land v 255))).
  rw lor_shift; [lia|lia|]. rw byte_val_of (Z.land_ones v 8) // Z.shiftr_div_pow2 //.
  rw Nat2Z.inj_succ Z.pow_succ_r; [lia|]. rw (Z.mul_comm 256) (Z.mul_comm _ 256) Z.rem_mul_r; [done|lia|].
  change (2 ^ 8) with 256. rw Zmod_mod. set (q := (v / 256) mod _). set (r := v mod 256).
  rw /u64 -Zplus_mod_idemp_l Zmult_mod_idemp_l Zplus_mod_idemp_l. f_equal. lia.
Qed.

Lemma i64_u64 v : in_i64 v = true → i64 (u64 v) = v.
Proof.
  intros Hv%in_i64_spec. rw /i64 /u64 Zplus_mod_idemp_l Z.mod_small; lia.
Qed.

Section Snapshot.
Context {plat : Store.Platform} {io : Io}.
Import Store StoreInv StoreSpec.

Lemma read_exact n old a b s :
  length a = n → Rdb.read n old (Rdb.mkIn (a ++ b) true s) = (a, Rdb.mkIn b true s).
Proof.
  intros <-. rw /Rdb.read /= take_app_length Nat.ltb_irrefl drop_app_length //.
Qed.

Lemma read_u32_write v b s :
  0 ≤ v < 2 ^ 32 → Rdb.read_u32 (Rdb.mkIn (Rdb.write_u32 v ++ b) true s) = (v, Rdb.mkIn b true s).
Proof.
  intros Hv. rw /Rdb.read_u32 read_exact //. f_equal.
  rw /Rdb.write_u32 /= !byte_val_of !Z.shiftr_div_pow2 //.
  change (2 ^ 24) with 16777216. change (2 ^ 16) with 65536. change (2 ^ 8) with 256.
  set (b0 := (v / 16777216) mod 256). set (b1 := (v / 65536) mod 256).
  set (b2 := (v / 256) mod 256). set (b3 := v mod 256).
  assert (0 ≤ b0 < 256 ∧ 0 ≤ b1 < 256 ∧ 0 ≤ b2 < 256 ∧ 0 ≤ b3 < 256) as (? & ? & ? & ?)
    by (split_and!; apply Z.mod_pos_bound; lia).
  assert (b0 * 16777216 + b1 * 65536 + b2 * 256 + b3 = v) as Hsum.
  { rw /b0 /b1 /b2 /b3. change (2 ^ 32) with 4294967296 in Hv. Z.div_mod_to_equations. lia. }
  rw (Z.shiftl_mul_pow2 b1 16) // (Z.shiftl_mul_pow2 b2 8) //.
  rw (lor_shift b0 24); [lia|lia|].
  replace (b0 * 2 ^ 24 + b1 * 2 ^ 16) with (Z.shiftl (b0 * 256 + b1) 16) by (rw Z.shiftl_mul_pow2 //; lia).
  rw lor_shift; [lia|lia|].
  replace ((b0 * 256 + b1) * 2 ^ 16 + b2 * 2 ^ 8) with (Z.shiftl (b0 * 65536 + b1 * 256 + b2) 8)
    by (rw Z.shiftl_mul_pow2 //; lia).
  rw lor_shift; lia.
Qed.

Lemma length_write_be n v : length (Rdb.write_be n v) = n.
Proof. revert v. induction n as [|n IH]; intros v; [done|]. simpl. rw length_app IH /=. lia. Qed.

Lemma read_i64_write v b s :
  in_i64 v = true → Rdb.read_i64 (Rdb.mkIn (Rdb.write_i64 v ++ b) true s) = (v, Rdb.mkIn b true s).
Proof.
  intros Hv. rw /Rdb.read_i64 read_exact; [by rw length_write_be|]. f_equal.
  rw /Rdb.write_i64 -{2}(i64_u64 v Hv). f_equal.
  rw -{1}(u64_small 0) // write_be_fold // /u64.
  change (256 ^ Z.of_nat 8) with (2 ^ 64). by rw Z.mul_0_l !Zmod_mod.
Qed.

Lemma read_string_exact str b s :
  Rdb.read_string (zlen str) (Rdb.mkIn (str ++ b) true s) = (str, Rdb.mkIn b true s).
Proof. by rw /Rdb.read_string read_exact; [rw Nat2Z.id|]. Qed.

(** ** Reading a snapshot back *)

(** An entry the format can hold. *)
Definition storable (kvx : bytes * (bytes * Z)) : Prop :=
  zlen kvx.1 < 2 ^ 32 - 1 ∧ zlen kvx.2.1 < 2 ^ 32 ∧ in_i64 kvx.2.2 = true.

Definition record_of (kvx : bytes * (bytes * Z)) : bytes :=
  Rdb.entry_record kvx.1 kvx.2.1 kvx.2.2.

(** What [load] does with one entry. *)
Definition restore (now count : Z) (kvx : bytes * (bytes * Z)) : M World Z :=
  let '(key, (val, exp)) := kvx in
  if (0 <? exp) && (exp <=? now) then ret count else
  let! ttl_ms := (if 0 <? exp then lift (checked (exp - now)) else ret (-1)) in
  set key val ttl_ms ;;;
  ret (count + 1).

Lemma load_run now tail L : ∀ fuel count s w,
  Forall storable L → (length L < fuel)%nat →
  Rdb.load_loop fuel now (Rdb.mkIn (concat (record_of <$> L) ++ Rdb.write_u32 Rdb.EOF_MARKER ++ tail) true s)
    count w = foldM (restore now) L count w.
Proof.
  induction L as [|[k [v x]] L IH]; intros fuel count s w HL Hf; (destruct fuel as [|fuel]; [simpl in Hf; lia|]).
  { change (concat (record_of <$> []) ++ (Rdb.write_u32 Rdb.EOF_MARKER ++ tail)) with (Rdb.write_u32 Rdb.EOF_MARKER ++ tail). cbn [Rdb.load_loop Rdb.good negb].
    by rw read_u32_write. }
  apply Forall_cons in HL as [(Hk & Hv & Hx) HL]. simpl in Hk, Hv, Hx, Hf.
  rw fmap_cons. cbn [concat foldM]. rw /record_of /Rdb.entry_record -!app_assoc.
  cbn [fst snd Rdb.load_loop Rdb.good negb].
  rw /u32 !Z.mod_small; [lia|lia|]. rw read_u32_write; [lia|].
  rw (proj2 (Z.eqb_neq _ _)); [rw /Rdb.EOF_MARKER; lia|].
  rw read_string_exact read_u32_write; [lia|]. rw read_string_exact read_i64_write //.
  rw /restore -/(restore now). destruct ((0 <? x) && (x <=? now)); [apply IH; [done|lia]|].
  rw /bind. set (ttl := (if 0 <? x then lift (checked (x - now)) else ret (-1)) w).
  destruct ttl as [[ttl' w1]|f]; [|done].
  destruct (set k v ttl' w1) as [[[] w2]|f]; [|done]. apply IH; [done|lia].
Qed.

(** ** What loading does to the store *)

Lemma set_succeeds w key val ttl :
  store_ok (store w) → (0 < ttl → in_i64 (clock w (ticks w) + ttl) = true) →
  ∃ w', set key val ttl w = Ret (tt, w').
Proof.
  intros Hok Hin. destruct (set key val ttl w) as [[[] w']|f] eqn:Hset; [by eexists|].
  exfalso. pose proof (set_sim w key val ttl Hok) as Hs. rw /sim Hset in Hs. destruct Hs as [Hs _]. revert Hs.
  rw /Spec.set /Spec.make_room /bind /gets /=.
  assert (∀ w1, Spec.clock w1 = clock w → Spec.ticks w1 = ticks w →
    (if 0 <? ttl then let! t := Spec.now in let! x := lift (checked (t + ttl)) in Spec.put key val x
     else Spec.put key val (-1)) w1 ≠ Fail f) as Hgo.
  { intros w1 Hc Ht. destruct (Z.ltb_spec 0 ttl) as [Hpos|]; [|done].
    by rw /bind /Spec.now /lift /checked Hc Ht Hin. }
  destruct (victim _); [destruct (_ <=? _)|]; by apply Hgo.
Qed.

(** What a loaded entry becomes: its time to live is counted from the reading at
    the beginning of the load, and added [d] ms later. *)
Definition later (d : Z) (vx : bytes * Z) : bytes * Z := (vx.1, if 0 <? vx.2 then vx.2 + d else -1).

Definition dead (now : Z) (kvx : bytes * (bytes * Z)) : bool :=
  (0 <? kvx.2.2) && (kvx.2.2 <=? now).

(** [delay] says when each key is restored. *)
Definition restored (delay : bytes → Z) (now : Z) (m : gmap bytes (bytes * Z)) (kvx : bytes * (bytes * Z)) :
    gmap bytes (bytes * Z) :=
  if dead now kvx then m else <[kvx.1 := later (delay kvx.1) kvx.2]> m.

(** An entry the format can hold, and whose deadline can be put off. *)
Definition lasting (late : Z) (kvx : bytes * (bytes * Z)) : Prop := storable kvx ∧ kvx.2.2 + late < 2 ^ 63.

Lemma restore_one t late w count kvx :
  store_ok (store w) → 0 ≤ t < 2 ^ 63 → t ≤ clock w (ticks w) ≤ t + late → lasting late kvx →
  size_of (store w) < max_keys_ (store w) →
  wp no_fault (restore t count kvx) (λ n w', store_ok (store w') ∧ clock w' = clock w ∧
    (ticks w ≤ ticks w' ≤ S (ticks w))%nat ∧ max_keys_ (store w') = max_keys_ (store w) ∧
    contents (store w') = restored (λ _, clock w (ticks w) - t) t (contents (store w)) kvx ∧
    n = if dead t kvx then count else count + 1) w.
Proof.
  destruct kvx as [k [v x]]. intros Hok Ht Hck [(_ & _ & Hx%in_i64_spec) Hl] Hroom. simpl in Hx, Hl.
  rw /restored /restore /dead /=.
  destruct ((0 <? x) && (x <=? t)) eqn:Hd; [apply wp_ret; split_and!; by [|lia]|]. apply wp_bind.
  set (ttl := if 0 <? x then x - t else -1).
  assert (wp no_fault (if 0 <? x then lift (checked (x - t)) else ret (-1)) (λ a w1, a = ttl ∧ w1 = w) w) as Httl.
  { rw /ttl. destruct (Z.ltb_spec 0 x); [|done]. apply wp_lift. rw /checked (proj2 (in_i64_spec _)) //. lia. }
  eapply wp_mono; [exact Httl|]. intros ? ? [-> ->]. apply wp_bind.
  destruct (set_succeeds w k v ttl Hok) as [w' Hset].
  { rw /ttl. intros Hpos. apply in_i64_spec. destruct (Z.ltb_spec 0 x); lia. }
  destruct (StoreThms.set_contents _ _ _ _ _ Hok Hset) as (y & m & Hok' & Hc & Htk & Hm & Hct & -> & ->).
  rw {1}/wp Hset. apply wp_ret. split_and!; [done..| | |done| |done].
  - rw Htk. destruct (0 <? ttl); lia.
  - rw Htk. destruct (0 <? ttl); lia.
  - rw Hct (proj2 (Z.leb_gt _ _)) // /later /=. do 2 f_equal.
    rw /ttl. apply andb_false_iff in Hd. destruct (Z.ltb_spec 0 x); [|done].
    destruct Hd as [|Hd%Z.leb_gt]; [done|]. rw (proj2 (Z.ltb_lt _ _)); lia.
Qed.

Lemma restored_size delay t m kvx :
  (base.size (restored delay t m kvx) ≤ S (base.size m))%nat.
Proof.
  rw /restored. destruct (dead t kvx); [lia|]. rw map_size_insert. destruct (m !! kvx.1); simpl; lia.
Qed.

Lemma restored_ext delay delay' t L : ∀ m,
  (∀ k, k ∈ L.*1 → delay k = delay' k) → foldl (restored delay t) m L = foldl (restored delay' t) m L.
Proof.
  induction L as [|kvx L IH]; intros m H; [done|]. simpl. rw {2}/restored {3}/restored (H kvx.1); [by left|].
  apply IH. intros k Hk. apply H. by right.
Qed.

(** How late each entry is restored. *)
Definition punctual (late : Z) (delay : bytes → Z) : Prop := ∀ k, 0 ≤ delay k ≤ late.

Lemma restore_all t late L w count :
  store_ok (store w) → 0 ≤ t < 2 ^ 63 → 0 ≤ late →
  (∀ i, (ticks w ≤ i ≤ ticks w + length L)%nat → t ≤ clock w i ≤ t + late) →
  Forall (lasting late) L → NoDup L.*1 → size_of (store w) + zlen L ≤ max_keys_ (store w) →
  wp no_fault (foldM (restore t) L count) (λ n w', store_ok (store w') ∧
    (∃ delay, punctual late delay ∧ contents (store w') = foldl (restored delay t) (contents (store w)) L) ∧
    n = count + zlen (filter (λ kvx, dead t kvx = false) L)) w.
Proof.
  intros Hok Ht Hlate Hck HL Hnd Hroom. rw contents_size // in Hroom.
  apply (wp_foldM _ _ (λ done n w', store_ok (store w') ∧ clock w' = clock w ∧
    max_keys_ (store w') = max_keys_ (store w) ∧ (ticks w ≤ ticks w' ≤ ticks w + length done)%nat ∧
    (∃ delay, punctual late delay ∧ contents (store w') = foldl (restored delay t) (contents (store w)) done) ∧
    (base.size (contents (store w')) ≤ base.size (contents (store w)) + length done)%nat ∧
    n = count + zlen (filter (λ kvx, dead t kvx = false) done))).
  - split_and!; try done; simpl; try lia. exists (λ _, 0). split; [intros k; lia|done].
  - intros done x todo n w1 -> (Hok1 & Hc1 & Hm1 & Htk1 & (delay & Hdl & Hct1) & Hsz1 & ->).
    apply Forall_app in HL as [_ [Hx _]%Forall_cons]. rw fmap_app fmap_cons in Hnd.
    apply NoDup_app in Hnd as (_ & Hni & _).
    assert (t ≤ clock w (ticks w1) ≤ t + late) as Hnow by (apply Hck; len).
    eapply wp_mono; [apply (restore_one t late); [done|done|by rw Hc1|done|]|].
    { rw contents_size // Hm1. len. }
    intros n w2 (Hok2 & Hc2 & Htk2 & Hm2 & Hct2 & ->).
    pose proof (restored_size (λ _, clock w1 (ticks w1) - t) t (contents (store w1)) x).
    split_and!; [done|congruence|congruence|lia|len| | |].
    + exists (λ k, if bool_decide (k = x.1) then clock w (ticks w1) - t else delay k). split.
      { intros k. case_bool_decide; [lia|apply Hdl]. }
      rw foldl_app Hct2 Hct1 /= {1}/restored {3}/restored bool_decide_true // Hc1.
      rw (restored_ext (λ k, if bool_decide (k = x.1) then _ else _) delay t done) //.
      intros k Hk. rw bool_decide_false //. intros ->. by eapply Hni; [|left].
    + rw Hct2. len.
    + rw filter_app length_app filter_cons. destruct (dead t x); simpl; lia.
  - naive_solver.
Qed.

(** Folding over distinct keys is the map of the list. *)
Lemma restored_lookup delay t L k y :
  NoDup L.*1 →
  foldl (restored delay t) ∅ L !! k = Some y ↔
    ∃ vx, (k, vx) ∈ L ∧ dead t (k, vx) = false ∧ y = later (delay k) vx.
Proof.
  induction L as [|[k' vx'] L IH] using rev_ind; intros Hnd; [set_solver|].
  rw fmap_app in Hnd. apply NoDup_app in Hnd as (Hnd & Hni & _). specialize (IH Hnd).
  assert (∀ vx, (k', vx) ∉ L) as Hnin.
  { intros vx Hin. apply (Hni k'); [|set_solver]. apply list_elem_of_fmap. by exists (k', vx). }
  assert (∀ vx, (k, vx) ∈ L ++ [(k', vx')] ↔ (k, vx) ∈ L ∨ (k = k' ∧ vx = vx')) as Hin.
  { intros vx. rw elem_of_app list_elem_of_singleton. naive_solver. }
  setoid_rewrite Hin. rw foldl_app /= {1}/restored. destruct (dead t (k', vx')) eqn:Hd.
  - rw IH. split; [intros (vx & ? & ?); exists vx; by auto|].
    intros (vx & [?|[-> ->]] & Hv & ->); [by exists vx|congruence].
  - rw lookup_insert_Some IH. simpl. split.
    + intros [[<- <-]|[_ (vx & ? & ?)]]; [exists vx'|exists vx]; by auto.
    + intros (vx & [Hk|[-> ->]] & Hv & ->); [right|by left].
      split; [intros <-; by apply (Hnin vx)|by exists vx].
Qed.

Lemma restored_count delay t L :
  NoDup L.*1 →
  base.size (foldl (restored delay t) ∅ L) = length (filter (λ kvx, dead t kvx = false) L).
Proof.
  induction L as [|[k vx] L IH] using rev_ind; intros Hnd; [done|].
  rw fmap_app in Hnd. apply NoDup_app in Hnd as (Hnd & Hni & _).
  rw foldl_app /= filter_app length_app filter_cons filter_nil -IH // {1}/restored.
  destruct (dead t (k, vx)); simpl; [lia|]. rw map_size_insert_None; [|lia].
  apply eq_None_not_Some. intros [y (vx' & Hin & _)%restored_lookup]; [|done].
  apply (Hni k); [|set_solver]. apply list_elem_of_fmap. by exists (k, vx').
Qed.

(** ** The snapshot that [save] writes *)

(** The entries that are live at the reading [t], in the order of [for_each]. *)
Definition snapshot (t : Z) (s : Store) : list (bytes * (bytes * Z)) :=
  (λ kv, (kv.1, view kv.2)) <$> filter (λ kv, is_expired kv.2 t = false) (visit (shards_ s)).

Definition image (L : list (bytes * (bytes * Z))) : bytes :=
  Rdb.MAGIC ++ [Rdb.VERSION] ++ concat (record_of <$> L) ++ Rdb.write_u32 Rdb.EOF_MARKER.

Lemma save_image w :
  for_each (λ f key val exp, f ++ Rdb.entry_record key val exp) (Rdb.MAGIC ++ [Rdb.VERSION]) w =
    Ret (Rdb.MAGIC ++ [Rdb.VERSION] ++ concat (record_of <$> snapshot (clock w (ticks w)) (store w)), tick w).
Proof.
  rw for_each_eq /snapshot. do 2 f_equal. rw app_assoc.
  generalize (Rdb.MAGIC ++ [Rdb.VERSION]). induction (filter _ _) as [|kv l IH]; intros acc.
  - by rw app_nil_r.
  - rw !fmap_cons. simpl. by rw IH -app_assoc.
Qed.

Lemma commit_cases path content d :
  ∃ ok d', Rdb.commit path content d = (ok, d') ∧
    (ok = true → d' !! path = Some (content ++ Rdb.write_u32 Rdb.EOF_MARKER)) ∧
    (ok = false → d' !! path = d !! path) ∧
    (∀ p, p ≠ path → p ≠ Rdb.tmp_path path → d' !! p = d !! p).
Proof.
  assert (Rdb.tmp_path path ≠ path) as Hne.
  { intros H%(f_equal length). rw /Rdb.tmp_path length_app in H. simpl in H. lia. }
  rw /Rdb.commit. set (img := content ++ _). set (n := accepted _ _ _).
  destruct (Nat.ltb n (length img)); [|destruct (negb (can_rename _ _ _))].
  1,2: eexists false, _; split_and!; [done|done| |]; intros; by rw lookup_insert_ne.
  eexists true, _. split_and!; [done| |done|].
  - intros _. by rw lookup_insert_eq.
  - intros p H1 H2. rw lookup_insert_ne // lookup_delete_ne // lookup_insert_ne //.
Qed.

Lemma save_cases path d w :
  let img := image (snapshot (clock w (ticks w)) (store w)) in
  ∃ ok d' w', Rdb.save path d w = Ret ((ok, d'), w') ∧ store w' = store w ∧
    (ok = true → d' !! path = Some img) ∧
    (ok = false → d' !! path = d !! path) ∧
    (∀ p, p ≠ path → p ≠ Rdb.tmp_path path → d' !! p = d !! p).
Proof.
  cbv zeta. rw /Rdb.save. destruct (negb (can_open d _)); [by exists false, d, w|].
  rw /bind save_image. set (content := _ ++ _).
  destruct (commit_cases path content d) as (ok & d' & -> & H1 & H2 & H3). exists ok, d', (tick w).
  split_and!; [done|done| |done..]. intros ->%H1. by rw /content -!app_assoc.
Qed.

(** A disk that lets a snapshot be written. *)
Record writable (path : bytes) : Prop := {
  w_open : ∀ d, can_open d (Rdb.tmp_path path) = true;
  w_all : healthy (Rdb.tmp_path path);
  w_rename : ∀ d, can_rename d (Rdb.tmp_path path) path = true
}.

Lemma save_writable path d w :
  writable path → ∃ d' w', Rdb.save path d w = Ret ((true, d'), w').
Proof.
  intros [Ho Ha Hr]. rw /Rdb.save Ho. cbn [negb]. rw /bind save_image /Rdb.commit Ha Nat.ltb_irrefl Hr. by eexists _, _.
Qed.

Lemma snapshot_nodup t s : store_ok s → NoDup (snapshot t s).*1.
Proof.
  intros Hok. rw /snapshot -list_fmap_compose.
  eapply sublist_NoDup; [by apply visit_nodup|]. apply (fmap_sublist fst), sublist_filter.
Qed.

Lemma snapshot_lookup t s k vx :
  store_ok s →
  (k, vx) ∈ snapshot t s ↔ contents s !! k = Some vx ∧ Spec.expired vx.2 t = false.
Proof.
  intros Hok. destruct vx as [v x]. rw /snapshot list_elem_of_fmap -visit_lookup //. simpl. split.
  - intros ([k' e] & [= -> -> ->] & [He Hin]%list_elem_of_filter). rw -expired_view.
    split; [by exists e|done].
  - intros [(e & Hin & [= <- <-]) He]. exists (k, e). split; [done|].
    apply list_elem_of_filter. by rw expired_view.
Qed.

Lemma records_length L : (length L ≤ length (concat (record_of <$> L)))%nat.
Proof.
  induction L as [|kvx L IH]; [simpl; lia|]. rw fmap_cons. cbn [concat].
  assert (0 < length (record_of kvx))%nat by (simpl; lia). len.
Qed.

Lemma load_image path d L w :
  d !! path = Some (image L) → Forall storable L →
  Rdb.load path d w = foldM (restore (clock w (ticks w))) L 0 (tick w).
Proof.
  intros Hd HL. rw /Rdb.load Hd /image read_exact // bool_decide_true //. cbn [negb].
  rw /bind /now_ms. cbn [Rdb.get Rdb.rest Rdb.good Rdb.shorts app].
  rw -{2}(app_nil_r (Rdb.write_u32 _)). apply load_run; [done|].
  pose proof (records_length L). rw /image. len.
Qed.

(** ** Any file at all *)

Lemma read_progress n old f b f' :
  Rdb.read n old f = (b, f') →
  Rdb.good f' = true → Rdb.good f = true ∧ (length (Rdb.rest f') + n = length (Rdb.rest f))%nat.
Proof.
  rw /Rdb.read. destruct (Nat.ltb_spec (length (if Rdb.good f then take n (Rdb.rest f) else [])) n) as [|Hn].
  { by intros [= _ <-]. }
  intros [= _ <-]. cbn [Rdb.good Rdb.rest]. intros Hg. rw Hg length_take in Hn. split; [done|].
  rw length_drop. lia.
Qed.

Lemma load_total now fuel f count w :
  store_ok (store w) → (length (Rdb.rest f) < fuel)%nat →
  wp overflow_only (Rdb.load_loop fuel now f count) (λ _ w', store_ok (store w')) w.
Proof.
  revert f count w. induction fuel as [|fuel IH]; intros f count w Hok Hf; [lia|].
  cbn [Rdb.load_loop]. destruct (Rdb.good f) eqn:Hg; [|by apply wp_ret]. cbn [negb].
  destruct (Rdb.read_u32 f) as [klen f1] eqn:H1. destruct (klen =? Rdb.EOF_MARKER); [by apply wp_ret|].
  destruct (Rdb.read_string klen f1) as [key f2] eqn:H2. destruct (Rdb.read_u32 f2) as [vlen f3] eqn:H3.
  destruct (Rdb.read_string vlen f3) as [val f4] eqn:H4. destruct (Rdb.read_i64 f4) as [exp f5] eqn:H5.
  assert (∀ count w, store_ok (store w) →
    wp overflow_only (Rdb.load_loop fuel now f5 count) (λ _ w', store_ok (store w')) w) as Hnext.
  { intros count' w' Hok'. destruct (Rdb.good f5) eqn:Hg5; [|].
    - apply IH; [done|].
      rw /Rdb.read_u32 in H1. destruct (Rdb.read 4 _ f) as [b1 g1] eqn:R1. injection H1 as _ ->.
      rw /Rdb.read_u32 in H3. destruct (Rdb.read 4 _ f2) as [b3 g3] eqn:R3. injection H3 as _ ->.
      rw /Rdb.read_i64 in H5. destruct (Rdb.read 8 _ f4) as [b5 g5] eqn:R5. injection H5 as _ ->.
      apply (read_progress _ _ _ _ _ R5) in Hg5 as [Hg4 ?].
      apply (read_progress _ _ _ _ _ H4) in Hg4 as [Hg3 ?].
      apply (read_progress _ _ _ _ _ R3) in Hg3 as [Hg2 ?].
      apply (read_progress _ _ _ _ _ H2) in Hg2 as [Hg1 ?].
      apply (read_progress _ _ _ _ _ R1) in Hg1 as [_ ?]. lia.
    - destruct fuel; cbn [Rdb.load_loop]; rw Hg5; by apply wp_ret. }
  destruct (_ && _); [by apply Hnext|]. apply wp_bind.
  apply (wp_mono _ _ (λ _ w', w' = w)).
  { destruct (0 <? exp); [|done]. apply wp_lift. rw /checked. by destruct (in_i64 _). }
  intros ttl ? ->. apply wp_bind.
  eapply CommandsThms.wp_fault; [by apply CommandsThms.set_law|by intros ? [_ ?]|].
  intros _ w' [Hok' _]. by apply Hnext.
Qed.

(** What a load makes of [m] that begins at [now] and takes [late] ms: the live
    entries, their deadlines put off by no more than that. *)
Definition reloaded (now late : Z) (m m' : gmap bytes (bytes * Z)) : Prop :=
  ∃ delay, punctual late delay ∧
    m' = map_imap (λ k vx, Some (later (delay k) vx)) (filter (λ kvx, Spec.expired kvx.2.2 now = false) m).

(** A snapshot of [w] under [path], loaded by a later process whose clock shows
    [clk 0] first, and for every entry something up to [late] ms later. *)
Lemma load_saved path d w max_keys clk late :
  store_ok (store w) → 0 ≤ clock w (ticks w) ≤ clk 0%nat → clk 0%nat < 2 ^ 63 →
  (∀ i, Z.of_nat i ≤ size_of (store w) + 1 → clk 0%nat ≤ clk i ≤ clk 0%nat + late) →
  map_Forall (λ k vx, lasting late (k, vx)) (contents (store w)) →
  size_of (store w) ≤ max_keys →
  d !! path = Some (image (snapshot (clock w (ticks w)) (store w))) →
  ∃ w2, Rdb.load path d (mkWorld clk 0 (new_store max_keys)) = Ret (size_of (store w2), w2) ∧
    store_ok (store w2) ∧ reloaded (clk 0%nat) late (contents (store w)) (contents (store w2)).
Proof.
  intros Hok Ht Ht' Hclk Hst Hroom Himg. set (L := snapshot (clock w (ticks w)) (store w)). fold L in Himg.
  assert (Forall (lasting late) L) as HL.
  { apply Forall_forall. intros [k vx] [Hk _]%snapshot_lookup; [|done]. by apply Hst in Hk. }
  assert (NoDup L.*1) as Hnd by by apply snapshot_nodup.
  assert (zlen L ≤ size_of (store w)) as Hlen.
  { rw contents_size // -length_map_to_list. rw -(length_fmap fst L) -(length_fmap fst (map_to_list _)).
    apply Nat2Z.inj_le, submseteq_length, NoDup_submseteq; [done|].
    intros ? ([k vx] & -> & [Hk _]%snapshot_lookup)%list_elem_of_fmap; [|done].
    apply list_elem_of_fmap. exists (k, vx). by rw elem_of_map_to_list. }
  set (w0 := mkWorld clk 0 (new_store max_keys)). set (t := clk 0%nat).
  assert (contents (new_store max_keys) = ∅) as Hempty by done.
  assert (0 ≤ late) as Hlate by (pose proof (Hclk 0%nat ltac:(lia)); lia).
  pose proof (restore_all t late L (tick w0) 0 (new_store_ok max_keys) ltac:(lia) Hlate) as Hrun.
  assert (size_of (new_store max_keys) = 0) as Hzero by done. simpl in Hrun. rw Hzero Hempty in Hrun.
  destruct (wp_Ret _ _ _ (Hrun ltac:(intros i Hi; apply Hclk; lia) HL Hnd ltac:(simpl; lia)))
    as (n & w2 & Hl & Hok2 & (delay & Hdl & Hc2) & Hn).
  exists w2. split_and!; [|done|exists delay; split; [done|]].
  - rw (load_image _ _ L) //; [by eapply Forall_impl; [exact HL|intros ? []]|]. rw /= -/t Hl. do 2 f_equal.
    rw Hn contents_size // Hc2. by rw restored_count.
  - rw Hc2. apply map_eq. intros k. apply option_eq. intros y. rw restored_lookup // map_lookup_imap bind_Some.
    apply exist_proper. intros [v x].
    rw snapshot_lookup // map_lookup_filter_Some /dead /=.
    assert (Spec.expired x (clock w (ticks w)) = false ∧ (0 <? x) && (x <=? t) = false ↔ Spec.expired x t = false) as Hx.
    { rw /Spec.expired. lia. }
    rw -Hx. split; [intros ([? ?] & ? & ->); by split_and!|intros ((? & ? & ?) & [= <-]); by split_and!].
Qed.

(** C15: round trip.  A snapshot that [save] completed, loaded into a fresh
    store with room for it, restores exactly the entries that are still live when
    the load begins, with their values, and reports their number.  An entry
    without a deadline stays without; a deadline never comes back earlier, and
    later by at most [late], the time the load takes: [Rdb::load] subtracts one
    reading of the clock and [Store::set] adds another.  On a clock that stands
    still the deadlines are exact.  Keys and values must be short enough for the
    lengths in the file (below 2^32 - 1 and 2^32 bytes), deadlines far enough from
    the end of [int64_t]. *)
Theorem rdb_round_trip path d w d' w' max_keys clk late :
  store_ok (store w) → 0 ≤ clock w (ticks w) ≤ clk 0%nat → clk 0%nat < 2 ^ 63 →
  (∀ i, Z.of_nat i ≤ size_of (store w) + 1 → clk 0%nat ≤ clk i ≤ clk 0%nat + late) →
  map_Forall (λ k vx, lasting late (k, vx)) (contents (store w)) →
  size_of (store w) ≤ max_keys →
  Rdb.save path d w = Ret ((true, d'), w') →
  ∃ w2, Rdb.load path d' (mkWorld clk 0 (new_store max_keys)) = Ret (size_of (store w2), w2) ∧
    store_ok (store w2) ∧ reloaded (clk 0%nat) late (contents (store w)) (contents (store w2)).
Proof.
  intros Hok Ht Ht' Hclk Hst Hroom Hsave. apply load_saved; try done.
  destruct (save_cases path d w) as (ok & d1 & w1 & Hs & _ & Himg & _). rw Hsave in Hs.
  injection Hs as <- <- <-. by apply Himg.
Qed.

(** C21: a save is atomic.  Whatever the disk does (the file does not open, a
    write comes up short, the rename fails), [save] returns; the snapshot under
    its path is the complete new one if it reports success and the old one if
    not, no file but the temporary one is touched, and the store is as before. *)
Theorem rdb_save_atomic path d w :
  ∃ ok d' w', Rdb.save path d w = Ret ((ok, d'), w') ∧ store w' = store w ∧
    d' !! path = (if (ok : bool) then Some (image (snapshot (clock w (ticks w)) (store w)))
                  else d !! path) ∧
    ∀ p, p ≠ path → p ≠ Rdb.tmp_path path → d' !! p = d !! p.
Proof.
  destruct (save_cases path d w) as (ok & d' & w' & Hs & Hst & Ht & Hf & Ho).
  exists ok, d', w'. split_and!; [done|done| |done]. destruct ok; auto.
Qed.

Lemma load_safe path d w :
  store_ok (store w) → wp overflow_only (Rdb.load path d) (λ _ w', store_ok (store w')) w.
Proof.
  intros Hok. rw /Rdb.load. destruct (d !! path) as [content|]; [|by apply wp_ret].
  destruct (Rdb.read 6 _ _) as [magic f1] eqn:Hr. destruct (negb _); [by apply wp_ret|].
  apply wp_bind. rw {1}/wp /now_ms. apply load_total; [done|].
  assert (length (Rdb.rest f1) ≤ length content)%nat as Hle.
  { rw /Rdb.read in Hr. destruct (Nat.ltb _ _); injection Hr as _ <-; simpl; rw ?length_drop; lia. }
  rw /Rdb.get. destruct (Rdb.rest f1); [simpl; lia|]. destruct (Rdb.good f1); simpl in *; lia.
Qed.

(** Loading is total.  On any file, truncated or corrupt, the loop of
    [load] ends, the store stays well-formed, and nothing but an overflow of a
    deadline can stop it. *)
Theorem rdb_load_total path d w :
  store_ok (store w) →
  match Rdb.load path d w with
  | Ret (_, w') => store_ok (store w')
  | Fail f => f = Undef SignedOverflow
  end.
Proof. apply load_safe. Qed.

End Snapshot.
(** ** Concrete runs *)

Module Demo.
Import Store StoreInv StoreSpec StoreThms.Demo CommandsThms Commands.
#[local] Existing Instances demo_platform demo_compiler demo_limits.

Definition demo_io : Io := {|
  can_open _ _ := true;
  accepted _ _ data := length data;
  spills _ := false;
  can_rename _ _ _ := true;
  stack_byte _ _ := Byte.x00
|}.
(** A full disk. *)
Definition full_io : Io := {|
  can_open _ _ := true;
  accepted _ _ _ := 0%nat;
  spills _ := false;
  can_rename _ _ _ := true;
  stack_byte _ _ := Byte.x00
|}.

Definition log_path : bytes := bs "appendonly.aof".
Definition log_cmds : list (list bytes) := [[bs "SET"; bs "a"; bs "1"]; [bs "INCR"; bs "a"]].
(** The executor that Server.cpp passes to [replay]. *)
Definition executor (cmd : RespValue) : M World unit := dispatch new_dispatcher cmd ;;; ret tt.

Lemma reservable_small n : n ≤ 1000000 → reservable n.
Proof. intros. split; [|done]. assert (1000000 ≤ max_size) by (vm_compute; discriminate). lia. Qed.

Lemma aof_replays_torn_log_witness :
  Aof.replay (Aof.new log_path)
    (<[log_path := stream log_cmds ++ take 7 (RespSerializer.array [bs "DEL"; bs "a"])]> ∅) executor demo0 =
  (let! _ := execute executor log_cmds in ret 2) demo0.
Proof.
  apply (aof_replays_torn_log executor (Aof.new log_path) _ log_cmds [bs "DEL"; bs "a"] 7 demo0).
  - apply lookup_insert_eq.
  - vm_compute. lia.
  - reflexivity.
  - repeat constructor; apply reservable_small; vm_compute; discriminate.
Defined.

Lemma aof_append_then_replay_witness :
  ∃ a' d', append_all (H := demo_io) log_cmds (ready log_path) (<[log_path := []]> ∅) = (true, a', d') ∧
    Aof.replay (Aof.new log_path) d' executor demo0 =
      (let! _ := execute executor log_cmds in ret 2) demo0.
Proof.
  apply (aof_append_then_replay (H := demo_io) executor log_path log_cmds _ demo0).
  - intros d data. reflexivity.
  - apply lookup_insert_eq.
  - reflexivity.
  - apply reservable_small. discriminate.
  - repeat constructor; apply reservable_small; vm_compute; discriminate.
Defined.

Lemma aof_append_reports_lost_write_witness :
  ∃ a' d', Aof.append (io := full_io) (command_value [bs "PING"]) (ready log_path) ∅ = (true, a', d') ∧
    d' !! log_path = Some (default [] ((∅ : Disk) !! log_path)).
Proof.
  apply (aof_append_reports_lost_write (H := full_io) (command_value [bs "PING"]) log_path ∅); reflexivity.
Defined.

(** An entry with a deadline at 6000 and one without. *)
Definition demo3 : World := after (set (bs "k") (bs "41") 5000) demo0.
Definition demo4 : World := after (set (bs "c") (bs "9x") 0) demo3.

Lemma demo3_run : set (bs "k") (bs "41") 5000 demo0 = Ret (tt, demo3).
Proof. vm_compute. reflexivity. Qed.

Lemma demo4_run : set (bs "c") (bs "9x") 0 demo3 = Ret (tt, demo4).
Proof. vm_compute. reflexivity. Qed.

Lemma demo4_ok : store_ok (store demo4).
Proof.
  assert (store_ok (store demo3)) as H3
    by by destruct (StoreThms.set_contents demo0 _ _ _ _ (new_store_ok 2) demo3_run) as (? & ? & ? & _).
  by destruct (StoreThms.set_contents demo3 _ _ _ _ H3 demo4_run) as (? & ? & ? & _).
Qed.

Definition saved : Disk * World :=
  match Rdb.save (io := demo_io) (bs "dump.rdb") ∅ demo4 with
  | Ret ((_, d), w) => (d, w)
  | Fail _ => (∅, demo4)
  end.

Lemma saved_run : Rdb.save (io := demo_io) (bs "dump.rdb") ∅ demo4 = Ret ((true, saved.1), saved.2).
Proof.
  assert (match Rdb.save (io := demo_io) (bs "dump.rdb") ∅ demo4 with
          | Ret ((ok, _), _) => ok | Fail _ => false end = true) as Hok by (vm_compute; reflexivity).
  rw /saved. by destruct (Rdb.save _ _ _) as [[[[] d] w]|f].
Qed.

(** A clock that runs during the load. *)
Definition load_clock (i : nat) : Z := 2000 + Z.of_nat i.

Lemma rdb_round_trip_witness :
  ∃ w2, Rdb.load (io := demo_io) (bs "dump.rdb") saved.1 (mkWorld load_clock 0 (new_store 2))
      = Ret (size_of (store w2), w2) ∧
    store_ok (store w2) ∧ reloaded 2000 10 (contents (store demo4)) (contents (store w2)).
Proof.
  apply (rdb_round_trip (io := demo_io) (bs "dump.rdb") ∅ demo4 saved.1 saved.2 2 load_clock 10 demo4_ok).
  - vm_compute. split; discriminate.
  - reflexivity.
  - intros i. assert (size_of (store demo4) = 2) as -> by (vm_compute; reflexivity). unfold load_clock. lia.
  - apply (bool_decide_unpack _). vm_compute. exact I.
  - vm_compute. discriminate.
  - exact saved_run.
Defined.

(** The deadline has moved: 6000 was saved, 6001 comes back. *)
Example deadline_drifts :
  match Rdb.load (io := demo_io) (bs "dump.rdb") saved.1 (mkWorld load_clock 0 (new_store 2)) with
  | Ret (n, w2) => n = 2 ∧ contents (store demo4) !! bs "k" = Some (bs "41", 6000) ∧
      contents (store w2) !! bs "k" = Some (bs "41", 6001)
  | Fail _ => False
  end.
Proof. vm_compute. done. Qed.

Lemma rdb_load_total_witness :
  match Rdb.load (io := demo_io) (bs "x") (<[bs "x" := bs "CACHDB??"]> ∅) demo2 with
  | Ret (_, w') => store_ok (store w')
  | Fail f => f = Undef SignedOverflow
  end.
Proof. apply (rdb_load_total (io := demo_io) (bs "x") _ demo2 demo2_ok). Defined.
End Demo.

End PersistenceThms.
