(* ===== verification/Buffer.v ===== *)
(** The connection buffers: src/network/Buffer.hpp.

    Positions and capacities are [size_t] and wrap at 2^64 where the source
    computes with them; the bytes of [data_] are kept, those outside the
    readable region included.  A copy outside [data_] is undefined behaviour.
    The last part shows that a buffer is a queue of bytes bounded by
    [MAX_CAP]. *)

From S2P Require Import Prelude.

Module Buffer.

Definition INITIAL_CAP : Z := 4096.
Definition MAX_CAP : Z := 64 * 1024 * 1024.

Record Buffer := mkBuffer { data_ : bytes; read_pos_ : Z; write_pos_ : Z }.

(** [data_.resize(n)]: the first bytes stay, new ones are zero. *)
Definition resize (data : bytes) (n : Z) : bytes :=
  take (Z.to_nat n) data ++ replicate (Z.to_nat n - length data) Byte.x00.

(** [Buffer::Buffer] *)
Definition new_buffer (initial_cap : Z) : Buffer := mkBuffer (resize [] initial_cap) 0 0.

Definition writable_size (b : Buffer) : Z := u64 (zlen (data_ b) - write_pos_ b).

(** [readable_size] and the view that [readable] returns. *)
Definition readable_size (b : Buffer) : Z := u64 (write_pos_ b - read_pos_ b).
Definition readable (b : Buffer) : bytes :=
  substr (data_ b) (Z.to_nat (read_pos_ b)) (Z.to_nat (readable_size b)).

Definition empty (b : Buffer) : bool := write_pos_ b =? read_pos_ b.

Definition commit_write (n : Z) (b : Buffer) : Buffer :=
  mkBuffer (data_ b) (read_pos_ b) (u64 (write_pos_ b + n)).

Definition consume (n : Z) (b : Buffer) : Buffer :=
  let r := u64 (read_pos_ b + n) in
  if r =? write_pos_ b then mkBuffer (data_ b) 0 0 else mkBuffer (data_ b) r (write_pos_ b).

(** Storing bytes at an offset of [data_]: [memcpy], [memmove] or [recv]. *)
Definition store_at (data : bytes) (pos : Z) (d : bytes) : outcome bytes :=
  if zlen data <? pos + zlen d then Fail (Undef OutOfBounds)
  else Ret (take (Z.to_nat pos) data ++ d ++ drop (Z.to_nat pos + length d) data).

(** [Buffer::compact] *)
Definition compact (b : Buffer) : outcome Buffer :=
  if read_pos_ b =? 0 then Ret b else
  let unread := u64 (write_pos_ b - read_pos_ b) in
  let? data := store_at (data_ b) 0 (substr (data_ b) (Z.to_nat (read_pos_ b)) (Z.to_nat unread)) in
  Ret (mkBuffer data 0 unread).

(** [while (new_cap - write_pos_ < n) new_cap *= 2;] *)
Fixpoint grow (fuel : nat) (new_cap write_pos n : Z) : outcome Z :=
  if u64 (new_cap - write_pos) <? n then
    match fuel with
    | O => Fail OutOfFuel
    | S fuel' => grow fuel' (u64 (new_cap * 2)) write_pos n
    end
  else Ret new_cap.

Definition overflow_msg : bytes := bs "Buffer exceeded max capacity".

(** [Buffer::ensure_writable]; 64 doublings reach any [size_t]. *)
Definition ensure_writable (n : Z) (b : Buffer) : outcome Buffer :=
  if n <=? writable_size b then Ret b else
  let? b := compact b in
  if n <=? writable_size b then Ret b else
  let new_cap := u64 (zlen (data_ b) * 2) in
  let? new_cap := grow 64 new_cap (write_pos_ b) n in
  if MAX_CAP <? new_cap then Fail (Throw (runtime_error overflow_msg)) else
  Ret (mkBuffer (resize (data_ b) new_cap) (read_pos_ b) (write_pos_ b)).

(** Bytes that arrive at [write_ptr()]. *)
Definition write_tail (d : bytes) (b : Buffer) : outcome Buffer :=
  let? data := store_at (data_ b) (write_pos_ b) d in
  Ret (commit_write (zlen d) (mkBuffer data (read_pos_ b) (write_pos_ b))).

(** [Buffer::append] *)
Definition append (d : bytes) (b : Buffer) : outcome Buffer :=
  let? b := ensure_writable (zlen d) b in
  write_tail d b.

(** ** The invariant *)

(** The cursors are ordered and the capacity is a doubling of [INITIAL_CAP]. *)
Record wf (b : Buffer) : Prop := {
  wf_read : 0 ≤ read_pos_ b ≤ write_pos_ b;
  wf_write : write_pos_ b ≤ zlen (data_ b);
  wf_cap : ∃ k : nat, (k ≤ 14)%nat ∧ zlen (data_ b) = INITIAL_CAP * 2 ^ Z.of_nat k
}.

Lemma wf_bounds b : wf b → 4096 ≤ zlen (data_ b) ≤ MAX_CAP.
Proof.
  intros [_ _ (k & Hk & ->)]. rw /INITIAL_CAP /MAX_CAP.
  assert (2 ^ 0 ≤ 2 ^ Z.of_nat k ≤ 2 ^ 14); [|lia]. split; apply Z.pow_le_mono_r; lia.
Qed.

Lemma u64_id z : 0 ≤ z < 2 ^ 64 → u64 z = z.
Proof. apply Z.mod_small. Qed.

(** The sizes of a well-formed buffer do not wrap. *)
Lemma wf_sizes b :
  wf b → writable_size b = zlen (data_ b) - write_pos_ b ∧
         readable_size b = write_pos_ b - read_pos_ b ∧
         zlen (readable b) = write_pos_ b - read_pos_ b.
Proof.
  intros Hwf. pose proof (wf_bounds b Hwf) as Hcap. destruct Hwf as [Hr Hw _]. rw /MAX_CAP in Hcap.
  assert (readable_size b = write_pos_ b - read_pos_ b) as Hrs by (rw /readable_size u64_id; lia).
  split_and!; [rw /writable_size u64_id; lia|done|].
  rw /readable Hrs /substr length_take length_drop. lia.
Qed.

Lemma resize_length data n : 0 ≤ n → zlen (resize data n) = n.
Proof. intros. rw /resize. len. Qed.

Lemma new_buffer_wf : wf (new_buffer INITIAL_CAP) ∧ readable (new_buffer INITIAL_CAP) = [].
Proof.
  split; [|done]. split; cbn [new_buffer data_ read_pos_ write_pos_];
    [lia|rw resize_length; rw /INITIAL_CAP; lia|].
  exists 0%nat. split; [lia|]. by rw resize_length.
Qed.

Lemma store_at_spec data pos d :
  0 ≤ pos → pos + zlen d ≤ zlen data →
  ∃ data', store_at data pos d = Ret data' ∧ length data' = length data ∧
    take (Z.to_nat pos + length d) data' = take (Z.to_nat pos) data ++ d.
Proof.
  intros Hp Hfit. rw /store_at (proj2 (Z.ltb_ge _ _)) //. eexists. split; [done|]. split; [len|].
  rw app_assoc take_app_length' //. len.
Qed.

Lemma compact_spec b :
  wf b → ∃ b', compact b = Ret b' ∧ wf b' ∧ readable b' = readable b ∧
    length (data_ b') = length (data_ b) ∧ write_pos_ b' = zlen (readable b) ∧ read_pos_ b' = 0.
Proof.
  intros Hwf. pose proof (wf_sizes b Hwf) as (_ & Hrs & Hrl). rw /compact.
  destruct (Z.eqb_spec (read_pos_ b) 0) as [H0|H0].
  { exists b. split_and!; [done..|lia|done]. }
  fold (readable_size b). fold (readable b). pose proof (wf_bounds b Hwf) as Hcap.
  rw /MAX_CAP in Hcap. destruct Hwf as [Hr Hw Hc].
  destruct (store_at_spec (data_ b) 0 (readable b)) as (data & -> & Hlen & Htake); [lia|lia|].
  simpl in Htake. eexists. split; [done|]. rw Hrs.
  split_and!; [split; simpl; [lia|lia|by rw Hlen]| |done|done|done].
  rw {1}/readable /readable_size /= Z.sub_0_r u64_id; [lia|]. by rw /substr drop_0 -Hrl Nat2Z.id.
Qed.

(** Doubling from a power of two stops at the first one that is large enough. *)
Lemma grow_spec fuel cap wp n :
  0 < n → n + wp < 2 ^ 62 → 0 ≤ wp ≤ cap → 1 ≤ cap < 2 ^ 63 →
  n + wp ≤ cap * 2 ^ Z.of_nat fuel →
  ∃ j : nat, (j ≤ fuel)%nat ∧ grow fuel cap wp n = Ret (cap * 2 ^ Z.of_nat j) ∧
    n + wp ≤ cap * 2 ^ Z.of_nat j ∧ (j = 0%nat ∨ cap * 2 ^ Z.of_nat (pred j) < n + wp).
Proof.
  intros Hn Hfit. revert cap. induction fuel as [|fuel IH]; intros cap Hwp Hc Hgo; cbn [grow].
  { change (2 ^ Z.of_nat 0) with 1 in *. rw u64_id; [lia|]. rw (proj2 (Z.ltb_ge _ _)); [lia|].
    exists 0%nat. rw Z.mul_1_r. split_and!; [lia|done|lia|by left]. }
  rw u64_id; [lia|]. destruct (Z.ltb_spec (cap - wp) n) as [Hlt|Hge].
  - rw u64_id; [lia|]. destruct (IH (cap * 2)) as (j & Hj & -> & H1 & H2); try lia.
    { rw Nat2Z.inj_succ Z.pow_succ_r in Hgo; lia. }
    exists (S j). rw Nat2Z.inj_succ Z.pow_succ_r; [lia|]. split_and!; [lia|f_equal; lia|lia|].
    right. destruct j as [|j]; [change (2 ^ Z.of_nat (pred 1)) with 1; lia|].
    destruct H2 as [|H2]; [lia|]. cbn [pred] in *. rw Nat2Z.inj_succ Z.pow_succ_r; lia.
  - exists 0%nat. change (2 ^ Z.of_nat 0) with 1. rw Z.mul_1_r. split_and!; [lia|done|lia|by left].
Qed.

Lemma resize_spec b k :
  wf b → (k ≤ 14)%nat → zlen (data_ b) ≤ INITIAL_CAP * 2 ^ Z.of_nat k →
  let b' := mkBuffer (resize (data_ b) (INITIAL_CAP * 2 ^ Z.of_nat k)) (read_pos_ b) (write_pos_ b) in
  wf b' ∧ readable b' = readable b ∧ writable_size b' = INITIAL_CAP * 2 ^ Z.of_nat k - write_pos_ b.
Proof.
  intros Hwf Hk Hle. set (cap := INITIAL_CAP * 2 ^ Z.of_nat k) in *. cbv zeta.
  assert (0 ≤ cap) by lia.
  assert (wf (mkBuffer (resize (data_ b) cap) (read_pos_ b) (write_pos_ b))) as Hwf'.
  { destruct Hwf as [Hr Hw _]. split; simpl; [done|rw resize_length; lia|].
    exists k. by rw resize_length. }
  pose proof (wf_sizes _ Hwf') as (-> & _ & _). pose proof (wf_sizes _ Hwf) as (_ & Hrs & _).
  destruct Hwf as [Hr Hw _]. cbn [data_ write_pos_]. rw resize_length //. split_and!; [done| |done].
  rw /readable /substr. change (readable_size (mkBuffer _ _ _)) with (readable_size b). rw Hrs. simpl.
  rw /resize (take_ge (data_ b)); [lia|]. rw drop_app_le; [lia|]. rw take_app_le //. rw length_drop. lia.
Qed.

(** Doubling capacities, as exponents. *)
Lemma cap_double k j :
  INITIAL_CAP * 2 ^ Z.of_nat k * 2 * 2 ^ Z.of_nat j = INITIAL_CAP * 2 ^ Z.of_nat (S (k + j)).
Proof. rw Nat2Z.inj_succ Nat2Z.inj_add Z.pow_succ_r; [lia|]. rw Z.pow_add_r; lia. Qed.

Lemma cap_mono a c : (a ≤ c)%nat → INITIAL_CAP * 2 ^ Z.of_nat a ≤ INITIAL_CAP * 2 ^ Z.of_nat c.
Proof. intros. apply Z.mul_le_mono_nonneg_l; [done|]. apply Z.pow_le_mono_r; lia. Qed.

(** [ensure_writable] makes room without touching the content, exactly as long
    as content and request fit [MAX_CAP]. *)
Lemma ensure_writable_spec n b :
  wf b → 0 ≤ n < 2 ^ 61 →
  if zlen (readable b) + n <=? MAX_CAP
  then ∃ b', ensure_writable n b = Ret b' ∧ wf b' ∧ readable b' = readable b ∧ n ≤ writable_size b'
  else ensure_writable n b = Fail (Throw (runtime_error overflow_msg)).
Proof.
  intros Hwf Hn. pose proof (wf_sizes b Hwf) as (Hws & _ & Hrl). pose proof (wf_bounds b Hwf) as Hcap.
  rw /ensure_writable. destruct (Z.leb_spec n (writable_size b)) as [Hle|Hgt].
  { rw (proj2 (Z.leb_le _ _)); [destruct Hwf; lia|]. by exists b. }
  destruct (compact_spec b Hwf) as (b1 & -> & Hwf1 & Hrd & Hlen & Hwp & Hrp). cbn [obind].
  pose proof (wf_sizes b1 Hwf1) as (Hws1 & _ & _). rw Hws1 Hlen Hwp.
  destruct (Z.leb_spec n (zlen (data_ b) - zlen (readable b))) as [Hle1|Hgt1].
  { rw (proj2 (Z.leb_le _ _)); [lia|]. exists b1. split_and!; [done..|lia]. }
  pose proof Hwf1 as [_ _ (k & Hk & Hkcap)]. rw Hlen in Hkcap.
  assert (0 ≤ zlen (readable b) ≤ zlen (data_ b)) by (destruct Hwf; lia).
  assert (MAX_CAP = INITIAL_CAP * 2 ^ Z.of_nat 14) as Hmax by done.
  assert (MAX_CAP = 67108864) as Hmax' by done. rw u64_id; [lia|].
  destruct (grow_spec 64 (zlen (data_ b) * 2) (zlen (readable b)) n) as (j & _ & -> & Hj1 & Hj2).
  { lia. } { lia. } { lia. } { lia. }
  { assert (2 ^ 61 + 2 ^ 27 ≤ 2 ^ Z.of_nat 64) by (vm_compute; discriminate). nia. }
  cbn [obind]. rw Hkcap cap_double. rw Hkcap in Hgt1 Hj2. rw Hkcap cap_double in Hj1.
  destruct (decide (S (k + j) ≤ 14)%nat) as [He|He].
  - pose proof (cap_mono _ _ He). rw (proj2 (Z.ltb_ge _ _)); [lia|]. rw (proj2 (Z.leb_le _ _)); [lia|].
    destruct (resize_spec b1 (S (k + j)) Hwf1 He) as (H1 & H2 & H3).
    { rw Hlen Hkcap. apply cap_mono. lia. }
    rw Hwp in H1 H2 H3. eexists. split_and!; [done|exact H1|congruence|rw H3; lia].
  - assert (MAX_CAP < INITIAL_CAP * 2 ^ Z.of_nat (S (k + j))) as Hbig.
    { rw Hmax. pose proof (cap_mono 15 (S (k + j)) ltac:(lia)) as Hm.
      assert (INITIAL_CAP * 2 ^ Z.of_nat 14 < INITIAL_CAP * 2 ^ Z.of_nat 15) by done. lia. }
    rw (proj2 (Z.ltb_lt _ _)) //. rw (proj2 (Z.leb_gt _ _)) //.
    destruct Hj2 as [->|Hj2].
    + assert (k = 14%nat) as -> by lia. lia.
    + destruct j as [|j]; [assert (k = 14%nat) as -> by lia; lia|]. rw cap_double /= in Hj2.
      pose proof (cap_mono 14 (S (k + j)) ltac:(lia)). lia.
Qed.

(** Bytes written into the free space join the content. *)
Lemma write_tail_spec d b :
  wf b → zlen d ≤ writable_size b →
  ∃ b', write_tail d b = Ret b' ∧ wf b' ∧ readable b' = readable b ++ d ∧
    writable_size b' = writable_size b - zlen d.
Proof.
  intros Hwf Hd. pose proof (wf_sizes b Hwf) as (Hws & Hrs & Hrl). pose proof (wf_bounds b Hwf) as Hcap.
  destruct Hwf as [Hr Hw Hc]. rw /write_tail.
  destruct (store_at_spec (data_ b) (write_pos_ b) d) as (data & -> & Hlen & Htake); [lia|lia|].
  cbn [obind]. eexists. split; [done|]. rw /commit_write. cbn [data_ read_pos_ write_pos_].
  rw /MAX_CAP in Hcap. rw u64_id; [lia|].
  split_and!; [split; simpl; [lia|lia|by rw Hlen]| |rw Hws /writable_size /= Hlen u64_id; lia].
  rw /readable Hrs {1}/readable_size /=. rw u64_id; [lia|]. rw /substr.
  replace (Z.to_nat (write_pos_ b + zlen d - read_pos_ b))
    with (Z.to_nat (write_pos_ b) + length d - Z.to_nat (read_pos_ b))%nat by lia.
  rw -skipn_firstn_comm Htake drop_app_le; [rw length_take; lia|]. f_equal.
  rw skipn_firstn_comm. f_equal. lia.
Qed.

Lemma append_spec d b :
  wf b → zlen d < 2 ^ 61 →
  if zlen (readable b) + zlen d <=? MAX_CAP
  then ∃ b', append d b = Ret b' ∧ wf b' ∧ readable b' = readable b ++ d
  else append d b = Fail (Throw (runtime_error overflow_msg)).
Proof.
  intros Hwf Hd. pose proof (ensure_writable_spec (zlen d) b Hwf ltac:(lia)) as He. rw /append.
  destruct (_ <=? MAX_CAP); [|by rw He]. destruct He as (b1 & -> & Hwf1 & <- & Hfree).
  by destruct (write_tail_spec d b1 Hwf1 Hfree) as (b' & ? & ? & ? & _); exists b'.
Qed.

Lemma consume_spec n b :
  wf b → 0 ≤ n ≤ zlen (readable b) →
  wf (consume n b) ∧ readable (consume n b) = drop (Z.to_nat n) (readable b).
Proof.
  intros Hwf Hn. pose proof (wf_sizes b Hwf) as (_ & Hrs & Hrl). pose proof (wf_bounds b Hwf) as Hcap.
  destruct Hwf as [Hr Hw Hc]. rw /MAX_CAP in Hcap. rw /consume u64_id; [lia|].
  destruct (Z.eqb_spec (read_pos_ b + n) (write_pos_ b)) as [He|He].
  - split; [split; simpl; [lia|lia|done]|]. rw drop_ge //. lia.
  - split; [split; simpl; [lia|lia|done]|]. rw /readable Hrs {1}/readable_size /= u64_id; [lia|].
    rw /substr skipn_firstn_comm drop_drop. f_equal; [lia|f_equal; lia].
Qed.

Lemma empty_spec b : wf b → empty b = bool_decide (readable b = []).
Proof.
  intros Hwf. pose proof (wf_sizes b Hwf) as (_ & _ & Hrl). rw /empty.
  destruct (Z.eqb_spec (write_pos_ b) (read_pos_ b)); symmetry.
  - apply bool_decide_true. apply length_zero_iff_nil. lia.
  - apply bool_decide_false. intros H. rw H /= in Hrl. lia.
Qed.

End Buffer.
