(* ===== verification/Connection.v ===== *)
(** One client connection: src/network/Connection.{hpp,cpp}.

    The socket is a script: [inbox] holds what the successive calls of [recv]
    will report, [outbox] what those of [send] will; a script that has run out
    reports [EAGAIN], and a call of [recv] takes no more bytes than it asks
    for.  [sent] is what the peer has been given.  The store and the metrics
    that the connection refers to are part of the state it changes; they are
    seen through [StoreOps] and [MetricsSink].  The mutex around [out_buf_] has no
    counterpart: each use of the buffer is one step here. *)

From S2P Require Import Prelude Lru Storage Resp Commands Buffer.

Module Connection.

(** [metrics_.record_command(latency_us)] *)
Class MetricsSink (Mt : Type) := { record_command : Z → Mt → outcome Mt }.

Record Connection := mkConn {
  fd_ : Z;
  closed_ : bool;
  in_buf_ : Buffer.Buffer;
  out_buf_ : Buffer.Buffer
}.

(** [Connection::Connection] *)
Definition new_connection (fd : Z) : Connection :=
  mkConn fd false (Buffer.new_buffer Buffer.INITIAL_CAP) (Buffer.new_buffer Buffer.INITIAL_CAP).

(** What the next [recv] finds: bytes, the end of the stream, [EINTR], or
    another error. *)
Inductive RecvEvent :=
  | RData (d : bytes)
  | REof
  | RIntr
  | RError.

(** What the next [send] reports: how many bytes it would take, [EINTR], or
    another error. *)
Inductive SendEvent :=
  | SAccept (n : nat)
  | SIntr
  | SError.

(** The results of the two calls. *)
Inductive IoResult (A : Type) := Done (a : A) | Again | Intr | Failed.
Arguments Done {A} a.
Arguments Again {A}.
Arguments Intr {A}.
Arguments Failed {A}.

Record Net (W Mt : Type) := mkNet {
  conn : Connection;
  world : W;                  (* the store *)
  metrics : Mt;
  us_clock : nat → Z;         (* the readings of [steady_clock] *)
  us_ticks : nat;
  inbox : list RecvEvent;
  outbox : list SendEvent;
  sent : bytes
}.
Arguments mkNet {W Mt} conn world metrics us_clock us_ticks inbox outbox sent.
Arguments conn {W Mt} n.
Arguments world {W Mt} n.
Arguments metrics {W Mt} n.
Arguments us_clock {W Mt} n.
Arguments us_ticks {W Mt} n.
Arguments inbox {W Mt} n.
Arguments outbox {W Mt} n.
Arguments sent {W Mt} n.

Section Ops.
Context {W : Type} {ops : Commands.StoreOps W} {cc : Commands.Compiler} {limits : VecLimits}.
Context {Mt : Type} {sink : MetricsSink Mt}.

Implicit Types s : Net W Mt.

Definition with_conn (c : Connection) s : Net W Mt :=
  mkNet c (world s) (metrics s) (us_clock s) (us_ticks s) (inbox s) (outbox s) (sent s).
Definition with_in (b : Buffer.Buffer) s : Net W Mt :=
  with_conn (mkConn (fd_ (conn s)) (closed_ (conn s)) b (out_buf_ (conn s))) s.
Definition with_out (b : Buffer.Buffer) s : Net W Mt :=
  with_conn (mkConn (fd_ (conn s)) (closed_ (conn s)) (in_buf_ (conn s)) b) s.
Definition set_closed : M (Net W Mt) unit :=
  modify (λ s, with_conn (mkConn (fd_ (conn s)) true (in_buf_ (conn s)) (out_buf_ (conn s))) s).

(** An operation on the store. *)
Definition on_store {A} (m : M W A) : M (Net W Mt) A :=
  λ s, match m (world s) with
       | Ret (a, w) => Ret (a, mkNet (conn s) w (metrics s) (us_clock s) (us_ticks s)
                                 (inbox s) (outbox s) (sent s))
       | Fail f => Fail f
       end.

(** [util::now_us()] *)
Definition now_us : M (Net W Mt) Z :=
  λ s, Ret (us_clock s (us_ticks s),
            mkNet (conn s) (world s) (metrics s) (us_clock s) (S (us_ticks s))
              (inbox s) (outbox s) (sent s)).

Definition record (latency_us : Z) : M (Net W Mt) unit :=
  let! m := gets metrics in
  let! m' := lift (record_command latency_us m) in
  modify (λ s, mkNet (conn s) (world s) m' (us_clock s) (us_ticks s) (inbox s) (outbox s) (sent s)).

(** [Connection::write_response] *)
Definition write_response (resp : bytes) : M (Net W Mt) unit :=
  let! b := gets (λ s, out_buf_ (conn s)) in
  let! b' := lift (Buffer.append resp b) in
  modify (with_out b').

(** The loop of [Connection::process_commands]; [None] is the early return. *)
Fixpoint process_loop (fuel : nat) (batch_resp : bytes) : M (Net W Mt) (option bytes) :=
  let! view := gets (λ s, Buffer.readable (in_buf_ (conn s))) in
  match view with
  | [] => ret (Some batch_resp)
  | _ =>
      match fuel with
      | O => fail OutOfFuel
      | S fuel' =>
          let! t0 := now_us in
          let! result := lift (RespParser.parse view) in
          match status result with
          | Incomplete => ret (Some batch_resp)
          | Error =>
              write_response (RespSerializer.error (bs "protocol error")) ;;;
              set_closed ;;;
              ret None
          | Ok =>
              modify (λ s, with_in (Buffer.consume (consumed result) (in_buf_ (conn s))) s) ;;;
              let! resp := on_store (Commands.dispatch Commands.new_dispatcher (rvalue result)) in
              let! batch := lift (string_append batch_resp resp) in
              let! t1 := now_us in
              let! latency_us := lift (checked (t1 - t0)) in
              record latency_us ;;;
              process_loop fuel' batch
          end
      end
  end.

(** [Connection::process_commands]; each round consumes a byte. *)
Definition process_commands : M (Net W Mt) unit :=
  let! fuel := gets (λ s, length (Buffer.readable (in_buf_ (conn s)))) in
  let! r := process_loop fuel [] in
  match r with
  | None => ret tt
  | Some [] => ret tt
  | Some batch_resp => write_response batch_resp
  end.

(** [recv(fd_, ptr, len, MSG_DONTWAIT)] *)
Definition recv (len : Z) : M (Net W Mt) (IoResult bytes) := λ s,
  let put events :=
    mkNet (conn s) (world s) (metrics s) (us_clock s) (us_ticks s) events (outbox s) (sent s) in
  match inbox s with
  | [] => Ret (Again, s)
  | REof :: rest => Ret (Done [], put (REof :: rest))
  | RIntr :: rest => Ret (Intr, put rest)
  | RError :: rest => Ret (Failed, put rest)
  | RData d :: rest =>
      let n := Z.to_nat len in
      Ret (Done (take n d),
           put (match drop n d with [] => rest | more => RData more :: rest end))
  end.

(** The loop of [Connection::on_readable]: [Some b] is [return b], [None] leaves
    the loop. *)
Fixpoint read_loop (fuel : nat) : M (Net W Mt) (option bool) :=
  match fuel with
  | O => fail OutOfFuel
  | S fuel' =>
      let! b := gets (λ s, in_buf_ (conn s)) in
      let! b' := lift (Buffer.ensure_writable 4096 b) in
      modify (with_in b') ;;;
      let! n := recv (Buffer.writable_size b') in
      match n with
      | Done [] => set_closed ;;; ret (Some false)
      | Done d =>
          let! b'' := lift (Buffer.write_tail d b') in
          modify (with_in b'') ;;;
          read_loop fuel'
      | Again => ret None
      | Intr => read_loop fuel'
      | Failed => set_closed ;;; ret (Some false)
      end
  end.

(** Every call of [recv] shortens the script. *)
Definition event_size (e : RecvEvent) : nat :=
  match e with RData d => S (length d) | _ => 1%nat end.
Definition inbox_size (l : list RecvEvent) : nat := foldr (λ e n, (event_size e + n)%nat) 0%nat l.

(** [Connection::on_readable] *)
Definition on_readable : M (Net W Mt) bool :=
  let! fuel := gets (λ s, S (inbox_size (inbox s))) in
  let! r := read_loop fuel in
  match r with
  | Some b => ret b
  | None => process_commands ;;; gets (λ s, negb (closed_ (conn s)))
  end.

(** [send(fd_, data, size, MSG_NOSIGNAL | MSG_DONTWAIT)] *)
Definition send (data : bytes) : M (Net W Mt) (IoResult nat) := λ s,
  let put events out :=
    mkNet (conn s) (world s) (metrics s) (us_clock s) (us_ticks s) (inbox s) events out in
  match outbox s with
  | [] => Ret (Again, s)
  | SIntr :: rest => Ret (Intr, put rest (sent s))
  | SError :: rest => Ret (Failed, put rest (sent s))
  | SAccept n :: rest =>
      let n := Nat.min n (length data) in
      Ret (Done n, put rest (sent s ++ take n data))
  end.

(** The loop of [Connection::on_writable]; a [send] that reports 0 goes round
    again. *)
Fixpoint write_loop (fuel : nat) : M (Net W Mt) bool :=
  let! b := gets (λ s, out_buf_ (conn s)) in
  if Buffer.empty b then ret true else
  match fuel with
  | O => fail OutOfFuel
  | S fuel' =>
      let! n := send (Buffer.readable b) in
      match n with
      | Done n =>
          if Nat.ltb 0 n
          then modify (with_out (Buffer.consume (Z.of_nat n) b)) ;;; write_loop fuel'
          else write_loop fuel'
      | Again => ret true
      | Intr => write_loop fuel'
      | Failed => set_closed ;;; ret false
      end
  end.

(** [Connection::on_writable] *)
Definition on_writable : M (Net W Mt) bool :=
  let! fuel := gets (λ s, S (length (outbox s))) in
  write_loop fuel.

(** [Connection::has_pending_write], [Connection::is_closed] *)
Definition has_pending_write s : bool := negb (Buffer.empty (out_buf_ (conn s))).
Definition is_closed s : bool := closed_ (conn s).

End Ops.
End Connection.
