(* ===== verification/ConnectionThms.v ===== *)
(** The connection: whatever arrives and however it is cut into reads, the
    buffers stay in bounds, complete commands are executed in order, and their
    replies leave in order. *)

From S2P Require Import Prelude Lru Storage StorageInv StorageSpec StorageThms Resp RespThms Commands CommandsThms Persistence PersistenceThms Buffer Connection.

Module ConnectionThms.
Import Commands CommandsThms Connection RespThms.

(** ** The buffer as a queue *)

Inductive BufOp :=
  | BAppend (d : bytes)
  | BConsume (n : nat).

Fixpoint run_buffer (ops : list BufOp) (b : Buffer.Buffer) : outcome Buffer.Buffer :=
  match ops with
  | [] => Ret b
  | BAppend d :: ops' => let? b' := Buffer.append d b in run_buffer ops' b'
  | BConsume n :: ops' => run_buffer ops' (Buffer.consume (Z.of_nat n) b)
  end.

(** The contract: a list of bytes, at most [MAX_CAP] long; [None] when an append
    would exceed it.  [consume] is only called for bytes that are there. *)
Fixpoint queue (ops : list BufOp) (q : bytes) : option bytes :=
  match ops with
  | [] => Some q
  | BAppend d :: ops' => if zlen q + zlen d <=? Buffer.MAX_CAP then queue ops' (q ++ d) else None
  | BConsume n :: ops' => queue ops' (drop n q)
  end.

Fixpoint consumes_ok (ops : list BufOp) (q : bytes) : Prop :=
  match ops with
  | [] => True
  | BAppend d :: ops' => zlen d < 2 ^ 61 ∧ consumes_ok ops' (q ++ d)
  | BConsume n :: ops' => (n ≤ length q)%nat ∧ consumes_ok ops' (drop n q)
  end.

Lemma run_buffer_spec ops : ∀ b,
  Buffer.wf b → consumes_ok ops (Buffer.readable b) →
  match run_buffer ops b, queue ops (Buffer.readable b) with
  | Ret b', Some q => Buffer.wf b' ∧ Buffer.readable b' = q ∧ Buffer.readable_size b' = zlen q
  | Fail f, None => f = Throw (runtime_error Buffer.overflow_msg)
  | _, _ => False
  end.
Proof.
  induction ops as [|[d|n] ops IH]; intros b Hwf Hops; simpl in *.
  - split_and!; [done|done|]. by destruct (Buffer.wf_sizes b Hwf) as (_ & -> & ->).
  - destruct Hops as [Hd Hops]. pose proof (Buffer.append_spec d b Hwf Hd) as Ha.
    destruct (_ <=? _); [|by rw Ha]. destruct Ha as (b' & -> & Hwf' & Hr). simpl. rw -Hr.
    apply IH; [done|]. by rw Hr.
  - destruct Hops as [Hn Hops]. destruct (Buffer.consume_spec (Z.of_nat n) b Hwf) as [Hwf' Hr]; [lia|].
    rw Nat2Z.id in Hr. rw -Hr. apply IH; [done|]. by rw Hr.
Qed.

(** C25: a buffer is a bounded queue.  Appends and consumes, however they make
    the cursors wander, the contents move and the storage grow, give exactly the
    bytes of a queue; an append fails only when the unread bytes would exceed
    64 MiB. *)
Theorem buffer_is_bounded_queue ops :
  consumes_ok ops [] →
  match run_buffer ops (Buffer.new_buffer Buffer.INITIAL_CAP), queue ops [] with
  | Ret b', Some q => Buffer.wf b' ∧ Buffer.readable b' = q ∧ Buffer.readable_size b' = zlen q
  | Fail f, None => f = Throw (runtime_error Buffer.overflow_msg)
  | _, _ => False
  end.
Proof. destruct Buffer.new_buffer_wf as [Hwf Hr]. rw -Hr. by apply run_buffer_spec. Qed.

(** What a connection relies on in its metrics: a latency within [max_latency]
    is recorded, and the only way to fail is a conversion out of range. *)
Class MetricsLaws (Mt : Type) {sink : MetricsSink Mt} := {
  metrics_ok : Mt → Prop;
  max_latency : Z;
  record_ok : ∀ l m, metrics_ok m → 0 ≤ l ≤ max_latency →
    ∃ m', record_command l m = Ret m' ∧ metrics_ok m';
  record_fault : ∀ l m f, record_command l m = Fail f → f = Undef FloatToInt
}.

Section Safety.
Context {W : Type} {ops : StoreOps W} {safe : StoreSafe W} {cc : Compiler} {limits : VecLimits}.
Context {Mt : Type} {sink : MetricsSink Mt} {mlaws : MetricsLaws Mt}.
Import Store StoreInv StoreSpec.

Implicit Types s : Net W Mt.

Definition conn_ok s : Prop :=
  Buffer.wf (in_buf_ (conn s)) ∧ Buffer.wf (out_buf_ (conn s)) ∧ st_inv (world s).

(** The average is in its range and no command takes longer than can be
    averaged. *)
Definition timely s : Prop :=
  metrics_ok (metrics s) ∧ ∀ i, 0 ≤ us_clock s (S i) - us_clock s i ≤ max_latency.

(** What can stop a connection: memory for an array or a string that is not
    there, a buffer over its limit, what can stop a command, and, unless [T], a
    latency too large for its average. *)
Definition conn_fault (T : Prop) (f : fault) : Prop :=
  f = Throw length_error ∨ f = Throw bad_alloc ∨
  f = Throw (runtime_error Buffer.overflow_msg) ∨ handler_fault f ∨ (f = Undef FloatToInt ∧ ¬ T).

Lemma readable_bound s : conn_ok s → zlen (Buffer.readable (in_buf_ (conn s))) ≤ Buffer.MAX_CAP.
Proof.
  intros (Hin & _). pose proof (Buffer.wf_sizes _ Hin) as (_ & _ & ->).
  pose proof (Buffer.wf_bounds _ Hin). destruct Hin. lia.
Qed.

(** Handling input sends nothing and takes nothing out of the outgoing buffer. *)
Record grows s s' : Prop := {
  g_fd : fd_ (conn s') = fd_ (conn s);
  g_sent : sent s' = sent s;
  g_outbox : outbox s' = outbox s;
  g_clock : us_clock s' = us_clock s;
  g_out : ∃ x, Buffer.readable (out_buf_ (conn s')) = Buffer.readable (out_buf_ (conn s)) ++ x
}.

#[local] Instance grows_preorder : PreOrder grows.
Proof.
  split.
  - intros s. split; try done. exists []. by rw app_nil_r.
  - intros s1 s2 s3 [H1 H2 H3 H4 (x & Hx)] [K1 K2 K3 K4 (y & Hy)].
    split; [congruence..|]. exists (x ++ y). by rw Hy Hx app_assoc.
Qed.

(** Steps that change neither the outgoing side nor the clock. *)
Lemma grows_same s s' :
  fd_ (conn s') = fd_ (conn s) → out_buf_ (conn s') = out_buf_ (conn s) → sent s' = sent s →
  outbox s' = outbox s → us_clock s' = us_clock s → grows s s'.
Proof. intros H1 H2 H3 H4 H5. split; try done. exists []. by rw H2 app_nil_r. Qed.

Lemma write_response_safe T resp s :
  conn_ok s → zlen resp < 2 ^ 61 →
  wp (conn_fault T) (write_response resp)
    (λ _ s', conn_ok s' ∧ in_buf_ (conn s') = in_buf_ (conn s) ∧ grows s s') s.
Proof.
  intros (Hin & Hout & Hst) Hr. rw /write_response. wp_go.
  pose proof (Buffer.append_spec resp _ Hout Hr) as Ha.
  destruct (_ <=? _); [|rw Ha; right; right; by left].
  destruct Ha as (b' & -> & Hwf & Hrd). wp_go. split_and!; try done. split; try done. by exists resp.
Qed.

Ltac unchanged := wp_go; split_and!; try done; by apply grows_same.

Lemma process_loop_safe T fuel : ∀ batch s,
  conn_ok s → (T → timely s) → (length (Buffer.readable (in_buf_ (conn s))) ≤ fuel)%nat → zlen batch ≤ string_limit →
  wp (conn_fault T) (process_loop fuel batch)
    (λ r s', conn_ok s' ∧ grows s s' ∧
       match r with Some b => zlen b ≤ string_limit | None => closed_ (conn s') = true end ∧
       (r ≠ None → closed_ (conn s') = closed_ (conn s))) s.
Proof.
  induction fuel as [|fuel IH]; intros batch s Hok HT Hf Hb; cbn [process_loop]; wp_go.
  { destruct (Buffer.readable _); [unchanged|simpl in Hf; lia]. }
  pose proof (readable_bound s Hok) as Hsz.
  destruct (Buffer.readable (in_buf_ (conn s))) as [|c view] eqn:Hview; [unchanged|].
  rw -Hview. rw -Hview in Hf Hsz. clear Hview c view. apply wp_bind. rw {1}/wp /now_us. wp_go.
  pose proof (parse_fuel_post (S (length (Buffer.readable (in_buf_ (conn s))))) (Buffer.readable (in_buf_ (conn s))) ltac:(lia)) as Hp.
  specialize (Hp ltac:(rw /Buffer.MAX_CAP in Hsz; lia)).
  change (RespParser.parse_fuel _ _) with (RespParser.parse (Buffer.readable (in_buf_ (conn s)))) in Hp.
  destruct (RespParser.parse _) as [res|f]; [|destruct Hp as [->| ->]; [by left|right; by left]].
  destruct (status res) eqn:Hst; [|unchanged|].
  - specialize (Hp Hst). destruct Hok as (Hin & Hout & Hstore).
    destruct (Buffer.consume_spec (consumed res) (in_buf_ (conn s)) Hin) as [Hwf Hr]; [lia|].
    wp_go. rw {1}/wp /on_store. cbn [world with_in with_conn].
    pose proof (dispatch_ok (rvalue res) (world s) Hstore) as Hd. rw /wp in Hd.
    destruct (dispatch _ _ _) as [[resp w']|f]; [|do 3 right; left; done]. destruct Hd as [_ Hw'].
    wp_go. rw /string_append. destruct (Z.ltb_spec string_limit (zlen (batch ++ resp))); [right; by left|].
    apply wp_bind. rw {1}/wp /now_us. wp_go.
    match goal with |- match checked ?z with Ret _ => _ | Fail _ => _ end => rw /checked; destruct (in_i64 z) end;
      [|do 3 right; left; by left].
    rw /record. wp_go. cbn [metrics with_in with_conn].
    destruct (record_command _ (metrics s)) as [m'|f] eqn:Hrec; 
      [|do 4 right; split; [by eapply record_fault|];
        intros [Hm Hck]%HT; destruct (record_ok _ _ Hm (Hck (us_ticks s))) as (m' & Hm' & _); by rw Hrec in Hm'].
    wp_go. eapply wp_mono; [apply IH; [done| | |done]|].
    { intros [Hm Hck]%HT. split; [|done]. destruct (record_ok _ _ Hm (Hck (us_ticks s))) as (m'' & Hm' & ?).
      rw Hrec in Hm'. by injection Hm' as ->. }
    { cbn [conn with_in with_conn in_buf_]. rw Hr length_drop. lia. }
    intros r s' (? & Hg & ? & ?). split_and!; [done| |done..]. etrans; [|exact Hg]. by apply grows_same.
  - wp_go. eapply wp_mono; [apply write_response_safe; [done|by vm_compute]|].
    intros _ s' (Hok' & _ & Hg). rw /set_closed. wp_go. split_and!; try done.
    etrans; [|etrans; [exact Hg|]]; by apply grows_same.
Qed.

Lemma process_commands_safe T s :
  conn_ok s → (T → timely s) → wp (conn_fault T) process_commands (λ _ s', conn_ok s' ∧ grows s s') s.
Proof.
  intros Hok HT. rw /process_commands. wp_go. pose proof string_limit_range.
  eapply wp_mono; [apply process_loop_safe; [done|done|done|simpl; lia]|].
  intros [[|c b]|] s' (Hok' & Hg & Hb & _); wp_go; try done.
  eapply wp_mono; [apply write_response_safe; [done|lia]|]. intros _ s'' (? & _ & ?). split; [done|]. by etrans.
Qed.

(** What [ensure_writable(4096)] leaves in the loop of [on_readable]. *)
Lemma ensure_4096 b :
  Buffer.wf b →
  match Buffer.ensure_writable 4096 b with
  | Ret b' => Buffer.wf b' ∧ Buffer.readable b' = Buffer.readable b ∧ 4096 ≤ Buffer.writable_size b'
  | Fail f => f = Throw (runtime_error Buffer.overflow_msg)
  end.
Proof.
  intros Hwf. pose proof (Buffer.ensure_writable_spec 4096 b Hwf ltac:(lia)) as He.
  destruct (_ <=? Buffer.MAX_CAP); [by destruct He as (b' & -> & ?)|by rw He].
Qed.

Lemma read_loop_safe T fuel : ∀ s,
  conn_ok s → (inbox_size (inbox s) < fuel)%nat →
  wp (conn_fault T) (read_loop fuel) (λ r s', conn_ok s' ∧ grows s s' ∧ metrics s' = metrics s ∧
    (r ≠ None → r = Some false ∧ closed_ (conn s') = true)) s.
Proof.
  induction fuel as [|fuel IH]; intros s (Hin & Hout & Hst) Hf; [lia|]. cbn [read_loop]. wp_go.
  pose proof (ensure_4096 _ Hin) as He. destruct (Buffer.ensure_writable 4096 _) as [b'|f];
    [|rw He; do 2 right; by left]. destruct He as (Hwf & _ & Hfree). wp_go.
  rw {1}/wp /recv. cbn [inbox with_in with_conn]. destruct (inbox s) as [|[d| | |] rest] eqn:Hbox.
  - unchanged.
  - set (n := Z.to_nat (Buffer.writable_size b')). simpl in Hf.
    assert (zlen (take n d) ≤ Buffer.writable_size b') as Hfit by (rw length_take; lia).
    destruct (Buffer.write_tail_spec (take n d) b' Hwf Hfit) as (b'' & Hwt & Hwf'' & _ & _).
    destruct (take n d) as [|c t] eqn:Ht.
    { rw /set_closed. unchanged. }
    wp_go. rw Hwt. wp_go. eapply wp_mono; [apply IH; [done|]|].
    + cbn [inbox with_in with_conn].
      assert (0 < length (take n d))%nat by (rw Ht /=; lia). rw length_take in H.
      destruct (drop n d) as [|c' t'] eqn:Hd; simpl; [lia|].
      apply (f_equal length) in Hd. rw length_drop /= in Hd. lia.
    + intros r s' (? & Hg & ? & ?). split_and!; [done| |done..]. etrans; [|exact Hg]. by apply grows_same.
  - rw /set_closed. unchanged.
  - wp_go. eapply wp_mono; [apply IH; [done|simpl in *; lia]|].
    intros r s' (? & Hg & ? & ?). split_and!; [done| |done..]. etrans; [|exact Hg]. by apply grows_same.
  - rw /set_closed. unchanged.
Qed.

Lemma on_readable_safe T s :
  conn_ok s → (T → timely s) →
  wp (conn_fault T) on_readable (λ r s', conn_ok s' ∧ grows s s' ∧ r = negb (closed_ (conn s'))) s.
Proof.
  intros Hok HT. rw /on_readable. wp_go. eapply wp_mono; [by apply read_loop_safe; [|lia]|].
  intros [b|] s' (Hok' & Hg & Hm & Hr); wp_go.
  { by destruct (Hr ltac:(done)) as [[= ->] ->]. }
  eapply wp_mono; [apply process_commands_safe; [done|by rw /timely Hm (g_clock _ _ Hg)]|].
  intros ? s'' [Hok'' Hg']. wp_go. split_and!; [done|by etrans|done].
Qed.

(** ** Sending *)

Lemma write_loop_run fuel : ∀ s,
  Buffer.wf (out_buf_ (conn s)) → (length (outbox s) < fuel)%nat →
  wp no_fault (write_loop fuel) (λ r s',
    Buffer.wf (out_buf_ (conn s')) ∧ in_buf_ (conn s') = in_buf_ (conn s) ∧ world s' = world s ∧
    sent s' ++ Buffer.readable (out_buf_ (conn s')) = sent s ++ Buffer.readable (out_buf_ (conn s)) ∧
    closed_ (conn s') = closed_ (conn s) || negb r ∧
    (r = true → Buffer.readable (out_buf_ (conn s')) = [] ∨ outbox s' = []) ∧
    (r = false → ∃ pre, outbox s = pre ++ SError :: outbox s') ∧
    fd_ (conn s') = fd_ (conn s) ∧ inbox s' = inbox s ∧ us_clock s' = us_clock s ∧ metrics s' = metrics s ∧
    sent s `prefix_of` sent s') s.
Proof.
  induction fuel as [|fuel IH]; intros s Hwf Hf; [lia|]. cbn [write_loop]. wp_go.
  rw Buffer.empty_spec //. case_bool_decide as He.
  { wp_go. rw orb_false_r. by split_and!; auto. }
  assert (∀ e rest r (s' : Net W Mt), (r = false → ∃ pre, rest = pre ++ SError :: outbox s') →
    r = false → ∃ pre, e :: rest = pre ++ SError :: outbox s') as Hcons.
  { intros e rest r s' Hr [pre ->]%Hr. by exists (e :: pre). }
  wp_go. rw {1}/wp /send. destruct (outbox s) as [|[n| |] rest] eqn:Hbox; simpl in Hf.
  - wp_go. rw orb_false_r. by split_and!; auto.
  - set (k := Nat.min n (length (Buffer.readable (out_buf_ (conn s))))). destruct (Nat.ltb_spec 0 k).
    + wp_go. destruct (Buffer.consume_spec (Z.of_nat k) (out_buf_ (conn s)) Hwf) as [Hwf' Hr]; [lia|].
      rw Nat2Z.id in Hr. eapply wp_mono; [apply IH; [done|simpl; lia]|].
      cbn [conn with_out with_conn out_buf_ in_buf_ world sent closed_]. intros r s' (? & ? & ? & Hs & ? & ? & He' & ? & ? & ? & ? & Hpre).
      split_and!; [done|done|done| |done|done| |done..|]; [by rw Hs Hr -app_assoc take_drop|by apply Hcons|by eapply prefix_app_l].
    + assert (k = 0%nat) as -> by lia. rw app_nil_r. eapply wp_mono; [apply IH; [done|simpl; lia]|].
      intros r s' (? & ? & ? & ? & ? & ? & He' & ? & ? & ? & ? & ?). split_and!; try done. by apply Hcons.
  - eapply wp_mono; [apply IH; [done|simpl; lia]|].
    intros r s' (? & ? & ? & ? & ? & ? & He' & ? & ? & ? & ? & ?). split_and!; try done. by apply Hcons.
  - rw /set_closed. wp_go. simpl. rw orb_true_r. split_and!; try done. intros _. by exists [].
Qed.

(** C14: a connection is safe against its peer.  Whatever bytes, interruptions
    and errors the socket reports, handling a readable event ends and keeps both
    buffers and the store well-formed.  It can be stopped only by memory for an
    array or a reply that is not there, by a buffer over 64 MiB, by an [int64_t]
    overflow; by a pointer that does not fit its range only under a compiler that
    evaluates arguments from the right; and by a latency that cannot be averaged
    only if the average was out of its range before or the clock shows a command
    that took longer than [max_latency] (or less than no time). *)
Theorem connection_safe s :
  conn_ok s →
  match on_readable s with
  | Ret (_, s') => conn_ok s'
  | Fail f =>
      f = Throw length_error ∨ f = Throw bad_alloc ∨ f = Throw (runtime_error Buffer.overflow_msg) ∨
      f = Undef SignedOverflow ∨ (f = Undef BadPointer ∧ left_to_right = false) ∨
      (f = Undef FloatToInt ∧ ¬ timely s)
  end.
Proof.
  intros Hok. pose proof (on_readable_safe (timely s) s Hok (λ H, H)) as H. rw /wp in H.
  destruct (on_readable s) as [[r s']|f]; [by destruct H|]. rw /conn_fault /handler_fault in H. tauto.
Qed.

(** Sending loses nothing and reorders nothing.  Whatever the socket takes
    at a time, what the peer got followed by what is still buffered is what it
    was before; the handler returns true with bytes left only if the socket
    would block, and false only if it failed, which marks the connection closed. *)
Theorem on_writable_delivers s :
  Buffer.wf (out_buf_ (conn s)) →
  ∃ r s', on_writable s = Ret (r, s') ∧
    sent s' ++ Buffer.readable (out_buf_ (conn s')) = sent s ++ Buffer.readable (out_buf_ (conn s)) ∧
    Buffer.wf (out_buf_ (conn s')) ∧ in_buf_ (conn s') = in_buf_ (conn s) ∧ world s' = world s ∧
    closed_ (conn s') = closed_ (conn s) || negb r ∧
    (r = true → Buffer.readable (out_buf_ (conn s')) = [] ∨ outbox s' = []) ∧
    (r = false → ∃ pre, outbox s = pre ++ SError :: outbox s').
Proof.
  intros Hwf. destruct (wp_Ret _ _ _ (write_loop_run (S (length (outbox s))) s Hwf ltac:(lia)))
    as (r & s' & Hrun & ? & ? & ? & ? & ? & ? & ? & _).
  exists r, s'. by split_and!.
Qed.

End Safety.
(** ** Streams of commands *)

Section Pipeline.
Context {W : Type} {ops : StoreOps W} {safe : StoreSafe W} {cc : Compiler} {limits : VecLimits}.
Context {Mt : Type} {sink : MetricsSink Mt} {mlaws : MetricsLaws Mt}.
Import Store StoreInv StoreSpec.
Import PersistenceThms.

Implicit Types s : Net W Mt.

(** Commands executed one after the other, their replies concatenated. *)
Fixpoint run_cmds (cmds : list (list bytes)) : M W bytes :=
  match cmds with
  | [] => ret []
  | c :: cmds' =>
      let! r := dispatch new_dispatcher (command_value c) in
      let! rs := run_cmds cmds' in
      ret (r ++ rs)
  end.

Lemma run_cmds_app c1 c2 w rs w' :
  run_cmds (c1 ++ c2) w = Ret (rs, w') →
  ∃ r1 r2 w1, run_cmds c1 w = Ret (r1, w1) ∧ run_cmds c2 w1 = Ret (r2, w') ∧ rs = r1 ++ r2.
Proof.
  revert w rs. induction c1 as [|c c1 IH]; intros w rs Hrun.
  { by exists [], rs, w. }
  simpl in Hrun |- *. rw /bind in Hrun |- *.
  destruct (dispatch _ _ w) as [[r wa]|]; [|done].
  destruct (run_cmds (c1 ++ c2) wa) as [[rs' wb]|] eqn:Hr; [|done]. injection Hrun as <- <-.
  destruct (IH _ _ Hr) as (r1 & r2 & w1 & H1 & H2 & ->). exists (r ++ r1), r2, w1. by rw H1 -app_assoc.
Qed.

(** Where a cut of the stream falls: complete commands, then a strict prefix of
    the next one. *)
Lemma stream_split cmds x y :
  x ++ y = stream cmds →
  ∃ c1 c2 n c, cmds = c1 ++ c2 ∧ x = stream c1 ++ take n (RespSerializer.array c) ∧
    (n < length (RespSerializer.array c))%nat ∧ take n (RespSerializer.array c) ++ y = stream c2 ∧
    (c = [] ∧ n = 0%nat ∧ c2 = [] ∨ ∃ cs, c2 = c :: cs).
Proof.
  revert x. induction cmds as [|c cmds IH]; intros x Hx.
  { apply app_nil in Hx as [-> ->]. exists [], [], 0%nat, []. split_and!; [done..| |done|by left].
    vm_compute. lia. }
  change (stream (c :: cmds)) with (RespSerializer.array c ++ stream cmds) in Hx.
  destruct (decide (length x < length (RespSerializer.array c))%nat) as [Hlt|Hge].
  - assert (x = take (length x) (RespSerializer.array c)) as Hxe.
    { apply (f_equal (take (length x))) in Hx. by rw take_app_length take_app_le in Hx; [lia|]. }
    exists [], (c :: cmds), (length x), c. rw -Hxe. split_and!; [done..|right; by exists cmds].
  - assert (x = RespSerializer.array c ++ drop (length (RespSerializer.array c)) x) as Hxe.
    { rw -{1}(take_drop (length (RespSerializer.array c)) x). f_equal.
      apply (f_equal (take (length (RespSerializer.array c)))) in Hx.
      by rw take_app_length take_app_le in Hx; [lia|]. }
    rw Hxe -app_assoc in Hx. apply app_inv_head in Hx.
    destruct (IH _ Hx) as (c1 & c2 & n & c' & -> & Hd & Hn & Hy & Hc).
    exists (c :: c1), c2, n, c'. split_and!; [done| |done|done|done].
    rw Hxe Hd. change (stream (c :: c1)) with (RespSerializer.array c ++ stream c1). by rw app_assoc.
Qed.

(** The latencies can be recorded: the clock does not run backwards, no command
    takes longer than [max_latency], and the metrics are in order. *)
Definition clock_ok s : Prop :=
  (∀ i, 0 ≤ us_clock s i < 2 ^ 63 ∧ 0 ≤ us_clock s (S i) - us_clock s i ≤ max_latency) ∧
  metrics_ok (metrics s).

(** What handling input leaves alone. *)
Definition same_env s s' : Prop :=
  closed_ (conn s') = closed_ (conn s) ∧ inbox s' = inbox s ∧ us_clock s' = us_clock s ∧
  metrics_ok (metrics s').

Lemma process_done fuel batch s :
  Buffer.readable (in_buf_ (conn s)) = [] → process_loop fuel batch s = Ret (Some batch, s).
Proof. intros H. destruct fuel; cbn [process_loop]; by rw /bind /gets H. Qed.

Lemma process_step fuel batch s (Q : option bytes → Net W Mt → Prop) E :
  Buffer.readable (in_buf_ (conn s)) ≠ [] →
  wp E (process_loop (S fuel) batch) Q s =
  wp E (let! t0 := now_us in
    let! result := lift (RespParser.parse (Buffer.readable (in_buf_ (conn s)))) in
    match status result with
    | Incomplete => ret (Some batch)
    | Error =>
        write_response (RespSerializer.error (bs "protocol error")) ;;;
        set_closed ;;;
        ret None
    | Ok =>
        modify (λ s, with_in (Buffer.consume (consumed result) (in_buf_ (conn s))) s) ;;;
        let! resp := on_store (dispatch new_dispatcher (rvalue result)) in
        let! batch' := lift (string_append batch resp) in
        let! t1 := now_us in
        let! latency_us := lift (checked (t1 - t0)) in
        record latency_us ;;;
        process_loop fuel batch'
    end) Q s.
Proof.
  intros Hne. rw /wp. cbn [process_loop]. rw {1}/bind {1}/gets.
  by destruct (Buffer.readable (in_buf_ (conn s))).
Qed.

(** The loop executes the complete commands and goes on with what follows. *)
Lemma process_prefix E t (Q : option bytes → Net W Mt → Prop) : ∀ cmds fuel batch s rs w',
  Buffer.wf (in_buf_ (conn s)) → clock_ok s →
  Buffer.readable (in_buf_ (conn s)) = stream cmds ++ t → zlen (stream cmds ++ t) < 2 ^ 62 →
  Forall (λ c, reservable (zlen c)) cmds → (length cmds ≤ fuel)%nat →
  run_cmds cmds (world s) = Ret (rs, w') → zlen (batch ++ rs) ≤ string_limit →
  (∀ s', world s' = w' → Buffer.wf (in_buf_ (conn s')) → out_buf_ (conn s') = out_buf_ (conn s) →
     same_env s s' → Buffer.readable (in_buf_ (conn s')) = t →
     wp E (process_loop (fuel - length cmds) (batch ++ rs)) Q s') →
  wp E (process_loop fuel batch) Q s.
Proof.
  induction cmds as [|c cmds IH]; intros fuel batch s rs w' Hwf Hck Hview Hsz' Hres Hf Hrun Hsz Hk.
  { injection Hrun as <- <-. rw app_nil_r Nat.sub_0_r in Hk. destruct Hck. by apply Hk. }
  apply Forall_cons in Hres as [Hc Hres]. simpl in Hrun. rw {1}/bind in Hrun.
  destruct (dispatch _ (command_value c) (world s)) as [[r w1]|] eqn:Hd; [|done]. rw /bind in Hrun.
  destruct (run_cmds cmds w1) as [[rs' w2]|] eqn:Hr; [|done]. injection Hrun as <- <-.
  change (stream (c :: cmds)) with (RespSerializer.array c ++ stream cmds) in Hview, Hsz'.
  rw -app_assoc in Hview. rw -app_assoc in Hsz'.
  assert (Buffer.readable (in_buf_ (conn s)) ≠ []) as Hne by (rw Hview array_concat; done).
  destruct fuel as [|fuel]; [simpl in Hf; lia|]. rw process_step //. wp_go.
  rw {1}/wp /now_us. wp_go. rw {1}Hview parse_array_run //. cbn [status consumed rvalue].
  wp_go. rw {1}/wp /on_store. cbn [world with_in with_conn]. rw Hd. wp_go.
  rw /string_append (proj2 (Z.ltb_ge _ _)); [rw !length_app in Hsz |- *; lia|]. wp_go.
  rw {1}/wp /now_us. wp_go. destruct Hck as [Hck Hm].
  destruct (Hck (us_ticks s)) as [_ Hlat]. pose proof (proj1 (Hck (us_ticks s))). pose proof (proj1 (Hck (S (us_ticks s)))).
  rw /checked (proj2 (in_i64_spec _)); [simpl; lia|]. rw /record. wp_go.
  destruct (record_ok _ _ Hm Hlat) as (m' & Hrec & Hm'). cbn [metrics us_clock us_ticks with_in with_conn].
  rw Hrec. wp_go.
  destruct (Buffer.consume_spec (zlen (RespSerializer.array c)) (in_buf_ (conn s)) Hwf) as [Hwf' Hrd].
  { rw Hview. len. }
  rw Hview Nat2Z.id drop_app_length in Hrd. eapply (IH fuel (batch ++ r)); try done.
  - rw length_app in Hsz'. lia.
  - simpl in Hf. lia.
  - by rw -app_assoc.
  - intros s' Hw' Hin' Ho' (H1 & H2 & H3 & H4) Hrd'. rw -app_assoc. by apply Hk.
Qed.

Lemma process_loop_run last n cmds fuel s rs w' :
  reservable (zlen last) → (n < length (RespSerializer.array last))%nat →
  Buffer.wf (in_buf_ (conn s)) → clock_ok s →
  Buffer.readable (in_buf_ (conn s)) = stream cmds ++ take n (RespSerializer.array last) →
  zlen (RespSerializer.array last) < 2 ^ 62 → zlen (Buffer.readable (in_buf_ (conn s))) < 2 ^ 62 →
  Forall (λ c, reservable (zlen c)) cmds →
  (length cmds < fuel)%nat ∨ Buffer.readable (in_buf_ (conn s)) = [] →
  run_cmds cmds (world s) = Ret (rs, w') → zlen rs ≤ string_limit →
  wp no_fault (process_loop fuel []) (λ r s', r = Some rs ∧ world s' = w' ∧
    Buffer.wf (in_buf_ (conn s')) ∧ out_buf_ (conn s') = out_buf_ (conn s) ∧ same_env s s' ∧
    Buffer.readable (in_buf_ (conn s')) = take n (RespSerializer.array last)) s.
Proof.
  intros Hlast Hn Hwf Hck Hview Hl Hsz' Hres Hf Hrun Hsz.
  assert (length cmds ≤ fuel)%nat as Hf'.
  { destruct Hf as [|He]; [lia|]. rw He in Hview. destruct cmds as [|c cmds]; [simpl; lia|].
    change (stream (c :: cmds)) with (RespSerializer.array c ++ stream cmds) in Hview.
    by rw array_concat in Hview. }
  eapply process_prefix; try done; [by rw -Hview|].
  intros s' Hw' Hin' Ho' Henv Hrd'. cbn [app].
  destruct (decide (Buffer.readable (in_buf_ (conn s')) = [])) as [He|Hne].
  { by rw /wp process_done. }
  destruct Hf as [Hf|He].
  - replace (fuel - length cmds)%nat with (S (fuel - length cmds - 1)) by lia. rw process_step //. wp_go.
    rw {1}/wp /now_us. wp_go. by rw Hrd' parse_array_cut.
  - exfalso. rw He in Hview. symmetry in Hview. apply app_nil in Hview as [_ Ht]. by rw Ht in Hrd'.
Qed.

Lemma length_stream_ge (cmds : list (list bytes)) : (3 * length cmds ≤ length (stream cmds))%nat.
Proof.
  rw /stream. induction cmds as [|c cmds IH]; [simpl; lia|]. rw fmap_cons. cbn [concat].
  assert (3 ≤ length (RespSerializer.array c))%nat by (rw array_concat; len). len.
Qed.

(** One call of [process_commands] on complete commands and a piece of another. *)
Lemma process_commands_run last n cmds s rs w' :
  Buffer.wf (in_buf_ (conn s)) → Buffer.wf (out_buf_ (conn s)) → clock_ok s →
  Buffer.readable (in_buf_ (conn s)) = stream cmds ++ take n (RespSerializer.array last) →
  (n < length (RespSerializer.array last))%nat → zlen (RespSerializer.array last) < 2 ^ 62 →
  Forall (λ c, reservable (zlen c)) (last :: cmds) →
  run_cmds cmds (world s) = Ret (rs, w') → Buffer.MAX_CAP ≤ string_limit →
  zlen (Buffer.readable (out_buf_ (conn s))) + zlen rs ≤ Buffer.MAX_CAP →
  wp no_fault process_commands (λ _ s', world s' = w' ∧
    Buffer.wf (in_buf_ (conn s')) ∧ Buffer.wf (out_buf_ (conn s')) ∧ same_env s s' ∧
    Buffer.readable (in_buf_ (conn s')) = take n (RespSerializer.array last) ∧
    Buffer.readable (out_buf_ (conn s')) = Buffer.readable (out_buf_ (conn s)) ++ rs) s.
Proof.
  intros Hin Hout Hck Hview Hn Hl [Hlast Hres]%Forall_cons Hrun Hlim Hcap.
  pose proof (Buffer.wf_sizes _ Hin) as (_ & _ & Hlen). pose proof (Buffer.wf_bounds _ Hin) as Hb.
  rw /Buffer.MAX_CAP in Hb. rw /process_commands. wp_go.
  eapply wp_mono; [apply (process_loop_run last n cmds _ s rs w'); try done|].
  { destruct Hin. lia. }
  { destruct (decide (Buffer.readable (in_buf_ (conn s)) = [])) as [|Hne]; [by right|left].
    rw Hview. rw Hview in Hne. rw length_app. pose proof (length_stream_ge cmds).
    destruct cmds as [|c cmds]; [destruct (take n _); [done|simpl; lia]|]. simpl length in *. lia. }
  { lia. }
  intros r s' (-> & Hw & Hin' & Ho & (Hcl & Hbx & Hus) & Hrd).
  destruct rs as [|b rs]; wp_go; [rw app_nil_r; by rw Ho|].
  pose proof (Buffer.append_spec (b :: rs) (out_buf_ (conn s')) ltac:(by rw Ho)) as Ha.
  rw Ho in Ha. rw (proj2 (Z.leb_le _ _)) // in Ha.
  destruct Ha as (b' & Ha & Hwf' & Hrd'); [rw /Buffer.MAX_CAP in Hcap; lia|].
  rw /write_response. wp_go. rw Ho Ha. by wp_go.
Qed.

(** Reading one chunk, in as many calls of [recv] as it takes. *)
Lemma read_loop_data fuel : ∀ d s,
  Buffer.wf (in_buf_ (conn s)) →
  inbox s = match d with [] => [] | _ => [RData d] end → (length d < fuel)%nat →
  zlen (Buffer.readable (in_buf_ (conn s))) + zlen d + 4096 ≤ Buffer.MAX_CAP →
  wp no_fault (read_loop fuel) (λ r s', r = None ∧ Buffer.wf (in_buf_ (conn s')) ∧
    out_buf_ (conn s') = out_buf_ (conn s) ∧ closed_ (conn s') = closed_ (conn s) ∧
    inbox s' = [] ∧ us_clock s' = us_clock s ∧ metrics s' = metrics s ∧ world s' = world s ∧
    Buffer.readable (in_buf_ (conn s')) = Buffer.readable (in_buf_ (conn s)) ++ d) s.
Proof.
  induction fuel as [|fuel IH]; intros d s Hin Hbox Hf Hcap; [lia|]. cbn [read_loop]. wp_go.
  pose proof (Buffer.ensure_writable_spec 4096 _ Hin ltac:(lia)) as He.
  rw (proj2 (Z.leb_le _ _)) in He; [lia|]. destruct He as (b' & -> & Hwf & Hrd & Hfree). wp_go.
  rw {1}/wp /recv. cbn [inbox with_in with_conn]. rw Hbox.
  destruct d as [|c d]; [wp_go; by rw app_nil_r|].
  set (n := Z.to_nat (Buffer.writable_size b')).
  assert (zlen (take n (c :: d)) ≤ Buffer.writable_size b') as Hfit by (rw length_take; lia).
  destruct (Buffer.write_tail_spec (take n (c :: d)) b' Hwf Hfit) as (b'' & Hwt & Hwf'' & Hrd'' & _).
  assert (take n (c :: d) = c :: take (pred n) d) as Ht.
  { destruct n eqn:En; [lia|done]. }
  rw Ht. rw Ht in Hwt Hrd''. wp_go. rw Hwt. wp_go.
  assert (length (drop n (c :: d)) < length (c :: d))%nat as Hless.
  { rw length_drop /=. lia. }
  eapply wp_mono; [apply (IH (drop n (c :: d)))|].
  - done.
  - cbn [inbox with_in with_conn]. by destruct (drop n (c :: d)).
  - lia.
  - cbn [conn with_in with_conn in_buf_]. rw Hrd'' Hrd -Ht length_app length_take length_drop. simpl length in *. lia.
  - intros r s' (-> & ? & ? & ? & ? & ? & ? & ? & Hr). split_and!; [done..|].
    rw Hr. cbn [conn with_in with_conn in_buf_]. by rw Hrd'' Hrd -Ht -app_assoc take_drop.
Qed.

(** A chunk arrives and the event loop calls [on_readable]. *)
Definition deliver (d : bytes) : M (Net W Mt) bool :=
  modify (λ s, mkNet (conn s) (world s) (metrics s) (us_clock s) (us_ticks s) [RData d] (outbox s) (sent s)) ;;;
  on_readable.

Fixpoint deliver_all (chunks : list bytes) : M (Net W Mt) unit :=
  match chunks with
  | [] => ret tt
  | d :: chunks' => deliver d ;;; deliver_all chunks'
  end.

(** The unread bytes never hold a complete command. *)
Definition partial (p : bytes) (cmds : list (list bytes)) : Prop :=
  p = [] ∨ ∃ c cs n, cmds = c :: cs ∧ p = take n (RespSerializer.array c) ∧
    (n < length (RespSerializer.array c))%nat.

Lemma partial_end p cmds : partial p cmds → p = stream cmds → cmds = [] ∧ p = [].
Proof.
  intros Hp Heq. destruct cmds as [|c cmds]; [by subst|]. exfalso.
  apply (f_equal length) in Heq. change (stream (c :: cmds)) with (RespSerializer.array c ++ stream cmds) in Heq.
  rw length_app in Heq. destruct Hp as [->|(c' & cs & n & [= <- <-] & -> & Hn)].
  - rw array_concat in Heq. simpl in Heq. lia.
  - rw length_take in Heq. lia.
Qed.

(** The facts a run of the connection keeps. *)
Definition conn_inv s : Prop :=
  Buffer.wf (in_buf_ (conn s)) ∧ Buffer.wf (out_buf_ (conn s)) ∧ clock_ok s ∧ closed_ (conn s) = false.

Lemma deliver_run d cmds rest s rs w' :
  conn_inv s → d ≠ [] →
  Buffer.readable (in_buf_ (conn s)) ++ d ++ rest = stream cmds →
  Forall (λ c, reservable (zlen c)) ([] :: cmds) →
  run_cmds cmds (world s) = Ret (rs, w') → Buffer.MAX_CAP ≤ string_limit →
  zlen (Buffer.readable (out_buf_ (conn s))) + zlen rs ≤ Buffer.MAX_CAP →
  zlen (stream cmds) + 4096 ≤ Buffer.MAX_CAP →
  ∃ c1 c2 r1 r2 w1, cmds = c1 ++ c2 ∧ run_cmds c2 w1 = Ret (r2, w') ∧ rs = r1 ++ r2 ∧
    wp no_fault (deliver d) (λ ok s', ok = true ∧ conn_inv s' ∧ world s' = w1 ∧
      partial (Buffer.readable (in_buf_ (conn s'))) c2 ∧
      Buffer.readable (in_buf_ (conn s')) ++ rest = stream c2 ∧
      Buffer.readable (out_buf_ (conn s')) = Buffer.readable (out_buf_ (conn s)) ++ r1 ∧ inbox s' = []) s.
Proof.
  intros (Hin & Hout & Hck & Hcl) Hd Hs [H0 Hres]%Forall_cons Hrun Hlim Hout' Hfit. rw app_assoc in Hs.
  destruct (stream_split _ _ _ Hs) as (c1 & c2 & n & c & -> & Hx & Hn & Hy & Hc).
  apply Forall_app in Hres as [Hres1 Hres2].
  destruct (run_cmds_app _ _ _ _ _ Hrun) as (r1 & r2 & w1 & Hr1 & Hr2 & ->).
  exists c1, c2, r1, r2, w1. split_and!; [done..|]. rw /deliver. wp_go. rw /on_readable. wp_go.
  assert (zlen (Buffer.readable (in_buf_ (conn s))) + zlen d ≤ zlen (stream (c1 ++ c2))) as Hlen.
  { rw -Hs. len. }
  eapply wp_mono; [apply (read_loop_data _ d); simpl; [done|by destruct d|lia|lia]|].
  cbn [conn world us_clock metrics]. intros r s1 (-> & Hin1 & Ho1 & Hc1 & Hb1 & Hu1 & Hm1 & Hw1 & Hrd1). wp_go.
  rw Hx in Hrd1. rw length_app in Hout'.
  eapply wp_mono; [apply (process_commands_run c n c1 s1 r1 w1); rw ?Ho1 ?Hw1; try done|].
  { by rw /clock_ok Hu1 Hm1. }
  { destruct Hc as [(-> & _ & _)|[cs ->]]; [by vm_compute|].
    rw /Buffer.MAX_CAP in Hfit.
    assert (zlen (RespSerializer.array c) ≤ zlen (stream (c1 ++ c :: cs))); [|lia].
    rw /stream fmap_app concat_app fmap_cons. cbn [concat]. len. }
  { constructor; [|done]. destruct Hc as [(-> & _ & _)|[cs ->]]; [done|]. by apply Forall_cons in Hres2 as [? _]. }
  { lia. }
  intros _ s2 (Hw2 & Hin2 & Hout2 & (Hcl2 & Hbx2 & Hu2 & Hm2) & Hrd2 & Hro2). wp_go.
  rw Ho1 in Hro2. rw Hcl2 Hc1 Hcl Hrd2 Hro2. split_and!; try done.
  - split_and!; [done|done| |congruence]. rw /clock_ok Hu2 Hu1. split; [apply Hck|done].
  - destruct Hc as [(-> & -> & ->)|[cs ->]]; [by left|right]. by exists c, cs, n.
  - by rw Hbx2.
Qed.

(** A read that finds whole commands. *)
Lemma request_run cmds s rs w' :
  conn_inv s → Buffer.readable (in_buf_ (conn s)) = [] → inbox s = [RData (stream cmds)] → cmds ≠ [] →
  Forall (λ c, reservable (zlen c)) ([] :: cmds) →
  run_cmds cmds (world s) = Ret (rs, w') → Buffer.MAX_CAP ≤ string_limit →
  zlen (Buffer.readable (out_buf_ (conn s))) + zlen rs ≤ Buffer.MAX_CAP →
  zlen (stream cmds) + 4096 ≤ Buffer.MAX_CAP →
  wp no_fault on_readable (λ ok s', ok = true ∧ conn_inv s' ∧ world s' = w' ∧ inbox s' = [] ∧
    Buffer.readable (in_buf_ (conn s')) = [] ∧
    Buffer.readable (out_buf_ (conn s')) = Buffer.readable (out_buf_ (conn s)) ++ rs) s.
Proof.
  intros Hinv He Hbox Hne Hres Hrun Hlim Hout Hfit.
  destruct (deliver_run (stream cmds) cmds [] s rs w') as (c1 & c2 & r1 & r2 & w1 & -> & Hr2 & -> & Hd); try done.
  { destruct cmds as [|c cmds]; [done|]. rw /stream fmap_cons. cbn [concat]. by rw array_concat. }
  { by rw He app_nil_r. }
  rw /deliver in Hd. assert (mkNet (conn s) (world s) (metrics s) (us_clock s) (us_ticks s)
    [RData (stream (c1 ++ c2))] (outbox s) (sent s) = s) as Hs by (rw -Hbox; by destruct s).
  rw /wp /bind /modify Hs in Hd. eapply wp_mono; [exact Hd|].
  intros ok s' (-> & Hinv' & Hw1 & Hp & Hs2 & Ho & Hb). rw app_nil_r in Hs2.
  destruct (partial_end _ _ Hp Hs2) as [-> Hrd]. injection Hr2 as <- <-. by rw app_nil_r.
Qed.

Lemma deliver_all_run chunks : ∀ cmds s rs w',
  conn_inv s → Forall (λ d, d ≠ []) chunks →
  partial (Buffer.readable (in_buf_ (conn s))) cmds →
  Buffer.readable (in_buf_ (conn s)) ++ concat chunks = stream cmds →
  Forall (λ c, reservable (zlen c)) ([] :: cmds) →
  run_cmds cmds (world s) = Ret (rs, w') → Buffer.MAX_CAP ≤ string_limit →
  zlen (Buffer.readable (out_buf_ (conn s))) + zlen rs ≤ Buffer.MAX_CAP →
  zlen (stream cmds) + 4096 ≤ Buffer.MAX_CAP →
  wp no_fault (deliver_all chunks) (λ _ s', world s' = w' ∧ closed_ (conn s') = false ∧
    Buffer.readable (in_buf_ (conn s')) = [] ∧
    Buffer.readable (out_buf_ (conn s')) = Buffer.readable (out_buf_ (conn s)) ++ rs) s.
Proof.
  induction chunks as [|d chunks IH]; intros cmds s rs w' Hinv Hne Hpart Hs Hres Hrun Hlim Hout Hfit.
  - rw app_nil_r in Hs. destruct (partial_end _ _ Hpart Hs) as [-> Hempty]. injection Hrun as <- <-.
    apply wp_ret. rw app_nil_r. destruct Hinv as (_ & _ & _ & ?). by split_and!.
  - apply Forall_cons in Hne as [Hd Hne]. cbn [deliver_all]. apply wp_bind.
    destruct (deliver_run d cmds (concat chunks) s rs w') as
      (c1 & c2 & r1 & r2 & w1 & -> & Hr2 & -> & Hrun1); [done..|].
    eapply wp_mono; [exact Hrun1|]. intros ok s1 (_ & Hinv1 & Hw1 & Hpart1 & Hs1 & Ho1 & _).
    apply Forall_cons in Hres as [H0 [_ Hres2]%Forall_app]. rw length_app in Hout.
    eapply wp_mono; [apply (IH c2 s1 r2 w'); try done|].
    + by constructor.
    + by rw Hw1.
    + rw Ho1. len.
    + assert (stream (c1 ++ c2) = stream c1 ++ stream c2) as Happ by (by rw /stream fmap_app concat_app).
      rw Happ in Hfit. len.
    + intros _ s2 (? & ? & ? & Ho2). split_and!; [done..|]. by rw Ho2 Ho1 -app_assoc.
Qed.

(** C9: pipelining and fragmentation are transparent.  However the bytes of a
    sequence of commands are cut into reads, the connection executes exactly
    these commands, in order, each once, as a sequential client would, and
    queues their replies in the same order; nothing stays unread.  Commands and
    replies fit the buffers, and executing the commands does not overflow. *)
Theorem chunking_transparent chunks cmds s rs w' :
  conn_inv s → Buffer.readable (in_buf_ (conn s)) = [] →
  Forall (λ d, d ≠ []) chunks → concat chunks = stream cmds →
  Forall (λ c, reservable (zlen c)) ([] :: cmds) →
  run_cmds cmds (world s) = Ret (rs, w') → Buffer.MAX_CAP ≤ string_limit →
  zlen (Buffer.readable (out_buf_ (conn s))) + zlen rs ≤ Buffer.MAX_CAP →
  zlen (stream cmds) + 4096 ≤ Buffer.MAX_CAP →
  ∃ s', deliver_all chunks s = Ret (tt, s') ∧ world s' = w' ∧ closed_ (conn s') = false ∧
    Buffer.readable (in_buf_ (conn s')) = [] ∧
    Buffer.readable (out_buf_ (conn s')) = Buffer.readable (out_buf_ (conn s)) ++ rs.
Proof.
  intros Hinv Hempty Hne Hc Hres Hrun Hlim Hout Hfit.
  destruct (wp_Ret _ _ _ (deliver_all_run chunks cmds s rs w' Hinv Hne ltac:(by left)
    ltac:(by rw Hempty) Hres Hrun Hlim Hout Hfit)) as ([] & s' & ? & ?). by exists s'.
Qed.

(** Replies that no longer fit the outgoing buffer. *)
Lemma overflow_run cmds s rs w' :
  conn_inv s → Buffer.readable (in_buf_ (conn s)) = [] → inbox s = [RData (stream cmds)] → cmds ≠ [] →
  Forall (λ c, reservable (zlen c)) ([] :: cmds) →
  run_cmds cmds (world s) = Ret (rs, w') → zlen rs ≤ string_limit → zlen (stream cmds) + 4096 ≤ Buffer.MAX_CAP →
  Buffer.MAX_CAP < zlen (Buffer.readable (out_buf_ (conn s))) + zlen rs →
  wp (λ f, f = Throw (runtime_error Buffer.overflow_msg)) on_readable (λ _ _, False) s.
Proof.
  intros (Hin & Hout & Hck & Hcl) He Hbox Hne [H0 Hres]%Forall_cons Hrun Hlim Hfit Hover.
  pose proof (length_stream_ge cmds) as Hlen.
  rw /on_readable. wp_go. apply wp_faultless. eapply wp_mono; [apply (read_loop_data _ (stream cmds)); rw ?He ?Hbox //|].
  { destruct cmds as [|c0 cs]; [done|]. destruct (stream (c0 :: cs)); [|done]. simpl in Hlen. lia. }
  { simpl. lia. }
  intros ? s1 (-> & Hin1 & Ho1 & Hc1 & Hb1 & Hu1 & Hm1 & Hw1 & Hrd1). rw He app_nil_l in Hrd1. wp_go.
  rw /process_commands. wp_go. apply wp_faultless.
  eapply wp_mono; [apply (process_loop_run [] 0 cmds _ s1 rs w'); rw ?Hw1 ?Hrd1 ?app_nil_r //|].
  { vm_compute. lia. }
  { by rw /clock_ok Hu1 Hm1. }
  { rw /Buffer.MAX_CAP in Hfit. lia. }
  { destruct cmds as [|c cmds]; [done|]. left. simpl length in *. lia. }
  intros ? s2 (-> & _ & _ & Ho2 & _). pose proof string_limit_range.
  destruct rs as [|b rs].
  { pose proof (Buffer.wf_sizes _ Hout) as (_ & _ & Hl). pose proof (Buffer.wf_bounds _ Hout).
    destruct Hout. simpl in Hover. lia. }
  wp_go. rw /write_response. wp_go. rw Ho2 Ho1.
  pose proof (Buffer.append_spec (b :: rs) _ Hout ltac:(lia)) as Ha. rw (proj2 (Z.leb_gt _ _)) // in Ha. by rw Ha.
Qed.

(** Complete commands and then something that is not RESP. *)
Lemma protocol_error_run cmds bad r s rs w' :
  Buffer.wf (in_buf_ (conn s)) → Buffer.wf (out_buf_ (conn s)) → clock_ok s →
  Buffer.readable (in_buf_ (conn s)) = stream cmds ++ bad → bad ≠ [] →
  RespParser.parse bad = Ret r → status r = Error →
  Forall (λ c, reservable (zlen c)) cmds →
  run_cmds cmds (world s) = Ret (rs, w') → zlen rs ≤ string_limit →
  zlen (Buffer.readable (out_buf_ (conn s))) + 100 ≤ Buffer.MAX_CAP →
  wp no_fault process_commands (λ _ s', world s' = w' ∧ closed_ (conn s') = true ∧
    Buffer.readable (out_buf_ (conn s')) =
      Buffer.readable (out_buf_ (conn s)) ++ RespSerializer.error (bs "protocol error")) s.
Proof.
  intros Hin Hout Hck Hview Hbad Hp Hst Hres Hrun Hsz Hcap.
  pose proof (Buffer.wf_sizes _ Hin) as (_ & _ & Hlen). pose proof (Buffer.wf_bounds _ Hin) as Hb.
  assert (zlen (stream cmds ++ bad) < 2 ^ 62) as Hfit.
  { rw -Hview. rw /Buffer.MAX_CAP in Hb. destruct Hin. lia. }
  assert (length cmds < length (stream cmds ++ bad))%nat as Hfuel.
  { pose proof (length_stream_ge cmds). destruct bad; [done|]. rw length_app. simpl. lia. }
  rw /process_commands. wp_go.
  eapply (process_prefix _ bad _ cmds _ [] s rs w'); try done; [rw Hview; lia|].
  intros s' Hw' Hin' Ho' (Hcl & _) Hrd'. rw Hview.
  replace (length (stream cmds ++ bad) - length cmds)%nat
    with (S (length (stream cmds ++ bad) - length cmds - 1)) by lia.
  rw process_step; [by rw Hrd'|]. wp_go. rw {1}/wp /now_us. wp_go. rw Hrd' Hp Hst /write_response. wp_go.
  pose proof (Buffer.append_spec (RespSerializer.error (bs "protocol error")) _ Hout ltac:(done)) as Ha.
  change (zlen (RespSerializer.error (bs "protocol error"))) with 21 in Ha.
  rw (proj2 (Z.leb_le _ _)) in Ha; [lia|]. destruct Ha as (b' & Ha & Hwf' & Hrd'').
  cbn [conn]. rw Ho' Ha. wp_go. rw /set_closed. by wp_go.
Qed.

(** A protocol error swallows the replies of the commands before it.  The
    commands are executed, but of everything [process_commands] had to say only
    the error line reaches the buffer, and the connection is marked closed. *)
Theorem protocol_error_drops_replies cmds bad r s rs w' :
  Buffer.wf (in_buf_ (conn s)) → Buffer.wf (out_buf_ (conn s)) → clock_ok s →
  Buffer.readable (in_buf_ (conn s)) = stream cmds ++ bad → bad ≠ [] →
  RespParser.parse bad = Ret r → status r = Error →
  Forall (λ c, reservable (zlen c)) cmds →
  run_cmds cmds (world s) = Ret (rs, w') → zlen rs ≤ string_limit →
  zlen (Buffer.readable (out_buf_ (conn s))) + 100 ≤ Buffer.MAX_CAP →
  ∃ s', process_commands s = Ret (tt, s') ∧ world s' = w' ∧ closed_ (conn s') = true ∧
    Buffer.readable (out_buf_ (conn s')) =
      Buffer.readable (out_buf_ (conn s)) ++ RespSerializer.error (bs "protocol error").
Proof.
  intros. destruct (wp_Ret _ _ _ (protocol_error_run cmds bad r s rs w' ltac:(done) ltac:(done) ltac:(done)
    ltac:(done) ltac:(done) ltac:(done) ltac:(done) ltac:(done) ltac:(done) ltac:(done) ltac:(done))) as ([] & s' & ? & ?).
  by exists s'.
Qed.

(** A peer that sends commands and closes gets nothing.  When the end of
    the stream is seen in the same event as the last bytes, [on_readable]
    returns false at once; the commands it has just read are not executed. *)
Theorem eof_drops_commands d s :
  Buffer.wf (in_buf_ (conn s)) → d ≠ [] → zlen d ≤ Buffer.writable_size (in_buf_ (conn s)) →
  4096 ≤ Buffer.writable_size (in_buf_ (conn s)) - zlen d → inbox s = [RData d; REof] →
  ∃ s', on_readable s = Ret (false, s') ∧ world s' = world s ∧ closed_ (conn s') = true ∧
    Buffer.readable (in_buf_ (conn s')) = Buffer.readable (in_buf_ (conn s)) ++ d.
Proof.
  intros Hin Hd Hfit Hroom Hbox.
  enough (wp no_fault on_readable (λ r s', r = false ∧ world s' = world s ∧ closed_ (conn s') = true ∧
    Buffer.readable (in_buf_ (conn s')) = Buffer.readable (in_buf_ (conn s)) ++ d) s) as Hwp.
  { destruct (wp_Ret _ _ _ Hwp) as (r & s' & ? & -> & ?). by exists s'. }
  assert (∀ b, 4096 ≤ Buffer.writable_size b → Buffer.ensure_writable 4096 b = Ret b) as Hens.
  { intros b Hb. by rw /Buffer.ensure_writable (proj2 (Z.leb_le _ _)). }
  rw /on_readable. wp_go. rw Hbox. cbn [inbox_size event_size foldr]. rw Nat.add_comm. cbn [Nat.add read_loop].
  wp_go. rw Hens; [lia|]. wp_go. rw {1}/wp /recv. cbn [inbox with_in with_conn]. rw Hbox.
  rw take_ge; [lia|]. rw drop_ge; [lia|]. destruct d as [|c d]; [done|]. wp_go.
  destruct (Buffer.write_tail_spec (c :: d) (in_buf_ (conn s)) Hin Hfit) as (b & -> & Hwf & Hrd & Hws).
  wp_go. rw Hens; [cbn [conn with_in with_conn in_buf_]; lia|]. wp_go.
  rw {1}/wp /recv. cbn [inbox with_in with_conn]. rw /set_closed. by wp_go.
Qed.

End Pipeline.
(** ** Concrete runs *)

Module Demo.
Import Store StoreInv StoreSpec StoreThms.Demo PersistenceThms PersistenceThms.Demo.
#[local] Existing Instances demo_platform demo_compiler demo_limits.

(** Metrics that only count. *)
#[local] Instance demo_sink : MetricsSink nat := {| record_command _ n := Ret (S n) |}.

#[local] Program Instance demo_laws : MetricsLaws nat := {| metrics_ok _ := True; max_latency := 1000 |}.
Next Obligation. intros l m _ _. by exists (S m). Qed.
Next Obligation. done. Qed.

Definition demo_net (input : list RecvEvent) (output : list SendEvent) : Net Store.World nat :=
  mkNet (new_connection 7) demo0 0%nat (λ _, 5) 0 input output [].

Definition demo_cmds : list (list bytes) := [[bs "PING"]; [bs "SET"; bs "a"; bs "1"]].

Lemma fresh_wf : Buffer.wf (Buffer.new_buffer Buffer.INITIAL_CAP).
Proof. apply Buffer.new_buffer_wf. Qed.

Lemma fresh_writable : Buffer.writable_size (Buffer.new_buffer Buffer.INITIAL_CAP) = 4096.
Proof. destruct (Buffer.wf_sizes _ fresh_wf) as (-> & _). reflexivity. Qed.

Lemma buffer_is_bounded_queue_witness :
  match run_buffer [BAppend (bs "abc"); BConsume 2; BAppend (bs "de")] (Buffer.new_buffer Buffer.INITIAL_CAP),
        queue [BAppend (bs "abc"); BConsume 2; BAppend (bs "de")] [] with
  | Ret b', Some q => Buffer.wf b' ∧ Buffer.readable b' = q ∧ Buffer.readable_size b' = zlen q
  | Fail f, None => f = Throw (runtime_error Buffer.overflow_msg)
  | _, _ => False
  end.
Proof.
  apply (buffer_is_bounded_queue [BAppend (bs "abc"); BConsume 2; BAppend (bs "de")]).
  simpl. split_and!; lia.
Defined.

Lemma demo_conn_ok input output : conn_ok (demo_net input output).
Proof. split_and!; [apply fresh_wf..|apply new_store_ok]. Qed.

Lemma connection_safe_witness :
  let s := demo_net [RData (bs "*-2"); RIntr; RData CRLF; RError] [] in
  match on_readable s with
  | Ret (_, s') => conn_ok s'
  | Fail f =>
      f = Throw length_error ∨ f = Throw bad_alloc ∨ f = Throw (runtime_error Buffer.overflow_msg) ∨
      f = Undef SignedOverflow ∨ (f = Undef BadPointer ∧ left_to_right = false) ∨
      (f = Undef FloatToInt ∧ ¬ timely s)
  end.
Proof. apply (connection_safe (demo_net [RData (bs "*-2"); RIntr; RData CRLF; RError] [])), demo_conn_ok. Defined.

Lemma on_writable_delivers_witness :
  ∃ r s', on_writable (demo_net [] [SAccept 3]) = Ret (r, s') ∧
    sent s' ++ Buffer.readable (out_buf_ (conn s')) = [] ∧
    Buffer.wf (out_buf_ (conn s')) ∧ in_buf_ (conn s') = Buffer.new_buffer Buffer.INITIAL_CAP ∧
    world s' = demo0 ∧ closed_ (conn s') = false || negb r ∧
    (r = true → Buffer.readable (out_buf_ (conn s')) = [] ∨ outbox s' = []) ∧
    (r = false → ∃ pre, [SAccept 3] = pre ++ SError :: outbox s').
Proof. apply (on_writable_delivers (demo_net [] [SAccept 3])), fresh_wf. Defined.

Definition demo_run : bytes * World :=
  match run_cmds demo_cmds demo0 with Ret r => r | Fail _ => ([], demo0) end.

Lemma demo_run_eq : run_cmds demo_cmds demo0 = Ret (demo_run.1, demo_run.2).
Proof.
  assert (match run_cmds demo_cmds demo0 with Ret _ => true | Fail _ => false end = true) as Hok
    by (vm_compute; reflexivity).
  rw /demo_run. by destruct (run_cmds demo_cmds demo0) as [[r w]|].
Qed.

Lemma demo_replies : demo_run.1 = RespSerializer.simple (bs "PONG") ++ RespSerializer.ok.
Proof. vm_compute. reflexivity. Qed.

Lemma chunking_transparent_witness :
  ∃ s', deliver_all [take 9 (stream demo_cmds); drop 9 (stream demo_cmds)] (demo_net [] []) = Ret (tt, s') ∧
    world s' = demo_run.2 ∧ closed_ (conn s') = false ∧ Buffer.readable (in_buf_ (conn s')) = [] ∧
    Buffer.readable (out_buf_ (conn s')) = [] ++ demo_run.1.
Proof.
  apply (chunking_transparent [take 9 (stream demo_cmds); drop 9 (stream demo_cmds)] demo_cmds
    (demo_net [] []) demo_run.1 demo_run.2).
  - split_and!; [apply fresh_wf..|split; [by intros i|done]|done].
  - apply Buffer.new_buffer_wf.
  - repeat constructor; vm_compute; discriminate.
  - vm_compute. reflexivity.
  - repeat constructor; apply reservable_small; vm_compute; discriminate.
  - exact demo_run_eq.
  - vm_compute. discriminate.
  - rw demo_replies. vm_compute. discriminate.
  - vm_compute. discriminate.
Defined.

(** A connection whose buffer already holds some bytes. *)
Definition loaded (d : bytes) : Net Store.World nat :=
  match Buffer.append d (Buffer.new_buffer Buffer.INITIAL_CAP) with
  | Ret b => with_in b (demo_net [] [])
  | Fail _ => demo_net [] []
  end.

Lemma loaded_spec d :
  zlen d ≤ 4096 →
  Buffer.wf (in_buf_ (conn (loaded d))) ∧ Buffer.readable (in_buf_ (conn (loaded d))) = d ∧
  out_buf_ (conn (loaded d)) = Buffer.new_buffer Buffer.INITIAL_CAP ∧ world (loaded d) = demo0 ∧
  clock_ok (loaded d).
Proof.
  intros Hd. pose proof (Buffer.append_spec d _ fresh_wf ltac:(lia)) as Ha.
  rw (proj2 Buffer.new_buffer_wf) in Ha. rw (proj2 (Z.leb_le _ _)) in Ha; [rw /Buffer.MAX_CAP /=; lia|].
  destruct Ha as (b & Hb & Hwf & Hr). rw /loaded Hb. cbn [conn with_in with_conn in_buf_ out_buf_ world].
  split_and!; [exact Hwf|exact Hr|reflexivity|reflexivity|]. split; [|done]. intros i. cbn [us_clock with_in with_conn demo_net max_latency demo_laws]. lia.
Qed.

Lemma protocol_error_drops_replies_witness :
  ∃ s', process_commands (loaded (stream demo_cmds ++ bs "?")) = Ret (tt, s') ∧
    world s' = demo_run.2 ∧ closed_ (conn s') = true ∧
    Buffer.readable (out_buf_ (conn s')) =
      Buffer.readable (out_buf_ (conn (loaded (stream demo_cmds ++ bs "?")))) ++
        RespSerializer.error (bs "protocol error").
Proof.
  destruct (loaded_spec (stream demo_cmds ++ bs "?")) as (Hwf & Hrd & Ho & Hw & Hck).
  { vm_compute. discriminate. }
  apply (protocol_error_drops_replies demo_cmds (bs "?") parse_failure _ demo_run.1 demo_run.2).
  - exact Hwf.
  - rw Ho. apply fresh_wf.
  - exact Hck.
  - exact Hrd.
  - discriminate.
  - reflexivity.
  - reflexivity.
  - repeat constructor; apply reservable_small; vm_compute; discriminate.
  - rw Hw. exact demo_run_eq.
  - rw demo_replies. vm_compute. discriminate.
  - rw Ho (proj2 Buffer.new_buffer_wf). vm_compute. discriminate.
Defined.

(** A buffer with room for a second read. *)
Definition roomy : Net Store.World nat :=
  match Buffer.ensure_writable 8000 (Buffer.new_buffer Buffer.INITIAL_CAP) with
  | Ret b => with_in b (demo_net [RData (stream demo_cmds); REof] [])
  | Fail _ => demo_net [] []
  end.

Lemma roomy_spec :
  Buffer.wf (in_buf_ (conn roomy)) ∧ 8000 ≤ Buffer.writable_size (in_buf_ (conn roomy)) ∧
  inbox roomy = [RData (stream demo_cmds); REof].
Proof.
  pose proof (Buffer.ensure_writable_spec 8000 _ fresh_wf ltac:(lia)) as He.
  rw (proj2 Buffer.new_buffer_wf) in He. destruct He as (b & Hb & Hwf & _ & Hw).
  rw /roomy Hb. split_and!; [exact Hwf|exact Hw|reflexivity].
Qed.

Lemma eof_drops_commands_witness :
  ∃ s', on_readable roomy = Ret (false, s') ∧ world s' = world roomy ∧ closed_ (conn s') = true ∧
    Buffer.readable (in_buf_ (conn s')) = Buffer.readable (in_buf_ (conn roomy)) ++ stream demo_cmds.
Proof.
  destruct roomy_spec as (Hwf & Hw & Hbox).
  assert (zlen (stream demo_cmds) = 41) as Hlen by (vm_compute; reflexivity).
  apply (eof_drops_commands (stream demo_cmds) roomy);
    [exact Hwf|discriminate|rw Hlen; lia|rw Hlen; lia|exact Hbox].
Defined.
End Demo.

End ConnectionThms.
