(* ===== verification/EventLoop.v ===== *)
(** The event loop: src/network/EventLoop.{hpp,cpp}, and the destructors.

    The kernel's side is part of the state: [socks] are the open client sockets
    with their scripts, [mux] the multiplexer with the pairs of descriptor and
    filter registered and what it will answer to the next requests for a
    registration, [accepts] what the next calls of [accept] report.  Closing a
    descriptor also removes its registrations; deleting one that is there
    succeeds.  The parts that differ between epoll and kqueue are the class
    [Poller], with one instance per platform; which events a wait returns is an
    input. *)

From S2P Require Import Prelude Lru Storage Resp Commands Buffer Connection.

Module EventLoop.
Import Connection.

Inductive Filter := Read | Write.

#[global] Instance Filter_eq_dec : EqDecision Filter.
Proof. solve_decision. Defined.

#[global] Instance Filter_countable : Countable Filter.
Proof.
  refine (inj_countable' (λ f, match f with Read => true | Write => false end)
    (λ b : bool, if b then Read else Write) _). by intros [].
Defined.

Abbreviation Interest := (gset (Z * Filter)).

(** The multiplexer: what is registered, and whether it takes the next requests
    for a registration, all of them once the script has run out.  [refused] keeps
    the descriptors with a request that it did not take; the program does not
    know them, since it ignores the answer. *)
Record Mux := mkMux {
  regs : Interest;
  answers : list bool;
  refused : gset Z
}.

(** A call of [epoll_ctl] or [kevent] that adds or changes a registration of [fd]. *)
Definition ctl (op : Interest → Interest) (fd : Z) (x : Mux) : Mux :=
  match answers x with
  | false :: rest => mkMux (regs x) rest (refused x ∪ {[ fd ]})
  | _ => mkMux (op (regs x)) (tail (answers x)) (refused x)
  end.

(** What closing [fd] does. *)
Definition forget (fd : Z) (x : Mux) : Mux :=
  mkMux (filter (λ p, p.1 ≠ fd) (regs x)) (answers x) (refused x ∖ {[ fd ]}).

Definition set_regs (i : Interest) (x : Mux) : Mux := mkMux i (answers x) (refused x).

Record Sock := mkSock {
  s_inbox : list RecvEvent;
  s_outbox : list SendEvent;
  s_sent : bytes
}.

(** The two calls of [fcntl] in [set_nonblocking]. *)
Inductive Fcntl := FcntlOk | GetFailed | SetFailed.

(** What the next [accept] finds. *)
Inductive AcceptEvent :=
  | AConn (s : Sock) (f : Fcntl)
  | AIntr
  | AError.

Record Loop (W Mt : Type) := mkLoop {
  mux : Mux;
  kq_or_epoll_fd_ : Z;
  listen_fd_ : Z;
  running_ : bool;
  connections_ : gmap Z Connection;
  socks : gmap Z Sock;
  gone : list (Z * Sock);        (* the sockets closed so far *)
  l_world : W;                   (* the store *)
  l_metrics : Mt;
  l_clock : nat → Z;
  l_ticks : nat;
  accepts : list AcceptEvent
}.
Arguments mkLoop {W Mt}.
Arguments mux {W Mt} l : rename.
Arguments kq_or_epoll_fd_ {W Mt} l : rename.
Arguments listen_fd_ {W Mt} l : rename.
Arguments running_ {W Mt} l : rename.
Arguments connections_ {W Mt} l : rename.
Arguments socks {W Mt} l : rename.
Arguments gone {W Mt} l : rename.
Arguments l_world {W Mt} l : rename.
Arguments l_metrics {W Mt} l : rename.
Arguments l_clock {W Mt} l : rename.
Arguments l_ticks {W Mt} l : rename.
Arguments accepts {W Mt} l : rename.

(** The registrations. *)
Definition interest {W Mt} (l : Loop W Mt) : Interest := regs (mux l).

(** The connections for which a registration was refused. *)
Definition refusals {W Mt} (l : Loop W Mt) : gset Z := refused (mux l).

(** ** The platforms *)

(** What [poll_once] does with an event. *)
Inductive Action :=
  | DoAccept
  | DoRemove (fd : Z)
  | DoRead (fd : Z)
  | DoWrite (fd : Z).

Class Poller := {
  Event : Type;
  (** what the constructor throws *)
  create_msg : bytes;
  (** what [add_listener] does when its registration is refused *)
  listener_refused : outcome unit;
  (** the registrations removed by [remove_connection] *)
  ctl_del : Z → Interest → Interest;
  (** [update_write_interest] *)
  ctl_write : Z → bool → Interest → Interest;
  (** the body of the loop of [poll_once], for the listening descriptor and an event *)
  actions : Z → Event → list Action
}.

(** A new registration for reading: [EPOLL_CTL_ADD], or [EV_ADD] of [EVFILT_READ]. *)
Definition ctl_add (fd : Z) (i : Interest) : Interest := i ∪ {[ (fd, Read) ]}.

Record EpollEvent := mkEpoll {
  ev_fd : Z;
  ev_in : bool;
  ev_out : bool;
  ev_err : bool;      (* EPOLLERR or EPOLLHUP *)
}.

Definition epoll_del (fd : Z) (i : Interest) : Interest := filter (λ p, p.1 ≠ fd) i.

(** [EPOLL_CTL_MOD], which fails for a descriptor that is not registered *)
Definition epoll_mod (fd : Z) (want_write : bool) (i : Interest) : Interest :=
  if bool_decide ((fd, Read) ∈ i)
  then (if want_write then i ∪ {[ (fd, Write) ]} else i ∖ {[ (fd, Write) ]})
  else i.

Definition epoll_actions (listen : Z) (e : EpollEvent) : list Action :=
  if ev_fd e =? listen then [DoAccept] else
  if ev_err e then [DoRemove (ev_fd e)] else
  (if ev_in e then [DoRead (ev_fd e)] else []) ++ (if ev_out e then [DoWrite (ev_fd e)] else []).

Definition epoll : Poller :=
  {| Event := EpollEvent; create_msg := bs "epoll_create1 failed";
     listener_refused := Fail (Throw (runtime_error (bs "epoll_ctl ADD listener failed"))); ctl_del := epoll_del; ctl_write := epoll_mod; actions := epoll_actions |}.

Record KEvent := mkKEvent {
  ident : Z;
  kfilter : Filter;
  kerror : bool       (* EV_ERROR *)
}.

Definition kqueue_del (fd : Z) (i : Interest) : Interest :=
  i ∖ {[ (fd, Read) ]} ∖ {[ (fd, Write) ]}.

Definition kqueue_write (fd : Z) (want_write : bool) (i : Interest) : Interest :=
  if want_write then i ∪ {[ (fd, Write) ]} else i ∖ {[ (fd, Write) ]}.

Definition kqueue_actions (listen : Z) (e : KEvent) : list Action :=
  if kerror e then [DoRemove (ident e)] else
  if ident e =? listen then [DoAccept] else
  match kfilter e with Read => [DoRead (ident e)] | Write => [DoWrite (ident e)] end.

Definition kqueue : Poller :=
  {| Event := KEvent; create_msg := bs "kqueue() failed"; listener_refused := Ret tt;
     ctl_del := kqueue_del; ctl_write := kqueue_write; actions := kqueue_actions |}.

(** ** What the loop takes from the kernel and the library *)

Class Kernel := {
  (** the descriptor [accept] returns: one that is not open *)
  new_fd : gset Z → Z;
  new_fd_fresh : ∀ X, new_fd X ∉ X;
  new_fd_nonneg : ∀ X, 0 ≤ new_fd X;
  (** the order in which [connections_] is visited *)
  conn_order : gmap Z Connection → list (Z * Connection);
  conn_order_perm : ∀ m, conn_order m ≡ₚ map_to_list m
}.

Definition MAX_EVENTS : nat := 256.

Definition nonblock_msg (get : bool) : bytes :=
  if get then bs "fcntl F_GETFL failed" else bs "fcntl F_SETFL O_NONBLOCK failed".

(** [set_nonblocking] *)
Definition set_nonblocking (f : Fcntl) : outcome unit :=
  match f with
  | FcntlOk => Ret tt
  | GetFailed => Fail (Throw (runtime_error (nonblock_msg true)))
  | SetFailed => Fail (Throw (runtime_error (nonblock_msg false)))
  end.

Section Ops.
Context {W : Type} {ops : Commands.StoreOps W} {cc : Commands.Compiler} {limits : VecLimits}.
Context {Mt : Type} {sink : MetricsSink Mt} {poller : Poller} {kernel : Kernel}.

(** [accept_cb_]: the connection for a descriptor, if any; it may use the metrics. *)
Variable accept_cb : Z → Mt → option Connection * Mt.

Implicit Types l : Loop W Mt.

Definition with_mux (x : Mux) l : Loop W Mt :=
  mkLoop x (kq_or_epoll_fd_ l) (listen_fd_ l) (running_ l) (connections_ l) (socks l) (gone l)
    (l_world l) (l_metrics l) (l_clock l) (l_ticks l) (accepts l).
Definition with_connections (m : gmap Z Connection) l : Loop W Mt :=
  mkLoop (mux l) (kq_or_epoll_fd_ l) (listen_fd_ l) (running_ l) m (socks l) (gone l)
    (l_world l) (l_metrics l) (l_clock l) (l_ticks l) (accepts l).
Definition with_accepts (a : list AcceptEvent) l : Loop W Mt :=
  mkLoop (mux l) (kq_or_epoll_fd_ l) (listen_fd_ l) (running_ l) (connections_ l) (socks l) (gone l)
    (l_world l) (l_metrics l) (l_clock l) (l_ticks l) a.
Definition with_running (b : bool) l : Loop W Mt :=
  mkLoop (mux l) (kq_or_epoll_fd_ l) (listen_fd_ l) b (connections_ l) (socks l) (gone l)
    (l_world l) (l_metrics l) (l_clock l) (l_ticks l) (accepts l).

(** The loop that [EventLoop::EventLoop] makes, around the store and the metrics
    of the server *)
Definition new_loop (kq : Z) (w : W) (m : Mt) (clk : nat → Z) : Loop W Mt :=
  mkLoop (mkMux ∅ [] ∅) kq (-1) false ∅ ∅ [] w m clk 0 [].

(** [EventLoop::EventLoop]; [kq] is what the system call returned. *)
Definition make_loop (kq : Z) (w : W) (m : Mt) (clk : nat → Z) : outcome (Loop W Mt) :=
  if kq <? 0 then Fail (Throw (runtime_error create_msg)) else Ret (new_loop kq w m clk).

(** [EventLoop::add_listener]; [registered] says whether the system took the
    registration. *)
Definition add_listener (fd : Z) (f : Fcntl) (registered : bool) : M (Loop W Mt) unit :=
  modify (λ l, mkLoop (mux l) (kq_or_epoll_fd_ l) fd (running_ l) (connections_ l)
                 (socks l) (gone l) (l_world l) (l_metrics l) (l_clock l) (l_ticks l) (accepts l)) ;;;
  lift (set_nonblocking f) ;;;
  if registered then modify (λ l, with_mux (set_regs (ctl_add fd (interest l)) (mux l)) l) else lift listener_refused.

(** [::close(fd)] of a client socket *)
Definition close_fd (fd : Z) l : Loop W Mt :=
  match socks l !! fd with
  | None => l
  | Some s =>
      mkLoop (forget fd (mux l)) (kq_or_epoll_fd_ l) (listen_fd_ l) (running_ l)
        (connections_ l) (delete fd (socks l)) (gone l ++ [(fd, s)])
        (l_world l) (l_metrics l) (l_clock l) (l_ticks l) (accepts l)
  end.

(** [Connection::~Connection] *)
Definition destroy (c : Connection) l : Loop W Mt := if 0 <=? fd_ c then close_fd (fd_ c) l else l.

(** [EventLoop::add_connection]; the answer to the registration is ignored.  An
    element already there stays, and the new connection is destroyed. *)
Definition add_connection (c : Connection) (f : Fcntl) : M (Loop W Mt) unit :=
  lift (set_nonblocking f) ;;;
  modify (λ l, with_mux (ctl (ctl_add (fd_ c)) (fd_ c) (mux l)) l) ;;;
  modify (λ l, match connections_ l !! fd_ c with
               | None => with_connections (<[fd_ c := c]> (connections_ l)) l
               | Some _ => destroy c l
               end).

(** [EventLoop::remove_connection] *)
Definition remove_connection (fd : Z) : M (Loop W Mt) unit :=
  modify (λ l, with_mux (set_regs (ctl_del fd (interest l)) (mux l)) l) ;;;
  modify (λ l, match connections_ l !! fd with
               | None => l
               | Some c => destroy c (with_connections (delete fd (connections_ l)) l)
               end).

(** [EventLoop::update_write_interest]; the answer is ignored. *)
Definition update_write_interest (fd : Z) (want_write : bool) : M (Loop W Mt) unit :=
  modify (λ l, with_mux (ctl (ctl_write fd want_write) fd (mux l)) l).

(** The open descriptors the loop knows of. *)
Definition open_fds l : gset Z := dom (socks l) ∪ {[ listen_fd_ l; kq_or_epoll_fd_ l ]}.

(** [::accept] returned a new socket and [accept_cb_] is called with it. *)
Definition accept_one (s : Sock) : M (Loop W Mt) (Z * option Connection) := λ l,
  let fd := new_fd (open_fds l) in
  let '(c, m) := accept_cb fd (l_metrics l) in
  Ret ((fd, c),
       mkLoop (mux l) (kq_or_epoll_fd_ l) (listen_fd_ l) (running_ l) (connections_ l)
         (<[fd := s]> (socks l)) (gone l) (l_world l) m (l_clock l) (l_ticks l) (accepts l)).

(** The loop of [EventLoop::handle_accept] over the results of [accept]; when
    they have run out it reports [EAGAIN]. *)
Fixpoint accept_loop (evs : list AcceptEvent) : M (Loop W Mt) unit :=
  match evs with
  | [] => modify (with_accepts [])
  | AIntr :: evs' => accept_loop evs'
  | AError :: evs' => modify (with_accepts evs')
  | AConn s f :: evs' =>
      let! r := accept_one s in
      match r.2 with
      | Some c => add_connection c f
      | None => modify (close_fd r.1)
      end ;;;
      accept_loop evs'
  end.

(** [EventLoop::handle_accept] *)
Definition handle_accept : M (Loop W Mt) unit :=
  let! evs := gets accepts in accept_loop evs.

(** A call on connection [c], which is [connections_[fd]]; a descriptor that is
    not open reports an error. *)
Definition net_of (c : Connection) l : Net W Mt :=
  let s := default (mkSock [RError] [SError] []) (socks l !! fd_ c) in
  mkNet c (l_world l) (l_metrics l) (l_clock l) (l_ticks l) (s_inbox s) (s_outbox s) (s_sent s).

Definition on_conn {A} (fd : Z) (c : Connection) (m : M (Net W Mt) A) : M (Loop W Mt) A := λ l,
  match m (net_of c l) with
  | Ret (a, n) =>
      Ret (a, mkLoop (mux l) (kq_or_epoll_fd_ l) (listen_fd_ l) (running_ l)
                (<[fd := conn n]> (connections_ l))
                (alter (λ _, mkSock (inbox n) (outbox n) (sent n)) (fd_ c) (socks l)) (gone l)
                (world n) (metrics n) (us_clock n) (us_ticks n) (accepts l))
  | Fail f => Fail f
  end.

Definition pending (c : Connection) : bool := negb (Buffer.empty (out_buf_ c)).

(** [EventLoop::handle_readable] *)
Definition handle_readable (fd : Z) : M (Loop W Mt) unit :=
  let! it := gets (λ l, connections_ l !! fd) in
  match it with
  | None => ret tt
  | Some c =>
      let! ok := on_conn fd c on_readable in
      let! closed := gets (λ l, match connections_ l !! fd with Some c => closed_ c | None => false end) in
      if negb ok || closed then remove_connection fd else
      let! more := gets (λ l, match connections_ l !! fd with Some c => pending c | None => false end) in
      if more then update_write_interest fd true else ret tt
  end.

(** [EventLoop::handle_writable] *)
Definition handle_writable (fd : Z) : M (Loop W Mt) unit :=
  let! it := gets (λ l, connections_ l !! fd) in
  match it with
  | None => ret tt
  | Some c =>
      let! ok := on_conn fd c on_writable in
      let! closed := gets (λ l, match connections_ l !! fd with Some c => closed_ c | None => false end) in
      if negb ok || closed then remove_connection fd else
      let! more := gets (λ l, match connections_ l !! fd with Some c => pending c | None => false end) in
      if more then ret tt else update_write_interest fd false
  end.

Definition perform (a : Action) : M (Loop W Mt) unit :=
  match a with
  | DoAccept => handle_accept
  | DoRemove fd => remove_connection fd
  | DoRead fd => handle_readable fd
  | DoWrite fd => handle_writable fd
  end.

(** [EventLoop::poll_once], with the events the wait returned *)
Definition poll_once (events : list Event) : M (Loop W Mt) unit :=
  foldM (λ _ e,
    let! listen := gets listen_fd_ in
    foldM (λ _ a, perform a) (actions listen e) tt) (take MAX_EVENTS events) tt.

(** [EventLoop::reap_closed] *)
Definition reap_closed : M (Loop W Mt) unit :=
  let! to_remove := gets (λ l, fst <$> filter (λ p, closed_ p.2 = true) (conn_order (connections_ l))) in
  foldM (λ _ fd, remove_connection fd) to_remove tt.

(** [EventLoop::stop] *)
Definition stop : M (Loop W Mt) unit := modify (with_running false).

(** What happens outside between two waits: bytes, ends and errors arrive on a
    socket, its peer makes room, connections come in; the multiplexer will give
    these answers. *)
Inductive Arrival :=
  | ArrIn (fd : Z) (evs : list RecvEvent)
  | ArrOut (fd : Z) (evs : list SendEvent)
  | ArrConn (evs : list AcceptEvent)
  | ArrCtl (rs : list bool).

Definition arrive (a : Arrival) l : Loop W Mt :=
  let set_socks m :=
    mkLoop (mux l) (kq_or_epoll_fd_ l) (listen_fd_ l) (running_ l) (connections_ l) m (gone l)
      (l_world l) (l_metrics l) (l_clock l) (l_ticks l) (accepts l) in
  match a with
  | ArrIn fd evs => set_socks (alter (λ s, mkSock (s_inbox s ++ evs) (s_outbox s) (s_sent s)) fd (socks l))
  | ArrOut fd evs => set_socks (alter (λ s, mkSock (s_inbox s) (s_outbox s ++ evs) (s_sent s)) fd (socks l))
  | ArrConn evs => with_accepts (accepts l ++ evs) l
  | ArrCtl rs => with_mux (mkMux (regs (mux l)) (answers (mux l) ++ rs) (refused (mux l))) l
  end.

(** One round of [EventLoop::run]: what arrived, the events the wait returns,
    and whether [stop] is called before the loop tests [running_] again. *)
Record Round := mkRound {
  arrivals : list Arrival;
  events : list Event;
  stopped : bool
}.

Definition round (r : Round) : M (Loop W Mt) unit :=
  modify (λ l, foldl (λ l a, arrive a l) l (arrivals r)) ;;;
  poll_once (events r) ;;;
  (if stopped r then stop else ret tt) ;;;
  reap_closed.

(** The loop of [EventLoop::run]: true when it has left the loop, false when
    the rounds given have not stopped it. *)
Fixpoint run_loop (rounds : list Round) : M (Loop W Mt) bool :=
  let! running := gets running_ in
  if running : bool then
    match rounds with
    | [] => ret false
    | r :: rs => round r ;;; run_loop rs
    end
  else ret true.

(** [EventLoop::run] *)
Definition run (rounds : list Round) : M (Loop W Mt) bool :=
  modify (with_running true) ;;; run_loop rounds.

(** [EventLoop::~EventLoop]: the multiplexer is closed, and with it its
    registrations; then [connections_] goes, and each connection closes its
    socket. *)
Definition destroy_loop l : Loop W Mt :=
  let l1 := if 0 <=? kq_or_epoll_fd_ l
            then mkLoop (mkMux ∅ (answers (mux l)) ∅) (-1) (listen_fd_ l) (running_ l) (connections_ l) (socks l) (gone l)
                   (l_world l) (l_metrics l) (l_clock l) (l_ticks l) (accepts l)
            else l in
  foldl (λ l c, destroy c.2 l) (with_connections ∅ l1) (conn_order (connections_ l1)).

End Ops.
End EventLoop.
