(* ===== verification/EventLoopInv.v ===== *)
(** The invariant of the event loop: its map of connections, the open sockets
    and the registrations agree, and every handler, arrival and round keeps it
    that way, on either multiplexer. *)

From S2P Require Import Prelude Lru Storage StorageInv StorageSpec Resp RespThms Commands CommandsThms Persistence PersistenceThms Buffer Connection ConnectionThms EventLoop.

Module EventLoopInv.
Import Connection ConnectionThms EventLoop Store StoreInv StoreSpec.

(** ** What both multiplexers promise *)

Class PollerLaws (poller : Poller) := {
  del_spec : ∀ fd i p, p ∈ ctl_del fd i ↔ p ∈ i ∧ p.1 ≠ fd;
  write_spec : ∀ fd b i p, (fd, Read) ∈ i →
    (p ∈ ctl_write fd b i ↔ if bool_decide (p = (fd, Write)) then b = true else p ∈ i);
  write_other : ∀ fd b i p, p.1 ≠ fd → (p ∈ ctl_write fd b i ↔ p ∈ i);
  refused_spec : listener_refused = Ret tt ∨ ∃ msg, listener_refused = Fail (Throw (runtime_error msg))
}.

#[export] Instance epoll_laws : PollerLaws epoll.
Proof.
  split.
  - intros fd i p. rw /ctl_del /= /epoll_del elem_of_filter. tauto.
  - intros fd b i p Hr. rw /ctl_write /= /epoll_mod bool_decide_true //.
    destruct b; case_bool_decide; set_solver.
  - intros fd b i [fd' f] Hne. rw /ctl_write /= /epoll_mod. case_bool_decide; [|done]. destruct b; set_solver.
  - right. by eexists.
Qed.

#[export] Instance kqueue_laws : PollerLaws kqueue.
Proof.
  split.
  - intros fd i [f []]; rw /ctl_del /= /kqueue_del; set_solver.
  - intros fd b i p Hr. rw /ctl_write /= /kqueue_write. destruct b; case_bool_decide; set_solver.
  - intros fd b i [fd' f] Hne. rw /ctl_write /= /kqueue_write. destruct b; set_solver.
  - by left.
Qed.

Section Thms.
Context {W : Type} {ops : Commands.StoreOps W} {safe : CommandsThms.StoreSafe W} {cc : Commands.Compiler} {limits : VecLimits}.
Context {Mt : Type} {sink : MetricsSink Mt} {mlaws : MetricsLaws Mt}.
Context {poller : Poller} {plaws : PollerLaws poller} {kernel : Kernel}.

(** The callback builds the connection for the descriptor it is given, or none. *)
Context (accept_cb : Z → Mt → option Connection * Mt).
Context (cb_new : ∀ fd m c, (accept_cb fd m).1 = Some c → c = new_connection fd).

Implicit Types l : Loop W Mt.

(** ** The invariant

    [inv_but x]: everything, except that descriptor [x] may be closed and its
    registrations out of date.  Nothing is said of the registrations
    of a descriptor for which the system refused one. *)
Record inv_but (x : option Z) l : Prop := {
  i_conn : ∀ fd c, connections_ l !! fd = Some c →
    fd_ c = fd ∧ 0 ≤ fd ∧ Buffer.wf (in_buf_ c) ∧ Buffer.wf (out_buf_ c);
  i_open : ∀ fd c, connections_ l !! fd = Some c → Some fd ≠ x → closed_ c = false;
  i_socks : ∀ fd, is_Some (socks l !! fd) ↔ is_Some (connections_ l !! fd);
  i_read : ∀ fd, is_Some (connections_ l !! fd) → Some fd ≠ x → fd ∉ refusals l → (fd, Read) ∈ interest l;
  i_write : ∀ fd c, connections_ l !! fd = Some c → Some fd ≠ x → fd ∉ refusals l →
    ((fd, Write) ∈ interest l ↔ pending c = true);
  i_known : ∀ fd f, (fd, f) ∈ interest l → fd = listen_fd_ l ∨ is_Some (connections_ l !! fd);
  i_listen : connections_ l !! listen_fd_ l = None;
  i_store : CommandsThms.st_inv (l_world l);
  i_refused : ∀ fd, fd ∈ refusals l → is_Some (connections_ l !! fd)
}.

Definition inv : Loop W Mt → Prop := inv_but None.

(** What can stop the loop: what stops a connection, and [fcntl]. *)
Definition loop_fault (f : fault) : Prop :=
  conn_fault False f ∨ ∃ get, f = Throw (runtime_error (nonblock_msg get)).

Lemma pending_readable c : Buffer.wf (out_buf_ c) → pending c = true ↔ Buffer.readable (out_buf_ c) ≠ [].
Proof. intros Hwf. rw /pending Buffer.empty_spec //. case_bool_decide; naive_solver. Qed.

(** What an event on [fd] leaves alone. *)
Record apart (fd : Z) l l' : Prop := {
  a_conn : ∀ fd', fd' ≠ fd → connections_ l' !! fd' = connections_ l !! fd';
  a_sock : ∀ fd', fd' ≠ fd → socks l' !! fd' = socks l !! fd';
  a_interest : ∀ fd' f, fd' ≠ fd → (fd', f) ∈ interest l' ↔ (fd', f) ∈ interest l;
  a_clock : l_clock l' = l_clock l;
  a_listen : listen_fd_ l' = listen_fd_ l;
  a_running : running_ l' = running_ l;
  a_accepts : accepts l' = accepts l;
  a_kq : kq_or_epoll_fd_ l' = kq_or_epoll_fd_ l
}.

Lemma apart_trans fd l1 l2 l3 : apart fd l1 l2 → apart fd l2 l3 → apart fd l1 l3.
Proof.
  intros [H1 H2 H3 H4 H5 H6 H7] [K1 K2 K3 K4 K5 K6 K7]. split; try congruence.
  - intros. by rw K1 // H1.
  - intros. by rw K2 // H2.
  - intros. by rw K3 // H3.
Qed.

Lemma apart_refl fd l : apart fd l l.
Proof. by split. Qed.

(** [remove_connection] ends an exception to the invariant. *)
Lemma remove_inv x fd l :
  inv_but x l → (x = None ∨ x = Some fd) →
  wp no_fault (remove_connection fd) (λ _ l', inv l' ∧ connections_ l' = delete fd (connections_ l) ∧
    socks l' = delete fd (socks l) ∧ l_world l' = l_world l ∧ l_metrics l' = l_metrics l ∧ apart fd l l' ∧
    gone l' = gone l ++ (match socks l !! fd with Some s => [(fd, s)] | None => [] end)) l.
Proof.
  clear dependent accept_cb. intros [Hc Ho Hs Hr Hw Hk Hl Hst Hrf] Hx. rw /remove_connection. wp_go. cbn [connections_ with_mux].
  destruct (connections_ l !! fd) as [c|] eqn:Hfd.
  - destruct (Hc _ _ Hfd) as (Hcfd & Hpos & _).
    destruct (proj2 (Hs fd) ltac:(by rw Hfd)) as [s Hsk].
    rw /destroy Hcfd (proj2 (Z.leb_le _ _)) // /close_fd. cbn [socks with_connections with_mux]. rw Hsk.
    split_and!; try done; [|split; try done; cbn; intros fd'; [intros; by rw lookup_delete_ne..|];
      intros f Hne; rw /interest; cbn [mux forget set_regs regs with_connections with_mux]; rw elem_of_filter del_spec /=; tauto].
    split; rw /interest /refusals; cbn [connections_ socks mux forget set_regs regs refused listen_fd_ l_world with_connections with_mux].
    + intros fd' c' [_ H]%lookup_delete_Some. by apply Hc.
    + intros fd' c' [Hne H]%lookup_delete_Some _. apply (Ho _ _ H). destruct Hx as [->| ->]; congruence.
    + intros fd'. destruct (decide (fd = fd')) as [->|Hne]; [by rw !lookup_delete_eq|]. rw !lookup_delete_ne //.
    + intros fd' [c' [Hne H]%lookup_delete_Some] _ Hnr. apply elem_of_filter. split; [done|]. apply del_spec.
      split; [apply Hr; [by rw H|destruct Hx as [->| ->]; congruence|set_solver]|done].
    + intros fd' c' [Hne H]%lookup_delete_Some _ Hnr. rw elem_of_filter del_spec /=.
      rw -(Hw _ _ H); [destruct Hx as [->| ->]; congruence|set_solver|]. naive_solver.
    + intros fd' f [Hne [Hin _]%del_spec]%elem_of_filter. cbn in Hne. rw lookup_delete_ne //. by eapply Hk.
    + rw lookup_delete_ne //. by intros ->; congruence.
    + done.
    + intros fd' [Hin Hne]%elem_of_difference. rw lookup_delete_ne; [set_solver|by apply Hrf].
  - assert (socks l !! fd = None) as Hsk.
    { apply eq_None_not_Some. by rw Hs Hfd; intros [? ?]. }
    rw Hsk app_nil_r !delete_id //. split_and!; try done;
      [|split; try done; intros fd' f Hne; rw /interest; cbn [mux with_mux set_regs regs]; rw del_spec /=; tauto].
    split; rw /interest /refusals; cbn [connections_ socks mux set_regs regs refused listen_fd_ l_world with_mux].
    + done.
    + intros fd' c' H _. apply (Ho _ _ H). destruct Hx as [->| ->]; [done|]. congruence.
    + done.
    + intros fd' H _ Hnr. apply del_spec.
      split; [apply Hr; [done|destruct Hx as [->| ->]; [done|]; intros [= <-]; by rw Hfd in H; destruct H|done]|]. cbn. intros ->. rw Hfd in H. by destruct H.
    + intros fd' c' H _ Hnr. rw del_spec /= -(Hw _ _ H); [destruct Hx as [->| ->]; congruence|done|].
      split; [tauto|]. split; [done|congruence].
    + intros fd' f [Hin _]%del_spec. by eapply Hk.
    + done.
    + done.
    + done.
Qed.

(** The socket of a connection that the loop holds. *)
Lemma inv_sock x fd c l :
  inv_but x l → connections_ l !! fd = Some c →
  ∃ s, socks l !! fd = Some s ∧
    net_of c l = mkNet c (l_world l) (l_metrics l) (l_clock l) (l_ticks l) (s_inbox s) (s_outbox s) (s_sent s).
Proof.
  intros [Hc _ Hs _ _ _ _ _ _] Hfd. destruct (Hc _ _ Hfd) as (Hcfd & _).
  destruct (proj2 (Hs fd) ltac:(by rw Hfd)) as [s Hsk]. exists s. split; [done|]. by rw /net_of Hcfd Hsk.
Qed.

(** A call on a connection, in terms of what it does to the connection. *)
Lemma on_conn_inv {A} fd c (m : M (Net W Mt) A) E (Q : A → Net W Mt → Prop) l :
  inv l → connections_ l !! fd = Some c →
  wp E m (λ a n, fd_ (conn n) = fd ∧ conn_ok n ∧ us_clock n = l_clock l ∧ Q a n) (net_of c l) →
  wp E (on_conn fd c m) (λ a l', ∃ n, Q a n ∧ inv_but (Some fd) l' ∧ apart fd l l' ∧
    connections_ l' !! fd = Some (conn n) ∧ socks l' !! fd = Some (mkSock (inbox n) (outbox n) (sent n)) ∧
    mux l' = mux l ∧ gone l' = gone l ∧ l_world l' = world n ∧ l_metrics l' = metrics n) l.
Proof.
  intros Hinv Hfd Hm. destruct (inv_sock _ _ _ _ Hinv Hfd) as (s & Hsk & _).
  destruct Hinv as [Hc Ho Hs Hr Hw Hk Hl Hst Hrf]. destruct (Hc _ _ Hfd) as (Hcfd & Hpos & _).
  rw /wp /on_conn in Hm |- *. destruct (m _) as [[a n]|]; [|done]. destruct Hm as (Hn & (Hwi & Hwo & Hst') & Hck & HQ).
  exists n. rw Hcfd. split_and!; try done; cbn [connections_ socks];
    [..|by rw lookup_insert_eq|by rw lookup_alter_eq Hsk].
  - split; rw /interest /refusals; cbn [connections_ socks mux listen_fd_ l_world].
    + intros fd' c' [[-> <-]|[_ H]]%lookup_insert_Some; [done|by apply Hc].
    + intros fd' c' [[-> <-]|[Hne H]]%lookup_insert_Some; [done|]. intros _. by apply (Ho _ _ H).
    + intros fd'. rw lookup_alter_is_Some Hs lookup_insert_is_Some. destruct (decide (fd = fd')) as [->|]; [|naive_solver].
      rw Hfd. naive_solver.
    + intros fd' [->|[_ H]]%lookup_insert_is_Some; intros ? Hnr; [done|by apply Hr].
    + intros fd' c' [[-> <-]|[Hne H]]%lookup_insert_Some; [done|]. intros _. by apply (Hw _ _ H).
    + intros fd' f Hin. rw lookup_insert_is_Some. destruct (Hk _ _ Hin) as [|]; [by left|right].
      destruct (decide (fd = fd')); [by left|by right].
    + rw lookup_insert_ne //. intros ->. congruence.
    + done.
    + intros fd' Hin. rw lookup_insert_is_Some. destruct (decide (fd = fd')); [by left|right]. split; [done|by apply Hrf].
  - split; try done; cbn [connections_ socks]; intros fd' Hne; [by rw lookup_insert_ne|by rw lookup_alter_ne].
Qed.

(** A change of the registrations of [fd] that the system takes or refuses. *)
Lemma ctl_inv x fd op l :
  inv_but x l → is_Some (connections_ l !! fd) → (x = None ∨ x = Some fd) →
  (∀ p, p.1 ≠ fd → p ∈ op (interest l) ↔ p ∈ interest l) →
  (∀ c, connections_ l !! fd = Some c → fd ∉ refusals l →
     (fd, Read) ∈ op (interest l) ∧ ((fd, Write) ∈ op (interest l) ↔ pending c = true)) →
  (∀ c, connections_ l !! fd = Some c → closed_ c = false) →
  inv (with_mux (ctl op fd (mux l)) l) ∧
  ∀ fd' f, fd' ≠ fd → (fd', f) ∈ interest (with_mux (ctl op fd (mux l)) l) ↔ (fd', f) ∈ interest l.
Proof.
  clear dependent accept_cb. intros [Hc Ho Hs Hr Hw Hk Hl Hst Hrf] [c Hfd] Hx Hop Hfix Hcl.
  set (x' := ctl op fd (mux l)).
  assert (∀ fd' f, fd' ≠ fd → (fd', f) ∈ regs x' ↔ (fd', f) ∈ interest l) as Hother.
  { intros fd' f Hne. rw /x' /ctl. destruct (answers (mux l)) as [|[] ?]; [by apply Hop..|done]. }
  assert (∀ fd', fd' ∉ refused x' → fd' ∉ refusals l) as Href.
  { intros fd'. rw /x' /ctl /refusals. destruct (answers (mux l)) as [|[] ?]; set_solver. }
  assert (fd ∉ refused x' → regs x' = op (interest l)) as Hself.
  { rw /x' /ctl. destruct (answers (mux l)) as [|[] ?]; [done..|cbn; set_solver]. }
  split; [|done]. split; rw /interest /refusals; cbn [connections_ socks mux listen_fd_ l_world with_mux]; try done.
  - intros fd' c' H _. destruct (decide (fd' = fd)) as [->|]; [by apply Hcl|]. apply (Ho _ _ H). destruct Hx as [->| ->]; congruence.
  - intros fd' H _ Hnr. destruct (decide (fd' = fd)) as [->|Hne];
      [|apply Hother, Hr; [done|done|destruct Hx as [->| ->]; congruence|by apply Href]].
    rw Hself //. by apply (Hfix c); [|apply Href].
  - intros fd' c' H _ Hnr. destruct (decide (fd' = fd)) as [->|Hne].
    + rw Hself //. by apply (Hfix c'); [|apply Href].
    + rw Hother //. apply (Hw _ _ H); [destruct Hx as [->| ->]; congruence|by apply Href].
  - intros fd' f Hin. destruct (decide (fd' = fd)) as [->|Hne]; [right; by rw Hfd|]. apply (Hk fd' f). by apply Hother.
  - intros fd' Hin. destruct (decide (fd' = fd)) as [->|Hne]; [by rw Hfd|]. apply Hrf. revert Hin.
    rw /x' /ctl /refusals. destruct (answers (mux l)) as [|[] ?]; set_solver.
Qed.

(** [update_write_interest] with the right answer restores the invariant. *)
Lemma update_inv fd c l b :
  inv_but (Some fd) l → connections_ l !! fd = Some c → closed_ c = false → pending c = b →
  (fd ∉ refusals l → (fd, Read) ∈ interest l) →
  wp no_fault (update_write_interest fd b) (λ _ l', inv l' ∧ apart fd l l' ∧ connections_ l' = connections_ l ∧
    socks l' = socks l ∧ gone l' = gone l ∧ l_world l' = l_world l ∧ l_metrics l' = l_metrics l) l.
Proof.
  intros Hinv Hfd Hcl Hp Hrd. rw /update_write_interest. wp_go.
  destruct (ctl_inv (Some fd) fd (ctl_write fd b) l Hinv) as [Hinv' Hoth]; [by rw Hfd|by right| | | |].
  - intros p Hne. by apply write_other.
  - intros c' Hc' Hnr. rw Hfd in Hc'. injection Hc' as <-.
    specialize (Hrd Hnr). split; [by rw write_spec // bool_decide_false|]. by rw write_spec // bool_decide_true // Hp.
  - intros c' Hc'. congruence.
  - by split_and!.
Qed.

(** A connection whose registration was right all along. *)
Lemma settle_inv fd c l :
  inv_but (Some fd) l → connections_ l !! fd = Some c → closed_ c = false →
  (fd ∉ refusals l → (fd, Read) ∈ interest l ∧ ((fd, Write) ∈ interest l ↔ pending c = true)) → inv l.
Proof.
  intros [Hc Ho Hs Hr Hw Hk Hl Hst Hrf] Hfd Hcl Hp. split; try done.
  - intros fd' c' H _. destruct (decide (fd' = fd)) as [->|]; [congruence|]. apply (Ho _ _ H). congruence.
  - intros fd' H _ Hnr. destruct (decide (fd' = fd)) as [->|]; [by apply Hp|]. apply Hr; [done|congruence|done].
  - intros fd' c' H _ Hnr. destruct (decide (fd' = fd)) as [->|]; [|apply (Hw _ _ H); [congruence|done]].
    rw Hfd in H. injection H as <-. by apply Hp.
Qed.

(** What became of connection [fd] in an event that left it in state [n]. *)
Definition outcome_of (fd : Z) (keep : bool) (n : Net W Mt) l l' : Prop :=
  l_world l' = world n ∧ l_metrics l' = metrics n ∧
  if keep then connections_ l' !! fd = Some (conn n) ∧
               socks l' !! fd = Some (mkSock (inbox n) (outbox n) (sent n)) ∧ gone l' = gone l
  else connections_ l' !! fd = None ∧ socks l' !! fd = None ∧
       gone l' = gone l ++ [(fd, mkSock (inbox n) (outbox n) (sent n))].

Lemma remove_event fd c s l :
  inv_but (Some fd) l → connections_ l !! fd = Some c → socks l !! fd = Some s →
  wp no_fault (remove_connection fd) (λ _ l', inv l' ∧ apart fd l l' ∧ l_world l' = l_world l ∧
    l_metrics l' = l_metrics l ∧ connections_ l' !! fd = None ∧ socks l' !! fd = None ∧
    gone l' = gone l ++ [(fd, s)]) l.
Proof.
  intros Hinv Hc Hs. eapply wp_mono; [by apply (remove_inv _ fd l Hinv); right|].
  intros _ l' (? & Hcs & Hss & ? & ? & ? & Hg). rw Hs in Hg. rw Hcs Hss !lookup_delete_eq. by split_and!.
Qed.

(** The two handlers end alike: what a call [m] on connection [fd] did decides
    whether it stays. *)
Lemma handle_readable_run fd c E l :
  inv l → connections_ l !! fd = Some c →
  ∀ Q : bool → Net W Mt → Prop, wp E on_readable Q (net_of c l) →
  wp E (handle_readable fd) (λ _ l', inv l' ∧ apart fd l l' ∧
    ∃ ok n, Q ok n ∧ grows (net_of c l) n ∧ outcome_of fd ok n l l') l.
Proof.
  intros Hinv Hfd Q HQ. destruct (inv_sock _ _ _ _ Hinv Hfd) as (s & Hsk & Hnet).
  pose proof Hinv as [Hc Ho Hs Hr Hw Hk Hl Hst Hrf]. destruct (Hc _ _ Hfd) as (Hcfd & Hpos & Hwi & Hwo).
  assert (fd ∉ refusals l → (fd, Read) ∈ interest l) as Hrd by (intros; apply Hr; by rw ?Hfd).
  assert (conn_ok (net_of c l)) as Hok by (rw Hnet; by split_and!).
  pose proof (on_readable_safe False _ Hok ltac:(done)) as Hsafe.
  rw /handle_readable. wp_go. rw Hfd. wp_go.
  eapply wp_mono; [apply (on_conn_inv fd c on_readable E
    (λ ok n, Q ok n ∧ grows (net_of c l) n ∧ ok = negb (closed_ (conn n)) ∧ conn_ok n) l Hinv Hfd)|].
  - rw /wp in Hsafe HQ |- *. destruct (on_readable _) as [[ok n]|f]; [|done].
    destruct Hsafe as (? & Hg & ?). split_and!; try done; [by rw (g_fd _ _ Hg) Hnet|by rw (g_clock _ _ Hg) Hnet].
  - intros ok l1 (n & (HQn & Hg & Hoc & Hokn) & Hinv1 & Hap & Hc1 & Hs1 & Hi1 & Hg1 & Hw1 & Hm1). wp_go. rw Hc1 Hoc.
    destruct (closed_ (conn n)) eqn:Hcl; cbn [negb orb] in Hoc |- *; subst ok.
    + apply wp_faultless. eapply wp_mono; [by eapply remove_event|].
      intros _ l' (? & ? & ? & ? & ? & ? & ?). split_and!; [done|by eapply apart_trans|].
      exists false, n. rw /outcome_of. split_and!; try done; congruence.
    + wp_go. rw Hc1. destruct (pending (conn n)) eqn:Hp.
      * apply wp_faultless. eapply wp_mono; [eapply update_inv; [done..|by rw /refusals /interest Hi1]|].
        intros _ l' (? & ? & Hc' & Hs' & ? & ? & ?). split_and!; [done|by eapply apart_trans|].
        exists true, n. rw /outcome_of Hc' Hs'. split_and!; try done; congruence.
      * wp_go. split_and!; [|done|exists true, n; rw /outcome_of; by split_and!].
        eapply settle_inv; [done..|]. rw /refusals /interest Hi1 Hp. intros Hnr. split; [by apply Hrd|]. rw (Hw _ _ Hfd) //. destruct Hokn as (_ & Hwo' & _).
        apply not_true_iff_false in Hp. rw pending_readable // in Hp. split; [|done]. intros Hpc.
        apply pending_readable in Hpc; [|done]. destruct (g_out _ _ Hg) as [x Hx]. rw Hnet /= in Hx.
        exfalso. apply Hp. rw Hx. intros [? _]%app_nil. done.
Qed.

Lemma on_writable_run (s : Net W Mt) :
  Buffer.wf (out_buf_ (conn s)) →
  wp no_fault on_writable (λ r s',
    Buffer.wf (out_buf_ (conn s')) ∧ in_buf_ (conn s') = in_buf_ (conn s) ∧ world s' = world s ∧
    sent s' ++ Buffer.readable (out_buf_ (conn s')) = sent s ++ Buffer.readable (out_buf_ (conn s)) ∧
    closed_ (conn s') = closed_ (conn s) || negb r ∧
    (r = true → Buffer.readable (out_buf_ (conn s')) = [] ∨ outbox s' = []) ∧
    (r = false → ∃ pre, outbox s = pre ++ SError :: outbox s') ∧
    fd_ (conn s') = fd_ (conn s) ∧ inbox s' = inbox s ∧ us_clock s' = us_clock s ∧ metrics s' = metrics s ∧
    sent s `prefix_of` sent s') s.
Proof. intros Hwf. rw /on_writable. wp_go. apply write_loop_run; [done|lia]. Qed.

Lemma handle_writable_run fd c l :
  inv l → connections_ l !! fd = Some c →
  wp no_fault (handle_writable fd) (λ _ l', inv l' ∧ apart fd l l' ∧
    ∃ ok n, outcome_of fd ok n l l' ∧ world n = l_world l ∧ metrics n = l_metrics l ∧ in_buf_ (conn n) = in_buf_ c ∧
      inbox n = inbox (net_of c l) ∧
      sent n ++ Buffer.readable (out_buf_ (conn n)) = sent (net_of c l) ++ Buffer.readable (out_buf_ c) ∧
      (ok = true → Buffer.readable (out_buf_ (conn n)) = [] ∨ outbox n = []) ∧
      (ok = false → ∃ pre, outbox (net_of c l) = pre ++ SError :: outbox n)) l.
Proof.
  intros Hinv Hfd. destruct (inv_sock _ _ _ _ Hinv Hfd) as (s & Hsk & Hnet).
  pose proof Hinv as [Hc Ho Hs Hr Hw Hk Hl Hst Hrf]. destruct (Hc _ _ Hfd) as (Hcfd & Hpos & Hwi & Hwo).
  assert (fd ∉ refusals l → (fd, Read) ∈ interest l) as Hrd by (intros; apply Hr; by rw ?Hfd).
  assert (Buffer.wf (out_buf_ (conn (net_of c l)))) as Hwn by (by rw Hnet).
  rw /handle_writable. wp_go. rw Hfd. wp_go.
  eapply wp_mono; [apply (on_conn_inv fd c on_writable _
    (λ ok n, closed_ (conn n) = negb ok ∧ Buffer.wf (out_buf_ (conn n)) ∧
      sent (net_of c l) `prefix_of` sent n ∧
      world n = l_world l ∧ metrics n = l_metrics l ∧ in_buf_ (conn n) = in_buf_ c ∧
      inbox n = inbox (net_of c l) ∧
      sent n ++ Buffer.readable (out_buf_ (conn n)) = sent (net_of c l) ++ Buffer.readable (out_buf_ c) ∧
      (ok = true → Buffer.readable (out_buf_ (conn n)) = [] ∨ outbox n = []) ∧
      (ok = false → ∃ pre, outbox (net_of c l) = pre ++ SError :: outbox n)) l Hinv Hfd)|].
  - eapply wp_mono; [by apply on_writable_run|]. rw Hnet. cbn [conn world metrics us_clock inbox outbox sent].
    intros ok n (? & Hin & Hwd & ? & Hcl & ? & ? & ? & ? & ? & ? & ?). rw (Ho _ _ Hfd) // in Hcl.
    rw /conn_ok Hin Hwd. split_and!; try done; congruence.
  - intros ok l1 (n & (Hcl & Hwo' & [y Hy] & Hwn' & Hmn & Hinn & Hbn & Hsn & Hon & Hoe) & Hinv1 & Hap & Hc1 & Hs1 & Hi1 & Hg1 & Hw1 & Hm1). wp_go. rw Hc1 Hcl.
    destruct ok; cbn [negb orb] in Hcl |- *.
    + wp_go. rw Hc1. destruct (pending (conn n)) eqn:Hp.
      * wp_go. split_and!; [|done|exists true, n; rw /outcome_of; by split_and!].
        eapply settle_inv; [done..|]. rw /refusals /interest Hi1 Hp. intros Hnr. split; [by apply Hrd|]. rw (Hw _ _ Hfd) //. split; [done|]. intros _.
        apply pending_readable; [done|]. apply pending_readable in Hp; [|done].
        rw Hy -app_assoc in Hsn. apply app_inv_head in Hsn. rw -Hsn. by intros [_ ?]%app_nil.
      * eapply wp_mono; [eapply update_inv; [done..|by rw /refusals /interest Hi1]|].
        intros _ l' (? & ? & Hc' & Hs' & ? & ? & ?). split_and!; [done|by eapply apart_trans|].
        exists true, n. rw /outcome_of Hc' Hs'. split_and!; try done; congruence.
    + eapply wp_mono; [by eapply remove_event|].
      intros _ l' (? & ? & ? & ? & ? & ? & ?). split_and!; [done|by eapply apart_trans|].
      exists false, n. rw /outcome_of. split_and!; try done; congruence.
Qed.

(** ** Accepting *)

Lemma fresh_fd l : inv l → let fd := new_fd (open_fds l) in
  connections_ l !! fd = None ∧ socks l !! fd = None ∧ fd ≠ listen_fd_ l ∧ fd ∉ refusals l ∧ ∀ f, (fd, f) ∉ interest l.
Proof.
  intros Hinv fd. pose proof (new_fd_fresh (open_fds l)) as Hf. rw -/fd /open_fds in Hf.
  apply not_elem_of_union in Hf as [Hd Hlk]. apply not_elem_of_dom in Hd.
  assert (connections_ l !! fd = None) as Hn.
  { apply eq_None_not_Some. rw -(i_socks _ _ Hinv) Hd. by intros []. }
  assert (fd ≠ listen_fd_ l) by set_solver. split_and!; try done.
  { intros [? ?]%(i_refused _ _ Hinv). congruence. }
  intros f [?|[? Hs]]%(i_known _ _ Hinv); [done|congruence].
Qed.

Lemma accept_conn_inv s f l :
  inv l →
  wp loop_fault (let! r := accept_one accept_cb s in
    match r.2 with Some c => add_connection c f | None => modify (close_fd r.1) end)
    (λ _ l', inv l' ∧ l_clock l' = l_clock l ∧ running_ l' = running_ l ∧ kq_or_epoll_fd_ l' = kq_or_epoll_fd_ l ∧
       (∀ fd c, connections_ l !! fd = Some c → connections_ l' !! fd = Some c) ∧
       (∀ fd s, socks l !! fd = Some s → socks l' !! fd = Some s)) l.
Proof.
  intros Hinv. destruct (fresh_fd l Hinv) as (Hcn & Hsn & Hnl & Hnr & Hni). wp_go. rw {1}/wp /accept_one.
  set (fd := new_fd (open_fds l)) in *. destruct (accept_cb fd (l_metrics l)) as [[c|] m] eqn:Hcb.
  - assert (c = new_connection fd) as -> by (eapply (cb_new _ (l_metrics l)); by rw Hcb).
    rw /add_connection. cbn [snd fd_ new_connection]. wp_go.
    destruct f; cbn [set_nonblocking]; [|by right; eexists..]. wp_go.
    cbn [connections_ with_mux fd_ new_connection]. rw Hcn. split_and!; try done.
    + assert (¬ pending (new_connection fd) = true) as Hnp.
      { rw pending_readable; [apply Buffer.new_buffer_wf|]. intros Hp. apply Hp, Buffer.new_buffer_wf. }
      destruct (ctl_inv (Some fd) fd (ctl_add fd) (with_connections (<[fd := new_connection fd]> (connections_ l))
        (mkLoop (mux l) (kq_or_epoll_fd_ l) (listen_fd_ l) (running_ l) (connections_ l)
           (<[fd := s]> (socks l)) (gone l) (l_world l) m (l_clock l) (l_ticks l) (accepts l)))) as [Hi _]; [..|exact Hi].
      * destruct Hinv as [Hc Ho Hs Hr Hw Hk Hl Hst Hrf].
        split; rw /interest /refusals; cbn [connections_ socks mux listen_fd_ l_world with_connections]; try done.
        -- intros fd' c' [[<- <-]|[_ H]]%lookup_insert_Some; [|by apply Hc].
           split_and!; [done|apply new_fd_nonneg|apply Buffer.new_buffer_wf..].
        -- intros fd' c' [[<- <-]|[_ H]]%lookup_insert_Some; [done|]. intros _. by apply (Ho _ _ H).
        -- intros fd'. rw !lookup_insert_is_Some Hs. done.
        -- intros fd' [<-|[_ H]]%lookup_insert_is_Some ? ?; [done|by apply Hr].
        -- intros fd' c' [[<- <-]|[_ H]]%lookup_insert_Some ? ?; [done|by apply (Hw _ _ H)].
        -- intros fd' f Hin. rw lookup_insert_is_Some'. destruct (Hk _ _ Hin); tauto.
        -- rw lookup_insert_ne //.
        -- intros fd' Hin. rw lookup_insert_is_Some'. right. by apply Hrf.
      * by rw /= lookup_insert_eq.
      * by right.
      * intros [fd' f'] Hne. rw /ctl_add. set_solver.
      * intros c' Hc' _. cbn in Hc'. rw lookup_insert_eq in Hc'. injection Hc' as <-.
        split; [rw /ctl_add; set_solver|]. split; [|done]. rw /ctl_add elem_of_union.
        intros [?|?]; [by edestruct Hni|set_solver].
      * intros c' Hc'. cbn in Hc'. rw lookup_insert_eq in Hc'. by injection Hc' as <-.
    + intros fd' c' H. cbn. rw lookup_insert_ne //. congruence.
    + intros fd' s' H. cbn. rw lookup_insert_ne //. congruence.
  - cbn [snd fst]. wp_go. rw /close_fd. cbn [socks]. rw lookup_insert_eq. cbn [socks connections_].
    rw delete_insert_id //. split_and!; try done. destruct Hinv as [Hc Ho Hs Hr Hw Hk Hl Hst Hrf].
    assert (∀ p, p ∈ filter (λ p, p.1 ≠ fd) (interest l) ↔ p ∈ interest l) as Hf.
    { intros [fd' f']. rw elem_of_filter /=. split; [tauto|]. intros Hin. split; [|done]. intros ->. by eapply Hni. }
    assert (∀ fd', fd' ∈ refusals l ∖ {[fd]} ↔ fd' ∈ refusals l) as Hff by (intros fd'; set_solver).
    split; rw /interest /refusals; cbn [connections_ socks mux forget regs refused listen_fd_ l_world]; try done.
    + intros fd' H ?. rw Hff Hf. by apply Hr.
    + intros fd' c' H ?. rw Hff Hf. by apply Hw.
    + intros fd' f'. rw Hf. apply Hk.
    + intros fd'. rw Hff. apply Hrf.
Qed.

(** ** Rounds *)

(** What every action keeps. *)
Definition keeps l l' : Prop :=
  inv l' ∧ l_clock l' = l_clock l ∧ running_ l' = running_ l ∧ kq_or_epoll_fd_ l' = kq_or_epoll_fd_ l.

Lemma keeps_trans l1 l2 l3 : keeps l1 l2 → keeps l2 l3 → keeps l1 l3.
Proof. intros (? & ? & ? & ?) (? & ? & ? & ?). split_and!; congruence. Qed.

Lemma apart_keeps fd l l' : inv l' → apart fd l l' → keeps l l'.
Proof. by intros ? []. Qed.

(** A loop whose body keeps the invariant. *)
Lemma foldM_keeps {A} (f : unit → A → M (Loop W Mt) unit) xs l :
  (∀ x l, inv l → wp loop_fault (f tt x) (λ _ l', keeps l l') l) → inv l →
  wp loop_fault (foldM f xs tt) (λ _ l', keeps l l') l.
Proof.
  intros Hf. revert l. induction xs as [|x xs IH]; intros l Hl; cbn [foldM]; wp_go; [done|].
  eapply wp_mono; [by apply Hf|]. intros [] l1 H1. eapply wp_mono; [apply IH; apply H1|].
  intros ? l2 H2. by eapply keeps_trans.
Qed.

Lemma accept_loop_keeps evs l :
  inv l → wp loop_fault (accept_loop accept_cb evs) (λ _ l', keeps l l') l.
Proof.
  assert (∀ a l, inv l → inv (with_accepts a l)) as Ha by (intros a l0 []; by split).
  revert l. induction evs as [|[s f| |] evs IH]; intros l Hl; cbn [accept_loop].
  - wp_go. split_and!; [by apply Ha|done..].
  - assert (∀ (Q : unit → Loop W Mt → Prop), wp loop_fault
      ((let! r := accept_one accept_cb s in
        match r.2 with Some c => add_connection c f | None => modify (close_fd r.1) end) ;;;
       accept_loop accept_cb evs) Q l →
      wp loop_fault (let! r := accept_one accept_cb s in
        match r.2 with Some c => add_connection c f | None => modify (close_fd r.1) end ;;;
        accept_loop accept_cb evs) Q l) as Hassoc.
    { intros Q. rw /wp /bind. by destruct (accept_one accept_cb s l) as [[r l0]|]. }
    apply Hassoc. apply wp_bind. eapply wp_mono; [by apply accept_conn_inv|].
    intros _ l1 (H1 & ? & ? & ? & _). eapply wp_mono; [by apply IH|]. intros _ l2 (? & ? & ? & ?). split_and!; [done|congruence..].
  - by apply IH.
  - wp_go. split_and!; [by apply Ha|done..].
Qed.

(** An action on [fd] touches only [fd]. *)
Lemma perform_apart fd a l :
  inv l → (a = DoRead fd ∨ a = DoWrite fd ∨ a = DoRemove fd) →
  wp loop_fault (perform accept_cb a) (λ _ l', inv l' ∧ apart fd l l') l.
Proof.
  intros Hl [->|[->| ->]]; cbn [perform].
  - destruct (connections_ l !! fd) as [c|] eqn:Hc;
      [|rw /handle_readable; wp_go; rw Hc; wp_go; split; [done|apply apart_refl]].
    assert (wp loop_fault on_readable (λ _ _, True) (net_of c l)) as Hwp.
    { destruct (inv_sock _ _ _ _ Hl Hc) as (s & _ & Hnet). destruct (i_conn _ _ Hl _ _ Hc) as (_ & _ & ? & ?).
      assert (conn_ok (net_of c l)) as Hok by (rw Hnet; split_and!; [done..|apply (i_store _ _ Hl)]).
      pose proof (on_readable_safe False _ Hok ltac:(done)) as Hs. rw /wp in Hs |- *. destruct (on_readable _) as [[]|]; [done|by left]. }
    eapply wp_mono; [eapply (handle_readable_run fd c loop_fault l Hl Hc); exact Hwp|].
    by intros _ l' (? & ? & _).
  - destruct (connections_ l !! fd) as [c|] eqn:Hc;
      [|rw /handle_writable; wp_go; rw Hc; wp_go; split; [done|apply apart_refl]].
    apply wp_faultless. eapply wp_mono; [by eapply handle_writable_run|]. by intros _ l' (? & ? & _).
  - apply wp_faultless. eapply wp_mono; [by apply (remove_inv None); [|left]|].
    by intros _ l' (? & _ & _ & _ & _ & ? & _).
Qed.

Lemma perform_keeps a l : inv l → wp loop_fault (perform accept_cb a) (λ _ l', keeps l l') l.
Proof.
  intros Hl. destruct a as [|fd|fd|fd].
  { cbn [perform]. rw /handle_accept. wp_go. by apply accept_loop_keeps. }
  all: eapply wp_mono; [by apply (perform_apart fd); [|auto]|]; intros ? l' [? ?]; by eapply apart_keeps.
Qed.

Lemma poll_once_keeps evs l : inv l → wp loop_fault (poll_once accept_cb evs) (λ _ l', keeps l l') l.
Proof.
  intros Hl. rw /poll_once. apply foldM_keeps; [|done]. intros e l0 H0. wp_go.
  apply foldM_keeps; [|done]. intros a l1 H1. by apply perform_keeps.
Qed.

(** No closed connection is left for [reap_closed]: the handlers removed it. *)
Lemma reap_nothing l : inv l → reap_closed l = Ret (tt, l).
Proof.
  intros Hl. rw /reap_closed /bind /gets.
  enough (filter (λ p : Z * Connection, closed_ p.2 = true) (conn_order (connections_ l)) = []) as -> by done.
  assert (∀ p, p ∈ conn_order (connections_ l) → closed_ p.2 = false) as Hopen.
  { intros [fd c] Hin. rw conn_order_perm in Hin. apply elem_of_map_to_list in Hin. by apply (i_open _ _ Hl _ _ Hin). }
  induction (conn_order (connections_ l)) as [|p ps IH]; [done|].
  rw filter_cons_False; [by rw Hopen; [left|]|]. apply IH. intros q Hq. apply Hopen. by right.
Qed.

Lemma arrive_inv a l : inv l → inv (arrive a l).
Proof.
  intros [Hc Ho Hs Hr Hw Hk Hl Hst Hrf]. destruct a; split; try done; cbn [arrive socks connections_ with_accepts];
    intros fd'; by rw lookup_alter_is_Some.
Qed.

Lemma arrivals_inv (xs : list Arrival) l : inv l → inv (foldl (λ l a, arrive a l) l xs) ∧
  l_clock (foldl (λ l a, arrive a l) l xs) = l_clock l ∧ running_ (foldl (λ l a, arrive a l) l xs) = running_ l ∧
  kq_or_epoll_fd_ (foldl (λ l a, arrive a l) l xs) = kq_or_epoll_fd_ l.
Proof.
  revert l. induction xs as [|a xs IH]; intros l Hl; [done|]. cbn [foldl].
  destruct (IH _ (arrive_inv a l Hl)) as (? & -> & -> & ->). split; [done|]. by destruct a.
Qed.

Lemma round_inv r l :
  inv l → wp loop_fault (round accept_cb r) (λ _ l', inv l' ∧ l_clock l' = l_clock l ∧
    running_ l' = running_ l && negb (stopped r) ∧ kq_or_epoll_fd_ l' = kq_or_epoll_fd_ l) l.
Proof.
  intros Hl. rw /round. wp_go. destruct (arrivals_inv (arrivals r) l Hl) as (H1 & Hc1 & Hr1 & Hk1).
  eapply wp_mono; [by apply poll_once_keeps|]. intros _ l2 (H2 & Hc2 & Hr2 & Hk2). destruct (stopped r).
  - rw /stop. wp_go. assert (inv (with_running false l2)) as H3 by (destruct H2; by split).
    rw /wp (reap_nothing _ H3). rw andb_false_r. split_and!; [done|cbn; congruence|done|cbn; congruence].
  - wp_go. rw /wp (reap_nothing _ H2) andb_true_r. split_and!; [done|congruence..].
Qed.

Lemma run_loop_inv rounds l :
  inv l → wp loop_fault (run_loop accept_cb rounds) (λ b l', inv l' ∧
    b = negb (running_ l) || existsb stopped rounds) l.
Proof.
  revert l. induction rounds as [|r rs IH]; intros l Hl; cbn [run_loop]; wp_go;
    destruct (running_ l) eqn:Hr; wp_go; try done.
  eapply wp_mono; [by apply round_inv|]. intros _ l1 (H1 & _ & Hr1 & _). eapply wp_mono; [by apply IH|].
  intros b l2 [? ->]. split; [done|]. cbn [existsb]. rw Hr1 Hr. by destruct (stopped r).
Qed.
End Thms.
End EventLoopInv.
