(* ===== verification/EventLoopThms.v ===== *)
(** What the event loop guarantees: it is safe whatever its clients and the
    kernel do, keeps clients apart, serves them in the order of their events,
    delivers what they are owed, and drops what a closed connection had still
    to say. *)

From S2P Require Import Prelude Lru Storage StorageInv StorageSpec StorageThms Resp RespThms Commands CommandsThms Persistence PersistenceThms Buffer Connection ConnectionThms EventLoop EventLoopInv.

Module EventLoopThms.
Import Connection ConnectionThms EventLoop EventLoopInv RespThms PersistenceThms Store StoreInv StoreSpec.

Section Thms.
Context {W : Type} {ops : Commands.StoreOps W} {safe : CommandsThms.StoreSafe W} {cc : Commands.Compiler} {limits : VecLimits}.
Context {Mt : Type} {sink : MetricsSink Mt} {mlaws : MetricsLaws Mt}.
Context {poller : Poller} {plaws : PollerLaws poller} {kernel : Kernel}.
Context (accept_cb : Z → Mt → option Connection * Mt).

Implicit Types l : Loop W Mt.

Lemma listening_inv kq fd w (m : Mt) clk :
  CommandsThms.st_inv w → wp no_fault (add_listener fd FcntlOk true) (λ _ l, inv l) (new_loop kq w m clk).
Proof.
  intros Hw. rw /add_listener. wp_go. cbn. split; rw /interest /refusals; cbn; try done.
  - intros fd'. split; intros [? H]; by rw lookup_empty in H.
  - intros fd' [? H]. by rw lookup_empty in H.
  - intros fd' f. rw /ctl_add. set_solver.
Qed.

(** ** Registrations *)

(** A round in which the multiplexer is to refuse a registration. *)
Definition refuses (r : Round) : bool :=
  existsb (λ a, match a with ArrCtl rs => existsb negb rs | _ => false end) (arrivals r).

(** A multiplexer that has refused nothing and is not going to. *)
Definition granting (x : Mux) : Prop := existsb negb (answers x) = false ∧ refused x = ∅.

Lemma granting_ctl op fd x : granting x → granting (ctl op fd x).
Proof. intros [Ha Hr]. rw /granting /ctl. by destruct (answers x) as [|[] ?]. Qed.

Lemma granting_forget fd x : granting x → granting (forget fd x).
Proof. intros [Ha Hr]. split; [done|]. cbn. rw Hr. set_solver. Qed.

Lemma granting_destroy c l : granting (mux l) → granting (mux (destroy c l)).
Proof. intros Hl. rw /destroy /close_fd. repeat case_match; [by apply granting_forget|done..]. Qed.

Lemma granting_conn {A} fd c (m : M (Net W Mt) A) : closed granting (mux (W := W) (Mt := Mt)) (on_conn fd c m).
Proof. apply closed_same. intros l. rw /wp /on_conn. by destruct (m _) as [[]|]. Qed.

Lemma granting_remove fd : closed granting (mux (W := W) (Mt := Mt)) (remove_connection fd).
Proof.
  rw /remove_connection. close; apply closed_update; intros l Hl; [done|].
  case_match; [by apply granting_destroy|done].
Qed.

Lemma granting_update fd b : closed granting (mux (W := W) (Mt := Mt)) (update_write_interest fd b).
Proof. apply closed_update. intros l. apply granting_ctl. Qed.

Lemma granting_accept evs : closed granting (mux (W := W) (Mt := Mt)) (accept_loop accept_cb evs).
Proof.
  induction evs as [|[s f| |] evs IH]; cbn [accept_loop]; close.
  - apply closed_same. intros l. rw /wp /accept_one. by destruct (accept_cb _ _).
  - rw /add_connection. close; apply closed_update; intros l Hl; [by apply granting_ctl|].
    case_match; [by apply granting_destroy|done].
  - apply closed_update. intros l Hl. rw /close_fd. case_match; [by apply granting_forget|done].
Qed.

Lemma granting_round r : refuses r = false → closed granting (mux (W := W) (Mt := Mt)) (round accept_cb r).
Proof.
  intros Hr. pose proof granting_remove. pose proof granting_update. pose proof (@granting_conn).
  rw /round /poll_once /reap_closed /EventLoop.stop. close.
  - apply closed_update. intros l. rw /refuses in Hr. revert l Hr.
    induction (arrivals r) as [|a xs IH]; intros l Hr Hl; [done|]. cbn [existsb] in Hr. apply orb_false_iff in Hr as [Ha Hr].
    cbn [foldl]. apply IH; [done|]. destruct a; try done. destruct Hl as [Hl1 Hl2]. split; [|done]. cbn. by rw existsb_app Hl1.
  - rw /perform. case_match; rw /handle_accept /handle_readable /handle_writable; close. apply granting_accept.
Qed.

Lemma listening_granting fd f b : closed granting (mux (W := W) (Mt := Mt)) (add_listener fd f b).
Proof. rw /add_listener. close; by apply closed_update. Qed.

(** What the system does not refuse is registered. *)
Lemma run_loop_granting rounds :
  existsb refuses rounds = false → closed granting (mux (W := W) (Mt := Mt)) (run_loop accept_cb rounds).
Proof.
  induction rounds as [|r rs IH]; cbn [existsb run_loop]; [intros _|intros [Hr Hrs]%orb_false_iff]; close.
  - by apply granting_round.
  - done.
Qed.

(** C10: the event loop keeps its books.  From start-up on, whatever events,
    bytes, errors and connections it sees and whichever registrations the system
    refuses, every entry of its map is an open socket under its own descriptor and
    every open client socket is an entry, so none is leaked or closed twice; none
    is marked closed.  Each is registered for reading, and for writing exactly
    when it has something to send, unless the system refused a registration for
    it, which the code ignores, and if the system refuses none there is no such
    exception; nothing else but the listener is registered.  A run that is not cut
    short has left the loop exactly when it was stopped.  It is cut short only by
    what [loop_fault] lists: memory that is not there (which a client can bring
    about by an array length below -1), a buffer over 64 MiB, an [int64_t]
    overflow, the call in SetCmd.hpp under a compiler that evaluates arguments
    from the right, a latency that cannot be averaged, a failing [fcntl]. *)
Theorem event_loop_invariant kq fd w (m : Mt) clk rounds :
  (∀ fd m c, (accept_cb fd m).1 = Some c → c = new_connection fd) → CommandsThms.st_inv w →
  match (add_listener fd FcntlOk true ;;; run accept_cb rounds) (new_loop kq w m clk) with
  | Ret (b, l) => inv l ∧ b = existsb stopped rounds ∧ (existsb refuses rounds = false → refusals l = ∅)
  | Fail f => loop_fault f
  end.
Proof.
  intros Hcb Hw.
  enough (wp loop_fault (add_listener fd FcntlOk true ;;; run accept_cb rounds)
    (λ b l, inv l ∧ b = existsb stopped rounds ∧ (existsb refuses rounds = false → refusals l = ∅)) (new_loop kq w m clk)) as H by exact H.
  apply wp_bind. eapply wp_mono; [apply wp_and; [by apply wp_faultless, listening_inv|by apply (listening_granting fd FcntlOk true)]|].
  intros ? l [Hl Hg]. rw /run. wp_go.
  destruct (existsb refuses rounds) eqn:Hr.
  - eapply wp_mono; [apply (run_loop_inv accept_cb Hcb); by destruct Hl|]. by intros b l' [? ->].
  - eapply wp_mono; [apply wp_and; [apply (run_loop_inv accept_cb Hcb); by destruct Hl|by apply (run_loop_granting rounds Hr)]|].
    by intros b l' [[? ->] [_ ?]].
Qed.

(** The descriptor an action is about. *)
Definition about (fd : Z) (a : Action) : Prop := a = DoRead fd ∨ a = DoWrite fd ∨ a = DoRemove fd.

(** Clients are kept apart.  Whatever happens on one descriptor, the
    connections, sockets and registrations of all others stay as they were;
    through the store alone can one client affect another. *)
Theorem clients_apart fd acts l l' :
  inv l → Forall (about fd) acts →
  foldM (λ _ a, perform accept_cb a) acts tt l = Ret (tt, l') →
  inv l' ∧ ∀ fd', fd' ≠ fd →
    connections_ l' !! fd' = connections_ l !! fd' ∧ socks l' !! fd' = socks l !! fd' ∧
    ∀ f, (fd', f) ∈ interest l' ↔ (fd', f) ∈ interest l.
Proof.
  intros Hl Ha Hrun.
  enough (wp loop_fault (foldM (λ _ a, perform accept_cb a) acts tt) (λ _ l', inv l' ∧ apart fd l l') l) as Hwp.
  { rw /wp Hrun in Hwp. destruct Hwp as [? []]. auto. }
  clear Hrun l'. revert l Hl. induction Ha as [|a acts Ha _ IH]; intros l Hl; cbn [foldM]; wp_go.
  { split; [done|apply apart_refl]. }
  eapply wp_mono; [by apply (perform_apart accept_cb fd)|]. intros [] l1 [H1 A1].
  eapply wp_mono; [by apply IH|]. intros _ l2 [H2 A2]. split; [done|]. by eapply apart_trans.
Qed.

(** ** Serving requests *)

(** A request: commands that arrive on a descriptor, and its event. *)
Definition Request : Type := Z * list (list bytes).

Definition request (r : Request) : M (Loop W Mt) unit :=
  modify (arrive (ArrIn r.1 [RData (stream r.2)])) ;;; handle_readable r.1.

(** The requests executed one after the other on the store. *)
Fixpoint run_requests (reqs : list Request) : M W (list (Z * bytes)) :=
  match reqs with
  | [] => ret []
  | r :: reqs' =>
      let! reply := run_cmds r.2 in
      let! rest := run_requests reqs' in
      ret ((r.1, reply) :: rest)
  end.

Fixpoint replies_to (fd : Z) (rs : list (Z * bytes)) : bytes :=
  match rs with
  | [] => []
  | (fd', r) :: rs' => (if bool_decide (fd' = fd) then r else []) ++ replies_to fd rs'
  end.

(** Clients that have sent nothing which is not answered, and a clock and
    metrics that can take the latencies. *)
Record idle l : Prop := {
  idle_conn : ∀ fd c, connections_ l !! fd = Some c → Buffer.readable (in_buf_ c) = [];
  idle_sock : ∀ fd s, socks l !! fd = Some s → s_inbox s = [];
  idle_clock : ∀ i, 0 ≤ l_clock l i < 2 ^ 63 ∧ 0 ≤ l_clock l (S i) - l_clock l i ≤ max_latency;
  idle_metrics : metrics_ok (l_metrics l)
}.

(** A request of a connected client that fits its buffers. *)
Definition fits l (r : Request) : Prop :=
  is_Some (connections_ l !! r.1) ∧ r.2 ≠ [] ∧ Forall (λ c, reservable (zlen c)) ([] :: r.2) ∧
  zlen (stream r.2) + 4096 ≤ Buffer.MAX_CAP.

Lemma request_served fd cmds c rs w' l :
  inv l → idle l → connections_ l !! fd = Some c → fits l (fd, cmds) →
  run_cmds cmds (l_world l) = Ret (rs, w') → Buffer.MAX_CAP ≤ string_limit →
  zlen (Buffer.readable (out_buf_ c)) + zlen rs ≤ Buffer.MAX_CAP →
  wp no_fault (request (fd, cmds)) (λ _ l', inv l' ∧ idle l' ∧ l_world l' = w' ∧
    (∀ fd', fd' ≠ fd → connections_ l' !! fd' = connections_ l !! fd') ∧
    (∀ fd', fd' ≠ fd → socks l' !! fd' = socks l !! fd') ∧
    ∃ c' s s', connections_ l' !! fd = Some c' ∧ socks l !! fd = Some s ∧ socks l' !! fd = Some s' ∧
      s_sent s' = s_sent s ∧ s_outbox s' = s_outbox s ∧
      Buffer.readable (out_buf_ c') = Buffer.readable (out_buf_ c) ++ rs) l.
Proof.
  intros Hinv [Hic His Hick Him] Hc (_ & Hne & Hres & Hfit) Hrun Hlim Hcap. cbn [fst snd] in *.
  destruct (inv_sock _ _ _ _ Hinv Hc) as (s & Hs & _). rw /request. wp_go. cbn [fst snd].
  set (l1 := arrive (ArrIn fd [RData (stream cmds)]) l).
  assert (inv l1) as Hinv1 by (by apply arrive_inv).
  assert (connections_ l1 !! fd = Some c) as Hc1 by done.
  destruct (inv_sock _ _ _ _ Hinv1 Hc1) as (s1 & Hs1 & Hnet). rw /l1 /= lookup_alter_eq Hs in Hs1.
  cbn in Hs1. injection Hs1 as <-. cbn [s_inbox s_outbox s_sent] in Hnet. rw (His _ _ Hs) /= in Hnet.
  pose proof (i_conn _ _ Hinv1 _ _ Hc1) as (_ & _ & Hwi & Hwo).
  eapply wp_mono; [eapply (handle_readable_run fd c no_fault l1 Hinv1 Hc1), (request_run cmds _ rs w')|];
    rw ?Hnet; cbn [conn world inbox us_clock metrics]; try done.
  { split_and!; [done..|by split|by apply (i_open _ _ Hinv1 _ _ Hc1)]. }
  { by eapply Hic. }
  intros _ l2 (Hinv2 & Hap & ok & n & (-> & (Hnwi & Hnwo & (_ & Hnm) & Hnc) & Hnw & Hnb & Hnr & Hno) & Hg & Hw2 & Hm2 & Hc2 & Hs2 & _).
  destruct Hap as [Ac As _ Ack _ _ _].
  assert (∀ fd', fd' ≠ fd → socks l2 !! fd' = socks l !! fd') as As'.
  { intros fd' Hne'. by rw As // /l1 /= lookup_alter_ne. }
  split_and!; [done| |congruence|done|done|].
  - split.
    + intros fd' c'. destruct (decide (fd' = fd)) as [->|]; [rw Hc2; by intros [= <-]|rw Ac //; apply Hic].
    + intros fd' s'. destruct (decide (fd' = fd)) as [->|]; [rw Hs2; by intros [= <-]|rw As' //; apply His].
    + intros i. rw Ack. apply Hick.
    + by rw Hm2.
  - exists (conn n), s, (mkSock (inbox n) (outbox n) (sent n)). destruct Hg as [_ Hgs Hgo _ _].
    by split_and!.
Qed.

(** The same for any sequence of requests. *)
Lemma requests_served reqs rs w' l :
  inv l → idle l → Forall (fits l) reqs → run_requests reqs (l_world l) = Ret (rs, w') →
  Buffer.MAX_CAP ≤ string_limit →
  (∀ fd c, connections_ l !! fd = Some c →
     zlen (Buffer.readable (out_buf_ c)) + zlen (replies_to fd rs) ≤ Buffer.MAX_CAP) →
  ∃ l', foldM (λ _ r, request r) reqs tt l = Ret (tt, l') ∧ inv l' ∧ idle l' ∧ l_world l' = w' ∧
    ∀ fd c, connections_ l !! fd = Some c →
      ∃ c', connections_ l' !! fd = Some c' ∧
        Buffer.readable (out_buf_ c') = Buffer.readable (out_buf_ c) ++ replies_to fd rs.
Proof.
  intros Hinv Hidle Hfits Hrun Hlim. revert l rs Hinv Hidle Hfits Hrun.
  induction reqs as [|[fd cmds] reqs IH]; intros l rs Hinv Hidle Hfits Hrun Hcap.
  { injection Hrun as <- <-. exists l. split_and!; try done. intros fd c Hc. exists c. by rw app_nil_r. }
  apply Forall_cons in Hfits as [Hfit Hfits]. cbn [run_requests fst snd] in Hrun. rw {1}/bind in Hrun.
  destruct (run_cmds cmds (l_world l)) as [[r w1]|] eqn:Hr; [|done]. rw /bind in Hrun.
  destruct (run_requests reqs w1) as [[rs' w2]|] eqn:Hrs; [|done]. injection Hrun as <- <-.
  destruct Hfit as ([c Hc] & Hfit). cbn [fst] in Hc.
  pose proof (Hcap fd c Hc) as Hcap1. cbn [replies_to] in Hcap1. rw bool_decide_true // length_app in Hcap1.
  destruct (wp_Ret _ _ _ (request_served fd cmds c r w1 l Hinv Hidle Hc ltac:(by split; [exists c|]) Hr Hlim ltac:(lia)))
    as ([] & l1 & Hl1 & Hinv1 & Hidle1 & Hw1 & Ac & _ & c1 & _ & _ & Hc1 & _ & _ & _ & _ & Ho1).
  destruct (IH l1 rs') as (l2 & Hl2 & Hinv2 & Hidle2 & Hw2 & Hall); try done.
  { eapply Forall_impl; [exact Hfits|]. intros [fd' cmds'] [[c' Hc'] ?]. split; [|done]. cbn in *.
    destruct (decide (fd' = fd)) as [->|]; [by exists c1|rw Ac //; by exists c']. }
  { by rw Hw1. }
  { intros fd' c'. destruct (decide (fd' = fd)) as [->|Hne].
    - rw Hc1. intros [= <-]. rw Ho1 length_app. lia.
    - rw Ac //. intros H. pose proof (Hcap _ _ H) as Hk. cbn [replies_to] in Hk.
      by rw bool_decide_false in Hk; [congruence|]. }
  exists l2. cbn [foldM]. rw {1}/bind Hl1. split_and!; try done. intros fd' c' Hc'. cbn [replies_to].
  destruct (decide (fd' = fd)) as [->|Hne].
  - rw bool_decide_true //. rw Hc in Hc'. injection Hc' as <-. destruct (Hall _ _ Hc1) as (c2 & ? & Ho2).
    exists c2. split; [done|]. by rw Ho2 Ho1 app_assoc.
  - rw bool_decide_false; [congruence|]. apply Hall. by rw Ac.
Qed.

(** C3: clients are served one at a time, in the order of their events.  For
    any sequence of requests by connected clients, in any mixture, the store
    ends as if their commands had been executed one after the other in that
    order, and each client is owed exactly the replies to its own commands, in
    its own order, behind what it was owed before.  The clients have nothing
    unanswered at first, requests and replies fit the buffers, and executing the
    commands does not overflow. *)
Theorem clients_serialized reqs rs w' l :
  inv l → idle l → Forall (fits l) reqs → run_requests reqs (l_world l) = Ret (rs, w') →
  Buffer.MAX_CAP ≤ string_limit →
  (∀ fd c, connections_ l !! fd = Some c →
     zlen (Buffer.readable (out_buf_ c)) + zlen (replies_to fd rs) ≤ Buffer.MAX_CAP) →
  ∃ l', foldM (λ _ r, request r) reqs tt l = Ret (tt, l') ∧ inv l' ∧ idle l' ∧ l_world l' = w' ∧
    ∀ fd c, connections_ l !! fd = Some c →
      ∃ c', connections_ l' !! fd = Some c' ∧
        Buffer.readable (out_buf_ c') = Buffer.readable (out_buf_ c) ++ replies_to fd rs.
Proof. intros. by apply requests_served. Qed.


(** C31: a writable event sends what is owed, in order.  Whatever the socket
    takes, the bytes the peer has got followed by those still owed are what
    they were.  The connection goes only if the socket reported an error: its
    events up to and with that error have been used up, and nothing behind it.
    If it stays, it is registered for writing exactly when bytes are left (unless
    the system refused a registration for it), and bytes are left only if the
    socket would block. *)
Theorem writable_event_delivers fd c s l :
  inv l → connections_ l !! fd = Some c → socks l !! fd = Some s →
  ∃ l', handle_writable fd l = Ret (tt, l') ∧ inv l' ∧ l_world l' = l_world l ∧
    ((∃ c' s', connections_ l' !! fd = Some c' ∧ socks l' !! fd = Some s' ∧ in_buf_ c' = in_buf_ c ∧
        s_sent s' ++ Buffer.readable (out_buf_ c') = s_sent s ++ Buffer.readable (out_buf_ c) ∧
        (fd ∉ refusals l' → ((fd, Write) ∈ interest l' ↔ Buffer.readable (out_buf_ c') ≠ [])) ∧
        (Buffer.readable (out_buf_ c') ≠ [] → s_outbox s' = [])) ∨
     (connections_ l' !! fd = None ∧ ∃ s' rest pre, gone l' = gone l ++ [(fd, s')] ∧
        s_sent s' ++ rest = s_sent s ++ Buffer.readable (out_buf_ c) ∧
        s_outbox s = pre ++ SError :: s_outbox s')).
Proof.
  intros Hinv Hc Hs. destruct (inv_sock _ _ _ _ Hinv Hc) as (s0 & Hs0 & Hnet). rw Hs in Hs0. injection Hs0 as <-.
  destruct (wp_Ret _ _ _ (handle_writable_run fd c l Hinv Hc)) as
    ([] & l' & Hrun & Hinv' & _ & ok & n & (Hw & _ & Hok) & Hwn & _ & Hin & _ & Hsent & Hleft & Herr).
  exists l'. rw Hnet /= in Hsent. split_and!; [done..|congruence|]. destruct ok; destruct Hok as (Hc' & Hs' & Hg).
  - left. exists (conn n), (mkSock (inbox n) (outbox n) (sent n)). split_and!; try done.
    + intros Hnr. destruct (i_conn _ _ Hinv' _ _ Hc') as (_ & _ & _ & ?). by rw (i_write _ _ Hinv' _ _ Hc') // pending_readable.
    + cbn. intros Hne. by destruct (Hleft ltac:(done)).
  - right. split; [done|]. destruct (Herr eq_refl) as [pre Hpre]. rw Hnet /= in Hpre.
    exists (mkSock (inbox n) (outbox n) (sent n)), (Buffer.readable (out_buf_ (conn n))), pre. by split_and!.
Qed.

(** A connection is closed without a last word.  When a readable event
    ends with the connection removed, its socket is closed having sent nothing
    more: replies it was owed, and the error that closed it, are dropped. *)
Theorem closing_drops_replies fd c s l l' :
  inv l → connections_ l !! fd = Some c → socks l !! fd = Some s →
  handle_readable fd l = Ret (tt, l') → connections_ l' !! fd = None →
  socks l' !! fd = None ∧ ∃ s', gone l' = gone l ++ [(fd, s')] ∧ s_sent s' = s_sent s.
Proof.
  intros Hinv Hc Hs Hrun Hgone. destruct (inv_sock _ _ _ _ Hinv Hc) as (s0 & Hs0 & Hnet).
  rw Hs in Hs0. injection Hs0 as <-. destruct (i_conn _ _ Hinv _ _ Hc) as (_ & _ & ? & ?).
  assert (conn_ok (net_of c l)) as Hok by (rw Hnet; split_and!; [done..|apply (i_store _ _ Hinv)]).
  pose proof (handle_readable_run fd c (conn_fault False) l Hinv Hc _ (on_readable_safe False _ Hok ltac:(done))) as Hwp.
  rw /wp Hrun in Hwp. destruct Hwp as (_ & _ & ok & n & _ & Hg & _ & _ & Hout).
  destruct ok; [destruct Hout; congruence|]. destruct Hout as (_ & ? & Hg'). split; [done|].
  eexists. split; [exact Hg'|]. cbn. by rw (g_sent _ _ Hg) Hnet.
Qed.

(** A protocol error reaches the client as a closed connection and nothing
    else.  The commands before it in the same read are executed, but the peer
    gets neither their replies nor the error line. *)
Theorem protocol_error_unanswered fd c s cmds bad r rs w' l :
  inv l → idle l → connections_ l !! fd = Some c → socks l !! fd = Some s → bad ≠ [] →
  RespParser.parse bad = Ret r → status r = Error → Forall (λ c, reservable (zlen c)) cmds →
  run_cmds cmds (l_world l) = Ret (rs, w') → zlen rs ≤ string_limit →
  zlen (Buffer.readable (out_buf_ c)) + 100 ≤ Buffer.MAX_CAP →
  zlen (stream cmds ++ bad) + 4096 ≤ Buffer.MAX_CAP →
  ∃ l' s', (modify (arrive (ArrIn fd [RData (stream cmds ++ bad)])) ;;; handle_readable fd) l = Ret (tt, l') ∧
    l_world l' = w' ∧ connections_ l' !! fd = None ∧ gone l' = gone l ++ [(fd, s')] ∧ s_sent s' = s_sent s.
Proof.
  intros Hinv [Hic His Hick Him] Hc Hs Hbad Hp Hst Hres Hrun Hlim Hcap Hfit.
  set (l1 := arrive (ArrIn fd [RData (stream cmds ++ bad)]) l).
  assert (inv l1) as Hinv1 by (by apply arrive_inv).
  assert (connections_ l1 !! fd = Some c) as Hc1 by done.
  destruct (inv_sock _ _ _ _ Hinv1 Hc1) as (s1 & Hs1 & Hnet). rw /l1 /= lookup_alter_eq Hs in Hs1.
  cbn in Hs1. injection Hs1 as <-. cbn [s_inbox s_outbox s_sent] in Hnet. rw (His _ _ Hs) /= in Hnet.
  pose proof (i_conn _ _ Hinv1 _ _ Hc1) as (_ & _ & Hwi & Hwo).
  assert (wp no_fault on_readable (λ ok n, ok = false ∧ world n = w') (net_of c l1)) as Hwp.
  { rw Hnet /on_readable. wp_go. cbn [inbox].
    eapply wp_mono; [apply (read_loop_data _ (stream cmds ++ bad)); cbn [conn inbox]; rw ?(Hic _ _ Hc) //|].
    - by destruct (stream cmds); [destruct bad|].
    - cbn. lia.
    - intros ? n (-> & Hn1 & Hn2 & Hn3 & _ & Hn4 & Hn5 & Hn6 & Hn7). cbn [conn us_clock metrics world] in *. wp_go.
      rw (Hic _ _ Hc) in Hn7. eapply wp_mono; [apply (protocol_error_run cmds bad r n rs w'); rw ?Hn2 ?Hn6 //|].
      + rw /clock_ok Hn4 Hn5. by split.
      + intros [] n' (? & Hcl & _). wp_go. by rw Hcl. }
  destruct (wp_Ret _ _ _ (handle_readable_run fd c no_fault l1 Hinv1 Hc1 _ Hwp)) as
    ([] & l' & Hl' & _ & _ & ok & n & [-> Hw] & Hg & Hw' & _ & Hc' & _ & Hg').
  exists l', (mkSock (inbox n) (outbox n) (sent n)). rw /bind /modify -/l1. split_and!; try done; [congruence|].
  cbn. by rw (g_sent _ _ Hg) Hnet.
Qed.

(** A stop that comes too early is lost.  [run] sets [running_] before its
    first test, so a [stop] called before it has no effect at all. *)
Theorem early_stop_is_lost rounds l :
  (stop ;;; run accept_cb rounds) l = run accept_cb rounds l.
Proof. done. Qed.

(** A client that does not read its replies stops the server.  When the
    replies owed to one connection would exceed 64 MiB, its readable event
    throws; nothing in the loop catches it, so the run ends there for every
    client, whatever rounds were to follow. *)
Theorem slow_reader_stops_loop fd c e cmds rs w' b rounds l :
  inv l → idle l → connections_ l !! fd = Some c → fits l (fd, cmds) →
  run_cmds cmds (l_world l) = Ret (rs, w') → zlen rs ≤ string_limit →
  Buffer.MAX_CAP < zlen (Buffer.readable (out_buf_ c)) + zlen rs →
  actions (listen_fd_ l) e = [DoRead fd] →
  run accept_cb (mkRound [ArrIn fd [RData (stream cmds)]] [e] b :: rounds) l =
    Fail (Throw (runtime_error Buffer.overflow_msg)).
Proof.
  intros Hinv [Hic His Hick Him] Hc (_ & Hne & Hres & Hfit) Hrun Hlim Hover He. cbn [fst snd] in *.
  destruct (inv_sock _ _ _ _ Hinv Hc) as (s & Hs & _).
  set (l1 := arrive (ArrIn fd [RData (stream cmds)]) (with_running true l)).
  assert (inv l1) as Hinv1 by (apply arrive_inv; by destruct Hinv).
  assert (connections_ l1 !! fd = Some c) as Hc1 by done.
  destruct (inv_sock _ _ _ _ Hinv1 Hc1) as (s1 & Hs1 & Hnet). rw /l1 /= lookup_alter_eq Hs in Hs1.
  cbn in Hs1. injection Hs1 as <-. cbn [s_inbox s_outbox s_sent] in Hnet. rw (His _ _ Hs) /= in Hnet.
  pose proof (i_conn _ _ Hinv1 _ _ Hc1) as (_ & _ & Hwi & Hwo).
  assert (handle_readable fd l1 = Fail (Throw (runtime_error Buffer.overflow_msg))) as Hfail.
  { rw /handle_readable /bind {1}/gets Hc1 /on_conn Hnet.
    match goal with |- context [on_readable ?n] => assert (wp (λ f, f = Throw (runtime_error Buffer.overflow_msg))
      on_readable (λ _ _, False) n) as Hwp end.
    { apply (overflow_run cmds _ rs w'); cbn [conn world inbox]; try done; [|by apply (Hic fd)].
      split_and!; [done..|by split|by apply (i_open _ _ Hinv1 _ _ Hc1)]. }
    rw /wp in Hwp. destruct (on_readable _) as [[]|f]; [done|by rw Hwp]. }
  rw /run /bind /modify. cbn [run_loop]. rw /bind {1}/gets. cbn [running_ with_running].
  rw /round /bind /modify. cbn [arrivals foldl events]. rw -/l1 /poll_once. cbn [take MAX_EVENTS]. cbn [foldM].
  rw /bind {1}/gets. change (listen_fd_ l1) with (listen_fd_ l). rw He. cbn [foldM perform]. by rw /bind Hfail.
Qed.

(** ** Destruction *)

(** Connections that are destroyed one after the other. *)
Lemma destroy_all (L : list (Z * Connection)) : ∀ l,
  NoDup L.*1 → (∀ fd c, (fd, c) ∈ L → fd_ c = fd ∧ 0 ≤ fd ∧ is_Some (socks l !! fd)) →
  let l' := foldl (λ l c, destroy c.2 l) l L in
  socks l' = filter (λ p, p.1 ∉ L.*1) (socks l) ∧ connections_ l' = connections_ l ∧
  kq_or_epoll_fd_ l' = kq_or_epoll_fd_ l ∧ interest l' ⊆ interest l ∧
  length (gone l') = (length (gone l) + length L)%nat ∧ l_world l' = l_world l.
Proof.
  clear dependent accept_cb plaws. induction L as [|[fd c] L IH]; intros l Hnd HL; cbn [foldl].
  { split_and!; [|done..|cbn; lia|done]. symmetry. apply map_filter_id. intros. apply not_elem_of_nil. }
  rw fmap_cons NoDup_cons in Hnd. destruct Hnd as [Hni Hnd].
  destruct (HL fd c) as (Hfd & Hpos & [x Hx]); [by left|]. cbn [snd].
  assert (destroy c l = mkLoop (forget fd (mux l)) (kq_or_epoll_fd_ l) (listen_fd_ l) (running_ l)
    (connections_ l) (delete fd (socks l)) (gone l ++ [(fd, x)]) (l_world l) (l_metrics l) (l_clock l) (l_ticks l) (accepts l)) as ->.
  { rw /destroy Hfd (proj2 (Z.leb_le _ _)) // /close_fd Hx //. }
  destruct (IH (mkLoop (forget fd (mux l)) (kq_or_epoll_fd_ l) (listen_fd_ l) (running_ l)
    (connections_ l) (delete fd (socks l)) (gone l ++ [(fd, x)]) (l_world l) (l_metrics l) (l_clock l) (l_ticks l) (accepts l)) Hnd)
    as (H1 & H2 & H3 & H4 & H5 & H6).
  { intros fd' c' Hin. destruct (HL fd' c') as (? & ? & ?); [by right|]. split_and!; [done..|]. cbn [socks].
    rw lookup_delete_ne //. intros ->. apply Hni, list_elem_of_fmap. by exists (fd', c'). }
  split_and!; [|done|done| | |done].
  - rw H1. cbn [socks]. apply map_eq. intros k. rw !map_lookup_filter. destruct (decide (k = fd)) as [->|Hk].
    + rw lookup_delete_eq Hx /=. case_guard as Hg; [|done]. destruct Hg. by left.
    + rw lookup_delete_ne //. destruct (socks l !! k); [|done]. cbn [mbind option_bind].
      assert (k ∉ ((fd, c) :: L).*1 ↔ k ∉ L.*1) as Hiff by (rw fmap_cons not_elem_of_cons; naive_solver).
      by repeat case_guard; naive_solver.
  - etrans; [exact H4|]. rw /interest. cbn [mux forget regs]. set_solver.
  - rw H5. cbn [gone length]. rw length_app /=. lia.
Qed.

(** The loop gives back every descriptor.  Destroying the event loop closes
    the multiplexer and every client socket, each exactly once, and leaves no
    registration. *)
Lemma destroy_loop_closes l :
  inv l → 0 ≤ kq_or_epoll_fd_ l →
  let l' := destroy_loop l in
  socks l' = ∅ ∧ connections_ l' = ∅ ∧ kq_or_epoll_fd_ l' = -1 ∧ interest l' = ∅ ∧
  length (gone l') = (length (gone l) + base.size (socks l))%nat ∧ l_world l' = l_world l.
Proof.
  intros Hinv Hkq. cbv zeta. rw /destroy_loop (proj2 (Z.leb_le _ _)) //. set (l0 := mkLoop _ _ _ _ _ _ _ _ _ _ _ _).
  assert (conn_order (connections_ l0) ≡ₚ map_to_list (connections_ l)) as Hp by apply conn_order_perm.
  assert (NoDup (conn_order (connections_ l0)).*1) as Hnd by (rw Hp; apply NoDup_fst_map_to_list).
  destruct (destroy_all (conn_order (connections_ l0)) (with_connections ∅ l0) Hnd) as (H1 & H2 & H3 & H4 & H5 & H6).
  { intros fd c. rw Hp elem_of_map_to_list. intros Hc. destruct (i_conn _ _ Hinv _ _ Hc) as (? & ? & _).
    split_and!; [done..|]. apply (i_socks _ _ Hinv). by eexists. }
  assert (dom (socks l) = dom (connections_ l)) as Hdom.
  { apply set_eq. intros fd. rw !elem_of_dom. apply (i_socks _ _ Hinv). }
  split_and!; [|done|done| | |done].
  - rw H1. apply map_empty. intros fd. apply map_lookup_filter_None. right. intros x Hx Hn. cbn in Hx. apply Hn.
    destruct (proj1 (i_socks _ _ Hinv fd)) as [c Hc]; [by eexists|]. cbn [fst]. rw Hp.
    apply list_elem_of_fmap. exists (fd, c). split; [done|]. by apply elem_of_map_to_list.
  - apply set_eq. set_solver.
  - rw H5. cbn [gone with_connections l0]. f_equal.
    by rw Hp length_map_to_list -!size_dom Hdom.
Qed.

End Thms.

(** ** Concrete runs *)

Module Demo.
Import Commands CommandsThms StoreThms.Demo PersistenceThms.Demo ConnectionThms.Demo.
#[local] Existing Instances demo_platform demo_compiler demo_limits demo_sink demo_laws epoll.

#[local] Program Instance demo_kernel : Kernel := {|
  new_fd X := Z.of_nat (fresh (set_map Z.to_nat X : gset nat));
  conn_order := map_to_list
|}.
Next Obligation.
  intros X Hin. apply (is_fresh (set_map Z.to_nat X : gset nat)). apply elem_of_map. eexists. split; [|exact Hin].
  by rw Nat2Z.id.
Qed.
Next Obligation. intros X. cbn. lia. Qed.
Next Obligation. done. Qed.

(** [EPOLLIN] on a descriptor *)
Definition readable_event (fd : Z) : @Event epoll := mkEpoll fd true false false.

Definition demo_cb (fd : Z) (m : nat) : option Connection * nat := (Some (new_connection fd), m).

Lemma event_loop_invariant_witness :
  match (add_listener 3 FcntlOk true ;;;
         run demo_cb [mkRound [ArrConn [AConn (mkSock [RData (bs "?")] [] []) FcntlOk; AIntr]] [readable_event 3] true])
        (new_loop 4 demo0 0%nat (λ _, 5)) with
  | Ret (b, l) => inv l ∧ b = true ∧ (false = false → refusals l = ∅)
  | Fail f => loop_fault f
  end.
Proof.
  apply (event_loop_invariant demo_cb 4 3 demo0 0%nat (λ _, 5)
    [mkRound [ArrConn [AConn (mkSock [RData (bs "?")] [] []) FcntlOk; AIntr]] [readable_event 3] true]).
  - intros fd m c. by intros [= <-].
  - apply new_store_ok.
Defined.

(** One client, on descriptor 5. *)
Definition client_on {W} (w : W) (c : Connection) (s : Sock) : Loop W nat :=
  mkLoop (mkMux ({[ (3, Read); (5, Read) ]} ∪ (if pending c then {[ (5, Write) ]} else ∅)) [] ∅) 4 3 true
    {[ 5 := c ]} {[ 5 := s ]} [] w 0%nat (λ _, 5) 0 [].

Lemma client_inv `{ops : StoreOps W, safe : !StoreSafe W} (w : W) c s :
  st_inv w → fd_ c = 5 → Buffer.wf (in_buf_ c) → Buffer.wf (out_buf_ c) → closed_ c = false → inv (client_on w c s).
Proof.
  intros Hw Hfd Hi Ho Hc. split; rw /interest /refusals; cbn [client_on connections_ socks mux regs refused listen_fd_ l_world].
  - by intros fd c' [<- <-]%lookup_singleton_Some.
  - by intros fd c' [<- <-]%lookup_singleton_Some.
  - intros fd. split; intros [? [<- _]%lookup_singleton_Some]; by rw lookup_singleton_eq.
  - intros fd [? [<- _]%lookup_singleton_Some] _ _. set_solver.
  - intros fd c' [<- <-]%lookup_singleton_Some _ _. destruct (pending c); set_solver.
  - intros fd f Hin. destruct (decide (fd = 3)); [by left|right]. assert (fd = 5) as -> by (destruct (pending c); set_solver).
    by rw lookup_singleton_eq.
  - done.
  - done.
  - set_solver.
Qed.

Lemma client_idle {W} (w : W) c : Buffer.readable (in_buf_ c) = [] → idle (client_on w c (mkSock [] [] [])).
Proof.
  intros Hc. split; cbn [client_on connections_ socks l_clock l_metrics].
  - by intros fd c' [<- <-]%lookup_singleton_Some.
  - by intros fd c' [<- <-]%lookup_singleton_Some.
  - intros i. cbn [max_latency demo_laws]. lia.
  - done.
Qed.

Lemma client_fits {W} (w : W) c s cmds :
  cmds ≠ [] → Forall (λ c, zlen c ≤ 100) cmds → zlen (stream cmds) + 4096 ≤ Buffer.MAX_CAP →
  fits (client_on w c s) (5, cmds).
Proof.
  intros Hne Hs Hcap. split_and!; [by rw /= lookup_singleton_eq|done| |done]. constructor; [by apply reservable_small|].
  eapply Forall_impl; [exact Hs|]. intros x Hx. apply reservable_small. cbn in Hx |- *. lia.
Qed.

Abbreviation client := (client_on demo0).

Definition fresh_client : Loop Store.World nat := client (new_connection 5) (mkSock [] [] []).

Lemma fresh_inv : inv fresh_client.
Proof. by apply client_inv; [apply new_store_ok| |apply fresh_wf..|]. Qed.

Lemma fresh_idle : idle fresh_client.
Proof. apply client_idle, Buffer.new_buffer_wf. Qed.

Lemma clients_apart_witness :
  ∃ l', foldM (λ _ a, perform demo_cb a) [DoRemove 5] tt fresh_client = Ret (tt, l') ∧
  inv l' ∧ ∀ fd', fd' ≠ 5 →
    connections_ l' !! fd' = connections_ fresh_client !! fd' ∧ socks l' !! fd' = socks fresh_client !! fd' ∧
    ∀ f, (fd', f) ∈ interest l' ↔ (fd', f) ∈ interest fresh_client.
Proof.
  destruct (wp_Ret _ _ _ (remove_inv None 5 fresh_client fresh_inv ltac:(by left))) as ([] & l' & Hrun & _).
  exists l'. assert (foldM (λ _ a, perform demo_cb a) [DoRemove 5] tt fresh_client = Ret (tt, l')) as Hf.
  { cbn [foldM perform]. by rw /bind Hrun. }
  split; [exact Hf|]. apply (clients_apart demo_cb 5 [DoRemove 5] fresh_client l' fresh_inv); [|exact Hf].
  constructor; [by right; right|constructor].
Defined.

Lemma demo_fits : fits fresh_client (5, demo_cmds).
Proof.
  split_and!; [by rw /= lookup_singleton_eq|done| |vm_compute; discriminate].
  repeat constructor; apply reservable_small; vm_compute; discriminate.
Qed.

Lemma demo_requests : run_requests [(5, demo_cmds)] (l_world fresh_client) = Ret ([(5, demo_run.1)], demo_run.2).
Proof.
  cbn [run_requests fst snd]. change (l_world fresh_client) with demo0. rw /bind demo_run_eq /ret. reflexivity.
Qed.

Lemma clients_serialized_witness :
  ∃ l', foldM (λ _ r, request r) [(5, demo_cmds)] tt fresh_client = Ret (tt, l') ∧ inv l' ∧ idle l' ∧
    l_world l' = demo_run.2 ∧
    ∀ fd c, connections_ fresh_client !! fd = Some c →
      ∃ c', connections_ l' !! fd = Some c' ∧
        Buffer.readable (out_buf_ c') = Buffer.readable (out_buf_ c) ++ replies_to fd [(5, demo_run.1)].
Proof.
  apply (clients_serialized [(5, demo_cmds)] [(5, demo_run.1)] demo_run.2 fresh_client fresh_inv fresh_idle).
  - constructor; [exact demo_fits|constructor].
  - exact demo_requests.
  - vm_compute. discriminate.
  - intros fd c Hc. change (({[ 5 := new_connection 5 ]} : gmap Z Connection) !! fd = Some c) in Hc.
    apply lookup_singleton_Some in Hc as [<- <-]. cbn [new_connection out_buf_]. rw (proj2 Buffer.new_buffer_wf).
    cbn [replies_to]. rw bool_decide_true; [reflexivity|]. rw demo_replies. vm_compute. discriminate.
Defined.

Lemma writable_event_delivers_witness :
  let l := client (new_connection 5) (mkSock [] [SAccept 3] []) in
  ∃ l', handle_writable 5 l = Ret (tt, l') ∧ inv l' ∧ l_world l' = demo0 ∧
    ((∃ c' s', connections_ l' !! 5 = Some c' ∧ socks l' !! 5 = Some s' ∧
        in_buf_ c' = Buffer.new_buffer Buffer.INITIAL_CAP ∧
        s_sent s' ++ Buffer.readable (out_buf_ c') = [] ++ Buffer.readable (Buffer.new_buffer Buffer.INITIAL_CAP) ∧
        (5 ∉ refusals l' → ((5, Write) ∈ interest l' ↔ Buffer.readable (out_buf_ c') ≠ [])) ∧
        (Buffer.readable (out_buf_ c') ≠ [] → s_outbox s' = [])) ∨
     (connections_ l' !! 5 = None ∧ ∃ s' rest pre, gone l' = [(5, s')] ∧
        s_sent s' ++ rest = [] ++ Buffer.readable (Buffer.new_buffer Buffer.INITIAL_CAP) ∧
        [SAccept 3] = pre ++ SError :: s_outbox s')).
Proof.
  apply (writable_event_delivers 5 (new_connection 5) (mkSock [] [SAccept 3] [])
    (client (new_connection 5) (mkSock [] [SAccept 3] []))).
  - by apply client_inv; [apply new_store_ok| |apply fresh_wf..|].
  - reflexivity.
  - reflexivity.
Defined.

(** The peer has hung up. *)
Definition hung_up : Loop Store.World nat := client (new_connection 5) (mkSock [REof] [] []).

Lemma hung_up_inv : inv hung_up.
Proof. by apply client_inv; [apply new_store_ok| |apply fresh_wf..|]. Qed.

Lemma closing_drops_replies_witness :
  ∃ l', handle_readable 5 hung_up = Ret (tt, l') ∧
    socks l' !! 5 = None ∧ ∃ s', gone l' = gone hung_up ++ [(5, s')] ∧ s_sent s' = [].
Proof.
  assert (∃ l', handle_readable 5 hung_up = Ret (tt, l') ∧ connections_ l' !! 5 = None) as (l' & Hrun & Hgone).
  { assert (match handle_readable 5 hung_up with Ret (_, l') => bool_decide (is_Some (connections_ l' !! 5)) | Fail _ => true end = false)
      as Hb by (vm_compute; reflexivity).
    destruct (handle_readable 5 hung_up) as [[[] l']|]; [|discriminate]. exists l'. split; [reflexivity|].
    apply eq_None_not_Some. by apply bool_decide_eq_false in Hb. }
  exists l'. split; [exact Hrun|].
  apply (closing_drops_replies 5 (new_connection 5) (mkSock [REof] [] []) hung_up l' hung_up_inv);
    [reflexivity|reflexivity|exact Hrun|exact Hgone].
Defined.

Lemma protocol_error_unanswered_witness :
  ∃ l' s', (modify (arrive (ArrIn 5 [RData (stream demo_cmds ++ bs "?")])) ;;; handle_readable 5) fresh_client = Ret (tt, l') ∧
    l_world l' = demo_run.2 ∧ connections_ l' !! 5 = None ∧ gone l' = gone fresh_client ++ [(5, s')] ∧ s_sent s' = [].
Proof.
  apply (protocol_error_unanswered 5 (new_connection 5) (mkSock [] [] []) demo_cmds (bs "?") parse_failure
    demo_run.1 demo_run.2 fresh_client fresh_inv fresh_idle).
  - reflexivity.
  - reflexivity.
  - discriminate.
  - reflexivity.
  - reflexivity.
  - repeat constructor; apply reservable_small; vm_compute; discriminate.
  - exact demo_run_eq.
  - rw demo_replies. vm_compute. discriminate.
  - cbn [new_connection out_buf_]. rw (proj2 Buffer.new_buffer_wf). vm_compute. discriminate.
  - vm_compute. discriminate.
Defined.

(** An outgoing buffer with no room left. *)
Lemma full_buffer : ∃ b, Buffer.wf b ∧ zlen (Buffer.readable b) = Buffer.MAX_CAP.
Proof.
  assert (∀ n, 0 ≤ n ≤ Buffer.MAX_CAP → ∃ b, Buffer.wf b ∧ zlen (Buffer.readable b) = n) as H.
  { intros n Hn. pose proof (Buffer.append_spec (replicate (Z.to_nat n) Byte.x30) _ fresh_wf) as Ha.
    rw (proj2 Buffer.new_buffer_wf) length_replicate Z2Nat.id in Ha; [lia|]. rw (proj2 (Z.leb_le _ _)) in Ha; [simpl; lia|].
    destruct Ha as (b & _ & Hwf & Hr); [rw /Buffer.MAX_CAP in Hn; lia|]. exists b. split; [done|].
    rw Hr length_app length_replicate. simpl. lia. }
  apply H. split; [by vm_compute|reflexivity].
Qed.

Lemma slow_reader_stops_loop_witness :
  ∃ b, run demo_cb [mkRound [ArrIn 5 [RData (stream demo_cmds)]] [readable_event 5] false]
    (client (mkConn 5 false (Buffer.new_buffer Buffer.INITIAL_CAP) b) (mkSock [] [] [])) =
  Fail (Throw (runtime_error Buffer.overflow_msg)).
Proof.
  destruct full_buffer as (b & Hwf & Hr). exists b. set (full := mkConn 5 false (Buffer.new_buffer Buffer.INITIAL_CAP) b).
  apply (slow_reader_stops_loop demo_cb 5 full (readable_event 5) demo_cmds demo_run.1 demo_run.2 false []
    (client full (mkSock [] [] []))).
  - apply client_inv; [apply new_store_ok|reflexivity|apply fresh_wf|exact Hwf|reflexivity].
  - apply client_idle, Buffer.new_buffer_wf.
  - reflexivity.
  - split_and!; [by rw /= lookup_singleton_eq|discriminate| |vm_compute; discriminate].
    repeat constructor; apply reservable_small; vm_compute; discriminate.
  - exact demo_run_eq.
  - rw demo_replies. vm_compute. discriminate.
  - cbn [full out_buf_]. rw Hr demo_replies.
    assert (0 < zlen (RespSerializer.simple (bs "PONG") ++ RespSerializer.ok)) by reflexivity. lia.
  - reflexivity.
Defined.
End Demo.

End EventLoopThms.
