(* ===== verification/Config.v ===== *)
(** The configuration: src/server/Config.{hpp,cpp} and the part of src/main.cpp
    that puts it together.

    A configuration file is [None] when it cannot be opened, else its bytes.
    [std::getline], [std::string::find], [std::stoi] and [std::stoull] are
    written out; warnings have no counterpart. *)

From S2P Require Import Prelude.

Module Config.

Record Config := mkConfig {
  host : bytes;
  port : Z;                 (* uint16_t *)
  backlog : Z;              (* int *)
  worker_threads : Z;       (* size_t *)
  max_keys : Z;             (* size_t *)
  rdb_enabled : bool;
  rdb_path : bytes;
  rdb_interval_secs : Z;    (* int *)
  aof_enabled : bool;
  aof_path : bytes;
  metrics_enabled : bool;
  metrics_port : Z;         (* uint16_t *)
  log_level : bytes;
  log_file : bytes;
  sweep_interval_ms : Z     (* int *)
}.

#[global] Instance Config_eq_dec : EqDecision Config.
Proof. solve_decision. Defined.

(** [Config cfg;] *)
Definition default_config : Config :=
  mkConfig (bs "0.0.0.0") 6399 1024 4 1000000 true (bs "dump.rdb") 300
    false (bs "appendonly.aof") true 9999 (bs "info") [] 1000.

(** ** The standard library's text functions *)

Fixpoint drop_while (f : Byte.byte → bool) (s : bytes) : bytes :=
  match s with
  | [] => []
  | b :: s' => if f b then drop_while f s' else s
  end.

(** [isspace] in the "C" locale *)
Definition isspace (b : Byte.byte) : bool :=
  (byte_val b =? 32) || ((9 <=? byte_val b) && (byte_val b <=? 13)).

(** What [strtol] and [strtoull] read in base 10: the sign and the digits
    behind any white space; text behind the digits is ignored. *)
Definition strto (s : bytes) : option (bool * Z) :=
  let s1 := drop_while isspace s in
  let '(neg, body) :=
    match s1 with
    | b :: r => if bool_decide (b = Byte.x2d) then (true, r)
                else if bool_decide (b = Byte.x2b) then (false, r) else (false, s1)
    | [] => (false, s1)
    end in
  match take_digits body with
  | [] => None
  | ds => Some (neg, digits_val ds)
  end.

Definition in_i32 (z : Z) : bool := (- 2 ^ 31 <=? z) && (z <=? 2 ^ 31 - 1).

(** [std::stoi] *)
Definition stoi (s : bytes) : outcome Z :=
  match strto s with
  | None => Fail (Throw invalid_argument)
  | Some (neg, n) =>
      let v := if (neg : bool) then - n else n in
      if in_i32 v then Ret v else Fail (Throw out_of_range)
  end.

(** [std::stoull]: a negative number wraps around. *)
Definition stoull (s : bytes) : outcome Z :=
  match strto s with
  | None => Fail (Throw invalid_argument)
  | Some (neg, n) =>
      if n <? 2 ^ 64 then Ret (if (neg : bool) then u64 (- n) else n)
      else Fail (Throw out_of_range)
  end.

(** [static_cast<uint16_t>] *)
Definition u16 (z : Z) : Z := z mod 2 ^ 16.

(** [s.find(c)] *)
Definition find_char (c : Byte.byte) (s : bytes) : option nat := fst <$> list_find (c =.) s.

(** The white space of [trim] *)
Definition is_blank (b : Byte.byte) : bool :=
  bool_decide (b ∈ ([Byte.x20; Byte.x09; CR; LF] : list Byte.byte)).

Definition find_first_not_of (s : bytes) : option nat :=
  fst <$> list_find (λ b, is_blank b = false) s.
Definition find_last_not_of (s : bytes) : option nat :=
  (λ p, (length s - 1 - p.1)%nat) <$> list_find (λ b, is_blank b = false) (reverse s).

(** [trim] *)
Definition trim (s : bytes) : bytes :=
  match find_first_not_of s, find_last_not_of s with
  | Some start, Some end_ => substr s start (end_ - start + 1)
  | _, _ => []
  end.

(** The lines [std::getline] returns: a text that ends in a newline has no
    empty line behind it. *)
Fixpoint getlines (cur s : bytes) : list bytes :=
  match s with
  | [] => match cur with [] => [] | _ => [reverse cur] end
  | b :: s' => if bool_decide (b = LF) then reverse cur :: getlines [] s'
               else getlines (b :: cur) s'
  end.

(** ** [Config::from_file] *)

(** One line: [None] is [continue], else the key and the value. *)
Definition parse_line (line : bytes) : option (bytes * bytes) :=
  let line := match find_char (Byte.x23) line with
              | Some hash => substr line 0 hash
              | None => line
              end in
  let line := trim line in
  match line with
  | [] => None
  | _ =>
      match find_char (Byte.x3d) line with
      | None => None
      | Some eq => Some (trim (substr line 0 eq), trim (drop (eq + 1) line))
      end
  end.

Definition is_true (val : bytes) : bool :=
  bool_decide (val = bs "true") || bool_decide (val = bs "1").

Definition set_host v (c : Config) := mkConfig v (port c) (backlog c) (worker_threads c) (max_keys c)
  (rdb_enabled c) (rdb_path c) (rdb_interval_secs c) (aof_enabled c) (aof_path c) (metrics_enabled c)
  (metrics_port c) (log_level c) (log_file c) (sweep_interval_ms c).
Definition set_port v (c : Config) := mkConfig (host c) v (backlog c) (worker_threads c) (max_keys c)
  (rdb_enabled c) (rdb_path c) (rdb_interval_secs c) (aof_enabled c) (aof_path c) (metrics_enabled c)
  (metrics_port c) (log_level c) (log_file c) (sweep_interval_ms c).
Definition set_backlog v (c : Config) := mkConfig (host c) (port c) v (worker_threads c) (max_keys c)
  (rdb_enabled c) (rdb_path c) (rdb_interval_secs c) (aof_enabled c) (aof_path c) (metrics_enabled c)
  (metrics_port c) (log_level c) (log_file c) (sweep_interval_ms c).
Definition set_workers v (c : Config) := mkConfig (host c) (port c) (backlog c) v (max_keys c)
  (rdb_enabled c) (rdb_path c) (rdb_interval_secs c) (aof_enabled c) (aof_path c) (metrics_enabled c)
  (metrics_port c) (log_level c) (log_file c) (sweep_interval_ms c).
Definition set_max_keys v (c : Config) := mkConfig (host c) (port c) (backlog c) (worker_threads c) v
  (rdb_enabled c) (rdb_path c) (rdb_interval_secs c) (aof_enabled c) (aof_path c) (metrics_enabled c)
  (metrics_port c) (log_level c) (log_file c) (sweep_interval_ms c).
Definition set_rdb_enabled v (c : Config) := mkConfig (host c) (port c) (backlog c) (worker_threads c)
  (max_keys c) v (rdb_path c) (rdb_interval_secs c) (aof_enabled c) (aof_path c) (metrics_enabled c)
  (metrics_port c) (log_level c) (log_file c) (sweep_interval_ms c).
Definition set_rdb_path v (c : Config) := mkConfig (host c) (port c) (backlog c) (worker_threads c)
  (max_keys c) (rdb_enabled c) v (rdb_interval_secs c) (aof_enabled c) (aof_path c) (metrics_enabled c)
  (metrics_port c) (log_level c) (log_file c) (sweep_interval_ms c).
Definition set_rdb_interval v (c : Config) := mkConfig (host c) (port c) (backlog c) (worker_threads c)
  (max_keys c) (rdb_enabled c) (rdb_path c) v (aof_enabled c) (aof_path c) (metrics_enabled c)
  (metrics_port c) (log_level c) (log_file c) (sweep_interval_ms c).
Definition set_aof_enabled v (c : Config) := mkConfig (host c) (port c) (backlog c) (worker_threads c)
  (max_keys c) (rdb_enabled c) (rdb_path c) (rdb_interval_secs c) v (aof_path c) (metrics_enabled c)
  (metrics_port c) (log_level c) (log_file c) (sweep_interval_ms c).
Definition set_aof_path v (c : Config) := mkConfig (host c) (port c) (backlog c) (worker_threads c)
  (max_keys c) (rdb_enabled c) (rdb_path c) (rdb_interval_secs c) (aof_enabled c) v (metrics_enabled c)
  (metrics_port c) (log_level c) (log_file c) (sweep_interval_ms c).
Definition set_metrics_enabled v (c : Config) := mkConfig (host c) (port c) (backlog c) (worker_threads c)
  (max_keys c) (rdb_enabled c) (rdb_path c) (rdb_interval_secs c) (aof_enabled c) (aof_path c) v
  (metrics_port c) (log_level c) (log_file c) (sweep_interval_ms c).
Definition set_metrics_port v (c : Config) := mkConfig (host c) (port c) (backlog c) (worker_threads c)
  (max_keys c) (rdb_enabled c) (rdb_path c) (rdb_interval_secs c) (aof_enabled c) (aof_path c)
  (metrics_enabled c) v (log_level c) (log_file c) (sweep_interval_ms c).
Definition set_log_level v (c : Config) := mkConfig (host c) (port c) (backlog c) (worker_threads c)
  (max_keys c) (rdb_enabled c) (rdb_path c) (rdb_interval_secs c) (aof_enabled c) (aof_path c)
  (metrics_enabled c) (metrics_port c) v (log_file c) (sweep_interval_ms c).
Definition set_log_file v (c : Config) := mkConfig (host c) (port c) (backlog c) (worker_threads c)
  (max_keys c) (rdb_enabled c) (rdb_path c) (rdb_interval_secs c) (aof_enabled c) (aof_path c)
  (metrics_enabled c) (metrics_port c) (log_level c) v (sweep_interval_ms c).
Definition set_sweep v (c : Config) := mkConfig (host c) (port c) (backlog c) (worker_threads c)
  (max_keys c) (rdb_enabled c) (rdb_path c) (rdb_interval_secs c) (aof_enabled c) (aof_path c)
  (metrics_enabled c) (metrics_port c) (log_level c) (log_file c) v.

(** The chain of comparisons of [Config::from_file]. *)
Definition assign (cfg : Config) (key val : bytes) : outcome Config :=
  let named k := bool_decide (key = bs k) in
  if named "host" then Ret (set_host val cfg)
  else if named "port" then let? n := stoi val in Ret (set_port (u16 n) cfg)
  else if named "backlog" then let? n := stoi val in Ret (set_backlog n cfg)
  else if named "worker_threads" then let? n := stoi val in Ret (set_workers (u64 n) cfg)
  else if named "max_keys" then let? n := stoull val in Ret (set_max_keys n cfg)
  else if named "rdb_enabled" then Ret (set_rdb_enabled (is_true val) cfg)
  else if named "rdb_path" then Ret (set_rdb_path val cfg)
  else if named "rdb_interval_secs" then let? n := stoi val in Ret (set_rdb_interval n cfg)
  else if named "aof_enabled" then Ret (set_aof_enabled (is_true val) cfg)
  else if named "aof_path" then Ret (set_aof_path val cfg)
  else if named "metrics_enabled" then Ret (set_metrics_enabled (is_true val) cfg)
  else if named "metrics_port" then let? n := stoi val in Ret (set_metrics_port (u16 n) cfg)
  else if named "log_level" then Ret (set_log_level val cfg)
  else if named "log_file" then Ret (set_log_file val cfg)
  else if named "sweep_interval_ms" then let? n := stoi val in Ret (set_sweep n cfg)
  else Ret cfg.

(** The body of the loop over the lines. *)
Definition apply_line (cfg : Config) (line : bytes) : outcome Config :=
  match parse_line line with
  | None => Ret cfg
  | Some (key, val) => assign cfg key val
  end.

(** [Config::from_file] *)
Definition from_file (file : option bytes) : outcome Config :=
  match file with
  | None => Ret default_config
  | Some text => foldO apply_line (getlines [] text) default_config
  end.

(** ** [Config::apply_args] *)

Definition assign_arg (cfg : Config) (key val : bytes) : outcome Config :=
  let named k := bool_decide (key = bs k) in
  if named "--port" then let? n := stoi val in Ret (set_port (u16 n) cfg)
  else if named "--host" then Ret (set_host val cfg)
  else if named "--workers" then let? n := stoi val in Ret (set_workers (u64 n) cfg)
  else if named "--log-level" then Ret (set_log_level val cfg)
  else if named "--max-keys" then let? n := stoull val in Ret (set_max_keys n cfg)
  else Ret cfg.

(** The loop from [argv[1]] on, two arguments at a time. *)
Fixpoint apply_args (args : list bytes) (cfg : Config) : outcome Config :=
  match args with
  | key :: val :: args' => let? cfg' := assign_arg cfg key val in apply_args args' cfg'
  | _ => Ret cfg
  end.

(** ** [main] *)

(** The path behind the first [--config], at any position. *)
Fixpoint config_path (args : list bytes) : bytes :=
  match args with
  | [] => []
  | a :: args' =>
      match args' with
      | [] => []
      | path :: _ => if bool_decide (a = bs "--config") then path else config_path args'
      end
  end.

(** The configuration [main] starts the server with; [file] are the files that
    can be opened. *)
Definition main_config (file : bytes → option bytes) (args : list bytes) : outcome Config :=
  let path := config_path args in
  let? cfg := match path with [] => Ret default_config | _ => from_file (file path) end in
  apply_args args cfg.

End Config.
