(* ===== verification/ConfigThms.v ===== *)
(** The configuration file reads back what it was meant to say, its errors are
    those of its numbers, and the command line overrides it field by field. *)

From S2P Require Import Prelude Config.

Module ConfigThms.
Import Config.

(** A closed decidable proposition, by evaluation. *)
Ltac dec := refine (bool_decide_unpack _ _); vm_compute; exact I.

(** ** Trimming *)

(** No blank at either end. *)
Definition tight (s : bytes) : Prop :=
  (∀ b r, s = b :: r → is_blank b = false) ∧ (∀ b r, s = r ++ [b] → is_blank b = false).

Lemma find_nonblank (pre s : bytes) b :
  Forall is_blank pre → is_blank b = false →
  list_find (λ b, is_blank b = false) (pre ++ b :: s) = Some (length pre, b).
Proof.
  intros Hpre Hb. apply list_find_Some. rw list_lookup_middle //. split_and!; [done..|].
  intros j y Hj Hlt. rw lookup_app_l // in Hj. apply (Forall_lookup_1 _ _ _ _ Hpre) in Hj.
  intros He. by rw He in Hj.
Qed.

Lemma find_nonblank_none (s : bytes) :
  Forall is_blank s → list_find (λ b, is_blank b = false) s = None.
Proof.
  intros H. apply list_find_None. eapply Forall_impl; [exact H|]. intros b Hb He. by rw He in Hb.
Qed.

(** [trim] removes the blanks around a text, and nothing else. *)
Lemma trim_spec l1 s l2 :
  Forall is_blank l1 → Forall is_blank l2 → tight s → trim (l1 ++ s ++ l2) = s.
Proof.
  intros H1 H2 [Hh Hl]. rw /trim /find_first_not_of /find_last_not_of.
  destruct s as [|b s].
  { rw find_nonblank_none //. by apply Forall_app. }
  rw -(app_comm_cons s l2 b) find_nonblank //; [by eapply Hh|].
  destruct (exists_last (l := b :: s) ltac:(done)) as (r & c & Hs). rw app_comm_cons Hs.
  rw !reverse_app reverse_singleton -!app_assoc. cbn [app].
  rw find_nonblank; [by apply Forall_reverse|by eapply Hl|]. cbn [fmap option_fmap option_map fst].
  rw length_reverse /substr drop_app_length.
  replace (length (l1 ++ r ++ c :: l2) - 1 - length l2 - length l1 + 1)%nat with (length (r ++ [c])) by len.
  change (r ++ c :: l2) with (r ++ [c] ++ l2). by rw app_assoc take_app_length.
Qed.

(** A text of characters that are not blank. *)
Lemma tight_forall s : Forall (λ b, is_blank b = false) s → tight s.
Proof.
  intros H. split; intros b r ->; [by inversion H|].
  apply Forall_app in H as [_ H]. by inversion H.
Qed.

Lemma tight_app_l a b s : tight (a :: s) → is_blank b = false → tight (a :: s ++ [b]).
Proof.
  intros [Hh _] Hb. split.
  - intros ?? [= <- _]. by eapply Hh.
  - intros b' r Heq. rw app_comm_cons in Heq. by apply app_inj_tail in Heq as [_ <-].
Qed.

Lemma tight_join k mid v : tight k → k ≠ [] → tight v → v ≠ [] → tight (k ++ mid ++ v).
Proof.
  intros [Hh _] Hk [_ Hl] Hv. destruct k as [|a k]; [done|]. split.
  - intros ?? [= <- _]. by eapply Hh.
  - intros b r Heq. destruct (exists_last Hv) as (v' & c & ->). rw !app_assoc in Heq.
    apply app_inj_tail in Heq as [_ <-]. by eapply Hl.
Qed.

(** ** Lines *)

Lemma find_char_app c s t : c ∉ s → find_char c (s ++ c :: t) = Some (length s).
Proof.
  intros Hc. rw /find_char. enough (list_find (c =.) (s ++ c :: t) = Some (length s, c)) as -> by done.
  apply list_find_Some. rw list_lookup_middle //. split_and!; [done..|].
  intros j y Hj Hlt ->. rw lookup_app_l // in Hj. by apply list_elem_of_lookup_2 in Hj.
Qed.

Lemma find_char_none c s : c ∉ s → find_char c s = None.
Proof.
  intros Hc. rw /find_char. enough (list_find (c =.) s = None) as -> by done.
  apply list_find_None, Forall_forall. by intros x Hx ->.
Qed.

(** A setting as the file writes it. *)
Definition setting (kv : bytes * bytes) : bytes := kv.1 ++ bs " = " ++ kv.2.

(** A key or a value that survives: no comment sign, no end of line, tight. *)
Definition text_ok (s : bytes) : Prop := Byte.x23 ∉ s ∧ LF ∉ s ∧ tight s.
Definition key_ok (k : bytes) : Prop := text_ok k ∧ Byte.x3d ∉ k ∧ k ≠ [].

Lemma parse_setting k v : key_ok k → text_ok v → parse_line (setting (k, v)) = Some (k, v).
Proof.
  intros ((Hk1 & _ & Hk2) & Hk3 & Hk4) (Hv1 & _ & Hv2). rw /parse_line /setting. cbn [fst snd].
  rw find_char_none; [rw !not_elem_of_app; split_and!; [done|dec|done]|].
  assert (∃ t, trim (k ++ bs " = " ++ v) = (k ++ bs " ") ++ Byte.x3d :: t ∧ trim t = v) as (t & -> & Ht).
  { destruct v as [|b v].
    - exists []. split; [|done]. destruct k as [|a k]; [done|].
      rw -{1}(app_nil_l (_ ++ _)). change (bs " = " ++ []) with (bs " =" ++ bs " "). rw (app_assoc (a :: k)).
      rw (trim_spec [] ((a :: k) ++ bs " =") (bs " ")); [done|by repeat constructor|by apply (tight_join _ (bs " ") (bs "=")); [..|apply tight_forall; repeat constructor|]|].
      by rw -app_assoc.
    - exists (Byte.x20 :: b :: v). split.
      + rw -{1}(app_nil_l (_ ++ _)) -(app_nil_r (_ ++ _)) -app_assoc.
        rw (trim_spec [] (k ++ bs " = " ++ b :: v) []); [done..|by apply tight_join|]. by rw -app_assoc.
      + rw -{1}(app_nil_r (b :: v)). apply (trim_spec [Byte.x20] (b :: v) []); [by repeat constructor|done|done]. }
  destruct k as [|a k]; [done|]. cbn [app]. rw !app_comm_cons find_char_app.
  { rw not_elem_of_app. split; [done|dec]. }
  rw /substr drop_0 take_app_length. f_equal. f_equal.
  - apply (trim_spec [] (a :: k) (bs " ")); [done|by repeat constructor|done].
  - rw -drop_drop. rw drop_app_length. done.
Qed.

Lemma getlines_line cur l rest :
  LF ∉ l → getlines cur (l ++ LF :: rest) = (reverse cur ++ l) :: getlines [] rest.
Proof.
  revert cur. induction l as [|b l IH]; intros cur Hl; cbn [app getlines].
  { by rw bool_decide_true // app_nil_r. }
  apply not_elem_of_cons in Hl as [Hb Hl]. rw bool_decide_false //.
  rw IH // reverse_cons -app_assoc. done.
Qed.

(** ** Numbers *)

Definition num_char (b : Byte.byte) : bool := is_digit b || bool_decide (b = Byte.x2d).

Lemma to_string_chars z : Forall num_char (to_string z).
Proof.
  assert (∀ n, 0 ≤ n → Forall num_char (dec_nat n)) as Hd.
  { intros n Hn. eapply Forall_impl; [by apply dec_nat_digits|]. intros b Hb. apply orb_prop_intro. by left. }
  rw /to_string. destruct (Z.ltb_spec z 0); [|by apply Hd]. constructor; [done|]. apply Hd. lia.
Qed.

Lemma num_char_plain b :
  num_char b → isspace b = false ∧ is_blank b = false ∧ b ≠ Byte.x23 ∧ b ≠ LF ∧ b ≠ Byte.x2b.
Proof. destruct b; try (by intros []); intros _; split_and!; done. Qed.

Lemma to_string_text_ok z : text_ok (to_string z).
Proof.
  pose proof (to_string_chars z) as H. rw Forall_forall in H. split_and!.
  - by intros (_ & _ & ? & _)%H%num_char_plain.
  - by intros (_ & _ & _ & ? & _)%H%num_char_plain.
  - apply tight_forall, Forall_forall. by intros b (_ & ? & _)%H%num_char_plain.
Qed.

Lemma strto_to_string z :
  - 2 ^ 63 ≤ z < 2 ^ 64 → strto (to_string z) = Some (z <? 0, Z.abs z).
Proof.
  intros Hz. pose proof (to_string_chars z) as Hc. rw /strto.
  assert (drop_while isspace (to_string z) = to_string z) as ->.
  { destruct (to_string z) as [|b s]; [done|]. simpl. inversion Hc as [|?? Hb].
    by destruct (num_char_plain _ Hb) as (-> & _). }
  revert Hc. rw /to_string. destruct (Z.ltb_spec z 0) as [Hneg|Hpos]; intros Hc.
  - rw bool_decide_true //. rw -(app_nil_r (dec_nat (- z))) take_digits_app /=; [apply dec_nat_digits; lia|].
    rw app_nil_r. pose proof (dec_nat_val (- z) ltac:(lia)) as Hval.
    destruct (dec_nat (- z)) eqn:Hd; [by apply dec_aux_nonempty in Hd|]. rw Hval. f_equal. f_equal. lia.
  - pose proof (dec_nat_digits z Hpos) as Hds. pose proof (dec_nat_val z ltac:(lia)) as Hval.
    destruct (dec_nat z) as [|d ds] eqn:Hd; [by apply dec_aux_nonempty in Hd|].
    assert (d ≠ Byte.x2d) as Hd' by (apply digit_not_minus; inversion Hds; by destruct (is_digit d)).
    rw bool_decide_false //. inversion Hc as [|?? Hb]. destruct (num_char_plain _ Hb) as (_ & _ & _ & _ & Hp).
    rw bool_decide_false //. rw -(app_nil_r (d :: ds)) take_digits_app // app_nil_r Hval. f_equal. f_equal. lia.
Qed.

Lemma stoi_to_string z : in_i32 z → stoi (to_string z) = Ret z.
Proof.
  intros Hz. assert (- 2 ^ 31 ≤ z ≤ 2 ^ 31 - 1) as Hr.
  { apply Is_true_true in Hz. rw /in_i32 andb_true_iff !Z.leb_le in Hz. lia. }
  rw /stoi strto_to_string; [lia|]. replace (if z <? 0 then - Z.abs z else Z.abs z) with z.
  - by destruct (in_i32 z).
  - destruct (Z.ltb_spec z 0); lia.
Qed.

Lemma stoull_to_string z : 0 ≤ z < 2 ^ 64 → stoull (to_string z) = Ret z.
Proof.
  intros Hz. rw /stoull strto_to_string; [lia|]. rw Z.abs_eq; [lia|].
  rw (proj2 (Z.ltb_lt _ _)); [lia|]. rw (proj2 (Z.ltb_ge _ _)) //. lia.
Qed.

(** ** Writing a configuration *)

Definition bool_text (b : bool) : bytes := if b then bs "true" else bs "false".

Definition settings (c : Config) : list (bytes * bytes) :=
  [(bs "host", host c); (bs "port", to_string (port c)); (bs "backlog", to_string (backlog c));
   (bs "worker_threads", to_string (worker_threads c)); (bs "max_keys", to_string (max_keys c));
   (bs "rdb_enabled", bool_text (rdb_enabled c)); (bs "rdb_path", rdb_path c);
   (bs "rdb_interval_secs", to_string (rdb_interval_secs c));
   (bs "aof_enabled", bool_text (aof_enabled c)); (bs "aof_path", aof_path c);
   (bs "metrics_enabled", bool_text (metrics_enabled c)); (bs "metrics_port", to_string (metrics_port c));
   (bs "log_level", log_level c); (bs "log_file", log_file c);
   (bs "sweep_interval_ms", to_string (sweep_interval_ms c))].

(** The file that says it. *)
Definition ini (c : Config) : bytes := concat ((λ kv, setting kv ++ [LF]) <$> settings c).

(** A configuration a file can hold: its texts survive a line and its numbers
    are those their conversions return. *)
Record writable (c : Config) : Prop := {
  w_host : text_ok (host c);
  w_rdb : text_ok (rdb_path c);
  w_aof : text_ok (aof_path c);
  w_level : text_ok (log_level c);
  w_log : text_ok (log_file c);
  w_port : 0 ≤ port c < 2 ^ 16;
  w_mport : 0 ≤ metrics_port c < 2 ^ 16;
  w_backlog : in_i32 (backlog c);
  w_interval : in_i32 (rdb_interval_secs c);
  w_sweep : in_i32 (sweep_interval_ms c);
  w_workers : 0 ≤ worker_threads c < 2 ^ 31;
  w_keys : 0 ≤ max_keys c < 2 ^ 64
}.

Lemma i32_range z : - 2 ^ 31 ≤ z < 2 ^ 31 → in_i32 z.
Proof. intros. rw /in_i32 (proj2 (Z.leb_le _ _)) ?(proj2 (Z.leb_le _ _)) //; lia. Qed.

Lemma bool_text_ok b : text_ok (bool_text b).
Proof. split_and!; [destruct b; dec..|]. apply tight_forall. destruct b; by repeat constructor. Qed.

Lemma is_true_text b : is_true (bool_text b) = b.
Proof. by destruct b. Qed.

Lemma settings_ok c : writable c → Forall (λ kv, key_ok kv.1 ∧ text_ok kv.2) (settings c).
Proof.
  assert (∀ k, bool_decide (Byte.x23 ∉ k ∧ LF ∉ k ∧ Byte.x3d ∉ k ∧ k ≠ [] ∧ Forall (λ b, is_blank b = false) k) →
    key_ok k) as Hkey.
  { intros k (? & ? & ? & ? & ?)%bool_decide_unpack. rw /key_ok /text_ok. split_and!; try done. by apply tight_forall. }
  intros []. rw /settings. repeat (apply Forall_cons; split; [split; [apply Hkey; vm_compute; exact I|cbn [snd]]|]);
    [..|apply Forall_nil; exact I]; first [assumption|apply to_string_text_ok|apply bool_text_ok].
Qed.
Lemma getlines_settings kvs :
  Forall (λ kv, key_ok kv.1 ∧ text_ok kv.2) kvs →
  getlines [] (concat ((λ kv, setting kv ++ [LF]) <$> kvs)) = setting <$> kvs.
Proof.
  induction 1 as [|[k v] kvs [((_ & Hk & _) & _) (_ & Hv & _)] _ IH]; [done|].
  rw fmap_cons. cbn [concat]. rw -app_assoc. cbn [app]. rw getlines_line.
  - rw /setting !not_elem_of_app. split_and!; [done|dec|done].
  - by rw IH.
Qed.

Lemma foldO_settings kvs c :
  Forall (λ kv, key_ok kv.1 ∧ text_ok kv.2) kvs →
  foldO apply_line (setting <$> kvs) c = foldO (λ c kv, assign c kv.1 kv.2) kvs c.
Proof.
  intros H. revert c. induction H as [|[k v] kvs [Hk Hv] _ IH]; intros c; [done|].
  rw fmap_cons. cbn [foldO]. rw {1}/apply_line parse_setting //. cbn [fst snd].
  by destruct (assign c k v); simpl.
Qed.

Lemma foldO_step {A B} (f : B → A → outcome B) x l acc acc' :
  f acc x = Ret acc' → foldO f (x :: l) acc = foldO f l acc'.
Proof. intros H. cbn [foldO]. by rw H. Qed.

(** What each kind of setting does. *)
Lemma assign_number (val : Z) (set : Z → Config) (read : bytes → outcome Z) :
  read (to_string val) = Ret val → (let? n := read (to_string val) in Ret (set n)) = Ret (set val).
Proof. by intros ->. Qed.

Lemma assign_settings c c0 :
  writable c → foldO (λ c kv, assign c kv.1 kv.2) (settings c) c0 = Ret c.
Proof.
  intros []. rw /settings.
  repeat (erewrite foldO_step;
    [|cbn [fst snd]; first [reflexivity | apply assign_number; first [apply stoi_to_string|apply stoull_to_string]];
      first [assumption|apply i32_range; lia]]).
  cbn [foldO]. rw !is_true_text /u16 /u64. cbn. rw !Z.mod_small; try lia. by destruct c.
Qed.

(** A line end more or less changes nothing. *)
Lemma foldO_getlines_app cur s t c :
  foldO apply_line (getlines cur (s ++ LF :: t)) c =
    obind (foldO apply_line (getlines cur s) c) (foldO apply_line (getlines [] t)).
Proof.
  revert cur c. induction s as [|b s IH]; intros cur c; cbn [app getlines].
  - rw bool_decide_true //. destruct cur as [|b cur]; [done|]. cbn [foldO].
    by destruct (apply_line c _).
  - case_bool_decide; [|apply IH]. cbn [foldO]. destruct (apply_line c _); [apply IH|done].
Qed.

(** C35: a configuration file says what it was written to say.  For every
    configuration whose texts fit on a line (no comment sign, no end of line, no
    blank at either end) and whose numbers fit the conversions, the file that
    lists its fifteen settings reads back as that configuration, whatever readable
    text stands before it: later lines win, and no setting is out of a file's
    reach. *)
Theorem config_round_trip pre c0 c :
  from_file (Some pre) = Ret c0 → writable c →
  from_file (Some (ini c)) = Ret c ∧ from_file (Some (pre ++ LF :: ini c)) = Ret c.
Proof.
  intros Hpre Hw. pose proof (settings_ok c Hw) as Hs. rw /from_file in Hpre |- *.
  rw foldO_getlines_app Hpre /ini getlines_settings //. cbn [obind].
  by rw !foldO_settings // !assign_settings.
Qed.

(** The settings whose values are numbers. *)
Definition numeric_keys : list bytes :=
  [bs "port"; bs "backlog"; bs "worker_threads"; bs "max_keys"; bs "rdb_interval_secs";
   bs "metrics_port"; bs "sweep_interval_ms"].

Lemma number_fault read val f :
  (read = stoi ∨ read = stoull) → read val = Fail f →
  f = Throw invalid_argument ∨ f = Throw out_of_range.
Proof.
  intros [-> | ->]; rw /stoi /stoull; destruct (strto val) as [[neg n]|].
  - destruct (in_i32 _); [done|]. intros [= <-]. by right.
  - intros [= <-]. by left.
  - destruct (n <? 2 ^ 64); [done|]. intros [= <-]. by right.
  - intros [= <-]. by left.
Qed.

Lemma assign_fault c key val f :
  assign c key val = Fail f →
  key ∈ numeric_keys ∧ (stoi val = Fail f ∨ stoull val = Fail f).
Proof.
  rw /assign. intros H.
  repeat (case_bool_decide; [subst key; try discriminate H; (split; [dec|])|]); try discriminate H;
    match type of H with
    | obind (stoi _) _ = _ => left; destruct (stoi val); [done|by injection H as <-]
    | obind (stoull _) _ = _ => right; destruct (stoull val); [done|by injection H as <-]
    end.
Qed.

Lemma list_pair_ind {A} (P : list A → Prop) :
  P [] → (∀ x, P [x]) → (∀ x y l, P (y :: l) → P l → P (x :: y :: l)) → ∀ l, P l.
Proof.
  intros H0 H1 H2 l. enough (P l ∧ ∀ x, P (x :: l)) by tauto.
  induction l as [|y l [IH1 IH2]]; auto.
Qed.

Lemma from_file_fault text f :
  from_file (Some text) = Fail f →
  (f = Throw invalid_argument ∨ f = Throw out_of_range) ∧
  ∃ line key val, line ∈ getlines [] text ∧ parse_line line = Some (key, val) ∧
    key ∈ numeric_keys ∧ (stoi val = Fail f ∨ stoull val = Fail f).
Proof.
  rw /from_file. generalize default_config. induction (getlines [] text) as [|line ls IH]; [done|].
  intros c. cbn [foldO]. destruct (apply_line c line) as [c'|f'] eqn:Ha; cbn [obind].
  - intros (? & l & k & v & ? & ?)%IH. split; [done|]. exists l, k, v. split; [by right|done].
  - intros [= <-]. rw /apply_line in Ha. destruct (parse_line line) as [[k v]|] eqn:Hp; [|done].
    destruct (assign_fault _ _ _ _ Ha) as [Hk Hs]. split.
    + by destruct Hs as [Hs|Hs]; eapply number_fault; try exact Hs; [left|right].
    + exists line, k, v. split; [by left|done].
Qed.

(** A configuration file can fail only in its numbers.  Reading any file
    ends; if it throws, the exception is [invalid_argument] or
    [out_of_range], and some line of the file gives a numeric setting a text
    that its conversion refuses with this exception. *)
Theorem config_errors text f :
  from_file (Some text) = Fail f →
  (f = Throw invalid_argument ∨ f = Throw out_of_range) ∧
  ∃ line key val, line ∈ getlines [] text ∧ parse_line line = Some (key, val) ∧
    key ∈ numeric_keys ∧ (stoi val = Fail f ∨ stoull val = Fail f).
Proof. apply from_file_fault. Qed.

Lemma apply_args_fault args cfg f :
  apply_args args cfg = Fail f → f = Throw invalid_argument ∨ f = Throw out_of_range.
Proof.
  revert cfg. induction args as [|k|k v args _ IH] using list_pair_ind; intros cfg; [done..|]. cbn [apply_args].
  destruct (assign_arg cfg k v) as [c|e] eqn:Ha; cbn [obind]; [by apply IH|]. intros [= <-].
  rw /assign_arg in Ha. repeat case_bool_decide; try done; rw /obind in Ha;
    match type of Ha with
    | context [stoi] => eapply (number_fault stoi v); [by left|]; destruct (stoi v); [done|congruence]
    | context [stoull] => eapply (number_fault stoull v); [by right|]; destruct (stoull v); [done|congruence]
    end.
Qed.

Lemma main_config_fault file args f :
  main_config file args = Fail f → f = Throw invalid_argument ∨ f = Throw out_of_range.
Proof.
  rw /main_config. destruct (config_path args) as [|b p]; cbn [obind]; [apply apply_args_fault|].
  destruct (from_file _) as [c|e] eqn:Hf; cbn [obind]; [apply apply_args_fault|]. intros [= <-].
  destruct (file _); [|done]. by apply from_file_fault in Hf as [? _].
Qed.

(** The value of the last [key] among arguments taken in pairs. *)
Fixpoint last_of (key : bytes) (args : list bytes) : option bytes :=
  match args with
  | k :: v :: args' =>
      match last_of key args' with
      | Some w => Some w
      | None => if bool_decide (k = key) then Some v else None
      end
  | _ => None
  end.

(** A number given on the command line, or the value the file had. *)
Definition number_from (read : bytes → outcome Z) (cut : Z → Z) (arg : option bytes) (old new : Z) : Prop :=
  match arg with
  | None => new = old
  | Some v => ∃ n, read v = Ret n ∧ new = cut n
  end.

(** The command line overrides the file, flag by flag.  If the arguments
    are accepted, each of the five settings they can name has the value of its
    last flag, or the value it had before if no flag names it, and no other
    setting changes. *)
Theorem args_override args c c' :
  apply_args args c = Ret c' →
  host c' = default (host c) (last_of (bs "--host") args) ∧
  log_level c' = default (log_level c) (last_of (bs "--log-level") args) ∧
  number_from stoi u16 (last_of (bs "--port") args) (port c) (port c') ∧
  number_from stoi u64 (last_of (bs "--workers") args) (worker_threads c) (worker_threads c') ∧
  number_from stoull id (last_of (bs "--max-keys") args) (max_keys c) (max_keys c') ∧
  c' = set_host (host c') (set_log_level (log_level c') (set_port (port c')
         (set_workers (worker_threads c') (set_max_keys (max_keys c') c)))).
Proof.
  revert c. induction args as [args IH] using (well_founded_ind (well_founded_ltof _ length)). intros c.
  destruct args as [|k [|v args]]; [intros [= <-]; by destruct c..|]. cbn [apply_args last_of].
  destruct (assign_arg c k v) as [c1|] eqn:Ha; [|done]. cbn [obind]. intros H.
  specialize (IH args ltac:(rw /ltof /=; lia) c1 H) as (-> & -> & Hp & Hw & Hm & Hrest).
  rw /assign_arg in Ha. repeat case_bool_decide; subst; try done; rw /number_from in Hp Hw Hm |- *;
    repeat match goal with
    | H : obind (stoi v) _ = Ret _ |- _ => destruct (stoi v) eqn:?; [|done]
    | H : obind (stoull v) _ = Ret _ |- _ => destruct (stoull v) eqn:?; [|done]
    end; injection Ha as <-; cbn in *;
    repeat match goal with |- context [last_of ?k args] => destruct (last_of k args) eqn:? end; cbn in *;
    split_and!; eauto; by rw Hrest.
Qed.

(** ** Concrete files and arguments *)

Module Demo.

Definition demo_config : Config :=
  set_port 7000 (set_log_level (bs "debug") (set_host (bs "127.0.0.1") default_config)).

Lemma text_dec s :
  bool_decide (Byte.x23 ∉ s ∧ LF ∉ s ∧ Forall (λ b, is_blank b = false) s) → text_ok s.
Proof. intros (? & ? & ?)%bool_decide_unpack. split_and!; [done..|]. by apply tight_forall. Qed.

Lemma demo_writable : writable demo_config.
Proof. split; first [apply text_dec; vm_compute; exact I|vm_compute; split; congruence|vm_compute; exact I]. Qed.

Lemma config_round_trip_witness :
  from_file (Some (ini demo_config)) = Ret demo_config ∧
  from_file (Some (bs "port = 1 # one" ++ LF :: ini demo_config)) = Ret demo_config.
Proof. apply (config_round_trip (bs "port = 1 # one") (set_port 1 default_config)); [reflexivity|exact demo_writable]. Defined.

Lemma config_errors_witness :
  (Throw invalid_argument = Throw invalid_argument ∨ Throw invalid_argument = Throw out_of_range) ∧
  ∃ line key val, line ∈ getlines [] (bs "port = none") ∧ parse_line line = Some (key, val) ∧
    key ∈ numeric_keys ∧
    (stoi val = Fail (Throw invalid_argument) ∨ stoull val = Fail (Throw invalid_argument)).
Proof. apply (config_errors (bs "port = none") (Throw invalid_argument)). reflexivity. Defined.

Definition demo_args : list bytes := [bs "--port"; bs "1"; bs "--host"; bs "h"; bs "--port"; bs "70000"].
Definition demo_args_config : Config := set_port 4464 (set_host (bs "h") default_config).

Lemma args_override_witness :
  host demo_args_config = bs "h" ∧
  log_level demo_args_config = bs "info" ∧
  number_from stoi u16 (Some (bs "70000")) 6399 4464 ∧
  number_from stoi u64 None 4 4 ∧
  number_from stoull id None 1000000 1000000 ∧
  demo_args_config = set_host (bs "h") (set_log_level (bs "info") (set_port 4464
    (set_workers 4 (set_max_keys 1000000 default_config)))).
Proof. apply (args_override demo_args default_config demo_args_config). reflexivity. Defined.
End Demo.

End ConfigThms.
