(* ===== verification/Maintenance.v ===== *)
(** The maintenance thread of the server beside the thread that executes the
    commands: [Server::maintenance_loop] of src/server/Server.cpp.

    Both threads work on the store; between any two locked sections of a command
    the scheduler may run any number of sections of the maintenance thread.  A
    store with that thread beside it is one more implementation of the interface
    the handlers use ([shared_ops]), so the network layer runs on it unchanged.
    While the thread runs, nobody else uses the disk or sets the gauge of keys. *)

From S2P Require Import Prelude Lru Storage StorageThms Conc StoreConc Resp Commands Persistence Config.
#[local] Open Scope Z_scope.

Module Maintenance.
Import Conc StoreConc Config.

(** What the sections of the thread work on. *)
Record Site := mkSite {
  site_world : Store.World;
  site_disk : Disk;
  site_key_count : Z           (* [key_count_] of the metrics *)
}.

Definition set_site_world (w : Store.World) (s : Site) : Site := mkSite w (site_disk s) (site_key_count s).
Definition set_site_disk (d : Disk) (s : Site) : Site := mkSite (site_world s) d (site_key_count s).

(** A section of an operation on the store. *)
Definition at_store {A} (m : M Store.World A) : M Site A := λ s,
  match m (site_world s) with
  | Ret (a, w) => Ret (a, set_site_world w s)
  | Fail f => Fail f
  end.

Section Ops.
Context {plat : Store.Platform} {io : Io}.

(** [rdb_.save(store_)], with the sections of [for_each] *)
Definition save_prog (path : bytes) : Prog Site bool :=
  PSec (gets site_disk) (λ d,
  if negb (can_open d (Rdb.tmp_path path)) then PRet false else
  pbind (pzoom (@at_store) (for_each_prog (λ f key val exp, f ++ Rdb.entry_record key val exp)
                              (Rdb.MAGIC ++ [Rdb.VERSION]))) (λ content,
  section (λ s, let '(ok, d) := Rdb.commit path content (site_disk s) in Ret (ok, set_site_disk d s)))).

(** One iteration of the loop, behind its sleep, with the value [last_rdb_save]
    has before and after it. *)
Definition iteration (cfg : Config) (last_rdb_save : Z) : Prog Site Z :=
  pbind (pzoom (@at_store) sweep_prog) (λ _,
  pbind (pzoom (@at_store) size_prog) (λ n,
  PSec (modify (λ s, mkSite (site_world s) (site_disk s) (i64 n))) (λ _,
  PSec (at_store Store.now_ms) (λ now,
  if rdb_enabled cfg then
    PSec (lift (checked (now - last_rdb_save))) (λ age,
    if rdb_interval_secs cfg * 1000 <=? age
    then pbind (save_prog (rdb_path cfg)) (λ _, PRet now)
    else PRet last_rdb_save)
  else PRet last_rdb_save)))).

(** What the threads share: the site, [running_], where the maintenance thread
    is ([None]: not started, or joined), and the decisions of the scheduler:
    how many of its sections run before the next section of the other thread. *)
Record Shared := mkShared {
  sh_cfg : Config;
  sh_site : Site;
  sh_running_ : bool;
  sh_thread : option (Prog Site Z);
  sh_script : list nat
}.

Definition set_site (x : Site) (sh : Shared) : Shared :=
  mkShared (sh_cfg sh) x (sh_running_ sh) (sh_thread sh) (sh_script sh).
Definition set_thread (running : bool) (t : option (Prog Site Z)) (sh : Shared) : Shared :=
  mkShared (sh_cfg sh) (sh_site sh) running t (sh_script sh).

Definition at_site {A} (m : M Site A) : M Shared A := λ sh,
  match m (sh_site sh) with
  | Ret (a, x) => Ret (a, set_site x sh)
  | Fail f => Fail f
  end.

(** [std::thread([this] { maintenance_loop(); })]: the clock is read first. *)
Definition launch : M Shared unit :=
  modify (set_thread true (Some (section (at_store Store.now_ms)))).

(** One step of the thread: the test of [running_], or a section; it sleeps
    between the test and the first section. *)
Definition thread_step : M Shared unit := λ sh,
  match sh_thread sh with
  | None => Ret (tt, sh)
  | Some (PRet last) =>
      Ret (tt, if sh_running_ sh then set_thread true (Some (iteration (sh_cfg sh) last)) sh else sh)
  | Some (PSec m k) =>
      match m (sh_site sh) with
      | Ret (x, site) => Ret (tt, set_site site (set_thread (sh_running_ sh) (Some (k x)) sh))
      | Fail f => Fail f
      end
  end.

Fixpoint steps (n : nat) : M Shared unit :=
  match n with
  | O => ret tt
  | S n' => thread_step ;;; steps n'
  end.

(** The scheduler gives the maintenance thread its turn. *)
Definition interfere : M Shared unit := λ sh,
  match sh_script sh with
  | [] => Ret (tt, sh)
  | n :: rest => steps n (mkShared (sh_cfg sh) (sh_site sh) (sh_running_ sh) (sh_thread sh) rest)
  end.

(** An operation of the other thread. *)
Fixpoint beside {A} (p : Prog Store.World A) : M Shared A :=
  match p with
  | PRet a => ret a
  | PSec m k =>
      interfere ;;;
      let! x := at_site (at_store m) in
      beside (k x)
  end.

(** The store as the handlers see it while the maintenance thread runs. *)
#[export] Instance shared_ops : Commands.StoreOps Shared := {|
  Commands.st_set k v t := beside (set_prog k v t);
  Commands.st_get k := beside (get_prog k);
  Commands.st_del k := beside (section (Store.del k));
  Commands.st_exists k := beside (section (Store.exists_ k));
  Commands.st_ttl k := beside (section (Store.ttl k));
  Commands.st_expire k t := beside (section (Store.expire k t));
  Commands.st_incr k := beside (section (Store.incr k));
  Commands.st_keys p := beside (keys_prog p);
  Commands.st_flush := beside flush_prog;
  Commands.st_size := beside size_prog
|}.

(** [running_ = false; maintenance_thread_.join()]: the thread completes the
    iteration it is in. *)
Definition join : M Shared unit := λ sh,
  match sh_thread sh with
  | None => Ret (tt, set_thread false None sh)
  | Some p =>
      match alone p (sh_site sh) with
      | Ret (_, site) => Ret (tt, set_site site (set_thread false None sh))
      | Fail f => Fail f
      end
  end.

End Ops.
End Maintenance.
