(* ===== verification/MaintenanceThms.v ===== *)
(** The store with the maintenance thread beside it is safe: it keeps the promise
    [StoreSafe] that the network layer is proved against, and the thread touches
    no file but the snapshot and the temporary one and adds no entry.  An
    iteration alone is a sweep, a count and a snapshot. *)

From S2P Require Import Prelude Lru Storage StorageInv StorageSpec StorageThms Conc StoreConc StoreConcThms StoreRely Resp RespThms Commands CommandsThms Persistence PersistenceThms Config Maintenance.
#[local] Open Scope Z_scope.

Module MaintenanceThms.
Import Store StoreInv StoreSpec Conc StoreConc StoreConcThms StoreRely CommandsThms PersistenceThms Config Maintenance.

Section Thms.
Context {plat : Store.Platform} {io : Io}.

(** ** Each program of the store keeps it well-formed *)

Section Sound.
(** What the steps of a program do to the store; reading it is always allowed. *)
Context (G : World → World → Prop).
Context (G_same : ∀ w w', store w' = store w → store_ok (store w) → G w w').

Abbreviation sound := (keeps overflow_only (λ w, store_ok (store w)) G).

Lemma read_sound {A} i (Q : A → Prop) (k : Shard → Prog World A) :
  (i < SHARD_COUNT)%nat → (∀ sh, sound Q (k sh)) → sound Q (PSec (read_shard i) k).
Proof.
  intros Hi Hk w Hw. destruct (shard_some i w Hi Hw) as (sh & Hsh & _). rw /wp /read_shard Hsh. auto.
Qed.

Lemma shards_sound {B} (g : B → nat → Shard → B) (Q : B → Prop) acc :
  Q acc → (∀ b i sh, Q b → (i < SHARD_COUNT)%nat → Q (g b i sh)) →
  sound Q (pfold (λ acc i, PSec (read_shard i) (λ sh, PRet (g acc i sh))) (seq 0 SHARD_COUNT) acc).
Proof.
  intros H0 Hg. apply keeps_fold; [done|]. intros b i Hb Hi%seq_lt. apply read_sound; [done|]. intros sh. by apply Hg.
Qed.

(** A section on one shard. *)
Definition steps_by (f : Shard → outcome Shard) (i : nat) : Prop :=
  ∀ w sh, store_ok (store w) → shards_ (store w) !! i = Some sh → shard_ok i sh →
    ∃ sh', f sh = Ret sh' ∧ shard_ok i sh' ∧ G w (put_shard i sh' w).

Lemma on_shard_sound i (f : Shard → outcome Shard) :
  (i < SHARD_COUNT)%nat → steps_by f i → sound (λ _, True) (section (on_shard i f)).
Proof.
  intros Hi Hf. apply keeps_section. intros w Hw. eapply wp_mono; [apply (on_shard_run i f w (G w)); [done..|]|].
  - intros sh Hsh Hok. by apply Hf.
  - by intros _ w' (? & _ & _ & ?).
Qed.

Lemma all_shards_sound (f : Shard → outcome Shard) : (∀ i, steps_by f i) → sound (λ _, True) (shards_prog f).
Proof. intros Hf. apply keeps_fold; [done|]. intros _ i _ Hi%seq_lt. by apply on_shard_sound. Qed.

Lemma now_sound {A} (k : Z → Prog World A) (Q : A → Prop) : (∀ t, sound Q (k t)) → sound Q (PSec now_ms k).
Proof. intros Hk w Hw. split_and!; [done|by apply G_same|apply Hk]. Qed.

Lemma size_sound : sound (λ _, True) size_prog.
Proof. by apply (shards_sound (λ total _ sh, total + Z.of_nat (base.size (map sh)))). Qed.

Lemma keys_sound p : sound (λ _, True) (keys_prog p).
Proof.
  apply now_sound. intros t. by apply (shards_sound (λ result _ sh, foldl (λ result kv,
    if key_selected p t kv then result ++ [kv.1] else result) result (bucket_order (map sh)))).
Qed.

Lemma for_each_sound {B} (cb : B → bytes → bytes → Z → B) acc : sound (λ _, True) (for_each_prog cb acc).
Proof.
  apply now_sound. intros t. by apply (shards_sound (λ acc _ sh, foldl (λ acc kv, if is_expired kv.2 t then acc
    else cb acc kv.1 (value kv.2) (expires_at_ms kv.2)) acc (bucket_order (map sh)))).
Qed.
End Sound.

(** A program that may do anything to a well-formed store. *)
Abbreviation anything := (λ _ _ : World, True).
Abbreviation sound := (keeps overflow_only (λ w, store_ok (store w)) anything).

Lemma section_sound {A} (m : M World A) (Q : A → Prop) :
  (∀ w, store_ok (store w) → wp overflow_only m (λ a w', store_ok (store w') ∧ Q a) w) → sound Q (section m).
Proof. intros H. apply keeps_section. intros w Hw. eapply wp_mono; [by apply H|]. by intros a w' []. Qed.

Lemma sim_sound {A} (m : M World A) m' : (∀ w, store_ok (store w) → sim w m m') → sound (λ _, True) (section m).
Proof. intros H. apply section_sound. intros w Hw. eapply wp_mono; [by eapply sim_safe, H|done]. Qed.

Lemma flush_sound : sound (λ _, True) flush_prog.
Proof.
  apply all_shards_sound. intros i w sh _ _ Hok. destruct (flush_locked_ok _ _ Hok) as (sh' & ? & ? & _). by exists sh'.
Qed.

Lemma evict_sound : sound (λ _, True) maybe_evict_prog.
Proof.
  apply (keeps_bind _ _ _ (λ _, True)); [by apply size_sound|]. intros approx _ w Hw. apply wp_gets. split_and!; [done..|].
  destruct (_ <? _); [done|]. apply (keeps_bind _ _ _ (λ r : nat * nat, (r.2 < SHARD_COUNT)%nat)).
  - apply (shards_sound anything (λ _ _ _ _, I) (λ r i sh, if Nat.ltb r.1 (base.size (map sh)) then (base.size (map sh), i) else r));
      [cbn; rw /SHARD_COUNT; lia|]. intros r i sh Hr Hi. by destruct (Nat.ltb _ _).
  - intros r Hr. apply on_shard_sound; [done|]. intros w1 sh _ _ Hok.
    destruct (last (LruList.list_ (lru sh))) as [[n k']|] eqn:Hl.
    + destruct (evict_locked_ok _ _ _ _ Hok Hl) as (sh' & ? & ? & _). by exists sh'.
    + apply last_None in Hl. exists sh. split; [by apply evict_locked_empty|done].
Qed.

Lemma set_sound k v t : sound (λ _, True) (set_prog k v t).
Proof.
  apply (keeps_bind _ _ _ (λ _, True)); [apply evict_sound|]. intros _ _. apply (keeps_bind _ _ _ (λ _, True)).
  - destruct (0 <? t); [|done]. apply section_sound. intros w Hw. rw /wp /bind /now_ms /lift /checked. by destruct (in_i64 _).
  - intros x _. apply on_shard_sound; [apply shard_for_lt|]. intros w sh _ _ Hok.
    destruct (set_locked_ok _ sh k v x Hok eq_refl) as (sh' & ? & ? & ? & ? & ? & _). by exists sh'.
Qed.

Lemma get_sound k : sound (λ _, True) (get_prog k).
Proof.
  intros w Hw. destruct (shard_at w k Hw) as (sh & Hi & _). rw /get_shared /wp /bind /read_shard Hi.
  assert (sound (λ _, True) (section (get_exclusive k))) as Hex by (eapply sim_sound; intros; by apply get_exclusive_sim).
  destruct (map sh !! k); [|done]. cbn [now_ms]. by destruct (is_expired _ _).
Qed.

(** The programs of the maintenance thread only remove entries. *)
Lemma sweep_shrinks : keeps overflow_only (λ w, store_ok (store w)) shrinks (λ _, True) sweep_prog.
Proof.
  apply now_sound; [apply shrinks_same|]. intros t. apply all_shards_sound. intros i w sh Hw Hi Hok.
  destruct (sweep_locked_ok t _ _ Hok) as (sh' & ? & ? & Hm). exists sh'. split_and!; [done..|].
  apply (shrinks_put i sh); [done..|]. apply map_subseteq_size, map_subseteq_spec. intros k e. rw Hm.
  destruct (map sh !! k) as [e'|]; [|done]. by destruct (is_expired e' t).
Qed.

(** ** The maintenance thread *)

(** The files the server owns. *)
Definition owned (cfg : Config) (p : bytes) : Prop := p = rdb_path cfg ∨ p = Rdb.tmp_path (rdb_path cfg).

(** The store is well-formed, and the files of others hold what they held. *)
Record site_ok (cfg : Config) (d0 : Disk) (x : Site) : Prop := {
  x_store : store_ok (store (site_world x));
  x_disk : ∀ p, ¬ owned cfg p → default [] (site_disk x !! p) = default [] (d0 !! p)
}.

Context (cfg : Config) (d0 : Disk).

(** Nor does it ever add an entry. *)
Definition site_shrinks (x y : Site) : Prop := shrinks (site_world x) (site_world y).

Abbreviation tame := (keeps overflow_only (site_ok cfg d0) site_shrinks).

Lemma at_store_wp {A} E (G : World → World → Prop) (m : M World A) (Q : A → Prop) :
  (∀ w, store_ok (store w) → wp E m (λ a w', store_ok (store w') ∧ G w w' ∧ Q a) w) →
  ∀ x, site_ok cfg d0 x → wp E (at_store m) (λ a y, site_ok cfg d0 y ∧ G (site_world x) (site_world y) ∧ Q a) x.
Proof.
  intros Hm x [Hw Hd]. specialize (Hm _ Hw). rw /wp /at_store in Hm |- *. destruct (m _) as [[a w]|f]; [|done].
  destruct Hm as (? & ? & ?). by split.
Qed.

Lemma store_tame {A} (Q : A → Prop) (p : Prog World A) :
  keeps overflow_only (λ w, store_ok (store w)) shrinks Q p → tame Q (pzoom (@at_store) p).
Proof. apply keeps_zoom. intros X m R Hm x Hx. by apply (at_store_wp _ shrinks). Qed.

Lemma site_same x y : site_world y = site_world x → store_ok (store (site_world x)) → site_shrinks x y.
Proof. intros He Hx. apply shrinks_same; [by rw He|done]. Qed.

Lemma now_tame {A} (k : Z → Prog Site A) (Q : A → Prop) : (∀ t, tame Q (k t)) → tame Q (PSec (at_store now_ms) k).
Proof.
  intros Hk x Hx. eapply wp_mono; [apply (at_store_wp _ shrinks _ (λ _, True)); [|done]|].
  - intros w Hw. split_and!; [done|by apply shrinks_same|done].
  - intros t y (? & ? & _). auto.
Qed.

Lemma save_tame : tame (λ _, True) (save_prog (rdb_path cfg)).
Proof.
  intros x Hx. apply wp_gets. split_and!; [done|by apply site_same; [|apply Hx]|]. destruct (negb _); [done|].
  apply (keeps_bind _ _ _ (λ _, True)); [apply store_tame, for_each_sound, shrinks_same|]. intros content _ y [Hw Hd]. rw /wp.
  destruct (commit_cases (rdb_path cfg) content (site_disk y)) as (ok & d & -> & _ & _ & Ho).
  split_and!; [|by apply site_same|done]. split; [done|]. intros p Hp. cbn.
  rw Ho; [intros ->; apply Hp; by left|intros ->; apply Hp; by right|]. by apply Hd.
Qed.

Lemma iteration_tame last : tame (λ _, True) (iteration cfg last).
Proof.
  apply (keeps_bind _ _ _ (λ _, True)); [apply store_tame, sweep_shrinks|]. intros _ _.
  apply (keeps_bind _ _ _ (λ _, True)); [apply store_tame, size_sound, shrinks_same|]. intros n _ x [Hw Hd]. apply wp_modify.
  split_and!; [by split|by apply site_same|]. apply now_tame. intros now. destruct (rdb_enabled cfg); [|done].
  intros u Hu. apply wp_lift. rw /checked. destruct (in_i64 _); [|done].
  split_and!; [done|by apply site_same; [|apply Hu]|]. destruct (_ <=? _); [|done].
  apply (keeps_bind _ _ _ (λ _, True)); [apply save_tame|done].
Qed.

(** ** Both threads *)

Record shared_ok (sh : Shared) : Prop := {
  h_cfg : sh_cfg sh = cfg;
  h_site : site_ok cfg d0 (sh_site sh);
  h_thread : ∀ p, sh_thread sh = Some p → tame (λ _, True) p
}.

(** The world of the store. *)
Definition shared_world (sh : Shared) : World := site_world (sh_site sh).

Lemma set_site_ok x sh : shared_ok sh → site_ok cfg d0 x → shared_ok (set_site x sh).
Proof. intros [] Hx. by split. Qed.

(** What the maintenance thread does between two sections of a command. *)
Definition gives_way (sh sh' : Shared) : Prop := shared_ok sh' ∧ shrinks (shared_world sh) (shared_world sh').

Lemma gives_way_same sh sh' : shared_ok sh → shared_ok sh' → sh_site sh' = sh_site sh → gives_way sh sh'.
Proof.
  intros Hsh Hsh' He. split; [done|]. apply shrinks_same; [by rw /shared_world He|]. apply (h_site _ Hsh).
Qed.

Lemma maint_step_ok sh : shared_ok sh → wp overflow_only thread_step (λ _ sh', gives_way sh sh') sh.
Proof.
  intros Hsh. pose proof Hsh as [Hc Hs Ht]. rw /wp /thread_step.
  destruct (sh_thread sh) as [[last|X m k]|] eqn:He; [| |by apply gives_way_same].
  - destruct (sh_running_ sh); [|by apply gives_way_same]. apply gives_way_same; [done| |done]. split; [done..|].
    intros p [= <-]. rw Hc. apply iteration_tame.
  - specialize (Ht _ eq_refl). cbn [keeps] in Ht. specialize (Ht _ Hs). rw /wp in Ht.
    destruct (m (sh_site sh)) as [[x site]|f]; [|done]. destruct Ht as (? & ? & ?). split; [|done]. split; [done..|]. by intros p [= <-].
Qed.

Lemma steps_ok n : ∀ sh, shared_ok sh → wp overflow_only (steps n) (λ _ sh', gives_way sh sh') sh.
Proof.
  induction n as [|n IH]; intros sh Hsh; cbn [steps]; wp_go; [by apply gives_way_same|].
  eapply wp_mono; [by apply maint_step_ok|]. intros ? sh1 [H1 R1]. eapply wp_mono; [by apply IH|].
  intros ? sh2 [H2 R2]. split; [done|]. by eapply shrinks_trans.
Qed.

Lemma interfere_ok sh : shared_ok sh → wp overflow_only interfere (λ _ sh', gives_way sh sh') sh.
Proof.
  intros Hsh. rw /wp /interfere. destruct (sh_script sh) as [|n rest]; [by apply gives_way_same|].
  apply (steps_ok n (mkShared _ _ _ _ rest)). by destruct Hsh.
Qed.

Lemma at_site_wp {A} E (m : M Site A) (Q : A → Site → Prop) sh :
  shared_ok sh → wp E m (λ a x, site_ok cfg d0 x ∧ Q a x) (sh_site sh) →
  wp E (at_site m) (λ a sh', shared_ok sh' ∧ Q a (sh_site sh')) sh.
Proof.
  intros Hsh. rw /wp /at_site. destruct (m _) as [[a x]|f]; [|done]. intros [? ?]. split; [by apply set_site_ok|done].
Qed.

Lemma beside_ok {A} (Q : A → Prop) (p : Prog World A) : ∀ sh,
  sound Q p → shared_ok sh → wp overflow_only (beside p) (λ a sh', shared_ok sh' ∧ Q a) sh.
Proof.
  induction p as [a|X m k IH]; intros sh Hp Hsh; cbn [keeps beside] in *; wp_go; [done|].
  eapply wp_mono; [by apply interfere_ok|]. intros ? sh1 [H1 _]. wp_go.
  eapply wp_mono; [apply (at_site_wp _ _ (λ x _, True ∧ sound Q (k x)) _ H1),
    (at_store_wp _ anything); [done|]; apply (h_site _ H1)|].
  intros x sh2 (H2 & _ & Hk). by apply IH.
Qed.

Lemma beside_safe {A} (p : Prog World A) sh :
  sound (λ _, True) p → shared_ok sh → wp overflow_only (beside p) (λ _ sh', shared_ok sh') sh.
Proof. intros Hp Hsh. eapply wp_mono; [by eapply beside_ok|]. by intros a sh' []. Qed.

(** A program beside the maintenance thread is one beside threads that only
    remove entries. *)
Lemma beside_amid {A} (P : A → Prop) (p : Prog World A) (Q : A → World → Prop) : ∀ sh,
  shared_ok sh → sound P p → (∀ w, shrinks (shared_world sh) w → amid overflow_only shrinks p Q w) →
  wp overflow_only (beside p) (λ a sh', shared_ok sh' ∧ Q a (shared_world sh')) sh.
Proof.
  induction p as [a|X m k IH]; intros sh Hsh Hp Ha; cbn [keeps beside amid] in *; wp_go.
  { split; [done|]. apply Ha. apply shrinks_same; [done|apply (h_site _ Hsh)]. }
  eapply wp_mono; [by apply interfere_ok|]. intros ? sh1 [H1 R1]. wp_go. specialize (Ha _ R1).
  specialize (Hp _ (x_store _ _ _ (h_site _ H1))).
  rw /wp in Ha Hp. rw {1}/wp /at_site /at_store. fold (shared_world sh1) in Hp.
  change (site_world (sh_site sh1)) with (shared_world sh1) in Hp |- *.
  destruct (m (shared_world sh1)) as [[x w']|f]; [|done]. destruct Hp as (Hok & _ & Hp). apply IH; [|done|done].
  apply set_site_ok; [done|]. split; [done|]. apply (h_site _ H1).
Qed.

(** The promise the network layer relies on. *)
#[refine] Instance shared_safe : StoreSafe Shared := {| st_inv := shared_ok |}.
Proof.
  all: intros; cbn [shared_ops Commands.st_set Commands.st_get Commands.st_del Commands.st_exists Commands.st_ttl
    Commands.st_expire Commands.st_incr Commands.st_keys Commands.st_flush Commands.st_size].
  - by apply beside_safe; [apply set_sound|].
  - by apply beside_safe; [apply get_sound|].
  - apply beside_safe; [|done]. eapply sim_sound. intros. by apply del_sim.
  - apply beside_safe; [|done]. eapply sim_sound. intros. by apply exists_sim.
  - apply (beside_ok (λ r, in_i64 r = true)); [|done]. apply section_sound. intros w' Hw'.
    eapply wp_mono; [by apply ttl_law|]. by intros r w2 (? & _ & ?).
  - apply beside_safe; [|done]. eapply sim_sound. intros. by apply expire_sim.
  - apply (beside_ok (λ r, match r with Some n => in_i64 n = true | None => True end)); [|done].
    apply section_sound. intros w' Hw'. by apply incr_law.
  - apply beside_safe; [|done]. by apply keys_sound.
  - by apply beside_safe; [apply flush_sound|].
  - apply beside_safe; [|done]. by apply size_sound.
Defined.

Lemma launch_ok sh : shared_ok sh → wp overflow_only launch (λ _ sh', shared_ok sh') sh.
Proof.
  intros [Hc Hs Ht]. rw /launch. wp_go. split; [done..|]. intros p [= <-]. by apply now_tame.
Qed.

Lemma join_ok sh :
  shared_ok sh → wp overflow_only join (λ _ sh', shared_ok sh' ∧ sh_thread sh' = None ∧ sh_running_ sh' = false) sh.
Proof.
  intros [Hc Hs Ht]. rw /wp /join. destruct (sh_thread sh) as [p|]; [|by split].
  pose proof (keeps_alone _ _ _ _ _ _ (Ht p eq_refl) Hs) as H. rw /wp in H.
  destruct (alone p (sh_site sh)) as [[a x]|f]; [|done]. destruct H. by split.
Qed.

End Thms.

(** ** An iteration that is not disturbed *)

Section Alone.
Context {plat : Store.Platform} {io : Io}.

Lemma alone_store {A} (p : Prog World A) : ∀ x,
  alone (pzoom (@at_store) p) x =
    match alone p (site_world x) with Ret (a, w) => Ret (a, set_site_world w x) | Fail f => Fail f end.
Proof.
  induction p as [a|X m k IH]; intros x; cbn [pzoom alone]; [by destruct x|].
  rw /bind {1}/at_store. destruct (m (site_world x)) as [[y w]|f]; [|done]. by rw IH.
Qed.

Lemma alone_save path x :
  store_ok (store (site_world x)) →
  alone (save_prog path) x =
    match Rdb.save path (site_disk x) (site_world x) with
    | Ret ((ok, d), w) => Ret (ok, mkSite w d (site_key_count x))
    | Fail f => Fail f
    end.
Proof.
  intros Hx. rw /save_prog /Rdb.save. cbn [alone]. rw {1}/bind {1}/gets.
  destruct (negb _); [by destruct x|]. rw alone_bind /bind alone_store alone_for_each; [apply Hx|].
  rw save_image alone_section. by destruct (Rdb.commit _ _ _).
Qed.

(** C18: one round of the maintenance thread does what it is for.  Undisturbed,
    an iteration drops exactly the entries whose deadline has passed, sets the
    gauge to the number of those left, and, when the interval is over, replaces
    the snapshot by one of these entries (or leaves the old one, on a disk that
    does not take it); otherwise it touches no file. *)
Theorem maintenance_iteration cfg last x :
  store_ok (store (site_world x)) →
  let w := site_world x in
  (rdb_enabled cfg = true → in_i64 (clock w (S (ticks w)) - last) = true) →
  ∃ last' x', alone (iteration cfg last) x = Ret (last', x') ∧
    contents (store (site_world x')) =
      filter (λ kvx, Spec.expired kvx.2.2 (clock w (ticks w)) = false) (contents (store w)) ∧
    site_key_count x' = i64 (Z.of_nat (base.size (contents (store (site_world x'))))) ∧
    if rdb_enabled cfg && (rdb_interval_secs cfg * 1000 <=? clock w (S (ticks w)) - last)
    then last' = clock w (S (ticks w)) ∧ ∃ ok : bool, (writable (rdb_path cfg) → ok = true) ∧
      site_disk x' !! rdb_path cfg =
        if ok then Some (image (snapshot (clock w (S (S (ticks w)))) (store (site_world x'))))
        else site_disk x !! rdb_path cfg
    else last' = last ∧ site_disk x' = site_disk x.
Proof.
  intros Hx w Hin. rw /iteration alone_bind {1}/bind alone_store. fold w.
  pose proof (sweep_sim w Hx) as Hsweep. rw /sim in Hsweep.
  assert (alone sweep_prog w = sweep_expired w) as ->.
  { rw /sweep_prog /sweep_expired. cbn [alone]. apply bind_cong; [done|]. intros t w'. apply alone_shards. }
  destruct (sweep_expired w) as [[[] w1]|f]; [|by destruct Hsweep]. destruct Hsweep as [Hs Hok1].
  assert (Spec.contents (abs w1) = filter (λ kvx, Spec.expired kvx.2.2 (clock w (ticks w)) = false) (contents (store w)) ∧
    clock w1 = clock w ∧ ticks w1 = S (ticks w)) as (Hc1 & Hk1 & Ht1).
  { rw /Spec.sweep_expired /bind /Spec.now /modify in Hs. injection Hs as H1 H2 H3 H4. by rw H3. }
  cbn [abs Spec.contents] in Hc1. cbn [set_site_world site_world].
  rw alone_bind {1}/bind alone_store.
  assert (alone size_prog w1 = Ret (Z.of_nat (base.size (contents (store w1))), w1)) as Hsize.
  { rw /size_prog (alone_reads_foldl (λ total sh, total + Z.of_nat (base.size (map sh)))); [apply Hok1|].
    by rw -contents_size. }
  rw Hsize. cbn [alone]. rw {1}/bind /modify. cbn [set_site_world site_world site_disk]. rw {1}/bind /at_store /now_ms.
  cbn [site_world set_site_world site_disk site_key_count]. rw Hk1 Ht1.
  destruct (rdb_enabled cfg); cbn [andb].
  2:{ eexists _, _. split; [reflexivity|]. by rw -Hc1. }
  cbn [alone]. rw /bind /lift /checked Hin //. destruct (_ <=? _).
  2:{ eexists _, _. split; [reflexivity|]. by rw -Hc1. }
  rw alone_bind /bind alone_save; [done|]. cbn [site_disk site_world site_key_count].
  set (w2 := mkWorld _ _ _).
  destruct (save_cases (rdb_path cfg) (site_disk x) w2) as (ok & d' & w3 & Hsv & Hst & Htrue & Hfalse & _). rw Hsv.
  eexists _, _. split; [reflexivity|]. cbn [site_world site_disk site_key_count]. rw Hst.
  split_and!; [done|done|done|]. exists ok. split.
  - intros Hw. destruct (save_writable _ (site_disk x) w2 Hw) as (? & ? & H). rw Hsv in H. by injection H as -> _ _.
  - destruct ok; [by apply Htrue|by apply Hfalse].
Qed.

End Alone.

(** ** A concrete round *)

Module Demo.
Import StoreThms.Demo PersistenceThms.Demo.
#[local] Existing Instances demo_platform demo_io.

Definition demo_site : Site := mkSite demo2 ∅ 0.

(** The maintenance thread between the sections of a SET on a full store. *)
Definition demo_shared : Shared := mkShared default_config demo_site true
  (Some (iteration default_config 0)) [3; 5; 2; 9; 0; 7]%nat.

Lemma demo_shared_ok : shared_ok default_config ∅ demo_shared.
Proof.
  split; [done|split; [exact demo2_ok|done]|]. intros p [= <-]. apply iteration_tame.
Qed.

Lemma maintenance_iteration_witness :
  ∃ last' x', alone (iteration default_config 0) demo_site = Ret (last', x') ∧
    contents (store (site_world x')) =
      filter (λ kvx, Spec.expired kvx.2.2 (clock (site_world demo_site) (ticks (site_world demo_site))) = false)
        (contents (store (site_world demo_site))) ∧
    site_key_count x' = i64 (Z.of_nat (base.size (contents (store (site_world x'))))).
Proof.
  destruct (maintenance_iteration default_config 0 demo_site demo2_ok) as (last' & x' & H1 & H2 & H3 & _);
    [intros _; vm_compute; reflexivity|]. exists last', x'. split; [exact H1|split; [exact H2|exact H3]].
Defined.
End Demo.

End MaintenanceThms.
