(* ===== verification/MaintenanceLin.v ===== *)
(** The operations of the store on the command thread are linearizable while the
    maintenance thread works: each takes effect at one moment, as the contract
    says, and all that the other thread contributes is the removal of entries
    that have expired. *)

From S2P Require Import Prelude Lru Storage StorageInv StorageSpec StorageThms Conc StoreConc StoreConcThms StoreRely Resp RespThms Commands CommandsThms Persistence PersistenceThms Config Maintenance MaintenanceThms.
#[local] Open Scope Z_scope.

Module MaintenanceLin.
Import Store StoreInv StoreSpec StoreThms Conc StoreConc StoreConcThms StoreRely CommandsThms PersistenceThms Config Maintenance MaintenanceThms.

Section Thms.
Context {plat : Store.Platform} {io : Io}.

(** ** The events of the maintenance thread *)

(** The command thread is thread 0, the maintenance thread is thread 1. *)
Definition sweep_event : Event := (1%nat, (OSweep, None)).

(** Nothing happens but readings of the clock and removals of a sweep. *)
Definition dwindles (u u' : Spec.World) : Prop := ∃ h, Forall (λ e, e = sweep_event) h ∧ explains u h u'.

Lemma dwindles_refl u : dwindles u u.
Proof. exists []. split; constructor. Qed.

Lemma dwindles_trans u1 u2 u3 : dwindles u1 u2 → dwindles u2 u3 → dwindles u1 u3.
Proof.
  intros (h1 & F1 & H1) (h2 & F2 & H2). exists (h1 ++ h2). split; [by apply Forall_app|by eapply explains_app].
Qed.

Lemma advances_dwindles fin ev u u' : advances OSweep fin ev u u' → dwindles u u'.
Proof.
  destruct ev as [[r|]|]; cbn [advances].
  - intros [_ He]. inversion He; subst; try done. apply dwindles_refl.
  - intros [_ Hi]. exists [sweep_event]. split; [by repeat constructor|]. eapply ex_internal; [done|constructor].
  - intros Hl. exists []. split; [constructor|]. eapply ex_later; [done|constructor].
Qed.

(** A program whose sections do nothing else, from [n] readings of the clock on. *)
Fixpoint quiet {A} (clk : nat → Z) (p : Prog Site A) (n : nat) : Prop :=
  match p with
  | PRet _ => True
  | PSec m k => ∀ x, store_ok (store (site_world x)) → clock (site_world x) = clk → (n ≤ ticks (site_world x))%nat →
      wp overflow_only m (λ a y, store_ok (store (site_world y)) ∧ clock (site_world y) = clk ∧
        (ticks (site_world x) ≤ ticks (site_world y))%nat ∧ dwindles (abs (site_world x)) (abs (site_world y)) ∧
        quiet clk (k a) (ticks (site_world y))) x
  end.

Lemma quiet_bind {A B} clk (p : Prog Site A) (h : A → Prog Site B) : ∀ n,
  quiet clk p n → (∀ a n, quiet clk (h a) n) → quiet clk (pbind p h) n.
Proof.
  induction p as [a|X m k IH]; intros n Hp Hh; [by apply Hh|]. cbn [pbind quiet] in *. intros x Hw Hc Hn.
  eapply wp_mono; [by apply Hp|]. intros a y (? & ? & ? & ? & ?). split_and!; auto.
Qed.

(** A program of the store. *)
Lemma store_quiet {A} clk (Q : A → nat → option Res → Prop) (p : Prog World A) : ∀ n fin,
  implements clk OSweep Q p n fin → quiet clk (pzoom (@at_store) p) n.
Proof.
  induction p as [a|X m k IH]; intros n fin Hp; [done|]. cbn [implements pzoom quiet] in *. intros x Hw Hc Hn.
  specialize (Hp _ Hw Hc Hn). rw /wp /at_store in Hp |- *. destruct (m (site_world x)) as [[a w]|f]; [|done].
  destruct Hp as (? & ? & ? & ev & Ha & Hk). cbn [site_world set_site_world]. split_and!; [done..| |].
  - by eapply advances_dwindles.
  - by eapply IH.
Qed.

(** A section that leaves the store alone. *)
Lemma section_quiet {A X} clk (m : M Site X) (k : X → Prog Site A) n :
  (∀ x, wp overflow_only m (λ _ y, site_world y = site_world x) x) → (∀ a n, quiet clk (k a) n) → quiet clk (PSec m k) n.
Proof.
  intros Hm Hk x Hw Hc Hn. eapply wp_mono; [apply Hm|]. intros a y Hy. rw Hy.
  split_and!; [done..|apply dwindles_refl|apply Hk].
Qed.

Lemma now_quiet {A} clk (k : Z → Prog Site A) n : (∀ a n, quiet clk (k a) n) → quiet clk (PSec (at_store now_ms) k) n.
Proof.
  intros Hk x Hw Hc Hn. rw /wp. cbn. split_and!; [done|done|lia| |apply Hk].
  exists []. split; [constructor|]. eapply ex_later; [|constructor]. exists (S (ticks (site_world x))). split; [cbn; lia|done].
Qed.

Lemma implements_unmap {A B} clk op Q (f : A → B) (p : Prog World A) : ∀ n fin,
  implements clk op Q (pmap f p) n fin → implements clk op (λ a, Q (f a)) p n fin.
Proof.
  induction p as [a|X m k IH]; intros n fin Hp; [done|]. cbn [implements pmap pbind] in *. intros w Hw Hc Hn.
  eapply wp_mono; [by apply Hp|]. intros x w' (? & ? & ? & ev & ? & ?). split_and!; [done..|]. exists ev. auto.
Qed.

Lemma save_quiet clk path n : quiet clk (save_prog path) n.
Proof.
  rw /save_prog. apply section_quiet; [done|]. intros d n1. destruct (negb _); [done|]. apply quiet_bind.
  - rw /for_each_prog. apply now_quiet. intros now n2. eapply store_quiet. by apply (implements_reads _ _ (λ _ _, True) _ _ _ None).
  - intros content n2. apply section_quiet; [|done]. intros x. rw /wp. by destruct (Rdb.commit _ _ _).
Qed.

Lemma iteration_quiet clk cfg last n : quiet clk (iteration cfg last) n.
Proof.
  rw /iteration. apply quiet_bind; [eapply store_quiet, implements_unmap, (op_implements clk OSweep n)|]. intros _ n1.
  apply quiet_bind; [eapply store_quiet; by apply (implements_reads _ _ (λ _ _, True) _ _ _ None)|]. intros sz n2.
  apply section_quiet; [done|]. intros _ n3. apply now_quiet. intros now n4. destruct (rdb_enabled cfg); [|done].
  apply section_quiet.
  { intros x. apply wp_lift. rw /checked. by destruct (in_i64 _). }
  intros age n5. destruct (_ <=? _); [|done]. apply quiet_bind; [apply save_quiet|done].
Qed.

(** ** Both threads *)

(** Wherever the maintenance thread is, it is quiet from there on. *)
Record heeds (clk : nat → Z) (sh : Shared) : Prop := {
  hd_store : store_ok (store (shared_world sh));
  hd_clock : clock (shared_world sh) = clk;
  hd_thread : ∀ p, sh_thread sh = Some p → ∃ n, (n ≤ ticks (shared_world sh))%nat ∧ quiet clk p n
}.

(** What it does in the meantime. *)
Definition meanwhile (clk : nat → Z) (sh sh' : Shared) : Prop :=
  heeds clk sh' ∧ (ticks (shared_world sh) ≤ ticks (shared_world sh'))%nat ∧
  dwindles (abs (shared_world sh)) (abs (shared_world sh')).

Lemma meanwhile_same clk sh sh' : heeds clk sh' → sh_site sh' = sh_site sh → meanwhile clk sh sh'.
Proof. intros H He. rw /meanwhile /shared_world He. split_and!; [done..|apply dwindles_refl]. Qed.

Lemma step_heeds clk sh : heeds clk sh → wp overflow_only thread_step (λ _ sh', meanwhile clk sh sh') sh.
Proof.
  intros Hh. pose proof Hh as [Hs Hc Ht]. rw /wp /thread_step.
  destruct (sh_thread sh) as [[last|X m k]|] eqn:He; [| |by apply meanwhile_same].
  - destruct (sh_running_ sh); [|by apply meanwhile_same]. apply meanwhile_same; [|done]. split; [done..|].
    intros p [= <-]. exists 0%nat. split; [lia|apply iteration_quiet].
  - destruct (Ht _ eq_refl) as (n & Hn & Hq). cbn [quiet] in Hq. specialize (Hq _ Hs Hc Hn). rw /wp in Hq.
    destruct (m (sh_site sh)) as [[x site]|f]; [|done]. destruct Hq as (? & ? & ? & ? & ?).
    split_and!; [|done..]. split; [done..|]. intros p [= <-]. eauto.
Qed.

Lemma meanwhile_trans clk sh1 sh2 sh3 : meanwhile clk sh1 sh2 → meanwhile clk sh2 sh3 → meanwhile clk sh1 sh3.
Proof. intros (_ & ? & ?) (? & ? & ?). split_and!; [done|lia|by eapply dwindles_trans]. Qed.

Lemma steps_heed clk n : ∀ sh, heeds clk sh → wp overflow_only (steps n) (λ _ sh', meanwhile clk sh sh') sh.
Proof.
  induction n as [|n IH]; intros sh Hsh; cbn [steps]; wp_go; [by apply meanwhile_same|].
  eapply wp_mono; [by apply step_heeds|]. intros ? sh1 H1. eapply wp_mono; [apply IH, H1|].
  intros ? sh2 H2. exact (meanwhile_trans _ _ _ _ H1 H2).
Qed.

Lemma interfere_heeds clk sh : heeds clk sh → wp overflow_only interfere (λ _ sh', meanwhile clk sh sh') sh.
Proof.
  intros Hsh. rw /wp /interfere. destruct (sh_script sh) as [|n rest]; [by apply meanwhile_same|].
  apply (steps_heed clk n (mkShared _ _ _ _ rest)). by destruct Hsh.
Qed.

(** The thread is quiet from its start. *)
Lemma launch_heeds sh :
  store_ok (store (shared_world sh)) → wp no_fault launch (λ _ sh', heeds (clock (shared_world sh)) sh') sh.
Proof.
  intros Hs. rw /launch. wp_go. split; [done..|]. intros p [= <-]. exists 0%nat. split; [lia|]. by apply now_quiet.
Qed.

(** ** The history *)

(** An operation of the command thread. *)
Definition call (op : Op) : M Shared Res := beside (prog_of op).

Fixpoint calls (ops : list Op) : M Shared (list Res) :=
  match ops with
  | [] => ret []
  | op :: ops' => let! r := call op in let! rs := calls ops' in ret (r :: rs)
  end.

Definition known (e : Event) : Prop := e.1 = 0%nat ∨ e = sweep_event.

(** The history [h] explains the store and accounts for the command thread,
    which has [ops] to do and is at [t]. *)
Record linear (u0 : Spec.World) (ops : list Op) (h : list Event) (t : Thread World Op Res) (sh : Shared) : Prop := {
  ln_heeds : heeds (Spec.clock u0) sh;
  ln_history : explains u0 h (abs (shared_world sh));
  ln_thread : thread_ok (Spec.clock u0) (ticks (shared_world sh)) ops (of_thread 0 h) t;
  ln_known : Forall known h
}.

Lemma sweeps_elsewhere h : Forall (λ e, e = sweep_event) h → of_thread 0 h = [].
Proof.
  induction 1 as [|e h -> _ IH]; [done|]. rw /of_thread filter_cons. case_decide as H; [discriminate H|exact IH].
Qed.

Lemma linear_meanwhile u0 ops h t sh sh' :
  linear u0 ops h t sh → meanwhile (Spec.clock u0) sh sh' → ∃ h', linear u0 ops (h ++ h') t sh'.
Proof.
  intros [_ He Ht Hk] (Hh & Htk & (x & Hx & Hex)). exists x. split; [done|by eapply explains_app| |].
  - rw of_thread_app (sweeps_elsewhere x Hx) app_nil_r. by eapply thread_ok_later.
  - apply Forall_app. split; [done|]. eapply Forall_impl; [exact Hx|]. intros e ->. by right.
Qed.

(** A step of the command thread itself. *)
Lemma linear_step {A} u0 ops h t sh (m : M World A) (next : A → Thread World Op Res) :
  (∀ w, Conc.thread_step prog_of t w = match m w with Ret (a, w') => Ret (next a, w') | Fail f => Fail f end) →
  linear u0 ops h t sh →
  wp overflow_only (at_site (at_store m)) (λ a sh', ∃ h', linear u0 ops (h ++ h') (next a) sh') sh.
Proof.
  intros Hm [[Hs Hc Hth] He Ht Hk]. pose proof (thread_step_ok _ _ _ _ _ Hs Hc Ht) as Hstep.
  rw /wp Hm in Hstep. rw /wp /at_site /at_store. fold (shared_world sh). change (site_world (sh_site sh)) with (shared_world sh).
  destruct (m (shared_world sh)) as [[a w']|f]; [|done]. destruct Hstep as (Hs' & Hc' & Htk & x & Hx & Hok).
  exists (pair 0%nat <$> x). split.
  - split; [done..|]. intros p Hp. destruct (Hth p Hp) as (n & Hn & Hq). exists n. split; [|done].
    rw /shared_world. cbn. lia.
  - eapply explains_app; [done|apply Hx].
  - by rw of_thread_app of_thread_map.
  - apply Forall_app. split; [done|]. apply Forall_fmap, Forall_forall. intros y _. by left.
Qed.

Lemma beside_linear u0 ops res todo (p : Prog World Res) : ∀ h sh,
  linear u0 ops h (mkThread res (Some p) todo) sh →
  wp overflow_only (beside p) (λ r sh', ∃ h', linear u0 ops (h ++ h') (mkThread (res ++ [r]) None todo) sh') sh.
Proof.
  induction p as [r|X m k IH]; intros h sh Hl; cbn [beside]; wp_go.
  - pose proof (linear_step u0 ops h (mkThread res (Some (PRet r)) todo) sh (ret tt) (λ _, mkThread (res ++ [r]) None todo) (λ _, eq_refl) Hl) as H.
    rw /wp in H. cbn in H. by destruct sh as [? [] ? ? ?].
  - eapply wp_mono; [apply interfere_heeds, Hl|]. intros ? sh1 H1. wp_go. destruct (linear_meanwhile _ _ _ _ _ _ Hl H1) as [x Hx].
    eapply wp_mono; [apply (linear_step u0 ops (h ++ x) (mkThread res (Some (PSec m k)) todo) sh1 m (λ a, mkThread res (Some (k a)) todo))|].
    + intros w. rw /Conc.thread_step /bind. cbn. by destruct (m w) as [[]|].
    + exact Hx.
    + intros b sh2 [y Hy]. eapply wp_mono; [by apply IH|]. intros r sh3 [z Hz]. exists (x ++ y ++ z).
      by rw !app_assoc.
Qed.

Lemma calls_linear u0 ops todo : ∀ res h sh,
  linear u0 ops h (mkThread res None todo) sh →
  wp overflow_only (calls todo) (λ rs sh', ∃ h', linear u0 ops (h ++ h') (mkThread (res ++ rs) None []) sh') sh.
Proof.
  induction todo as [|op todo IH]; intros res h sh Hl; cbn [calls]; wp_go.
  { exists []. by rw !app_nil_r. }
  pose proof (linear_step u0 ops h (mkThread res None (op :: todo)) sh (ret tt) (λ _, mkThread res (Some (prog_of op)) todo) (λ _, eq_refl) Hl) as H.
  rw /wp in H. cbn in H. destruct H as [x Hx].
  assert (linear u0 ops (h ++ x) (mkThread res (Some (prog_of op)) todo) sh) as Hx' by (by destruct sh as [? [] ? ? ?]).
  eapply wp_mono; [by apply (beside_linear u0 ops)|]. intros r sh1 [y Hy]. wp_go.
  eapply wp_mono; [by apply IH|]. intros rs sh2 [z Hz]. wp_go. exists (x ++ y ++ z).
  rw -!app_assoc in Hz. exact Hz.
Qed.

(** For any sequence of store operations on the command thread, wherever the
    sections of the maintenance thread fall between theirs, a history of steps of
    the contract explains the contents of the store and the results: each
    operation takes effect once, in order, with the result it returns (it may
    evict before), and all that the other thread contributes is the removal of
    entries that had expired at an earlier reading of the clock. *)
Lemma calls_explained sh ops :
  heeds (clock (shared_world sh)) sh →
  match calls ops sh with
  | Ret (rs, sh') => ∃ h,
      explains (abs (shared_world sh)) h (abs (shared_world sh')) ∧ obeys ops (of_thread 0 h) [] ∧
      returned (of_thread 0 h) = rs ∧ Forall known h ∧ heeds (clock (shared_world sh)) sh'
  | Fail f => overflow_only f
  end.
Proof.
  intros Hh. pose proof (calls_linear (abs (shared_world sh)) ops ops [] [] sh) as H.
  rw /wp in H. destruct (calls ops sh) as [[rs sh']|f].
  - destruct H as (h & [H1 H2 [H3 H3'] H4]); [split; [done|constructor|by split; [constructor|]|constructor]|].
    by exists h.
  - apply H. split; [done|constructor|by split; [constructor|]|constructor].
Qed.

Lemma beside_map {A B} (f : A → B) (p : Prog World A) : ∀ sh, beside (pmap f p) sh = mapM f (beside p) sh.
Proof.
  rw /pmap /mapM. induction p as [a|X m k IH]; intros sh; [done|]. cbn [pbind beside]. rw /bind in IH |- *.
  destruct (interfere sh) as [[u sh1]|]; [|done]. destruct (at_site _ sh1) as [[x sh2]|]; [|done]. apply IH.
Qed.

(** ** The promise of the store, once more *)

(** The maintenance thread is quiet, by the clock of the store. *)
Definition attentive (sh : Shared) : Prop := heeds (clock (shared_world sh)) sh.

Lemma heeds_attentive clk sh : heeds clk sh → attentive sh.
Proof. intros H. pose proof (hd_clock _ _ H) as Hc. rw /attentive. by rewrite Hc. Qed.

Lemma idle_attentive sh : store_ok (store (shared_world sh)) → sh_thread sh = None → attentive sh.
Proof. intros Hs Ht. split; [done..|]. by rw Ht. Qed.

Lemma op_attentive {A} op (f : A → Res) (p : Prog World A) sh :
  prog_of op = pmap f p → attentive sh → wp overflow_only (beside p) (λ _ sh', attentive sh') sh.
Proof.
  intros Hp Hh. pose proof (calls_explained sh [op] Hh) as H. cbn [calls] in H.
  rw /wp. rw /bind /call Hp beside_map /mapM /bind in H. destruct (beside p sh) as [[a sh']|f']; [|done].
  cbn in H. destruct H as (h & _ & _ & _ & _ & H). by eapply heeds_attentive.
Qed.

Lemma wp_both {S A} E (m : M S A) (Q Q' : A → S → Prop) (x : S) :
  wp E m Q x → wp E m Q' x → wp E m (λ a y, Q a y ∧ Q' a y) x.
Proof. rw /wp. by destruct (m x) as [[]|]. Qed.

(** What the threads share while the server runs. *)
Definition served_ok (cfg : Config) (d0 : Disk) (sh : Shared) : Prop := shared_ok cfg d0 sh ∧ attentive sh.

#[refine] Instance served_safe (cfg : Config) (d0 : Disk) : StoreSafe Shared := {| st_inv := served_ok cfg d0 |}.
Proof.
  all: pose (S := shared_safe cfg d0).
  - intros k v t w [H1 H2]. apply wp_both; [by apply (safe_set (StoreSafe := S))|by apply (op_attentive (OSet k v t) (λ _, RUnit))].
  - intros k w [H1 H2]. apply wp_both; [by apply (safe_get (StoreSafe := S))|by apply (op_attentive (OGet k) RBytes)].
  - intros k w [H1 H2]. apply wp_both; [by apply (safe_del (StoreSafe := S))|by apply (op_attentive (ODel k) RBool)].
  - intros k w [H1 H2]. apply wp_both; [by apply (safe_exists (StoreSafe := S))|by apply (op_attentive (OExists k) RBool)].
  - intros k w [H1 H2]. eapply wp_mono; [apply wp_both; [by apply (safe_ttl (StoreSafe := S))|by apply (op_attentive (OTtl k) RInt)]|].
    by intros r w' [[] ?].
  - intros k t w [H1 H2]. apply wp_both; [by apply (safe_expire (StoreSafe := S))|by apply (op_attentive (OExpire k t) RBool)].
  - intros k w [H1 H2]. eapply wp_mono; [apply wp_both; [by apply (safe_incr (StoreSafe := S))|by apply (op_attentive (OIncr k) ROptInt)]|].
    by intros r w' [[] ?].
  - intros p w [H1 H2]. apply wp_both; [by apply (safe_keys (StoreSafe := S))|by apply (op_attentive (OKeys p) RKeys)].
  - intros w [H1 H2]. apply wp_both; [by apply (safe_flush (StoreSafe := S))|by apply (op_attentive OFlush (λ _, RUnit))].
  - intros w [H1 H2]. apply wp_both; [by apply (safe_size (StoreSafe := S))|by apply (op_attentive OSize RInt)].
Defined.

Lemma launch_served cfg d0 sh : served_ok cfg d0 sh → wp overflow_only launch (λ _ sh', served_ok cfg d0 sh') sh.
Proof.
  intros [H1 H2]. apply wp_both; [by apply launch_ok|]. rw /wp /=. apply (heeds_attentive (clock (shared_world sh))).
  pose proof (launch_heeds sh (hd_store _ _ H2)) as H. exact H.
Qed.

Lemma interfere_served cfg d0 sh : served_ok cfg d0 sh → wp overflow_only interfere (λ _ sh', served_ok cfg d0 sh') sh.
Proof.
  intros [H1 H2]. eapply wp_mono; [apply wp_both; [by apply (interfere_ok cfg d0)|by apply interfere_heeds]|].
  intros ? sh' [[? _] [? _]]. split; [done|by eapply heeds_attentive].
Qed.

Lemma join_served cfg d0 sh :
  served_ok cfg d0 sh → wp overflow_only join (λ _ sh', served_ok cfg d0 sh' ∧ sh_thread sh' = None ∧ sh_running_ sh' = false) sh.
Proof.
  intros [H1 _]. eapply wp_mono; [by apply (join_ok cfg d0)|]. intros ? sh' (H & Ht & ?). split_and!; [|done..]. split; [done|].
  apply idle_attentive; [apply (h_site _ _ _ H)|done].
Qed.

End Thms.

End MaintenanceLin.
