(* ===== verification/Scans.v ===== *)
(** The operations that visit every shard, on the command thread beside the
    maintenance thread: since that thread only removes entries, FLUSHALL leaves
    nothing, DBSIZE reports a number between those of the entries before and
    afterwards, and KEYS lists what was there, and all that is still there. *)

From S2P Require Import Prelude Lru Storage StorageInv StorageSpec StorageThms Conc StoreConc StoreConcThms StoreRely Resp Commands CommandsThms Persistence PersistenceThms Config Maintenance MaintenanceThms MaintenanceLin.
#[local] Open Scope Z_scope.

Module Scans.
Import Store StoreInv StoreSpec StoreThms Conc StoreConc StoreConcThms StoreRely CommandsThms PersistenceThms Config Maintenance MaintenanceThms MaintenanceLin.

Section Thms.
Context {plat : Store.Platform} {io : Io}.

(** An entry that KEYS lists at time [t]. *)
Definition listed (pattern : bytes) (t : Z) (k : bytes) (vx : bytes * Z) : Prop :=
  Spec.expired vx.2 t = false ∧ (pattern = bs "*" ∨ fnmatch (c_str pattern) (c_str k) = 0).

(** What an operation promises from its beginning to its end, apart from the
    moment at which it takes effect. *)
Definition overall (op : Op) (r : Res) (u u' : Spec.World) : Prop :=
  match op, r with
  | OFlush, _ => Spec.contents u' = ∅
  | OSize, RInt z => Z.of_nat (base.size (Spec.contents u')) ≤ z ≤ Z.of_nat (base.size (Spec.contents u))
  | OKeys p, RKeys ks => NoDup ks ∧ ∃ n, (Spec.ticks u ≤ n < Spec.ticks u')%nat ∧
      (∀ k, k ∈ ks → ∃ vx, Spec.contents u !! k = Some vx ∧ listed p (Spec.clock u n) k vx) ∧
      (∀ k vx, Spec.contents u' !! k = Some vx → listed p (Spec.clock u n) k vx → k ∈ ks)
  | OSize, _ | OKeys _, _ => False
  | _, _ => True
  end.

(** ** The size *)

Lemma size_between w0 w :
  store_ok (store w) → Forall2 (λ a b, b ≤ a)%nat (sizes w0) (sizes w) →
  amid overflow_only shrinks size_prog (λ z w', store_ok (store w') ∧
    (Z.of_nat (sum_list (sizes w')) ≤ z ≤ Z.of_nat (sum_list (sizes w0)))%Z) w.
Proof.
  intros Hw H0. eapply amid_mono; [|apply (amid_reads shrinks (λ total _ sh, total + Z.of_nat (base.size (map sh)))%Z (λ j total w,
    store_ok (store w) ∧ Forall2 (λ a b, b ≤ a)%nat (sizes w0) (sizes w) ∧
    (Z.of_nat (sum_list (take j (sizes w))) ≤ total ≤ Z.of_nat (sum_list (take j (sizes w0))))%Z))]; cbv beta.
  - intros z w' (H1 & H2 & H3). split; [done|]. pose proof (Forall2_length _ _ _ H2) as Hl.
    assert (length (sizes w') = SHARD_COUNT) as Hl' by (by rw /sizes length_fmap (ok_count _ H1)).
    rw !take_ge in H3; lia.
  - intros j z w1 w2 (H1 & H2 & H3) (H4 & _ & H5). split_and!; [done|by eapply Forall2_trans_ge| |lia].
    apply (Forall2_take _ _ _ j), sum_le in H5. lia.
  - by intros j z w1 [].
  - intros j z w1 sh (H1 & H2 & H3) Hsh. split_and!; [done..| |].
    + rw (take_S_r _ _ _ (sizes_lookup _ _ _ Hsh)) sum_list_with_app. cbn. lia.
    + destruct (Forall2_lookup_r _ _ _ _ _ H2 (sizes_lookup _ _ _ Hsh)) as (a & Ha & Hle).
      rw (take_S_r _ _ _ Ha) sum_list_with_app. cbn. lia.
  - done.
  - split_and!; [done..|]. cbn. lia.
Qed.

(** ** The flush *)

Lemma flush_empties w :
  store_ok (store w) → amid overflow_only shrinks flush_prog (λ _ w', store_ok (store w') ∧ sum_list (sizes w') = 0%nat) w.
Proof.
  enough (∀ m j w, (j + m = SHARD_COUNT)%nat → store_ok (store w) → sum_list (take j (sizes w)) = 0%nat →
    amid overflow_only shrinks (pfold (λ _ i, section (on_shard i flush_locked)) (seq j m) tt)
      (λ _ w', store_ok (store w') ∧ sum_list (sizes w') = 0%nat) w) as H by (intros Hw; by apply (H SHARD_COUNT 0%nat)).
  clear w. induction m as [|m IH]; intros j w Hj Hw H0.
  { split; [done|]. rw take_ge in H0; [|done]. rw /sizes length_fmap (ok_count _ Hw). lia. }
  cbn [seq pfold]. apply amid_bind, amid_section.
  eapply wp_mono; [apply (on_shard_run j flush_locked w (λ w', sum_list (take (S j) (sizes w')) = 0%nat)); [lia|done|]|].
  - intros sh Hsh Hok. destruct (flush_locked_ok _ _ Hok) as (sh' & ? & ? & Hm & _). exists sh'. split_and!; [done..|].
    rw sizes_put Hm map_size_empty. pose proof (sizes_lookup _ _ _ Hsh) as Hs. pose proof (lookup_lt_Some _ _ _ Hs).
    rw (take_S_r _ _ 0%nat); [by rw list_lookup_insert_eq|]. rw take_insert_ge; [lia|]. rw sum_list_with_app H0. done.
  - intros [] w1 (H1 & _ & _ & H2) w2 (H3 & _ & H4). apply IH; [lia|done|].
    apply (Forall2_take _ _ _ (S j)), sum_le in H4. lia.
Qed.

(** ** The keys *)

(** What the maintenance thread does to the contents. *)
Definition loses (w w' : World) : Prop :=
  store_ok (store w') ∧ clock w' = clock w ∧ (ticks w ≤ ticks w')%nat ∧ contents (store w') ⊆ contents (store w).

Lemma loses_trans w1 w2 w3 : loses w1 w2 → loses w2 w3 → loses w1 w3.
Proof. intros (_ & H1 & H2 & H3) (? & H4 & H5 & H6). split_and!; [done|congruence|lia|by etrans]. Qed.

Lemma selected_listed pattern t k e : key_selected pattern t (k, e) = true ↔ listed pattern t k (view e).
Proof.
  rw /key_selected /listed /= expired_view andb_true_iff orb_true_iff negb_true_iff bool_decide_eq_true Z.eqb_eq //.
Qed.

(** What a scan for keys has found when it has visited the shards before [j]. *)
Record scanned (pattern : bytes) (t : Z) (c0 : gmap bytes (bytes * Z)) (j : nat) (ks : list bytes) (w : World) : Prop := {
  sc_ok : store_ok (store w);
  sc_less : contents (store w) ⊆ c0;
  sc_nodup : NoDup ks;
  sc_sound k : k ∈ ks → (shard_for k < j)%nat ∧ ∃ vx, c0 !! k = Some vx ∧ listed pattern t k vx;
  sc_complete k vx : contents (store w) !! k = Some vx → (shard_for k < j)%nat → listed pattern t k vx → k ∈ ks
}.

Lemma scanned_loses pattern t c0 j ks w w' : scanned pattern t c0 j ks w → loses w w' → scanned pattern t c0 j ks w'.
Proof.
  intros [H1 H2 H3 H4 H5] (H6 & _ & _ & H7). split; [done|by etrans|done..|]. intros k vx Hk. eapply H5, lookup_weaken, H7. done.
Qed.

Lemma select_foldl (sel : bytes * Entry → bool) l : ∀ acc : list bytes,
  foldl (λ acc kv, if sel kv then acc ++ [kv.1] else acc) acc l = acc ++ (filter sel l).*1.
Proof.
  induction l as [|kv l IH]; intros acc; simpl; [by rw app_nil_r|].
  rw IH filter_cons. destruct (sel kv); simpl; [by rw -app_assoc|done].
Qed.

Lemma scanned_step pattern t c0 j ks w sh :
  scanned pattern t c0 j ks w → shards_ (store w) !! j = Some sh →
  scanned pattern t c0 (S j)
    (foldl (λ ks kv, if key_selected pattern t kv then ks ++ [kv.1] else ks) ks (bucket_order (map sh))) w.
Proof.
  intros [H1 H2 H3 H4 H5] Hsh. pose proof (ok_shards _ H1 _ _ Hsh) as Hok. rw select_foldl.
  assert (∀ k, k ∈ (filter (key_selected pattern t) (bucket_order (map sh))).*1 ↔
    ∃ e, map sh !! k = Some e ∧ listed pattern t k (view e)) as Hin.
  { intros k. rw list_elem_of_fmap. split.
    - intros ([k' e] & -> & [Hs He]%list_elem_of_filter). exists e. rw -bucket_order_lookup. split; [done|].
      by apply selected_listed, Is_true_true.
    - intros (e & He & Hs). exists (k, e). split; [done|]. apply list_elem_of_filter. rw bucket_order_lookup. split; [|done].
      by apply Is_true_true, selected_listed. }
  assert (∀ k e, map sh !! k = Some e → shard_for k = j ∧ contents (store w) !! k = Some (view e)) as Hat.
  { intros k e He. pose proof (ok_hash _ _ Hok _ _ He) as Hj. split; [done|]. by rw contents_lookup // Hj Hsh /= He. }
  split; [done..| | |].
  - apply NoDup_app. split_and!; [done| |].
    + intros k [Hlt _]%H4 (e & He & _)%Hin. destruct (Hat _ _ He). lia.
    + eapply sublist_NoDup; [apply (bucket_order_nodup (map sh))|apply fmap_sublist, sublist_filter].
  - intros k [Hk|Hk]%elem_of_app; [destruct (H4 k Hk); split; [lia|done]|]. apply Hin in Hk as (e & He & Hl).
    destruct (Hat _ _ He) as [-> Hc]. split; [lia|]. exists (view e). split; [by eapply lookup_weaken|done].
  - intros k vx Hk Hlt Hl. apply elem_of_app. destruct (decide (shard_for k = j)) as [Hj|Hj]; [right|left; eapply H5; [done|lia|done]].
    apply Hin. rw contents_lookup // Hj Hsh /= in Hk. destruct (map sh !! k) as [e|] eqn:He; [|done]. injection Hk as <-.
    by exists e.
Qed.

Lemma keys_between pattern w0 w :
  store_ok (store w) → clock w = clock w0 → (ticks w0 ≤ ticks w)%nat → contents (store w) ⊆ contents (store w0) →
  amid overflow_only loses (keys_prog pattern) (λ ks w', overall (OKeys pattern) (RKeys ks) (abs w0) (abs w')) w.
Proof.
  intros Hw Hc Ht Hs. rw /keys_prog. cbn [amid]. rw /wp /now_ms. intros w1 (H1 & Hc1 & Ht1 & Hs1). cbn in Ht1, Hs1, Hc1.
  set (n := ticks w). set (t := clock w n).
  eapply amid_mono; [|apply (amid_reads loses (λ ks _ sh, foldl (λ ks kv, if key_selected pattern t kv then ks ++ [kv.1] else ks)
    ks (bucket_order (map sh))) (λ j ks w, scanned pattern t (contents (store w0)) j ks w ∧ (S n ≤ ticks w)%nat) )]; cbv beta.
  - intros ks w' [[H2 H3 H4 H5 H6] H7]. split; [done|]. exists n. cbn. split; [lia|]. change (clock w0 n) with (Spec.clock (abs w0) n).
    cbn. rw -Hc. split.
    + intros k Hk. by apply H5.
    + intros k vx Hk. apply H6; [done|apply shard_for_lt].
  - intros j ks w2 w3 [H2 H3] H4. split; [by eapply scanned_loses|]. destruct H4 as (_ & _ & H4 & _). lia.
  - by intros j ks w2 [[] _].
  - intros j ks w2 sh [H2 H3] Hsh. split; [by apply scanned_step|done].
  - done.
  - split; [|done]. split; [done|by etrans|constructor| |].
    + intros k Hk%not_elem_of_nil. done.
    + intros. lia.
Qed.

(** ** Beside the maintenance thread *)

Lemma dwindles_subset u u' : dwindles u u' → Spec.contents u' ⊆ Spec.contents u.
Proof.
  intros (h & Hh & He). induction He as [u|u u1 h u2 (n & _ & ->) _ IH|i op u u1 h u2 Hi _ IH|i op r u u1 h u2 Hf _ IH]; [done|by apply IH|..];
    apply Forall_cons in Hh as [[= -> ->] Hh].
  inversion Hi; subst. etrans; [by apply IH|done].
Qed.

Lemma meanwhile_loses clk sh sh' : heeds clk sh → meanwhile clk sh sh' → loses (shared_world sh) (shared_world sh').
Proof.
  intros Hh (Hh' & Ht & Hd). split_and!; [apply Hh'| |done|by apply dwindles_subset in Hd].
  by rw (hd_clock _ _ Hh) (hd_clock _ _ Hh').
Qed.

Lemma beside_loses {A} clk op (R : A → nat → option Res → Prop) (Q : A → World → Prop) (p : Prog World A) : ∀ n fin sh,
  implements clk op R p n fin → heeds clk sh → (n ≤ ticks (shared_world sh))%nat →
  (∀ w, loses (shared_world sh) w → amid overflow_only loses p Q w) →
  wp overflow_only (beside p) (λ a sh', Q a (shared_world sh')) sh.
Proof.
  induction p as [a|X m k IH]; intros n fin sh Hi Hh Hn Ha; cbn [implements beside amid] in *; wp_go.
  { apply Ha. split_and!; [apply Hh|done..]. }
  eapply wp_mono; [by apply interfere_heeds|]. intros ? sh1 H1. wp_go. specialize (Ha _ (meanwhile_loses _ _ _ Hh H1)).
  destruct H1 as (H1 & Ht & _). specialize (Hi _ (hd_store _ _ H1) (hd_clock _ _ H1) ltac:(lia)).
  rw /wp in Ha Hi. rw {1}/wp /at_site /at_store. change (site_world (sh_site sh1)) with (shared_world sh1).
  destruct (m (shared_world sh1)) as [[x w']|f]; [|done]. destruct Hi as (Hs & Hc & Htk & ev & _ & Hi).
  eapply IH; [exact Hi| |done|exact Ha]. destruct H1 as [_ _ Hth]. split; [done..|]. intros q Hq.
  destruct (Hth q Hq) as (n' & ? & ?). exists n'. split; [|done]. rw /shared_world /=. lia.
Qed.

(** The sizes of the contents. *)
Lemma sizes_contents w : store_ok (store w) → sum_list (sizes w) = base.size (contents (store w)).
Proof. intros Hw. pose proof (size_of_sizes w). rw contents_size // in H. lia. Qed.

Lemma call_overall cfg d0 op sh :
  served_ok cfg d0 sh →
  wp overflow_only (call op) (λ r sh', overall op r (abs (shared_world sh)) (abs (shared_world sh'))) sh.
Proof.
  intros [Hsh Hh]. pose proof (hd_store _ _ Hh) as Hw.
  assert (wp overflow_only (call op) (λ _ _, True) sh) as Hdone.
  { pose proof (calls_explained sh [op] Hh) as H. cbn [calls] in H. rw /wp. rw /bind in H. by destruct (call op sh) as [[]|]. }
  destruct op; cbn [overall]; try exact Hdone; rw /call.
  - apply (beside_loses _ _ _ (λ r w', overall (OKeys pattern) r (abs (shared_world sh)) (abs w')) _ 0 None sh
      (op_implements _ (OKeys pattern) 0) Hh); [lia|].
    intros w (H1 & H2 & H3 & H4). cbn [prog_of]. apply amid_bind. cbn [amid]. by apply keys_between.
  - cbn [prog_of]. eapply wp_mono; [apply (beside_amid cfg d0 (λ _, True) _ (λ _ w', contents (store w') = ∅) sh Hsh)|by intros ? ? []].
    + apply (keeps_bind _ _ _ (λ _, True)); [apply flush_sound|done].
    + intros w (H1 & _). apply amid_bind. eapply amid_mono; [|by apply flush_empties].
      intros _ w' [H2 H3]. cbn [amid]. apply map_size_empty_inv. by rw -sizes_contents.
  - cbn [prog_of]. eapply wp_mono; [apply (beside_amid cfg d0 (λ _, True) _ (λ r w', overall OSize r (abs (shared_world sh)) (abs w')) sh Hsh)|by intros ? ? []].
    + apply (keeps_bind _ _ _ (λ _, True)); [by apply size_sound|done].
    + intros w (H1 & _ & H2). apply amid_bind. eapply amid_mono; [|by apply (size_between (shared_world sh))].
      intros z w' [H3 H4]. cbn [amid overall abs Spec.contents]. by rw !sizes_contents in H4.
Qed.

(** ** A sequence of operations *)

(** The command thread performs [ops] with the results [rs]: each takes effect
    once between the end of the one before and its own end, in a history of the
    contract in which the other thread only removes entries that had expired. *)
Inductive performs : Spec.World → list Op → list Res → Spec.World → Prop :=
  | pf_nil u : performs u [] [] u
  | pf_cons u op r h u1 ops rs u2 :
      explains u h u1 → Forall known h → obeys [op] (of_thread 0 h) [] → returned (of_thread 0 h) = [r] →
      overall op r u u1 → performs u1 ops rs u2 → performs u (op :: ops) (r :: rs) u2.

Abbreviation sound := (keeps overflow_only (λ w, store_ok (store w)) (λ _ _, True)).

Lemma prog_sound op : sound (λ _, True) (prog_of op).
Proof.
  assert (∀ A (f : A → Res) (p : Prog World A), sound (λ _, True) p → sound (λ _, True) (pmap f p)) as Hmap.
  { intros A f p Hp. by apply (keeps_bind _ _ _ (λ _, True)). }
  destruct op; cbn [prog_of]; apply Hmap; auto using set_sound, get_sound, flush_sound.
  - eapply sim_sound. intros. by apply del_sim.
  - eapply sim_sound. intros. by apply exists_sim.
  - eapply sim_sound. intros. by apply ttl_sim.
  - eapply sim_sound. intros. by apply expire_sim.
  - eapply sim_sound. intros. by apply incr_sim.
  - by apply keys_sound.
  - apply now_sound; [done|]. intros t. apply all_shards_sound. intros i w sh Hw Hi Hok.
    destruct (sweep_locked_ok t _ _ Hok) as (sh' & ? & ? & _). by exists sh'.
  - by apply size_sound.
Qed.

Lemma call_served cfg d0 op sh :
  served_ok cfg d0 sh → wp overflow_only (call op) (λ _ sh', served_ok cfg d0 sh') sh.
Proof.
  intros [H1 H2]. apply wp_both; [apply beside_safe; [apply prog_sound|done]|].
  pose proof (calls_explained sh [op] H2) as H. cbn [calls] in H. rw /wp. rw /bind in H.
  destruct (call op sh) as [[r sh']|f]; [|done]. cbn in H. destruct H as (h & _ & _ & _ & _ & H). by eapply heeds_attentive.
Qed.

Lemma calls_performed cfg d0 ops : ∀ sh,
  served_ok cfg d0 sh →
  wp overflow_only (calls ops) (λ rs sh', performs (abs (shared_world sh)) ops rs (abs (shared_world sh'))) sh.
Proof.
  induction ops as [|op ops IH]; intros sh Hsh; cbn [calls]; wp_go; [constructor|].
  pose proof (calls_explained sh [op] (proj2 Hsh)) as He. pose proof (call_overall cfg d0 op sh Hsh) as Ho.
  pose proof (call_served cfg d0 op sh Hsh) as Hs. cbn [calls] in He. rw {1}/wp. rw /wp in Ho Hs. rw /bind in He.
  destruct (call op sh) as [[r sh1]|f]; [|done]. cbn in He. destruct He as (h & H1 & H2 & H3 & H4 & _). wp_go.
  eapply wp_mono; [by apply IH|]. intros rs sh2 H5. wp_go. by eapply pf_cons.
Qed.


End Thms.
End Scans.
