(* ===== verification/Requests.v ===== *)
(** What the clients of the server get, end to end: the event loop executes the
    requests of its clients on the store while the maintenance thread works
    beside it, and the replies are those that the handlers compute from the
    answers of the contract.

    [Answers] is the store as one client of the contract sees it: a list of
    answers.  The handlers run on it as they run on the sharded store, asking for
    one operation after the other.  A history of the contract gives the answers. *)

From S2P Require Import Prelude Lru Storage StorageInv StorageSpec StorageThms Conc StoreConc StoreConcThms StoreRely Resp RespThms Commands CommandsThms Persistence PersistenceThms Buffer Connection ConnectionThms EventLoop EventLoopInv EventLoopThms Config Maintenance MaintenanceThms MaintenanceLin Scans.
#[local] Open Scope Z_scope.

Module Requests.
Import StoreSpec StoreThms StoreConcThms CommandsThms ConnectionThms Maintenance MaintenanceThms MaintenanceLin Scans.

(** ** A store that only answers *)

Record Answers := mkAnswers {
  asked : list Op;         (* the operations so far *)
  to_give : list Res       (* the results of those to come *)
}.

(** An answer of another kind, or none at all, stops the client. *)
Definition ask {A} (op : Op) (read : Res → option A) : M Answers A := λ s,
  match to_give s with
  | [] => Fail OutOfFuel
  | r :: rest => match read r with
                 | Some a => Ret (a, mkAnswers (asked s ++ [op]) rest)
                 | None => Fail OutOfFuel
                 end
  end.

Definition as_unit (r : Res) : option unit := match r with RUnit => Some tt | _ => None end.
Definition as_bytes (r : Res) : option (option bytes) := match r with RBytes o => Some o | _ => None end.
Definition as_bool (r : Res) : option bool := match r with RBool b => Some b | _ => None end.
Definition as_int (r : Res) : option Z := match r with RInt z => Some z | _ => None end.
Definition as_opt_int (r : Res) : option (option Z) := match r with ROptInt o => Some o | _ => None end.
Definition as_keys (r : Res) : option (list bytes) := match r with RKeys l => Some l | _ => None end.

Definition answers_ops : Commands.StoreOps Answers := {|
  Commands.st_set k v t := ask (OSet k v t) as_unit;
  Commands.st_get k := ask (OGet k) as_bytes;
  Commands.st_del k := ask (ODel k) as_bool;
  Commands.st_exists k := ask (OExists k) as_bool;
  Commands.st_ttl k := ask (OTtl k) as_int;
  Commands.st_expire k t := ask (OExpire k t) as_bool;
  Commands.st_incr k := ask (OIncr k) as_opt_int;
  Commands.st_keys p := ask (OKeys p) as_keys;
  Commands.st_flush := ask OFlush as_unit;
  Commands.st_size := ask OSize as_int
|}.

Section Mirror.
Context {plat : Store.Platform} {io : Io} {cc : Commands.Compiler}.

(** ** The same client on both stores *)

(** What [m] does to the store are some calls, and [m'] does the same with their
    results. *)
Definition mirrors {A} (m : M Shared A) (m' : M Answers A) : Prop := ∀ sh a sh', m sh = Ret (a, sh') →
  ∃ ops rs, calls ops sh = Ret (rs, sh') ∧
    ∀ pre rest, m' (mkAnswers pre (rs ++ rest)) = Ret (a, mkAnswers (pre ++ ops) rest).

Lemma calls_app ops1 : ∀ ops2 sh rs1 sh1 rs2 sh2,
  calls ops1 sh = Ret (rs1, sh1) → calls ops2 sh1 = Ret (rs2, sh2) → calls (ops1 ++ ops2) sh = Ret (rs1 ++ rs2, sh2).
Proof.
  induction ops1 as [|op ops1 IH]; intros ops2 sh rs1 sh1 rs2 sh2; cbn [calls app]; [by intros [= <- <-]|].
  rw /bind. destruct (call op sh) as [[r sh']|]; [|done]. destruct (calls ops1 sh') as [[rs sh'']|] eqn:H1; [|done].
  intros [= <- <-] H2. by rw (IH _ _ _ _ _ _ H1 H2).
Qed.

Lemma mirrors_ret {A} (a : A) : mirrors (ret a) (ret a).
Proof. intros sh ? ? [= <- <-]. exists [], []. split; [done|]. intros pre rest. by rw app_nil_r. Qed.

Lemma mirrors_lift {A} (o : outcome A) : mirrors (lift o) (lift o).
Proof. destruct o; [apply mirrors_ret|]. done. Qed.

Lemma mirrors_bind {A B} (m : M Shared A) m' (k : A → M Shared B) k' :
  mirrors m m' → (∀ a, mirrors (k a) (k' a)) → mirrors (bind m k) (bind m' k').
Proof.
  intros Hm Hk sh b sh2. rw {1}/bind. destruct (m sh) as [[a sh1]|] eqn:H1; [|done]. intros H2.
  destruct (Hm _ _ _ H1) as (ops1 & rs1 & Hc1 & Ha1). destruct (Hk _ _ _ _ H2) as (ops2 & rs2 & Hc2 & Ha2).
  exists (ops1 ++ ops2), (rs1 ++ rs2). split; [by eapply calls_app|]. intros pre rest.
  by rw /bind -app_assoc Ha1 Ha2 app_assoc.
Qed.

Lemma mirrors_foldM {A B} (f : B → A → M Shared B) f' l : ∀ acc,
  (∀ b x, mirrors (f b x) (f' b x)) → mirrors (foldM f l acc) (foldM f' l acc).
Proof.
  induction l as [|x l IH]; intros acc Hf; cbn [foldM]; [apply mirrors_ret|]. apply mirrors_bind; auto.
Qed.

(** One operation. *)
Lemma mirrors_op {A} op (p : Conc.Prog Store.World A) (f : A → Res) read :
  StoreConc.prog_of op = Conc.pmap f p → (∀ a, read (f a) = Some a) → mirrors (beside p) (ask op read).
Proof.
  intros Hp Hread sh a sh' H. exists [op], [f a]. split.
  - cbn [calls]. by rw /bind /call Hp beside_map /mapM /bind H.
  - intros pre rest. by rw /ask /= Hread.
Qed.

(** ** The handlers *)

(** One rule per construct of a handler, and one per operation. *)
Ltac mirror_step :=
  cbn [answers_ops shared_ops Commands.st_set Commands.st_get Commands.st_del Commands.st_exists Commands.st_ttl
    Commands.st_expire Commands.st_incr Commands.st_keys Commands.st_flush Commands.st_size];
  first
  [ apply mirrors_ret
  | apply mirrors_lift
  | apply mirrors_bind; [|intros ?]
  | apply mirrors_foldM; intros ? ?
  | apply mirrors_op with (f := λ _, RUnit); [reflexivity|by intros []]
  | eapply mirrors_op; [reflexivity|done]
  | match goal with |- mirrors (match ?x with _ => _ end) _ => destruct x end ].

Ltac mirror := repeat mirror_step.

Lemma registrations_mirror :
  Forall2 (λ x y, x.1 = y.1 ∧ ∀ req, mirrors (x.2 req) (y.2 req))
    (Commands.registrations (ops := shared_ops)) (Commands.registrations (ops := answers_ops)).
Proof.
  rw /Commands.registrations. repeat (constructor; [split; [done|]; intros req; cbn [snd]|]); [..|constructor].
  - rw /Commands.handle_ping. mirror.
  - rw /Commands.handle_set. mirror.
  - rw /Commands.handle_get. mirror.
  - rw /Commands.handle_del. mirror.
  - rw /Commands.handle_del. mirror.
  - rw /Commands.handle_exists. mirror.
  - rw /Commands.handle_expire. mirror.
  - rw /Commands.handle_pexpire. mirror.
  - rw /Commands.handle_ttl. mirror.
  - rw /Commands.handle_pttl. mirror.
  - rw /Commands.handle_incr. mirror.
  - rw /Commands.handle_incrby. mirror.
  - rw /Commands.handle_keys. mirror.
  - rw /Commands.handle_dbsize. mirror.
  - rw /Commands.handle_flushall. mirror.
  - rw /Commands.handle_flushall. mirror.
Qed.

(** Both tables have the same names. *)
Lemma register_rel {X Y : Type} (R : Commands.CommandHandler (W := X) → Commands.CommandHandler (W := Y) → Prop) l l' : ∀ d d',
  Forall2 (λ x y, x.1 = y.1 ∧ R x.2 y.2) l l' → (∀ cmd, option_relation R (λ _, False) (λ _, False) (d !! cmd) (d' !! cmd)) →
  ∀ cmd, option_relation R (λ _, False) (λ _, False)
    (foldl (λ d '(name, h), Commands.register_handler name h d) d l !! cmd)
    (foldl (λ d '(name, h), Commands.register_handler name h d) d' l' !! cmd).
Proof.
  intros d d' Hl. revert d d'. induction Hl as [|[n h] [n' h'] l l' [Hn Hh] _ IH]; intros d d' Hd; [done|]. cbn in Hn, Hh. subst n'.
  cbn [foldl]. apply IH. intros cmd. rw /Commands.register_handler. unfold Commands.Dispatcher in *.
  pose proof (Hd n) as H. destruct (d !! n) eqn:E1, (d' !! n) eqn:E2; try done.
  destruct (decide (n = cmd)) as [->|Hne]; [by rw !lookup_insert_eq|by rw !lookup_insert_ne].
Qed.

Lemma dispatch_mirror req :
  mirrors (Commands.dispatch (Commands.new_dispatcher (ops := shared_ops)) req)
    (Commands.dispatch (Commands.new_dispatcher (ops := answers_ops)) req).
Proof.
  rw /Commands.dispatch. destruct (_ || _); [apply mirrors_ret|]. apply mirrors_bind; [apply mirrors_lift|]. intros name.
  pose proof (register_rel (λ h h', ∀ req, mirrors (h req) (h' req)) _ _ ∅ ∅ registrations_mirror (λ _, I)
    (tolower <$> str name)) as H.
  rw /Commands.new_dispatcher. set (o := foldl _ _ _ !! _) in H |- *. set (o' := foldl _ _ _ !! _) in H |- *.
  clearbody o o'. destruct o, o'; [apply H|done|done|apply mirrors_ret].
Qed.

Lemma run_cmds_mirror cmds : mirrors (run_cmds (ops := shared_ops) cmds) (run_cmds (ops := answers_ops) cmds).
Proof.
  induction cmds as [|c cmds IH]; cbn [run_cmds]; [apply mirrors_ret|]. apply mirrors_bind; [apply dispatch_mirror|]. intros r.
  apply mirrors_bind; [done|]. intros rs. apply mirrors_ret.
Qed.

Lemma run_requests_mirror reqs :
  mirrors (EventLoopThms.run_requests (ops := shared_ops) reqs) (EventLoopThms.run_requests (ops := answers_ops) reqs).
Proof.
  induction reqs as [|[fd cmds] reqs IH]; cbn [EventLoopThms.run_requests]; [apply mirrors_ret|].
  apply mirrors_bind; [apply run_cmds_mirror|]. intros r. apply mirrors_bind; [done|]. intros rs. apply mirrors_ret.
Qed.

End Mirror.

(** ** From the sockets to the contract *)

Section Thms.
Context {plat : Store.Platform} {io : Io} {cc : Commands.Compiler} {limits : VecLimits}.
Context {Mt : Type} {sink : Connection.MetricsSink Mt} {mlaws : MetricsLaws Mt}.
Context {poller : EventLoop.Poller} {plaws : EventLoopInv.PollerLaws poller}.
Import Connection EventLoop EventLoopInv EventLoopThms.

(** For any mixture of requests by connected clients of the event loop, wherever
    sections of the maintenance thread fall between those of the commands: the
    command thread has performed operations of the contract, which lead from the
    contents of the store before to those afterwards, and each client is owed the
    replies that the handlers compute from their results. *)
Lemma requests_explained cfg d0 reqs rs sh' (l : Loop Shared Mt) :
  inv (safe := served_safe cfg d0) l → idle l →
  Forall (fits l) reqs → run_requests reqs (l_world l) = Ret (rs, sh') → Buffer.MAX_CAP ≤ string_limit →
  (∀ fd c, connections_ l !! fd = Some c →
     zlen (Buffer.readable (out_buf_ c)) + zlen (replies_to fd rs) ≤ Buffer.MAX_CAP) →
  ∃ l' ops res, foldM (λ _ r, request r) reqs tt l = Ret (tt, l') ∧
    performs (abs (shared_world (l_world l))) ops res (abs (shared_world (l_world l'))) ∧
    run_requests (ops := answers_ops) reqs (mkAnswers [] res) = Ret (rs, mkAnswers ops []) ∧
    ∀ fd c, connections_ l !! fd = Some c →
      ∃ c', connections_ l' !! fd = Some c' ∧
        Buffer.readable (out_buf_ c') = Buffer.readable (out_buf_ c) ++ replies_to fd rs.
Proof.
  intros Hinv Hidle Hfits Hrun Hlim Hcap. pose proof (i_store _ _ Hinv) as Hh.
  destruct (requests_served reqs rs sh' l Hinv Hidle Hfits Hrun Hlim Hcap) as (l' & Hl' & _ & _ & <- & Hout).
  destruct (run_requests_mirror _ _ _ _ Hrun) as (ops & res & Hcalls & Hans).
  pose proof (calls_performed cfg d0 ops _ Hh) as H. rw /wp Hcalls in H.
  exists l', ops, res. split_and!; [done..| |done]. specialize (Hans [] []). by rw app_nil_r in Hans.
Qed.

End Thms.

End Requests.
