(* ===== verification/Capacity.v ===== *)
(** The capacity of the store while the server runs: with the maintenance thread
    beside the command thread, requests other than INCR leave a store that holds
    at most [max_keys] entries with at most [max_keys] entries. *)

From S2P Require Import Prelude Lru Storage StorageInv StorageSpec StorageThms Conc StoreConc StoreConcThms StoreRely Resp RespThms Commands CommandsThms Persistence PersistenceThms Connection ConnectionThms EventLoop EventLoopThms Config Maintenance MaintenanceThms.
#[local] Open Scope Z_scope.

Module Capacity.
Import Store StoreInv StoreSpec StoreThms Conc StoreConc StoreConcThms StoreRely CommandsThms ConnectionThms PersistenceThms Config Maintenance MaintenanceThms.

Section Thms.
Context {plat : Store.Platform} {io : Io}.

(** ** The sizes of the shards, by the contents *)

Lemma shard_contents w i sh :
  store_ok (store w) → shards_ (store w) !! i = Some sh →
  view <$> map sh = filter (λ kvx, shard_for kvx.1 = i) (contents (store w)).
Proof.
  intros Hw Hi. apply map_eq. intros k. rw lookup_fmap map_lookup_filter contents_lookup //.
  pose proof (ok_shards _ Hw _ _ Hi) as Hok. destruct (decide (shard_for k = i)) as [He|Hne].
  - rw He Hi /=. destruct (map sh !! k); [|done]. cbn. by rw option_guard_True.
  - destruct (map sh !! k) as [e|] eqn:Hk; [by apply (ok_hash _ _ Hok) in Hk|]. cbn.
    destruct (shards_ (store w) !! shard_for k) as [sh'|]; [|done]. cbn. destruct (map sh' !! k); [|done]. cbn. by rw option_guard_False.
Qed.

Lemma shrinks_dom w w' :
  store_ok (store w) → store_ok (store w') → max_keys_ (store w') = max_keys_ (store w) →
  dom (contents (store w')) ⊆ dom (contents (store w)) → shrinks w w'.
Proof.
  intros Hw Hw' Hm Hd. split_and!; [done..|]. apply Forall2_same_length_lookup.
  split; [by rw /sizes !length_fmap (ok_count _ Hw) (ok_count _ Hw')|]. intros i a b Ha Hb. rw /sizes list_lookup_fmap in Ha. rw /sizes list_lookup_fmap in Hb.
  destruct (shards_ (store w) !! i) as [sh|] eqn:Hi; [|done]. destruct (shards_ (store w') !! i) as [sh'|] eqn:Hi'; [|done].
  injection Ha as <-. injection Hb as <-.
  rw -(map_size_fmap view (map sh')) -(map_size_fmap view (map sh)).
  rw (shard_contents w i sh) // (shard_contents w' i sh') //. rw -!size_dom. apply subseteq_size.
  intros k. rw !elem_of_dom. intros [vx Hvx]. rw map_lookup_filter_Some in Hvx. destruct Hvx as [Hvx Hs]. cbn in Hs.
  assert (k ∈ dom (contents (store w))) as [vy Hvy]%elem_of_dom by (apply Hd, elem_of_dom; by eexists).
  exists vy. by apply map_lookup_filter_Some.
Qed.

(** ** Operations that add no entry *)

(** An operation of the contract that adds no key. *)
Definition no_more {A} (m : M Spec.World A) : Prop := ∀ u a u',
  m u = Ret (a, u') → dom (Spec.contents u') ⊆ dom (Spec.contents u) ∧ Spec.capacity u' = Spec.capacity u.

Abbreviation shrinking := (keeps overflow_only (λ w, store_ok (store w)) shrinks).

Lemma sim_shrinks {A} (m : M World A) (m' : M Spec.World A) w :
  store_ok (store w) → sim w m m' → no_more m' → wp overflow_only m (λ _ w', store_ok (store w') ∧ shrinks w w') w.
Proof.
  intros Hw Hsim Hno. rw /sim in Hsim. rw /wp. destruct (m w) as [[a w']|f]; [|by destruct Hsim].
  destruct Hsim as [Hs Hok]. destruct (Hno _ _ _ Hs) as [Hd Hc]. split; [done|]. by apply shrinks_dom.
Qed.

Lemma section_shrinks {A} (m : M World A) (m' : M Spec.World A) (Q : A → Prop) :
  (∀ w, store_ok (store w) → sim w m m') → no_more m' →
  (∀ w, store_ok (store w) → wp overflow_only m (λ a _, Q a) w) → shrinking Q (section m).
Proof.
  intros Hsim Hno HQ. apply keeps_section. intros w Hw. specialize (HQ w Hw).
  pose proof (sim_shrinks m m' w Hw (Hsim w Hw) Hno) as H. rw /wp in H HQ |- *.
  destruct (m w) as [[a w']|f]; [|done]. by destruct H.
Qed.

Lemma no_more_bind {A B} (m : M Spec.World A) (k : A → M Spec.World B) :
  no_more m → (∀ a, no_more (k a)) → no_more (bind m k).
Proof.
  intros Hm Hk u b u'. rw /bind. destruct (m u) as [[a u1]|] eqn:He; [|done]. intros H.
  destruct (Hm _ _ _ He) as [H1 H2], (Hk _ _ _ _ H) as [H3 H4]. split; [set_solver|congruence].
Qed.
Lemma no_more_simple {A} (m : M Spec.World A) :
  (∀ u, match m u with Ret (_, u') => dom (Spec.contents u') ⊆ dom (Spec.contents u) ∧ Spec.capacity u' = Spec.capacity u | Fail _ => True end) →
  no_more m.
Proof. intros H u a u' He. specialize (H u). by rw He in H. Qed.

Lemma no_more_lift {A} (o : outcome A) : no_more (lift o).
Proof. intros u a u'. rw /lift. destruct o; [|done]. by intros [= _ <-]. Qed.

Ltac less :=
  repeat match goal with
  | |- no_more (bind _ _) => apply no_more_bind; [|intros ?]
  | |- no_more (lift _) => apply no_more_lift
  | |- no_more (match ?x with _ => _ end) => destruct x
  | |- no_more _ => apply no_more_simple; intros ?; cbn; (split; [set_solver|done])
  end.

Lemma expire_no_more key ttl_ms : no_more (Spec.expire key ttl_ms).
Proof.
  apply no_more_simple. intros u. rw /Spec.expire /bind /Spec.lookup /gets.
  destruct (Spec.contents u !! key) as [[v x]|] eqn:Hk; [|done]. cbn. destruct (Spec.expired _ _); [done|]. cbn.
  rw /lift. destruct (checked _); [|done]. cbn. split; [|done]. apply elem_of_dom_2 in Hk. set_solver.
Qed.

Lemma del_shrinks key : shrinking (λ _, True) (section (del key)).
Proof.
  eapply section_shrinks; [intros; by apply del_sim|rw /Spec.del; less|]. intros w Hw.
  eapply wp_mono; [by eapply sim_safe, del_sim|done].
Qed.
Lemma exists_shrinks key : shrinking (λ _, True) (section (exists_ key)).
Proof.
  eapply section_shrinks; [intros; by apply exists_sim|rw /Spec.exists_; less|]. intros w Hw.
  eapply wp_mono; [by eapply sim_safe, exists_sim|done].
Qed.
Lemma ttl_shrinks key : shrinking (λ r, in_i64 r = true) (section (ttl key)).
Proof.
  eapply section_shrinks; [intros; by apply ttl_sim|rw /Spec.ttl; less|]. intros w Hw.
  eapply wp_mono; [by apply ttl_law|]. by intros r w' (_ & _ & ?).
Qed.
Lemma expire_shrinks key ttl_ms : shrinking (λ _, True) (section (expire key ttl_ms)).
Proof.
  eapply section_shrinks; [intros; by apply expire_sim|apply expire_no_more|]. intros w Hw.
  eapply wp_mono; [by eapply sim_safe, expire_sim|done].
Qed.
Lemma get_shrinks key : shrinking (λ _, True) (get_prog key).
Proof.
  assert (shrinking (λ _, True) (section (get_exclusive key))) as Hex.
  { eapply section_shrinks; [intros; by apply get_exclusive_sim|rw /get_now; less|]. intros w Hw.
    eapply wp_mono; [by eapply sim_safe, get_exclusive_sim|done]. }
  intros w Hw. destruct (shard_at w key Hw) as (sh & Hi & _). rw /get_shared /wp /bind /read_shard Hi.
  destruct (map sh !! key); cbn [now_ms].
  - destruct (is_expired _ _); (split_and!; [done|by apply shrinks_same|done]).
  - split_and!; [done|by apply shrinks_same|done].
Qed.
Lemma flush_shrinks : shrinking (λ _, True) flush_prog.
Proof.
  apply all_shards_sound. intros i w sh Hw Hi Hok. destruct (flush_locked_ok _ _ Hok) as (sh' & ? & ? & Hm & _).
  exists sh'. split_and!; [done..|]. apply (shrinks_put i sh); [done..|]. rw Hm map_size_empty. lia.
Qed.

(** Such an operation beside the maintenance thread. *)
Lemma shrinking_amid {A} N n (Q : A → Prop) (p : Prog World A) : ∀ w,
  shrinking Q p → within N n w → amid overflow_only shrinks p (λ a w', within N n w' ∧ Q a) w.
Proof.
  induction p as [a|X m k IH]; intros w Hp Hw; [done|]. cbn [keeps amid] in *.
  eapply wp_mono; [apply Hp, Hw|]. intros x w1 (H1 & H2 & H3) w2 H4. apply IH; [done|].
  exact (within_shrinks _ _ _ _ (within_shrinks _ _ _ _ Hw H2) H4).
Qed.

Lemma shrinking_sound {A} (Q : A → Prop) (p : Prog World A) :
  shrinking Q p → keeps overflow_only (λ w, store_ok (store w)) (λ _ _, True) Q p.
Proof.
  induction p as [a|X m k IH]; intros Hp; [done|]. cbn [keeps] in *. intros w Hw.
  eapply wp_mono; [by apply Hp|]. intros x w' (? & _ & ?). auto.
Qed.

(** ** Requests *)

Section Requests.
Context (cfg : Config) (d0 : Disk) (N : Z) (HN : 1 ≤ N).

(** The store the handlers see, but for INCR. *)
Definition bounded_ops : Commands.StoreOps Shared := {|
  Commands.st_set := Commands.st_set;
  Commands.st_get := Commands.st_get;
  Commands.st_del := Commands.st_del;
  Commands.st_exists := Commands.st_exists;
  Commands.st_ttl := Commands.st_ttl;
  Commands.st_expire := Commands.st_expire;
  Commands.st_incr _ := fail (Undef SignedOverflow);
  Commands.st_keys := Commands.st_keys;
  Commands.st_flush := Commands.st_flush;
  Commands.st_size := Commands.st_size
|}.

(** The invariant of the shared store, and the bound. *)
Definition bounded (sh : Shared) : Prop := shared_ok cfg d0 sh ∧ within N N (shared_world sh).

Lemma beside_bounded {A} (Q : A → Prop) (p : Prog World A) sh :
  shrinking Q p → bounded sh → wp overflow_only (beside p) (λ a sh', bounded sh' ∧ Q a) sh.
Proof.
  intros Hp [Hsh Hw]. eapply wp_mono; [apply (beside_amid cfg d0 Q p (λ a w, within N N w ∧ Q a)); [done|by apply shrinking_sound|]|].
  - intros w H. apply shrinking_amid; [done|]. by eapply within_shrinks.
  - intros a sh' (? & ? & ?). done.
Qed.

Lemma beside_quiet {A} (p : Prog World A) sh :
  shrinking (λ _, True) p → bounded sh → wp overflow_only (beside p) (λ _ sh', bounded sh') sh.
Proof. intros Hp Hb. eapply wp_mono; [by eapply beside_bounded|]. by intros a sh' []. Qed.

#[refine] Instance bounded_safe : StoreSafe Shared (ops := bounded_ops) := {| st_inv := bounded |}.
Proof.
  all: intros; cbn [bounded_ops shared_ops Commands.st_set Commands.st_get Commands.st_del Commands.st_exists Commands.st_ttl
    Commands.st_expire Commands.st_incr Commands.st_keys Commands.st_flush Commands.st_size].
  - match goal with H : bounded _ |- _ => destruct H as [Hsh Hw] end.
    apply (beside_amid cfg d0 (λ _, True) _ (λ _ w, within N N w)); [done|apply set_sound|].
    intros w' H. apply set_beside; [done|]. by eapply within_shrinks.
  - by apply beside_quiet; [apply get_shrinks|].
  - by apply beside_quiet; [apply del_shrinks|].
  - by apply beside_quiet; [apply exists_shrinks|].
  - by apply beside_bounded; [apply ttl_shrinks|].
  - by apply beside_quiet; [apply expire_shrinks|].
  - done.
  - by apply beside_quiet; [apply keys_sound, shrinks_same|].
  - by apply beside_quiet; [apply flush_shrinks|].
  - by apply beside_quiet; [apply size_sound, shrinks_same|].
Defined.

End Requests.

Context {cc : Commands.Compiler}.
Import EventLoopThms.

Lemma agree_off {A} (i j : bytes) (m1 m2 : gmap bytes A) :
  base.delete i m1 = base.delete i m2 → j ≠ i → m1 !! j = m2 !! j.
Proof. intros H Hne. apply (f_equal (lookup j)) in H. by rw !lookup_delete_ne in H. Qed.

(** No other handler calls [incr]. *)
Lemma same_handlers cmd :
  cmd ≠ bs "incr" →
  Commands.new_dispatcher (ops := bounded_ops) !! cmd = Commands.new_dispatcher (ops := shared_ops) !! cmd.
Proof.
  intros Hne. by apply (agree_off (bs "incr")); [reflexivity|].
Qed.

(** A request that is not INCR. *)
Definition spares_incr (req : RespValue) : Prop :=
  ∀ name, Commands.arg req 0 = Ret name → tolower <$> str name ≠ bs "incr".

Lemma dispatch_cong (d d' : Commands.Dispatcher (W := Shared)) req sh :
  (∀ name, Commands.arg req 0 = Ret name → d !! (tolower <$> str name) = d' !! (tolower <$> str name)) →
  Commands.dispatch d req sh = Commands.dispatch d' req sh.
Proof.
  intros H. rw /Commands.dispatch. destruct (_ || _); [done|]. rw /bind /lift.
  destruct (Commands.arg req 0) as [name|]; [|done]. by rw (H _ eq_refl).
Qed.

Lemma dispatch_same req sh :
  spares_incr req →
  Commands.dispatch (Commands.new_dispatcher (ops := bounded_ops)) req sh =
  Commands.dispatch (Commands.new_dispatcher (ops := shared_ops)) req sh.
Proof. intros Hname. apply dispatch_cong. intros name Ha. exact (same_handlers _ (Hname _ Ha)). Qed.

Lemma dispatch_bounded cfg d0 N req sh :
  1 ≤ N → spares_incr req → bounded cfg d0 N sh →
  wp handler_fault (Commands.dispatch Commands.new_dispatcher req) (λ _ sh', bounded cfg d0 N sh') sh.
Proof.
  intros HN Hname Hb. pose proof (dispatch_ok (ops := bounded_ops) (safe := bounded_safe cfg d0 N HN) req sh Hb) as H.
  rw /wp dispatch_same // in H. rw /wp. by destruct (Commands.dispatch _ _ _) as [[r sh']|f]; [destruct H|].
Qed.

Lemma run_cmds_bounded cfg d0 N cmds : ∀ sh,
  1 ≤ N → Forall (λ c, spares_incr (RespThms.command_value c)) cmds → bounded cfg d0 N sh →
  wp handler_fault (run_cmds cmds) (λ _ sh', bounded cfg d0 N sh') sh.
Proof.
  induction cmds as [|c cmds IH]; intros sh HN Hc Hb; cbn [run_cmds]; wp_go; [done|]. apply Forall_cons in Hc as [Hc Hcs].
  eapply wp_mono; [by apply dispatch_bounded|]. intros r sh1 H1. wp_go. eapply wp_mono; [by apply IH|].
  intros rs sh2 H2. by wp_go.
Qed.

Lemma run_requests_bounded cfg d0 N reqs : ∀ sh,
  1 ≤ N → Forall (λ r, Forall (λ c, spares_incr (RespThms.command_value c)) r.2) reqs → bounded cfg d0 N sh →
  wp handler_fault (run_requests reqs) (λ _ sh', bounded cfg d0 N sh') sh.
Proof.
  induction reqs as [|r reqs IH]; intros sh HN Hc Hb; cbn [run_requests]; wp_go; [done|]. apply Forall_cons in Hc as [Hc Hcs].
  eapply wp_mono; [by apply run_cmds_bounded|]. intros x sh1 H1. wp_go. eapply wp_mono; [by apply IH|].
  intros rs sh2 H2. by wp_go.
Qed.

(** C17: requests keep the store within its capacity, INCR excepted.  Whatever
    requests of whatever clients are executed one after the other, and wherever
    sections of the maintenance thread fall between those of their operations: if
    [max_keys] is at least 1 and the store holds no more than [max_keys] entries
    before them, it holds no more afterwards. *)
Theorem requests_within_capacity cfg d0 sh reqs :
  shared_ok cfg d0 sh → 1 ≤ max_keys_ (store (shared_world sh)) →
  size_of (store (shared_world sh)) ≤ max_keys_ (store (shared_world sh)) →
  Forall (λ r, Forall (λ c, spares_incr (RespThms.command_value c)) r.2) reqs →
  match run_requests reqs sh with
  | Ret (_, sh') => shared_ok cfg d0 sh' ∧
      max_keys_ (store (shared_world sh')) = max_keys_ (store (shared_world sh)) ∧
      size_of (store (shared_world sh')) ≤ max_keys_ (store (shared_world sh))
  | Fail f => handler_fault f
  end.
Proof.
  intros Hsh HN Hsize Hreqs. set (N := max_keys_ (store (shared_world sh))) in *.
  assert (bounded cfg d0 N sh) as Hb.
  { split; [done|]. split; [apply (h_site _ _ _ Hsh)|done|]. by rw -size_of_sizes. }
  pose proof (run_requests_bounded cfg d0 N reqs sh HN Hreqs Hb) as H. rw /wp in H. revert H.
  destruct (run_requests reqs sh) as [[r sh']|f]; [|done].
  intros (? & [_ Hm Hs]). split_and!; [done..|]. by rw size_of_sizes.
Qed.

End Thms.

(** ** A concrete request *)

Module Demo.
Import EventLoopThms StoreThms.Demo PersistenceThms.Demo MaintenanceThms.Demo.
#[local] Existing Instances demo_platform demo_io Commands.demo_compiler.

Definition demo_reqs : list Request :=
  [(5, [[bs "SET"; bs "new"; bs "1"]; [bs "INCRBY"; bs "other"; bs "4"]]); (6, [[bs "SET"; bs "last"; bs "2"]])].

Lemma requests_within_capacity_witness :
  match run_requests demo_reqs demo_shared with
  | Ret (_, sh') => shared_ok default_config ∅ sh' ∧ max_keys_ (store (shared_world sh')) = 2 ∧
      size_of (store (shared_world sh')) ≤ 2
  | Fail f => handler_fault f
  end.
Proof.
  apply (requests_within_capacity default_config ∅ demo_shared demo_reqs demo_shared_ok);
    [vm_compute; discriminate|vm_compute; discriminate|].
  repeat constructor; intros name [= <-]; vm_compute; discriminate.
Defined.
End Demo.

End Capacity.
