(* ===== verification/Double.v ===== *)
(** Binary64 arithmetic, for the averages of the metrics.

    A finite [double] is the rational number it stands for, and an operation is
    the exact one followed by [rn], IEEE 754's rounding to nearest, ties to
    even: 53 significant bits, or the multiples of 2^-1074 below the normal
    range.  Overflow to infinity is left out: the numbers of the metrics stay
    far below 2^1024. *)

From S2P Require Import Prelude.
From Stdlib Require Export QArith Qround Qabs Qpower.
From Stdlib Require Import Lqa Qreduction.

#[local] Open Scope Q_scope.

Module Double.

Definition double : Type := Q.

Definition pow2 (e : Z) : Q := Qpower 2 e.

(** The nearest integer, the even one of two. *)
Definition half_even (q : Q) : Z :=
  let f := Qfloor q in
  match Qcompare (q - inject_Z f) (1 # 2) with
  | Lt => f
  | Gt => (f + 1)%Z
  | Eq => if Z.even f then f else (f + 1)%Z
  end.

(** The exponent of a positive number: [pow2 (ilog2 q) <= q < pow2 (ilog2 q + 1)]. *)
Definition ilog2 (q : Q) : Z :=
  let k := (Z.log2 (Qnum q) - Z.log2 (QDen q))%Z in
  if Qle_bool (pow2 k) q then k else (k - 1)%Z.

(** The exponent of the last bit. *)
Definition ulp_exp (q : Q) : Z := Z.max (ilog2 q - 52) (-1074).

Definition rn_pos (q : Q) : Q :=
  let e := ulp_exp q in Qred (inject_Z (half_even (q * pow2 (- e))) * pow2 e).

Definition rn (q : Q) : double :=
  match Qcompare q 0 with
  | Eq => 0
  | Gt => rn_pos q
  | Lt => - rn_pos (- q)
  end.

(** [static_cast<double>(z)] *)
Definition of_int (z : Z) : double := rn (inject_Z z).

(** [static_cast<int64_t>(d)]: the fraction is dropped; a number out of range is
    undefined behaviour. *)
Definition to_int (d : double) : outcome Z :=
  let z := Z.quot (Qnum d) (QDen d) in
  if in_i64 z then Ret z else Fail (Undef FloatToInt).

Definition dadd (x y : double) : double := rn (x + y).
Definition dsub (x y : double) : double := rn (x - y).
Definition dmul (x y : double) : double := rn (x * y).
Definition ddiv (x y : double) : double := rn (x / y).

(** Whether the compiler fuses a product into the addition that follows it, so
    that the product is not rounded. *)
Inductive contraction := Separate | FuseLeft | FuseRight.
Class FpContract := fp_contract : contraction.

(** [a * b + c * d] *)
Definition sum_of_products {fp : FpContract} (a b c d : double) : double :=
  match fp_contract with
  | Separate => dadd (dmul a b) (dmul c d)
  | FuseLeft => rn (a * b + dmul c d)
  | FuseRight => rn (dmul a b + c * d)
  end.

(** ** Error bounds *)

Lemma pow2_pos e : 0 < pow2 e.
Proof. apply Qpower_0_lt. reflexivity. Qed.

Lemma pow2_add a b : pow2 (a + b) == pow2 a * pow2 b.
Proof. apply Qpower_plus. discriminate. Qed.

Lemma pow2_inj (e : Z) : (0 <= e)%Z → pow2 e == inject_Z (2 ^ e).
Proof. intros. symmetry. by apply Zpower_Qpower. Qed.

Lemma half_even_near q : Qabs (inject_Z (half_even q) - q) <= 1 # 2.
Proof.
  pose proof (Qfloor_le q) as Hle. pose proof (Qlt_floor q) as Hlt. rw inject_Z_plus in Hlt.
  change (inject_Z 1) with 1 in Hlt.
  assert (∀ z, - (1 # 2) <= inject_Z z - q <= 1 # 2 → Qabs (inject_Z z - q) <= 1 # 2) as Hin.
  { intros z [H1 H2]. by apply Qabs_Qle_condition. }
  rw /half_even. apply Hin.
  destruct (Qcompare_spec (q - inject_Z (Qfloor q)) (1 # 2)); [destruct (Z.even _)|..];
    rw ?inject_Z_plus; change (inject_Z 1) with 1; split; lra.
Qed.

Lemma half_even_nonneg q : 0 <= q → (0 <= half_even q)%Z.
Proof.
  intros Hq. assert (0 <= Qfloor q)%Z. { change 0%Z with (Qfloor 0). by apply Qfloor_resp_le. }
  rw /half_even. destruct (_ ?= _); [destruct (Z.even _)|..]; lia.
Qed.

Lemma ilog2_spec q : 0 < q → pow2 (ilog2 q) <= q < pow2 (ilog2 q + 1).
Proof.
  intros Hq. assert (0 < Qnum q)%Z as Hn by (rw /Qlt /= in Hq; lia).
  set (a := Z.log2 (Qnum q)). set (b := Z.log2 (QDen q)).
  pose proof (Z.log2_spec (Qnum q) Hn) as [Ha1 Ha2]. pose proof (Z.log2_spec (QDen q) ltac:(lia)) as [Hb1 Hb2].
  pose proof (Z.log2_nonneg (Qnum q)) as Ha0. pose proof (Z.log2_nonneg (QDen q)) as Hb0.
  assert (q * inject_Z (QDen q) == inject_Z (Qnum q)) as Hqd.
  { rw /Qeq /=. lia. }
  assert (pow2 a <= inject_Z (Qnum q)) as HA1 by (rw (pow2_inj _ Ha0) -Zle_Qle //).
  assert (inject_Z (Qnum q) < pow2 (a + 1)) as HA2 by (rw (pow2_inj (a + 1) ltac:(lia)) -Zlt_Qlt //).
  assert (pow2 b <= inject_Z (QDen q)) as HB1 by (rw (pow2_inj _ Hb0) -Zle_Qle //).
  assert (inject_Z (QDen q) < pow2 (b + 1)) as HB2 by (rw (pow2_inj (b + 1) ltac:(lia)) -Zlt_Qlt //).
  rw pow2_add in HA2. rw pow2_add in HB2. change (pow2 1) with 2 in HA2, HB2.
  assert (pow2 a == pow2 (a - b) * pow2 b) as Hab by (rw -pow2_add; by replace (a - b + b)%Z with a by lia).
  rw Hab in HA1 HA2. pose proof (pow2_pos (a - b)) as HP. pose proof (pow2_pos b) as Hb'.
  assert (q < pow2 (a - b) * 2) as Hup.
  { apply (Qmult_lt_r _ _ (inject_Z (QDen q))); [lra|]. nra. }
  assert (pow2 (a - b) <= q * 2) as Hlo.
  { apply (Qmult_lt_0_le_reg_r _ _ (inject_Z (QDen q))); [lra|]. nra. }
  rw /ilog2 -/a -/b. destruct (Qle_bool _ q) eqn:Hk.
  - apply Qle_bool_iff in Hk. rw pow2_add. by split.
  - assert (q < pow2 (a - b)) as Hlt. { apply Qnot_le_lt. intros ?%Qle_bool_iff. congruence. }
    rw (pow2_add (a - b - 1) 1). change (pow2 1) with 2.
    assert (pow2 (a - b) == pow2 (a - b - 1) * 2) as Hh.
    { change 2 with (pow2 1). rw -pow2_add. by replace (a - b - 1 + 1)%Z with (a - b)%Z by lia. }
    rw Hh in Hlt Hlo. split; lra.
Qed.

Lemma rn_pos_nonneg q : 0 <= q → 0 <= rn_pos q.
Proof.
  intros Hq. rw /rn_pos Qred_correct. pose proof (pow2_pos (ulp_exp q)). pose proof (pow2_pos (- ulp_exp q)).
  apply Qmult_le_0_compat; [|lra]. change 0 with (inject_Z 0). rw -Zle_Qle. apply half_even_nonneg.
  apply Qmult_le_0_compat; lra.
Qed.

Definition tiny : Q := pow2 (-1075).
Definition unit_roundoff : Q := 1 # 9007199254740992.

Lemma rn_pos_error q : 0 < q → Qabs (rn_pos q - q) <= unit_roundoff * q + tiny.
Proof.
  intros Hq. destruct (ilog2_spec q Hq) as [Hl _]. rw /rn_pos Qred_correct.
  set (e := ulp_exp q). pose proof (pow2_pos e) as He.
  assert (pow2 (- e) * pow2 e == 1) as Hinv by (rw -pow2_add; by replace (- e + e)%Z with 0%Z by lia).
  pose proof (half_even_near (q * pow2 (- e))) as Hn. apply Qabs_Qle_condition in Hn as [Hn1 Hn2].
  assert (pow2 e * (1 # 2) <= unit_roundoff * q + tiny) as Hb.
  { pose proof (pow2_pos (-1075)). rw /tiny. destruct (Z.max_spec (ilog2 q - 52) (-1074)) as [[_ Hm]|[_ Hm]].
    - rw /e /ulp_exp Hm. change (-1074)%Z with (-1075 + 1)%Z. rw pow2_add. change (pow2 1) with 2.
      assert (0 <= unit_roundoff * q). { apply Qmult_le_0_compat; [discriminate|lra]. } lra.
    - rw /e /ulp_exp Hm. change (ilog2 q - 52)%Z with (ilog2 q + - 52)%Z. rw pow2_add.
      assert (pow2 (-52) * (1 # 2) == unit_roundoff) as Hu by reflexivity.
      assert (pow2 (ilog2 q) * pow2 (-52) * (1 # 2) == unit_roundoff * pow2 (ilog2 q)) as -> by (rw -Hu; ring).
      rw /unit_roundoff. lra. }
  set (m := inject_Z (half_even (q * pow2 (- e)))) in *.
  assert (m * pow2 e - q == (m - q * pow2 (- e)) * pow2 e) as ->.
  { rw -{1}(Qmult_1_r q) -Hinv. ring. }
  apply Qabs_Qle_condition. split; nra.
Qed.

Lemma rn_error q : Qabs (rn q - q) <= unit_roundoff * Qabs q + tiny.
Proof.
  rw /rn. destruct (Qcompare_spec q 0) as [Hq|Hq|Hq].
  - rw Hq. change (Qabs (0 - 0)) with 0. change (Qabs 0) with 0. pose proof (pow2_pos (-1075)). rw /tiny. lra.
  - rw (Qabs_neg q); [lra|]. assert (- rn_pos (- q) - q == - (rn_pos (- q) - - q)) as -> by ring.
    rw Qabs_opp. apply rn_pos_error. lra.
  - rw (Qabs_pos q); [lra|]. by apply rn_pos_error.
Qed.

Lemma rn_nonneg q : 0 <= q → 0 <= rn q.
Proof.
  intros Hq. rw /rn. destruct (Qcompare_spec q 0); [lra|lra|]. by apply rn_pos_nonneg.
Qed.

(** The absolute error of a rounding, for numbers up to a bound. *)
Lemma rn_abs b q : 0 <= q <= b → - (unit_roundoff * b + tiny) <= rn q - q <= unit_roundoff * b + tiny.
Proof.
  intros [H0 Hb]. pose proof (rn_error q) as He. rw (Qabs_pos q H0) in He.
  apply Qabs_Qle_condition in He. rw /unit_roundoff in He |- *. lra.
Qed.

Lemma tiny_small : 0 < tiny < 1 # 1000000.
Proof. split; reflexivity. Qed.

(** The conversion of a number that fits. *)
Lemma to_int_floor d :
  0 <= d → d < inject_Z (2 ^ 63) →
  ∃ z, to_int d = Ret z ∧ inject_Z z <= d ∧ d < inject_Z z + 1.
Proof.
  intros H0 Hlt. exists (Qfloor d). pose proof (Qfloor_le d) as Hle. pose proof (Qlt_floor d) as Hl.
  rw inject_Z_plus in Hl. split; [|done].
  assert (0 <= Qfloor d < 2 ^ 63)%Z as Hr.
  { split; [change 0%Z with (Qfloor 0); by apply Qfloor_resp_le|]. rw Zlt_Qlt. lra. }
  rw /to_int. destruct d as [n m]. rw /Qle /= in H0. cbn [Qnum Qden].
  rw Z.quot_div_nonneg; [lia..|]. change (n / Z.pos m)%Z with (Qfloor (n # m)).
  by rw (proj2 (in_i64_spec _)); [lia|].
Qed.

(** ** Exact results *)

Lemma half_even_le q n : q <= inject_Z n → (half_even q <= n)%Z.
Proof.
  intros Hq. pose proof (Qfloor_le q) as Hle.
  assert (Qfloor q <= n)%Z as Hf. { rw -(Qfloor_Z n). by apply Qfloor_resp_le. }
  destruct (Z.eq_dec (Qfloor q) n) as [He|Hne].
  - rw /half_even He. rw He in Hle. assert (q == inject_Z n) as Hqe by lra.
    destruct (Qcompare_spec (q - inject_Z n) (1 # 2)); lra || lia.
  - rw /half_even. destruct (_ ?= _); [destruct (Z.even _)|..]; lia.
Qed.

Lemma half_even_int q n : q == inject_Z n → half_even q = n.
Proof.
  intros Hq. assert (Qfloor q = n) as Hf by (rw (Qfloor_comp _ _ Hq); apply Qfloor_Z).
  rw /half_even Hf. destruct (Qcompare_spec (q - inject_Z n) (1 # 2)); lra || done.
Qed.

Lemma pow2_le_inv a b : pow2 a < pow2 b → (a < b)%Z.
Proof.
  intros H. destruct (Z.lt_ge_cases a b) as [|Hge]; [done|]. exfalso.
  assert (pow2 a == pow2 b * pow2 (a - b)) as He by (rw -pow2_add; by replace (b + (a - b))%Z with a by lia).
  assert (1 <= pow2 (a - b)) as H1. { rw pow2_inj; [lia|]. change 1 with (inject_Z 1). rw -Zle_Qle. lia. }
  pose proof (pow2_pos b). nra.
Qed.

(** A number up to one rounds to a number up to one. *)
Lemma rn_le_one q : 0 <= q → q <= 1 → rn q <= 1.
Proof.
  intros H0 H1. rw /rn. destruct (Qcompare_spec q 0) as [|?|Hq]; [lra|lra|].
  destruct (ilog2_spec q Hq) as [Hl _].
  assert (ilog2 q < 1)%Z. { apply pow2_le_inv. change (pow2 1) with 2. lra. }
  rw /rn_pos Qred_correct. set (e := ulp_exp q). assert (e <= 0)%Z as He by (rw /e /ulp_exp; lia).
  pose proof (pow2_pos e) as Pe. pose proof (pow2_pos (- e)) as Pe'.
  assert (pow2 (- e) * pow2 e == 1) as Hinv by (rw -pow2_add; by replace (- e + e)%Z with 0%Z by lia).
  assert (half_even (q * pow2 (- e)) <= 2 ^ (- e))%Z as Hm.
  { apply half_even_le. rw -pow2_inj; [lia|]. nra. }
  rw Zle_Qle -pow2_inj in Hm; [lia|]. nra.
Qed.

(** An integer of at most 53 bits is a double. *)
Lemma of_int_exact z : (0 <= z < 2 ^ 53)%Z → of_int z == inject_Z z.
Proof.
  intros Hz. rw /of_int /rn. destruct (Qcompare_spec (inject_Z z) 0) as [He|Hlt|Hq]; [by rw He| |].
  { exfalso. change 0 with (inject_Z 0) in Hlt. rw -Zlt_Qlt in Hlt. lia. }
  destruct (ilog2_spec _ Hq) as [Hl _].
  assert (ilog2 (inject_Z z) < 53)%Z.
  { apply pow2_le_inv. rw (pow2_inj 53); [lia|]. assert (inject_Z z < inject_Z (2 ^ 53)) by (rw -Zlt_Qlt; lia). lra. }
  rw /rn_pos Qred_correct. set (e := ulp_exp (inject_Z z)). assert (e <= 0)%Z as He by (rw /e /ulp_exp; lia).
  rw (half_even_int _ (z * 2 ^ (- e))%Z).
  - rw inject_Z_mult pow2_inj; [lia|done].
  - rw inject_Z_mult -pow2_inj; [lia|]. rw -Qmult_assoc -pow2_add.
    replace (- e + e)%Z with 0%Z by lia. change (pow2 0) with 1. ring.
Qed.

(** A share of a whole is between zero and one. *)
Lemma ratio_bounds a b : (0 <= a <= b)%Z → (0 < b < 2 ^ 53)%Z → 0 <= ddiv (of_int a) (of_int b) <= 1.
Proof.
  intros Ha Hb. pose proof (of_int_exact a ltac:(lia)) as Ea. pose proof (of_int_exact b ltac:(lia)) as Eb.
  assert (0 < inject_Z b) as Pb by (change 0 with (inject_Z 0); rw -Zlt_Qlt; lia).
  assert (0 <= inject_Z a) as Pa by (change 0 with (inject_Z 0); rw -Zle_Qle; lia).
  assert (inject_Z a <= inject_Z b) as Hab by (rw -Zle_Qle; lia).
  assert (0 <= of_int a / of_int b) as H0. { rw Ea Eb. apply Qle_shift_div_l; lra. }
  assert (of_int a / of_int b <= 1) as H1. { rw Ea Eb. apply Qle_shift_div_r; lra. }
  rw /ddiv. split; [by apply rn_nonneg|by apply rn_le_one].
Qed.

End Double.
