(* ===== verification/Metrics.v ===== *)
(** The counters: src/metrics/Metrics.{hpp,cpp}.

    Each atomic is a field; [fetch_add] and [fetch_sub] wrap around, as atomics
    do, while the arithmetic of [snapshot] is on plain [int64_t].  The text of
    a [double] is fmt's, a parameter. *)

From S2P Require Import Prelude Double.
#[local] Open Scope Z_scope.

Module Metrics.
Import Double.

Record Metrics := mkMetrics {
  total_commands_ : Z;
  total_hits_ : Z;
  total_misses_ : Z;
  active_connections_ : Z;
  total_connections_ : Z;
  memory_bytes_ : Z;
  key_count_ : Z;
  latency_ema_x100_ : Z;
  commands_per_sec_ : Z;
  last_cmd_snapshot_ : Z;
  last_snapshot_time_ms_ : Z
}.

(** [Metrics::Metrics] *)
Definition new_metrics : Metrics := mkMetrics 0 0 0 0 0 0 0 0 0 0 0.

(** [fetch_add] and [fetch_sub] *)
Definition fetch_add (z n : Z) : Z := i64 (z + n).

Section Ops.
Context {fp : FpContract}.

(** 0.05, 1.0 - 0.05 and 100.0 *)
Definition alpha : double := Eval vm_compute in rn (5 # 100).
Definition one_minus_alpha : double := Eval vm_compute in dsub 1%Q alpha.
Definition hundred : double := 100 # 1.

(** [Metrics::update_latency_ema], on the value of [latency_ema_x100_] *)
Definition update_latency_ema (sample_us : double) (old : Z) : outcome Z :=
  let ema := ddiv (of_int old) hundred in
  let ema := sum_of_products alpha sample_us one_minus_alpha ema in
  to_int (dmul ema hundred).

Definition with_ema (z : Z) (m : Metrics) : Metrics :=
  mkMetrics (total_commands_ m) (total_hits_ m) (total_misses_ m) (active_connections_ m)
    (total_connections_ m) (memory_bytes_ m) (key_count_ m) z (commands_per_sec_ m)
    (last_cmd_snapshot_ m) (last_snapshot_time_ms_ m).

(** [Metrics::record_command] *)
Definition record_command (latency_us : Z) (m : Metrics) : outcome Metrics :=
  let m := mkMetrics (fetch_add (total_commands_ m) 1) (total_hits_ m) (total_misses_ m)
    (active_connections_ m) (total_connections_ m) (memory_bytes_ m) (key_count_ m)
    (latency_ema_x100_ m) (commands_per_sec_ m) (last_cmd_snapshot_ m) (last_snapshot_time_ms_ m) in
  let? z := update_latency_ema (of_int latency_us) (latency_ema_x100_ m) in
  Ret (with_ema z m).

(** [Metrics::record_cache_hit], [Metrics::record_cache_miss] *)
Definition record_cache_hit (m : Metrics) : Metrics :=
  mkMetrics (total_commands_ m) (fetch_add (total_hits_ m) 1) (total_misses_ m) (active_connections_ m)
    (total_connections_ m) (memory_bytes_ m) (key_count_ m) (latency_ema_x100_ m) (commands_per_sec_ m)
    (last_cmd_snapshot_ m) (last_snapshot_time_ms_ m).
Definition record_cache_miss (m : Metrics) : Metrics :=
  mkMetrics (total_commands_ m) (total_hits_ m) (fetch_add (total_misses_ m) 1) (active_connections_ m)
    (total_connections_ m) (memory_bytes_ m) (key_count_ m) (latency_ema_x100_ m) (commands_per_sec_ m)
    (last_cmd_snapshot_ m) (last_snapshot_time_ms_ m).

(** [Metrics::record_connection_open], [Metrics::record_connection_close] *)
Definition record_connection_open (m : Metrics) : Metrics :=
  mkMetrics (total_commands_ m) (total_hits_ m) (total_misses_ m) (fetch_add (active_connections_ m) 1)
    (fetch_add (total_connections_ m) 1) (memory_bytes_ m) (key_count_ m) (latency_ema_x100_ m)
    (commands_per_sec_ m) (last_cmd_snapshot_ m) (last_snapshot_time_ms_ m).
Definition record_connection_close (m : Metrics) : Metrics :=
  mkMetrics (total_commands_ m) (total_hits_ m) (total_misses_ m) (fetch_add (active_connections_ m) (-1))
    (total_connections_ m) (memory_bytes_ m) (key_count_ m) (latency_ema_x100_ m) (commands_per_sec_ m)
    (last_cmd_snapshot_ m) (last_snapshot_time_ms_ m).

(** [Metrics::set_memory_bytes], [Metrics::set_key_count] *)
Definition set_memory_bytes (bytes : Z) (m : Metrics) : Metrics :=
  mkMetrics (total_commands_ m) (total_hits_ m) (total_misses_ m) (active_connections_ m)
    (total_connections_ m) bytes (key_count_ m) (latency_ema_x100_ m) (commands_per_sec_ m)
    (last_cmd_snapshot_ m) (last_snapshot_time_ms_ m).
Definition set_key_count (n : Z) (m : Metrics) : Metrics :=
  mkMetrics (total_commands_ m) (total_hits_ m) (total_misses_ m) (active_connections_ m)
    (total_connections_ m) (memory_bytes_ m) n (latency_ema_x100_ m) (commands_per_sec_ m)
    (last_cmd_snapshot_ m) (last_snapshot_time_ms_ m).
End Ops.

Record Snapshot := mkSnapshot {
  total_commands : Z;
  total_hits : Z;
  total_misses : Z;
  active_connections : Z;
  total_connections : Z;
  memory_bytes : Z;
  key_count : Z;
  avg_latency_us : double;
  hit_rate : double;
  commands_per_sec : Z
}.

(** [Metrics::snapshot]; [now] is its reading of the clock. *)
Definition snapshot (now : Z) (m : Metrics) : outcome (Snapshot * Metrics) :=
  let? total := checked (total_hits_ m + total_misses_ m) in
  let rate := if 0 <? total then ddiv (of_int (total_hits_ m)) (of_int total) else 0%Q in
  let? dt_ms := checked (now - last_snapshot_time_ms_ m) in
  let? r :=
    (if 100 <? dt_ms then
       let? delta_cmds := checked (total_commands_ m - last_cmd_snapshot_ m) in
       let? scaled := checked (delta_cmds * 1000) in
       Ret (Z.quot scaled dt_ms,
            mkMetrics (total_commands_ m) (total_hits_ m) (total_misses_ m) (active_connections_ m)
              (total_connections_ m) (memory_bytes_ m) (key_count_ m) (latency_ema_x100_ m)
              (commands_per_sec_ m) (total_commands_ m) now)
     else Ret (commands_per_sec_ m, m)) in
  Ret (mkSnapshot (total_commands_ m) (total_hits_ m) (total_misses_ m) (active_connections_ m)
         (total_connections_ m) (memory_bytes_ m) (key_count_ m)
         (ddiv (of_int (latency_ema_x100_ m)) hundred) rate r.1, r.2).

(** fmt's ["{:.nf}"], whose text stays on its line. *)
Class Fmt := {
  fmt_fixed : nat → double → bytes;
  fmt_fixed_line : ∀ n d, LF ∉ fmt_fixed n d
}.

Section Text.
Context {fmt : Fmt}.

Definition line (s : String.string) : bytes := bs s ++ [LF].

(** The format string of [Metrics::prometheus_text], with its arguments. *)
Definition exposition (s : Snapshot) : bytes :=
  line "# HELP cache_commands_total Total commands executed" ++
  line "# TYPE cache_commands_total counter" ++
  bs "cache_commands_total " ++ to_string (total_commands s) ++ [LF] ++
  line "# HELP cache_hits_total Total cache hits" ++
  line "# TYPE cache_hits_total counter" ++
  bs "cache_hits_total " ++ to_string (total_hits s) ++ [LF] ++
  line "# HELP cache_misses_total Total cache misses" ++
  line "# TYPE cache_misses_total counter" ++
  bs "cache_misses_total " ++ to_string (total_misses s) ++ [LF] ++
  line "# HELP cache_active_connections Current active connections" ++
  line "# TYPE cache_active_connections gauge" ++
  bs "cache_active_connections " ++ to_string (active_connections s) ++ [LF] ++
  line "# HELP cache_key_count Current number of keys" ++
  line "# TYPE cache_key_count gauge" ++
  bs "cache_key_count " ++ to_string (key_count s) ++ [LF] ++
  line "# HELP cache_memory_bytes Approximate memory usage" ++
  line "# TYPE cache_memory_bytes gauge" ++
  bs "cache_memory_bytes " ++ to_string (memory_bytes s) ++ [LF] ++
  line "# HELP cache_avg_latency_us Exponentially-weighted average command latency" ++
  line "# TYPE cache_avg_latency_us gauge" ++
  bs "cache_avg_latency_us " ++ fmt_fixed 2 (avg_latency_us s) ++ [LF] ++
  line "# HELP cache_hit_rate Cache hit rate (0-1)" ++
  line "# TYPE cache_hit_rate gauge" ++
  bs "cache_hit_rate " ++ fmt_fixed 4 (hit_rate s) ++ [LF] ++
  line "# HELP cache_commands_per_sec Commands per second" ++
  line "# TYPE cache_commands_per_sec gauge" ++
  bs "cache_commands_per_sec " ++ to_string (commands_per_sec s) ++ [LF].

(** [Metrics::prometheus_text] *)
Definition prometheus_text (now : Z) (m : Metrics) : outcome (bytes * Metrics) :=
  let? r := snapshot now m in Ret (exposition r.1, r.2).

End Text.
End Metrics.
