(* ===== verification/MetricsThms.v ===== *)
(** What the counters report: the moving average of the latency follows its
    exact definition and settles, rates and ratios are what they say, and the
    exposition text carries each value under its name. *)

From S2P Require Import Prelude Config ConfigThms Double Metrics.
From Stdlib Require Import Lqa.
#[local] Open Scope Z_scope.

Module MetricsThms.
Import Double Metrics.

(** ** The moving average *)

(** Latencies up to 2^36 microseconds, nineteen hours. *)
Definition MAX_LATENCY : Z := 2 ^ 36.

Section Ema.
Context {fp : FpContract}.

Lemma of_int_near (z b : Z) :
  0 ≤ z ≤ b → (- (unit_roundoff * inject_Z b + tiny) <= of_int z - inject_Z z
    <= unit_roundoff * inject_Z b + tiny)%Q.
Proof.
  intros Hz. apply rn_abs. change 0%Q with (inject_Z 0). rw -!Zle_Qle. lia.
Qed.

(** The sum of two products, whichever of them is rounded. *)
Lemma sum_near (a b c d bound : Q) :
  (0 <= a * b -> 0 <= c * d -> a * b + c * d <= bound -> 1 <= bound ->
   0 <= sum_of_products a b c d /\
   - (3 * (unit_roundoff * (2 * bound) + tiny)) <= sum_of_products a b c d - (a * b + c * d)
     <= 3 * (unit_roundoff * (2 * bound) + tiny))%Q.
Proof.
  intros H1 H2 Hb H0. pose proof tiny_small as [Ht1 Ht2].
  pose proof (rn_abs (2 * bound) (a * b) ltac:(lra)) as Hr1.
  pose proof (rn_abs (2 * bound) (c * d) ltac:(lra)) as Hr2.
  pose proof (rn_nonneg (a * b) H1) as Hn1. pose proof (rn_nonneg (c * d) H2) as Hn2.
  rw /unit_roundoff in Hr1 Hr2 |- *. rw /sum_of_products /dadd /dmul.
  set (x := rn (a * b)) in *. set (y := rn (c * d)) in *.
  assert (∀ s, 0 <= s -> s <= 2 * bound -> 0 <= rn s /\
    - ((1 # 9007199254740992) * (2 * bound) + tiny) <= rn s - s <= (1 # 9007199254740992) * (2 * bound) + tiny)%Q as Hs.
  { intros s Hs0 Hs1. split; [by apply rn_nonneg|]. by apply (rn_abs (2 * bound) s). }
  destruct fp_contract.
  - destruct (Hs (x + y)%Q) as [? ?]; [lra|lra|]. split; lra.
  - destruct (Hs (a * b + y)%Q) as [? ?]; [lra|lra|]. split; lra.
  - destruct (Hs (x + c * d)%Q) as [? ?]; [lra|lra|]. split; lra.
Qed.

(** One step of the average: the exact value, in hundredths, is
    [(100 * s + 19 * old) / 20]; what is stored is at most one below it. *)
Lemma ema_step s old :
  0 ≤ s ≤ MAX_LATENCY → 0 ≤ old ≤ 100 * MAX_LATENCY →
  ∃ new, update_latency_ema (of_int s) old = Ret new ∧ 0 ≤ new ∧
    100 * s + 19 * old - 20 ≤ 20 * new ≤ 100 * s + 19 * old.
Proof.
  intros Hs Ho. pose proof tiny_small as [Ht1 Ht2].
  pose proof (of_int_near s _ Hs) as Es. pose proof (of_int_near old _ Ho) as Eo.
  assert (0 <= of_int s)%Q as Ps by (apply rn_nonneg; change 0%Q with (inject_Z 0); rw -Zle_Qle; lia).
  assert (0 <= of_int old)%Q as Po by (apply rn_nonneg; change 0%Q with (inject_Z 0); rw -Zle_Qle; lia).
  assert (0 <= inject_Z s <= 68719476736 # 1)%Q as Bs.
  { change 0%Q with (inject_Z 0). change (68719476736 # 1)%Q with (inject_Z MAX_LATENCY). rw -!Zle_Qle. lia. }
  assert (0 <= inject_Z old <= 6871947673600 # 1)%Q as Bo.
  { change 0%Q with (inject_Z 0). change (6871947673600 # 1)%Q with (inject_Z (100 * MAX_LATENCY)). rw -!Zle_Qle. lia. }
  change (inject_Z MAX_LATENCY) with (68719476736 # 1)%Q in Es.
  change (inject_Z (100 * MAX_LATENCY)) with (6871947673600 # 1)%Q in Eo.
  rw /unit_roundoff in Es Eo. rw /update_latency_ema. set (S := of_int s) in *. set (O := of_int old) in *.
  assert (O / hundred == (1 # 100) * O)%Q as Hdiv by (rw /Qdiv; change (/ hundred)%Q with (1 # 100)%Q; ring).
  rw /ddiv. set (X := (O / hundred)%Q) in *. pose proof (rn_abs (137438953472 # 1) X ltac:(lra)) as EX.
  pose proof (rn_nonneg X ltac:(lra)) as PX. rw /unit_roundoff in EX. set (E := rn X) in *.
  destruct (sum_near alpha S one_minus_alpha E (137438953472 # 1)) as [PT ET];
    [rw /alpha; lra|rw /one_minus_alpha; lra|rw /alpha /one_minus_alpha; lra|lra|].
  set (T := sum_of_products alpha S one_minus_alpha E) in *. rw /alpha /one_minus_alpha /unit_roundoff in ET.
  rw /dmul. set (Y := (T * hundred)%Q). assert (Y == 100 * T)%Q as HY by (rw /Y /hundred; ring).
  pose proof (rn_abs (13743895347200 # 1) Y ltac:(lra)) as EY. pose proof (rn_nonneg Y ltac:(lra)) as PY.
  rw /unit_roundoff in EY. destruct (to_int_floor (rn Y)) as (z & -> & Hz1 & Hz2); [done| |].
  { change (inject_Z (2 ^ 63)) with (9223372036854775808 # 1)%Q. lra. }
  exists z. split; [done|]. set (R := rn Y) in *.
  assert (inject_Z (20 * z) < inject_Z (100 * s + 19 * old + 1))%Q as H1.
  { rw !inject_Z_plus !inject_Z_mult. change (inject_Z 20) with 20%Q. change (inject_Z 19) with 19%Q.
    change (inject_Z 100) with 100%Q. change (inject_Z 1) with 1%Q. lra. }
  assert (inject_Z (100 * s + 19 * old - 21) < inject_Z (20 * z))%Q as H2.
  { rw !inject_Z_plus inject_Z_opp !inject_Z_mult. change (inject_Z 20) with 20%Q.
    change (inject_Z 19) with 19%Q. change (inject_Z 100) with 100%Q. change (inject_Z 21) with 21%Q. lra. }
  assert (inject_Z (-1) < inject_Z z)%Q as H3 by (change (inject_Z (-1)) with (-(1))%Q; lra).
  rw -Zlt_Qlt in H1. rw -Zlt_Qlt in H2. rw -Zlt_Qlt in H3. lia.
Qed.

(** The invariant of the metrics a running server keeps. *)
Definition ok (m : Metrics) : Prop := 0 ≤ latency_ema_x100_ m ≤ 100 * MAX_LATENCY.

Lemma record_command_step l m :
  ok m → 0 ≤ l ≤ MAX_LATENCY →
  ∃ m', record_command l m = Ret m' ∧ ok m' ∧
    100 * l + 19 * latency_ema_x100_ m - 20 ≤ 20 * latency_ema_x100_ m' ≤ 100 * l + 19 * latency_ema_x100_ m ∧
    total_commands_ m' = fetch_add (total_commands_ m) 1.
Proof.
  intros Hm Hl. rw /record_command. cbn [latency_ema_x100_]. destruct (ema_step l _ Hl Hm) as (z & -> & Hz0 & Hz).
  cbn [obind]. eexists. split; [reflexivity|]. rw /ok /with_ema. cbn [latency_ema_x100_ total_commands_].
  rw /ok in Hm. split_and!; try lia; done.
Qed.

Lemma record_command_fault l m f : record_command l m = Fail f → f = Undef FloatToInt.
Proof.
  rw /record_command /update_latency_ema. cbn [latency_ema_x100_]. rw /to_int.
  destruct (in_i64 _); [done|]. by intros [= <-].
Qed.

(** [n] commands that all take [l] microseconds. *)
Fixpoint record_many (n : nat) (l : Z) (m : Metrics) : outcome Metrics :=
  match n with
  | O => Ret m
  | S n' => let? m' := record_command l m in record_many n' l m'
  end.

(** The distance to the limit shrinks until it is within one fifth of a microsecond. *)
Definition settled (l : Z) (m : Metrics) : Prop := 100 * l - 20 ≤ latency_ema_x100_ m ≤ 100 * l.

Lemma record_many_settles l n m :
  ok m → 0 ≤ l ≤ MAX_LATENCY → Z.abs (latency_ema_x100_ m - 100 * l) ≤ Z.of_nat n ∨ settled l m →
  ∃ m', record_many n l m = Ret m' ∧ settled l m'.
Proof.
  revert m. induction n as [|n IH]; intros m Hm Hl Hd; cbn [record_many].
  { exists m. split; [done|]. destruct Hd as [Hd|]; [|done]. rw /settled. lia. }
  destruct (record_command_step l m Hm Hl) as (m1 & -> & Hm1 & Hz & _). cbn [obind].
  apply IH; [done..|]. rw /settled in Hd |- *. lia.
Qed.

(** C34: the latency average settles.  If every command takes the same time,
    the stored average comes within a fifth of a microsecond of it, from below,
    after at most as many commands as it was hundredths of a microsecond away,
    and stays there; however products and sums are fused. *)
Theorem latency_average_settles l n m :
  ok m → 0 ≤ l ≤ MAX_LATENCY → Z.abs (latency_ema_x100_ m - 100 * l) ≤ Z.of_nat n →
  ∃ m', record_many n l m = Ret m' ∧ 100 * l - 20 ≤ latency_ema_x100_ m' ≤ 100 * l.
Proof. intros Hm Hl Hd. apply record_many_settles; [done..|by left]. Qed.

(** C32: one command moves the latency average by the rule.  With weight one
    twentieth for the new latency the exact average in hundredths of a
    microsecond is [(100 * l + 19 * old) / 20]; rounding and truncation lose
    at most one hundredth, the result stays within the bounds of the samples,
    and the conversion back to an integer never overflows. *)
Theorem latency_average_step l m :
  ok m → 0 ≤ l ≤ MAX_LATENCY →
  ∃ m', record_command l m = Ret m' ∧ ok m' ∧
    100 * l + 19 * latency_ema_x100_ m - 20 ≤ 20 * latency_ema_x100_ m' ≤ 100 * l + 19 * latency_ema_x100_ m ∧
    total_commands_ m' = i64 (total_commands_ m + 1).
Proof. apply record_command_step. Qed.
End Ema.

(** ** Snapshots *)

(** Counters of a server that has run for less than 2^53 commands. *)
Record countable (now : Z) (m : Metrics) : Prop := {
  c_cmds : 0 ≤ last_cmd_snapshot_ m ≤ total_commands_ m ∧ total_commands_ m < 2 ^ 53;
  c_hits : 0 ≤ total_hits_ m ∧ 0 ≤ total_misses_ m ∧ total_hits_ m + total_misses_ m < 2 ^ 53;
  c_time : 0 ≤ last_snapshot_time_ms_ m < 2 ^ 53 ∧ 0 ≤ now < 2 ^ 53
}.

Lemma checked_small z : - 2 ^ 63 ≤ z < 2 ^ 63 → checked z = Ret z.
Proof. intros Hz. by rw /checked (proj2 (in_i64_spec z) Hz). Qed.

Lemma snapshot_total now m : countable now m → ∃ s m', snapshot now m = Ret (s, m').
Proof.
  intros [Hc Hh Ht]. rw /snapshot (checked_small (_ + _)); [lia|]. cbn [obind].
  rw (checked_small (now - _)); [lia|]. cbn [obind].
  destruct (Z.ltb_spec 100 (now - last_snapshot_time_ms_ m)) as [Hdt|Hdt]; cbn [obind]; [|eauto].
  rw checked_small; [lia|]. cbn [obind]. rw checked_small; [lia|]. cbn [obind]. eauto.
Qed.

(** A snapshot reports the counters as they are.  It cannot overflow; the
    hit rate is a number between zero and one; more than 100 ms after the last
    one, the rate is the whole number of commands per second since then and
    the snapshot becomes the new reference, and no counter changes. *)
Theorem snapshot_reports now m :
  countable now m →
  ∃ s m', snapshot now m = Ret (s, m') ∧
    total_commands s = total_commands_ m ∧ total_hits s = total_hits_ m ∧ total_misses s = total_misses_ m ∧
    active_connections s = active_connections_ m ∧ key_count s = key_count_ m ∧
    (0 <= hit_rate s <= 1)%Q ∧
    let dt := now - last_snapshot_time_ms_ m in
    if 100 <? dt
    then commands_per_sec s = (total_commands_ m - last_cmd_snapshot_ m) * 1000 / dt ∧
         last_cmd_snapshot_ m' = total_commands_ m ∧ last_snapshot_time_ms_ m' = now ∧ countable now m'
    else commands_per_sec s = commands_per_sec_ m ∧ m' = m.
Proof.
  intros [Hc Hh Ht]. rw /snapshot. rw (checked_small (_ + _)); [lia|]. cbn [obind].
  rw (checked_small (now - _)); [lia|]. cbn [obind].
  assert (0 <= (if 0 <? total_hits_ m + total_misses_ m
    then ddiv (of_int (total_hits_ m)) (of_int (total_hits_ m + total_misses_ m)) else 0) <= 1)%Q as Hrate.
  { destruct (Z.ltb_spec 0 (total_hits_ m + total_misses_ m)); [|split; discriminate].
    apply ratio_bounds; lia. }
  destruct Hrate as [Hr0 Hr1].
  destruct (Z.ltb_spec 100 (now - last_snapshot_time_ms_ m)) as [Hdt|Hdt]; cbn [obind].
  - rw checked_small; [lia|]. cbn [obind]. rw checked_small; [lia|]. cbn [obind]. do 2 eexists. split; [reflexivity|].
    cbn [total_commands total_hits total_misses active_connections key_count hit_rate commands_per_sec fst snd
      last_cmd_snapshot_ last_snapshot_time_ms_].
    split_and!; try done; [by rw Z.quot_div_nonneg; lia|]. split; cbn; lia.
  - do 2 eexists. split; [reflexivity|]. by split_and!.
Qed.

(** What happens to the metrics over the life of a server. *)
Inductive MetricOp :=
  | OpCommand (latency_us : Z)
  | OpHit | OpMiss | OpOpen | OpClose
  | OpMemory (bytes : Z)
  | OpKeys (n : Z)
  | OpSnapshot (now : Z).

Definition apply_op {fp : FpContract} (m : Metrics) (op : MetricOp) : outcome Metrics :=
  match op with
  | OpCommand l => record_command l m
  | OpHit => Ret (record_cache_hit m)
  | OpMiss => Ret (record_cache_miss m)
  | OpOpen => Ret (record_connection_open m)
  | OpClose => Ret (record_connection_close m)
  | OpMemory b => Ret (set_memory_bytes b m)
  | OpKeys n => Ret (set_key_count n m)
  | OpSnapshot now => let? r := snapshot now m in Ret r.2
  end.

Lemma apply_op_rate {fp : FpContract} m op m' :
  apply_op m op = Ret m' → commands_per_sec_ m' = commands_per_sec_ m.
Proof.
  destruct op; cbn [apply_op]; try (by intros [= <-]).
  - rw /record_command. destruct (update_latency_ema _ _); [|done]. by intros [= <-].
  - rw /snapshot. destruct (checked (_ + _)); [|done]. cbn [obind]. destruct (checked (_ - _)); [|done]. cbn [obind].
    destruct (100 <? _); [|by intros [= <-]]. destruct (checked (_ - _)); [|done]. cbn [obind].
    destruct (checked (_ * _)); [|done]. by intros [= <-].
Qed.

(** A second scrape within 100 ms reads a rate of zero.  Nothing ever
    writes [commands_per_sec_], so after any history of the metrics a snapshot
    taken at most 100 ms after the last one reports zero commands per second,
    whatever the load. *)
Theorem early_snapshot_reports_zero {fp : FpContract} ops m now s m' :
  foldO apply_op ops new_metrics = Ret m → snapshot now m = Ret (s, m') →
  now - last_snapshot_time_ms_ m ≤ 100 → commands_per_sec s = 0.
Proof.
  intros Hm Hs Hdt. assert (commands_per_sec_ m = 0) as H0.
  { change 0 with (commands_per_sec_ new_metrics). revert Hm. generalize new_metrics.
    induction ops as [|op ops IH]; intros m0; cbn [foldO]; [by intros [= <-]|].
    destruct (apply_op m0 op) as [m1|] eqn:Ha; [|done]. cbn [obind]. intros H%IH. by rw H (apply_op_rate _ _ _ Ha). }
  rw /snapshot in Hs. destruct (checked (_ + _)); [|done]. cbn [obind] in Hs.
  rw /checked in Hs. destruct (in_i64 _); [|done]. cbn [obind] in Hs.
  rw (proj2 (Z.ltb_ge _ _)) // in Hs. by injection Hs as <- <-.
Qed.

(** ** The exposition text *)

Fixpoint strip_prefix (p s : bytes) : option bytes :=
  match p, s with
  | [], _ => Some s
  | a :: p', b :: s' => if bool_decide (a = b) then strip_prefix p' s' else None
  | _, [] => None
  end.

(** What a scraper reads under a name: the text behind it on its line. *)
Fixpoint find_sample (name : bytes) (lines : list bytes) : option bytes :=
  match lines with
  | [] => None
  | l :: ls => match strip_prefix (name ++ bs " ") l with
               | Some v => Some v
               | None => find_sample name ls
               end
  end.

Section Exposition.
Context {fmt : Fmt}.

Definition samples (s : Snapshot) : list (bytes * bytes) :=
  [(bs "cache_commands_total", to_string (total_commands s)); (bs "cache_hits_total", to_string (total_hits s));
   (bs "cache_misses_total", to_string (total_misses s));
   (bs "cache_active_connections", to_string (active_connections s));
   (bs "cache_key_count", to_string (key_count s)); (bs "cache_memory_bytes", to_string (memory_bytes s));
   (bs "cache_avg_latency_us", fmt_fixed 2 (avg_latency_us s)); (bs "cache_hit_rate", fmt_fixed 4 (hit_rate s));
   (bs "cache_commands_per_sec", to_string (commands_per_sec s))].

Lemma getlines_text (t v rest : bytes) :
  LF ∉ t → LF ∉ v → Config.getlines [] (t ++ v ++ [LF] ++ rest) = (t ++ v) :: Config.getlines [] rest.
Proof. intros Ht Hv. rw app_assoc. cbn [app]. rw ConfigThms.getlines_line; [by rw not_elem_of_app|done]. Qed.

Lemma getlines_comment (s : String.string) (rest : bytes) :
  LF ∉ bs s → Config.getlines [] (line s ++ rest) = bs s :: Config.getlines [] rest.
Proof. intros Hs. rw /line -app_assoc. cbn [app]. by rw ConfigThms.getlines_line. Qed.

Lemma LF_to_string z : LF ∉ to_string z.
Proof. apply ConfigThms.to_string_text_ok. Qed.

(** The exposition text can be read back.  For each of the nine metrics a
    scraper that looks for its name at the start of a line finds the text of
    its value, all of it and nothing else. *)
Theorem exposition_readable s :
  Forall (λ kv, find_sample kv.1 (Config.getlines [] (exposition s)) = Some kv.2) (samples s).
Proof.
  rw /exposition.
  repeat (rw getlines_comment; [ConfigThms.dec|]; rw getlines_comment; [ConfigThms.dec|];
          rw getlines_text; [ConfigThms.dec|first [apply LF_to_string|apply fmt_fixed_line]|]).
  repeat constructor.
Qed.
End Exposition.

(** ** Concrete runs *)

Module Demo.
#[local] Instance demo_fp : FpContract := FuseRight.

Lemma latency_average_settles_witness :
  ∃ m', record_many 700 7 new_metrics = Ret m' ∧ 100 * 7 - 20 ≤ latency_ema_x100_ m' ≤ 100 * 7.
Proof. apply (latency_average_settles 7 700 new_metrics); vm_compute; [split|split|]; discriminate. Defined.

Lemma latency_average_step_witness :
  ∃ m', record_command 7 new_metrics = Ret m' ∧ ok m' ∧
    100 * 7 + 19 * 0 - 20 ≤ 20 * latency_ema_x100_ m' ≤ 100 * 7 + 19 * 0 ∧
    total_commands_ m' = i64 (0 + 1).
Proof. apply (latency_average_step 7 new_metrics); vm_compute; split; discriminate. Defined.

(** Ten commands, three hits and a miss. *)
Definition demo_metrics : Metrics := mkMetrics 10 3 1 2 2 0 5 700 0 4 1000.

Lemma snapshot_reports_witness :
  ∃ s m', snapshot 3000 demo_metrics = Ret (s, m') ∧
    total_commands s = 10 ∧ total_hits s = 3 ∧ total_misses s = 1 ∧
    active_connections s = 2 ∧ key_count s = 5 ∧ (0 <= hit_rate s <= 1)%Q ∧
    commands_per_sec s = (10 - 4) * 1000 / (3000 - 1000) ∧
    last_cmd_snapshot_ m' = 10 ∧ last_snapshot_time_ms_ m' = 3000 ∧ countable 3000 m'.
Proof. apply (snapshot_reports 3000 demo_metrics). split; vm_compute; repeat split; discriminate. Defined.

Definition busy_ops : list MetricOp := [OpOpen; OpCommand 3; OpSnapshot 5000; OpCommand 4; OpCommand 5].
Definition busy_metrics : Metrics :=
  match foldO apply_op busy_ops new_metrics with Ret m => m | Fail _ => new_metrics end.

Lemma early_snapshot_reports_zero_witness :
  match snapshot 5080 busy_metrics with Ret (s, _) => commands_per_sec s = 0 | Fail _ => False end.
Proof.
  destruct (snapshot 5080 busy_metrics) as [[s m']|] eqn:Hs; [|vm_compute in Hs; discriminate].
  apply (early_snapshot_reports_zero busy_ops busy_metrics 5080 s m');
    [vm_compute; reflexivity|exact Hs|vm_compute; discriminate].
Defined.

(** A formatter that drops the fraction. *)
#[local] Program Instance demo_fmt : Fmt := {| fmt_fixed _ d := to_string (Qfloor d) |}.
Next Obligation. apply LF_to_string. Qed.

Lemma exposition_readable_witness :
  Forall (λ kv, find_sample kv.1 (Config.getlines [] (exposition (mkSnapshot 10 3 1 2 2 0 5 (7 # 1) (3 # 4) 3))) = Some kv.2)
    [(bs "cache_commands_total", bs "10"); (bs "cache_hits_total", bs "3"); (bs "cache_misses_total", bs "1");
     (bs "cache_active_connections", bs "2"); (bs "cache_key_count", bs "5"); (bs "cache_memory_bytes", bs "0");
     (bs "cache_avg_latency_us", bs "7"); (bs "cache_hit_rate", bs "0"); (bs "cache_commands_per_sec", bs "3")].
Proof. exact (exposition_readable (mkSnapshot 10 3 1 2 2 0 5 (7 # 1) (3 # 4) 3)). Defined.
End Demo.

End MetricsThms.
