(* ===== verification/MetricsConc.v ===== *)
(** The counters under several threads: src/metrics/Metrics.{hpp,cpp}.

    The members of [Metrics] are atomics; a section is one access to one of
    them.  All accesses are [memory_order_relaxed]: what is proved here is about
    single variables, for which every order of their accesses is one of the
    interleavings below. *)

From S2P Require Import Prelude Conc Double Metrics MetricsThms.
#[local] Open Scope Z_scope.

Module MetricsConc.
Import Conc Double Metrics MetricsThms.

(** The read-modify-writes. *)
Definition add_commands (n : Z) (m : Metrics) : Metrics :=
  mkMetrics (fetch_add (total_commands_ m) n) (total_hits_ m) (total_misses_ m) (active_connections_ m)
    (total_connections_ m) (memory_bytes_ m) (key_count_ m) (latency_ema_x100_ m) (commands_per_sec_ m)
    (last_cmd_snapshot_ m) (last_snapshot_time_ms_ m).
Definition add_active (n : Z) (m : Metrics) : Metrics :=
  mkMetrics (total_commands_ m) (total_hits_ m) (total_misses_ m) (fetch_add (active_connections_ m) n)
    (total_connections_ m) (memory_bytes_ m) (key_count_ m) (latency_ema_x100_ m) (commands_per_sec_ m)
    (last_cmd_snapshot_ m) (last_snapshot_time_ms_ m).
Definition add_connections (n : Z) (m : Metrics) : Metrics :=
  mkMetrics (total_commands_ m) (total_hits_ m) (total_misses_ m) (active_connections_ m)
    (fetch_add (total_connections_ m) n) (memory_bytes_ m) (key_count_ m) (latency_ema_x100_ m) (commands_per_sec_ m)
    (last_cmd_snapshot_ m) (last_snapshot_time_ms_ m).

(** The stores of [Metrics::snapshot]. *)
Definition set_snapshot_time (t : Z) (m : Metrics) : Metrics :=
  mkMetrics (total_commands_ m) (total_hits_ m) (total_misses_ m) (active_connections_ m)
    (total_connections_ m) (memory_bytes_ m) (key_count_ m) (latency_ema_x100_ m) (commands_per_sec_ m)
    (last_cmd_snapshot_ m) t.
Definition set_snapshot_cmds (n : Z) (m : Metrics) : Metrics :=
  mkMetrics (total_commands_ m) (total_hits_ m) (total_misses_ m) (active_connections_ m)
    (total_connections_ m) (memory_bytes_ m) (key_count_ m) (latency_ema_x100_ m) (commands_per_sec_ m)
    n (last_snapshot_time_ms_ m).

Section Ops.
Context {fp : FpContract}.

(** [Metrics::update_latency_ema]: a load and a store *)
Definition update_prog (sample_us : double) : Prog Metrics unit :=
  PSec (gets latency_ema_x100_) (λ old,
  section (λ m, let? z := update_latency_ema sample_us old in Ret (tt, with_ema z m))).

(** [Metrics::record_command] *)
Definition record_command_prog (latency_us : Z) : Prog Metrics unit :=
  PSec (modify (add_commands 1)) (λ _, update_prog (of_int latency_us)).

(** [Metrics::record_connection_open] *)
Definition open_prog : Prog Metrics unit :=
  PSec (modify (add_active 1)) (λ _, section (modify (add_connections 1))).

(** [Metrics::snapshot]; [now] is its reading of the clock. *)
Definition snapshot_prog (now : Z) : Prog Metrics Snapshot :=
  PSec (gets total_commands_) (λ cmds,
  PSec (gets total_hits_) (λ hits,
  PSec (gets total_misses_) (λ misses,
  PSec (gets active_connections_) (λ active,
  PSec (gets total_connections_) (λ conns,
  PSec (gets memory_bytes_) (λ memory,
  PSec (gets key_count_) (λ keys,
  PSec (gets latency_ema_x100_) (λ ema,
  PSec (lift (checked (hits + misses))) (λ total,
  let rate := if 0 <? total then ddiv (of_int hits) (of_int total) else 0%Q in
  let result cps := mkSnapshot cmds hits misses active conns memory keys (ddiv (of_int ema) hundred) rate cps in
  PSec (gets last_snapshot_time_ms_) (λ prev_time,
  PSec (gets last_cmd_snapshot_) (λ prev_cmds,
  PSec (lift (checked (now - prev_time))) (λ dt_ms,
  if 100 <? dt_ms then
    PSec (lift (let? delta_cmds := checked (cmds - prev_cmds) in checked (delta_cmds * 1000))) (λ scaled,
    PSec (modify (set_snapshot_time now)) (λ _,
    PSec (modify (set_snapshot_cmds cmds)) (λ _,
    PRet (result (Z.quot scaled dt_ms)))))
  else PSec (gets commands_per_sec_) (λ cps, PRet (result cps)))))))))))))).

(** An operation as a program; a snapshot has a result. *)
Definition metric_prog (op : MetricOp) : Prog Metrics (option Snapshot) :=
  match op with
  | OpCommand l => pmap (λ _, None) (record_command_prog l)
  | OpHit => pmap (λ _, None) (section (modify record_cache_hit))
  | OpMiss => pmap (λ _, None) (section (modify record_cache_miss))
  | OpOpen => pmap (λ _, None) open_prog
  | OpClose => pmap (λ _, None) (section (modify record_connection_close))
  | OpMemory b => pmap (λ _, None) (section (modify (set_memory_bytes b)))
  | OpKeys n => pmap (λ _, None) (section (modify (set_key_count n)))
  | OpSnapshot now => pmap Some (snapshot_prog now)
  end.

(** ** Alone *)

(** Undisturbed, the accesses of an operation do what the operation does in one
    piece. *)
Lemma metric_alone op m :
  match alone (metric_prog op) m with
  | Ret (r, m') => apply_op m op = Ret m' ∧
      match op with OpSnapshot now => ∃ s, r = Some s ∧ snapshot now m = Ret (s, m') | _ => r = None end
  | Fail f => apply_op m op = Fail f
  end.
Proof.
  destruct op as [l| | | | |b|n|now]; cbn [metric_prog]; try (rw /pmap /section /bind /modify /=; by split).
  - rw /pmap /record_command_prog /update_prog /section /record_command. cbn [pbind alone].
    rw /bind /modify /gets. cbn [latency_ema_x100_ add_commands apply_op]. rw /record_command. cbn [latency_ema_x100_]. destruct (update_latency_ema _ _); by split.
  - cbn [apply_op]. rw /pmap /snapshot_prog /snapshot. cbn [pbind alone]. rw /bind /gets /lift /modify.
    destruct (checked (_ + _)) as [total|f]; cbn [obind]; [|done].
    destruct (checked (now - _)) as [dt|f]; cbn [obind]; [|done].
    destruct (100 <? dt).
    + cbn [pbind alone obind]. rw /bind /lift /modify. destruct (checked (total_commands_ m - _)) as [d|f]; cbn [obind]; [|done].
      destruct (checked (d * 1000)) as [sc|f]; cbn [obind]; [|done]. cbn [pbind alone]. rw /bind. split; [done|]. by eexists.
    + cbn [pbind alone]. rw /bind /gets. cbn [obind]. split; [done|]. by eexists.
Qed.

(** ** In any interleaving *)

Inductive Counter := Commands | Hits | Misses | Active | Connections.

Definition value_of (c : Counter) (m : Metrics) : Z :=
  match c with
  | Commands => total_commands_ m
  | Hits => total_hits_ m
  | Misses => total_misses_ m
  | Active => active_connections_ m
  | Connections => total_connections_ m
  end.

(** What an operation adds to a counter. *)
Definition weight (c : Counter) (op : MetricOp) : Z :=
  match c, op with
  | Commands, OpCommand _ | Hits, OpHit | Misses, OpMiss | Active, OpOpen | Connections, OpOpen => 1
  | Active, OpClose => -1
  | _, _ => 0
  end.

(** The average stays below the largest latency. *)
Definition below (L : Z) (m : Metrics) : Prop := 0 ≤ latency_ema_x100_ m ≤ 100 * L.

(** Commands take at most [L] microseconds. *)
Definition at_most (L : Z) (op : MetricOp) : Prop :=
  match op with OpCommand l => 0 ≤ l ≤ L | _ => True end.

(** [snapshot] overflows, if at all, in its differences and sums. *)
Definition overflow_only (f : fault) : Prop := f = Undef SignedOverflow.

(** A sampled average is one that was stored. *)
Definition sampled (L : Z) (r : option Snapshot) : Prop :=
  match r with Some s => ∃ e, 0 ≤ e ≤ 100 * L ∧ avg_latency_us s = ddiv (of_int e) hundred | None => True end.

Section Thms.
Context (L : Z) (HL : 0 ≤ L ≤ MAX_LATENCY) (c : Counter).

(** The average is in its bounds and the counter in the range of its type. *)
Definition kept (m : Metrics) : Prop := below L m ∧ i64 (value_of c m) = value_of c m.

Abbreviation counts := (adds overflow_only kept (value_of c)).

(** A change that leaves the average alone and adds [d] to the counter. *)
Definition shifts (d : Z) (f : Metrics → Metrics) : Prop := ∀ m,
  latency_ema_x100_ (f m) = latency_ema_x100_ m ∧
  (i64 (value_of c m) = value_of c m → value_of c (f m) = i64 (value_of c m + d)).

Lemma counts_modify {A} (Q : A → Prop) n d f (k : unit → Prog Metrics A) :
  shifts d f → counts Q (n - d) (k tt) → counts Q n (PSec (modify f) k).
Proof.
  intros Hf Hk. exists d. intros m [Hm Hv]. apply wp_modify. destruct (Hf m) as [He Hd]. specialize (Hd Hv).
  split_and!; [split; [by rw /below He|by rw Hd i64_idem]|by rw Hd i64_idem|done].
Qed.

Lemma counts_gets {A X} (Q : A → Prop) n (f : Metrics → X) (k : X → Prog Metrics A) :
  (∀ m, kept m → counts Q n (k (f m))) → counts Q n (PSec (gets f) k).
Proof. intros Hk. exists 0. intros m Hm. apply wp_gets. rw Z.add_0_r Z.sub_0_r. auto. Qed.

Lemma counts_lift {A X} (Q : A → Prop) n (o : outcome X) (k : X → Prog Metrics A) :
  (∀ f, o = Fail f → overflow_only f) → (∀ x, counts Q n (k x)) → counts Q n (PSec (lift o) k).
Proof. intros Hf Hk. exists 0. intros m Hm. apply wp_lift. destruct o; [|auto]. rw Z.add_0_r Z.sub_0_r. auto. Qed.

Lemma checked_fault z f : checked z = Fail f → overflow_only f.
Proof. rw /checked. destruct (in_i64 z); [done|]. by intros [= <-]. Qed.

Lemma update_counts l : 0 ≤ l ≤ L → counts (λ _, True) 0 (update_prog (of_int l)).
Proof.
  intros Hl. apply counts_gets. intros m0 [H0 _]. exists 0. intros m [_ Hv]. rw /wp.
  destruct (ema_step l (latency_ema_x100_ m0)) as (z & -> & Hz0 & Hz); [lia|rw /below in H0; lia|]. cbn [obind].
  assert (value_of c (with_ema z m) = value_of c m) as He by by destruct c. rw He Z.add_0_r.
  split_and!; [|done|done]. split; [|by rw He]. rw /below in H0 |- *. cbn [with_ema latency_ema_x100_]. lia.
Qed.

(** The counter of an access, one case after the other. *)
Ltac each_counter := intros ?; split; [done|]; intros Hv; destruct c; cbn in Hv |- *; rw /fetch_add ?Z.add_0_r //.

Lemma one_counts n f : shifts n f → counts (λ _, True) n (section (modify f)).
Proof. intros Hf. apply (counts_modify _ _ n); [done|]. by rw Z.sub_diag. Qed.

Lemma open_counts : counts (λ _, True) (weight c OpOpen) open_prog.
Proof.
  apply (counts_modify _ _ (match c with Active => 1 | _ => 0 end)); [by each_counter|].
  apply one_counts. by each_counter.
Qed.

Lemma snapshot_counts now : counts (λ s, sampled L (Some s)) 0 (snapshot_prog now).
Proof.
  do 7 (apply counts_gets; intros ? _). apply counts_gets. intros me [Hm _].
  assert (∀ s, avg_latency_us s = ddiv (of_int (latency_ema_x100_ me)) hundred → sampled L (Some s)) as Hs.
  { intros s Hs. by exists (latency_ema_x100_ me). }
  apply counts_lift; [apply checked_fault|]. intros total. do 2 (apply counts_gets; intros ? _).
  apply counts_lift; [apply checked_fault|]. intros dt. destruct (100 <? dt).
  - apply counts_lift.
    { intros f. destruct (checked (_ - _)) eqn:He; [apply checked_fault|]. intros [= <-]. by eapply checked_fault. }
    intros scaled. do 2 (apply (counts_modify _ _ 0); [by each_counter|]). split; [done|]. by apply Hs.
  - apply counts_gets. intros ? _. split; [done|]. by apply Hs.
Qed.

(** Each operation adds its weight, whatever other threads do meanwhile. *)
Lemma op_counts op : at_most L op → counts (sampled L) (weight c op) (metric_prog op).
Proof.
  intros Hop. destruct op as [l| | | | |b|n|now]; cbn [metric_prog]; (eapply (adds_map _ _ _ (λ _, True)); [done|]) || idtac.
  - apply (counts_modify _ _ (weight c (OpCommand l))); [by each_counter|]. rw Z.sub_diag. by apply update_counts.
  - apply one_counts. by each_counter.
  - apply one_counts. by each_counter.
  - apply open_counts.
  - apply one_counts. by each_counter.
  - apply one_counts. by each_counter.
  - apply one_counts. by each_counter.
  - eapply adds_map; [|replace (weight c (OpSnapshot now)) with 0 by (by destruct c); apply snapshot_counts]. done.
Qed.

End Thms.

(** C33: no count is lost and the average stays in bounds.  Whatever number of
    threads record commands, hits, misses and connections and take snapshots,
    and however their accesses interleave, each counter ends with exactly what
    was recorded (modulo its width), the stored average and every sampled one
    lie between zero and the largest latency, and only [snapshot] can overflow. *)
Theorem metrics_lose_no_count L c opss schedule :
  0 ≤ L ≤ MAX_LATENCY → Forall (Forall (at_most L)) opss →
  match run_schedule metric_prog schedule (mkSys new_metrics (new_thread <$> opss)) with
  | Ret (_, s) => below L (sys_world s) ∧ Forall (λ t, Forall (sampled L) (t_results t)) (sys_threads s) ∧
      (Forall finished (sys_threads s) →
       value_of c (sys_world s) = i64 (sum ((λ ops, sum (weight c <$> ops)) <$> opss)))
  | Fail f => f = Undef SignedOverflow
  end.
Proof.
  intros HL Hops. pose proof (schedule_adds overflow_only (kept L c) (value_of c) metric_prog (sampled L) (at_most L) (weight c)
    (op_counts L HL c) new_metrics opss schedule) as H. rw /wp in H. destruct (run_schedule _ _ _) as [[[] s]|f].
  - destruct H as ([Hb Hv] & Hr & Hf); [|done|]; [split; [rw /below; cbn; lia|by destruct c]|].
    split_and!; [done..|]. intros Hfin%Hf. rw Hv in Hfin. rw Hfin. by destruct c.
  - apply H; [|done]. split; [rw /below; cbn; lia|by destruct c].
Qed.

End Ops.

(** ** Concrete runs *)

Module Demo.
#[local] Instance demo_fp : FpContract := FuseRight.

(** Two threads that record, one that takes snapshots. *)
Definition recorders : list (list MetricOp) :=
  [[OpOpen; OpCommand 40; OpHit]; [OpCommand 60; OpMiss; OpClose]; [OpSnapshot 5000; OpSnapshot 5050]].
Definition in_turn : list nat := mjoin (replicate 40 [0; 1; 2]%nat).

Definition start (opss : list (list MetricOp)) : Sys Metrics MetricOp (option Snapshot) :=
  mkSys new_metrics (new_thread <$> opss).
Definition after (schedule : list nat) (opss : list (list MetricOp)) : Sys Metrics MetricOp (option Snapshot) :=
  reached (start opss) (run_schedule metric_prog schedule (start opss)).

Lemma recorders_run : run_schedule metric_prog in_turn (start recorders) = Ret (tt, after in_turn recorders).
Proof. apply reached_ok. vm_compute. reflexivity. Qed.

Lemma recorders_finish : Forall finished (sys_threads (after in_turn recorders)).
Proof. apply all_finished_spec. vm_compute. reflexivity. Qed.

Lemma metrics_lose_no_count_witness :
  total_commands_ (sys_world (after in_turn recorders)) = 2 ∧
  latency_ema_x100_ (sys_world (after in_turn recorders)) ≤ 6000.
Proof.
  pose proof (metrics_lose_no_count 60 Commands recorders in_turn) as H.
  fold (start recorders) in H. rewrite recorders_run in H.
  destruct H as (H1 & _ & H3); [vm_compute; split; discriminate|repeat constructor; vm_compute; discriminate|].
  split; [|exact (proj2 H1)].
  transitivity (i64 (sum ((λ ops, sum (weight Commands <$> ops)) <$> recorders)));
    [exact (H3 recorders_finish)|vm_compute; reflexivity].
Defined.

(** Two commands at the same time: one of them leaves no trace in the average. *)
Example average_update_lost :
  latency_ema_x100_ (sys_world (after [0; 0; 0; 1; 1; 1; 0; 1]%nat [[OpCommand 40]; [OpCommand 60]])) =
  latency_ema_x100_ (sys_world (after [0; 0; 0; 0]%nat [[OpCommand 60]])).
Proof. vm_compute. reflexivity. Qed.
End Demo.

End MetricsConc.
