(* ===== verification/HttpServer.v ===== *)
(** The metrics endpoint: src/metrics/HttpServer.{hpp,cpp}.

    A request is what one call of [recv] returned, and a client may send nothing,
    so that the call does not return; what [send] takes of the response, whether
    the calls that set the socket up succeed and which descriptor they return are
    inputs.  The thread of the endpoint waits in [accept], in [recv], or has
    left its loop; a [Visit] is what happens to it next.  [ms_clock] are the
    readings of [util::now_ms]. *)

From S2P Require Import Prelude Config Double Metrics.
#[local] Open Scope Z_scope.

Module HttpServer.
Import Metrics.

(** What the handlers see: the metrics and the clock. *)
Record View := mkView {
  v_metrics : Metrics;
  ms_clock : nat → Z;
  ms_ticks : nat
}.

Section Ops.
Context {fmt : Fmt}.

(** [metrics_.snapshot()] *)
Definition take_snapshot : M View Snapshot := λ v,
  match snapshot (ms_clock v (ms_ticks v)) (v_metrics v) with
  | Ret (s, m) => Ret (s, mkView m (ms_clock v) (S (ms_ticks v)))
  | Fail f => Fail f
  end.

Definition quote (s : bytes) : bytes := Byte.x22 :: s ++ [Byte.x22].

(** The format string of [/stats], with its arguments. *)
Definition stats_json (s : Snapshot) : bytes :=
  bs "{" ++ quote (bs "total_commands") ++ bs ":" ++ to_string (total_commands s) ++
  bs "," ++ quote (bs "total_hits") ++ bs ":" ++ to_string (total_hits s) ++
  bs "," ++ quote (bs "total_misses") ++ bs ":" ++ to_string (total_misses s) ++
  bs "," ++ quote (bs "active_connections") ++ bs ":" ++ to_string (active_connections s) ++
  bs "," ++ quote (bs "key_count") ++ bs ":" ++ to_string (key_count s) ++
  bs "," ++ quote (bs "memory_bytes") ++ bs ":" ++ to_string (memory_bytes s) ++
  bs "," ++ quote (bs "avg_latency_us") ++ bs ":" ++ fmt_fixed 2 (avg_latency_us s) ++
  bs "," ++ quote (bs "hit_rate") ++ bs ":" ++ fmt_fixed 4 (hit_rate s) ++
  bs "," ++ quote (bs "commands_per_sec") ++ bs ":" ++ to_string (commands_per_sec s) ++ bs "}".

Definition health_json : bytes := bs "{" ++ quote (bs "status") ++ bs ":" ++ quote (bs "ok") ++ bs "}".
Definition not_found_json : bytes := bs "{" ++ quote (bs "error") ++ bs ":" ++ quote (bs "not found") ++ bs "}".

(** [HttpServer::route]; the method is not looked at. *)
Definition route (method path : bytes) : M View bytes :=
  if bool_decide (path = bs "/metrics") then
    let! s := take_snapshot in ret (exposition s)
  else if bool_decide (path = bs "/health") then ret health_json
  else if bool_decide (path = bs "/stats") then
    let! s := take_snapshot in ret (stats_json s)
  else ret not_found_json.

(** [ss >> word]: what is skipped and read, and what is left. *)
Fixpoint take_word (s : bytes) : bytes * bytes :=
  match s with
  | [] => ([], [])
  | b :: s' => if Config.isspace b then ([], s)
               else let '(w, r) := take_word s' in (b :: w, r)
  end.
Definition next_word (s : bytes) : bytes * bytes := take_word (Config.drop_while Config.isspace s).

Definition content_type (path : bytes) : bytes :=
  if bool_decide (path = bs "/metrics") then bs "text/plain; version=0.0.4; charset=utf-8"
  else bs "application/json".

(** The response around a body. *)
Definition response (ctype body : bytes) : bytes :=
  bs "HTTP/1.1 200 OK" ++ CRLF ++
  bs "Content-Type: " ++ ctype ++ CRLF ++
  bs "Content-Length: " ++ to_string (zlen body) ++ CRLF ++
  bs "Access-Control-Allow-Origin: *" ++ CRLF ++
  bs "Connection: close" ++ CRLF ++
  CRLF ++ body.

Definition BUF_SIZE : nat := 2048.

(** What [recv] finds: bytes; an error or the end of the stream; nothing, and
    then it waits. *)
Inductive Received :=
  | Got (d : bytes)
  | Lost
  | Nothing.

(** A client: what [recv] finds, and how many bytes [send] takes. *)
Record Client := mkClient { req : Received; room : nat }.

(** [HttpServer::handle_client]: the bytes handed to the socket that it took;
    [None] as long as [recv] waits. *)
Definition handle_client (c : Client) : M View (option bytes) :=
  match req c with
  | Nothing => ret None
  | Lost => ret (Some [])
  | Got data =>
      match take (BUF_SIZE - 1) data with
      | [] => ret (Some [])
      | r =>
          let '(method, rest) := next_word r in
          let '(path, _) := next_word rest in
          let! body := route method path in
          ret (Some (take (room c) (response (content_type path) body)))
      end
  end.

(** ** The thread *)

(** [thread_], and where it is: in [accept], in [recv] for a client that takes
    [room] bytes, or behind its loop. *)
Inductive Thread :=
  | NoThread
  | Accepting
  | Receiving (room : nat)
  | Ended.

Record Http := mkHttp {
  port_ : Z;
  server_fd_ : Z;
  running_ : bool;
  thread_ : Thread
}.

(** [thread_.joinable()] *)
Definition joinable (h : Http) : bool := match thread_ h with NoThread => false | _ => true end.

Definition set_thread (t : Thread) (h : Http) : Http := mkHttp (port_ h) (server_fd_ h) (running_ h) t.

(** [HttpServer::HttpServer] *)
Definition new_http (port : Z) : Http := mkHttp port (-1) false NoThread.

(** What happens to the thread: a client connects, [accept] fails, the client it
    waits for sends something or goes. *)
Inductive Visit :=
  | Connects (c : Client)
  | AcceptFails
  | Speaks (r : Received).

(** The client is served, or waited for; then the loop tests [running_]. *)
Definition serve_one (c : Client) (h : Http) : M View (Http * option bytes) :=
  let! r := handle_client c in
  match r with
  | None => ret (set_thread (Receiving (room c)) h, None)
  | Some out => ret (set_thread (if running_ h then Accepting else Ended) h, Some out)
  end.

(** [HttpServer::serve_loop], from one wait to the next: the object, and what a
    client got. *)
Definition serve_loop (v : Visit) (h : Http) : M View (Http * option bytes) :=
  match thread_ h, v with
  | Accepting, Connects c => serve_one c h
  | Accepting, AcceptFails => ret (set_thread Ended h, None)
  | Receiving room, Speaks r => serve_one (mkClient r room) h
  | _, _ => ret (h, None)
  end.
End Ops.

(** ** Starting and stopping *)

(** [HttpServer::start]; [fd] is what [socket] returned, [bound] whether [bind]
    succeeded, [spawned] whether the thread could be started; the last component
    are the open descriptors. *)
Definition start (fd : Z) (bound spawned : bool) (h : Http) (fds : gset Z) : outcome unit * (Http * gset Z) :=
  let h := mkHttp (port_ h) fd (running_ h) (thread_ h) in
  if fd <? 0 then (Ret tt, (h, fds)) else
  if negb bound then (Ret tt, (mkHttp (port_ h) (-1) (running_ h) (thread_ h), fds)) else
  if spawned then (Ret tt, (mkHttp (port_ h) fd true Accepting, fds ∪ {[ fd ]}))
  else (Fail (Throw system_error), (mkHttp (port_ h) fd true (thread_ h), fds ∪ {[ fd ]})).

(** [HttpServer::stop] up to the join: the socket is shut down and closed, which
    ends an [accept] that waits on it, but no [recv] on the socket of a client. *)
Definition stop (h : Http) (fds : gset Z) : Http * gset Z :=
  let '(fd, fds) := if 0 <=? server_fd_ h then (-1, fds ∖ {[ server_fd_ h ]}) else (server_fd_ h, fds) in
  (mkHttp (port_ h) fd false (match thread_ h with Accepting => Ended | t => t end), fds).

(** [thread_.join()]: [None] as long as the thread is in its loop. *)
Definition join (h : Http) : option Http :=
  match thread_ h with
  | Accepting | Receiving _ => None
  | NoThread | Ended => Some (set_thread NoThread h)
  end.

End HttpServer.
