(* ===== verification/HttpThms.v ===== *)
(** The endpoint answers any request with a response whose length is right,
    picks the answer by the path alone, and gives back the descriptor it
    opened. *)

From S2P Require Import Prelude Config ConfigThms Double Metrics MetricsThms HttpServer.
#[local] Open Scope Z_scope.

Module HttpThms.
Import Metrics MetricsThms HttpServer.

(** ** Reading a response *)

(** Up to the first CRLF, and behind it. *)
Fixpoint split_crlf (s : bytes) : option (bytes * bytes) :=
  match s with
  | [] => None
  | b :: s' =>
      match s' with
      | c :: s'' =>
          if bool_decide (b = CR ∧ c = LF) then Some ([], s'') else
          match split_crlf s' with Some (l, r) => Some (b :: l, r) | None => None end
      | [] => None
      end
  end.

(** The header lines up to the empty one, and the body. *)
Fixpoint read_head (fuel : nat) (s : bytes) : option (list bytes * bytes) :=
  match fuel with
  | O => None
  | S fuel' =>
      match split_crlf s with
      | None => None
      | Some ([], body) => Some ([], body)
      | Some (l, rest) =>
          match read_head fuel' rest with Some (ls, body) => Some (l :: ls, body) | None => None end
      end
  end.

(** What a client makes of a response: the status line, the content type and
    as many bytes of body as the length says, if they are all there and no more. *)
Definition read_response (s : bytes) : option (bytes * bytes * bytes) :=
  match read_head 100 s with
  | Some (status :: headers, body) =>
      match find_sample (bs "Content-Type:") headers, find_sample (bs "Content-Length:") headers with
      | Some ctype, Some len =>
          match Config.stoull len with
          | Ret n => if zlen body =? n then Some (status, ctype, body) else None
          | Fail _ => None
          end
      | _, _ => None
      end
  | _ => None
  end.

Lemma split_crlf_line l rest : CR ∉ l → split_crlf (l ++ CRLF ++ rest) = Some (l, rest).
Proof.
  induction l as [|b l IH]; intros Hl; [done|]. apply not_elem_of_cons in Hl as [Hb Hl].
  specialize (IH Hl). cbn [app split_crlf] in IH |- *.
  destruct (l ++ CRLF ++ rest) as [|c t] eqn:E; [by destruct l|].
  rw bool_decide_false; [by intros [-> _]|]. by rw IH.
Qed.

Lemma read_head_line fuel l rest :
  CR ∉ l → l ≠ [] →
  read_head (S fuel) (l ++ CRLF ++ rest) =
    match read_head fuel rest with Some (ls, body) => Some (l :: ls, body) | None => None end.
Proof. intros Hl Hne. cbn [read_head]. rw split_crlf_line //. by destruct l. Qed.

Lemma read_head_end fuel body : read_head (S fuel) (CRLF ++ body) = Some ([], body).
Proof. done. Qed.

Lemma CR_to_string z : CR ∉ to_string z.
Proof.
  pose proof (ConfigThms.to_string_chars z) as H. rw Forall_forall in H. by intros Hin%H.
Qed.

Lemma read_response_spec ctype body :
  CR ∉ ctype → zlen body < 2 ^ 64 →
  read_response (response ctype body) = Some (bs "HTTP/1.1 200 OK", ctype, body).
Proof.
  intros Hc Hb. rw /read_response /response.
  rw read_head_line; [ConfigThms.dec|done|]. rw (app_assoc (bs "Content-Type: ")) read_head_line;
    [rw not_elem_of_app; split; [ConfigThms.dec|done]|done|].
  rw (app_assoc (bs "Content-Length: ")) read_head_line;
    [rw not_elem_of_app; split; [ConfigThms.dec|apply CR_to_string]|done|].
  do 2 (rw read_head_line; [ConfigThms.dec|done|]). rw read_head_end.
  change (find_sample (bs "Content-Type:") _) with (Some ctype).
  change (find_sample (bs "Content-Length:") _) with (Some (to_string (zlen body))).
  cbn [option_map]. rw ConfigThms.stoull_to_string; [lia|]. by rw Z.eqb_refl.
Qed.

(** ** Requests *)

(** A word of a request line. *)
Definition word (w : bytes) : Prop := w ≠ [] ∧ Forall (λ b, Config.isspace b = false) w.

(** Text behind a word. *)
Definition break (s : bytes) : Prop := match s with [] => True | b :: _ => Config.isspace b = true end.

Lemma take_word_spec w s : Forall (λ b, Config.isspace b = false) w → break s → take_word (w ++ s) = (w, s).
Proof.
  intros Hw Hs. induction Hw as [|b w Hb _ IH]; cbn [app take_word].
  - destruct s as [|b s]; [done|]. cbn [take_word]. by rw Hs.
  - by rw Hb IH.
Qed.

Lemma next_word_spec w s : word w → break s → next_word (w ++ s) = (w, s).
Proof.
  intros [Hne Hw] Hs. rw /next_word -take_word_spec //. f_equal. destruct w as [|b w]; [done|].
  cbn. apply Forall_cons in Hw as [-> _]. done.
Qed.

Section Server.
Context {fmt : Fmt}.

Lemma take_snapshot_total v :
  countable (ms_clock v (ms_ticks v)) (v_metrics v) → ∃ s v', take_snapshot v = Ret (s, v').
Proof.
  intros Hc. destruct (snapshot_total _ _ Hc) as (s & m & Hs). rw /take_snapshot Hs. eauto.
Qed.

Lemma route_total m p v :
  countable (ms_clock v (ms_ticks v)) (v_metrics v) → ∃ body v', route m p v = Ret (body, v').
Proof.
  intros Hc. destruct (take_snapshot_total v Hc) as (s & v' & Hs). rw /route /bind.
  repeat case_bool_decide; rw ?Hs; eauto.
Qed.

Lemma content_type_line p : CR ∉ content_type p.
Proof. rw /content_type. case_bool_decide; ConfigThms.dec. Qed.

Lemma handle_request m p rest room v :
  word m → word p → break rest → zlen (m ++ bs " " ++ p ++ rest) < 2048 →
  handle_client (mkClient (Got (m ++ bs " " ++ p ++ rest)) room) v =
    (let! body := route m p in ret (Some (take room (response (content_type p) body)))) v.
Proof.
  intros Hm Hp Hr Hlen. rw /handle_client. cbn [req HttpServer.room]. rw take_ge; [rw /BUF_SIZE; lia|].
  destruct (m ++ bs " " ++ p ++ rest) as [|b t] eqn:E; [destruct Hm as [Hm _]; by destruct m|].
  rw -E (next_word_spec m) //. change (next_word (bs " " ++ p ++ rest)) with (next_word (p ++ rest)).
  by rw next_word_spec.
Qed.

(** C36: the endpoint answers every request line.  For any method, path and
    headers in one packet, the request is handled without error, and a client
    that receives the response reads status 200, the type that belongs to the
    path, and exactly the body chosen for it: the length in the header is the
    length of the body, whatever bytes it holds.  The request fits the buffer of
    2048 bytes, and the counters are small enough to be divided as doubles
    ([countable]). *)
Theorem http_answers m p rest v :
  word m → word p → break rest → zlen (m ++ bs " " ++ p ++ rest) < 2048 →
  countable (ms_clock v (ms_ticks v)) (v_metrics v) →
  ∃ body v', route m p v = Ret (body, v') ∧ ∀ room,
    handle_client (mkClient (Got (m ++ bs " " ++ p ++ rest)) room) v =
      Ret (Some (take room (response (content_type p) body)), v') ∧
    (zlen body < 2 ^ 64 → (length (response (content_type p) body) ≤ room)%nat →
     read_response (take room (response (content_type p) body)) =
       Some (bs "HTTP/1.1 200 OK", content_type p, body)).
Proof.
  intros Hm Hp Hr Hlen Hc. destruct (route_total m p v Hc) as (body & v' & Hb). exists body, v'. split; [done|].
  intros room. rw handle_request // /bind Hb. split; [done|]. intros Hsz Hroom. rw take_ge //.
  apply read_response_spec; [apply content_type_line|done].
Qed.

(** A path that does not exist is answered with status 200.  The body says
    "not found", the status line does not. *)
Theorem http_not_found_is_ok m p rest v :
  word m → word p → break rest → zlen (m ++ bs " " ++ p ++ rest) < 2048 →
  p ≠ bs "/metrics" → p ≠ bs "/health" → p ≠ bs "/stats" →
  ∃ resp, handle_client (mkClient (Got (m ++ bs " " ++ p ++ rest)) 4096) v = Ret (Some resp, v) ∧
    read_response resp = Some (bs "HTTP/1.1 200 OK", bs "application/json", not_found_json).
Proof.
  intros Hm Hp Hr Hlen H1 H2 H3. rw handle_request // /route !bool_decide_false //. eexists. split; [reflexivity|].
  by rw /content_type bool_decide_false.
Qed.
End Server.

Lemma stop_start port fd bound spawned fds :
  fd ∉ fds → -1 ≤ fd →
  let r := start fd bound spawned (new_http port) fds in
  let r' := stop r.2.1 r.2.2 in join r'.1 = Some (new_http port) ∧ r'.2 = fds.
Proof.
  intros Hfd Hneg. cbv zeta. rw /start. cbn [new_http port_ HttpServer.running_ thread_]. destruct (Z.ltb_spec fd 0) as [Hlt|Hge].
  - by assert (fd = -1) as -> by lia.
  - destruct bound; [|done]. cbn [negb]. destruct spawned; rw /stop; cbn [server_fd_ fst snd]; rw (proj2 (Z.leb_le _ _)) //;
      (split; [done|apply set_eq; set_solver]).
Qed.

(** ** The thread *)

(** What a visit cannot change. *)
Definition shape (h : Http) : Z * Z * bool * bool := (port_ h, server_fd_ h, HttpServer.running_ h, joinable h).

Section Thread.
Context {fmt : Fmt}.

(** A visit takes the thread from one wait to another, or out of its loop. *)
Lemma serve_loop_shape x h v : wp (λ _, True) (serve_loop x h) (λ r _, shape r.1 = shape h) v.
Proof.
  assert (∀ c, thread_ h ≠ NoThread → wp (λ _, True) (serve_one c h) (λ r _, shape r.1 = shape h) v) as Hone.
  { intros c Ht. rw /serve_one. wp_go. apply (wp_mono _ _ (λ _ _, True)); [by rw /wp; destruct (handle_client c v) as [[]|]|].
    intros [out|] v' _; wp_go; rw /shape /joinable; cbn; destruct (thread_ h); try done; by destruct (HttpServer.running_ h). }
  rw /serve_loop. destruct (thread_ h) eqn:Ht, x; try (by apply wp_ret); try (by apply Hone).
  apply wp_ret. by rw /shape /joinable Ht.
Qed.

(** A client that connects and sends nothing. *)
Definition mute (x : Visit) : bool := match x with Connects (mkClient Nothing _) => true | _ => false end.

(** A client that was silent and sends something, or goes. *)
Definition speaks (x : Visit) : bool := match x with Speaks (Got _) | Speaks Lost => true | _ => false end.

Definition receiving (h : Http) : bool := match thread_ h with Receiving _ => true | _ => false end.

Lemma handle_client_waits c v :
  wp (λ _, True) (handle_client c) (λ r _, r = None ↔ req c = Nothing) v.
Proof.
  rw /handle_client. destruct (req c) as [d| |]; [|by apply wp_ret..].
  destruct (take _ _); [by apply wp_ret|]. destruct (next_word _) as [m r]. destruct (next_word r) as [p ?]. wp_go.
  apply (wp_mono _ _ (λ _ _, True)); [by rw /wp; destruct (route m p v) as [[]|]|]. intros body v' _. by wp_go.
Qed.

(** The thread waits in [recv] only if a client connected that sent nothing ... *)
Lemma serve_loop_quiet x h v :
  mute x = false → receiving h = false → wp (λ _, True) (serve_loop x h) (λ r _, receiving r.1 = false) v.
Proof.
  intros Hx Hh. rw /serve_loop. destruct (thread_ h) eqn:Ht; rw /receiving Ht in Hh; try done; destruct x as [[r room]| |r];
    try (by apply wp_ret; rw /receiving ?Ht).
  rw /serve_one. wp_go. eapply wp_mono; [apply handle_client_waits|]. intros out v' Hout. cbn [req] in Hout.
  destruct out as [out|]; wp_go; [by rw /receiving; cbn; destruct (HttpServer.running_ h)|].
  by rw (proj1 Hout eq_refl) in Hx.
Qed.

(** ... and waits until that client sends something or goes. *)
Lemma serve_loop_stuck x h v :
  speaks x = false → receiving h = true → wp (λ _, True) (serve_loop x h) (λ r _, receiving r.1 = true) v.
Proof.
  intros Hx Hh. rw /serve_loop. rw /receiving in Hh. destruct (thread_ h) eqn:Ht; try done;
    destruct x as [c| |[d| |]]; try done; by apply wp_ret; rw /receiving ?Ht.
Qed.
End Thread.

(** The endpoint gives back what it took.  Whether its socket cannot be
    created, cannot be bound, its thread cannot be started or it serves for a
    while, stopping it leaves the open descriptors as they were before the start
    and, once the thread has been joined, the object as new, so it can be started
    again; it serves exactly when the start has left a thread and an open socket. *)
Theorem http_stop_releases port fd bound spawned fds :
  fd ∉ fds → (-1 ≤ fd) →
  let '(r, (h, fds1)) := start fd bound spawned (new_http port) fds in
  (r = Ret tt → HttpServer.running_ h = joinable h ∧ (joinable h = true ↔ 0 ≤ server_fd_ h)) ∧
  (r = Ret tt ↔ fd < 0 ∨ bound = false ∨ spawned = true) ∧
  (∀ x, x ∈ fds1 ↔ x ∈ fds ∨ (0 ≤ server_fd_ h ∧ x = server_fd_ h)) ∧
  join (stop h fds1).1 = Some (new_http port) ∧ (stop h fds1).2 = fds.
Proof.
  intros Hfd Hneg. pose proof (stop_start port fd bound spawned fds Hfd Hneg) as Hs. cbv zeta in Hs.
  destruct (start _ _ _ _ _) as [r [h fds1]] eqn:He. cbn [fst snd] in Hs. rw /start in He.
  cbn [new_http port_ HttpServer.running_ thread_] in He.
  split_and!; [| | |apply Hs..]; (destruct (Z.ltb_spec fd 0) as [Hlt|Hge]; [|destruct bound; cbn [negb] in He; [destruct spawned|]]);
    injection He as <- <- <-; cbn; first [done|set_solver by lia|split; [done|lia]|naive_solver lia].
Qed.

(** ** Concrete requests *)

Module Demo.
#[local] Program Instance demo_fmt : Fmt := {| fmt_fixed n d := bs "0.00" |}.
Next Obligation. ConfigThms.dec. Qed.

Definition demo_view : View := mkView MetricsThms.Demo.demo_metrics (λ _, 5000) 0.

Lemma word_dec w : bool_decide (w ≠ [] ∧ Forall (λ b, Config.isspace b = false) w) → word w.
Proof. by intros ?%bool_decide_unpack. Qed.

Lemma http_answers_witness :
  ∃ body v', route (bs "GET") (bs "/stats") demo_view = Ret (body, v') ∧ ∀ room,
    handle_client (mkClient (Got (bs "GET" ++ bs " " ++ bs "/stats" ++ bs " HTTP/1.1")) room) demo_view =
      Ret (Some (take room (response (content_type (bs "/stats")) body)), v') ∧
    (zlen body < 2 ^ 64 → (length (response (content_type (bs "/stats")) body) ≤ room)%nat →
     read_response (take room (response (content_type (bs "/stats")) body)) =
       Some (bs "HTTP/1.1 200 OK", content_type (bs "/stats"), body)).
Proof.
  apply (http_answers (bs "GET") (bs "/stats") (bs " HTTP/1.1") demo_view);
    [apply word_dec; vm_compute; exact I|apply word_dec; vm_compute; exact I|reflexivity|reflexivity|].
  split; vm_compute; repeat split; discriminate.
Defined.

Lemma http_not_found_is_ok_witness :
  ∃ resp, handle_client (mkClient (Got (bs "GET" ++ bs " " ++ bs "/none" ++ bs " HTTP/1.1")) 4096) demo_view =
      Ret (Some resp, demo_view) ∧
    read_response resp = Some (bs "HTTP/1.1 200 OK", bs "application/json", not_found_json).
Proof.
  apply (http_not_found_is_ok (bs "GET") (bs "/none") (bs " HTTP/1.1") demo_view);
    [apply word_dec; vm_compute; exact I|apply word_dec; vm_compute; exact I|reflexivity|reflexivity|discriminate|discriminate|discriminate].
Defined.

Lemma http_stop_releases_witness :
  let '(r, (h, fds1)) := start 7 true true (new_http 9999) {[ 3; 4 ]} in
  (r = Ret tt → HttpServer.running_ h = joinable h ∧ (joinable h = true ↔ 0 ≤ server_fd_ h)) ∧
  (r = Ret tt ↔ 7 < 0 ∨ true = false ∨ true = true) ∧
  (∀ x, x ∈ fds1 ↔ x ∈ ({[ 3; 4 ]} : gset Z) ∨ (0 ≤ server_fd_ h ∧ x = server_fd_ h)) ∧
  join (stop h fds1).1 = Some (new_http 9999) ∧ (stop h fds1).2 = {[ 3; 4 ]}.
Proof. apply (http_stop_releases 9999 7 true true {[ 3; 4 ]}); [set_solver|lia]. Defined.
End Demo.

End HttpThms.
