(* ===== verification/ThreadPool.v ===== *)
(** The thread pool: src/concurrency/ThreadPool.{hpp,cpp}.

    Each critical section, each notification and each start and end of a task
    is one function on the pool; [step] lets them happen in any order, as the
    scheduler may.  A worker in [cv_.wait] is [Asleep]; it leaves the wait when
    notified or for no reason, and then looks at the queue again.  The
    notification of [enqueue] comes after its lock is released, so the pool
    remembers the notifications still to come.  A packaged task and its future
    share a state, which has a number; [futures] holds these states.
    [accepted], [started] and [finished] record history and influence nothing. *)

From S2P Require Import Prelude.
From stdpp Require Import relations.

Module ThreadPool.

Section Pool.
Context {Call Val : Type}.

(** A [std::packaged_task]: the number of its shared state and what it calls. *)
Definition Job : Type := nat * Call.

(** How a call ends. *)
Inductive Result :=
  | Value (v : Val)
  | Raised (e : exn).

(** The state that a future shares with its task. *)
Inductive FState :=
  | Pending
  | Ready (r : Result)
  | Broken.               (* the task is gone without having run *)

Inductive Worker :=
  | Awake                 (* at the top of the loop, about to take the lock *)
  | Asleep                (* inside [cv_.wait] *)
  | Running (t : Job)
  | Returned.

Record Pool := mkPool {
  workers_ : list Worker;
  tasks_ : list Job;           (* front first *)
  stop_ : bool;
  futures : list FState;
  notify_ones : nat;           (* enqueues between their unlock and [notify_one] *)
  notify_all : bool;           (* shutdown between its unlock and [notify_all] *)
  accepted : list Job;
  started : list Job;
  finished : list (Job * Result)
}.

(** The pool with its threads. *)
Definition new_pool (num_threads : nat) : Pool :=
  mkPool (replicate num_threads Awake) [] false [] 0 false [] [] [].

(** What the system has for the constructor: [max_size()] and the memory of a
    vector of threads, and how many threads can be started. *)
Record Spawn := mkSpawn {
  vec_max : Z;
  vec_alloc : Z;
  spawnable : nat
}.

(** [ThreadPool::ThreadPool]: when a thread cannot be started, the exception
    destroys the threads in the vector, which are joinable. *)
Definition make_pool (sp : Spawn) (num_threads : Z) : outcome Pool :=
  if (vec_max sp <? num_threads)%Z then Fail (Throw length_error)
  else if (vec_alloc sp <? num_threads)%Z then Fail (Throw bad_alloc)
  else if (Z.of_nat (spawnable sp) <? num_threads)%Z
       then Fail (if Nat.eqb (spawnable sp) 0 then Throw system_error else Terminate)
  else Ret (new_pool (Z.to_nat num_threads)).

Definition stopped_msg : bytes := bs "enqueue on stopped ThreadPool".

(** [ThreadPool::enqueue] up to the end of its critical section: the future, and
    the pool. *)
Definition enqueue (f : Call) (p : Pool) : outcome (nat * Pool) :=
  let fut := length (futures p) in
  let t := (fut, f) in
  if stop_ p then Fail (Throw (runtime_error stopped_msg)) else
  Ret (fut, mkPool (workers_ p) (tasks_ p ++ [t]) (stop_ p) (futures p ++ [Pending]) (S (notify_ones p)) (notify_all p)
              (accepted p ++ [t]) (started p) (finished p)).

Definition with_worker (i : nat) (w : Worker) (p : Pool) : Pool :=
  mkPool (<[i := w]> (workers_ p)) (tasks_ p) (stop_ p) (futures p) (notify_ones p) (notify_all p)
    (accepted p) (started p) (finished p).

(** The critical section of [ThreadPool::worker_loop], by worker [i] once it is
    awake: wait, return, or take the front task. *)
Definition worker_check (i : nat) (p : Pool) : option Pool :=
  match workers_ p !! i with
  | Some Awake =>
      match tasks_ p with
      | [] => Some (with_worker i (if stop_ p then Returned else Asleep) p)
      | t :: rest =>
          Some (mkPool (<[i := Running t]> (workers_ p)) rest (stop_ p) (futures p) (notify_ones p)
                  (notify_all p) (accepted p) (started p ++ [t]) (finished p))
      end
  | _ => None
  end.

(** The call [task()] of worker [i] returns: the packaged task stores its value
    or its exception. *)
Definition task_returns (i : nat) (r : Result) (p : Pool) : option Pool :=
  match workers_ p !! i with
  | Some (Running t) =>
      Some (mkPool (<[i := Awake]> (workers_ p)) (tasks_ p) (stop_ p) (<[t.1 := Ready r]> (futures p))
              (notify_ones p) (notify_all p) (accepted p) (started p) (finished p ++ [(t, r)]))
  | _ => None
  end.

(** Worker [i] leaves the wait. *)
Definition wake (i : nat) (p : Pool) : option Pool :=
  match workers_ p !! i with
  | Some Asleep => Some (with_worker i Awake p)
  | _ => None
  end.

(** [cv_.notify_one()] of an enqueue: it wakes [i] if [i] sleeps; [None] is for
    a notification that finds nobody asleep. *)
Definition notify_one (who : option nat) (p : Pool) : option Pool :=
  match notify_ones p with
  | O => None
  | S n =>
      let p' := mkPool (workers_ p) (tasks_ p) (stop_ p) (futures p) n (notify_all p)
                  (accepted p) (started p) (finished p) in
      match who with
      | Some i => wake i p'
      | None => if existsb (λ w, match w with Asleep => true | _ => false end) (workers_ p)
                then None else Some p'
      end
  end.

(** The critical section of [ThreadPool::shutdown]. *)
Definition request_stop (p : Pool) : Pool :=
  mkPool (workers_ p) (tasks_ p) true (futures p) (notify_ones p) true (accepted p) (started p) (finished p).

(** [cv_.notify_all()] *)
Definition wake_all (p : Pool) : option Pool :=
  if notify_all p then
    Some (mkPool ((λ w, match w with Asleep => Awake | _ => w end) <$> workers_ p) (tasks_ p) (stop_ p) (futures p)
            (notify_ones p) false (accepted p) (started p) (finished p))
  else None.

(** The joins of [ThreadPool::shutdown] return when every worker has. *)
Definition joined (p : Pool) : bool :=
  forallb (λ w, match w with Returned => true | _ => false end) (workers_ p).

(** The end of [ThreadPool::shutdown], behind the joins: [workers_.clear()]. *)
Definition clear_workers (p : Pool) : Pool :=
  mkPool [] (tasks_ p) (stop_ p) (futures p) (notify_ones p) (notify_all p) (accepted p) (started p) (finished p).

(** [ThreadPool::shutdown] when nothing is queued and no task runs: the workers
    are told and woken, return one after the other, and are joined. *)
Definition announce (p : Pool) : Pool := default (request_stop p) (wake_all (request_stop p)).
Definition return_all (p : Pool) : Pool :=
  foldl (λ p i, default p (worker_check i p)) p (seq 0 (length (workers_ p))).
Definition shutdown_idle (p : Pool) : Pool := clear_workers (return_all (announce p)).

(** [ThreadPool::~ThreadPool], behind its shutdown: the queue goes, and with it
    the tasks that have not run. *)
Definition destroy_queue (p : Pool) : Pool :=
  mkPool (workers_ p) [] (stop_ p) (foldl (λ fs t, <[t.1 := Broken]> fs) (futures p) (tasks_ p))
    (notify_ones p) (notify_all p) (accepted p) (started p) (finished p).

(** [ThreadPool::thread_count], [ThreadPool::queue_depth] *)
Definition thread_count (p : Pool) : nat := length (workers_ p).
Definition queue_depth (p : Pool) : nat := length (tasks_ p).

Inductive step : Pool → Pool → Prop :=
  | step_enqueue f p fut p' : enqueue f p = Ret (fut, p') → step p p'
  | step_check i p p' : worker_check i p = Some p' → step p p'
  | step_return i r p p' : task_returns i r p = Some p' → step p p'
  | step_wake i p p' : wake i p = Some p' → step p p'
  | step_notify who p p' : notify_one who p = Some p' → step p p'
  | step_stop p : stop_ p = false → step p (request_stop p)
  | step_notify_all p p' : wake_all p = Some p' → step p p'.

Definition reachable (n : nat) (p : Pool) : Prop := rtc step (new_pool n) p.

(** ** The invariant *)

Definition running (ws : list Worker) : list Job :=
  omap (λ w, match w with Running t => Some t | _ => None end) ws.

(** A worker that will look at the queue without being notified. *)
Definition active (w : Worker) : Prop := w = Awake ∨ ∃ t, w = Running t.

Record inv (n : nat) (p : Pool) : Prop := {
  inv_count : length (workers_ p) = n;
  inv_fifo : accepted p = started p ++ tasks_ p;
  inv_once : started p ≡ₚ (finished p).*1 ++ running (workers_ p);
  inv_returned : Returned ∈ workers_ p → stop_ p = true ∧ tasks_ p = [];
  inv_asleep : stop_ p = true → notify_all p = false → Asleep ∉ workers_ p;
  inv_all : notify_all p = true → stop_ p = true;
  inv_awake : tasks_ p ≠ [] → (0 < n)%nat →
    (∃ w, w ∈ workers_ p ∧ active w) ∨ (0 < notify_ones p)%nat ∨ notify_all p = true;
  (** the futures are numbered in the order of the tasks, and hold their results *)
  inv_ids : (accepted p).*1 = seq 0 (length (futures p));
  inv_ready : ∀ id st, futures p !! id = Some st →
    match st with
    | Pending => id ∉ (finished p).*1.*1
    | Ready r => ∃ f, ((id, f), r) ∈ finished p
    | Broken => False
    end
}.

End Pool.

Arguments Worker Call : clear implicits.
Arguments Result Val : clear implicits.
Arguments FState Val : clear implicits.
Arguments Pool Call Val : clear implicits.

End ThreadPool.
