(* ===== verification/ThreadPoolThms.v ===== *)
(** The thread pool loses no task, runs none twice, misses no wake-up, and its
    shutdown drains the queue and ends. *)

From S2P Require Import Prelude ThreadPool.
From stdpp Require Import relations.

Module ThreadPoolThms.
Import ThreadPool.

Section Thms.
Context {Call Val : Type}.
Implicit Types p : Pool Call Val.

Lemma split_at (ws : list (Worker Call)) i w :
  ws !! i = Some w →
  ∃ l1 l2, ws = l1 ++ w :: l2 ∧ ∀ w', <[i := w']> ws = l1 ++ w' :: l2.
Proof.
  intros Hi. destruct (list_elem_of_split_length ws i w Hi) as (l1 & l2 & -> & ->).
  exists l1, l2. split; [done|]. intros w'. by rw -{1}(Nat.add_0_r (length l1)) insert_app_r.
Qed.

Lemma running_app (l1 l2 : list (Worker Call)) : running (l1 ++ l2) = running l1 ++ running l2.
Proof. apply omap_app. Qed.

Lemma running_wake (ws : list (Worker Call)) :
  running ((λ w, match w with Asleep => Awake | _ => w end) <$> ws) = running ws.
Proof. induction ws as [|[] ws IH]; simpl; rw ?IH; done. Qed.

Lemma inv_new n : inv n (@new_pool Call Val n).
Proof.
  split; simpl; try done.
  - apply length_replicate.
  - by induction n.
  - by intros [? _]%elem_of_replicate.
Qed.

(** Membership after worker [i] went from [w] to [w']. *)
Lemma elem_change (l1 l2 : list (Worker Call)) w w' x :
  x ∈ l1 ++ w' :: l2 → x = w' ∨ x ∈ l1 ++ w :: l2.
Proof. rw !elem_of_app !elem_of_cons. tauto. Qed.

Lemma elem_middle (l1 l2 : list (Worker Call)) w : w ∈ l1 ++ w :: l2.
Proof. rw elem_of_app elem_of_cons. tauto. Qed.

(** Every job the pool knows of has a future. *)
Lemma job_ids n p : inv n p → NoDup (started p).*1 ∧
  (∀ id, id ∈ (started p).*1 → (id < length (futures p))%nat) ∧ (finished p).*1.*1 ⊆ (started p).*1.
Proof.
  intros Hinv. pose proof (inv_ids _ _ Hinv) as Hid. rw (inv_fifo _ _ Hinv) fmap_app in Hid.
  pose proof (NoDup_seq 0 (length (futures p))) as Hnd. rw -Hid in Hnd. apply NoDup_app in Hnd as [Hnd _].
  split_and!; [done| |].
  - intros id Hin. assert (id ∈ seq 0 (length (futures p))) as H%elem_of_seq; [|lia]. rw -Hid. apply elem_of_app. by left.
  - intros id Hin. rw (inv_once _ _ Hinv) fmap_app. apply elem_of_app. by left.
Qed.

Lemma inv_enqueue n f p fut p' : inv n p → enqueue f p = Ret (fut, p') → inv n p'.
Proof.
  intros Hinv. pose proof (job_ids n p Hinv) as (_ & Hlt & Hsub). destruct Hinv as [H1 H2 H3 H4 H5 H6 H7 H8 H9].
  rw /enqueue. destruct (stop_ p) eqn:Hs; [done|]. intros [= <- <-]. split; simpl; try done.
  - by rw H2 app_assoc.
  - intros [? _]%H4. done.
  - intros _ _. right. left. lia.
  - rw fmap_app H8 length_app seq_app //.
  - intros id st. rw lookup_app_Some. intros [Hi|[Hge Hi]]; [by apply H9|].
    apply list_lookup_singleton_Some in Hi as [Hid <-]. intros Hin%Hsub%Hlt. lia.
Qed.

Lemma inv_check n i p p' : inv n p → worker_check i p = Some p' → inv n p'.
Proof.
  intros [H1 H2 H3 H4 H5 H6 H7 H8 H9]. rw /worker_check. destruct (workers_ p !! i) as [[]|] eqn:Hi; try done.
  destruct (split_at _ _ _ Hi) as (l1 & l2 & Hw & Hins). rw Hw running_app /= in H3.
  destruct (tasks_ p) as [|t rest] eqn:Ht; intros [= <-].
  - rw /with_worker Hins. rw Hw in H1 H4 H5.
    split; simpl; rw ?Ht; try done.
    + rw !length_app /= in H1 |- *. lia.
    + rw running_app. by destruct (stop_ p).
    + intros Hr. destruct (stop_ p); [done|]. apply (elem_change _ _ Awake) in Hr as [|Hr]; [done|].
      by apply H4 in Hr as [? _].
    + intros Hs Hn Ha. rw Hs in Ha. apply (elem_change _ _ Awake) in Ha as [|Ha]; [done|]. by apply H5.
  - rw Hins. rw Hw in H1 H4 H5. split; simpl; try done.
    + rw !length_app /= in H1 |- *. lia.
    + by rw H2 -app_assoc.
    + rw running_app /=. rw H3 -!app_assoc. apply Permutation_app_head.
      apply Permutation_app_head. by rw (Permutation_app_comm _ [t]).
    + intros [|Hr]%(elem_change _ _ Awake); [done|]. by apply H4 in Hr as [_ ?].
    + intros Hs Hn [|Ha]%(elem_change _ _ Awake); [done|]. by apply H5.
    + intros _ _. left. exists (Running t). split; [apply elem_middle|]. right. by exists t.
Qed.

Lemma inv_task_returns n i r p p' : inv n p → task_returns i r p = Some p' → inv n p'.
Proof.
  intros [H1 H2 H3 H4 H5 H6 H7 H8 H9]. rw /task_returns. destruct (workers_ p !! i) as [[]|] eqn:Hi; try done.
  destruct (split_at _ _ _ Hi) as (l1 & l2 & Hw & Hins). rw Hw running_app /= in H3. intros [= <-].
  rw Hins. rw Hw in H1 H4 H5. split; simpl; try done.
  - rw !length_app /= in H1 |- *. lia.
  - rw fmap_app running_app /= H3 -!app_assoc. apply Permutation_app_head. by rw -Permutation_middle.
  - intros [|Hr]%(elem_change _ _ (Running t)); [done|]. by apply H4.
  - intros Hs Hn [|Ha]%(elem_change _ _ (Running t)); [done|]. by apply H5.
  - intros _ _. left. exists Awake. split; [apply elem_middle|by left].
  - by rw length_insert.
  - intros id st [(<- & <- & _)|[Hne Hj]]%list_lookup_insert_Some.
    + destruct t as [id f]. exists f. apply elem_of_app. right. by left.
    + specialize (H9 _ _ Hj). destruct st as [|r'|]; [|destruct H9 as [f Hf]; exists f; apply elem_of_app; by left|done].
      rw !fmap_app elem_of_app. intros [?|He]; [done|]. apply list_elem_of_singleton in He. by destruct Hne.
Qed.

Lemma inv_wake n i p p' : inv n p → wake i p = Some p' → inv n p'.
Proof.
  intros [H1 H2 H3 H4 H5 H6 H7 H8 H9]. rw /wake. destruct (workers_ p !! i) as [[]|] eqn:Hi; try done.
  destruct (split_at _ _ _ Hi) as (l1 & l2 & Hw & Hins). rw Hw running_app /= in H3. intros [= <-].
  rw /with_worker Hins. rw Hw in H1 H4 H5. split; simpl; try done.
  - rw !length_app /= in H1 |- *. lia.
  - by rw running_app.
  - intros [|Hr]%(elem_change _ _ Asleep); [done|]. by apply H4.
  - intros Hs Hn [|Ha]%(elem_change _ _ Asleep); [done|]. by apply H5.
  - intros _ _. left. exists Awake. split; [apply elem_middle|by left].
Qed.

(** With work to do nobody has returned: a worker that is not asleep is active. *)
Lemma awake_or_running n p :
  inv n p → tasks_ p ≠ [] → (0 < n)%nat → Asleep ∉ workers_ p → ∃ w, w ∈ workers_ p ∧ active w.
Proof.
  intros Hinv Ht Hn Ha. pose proof (inv_count _ _ Hinv) as Hc.
  destruct (workers_ p) as [|w ws] eqn:Hws; [simpl in Hc; lia|]. exists w. split; [left|].
  pose proof (inv_returned _ _ Hinv) as Hr. rw Hws in Hr.
  destruct w as [| |t|]; [by left|set_solver|right; by exists t|]. by destruct (Hr ltac:(left)).
Qed.

Lemma inv_notify n who p p' : inv n p → notify_one who p = Some p' → inv n p'.
Proof.
  intros Hinv. rw /notify_one. destruct (notify_ones p) as [|k] eqn:Hk; [done|]. destruct who as [i|].
  - rw /wake. cbn [workers_]. destruct (workers_ p !! i) as [[]|] eqn:Hi; try done. intros [= <-].
    assert (inv n (with_worker i Awake p)) as [H1 H2 H3 H4 H5 H6 H7 H8 H9].
    { eapply (inv_wake _ i); [done|]. by rw /wake Hi. }
    split; try done. intros _ _. left. exists Awake. split; [|by left].
    apply list_elem_of_lookup. exists i. apply list_lookup_insert_eq. by eapply lookup_lt_Some.
  - destruct (existsb _ _) eqn:He; [done|]. intros [= <-].
    assert (Asleep ∉ workers_ p) as Hno.
    { intros Hin%list_elem_of_In. assert (existsb (λ w : Worker Call, match w with Asleep => true | _ => false end)
        (workers_ p) = true) as Ht; [|congruence]. apply existsb_exists. by exists Asleep. }
    pose proof (awake_or_running n p Hinv) as Haw. destruct Hinv as [H1 H2 H3 H4 H5 H6 H7 H8 H9].
    split; try done. intros Ht Hn. left. by apply Haw.
Qed.

Lemma inv_wake_all n p p' : inv n p → wake_all p = Some p' → inv n p'.
Proof.
  intros Hinv. rw /wake_all. destruct (notify_all p) eqn:Hn; [|done]. intros [= <-].
  assert (∀ w, w ∈ (λ w : Worker Call, match w with Asleep => Awake | _ => w end) <$> workers_ p →
    w ≠ Asleep ∧ (w ∈ workers_ p ∨ w = Awake)) as Hel.
  { intros w (w0 & -> & Hin)%list_elem_of_fmap. destruct w0; auto. }
  pose proof Hinv as [H1 H2 H3 H4 H5 H6 H7 H8 H9]. split; simpl; try done.
  - by rw length_fmap.
  - by rw running_wake.
  - intros [_ [Hr|]]%Hel; [|done]. by apply H4.
  - intros _ _ [? _]%Hel. done.
  - intros Ht Hpos. left.
    destruct (workers_ p) as [|w ws] eqn:Hws; [simpl in H1; lia|].
    exists (match w with Asleep => Awake | _ => w end). split; [left|].
    destruct w as [| |t|]; [by left|by left|right; by exists t|]. by destruct (H4 ltac:(left)).
Qed.

Lemma inv_stop n p : inv n p → inv n (request_stop p).
Proof.
  intros [H1 H2 H3 H4 H5 H6 H7 H8 H9]. split; simpl; try done.
  - intros Hr. by destruct (H4 Hr).
  - intros _ _. by right; right.
Qed.

Lemma inv_step n p p' : inv n p → step p p' → inv n p'.
Proof.
  intros Hinv Hstep. destruct Hstep; eauto using inv_enqueue, inv_check, inv_task_returns, inv_wake,
    inv_notify, inv_wake_all, inv_stop.
Qed.

Lemma inv_reachable n p : reachable n p → inv n p.
Proof.
  rw /reachable. intros Hr. remember (new_pool n) as p0 eqn:Hp0.
  assert (inv n p0) as H0 by (subst; apply inv_new). clear Hp0.
  induction Hr as [|p0 p1 p2 Hs _ IH]; [done|]. apply IH. by eapply inv_step.
Qed.

(** ** Shutdown *)

Definition weight (w : Worker Call) : nat :=
  match w with Running _ => 3 | Awake => 2 | Asleep => 1 | Returned => 0 end.
Definition weights (ws : list (Worker Call)) : nat := foldr (λ w n, (weight w + n)%nat) 0%nat ws.

(** What is left to do once the pool has been told to stop. *)
Definition remaining (p : Pool Call Val) : nat :=
  (notify_ones p + 2 * length (tasks_ p) + weights (workers_ p))%nat.

Lemma weights_app l1 l2 : weights (l1 ++ l2) = (weights l1 + weights l2)%nat.
Proof. induction l1 as [|w l1 IH]; simpl; [done|]. rw IH. lia. Qed.

Lemma stopping_step n p p' :
  inv n p → stop_ p = true → notify_all p = false → step p p' →
  (remaining p' < remaining p)%nat ∧ stop_ p' = true ∧ notify_all p' = false.
Proof.
  intros Hinv Hs Hn Hstep. pose proof (inv_asleep _ _ Hinv Hs Hn) as Hno.
  destruct Hstep as [f p fut p' H|i p p' H|i r p p' H|i p p' H|who p p' H|p H|p p' H].
  - by rw /enqueue Hs in H.
  - rw /worker_check in H. destruct (workers_ p !! i) as [[]|] eqn:Hi; try done.
    destruct (split_at _ _ _ Hi) as (l1 & l2 & Hw & Hins).
    destruct (tasks_ p) as [|t rest] eqn:Ht; injection H as <-;
      rw /remaining /with_worker /= Hins Ht Hs Hw !weights_app /=; (split; [lia|done]).
  - rw /task_returns in H. destruct (workers_ p !! i) as [[]|] eqn:Hi; try done.
    destruct (split_at _ _ _ Hi) as (l1 & l2 & Hw & Hins). injection H as <-.
    rw /remaining /= Hins Hw !weights_app /=. split; [lia|done].
  - rw /wake in H. destruct (workers_ p !! i) as [[]|] eqn:Hi; try done.
    by apply list_elem_of_lookup_2 in Hi.
  - rw /notify_one in H. destruct (notify_ones p) as [|k] eqn:Hk; [done|]. destruct who as [i|].
    + rw /wake /= in H. destruct (workers_ p !! i) as [[]|] eqn:Hi; try done.
      by apply list_elem_of_lookup_2 in Hi.
    + destruct (existsb _ _); [done|]. injection H as <-. rw /remaining /= Hk. split; [lia|done].
  - congruence.
  - by rw /wake_all Hn in H.
Qed.

Lemma forallb_false {A} (f : A → bool) l : forallb f l = false → ∃ x, x ∈ l ∧ f x = false.
Proof.
  induction l as [|x l IH]; [done|]. simpl. destruct (f x) eqn:Hf; simpl.
  - intros (y & ? & ?)%IH. exists y. split; [by right|done].
  - intros _. exists x. split; [left|done].
Qed.

(** A worker that is awake or running can always go on. *)
Lemma active_step p w : w ∈ workers_ p → active w →
  ∃ i p', worker_check i p = Some p' ∨ ∀ r, ∃ p', task_returns i r p = Some p'.
Proof.
  intros [i Hi]%list_elem_of_lookup [->|[t ->]]; exists i.
  - rw /worker_check Hi. destruct (tasks_ p); eexists; by left.
  - exists p. right. intros r. rw /task_returns Hi. by eexists.
Qed.

Lemma stopping_enabled n p :
  inv n p → stop_ p = true → notify_all p = false → joined p = false → ∃ p', step p p'.
Proof.
  intros Hinv Hs Hn (w & Hw & Hnr)%forallb_false. pose proof (inv_asleep _ _ Hinv Hs Hn) as Hno.
  destruct (active_step p w Hw) as (i & p' & [H|H]).
  - destruct w as [| |t|]; [by left|by destruct Hno|right; by exists t|done].
  - exists p'. by eapply step_check.
  - destruct (H (Raised system_error)) as [p2 Hp2]. exists p2. by eapply step_return.
Qed.

Lemma joined_drained n p :
  inv n p → (0 < n)%nat → joined p = true → tasks_ p = [] ∧ accepted p ≡ₚ (finished p).*1.
Proof.
  intros Hinv Hpos Hj. rw /joined forallb_forall in Hj.
  assert (∀ w, w ∈ workers_ p → w = Returned) as Hall.
  { intros w Hw%list_elem_of_In%Hj. by destruct w. }
  assert (running (workers_ p) = []) as Hrun.
  { clear -Hall. induction (workers_ p) as [|w ws IH]; [done|]. simpl.
    rw (Hall w); [left|]. apply IH. intros. apply Hall. by right. }
  pose proof (inv_count _ _ Hinv) as Hc. destruct (workers_ p) as [|w ws] eqn:Hws; [simpl in Hc; lia|].
  destruct (inv_returned _ _ Hinv) as [_ Ht].
  { rw Hws (Hall w); left. }
  split; [done|]. rw (inv_fifo _ _ Hinv) Ht app_nil_r (inv_once _ _ Hinv) Hws Hrun app_nil_r //.
Qed.

(** ** Futures *)

(** A job that is running has not finished: its future is pending. *)
Lemma running_pending n p i t :
  inv n p → workers_ p !! i = Some (Running t) → futures p !! t.1 = Some Pending.
Proof.
  intros Hinv Hi. pose proof (job_ids n p Hinv) as (Hnd & Hlt & _).
  assert (t ∈ running (workers_ p)) as Ht.
  { apply list_elem_of_omap. exists (Running t). split; [by eapply list_elem_of_lookup_2|done]. }
  rw (inv_once _ _ Hinv) fmap_app in Hnd. apply NoDup_app in Hnd as (_ & Hdis & _).
  assert (t.1 ∉ (finished p).*1.*1) as Hno.
  { intros Hin. apply (Hdis _ Hin). by apply list_elem_of_fmap_2. }
  destruct (lookup_lt_is_Some_2 (futures p) t.1) as [st Hst].
  { apply Hlt. rw (inv_once _ _ Hinv) fmap_app. apply elem_of_app. right. by apply list_elem_of_fmap_2. }
  pose proof (inv_ready _ _ Hinv _ _ Hst) as Hr. destruct st as [|r|]; [done| |done]. destruct Hr as [f Hf].
  destruct Hno. apply list_elem_of_fmap. exists (t.1, f). split; [done|]. apply list_elem_of_fmap. by exists (t.1, f, r).
Qed.

Lemma ready_stays n p p' id r :
  inv n p → step p p' → futures p !! id = Some (Ready r) → futures p' !! id = Some (Ready r).
Proof.
  intros Hinv Hstep Hid. destruct Hstep as [f p fut p' H|i p p' H|i r' p p' H|i p p' H|who p p' H|p H|p p' H].
  - rw /enqueue in H. destruct (stop_ p); [done|]. injection H as _ <-. by apply lookup_app_l_Some.
  - rw /worker_check in H. repeat case_match; by simplify_eq/=.
  - rw /task_returns in H. destruct (workers_ p !! i) as [[]|] eqn:Hi; try done. injection H as <-. cbn.
    pose proof (running_pending _ _ _ _ Hinv Hi) as Hp. rw list_lookup_insert_ne //. intros He. rw He Hid in Hp. done.
  - rw /wake in H. repeat case_match; by simplify_eq/=.
  - rw /notify_one /wake in H. repeat case_match; by simplify_eq/=.
  - done.
  - rw /wake_all in H. repeat case_match; by simplify_eq/=.
Qed.

Lemma broken_lookup (l : list (@Job Call)) : ∀ (fs : list (FState Val)) i st,
  foldl (λ fs t, <[t.1 := Broken]> fs) fs l !! i = Some st →
  (i ∈ l.*1 ∧ st = Broken) ∨ (i ∉ l.*1 ∧ fs !! i = Some st).
Proof.
  induction l as [|t l IH]; intros fs i st; cbn [foldl]; [intros; right; split; [apply not_elem_of_nil|done]|].
  intros [[? ?]|[Hno Hi]]%IH; [left; split; [by right|done]|].
  apply list_lookup_insert_Some in Hi as [(<- & <- & _)|[Hne Hi]]; [left; split; [by left|done]|].
  right. split; [|done]. rw fmap_cons not_elem_of_cons. split; [congruence|done].
Qed.

(** ** The shutdown of an idle pool *)

(** Told to stop and awake, with an empty queue: each worker returns. *)
Record leaving (p : Pool Call Val) : Prop := {
  lv_stop : stop_ p = true;
  lv_tasks : tasks_ p = [];
  lv_workers : ∀ i w, workers_ p !! i = Some w → w = Awake ∨ w = Returned
}.

Lemma leave_one p i :
  leaving p → let q := default p (worker_check i p) in
  leaving q ∧ rtc step p q ∧ length (workers_ q) = length (workers_ p) ∧
  ∀ j w, workers_ q !! j = Some w → (j = i → w = Returned) ∧ (w = Returned ∨ workers_ p !! j = Some w).
Proof.
  intros [Hs Ht Hw]. cbv zeta. destruct (workers_ p !! i) as [w0|] eqn:Hi.
  2:{ rw /worker_check Hi /=. split_and!; [done|done|done|]. intros j w Hj. split; [intros ->; congruence|by right]. }
  destruct (Hw _ _ Hi) as [-> | ->].
  - assert (worker_check i p = Some (with_worker i Returned p)) as Hc by rw /worker_check Hi Ht Hs //. rw Hc /=.
    split_and!; [|by eapply rtc_once, step_check|apply length_insert|].
    + split; [done..|]. intros j w. rw /= list_lookup_insert_Some. intros [(_ & <- & _)|[_ ?]]; [by right|by eapply Hw].
    + intros j w. rw list_lookup_insert_Some. intros [(-> & <- & _)|[? ?]]; [by auto|]. split; [congruence|by right].
  - rw /worker_check Hi /=. split_and!; [done|done|done|]. intros j w Hj. split; [intros ->; congruence|by right].
Qed.

Lemma leave_all is_ : ∀ p,
  leaving p → let q := foldl (λ p i, default p (worker_check i p)) p is_ in
  rtc step p q ∧ length (workers_ q) = length (workers_ p) ∧
  ∀ j w, workers_ q !! j = Some w → (j ∈ is_ → w = Returned) ∧ (w = Returned ∨ workers_ p !! j = Some w).
Proof.
  induction is_ as [|i is_ IH]; intros p Hp; cbn [foldl]; cbv zeta.
  { split_and!; [done..|]. intros j w Hj. split; [by intros ?%not_elem_of_nil|by right]. }
  destruct (leave_one p i Hp) as (Hq & Hr & Hl & Hw). destruct (IH _ Hq) as (Hr' & Hl' & Hw').
  split_and!; [by etrans|by rw Hl'|]. intros j w Hj. destruct (Hw' _ _ Hj) as [H1 H2].
  split; [intros [->|?]%elem_of_cons; [|auto]|]; (destruct H2 as [?|H2]; [auto|]); destruct (Hw _ _ H2); auto.
Qed.

(** It is a run of the pool, after which the joins return. *)
Lemma idle_joined p :
  tasks_ p = [] → (∀ i t, workers_ p !! i ≠ Some (Running t)) →
  rtc step (request_stop p) (return_all (announce p)) ∧ joined (return_all (announce p)) = true.
Proof.
  intros Ht Hrun. assert (leaving (announce p)) as Hl.
  { split; [done..|]. intros i w. rw /announce /= list_lookup_fmap. destruct (workers_ p !! i) as [w'|] eqn:Hi; [|done].
    intros [= <-]. destruct w'; [by left|by left|by destruct (Hrun _ _ Hi)|by right]. }
  destruct (leave_all (seq 0 (length (workers_ (announce p)))) _ Hl) as (Hr & Hlen & Hw). split.
  - eapply rtc_l; [by eapply (step_notify_all (request_stop p))|exact Hr].
  - rw /joined. apply forallb_forall. intros w Hin%list_elem_of_In. apply list_elem_of_lookup in Hin as [j Hj].
    destruct (Hw j w Hj) as [Hret _]. rw Hret //. apply elem_of_seq. apply lookup_lt_Some in Hj.
    rw /return_all Hlen in Hj. lia.
Qed.

(** A pool without threads starts nothing. *)
Lemma no_threads_no_work p : reachable 0 p → started p = [].
Proof.
  rw /reachable. intros Hr. remember (new_pool 0) as p0 eqn:Hp0.
  assert (inv 0 p0 ∧ started p0 = []) as H0 by (subst; split; [apply inv_new|done]). clear Hp0.
  induction Hr as [p|p0 p1 p2 Hs _ IH]; [by destruct H0|]. destruct H0 as [Hinv H0]. apply IH. split; [by eapply inv_step|].
  pose proof (inv_count _ _ Hinv) as Hc%nil_length_inv.
  destruct Hs as [f p fut p' H|i p p' H|i r' p p' H|i p p' H|who p p' H|p H|p p' H]; [..|done|].
  - rw /enqueue in H. destruct (stop_ p); [done|]. by injection H as _ <-.
  - by rw /worker_check Hc in H.
  - by rw /task_returns Hc in H.
  - by rw /wake Hc in H.
  - rw /notify_one /wake in H. repeat case_match; by simplify_eq/=.
  - rw /wake_all in H. case_match; by simplify_eq/=.
Qed.

(** ** Claims *)

(** C27: a future holds the result of its own task and of no other.  In every
    reachable state future [id] belongs to the [id]th accepted task; it is ready
    exactly when that task has returned, with the value or the exception it
    returned with, and from then on it never changes. *)
Theorem pool_futures n p id f :
  reachable n p → accepted p !! id = Some f →
  f.1 = id ∧
  ((∃ r, futures p !! id = Some (Ready r) ∧ (f, r) ∈ finished p ∧
      ∀ p', rtc step p p' → futures p' !! id = Some (Ready r)) ∨
   (futures p !! id = Some Pending ∧ ∀ r, (f, r) ∉ finished p)).
Proof.
  intros Hr Hf. pose proof (inv_reachable _ _ Hr) as Hinv. pose proof (inv_ids _ _ Hinv) as Hid.
  assert ((accepted p).*1 !! id = Some f.1) as Hfst by (rw list_lookup_fmap Hf //).
  rw Hid in Hfst. apply lookup_seq in Hfst as [Hfid Hlt]. cbn in Hfid. subst id. split; [done|].
  destruct (lookup_lt_is_Some_2 (futures p) f.1 Hlt) as [st Hst]. pose proof (inv_ready _ _ Hinv _ _ Hst) as Hrd.
  destruct st as [|r|]; [right|left|done].
  - split; [done|]. intros r Hin. apply Hrd. apply list_elem_of_fmap. exists f. split; [done|].
    apply list_elem_of_fmap. by exists (f, r).
  - exists r. destruct Hrd as [c Hc]. split_and!; [done| |].
    + assert ((f.1, c) = f) as <-; [|done]. assert ((f.1, c) ∈ accepted p) as [j Hj]%list_elem_of_lookup.
      { rw (inv_fifo _ _ Hinv) (inv_once _ _ Hinv) !elem_of_app. left. left. apply list_elem_of_fmap. by exists (f.1, c, r). }
      assert ((accepted p).*1 !! j = Some f.1) as Hjf by (rw list_lookup_fmap Hj //).
      rw Hid in Hjf. apply lookup_seq in Hjf as [Hjf _]. cbn in Hjf. rw -Hjf Hf in Hj. by injection Hj as <-.
    + intros p' Hsteps. clear Hc Hf Hid Hlt. induction Hsteps as [|p p1 p' Hs _ IH]; [done|]. apply IH.
      * eapply rtc_r; done.
      * by eapply inv_step.
      * by eapply ready_stays.
Qed.

(** C30: after a shutdown every future can be waited for.  When the workers of a
    pool with at least one thread have been joined, destroying the pool leaves
    every future ready; a pool without threads runs nothing, and destroying it
    breaks every promise. *)
Theorem pool_destroyed_settles n p id st :
  reachable n p → joined p = true → futures (destroy_queue (clear_workers p)) !! id = Some st →
  if Nat.eqb n 0 then st = Broken else ∃ r, st = Ready r.
Proof.
  intros Hr Hj [[Hin ->]|[Hno Hst]]%broken_lookup; cbn in *; pose proof (inv_reachable _ _ Hr) as Hinv.
  - destruct (Nat.eqb_spec n 0) as [|Hpos]; [done|].
    destruct (joined_drained _ _ Hinv ltac:(lia) Hj) as [Ht _]. rw Ht in Hin. by apply not_elem_of_nil in Hin.
  - assert (id ∈ (accepted p).*1) as Hacc.
    { rw (inv_ids _ _ Hinv) elem_of_seq. apply lookup_lt_Some in Hst. lia. }
    rw (inv_fifo _ _ Hinv) fmap_app elem_of_app in Hacc. destruct Hacc as [Hacc|?]; [|done].
    destruct (Nat.eqb_spec n 0) as [->|Hpos].
    { rw no_threads_no_work // in Hacc. by apply not_elem_of_nil in Hacc. }
    destruct (joined_drained _ _ Hinv ltac:(lia) Hj) as [Ht Hf]. pose proof (inv_ready _ _ Hinv _ _ Hst) as Hrd.
    destruct st as [|r|]; [|by exists r|done]. destruct Hrd. rw -Hf (inv_fifo _ _ Hinv) fmap_app elem_of_app. by left.
Qed.

(** C26: no task is lost, repeated or reordered.  In every reachable state the
    accepted tasks are, in order, those that were started followed by those in
    the queue, and each started task is finished or running, exactly once. *)
Theorem pool_accounts_for_tasks n p :
  reachable n p →
  accepted p = started p ++ tasks_ p ∧ started p ≡ₚ (finished p).*1 ++ running (workers_ p).
Proof. intros [_ H2 H3 _ _ _ _ _ _]%inv_reachable. by split. Qed.

(** C28: no wake-up is missed.  Whenever a task is queued in a pool with at
    least one thread, some worker can go on, or a notification is still to
    come; the pool never sleeps on a non-empty queue. *)
Theorem pool_misses_no_wakeup n p :
  reachable n p → (0 < n)%nat → tasks_ p ≠ [] →
  (∃ i p', worker_check i p = Some p' ∨ ∀ r, ∃ p', task_returns i r p = Some p') ∨
  (0 < notify_ones p)%nat ∨ notify_all p = true.
Proof.
  intros Hinv%inv_reachable Hpos Ht. destruct (inv_awake _ _ Hinv Ht Hpos) as [(w & Hw & Ha)|]; [left|by right].
  by eapply active_step.
Qed.

(** C29: shutdown drains the queue and ends.  Once the stop has been announced,
    every step leaves less to do, some step is possible until all workers have
    returned, and when they have, the queue is empty and every accepted task
    is finished. *)
Theorem pool_shutdown_drains n p :
  reachable n p → (0 < n)%nat → stop_ p = true → notify_all p = false →
  (∀ p', step p p' → (remaining p' < remaining p)%nat ∧ stop_ p' = true ∧ notify_all p' = false) ∧
  (joined p = false → ∃ p', step p p') ∧
  (joined p = true → tasks_ p = [] ∧ accepted p ≡ₚ (finished p).*1).
Proof.
  intros Hinv%inv_reachable Hpos Hs Hn. split_and!.
  - intros p' Hstep. by eapply stopping_step.
  - intros Hj. by eapply stopping_enabled.
  - intros Hj. by eapply joined_drained.
Qed.

End Thms.

(** ** Concrete runs *)

Module Demo.

(** One thread takes the first of two tasks. *)
Definition busy : Pool nat nat :=
  mkPool [Running (0, 1)%nat] [(1, 2)%nat] false [Pending; Pending] 2 false [(0, 1); (1, 2)]%nat [(0, 1)%nat] [].

Lemma busy_reachable : reachable 1 busy.
Proof.
  eapply rtc_l; [by eapply (step_enqueue 1%nat)|]. eapply rtc_l; [by eapply (step_enqueue 2%nat)|].
  eapply rtc_l; [by apply (step_check 0)|]. apply rtc_refl.
Qed.

Lemma pool_accounts_for_tasks_witness :
  accepted busy = started busy ++ tasks_ busy ∧ started busy ≡ₚ (finished busy).*1 ++ running (workers_ busy).
Proof. apply (pool_accounts_for_tasks 1 busy busy_reachable). Defined.

Lemma pool_misses_no_wakeup_witness :
  (∃ i p', worker_check i busy = Some p' ∨ ∀ r, ∃ p', task_returns i r busy = Some p') ∨
  (0 < notify_ones busy)%nat ∨ notify_all busy = true.
Proof. apply (pool_misses_no_wakeup 1 busy busy_reachable); [lia|discriminate]. Defined.

(** The same pool, told to stop. *)
Definition stopping : Pool nat nat :=
  mkPool [Running (0, 1)%nat] [(1, 2)%nat] true [Pending; Pending] 2 false [(0, 1); (1, 2)]%nat [(0, 1)%nat] [].

Lemma stopping_reachable : reachable 1 stopping.
Proof.
  unfold reachable. etrans; [apply busy_reachable|]. eapply rtc_l; [by apply step_stop|].
  eapply rtc_l; [by apply step_notify_all|]. apply rtc_refl.
Qed.

Lemma pool_shutdown_drains_witness :
  (∀ p', step stopping p' → (remaining p' < remaining stopping)%nat ∧ stop_ p' = true ∧ notify_all p' = false) ∧
  (joined stopping = false → ∃ p', step stopping p') ∧
  (joined stopping = true → tasks_ stopping = [] ∧ accepted stopping ≡ₚ (finished stopping).*1).
Proof. apply (pool_shutdown_drains 1 stopping stopping_reachable); [lia|reflexivity..]. Defined.

(** A task that returned 7, and a pool whose only worker has left. *)
Definition served : Pool nat nat :=
  mkPool [Awake] [] false [Ready (Value 7%nat)] 1 false [(0, 1)%nat] [(0, 1)%nat] [((0, 1)%nat, Value 7%nat)].

Lemma served_reachable : reachable 1 served.
Proof.
  eapply rtc_l; [by eapply (step_enqueue 1%nat)|]. eapply rtc_l; [by apply (step_check 0)|].
  eapply rtc_l; [by apply (step_return 0 (Value 7%nat))|]. apply rtc_refl.
Qed.

Definition left_pool : Pool nat nat :=
  mkPool [Returned] [] true [Ready (Value 7%nat)] 1 false [(0, 1)%nat] [(0, 1)%nat] [((0, 1)%nat, Value 7%nat)].

Lemma left_reachable : reachable 1 left_pool.
Proof.
  unfold reachable. etrans; [apply served_reachable|]. eapply rtc_l; [by apply step_stop|].
  eapply rtc_l; [by apply step_notify_all|]. eapply rtc_l; [by apply (step_check 0)|]. apply rtc_refl.
Qed.

Lemma pool_futures_witness :
  (0, 1).1%nat = 0%nat ∧
  ((∃ r, futures served !! 0%nat = Some (Ready r) ∧ ((0, 1)%nat, r) ∈ finished served ∧
      ∀ p', rtc step served p' → futures p' !! 0%nat = Some (Ready r)) ∨
   (futures served !! 0%nat = Some Pending ∧ ∀ r, ((0, 1)%nat, r) ∉ finished served)).
Proof. apply (pool_futures 1 served 0 (0, 1)%nat served_reachable). reflexivity. Defined.

Lemma pool_destroyed_settles_witness : ∃ r, Ready (Value 7%nat) = Ready (Val := nat) r.
Proof.
  exact (pool_destroyed_settles 1 left_pool 0 (Ready (Value 7%nat)) left_reachable eq_refl eq_refl).
Defined.
End Demo.

End ThreadPoolThms.
