(* ===== verification/Listener.v ===== *)
(** The listening socket: src/network/TcpListener.{hpp,cpp}.

    The kernel's sockets are a map from descriptors to what the calls have made
    of them; which calls succeed is an input.  A failing path throws, and the
    map says what is left open. *)

From S2P Require Import Prelude.

Module TcpListener.

Record LSock := mkLSock {
  reuse_addr : bool;
  no_delay : bool;
  bound_to : option (option bytes * Z);   (* [None] for INADDR_ANY; the port *)
  listening : option Z                    (* the backlog *)
}.

(** What the system decides: the descriptor of [socket], or a failure, whether
    [inet_pton] can read a text, whether [bind] and [listen] succeed, and the
    text of [errno]. *)
Record Sys := mkSys {
  sys_socket : option Z;
  sys_inet_pton : bytes → bool;
  sys_bind : bool;
  sys_listen : bool;
  sys_strerror : bytes
}.

Definition any_address (host : bytes) : bool :=
  bool_decide (host = bs "0.0.0.0") || bool_decide (host = []).

(** [create_tcp_listener]: the result, and the sockets that are open then. *)
Definition create_tcp_listener (sys : Sys) (host : bytes) (port backlog : Z) (open : gmap Z LSock)
    : outcome Z * gmap Z LSock :=
  match sys_socket sys with
  | None => (Fail (Throw (runtime_error (bs "socket() failed: " ++ sys_strerror sys))), open)
  | Some fd =>
      let s := mkLSock true true None None in
      let open1 := <[fd := s]> open in
      if negb (any_address host) && negb (sys_inet_pton sys host)
      then (Fail (Throw (runtime_error (bs "Invalid bind address: " ++ host))), delete fd open1)
      else
        let addr := if any_address host then None else Some host in
        if negb (sys_bind sys)
        then (Fail (Throw (runtime_error (bs "bind() failed: " ++ sys_strerror sys))), delete fd open1)
        else
          if negb (sys_listen sys)
          then (Fail (Throw (runtime_error (bs "listen() failed: " ++ sys_strerror sys))), delete fd open1)
          else (Ret fd, <[fd := mkLSock true true (Some (addr, port)) (Some backlog)]> open1)
  end.

(** The listener is all or nothing.  On every failing path the descriptor it
    opened is closed again and nothing else has changed; otherwise the new
    socket, and only it, is open, bound to the address and port asked for with
    [SO_REUSEADDR] and [TCP_NODELAY] set, and listening. *)
Theorem listener_all_or_nothing sys host port backlog open :
  (∀ fd, sys_socket sys = Some fd → open !! fd = None) →
  match create_tcp_listener sys host port backlog open with
  | (Ret fd, open') =>
      open !! fd = None ∧
      open' = <[fd := mkLSock true true
                 (Some (if any_address host then None else Some host, port)) (Some backlog)]> open
  | (Fail f, open') => open' = open ∧ ∃ msg, f = Throw (runtime_error msg)
  end.
Proof.
  intros Hnew. rw /create_tcp_listener. destruct (sys_socket sys) as [fd|]; [|by eauto].
  specialize (Hnew fd eq_refl). assert (delete fd (<[fd := mkLSock true true None None]> open) = open) as Hdel.
  { by apply delete_insert_id. }
  destruct (negb (any_address host) && _); [by rw Hdel; eauto|].
  destruct (sys_bind sys); cbn [negb]; [|by rw Hdel; eauto].
  destruct (sys_listen sys); cbn [negb]; [|by rw Hdel; eauto].
  split; [done|]. by rw insert_insert_eq.
Qed.

Module Demo.

Definition demo_sys : Sys := mkSys (Some 6) (λ _, true) true false (bs "Address already in use").

Lemma listener_all_or_nothing_witness :
  match create_tcp_listener demo_sys (bs "127.0.0.1") 6399 1024 ∅ with
  | (Ret fd, open') =>
      (∅ : gmap Z LSock) !! fd = None ∧
      open' = <[fd := mkLSock true true (Some (Some (bs "127.0.0.1"), 6399)) (Some 1024)]> ∅
  | (Fail f, open') => open' = ∅ ∧ ∃ msg, f = Throw (runtime_error msg)
  end.
Proof. apply (listener_all_or_nothing demo_sys (bs "127.0.0.1") 6399 1024 ∅). reflexivity. Defined.
End Demo.

End TcpListener.
