(* ===== verification/Logger.v ===== *)
(** The set-up of the logger: src/util/Logger.hpp.

    spdlog is a parameter, [Spdlog]: its levels, the level a text names, and
    whether a log file can be opened.  What is logged later has no counterpart. *)

From S2P Require Import Prelude.
#[local] Open Scope Z_scope.

Module Logger.

Class Spdlog := {
  Level : Type;
  (** [spdlog::level::from_str], [spdlog::level::warn] *)
  from_str : bytes → Level;
  warn : Level;
  (** the error of opening a file, if any *)
  open_error : bytes → option bytes
}.

Section Ops.
Context {spd : Spdlog}.

Inductive Sink :=
  | Console (pattern : bytes)
  | Rotating (path : bytes) (max_bytes max_files : Z) (pattern : bytes).

(** The default logger and the global settings. *)
Record Logger := mkLogger {
  l_name : bytes;
  l_sinks : list Sink;
  l_level : Level;
  l_flush_on : Level
}.

Definition console_pattern : bytes := bs "[%Y-%m-%d %H:%M:%S.%e] [%^%l%$] [%t] %v".
Definition file_pattern : bytes := bs "[%Y-%m-%d %H:%M:%S.%e] [%l] [%t] %v".

(** [rotating_file_sink_mt(path, max_size, max_files)] opens the file. *)
Definition rotating_file_sink (path : bytes) (max_bytes max_files : Z) : outcome Sink :=
  match open_error path with
  | Some e => Fail (Throw (spdlog_ex e))
  | None => Ret (Rotating path max_bytes max_files file_pattern)
  end.

(** [util::init_logger] *)
Definition init_logger (log_level log_file : bytes) : outcome Logger :=
  let? sinks :=
    match log_file with
    | [] => Ret [Console console_pattern]
    | _ =>
        let? f := rotating_file_sink log_file (10 * 1024 * 1024) 3 in
        Ret [Console console_pattern; f]
    end in
  Ret (mkLogger (bs "cache") sinks (from_str log_level) warn).

(** The console always logs, a file exactly when one is named; only a file that
    cannot be opened fails. *)
Lemma init_logger_cases log_level log_file :
  match init_logger log_level log_file with
  | Ret lg => l_level lg = from_str log_level ∧ Console console_pattern ∈ l_sinks lg ∧
      (∀ path n k p, Rotating path n k p ∈ l_sinks lg ↔
         log_file ≠ [] ∧ path = log_file ∧ n = 10 * 1024 * 1024 ∧ k = 3 ∧ p = file_pattern)
  | Fail f => log_file ≠ [] ∧ ∃ e, open_error log_file = Some e ∧ f = Throw (spdlog_ex e)
  end.
Proof.
  rw /init_logger /rotating_file_sink. destruct log_file as [|c l]; cbn.
  - split_and!; [done|by left|]. intros path n k p. split; [|by intros []].
    intros [?|?%not_elem_of_nil]%elem_of_cons; done.
  - destruct (open_error (c :: l)) as [e|] eqn:He; cbn; [split; [done|]; eauto|]. split_and!; [done|by left|].
    intros path n k p. rw !elem_of_cons elem_of_nil. naive_solver.
Qed.

End Ops.
Arguments Sink : clear implicits.
End Logger.
