(* ===== verification/Server.v ===== *)
(** The server: src/server/Server.{hpp,cpp} and [main] of src/main.cpp.

    The store, the metrics and the connections are in the state of the event
    loop.  The store comes with the maintenance thread beside it (Maintenance.v):
    between any two locked sections of a command, and before every round of the
    event loop, the scheduler may run sections of that thread.  The thread of the
    metrics endpoint makes its way, visit by visit, between the steps of the
    set-up, between two rounds and between the steps of the shutdown; a client
    that sends nothing keeps it in [recv], and the process in the join.  What is
    logged has no counterpart. *)

From S2P Require Import Prelude Lru Storage Conc StoreConc Resp Commands Persistence Buffer Connection EventLoop Config Maintenance Double Metrics HttpServer ThreadPool Listener Logger.
#[local] Open Scope Z_scope.

Module Server.
Import Config EventLoop Maintenance.

(** The metrics a connection reports to. *)
#[export] Instance metrics_sink {fp : Double.FpContract} : Connection.MetricsSink Metrics.Metrics :=
  {| Connection.record_command := Metrics.record_command |}.

(** The lambda that [Server::run] hands to [add_listener]. *)
Definition accept_cb (fd : Z) (m : Metrics.Metrics) : option Connection.Connection * Metrics.Metrics :=
  (Some (Connection.new_connection fd), Metrics.record_connection_open m).

Abbreviation SLoop := (Loop Shared Metrics.Metrics).
Abbreviation SPool := (ThreadPool.Pool unit unit).

Record Server := mkServer {
  cfg_ : Config;
  event_loop_ : SLoop;                   (* with [store_], [metrics_], [running_] *)
  http_server_ : HttpServer.Http;
  aof_ : Aof.Aof;
  thread_pool_ : SPool;
  s_listen_fd_ : Z;
  lsocks : gmap Z TcpListener.LSock;     (* the listening sockets *)
  http_fds : gset Z;                     (* the descriptor of the endpoint *)
  http_sent : list bytes                 (* what the endpoint has answered *)
}.

(** What the process finds: the room for the maps of the store, the descriptor of
    the multiplexer, what there is for threads, the files, the clocks and the decisions of the scheduler. *)
Record Env := mkEnv {
  e_reserve : nat → Z → option exn;
  e_kq : Z;
  e_spawn : ThreadPool.Spawn;
  e_disk : Disk;
  e_clk : nat → Z;
  e_us : nat → Z;
  e_script : list nat
}.

(** The store, before the maintenance thread is started. *)
Definition new_shared (cfg : Config) (e : Env) (st : Store.Store) : Shared :=
  mkShared cfg (mkSite (Store.mkWorld (e_clk e) 0 st) (e_disk e) 0)
    false None (e_script e).

(** The object that [Server::Server] makes. *)
Definition new_server (cfg : Config) (e : Env) : Server :=
  mkServer cfg (new_loop (e_kq e) (new_shared cfg e (Store.new_store (max_keys cfg))) Metrics.new_metrics (e_us e))
    (HttpServer.new_http (metrics_port cfg)) (Aof.new (aof_path cfg))
    (ThreadPool.new_pool (Z.to_nat (worker_threads cfg))) (-1) ∅ ∅ [].

Section Ops.
Context {plat : Store.Platform} {cc : Commands.Compiler} {limits : VecLimits} {io : Io}.
Context {fp : Double.FpContract} {fmt : Metrics.Fmt} {poller : Poller} {kernel : Kernel} {spd : Logger.Spdlog}.

Implicit Types s : Server.

(** [Server::Server]: the members in their order, then the logger. *)
Definition make_server (cfg : Config) (e : Env) : outcome (Server * Logger.Logger) :=
  let? st := Store.make_store (e_reserve e) (max_keys cfg) in
  let? l := make_loop (e_kq e) (new_shared cfg e st) Metrics.new_metrics (e_us e) in
  let? pool := ThreadPool.make_pool (e_spawn e) (worker_threads cfg) in
  let? lg := Logger.init_logger (log_level cfg) (log_file cfg) in
  Ret (mkServer cfg l (HttpServer.new_http (metrics_port cfg)) (Aof.new (aof_path cfg)) pool (-1) ∅ ∅ [], lg).

Definition with_loop (l : SLoop) s : Server :=
  mkServer (cfg_ s) l (http_server_ s) (aof_ s) (thread_pool_ s) (s_listen_fd_ s) (lsocks s) (http_fds s) (http_sent s).
Definition with_aof (a : Aof.Aof) s : Server :=
  mkServer (cfg_ s) (event_loop_ s) (http_server_ s) a (thread_pool_ s) (s_listen_fd_ s) (lsocks s) (http_fds s) (http_sent s).
Definition with_http (h : HttpServer.Http * gset Z) s : Server :=
  mkServer (cfg_ s) (event_loop_ s) h.1 (aof_ s) (thread_pool_ s) (s_listen_fd_ s) (lsocks s) h.2 (http_sent s).
Definition with_listener (fd : Z) (socks : gmap Z TcpListener.LSock) s : Server :=
  mkServer (cfg_ s) (event_loop_ s) (http_server_ s) (aof_ s) (thread_pool_ s) fd socks (http_fds s) (http_sent s).
Definition with_pool (p : SPool) s : Server :=
  mkServer (cfg_ s) (event_loop_ s) (http_server_ s) (aof_ s) p (s_listen_fd_ s) (lsocks s) (http_fds s) (http_sent s).
Definition with_sent (r : bytes) s : Server :=
  mkServer (cfg_ s) (event_loop_ s) (http_server_ s) (aof_ s) (thread_pool_ s) (s_listen_fd_ s) (lsocks s) (http_fds s)
    (http_sent s ++ [r]).

Definition on_loop {A} (m : M SLoop A) : M Server A := λ s,
  match m (event_loop_ s) with
  | Ret (a, l) => Ret (a, with_loop l s)
  | Fail f => Fail f
  end.

Definition set_shared (sh : Shared) (l : SLoop) : SLoop :=
  mkLoop (mux l) (kq_or_epoll_fd_ l) (EventLoop.listen_fd_ l) (EventLoop.running_ l) (connections_ l)
    (socks l) (gone l) sh (l_metrics l) (l_clock l) (l_ticks l) (accepts l).
Definition set_metrics (m : Metrics.Metrics) (l : SLoop) : SLoop :=
  mkLoop (mux l) (kq_or_epoll_fd_ l) (EventLoop.listen_fd_ l) (EventLoop.running_ l) (connections_ l)
    (socks l) (gone l) (l_world l) m (l_clock l) (l_ticks l) (accepts l).

(** What the threads share. *)
Definition on_shared {A} (m : M Shared A) : M Server A := λ s,
  match m (l_world (event_loop_ s)) with
  | Ret (a, sh) => Ret (a, with_loop (set_shared sh (event_loop_ s)) s)
  | Fail f => Fail f
  end.

(** An operation on [store_] while no other thread runs. *)
Definition on_world {A} (m : M Store.World A) : M Server A := on_shared (at_site (at_store m)).

Definition world_of s : Store.World := site_world (sh_site (l_world (event_loop_ s))).
Definition disk_of s : Disk := site_disk (sh_site (l_world (event_loop_ s))).
Definition set_disk (d : Disk) s : Server :=
  with_loop (set_shared (set_site (set_site_disk d (sh_site (l_world (event_loop_ s)))) (l_world (event_loop_ s)))
               (event_loop_ s)) s.

(** [metrics_]; the maintenance thread sets one of its gauges. *)
Definition metrics_of s : Metrics.Metrics :=
  Metrics.set_key_count (site_key_count (sh_site (l_world (event_loop_ s)))) (l_metrics (event_loop_ s)).

(** [rdb_.save(store_)] on the main thread; its result is ignored. *)
Definition save_rdb : M Server unit :=
  let! path := gets (λ s, rdb_path (cfg_ s)) in
  let! d := gets disk_of in
  let! r := on_world (Rdb.save path d) in
  modify (set_disk r.2).

(** The callback of the replay. *)
Definition executor (cmd : RespValue) : M Store.World unit :=
  Commands.dispatch Commands.new_dispatcher cmd ;;; ret tt.

(** The first part of [Server::run]: the persisted data. *)
Definition load_data : M Server unit :=
  let! cfg := gets cfg_ in
  let! d := gets disk_of in
  (if rdb_enabled cfg then on_world (Rdb.load (rdb_path cfg) d) ;;; ret tt else ret tt) ;;;
  if aof_enabled cfg then
    modify (λ s, let '(_, a, d) := Aof.open (aof_ s) (disk_of s) in with_aof a (set_disk d s)) ;;;
    let! a := gets aof_ in
    let! d := gets disk_of in
    on_world (Aof.replay a d executor) ;;; ret tt
  else ret tt.

(** [server_fd_] and the rest of the endpoint, with its descriptor. *)
Definition set_http (h : HttpServer.Http) s : Server := with_http (h, http_fds s) s.

(** The thread of the endpoint goes on to its next wait. *)
Definition serve_visit (v : HttpServer.Visit) : M Server unit := λ s,
  let w := world_of s in
  match HttpServer.serve_loop v (http_server_ s) (HttpServer.mkView (metrics_of s) (Store.clock w) (Store.ticks w)) with
  | Ret ((h, out), v) =>
      match on_world (modify (λ w, Store.mkWorld (Store.clock w) (HttpServer.ms_ticks v) (Store.store w))) s with
      | Ret (_, s') =>
          let s' := set_http h (with_loop (set_metrics (HttpServer.v_metrics v) (event_loop_ s')) s') in
          Ret (tt, match out with Some r => with_sent r s' | None => s' end)
      | Fail f => Fail f
      end
  | Fail f => Fail f
  end.

Definition serve_visits (vs : list HttpServer.Visit) : M Server unit := foldM (λ _ v, serve_visit v) vs tt.

(** What the system answers while the sockets are set up, and the visits to the
    endpoint meanwhile. *)
Record Boot := mkBoot {
  b_http_fd : Z;
  b_http_bound : bool;
  b_http_thread : bool;        (* a thread can be started for the endpoint *)
  b_sys : TcpListener.Sys;
  b_fcntl : Fcntl;
  b_registered : bool;         (* the multiplexer takes the listener *)
  b_thread : bool;             (* and one for the maintenance *)
  b_visits : nat → list HttpServer.Visit
}.

(** The second part: the endpoint, the listener, the maintenance thread. *)
Definition start_endpoint (b : Boot) : M Server unit :=
  let! cfg := gets cfg_ in
  if metrics_enabled cfg
  then let! r := gets (λ s, HttpServer.start (b_http_fd b) (b_http_bound b) (b_http_thread b) (http_server_ s) (http_fds s)) in
       modify (with_http r.2) ;;; lift r.1
  else ret tt.

Definition open_listener (b : Boot) : M Server unit :=
  let! cfg := gets cfg_ in
  let! r := gets (λ s, TcpListener.create_tcp_listener (b_sys b) (host cfg) (port cfg) (backlog cfg) (lsocks s)) in
  let! fd := lift r.1 in
  modify (with_listener fd r.2).

Definition register_listener (b : Boot) : M Server unit :=
  let! fd := gets s_listen_fd_ in
  on_loop (add_listener fd (b_fcntl b) (b_registered b)).

Definition start_maintenance (b : Boot) : M Server unit :=
  if b_thread b then on_shared launch else fail (Throw system_error).

(** [Server::run] up to the start of the maintenance thread, step by step *)
Definition boot_steps (b : Boot) : list (M Server unit) :=
  [load_data; start_endpoint b; serve_visits (b_visits b 0); open_listener b; serve_visits (b_visits b 1);
   register_listener b; serve_visits (b_visits b 2); start_maintenance b].

(** Steps one after the other; [attempt] also says in which state the step that
    failed began. *)
Fixpoint sequence {S} (steps : list (M S unit)) : M S unit :=
  match steps with
  | [] => ret tt
  | m :: ms => m ;;; sequence ms
  end.

Fixpoint attempt {S} (steps : list (M S unit)) (s : S) : outcome unit * S :=
  match steps with
  | [] => (Ret tt, s)
  | m :: ms =>
      match m s with
      | Ret (_, s') => attempt ms s'
      | Fail f => (Fail f, s)
      end
  end.

Definition set_up (b : Boot) : M Server unit := sequence (boot_steps b).

(** [Server::stop] *)
Definition stop : M Server unit :=
  on_loop EventLoop.stop ;;;
  on_shared (modify (λ sh, set_thread false (sh_thread sh) sh)).

(** [signal_handler] of main.cpp; [Server::instance] is set from the end of the
    constructor until the destructor. *)
Definition signal_handler (instance : bool) : M Server unit :=
  if instance then stop else ret tt.

(** What happens next: a round of the event loop, or a visit to the endpoint. *)
Inductive Turn :=
  | TRound (r : Round)
  | THttp (v : HttpServer.Visit).

(** [event_loop_.run()] beside the other threads: true when the loop was left. *)
Fixpoint serve (turns : list Turn) : M Server bool :=
  let! running := gets (λ s, EventLoop.running_ (event_loop_ s)) in
  if running : bool then
    match turns with
    | [] => ret false
    | TRound r :: ts =>
        on_shared interfere ;;;
        on_loop (round accept_cb r) ;;;
        (if stopped r then signal_handler true else ret tt) ;;;
        serve ts
    | THttp v :: ts => serve_visit v ;;; serve ts
    end
  else ret true.

(** The visits to the endpoint while the server shuts down, and those while it
    waits for the thread of the endpoint. *)
Record Quit := mkQuit {
  q_visits : nat → list HttpServer.Visit;
  q_late : list HttpServer.Visit
}.

(** [http_server_.stop()]: false when the join does not return. *)
Definition stop_endpoint (late : list HttpServer.Visit) : M Server bool :=
  modify (λ s, with_http (HttpServer.stop (http_server_ s) (http_fds s)) s) ;;;
  serve_visits late ;;;
  let! r := gets (λ s, HttpServer.join (http_server_ s)) in
  match r with
  | Some h => modify (set_http h) ;;; ret true
  | None => ret false
  end.

(** [listen_fd_] is closed. *)
Definition close_listener : M Server unit :=
  modify (λ s, if 0 <=? s_listen_fd_ s then with_listener (-1) (delete (s_listen_fd_ s) (lsocks s)) s else s).

(** The last part: save, close; false when it does not come to its end. *)
Definition shut_down (q : Quit) : M Server bool :=
  let! cfg := gets cfg_ in
  serve_visits (q_visits q 1) ;;;
  (if rdb_enabled cfg then save_rdb else ret tt) ;;;
  serve_visits (q_visits q 2) ;;;
  (if aof_enabled cfg
   then modify (λ s, let '(a, d) := Aof.close (aof_ s) (disk_of s) in with_aof a (set_disk d s)) else ret tt) ;;;
  serve_visits (q_visits q 3) ;;;
  let! stopped := (if metrics_enabled cfg then stop_endpoint (q_late q) else ret true) in
  if stopped : bool then close_listener ;;; ret true else ret false.

(** Where [Server::run] is: in the event loop, in the join of the endpoint's
    thread, or behind its end. *)
Inductive Phase := Serving | Joining | Returned.

(** [Server::run] from the start of the event loop on *)
Definition run_threads (turns : list Turn) (q : Quit) : M Server Phase :=
  on_loop (modify (with_running true)) ;;;
  let! finished := serve turns in
  if finished : bool then
    serve_visits (q_visits q 0) ;;;
    on_shared join ;;;
    let! ended := shut_down q in
    ret (if ended : bool then Returned else Joining)
  else ret Serving.

(** [Server::run] *)
Definition run (b : Boot) (turns : list Turn) (q : Quit) : M Server Phase :=
  set_up b ;;; run_threads turns q.

(** [Server::~Server]: [stop], then the members from the last to the first; false
    when the endpoint's thread is not joined.  The server queues no task, so the
    pool is idle. *)
Definition destroy_server (late : list HttpServer.Visit) : M Server bool :=
  stop ;;;
  modify (λ s, with_pool (ThreadPool.destroy_queue (ThreadPool.shutdown_idle (thread_pool_ s))) s) ;;;
  modify (λ s, let '(a, d) := Aof.close (aof_ s) (disk_of s) in with_aof a (set_disk d s)) ;;;
  let! stopped := stop_endpoint late in
  if stopped : bool then modify (λ s, with_loop (destroy_loop (event_loop_ s)) s) ;;; ret true else ret false.

(** How the process ends, or why it has not. *)
Inductive Exit :=
  | ExitStatus (z : Z)
  | Terminated (f : fault)     (* [std::terminate], or undefined behaviour *)
  | StillRunning
  | Hanging.                   (* waits for the thread of the endpoint *)

Definition exit_after {A} (z : Z) (r : outcome (bool * A)) : Exit :=
  match r with
  | Ret (true, _) => ExitStatus z
  | Ret (false, _) => Hanging
  | Fail f => Terminated f
  end.

(** [main]: the configuration is read outside the [try] block.  An exception in
    the set-up destroys the server on its way to the handler (the endpoint is then
    as it was before the step that threw); one that leaves [run] while the
    maintenance thread is joinable destroys the thread object first, which
    terminates the process before the handler is reached. *)
Definition main (file : bytes → option bytes) (args : list bytes) (e : Env) (b : Boot) (turns : list Turn) (q : Quit) : Exit :=
  match main_config file args with
  | Fail f => Terminated f
  | Ret cfg =>
      match make_server cfg e with
      | Fail (Throw _) => ExitStatus 1
      | Fail f => Terminated f
      | Ret (s0, _) =>
          match attempt (boot_steps b) s0 with
          | (Fail (Throw _), s) => exit_after 1 (destroy_server (q_late q) s)
          | (Fail f, _) => Terminated f
          | (Ret _, s) =>
              match run_threads turns q s with
              | Ret (Returned, s') => exit_after 0 (destroy_server [] s')
              | Ret (Joining, _) => Hanging
              | Ret (Serving, _) => StillRunning
              | Fail f => Terminated f
              end
          end
      end
  end.

End Ops.
End Server.
