(* ===== verification/ServerInv.v ===== *)
(** What every part of the server keeps: the invariants of the event loop and of
    the store, the files of others, the gauge of connections. *)

From S2P Require Import Prelude Lru Storage StorageInv StorageSpec StorageThms Conc StoreConc StoreConcThms StoreRely Resp RespThms Commands CommandsThms Persistence PersistenceThms Buffer Connection ConnectionThms EventLoop EventLoopInv EventLoopThms Config ConfigThms Maintenance MaintenanceThms MaintenanceLin Double Metrics MetricsThms HttpServer HttpThms ThreadPool Listener Logger Server.
#[local] Open Scope Z_scope.

Module ServerInv.
Import HttpThms Connection CommandsThms RespThms ConnectionThms EventLoop EventLoopInv EventLoopThms PersistenceThms Store StoreInv StoreSpec Config Maintenance MaintenanceThms MaintenanceLin Server.

(** ** What happens to the metrics of a loop *)

Section Flow.
Context {W : Type} {ops : Commands.StoreOps W} {cc : Commands.Compiler} {limits : VecLimits}.
Context {Mt : Type} {sink : MetricsSink Mt} {poller : Poller} {kernel : Kernel}.
Context (accept_cb : Z → Mt → option Connection * Mt).

(** A property of the metrics that recording a command and accepting a
    connection keep. *)
Context (P : Mt → Prop).
Context (P_record : ∀ z m m', Connection.record_command z m = Ret m' → P m → P m').
Context (P_accept : ∀ fd m, P m → P (accept_cb fd m).2).

Lemma write_response_closed resp : closed P (metrics (W := W)) (write_response resp).
Proof. rw /write_response. close. Qed.
Lemma set_closed_closed : closed P (metrics (W := W)) set_closed.
Proof. rw /set_closed. close. Qed.
Lemma record_closed z : closed P (metrics (W := W)) (record z).
Proof.
  intros s H. rw /record. wp_go. destruct (Connection.record_command z _) as [m'|f] eqn:Hr; [|done].
  wp_go. by eapply P_record.
Qed.
#[local] Hint Resolve write_response_closed set_closed_closed record_closed : core.

Lemma process_loop_closed fuel : ∀ batch, closed P (metrics (W := W)) (process_loop fuel batch).
Proof.
  induction fuel as [|fuel IH]; intros batch; cbn [process_loop]; close; auto.
  apply closed_same. intros s. rw /wp /on_store. by destruct (Commands.dispatch _ _ _) as [[]|].
Qed.

Lemma read_loop_closed fuel : closed P (metrics (W := W)) (read_loop fuel).
Proof.
  induction fuel as [|fuel IH]; cbn [read_loop]; close; auto.
  apply closed_same. intros s. rw /wp /recv. by destruct (inbox s) as [|[]].
Qed.

Lemma on_readable_closed : closed P (metrics (W := W)) on_readable.
Proof.
  pose proof process_loop_closed. pose proof read_loop_closed.
  rw /on_readable /process_commands. close; auto.
Qed.

Lemma write_loop_closed fuel : closed P (metrics (W := W)) (write_loop fuel).
Proof.
  induction fuel as [|fuel IH]; cbn [write_loop]; close; auto.
  all: apply closed_same; intros s; rw /wp /send; by destruct (outbox s) as [|[]].
Qed.

Lemma on_conn_closed {A} fd c (m : M (Net W Mt) A) : closed P (metrics (W := W)) m → closed P (l_metrics (W := W)) (on_conn fd c m).
Proof.
  intros Hm l H. specialize (Hm (net_of c l)). rw /wp /on_conn in Hm |- *.
  destruct (m _) as [[a n]|f]; [by apply Hm|done].
Qed.

Lemma destroy_metrics c (l : Loop W Mt) : l_metrics (destroy c l) = l_metrics l.
Proof. rw /destroy /close_fd. by repeat case_match. Qed.

Lemma remove_closed fd : closed P (l_metrics (W := W)) (remove_connection fd).
Proof.
  rw /remove_connection. close. apply closed_modify. intros l. case_match; [|done]. by rw destroy_metrics.
Qed.

Lemma accept_loop_closed evs : closed P (l_metrics (W := W)) (accept_loop accept_cb evs).
Proof.
  induction evs as [|[s f| |] evs IH]; cbn [accept_loop]; close.
  - intros l H. rw /wp /accept_one. pose proof (P_accept (new_fd (open_fds l)) (l_metrics l) H) as Hp.
    by destruct (accept_cb _ _).
  - rw /add_connection. close. apply closed_modify. intros l. case_match; [by rw destroy_metrics|done].
  - apply closed_modify. intros l. rw /close_fd. by case_match.
Qed.

Lemma handlers_closed fd : closed P (l_metrics (W := W)) (handle_readable fd) ∧ closed P (l_metrics (W := W)) (handle_writable fd).
Proof.
  pose proof remove_closed. rw /handle_readable /handle_writable /update_write_interest. split; close.
  - apply on_conn_closed, on_readable_closed.
  - apply on_conn_closed. rw /on_writable. close. apply write_loop_closed.
Qed.

Lemma round_closed r : closed P (l_metrics (W := W)) (round accept_cb r).
Proof.
  pose proof remove_closed. rw /round /poll_once /reap_closed /EventLoop.stop. close.
  - apply closed_modify. intros l. revert l. induction (arrivals r) as [|a xs IH]; intros l; [done|].
    cbn [foldl]. rw IH. by destruct a.
  - rw /perform. case_match; close; try apply handlers_closed. rw /handle_accept. close. apply accept_loop_closed.
Qed.
End Flow.

(** ** The server *)

(** The metrics keep what a connection relies on. *)
#[export] Program Instance metrics_laws {fp : Double.FpContract} : MetricsLaws Metrics.Metrics :=
  {| metrics_ok := MetricsThms.ok; max_latency := MetricsThms.MAX_LATENCY |}.
Next Obligation.
  destruct (MetricsThms.record_command_step l m) as (m' & ? & ? & _); [done..|]. by exists m'.
Qed.
Next Obligation. by eapply MetricsThms.record_command_fault. Qed.

Section Thms.
Context {plat : Store.Platform} {cc : Commands.Compiler} {limits : VecLimits} {io : Io}.
Context {fp : Double.FpContract} {fmt : Metrics.Fmt} {poller : Poller} {plaws : PollerLaws poller} {kernel : Kernel} {spd : Logger.Spdlog}.

Implicit Types s : Server.

(** What can stop the loading of the data: memory that is not there, and what
    stops a command. *)
Definition load_fault (f : fault) : Prop := f = Throw length_error ∨ f = Throw bad_alloc ∨ handler_fault f.

(** The system lets the listener be opened and registered. *)
Definition granted (cfg : Config) (b : Boot) : Prop :=
  (∀ open, ∃ fd, (TcpListener.create_tcp_listener (b_sys b) (host cfg) (port cfg) (backlog cfg) open).1 = Ret fd) ∧
  b_fcntl b = FcntlOk ∧ b_registered b = true.

(** What can stop the set-up: the data, a listener that is refused, a thread that
    cannot be started. *)
Definition boot_fault (cfg : Config) (b : Boot) (f : fault) : Prop :=
  load_fault f ∨ ((∃ msg, f = Throw (runtime_error msg)) ∧ ¬ granted cfg b) ∨
  (f = Throw system_error ∧ b_http_thread b && b_thread b = false).

Lemma overflow_stops f : overflow_only f → loop_fault f.
Proof. intros ->. left. do 3 right. left. by left. Qed.
Lemma overflow_loads f : overflow_only f → load_fault f.
Proof. intros ->. right. right. by left. Qed.

Lemma on_loop_wp {A} E (m : M SLoop A) Q s :
  wp E m (λ a l, Q a (with_loop l s)) (event_loop_ s) → wp E (on_loop m) Q s.
Proof. rw /wp /on_loop. by destruct (m _) as [[]|]. Qed.

Lemma on_shared_wp {A} E (m : M Shared A) Q s :
  wp E m (λ a sh, Q a (with_loop (set_shared sh (event_loop_ s)) s)) (l_world (event_loop_ s)) →
  wp E (on_shared m) Q s.
Proof. rw /wp /on_shared. by destruct (m _) as [[]|]. Qed.

(** The server with another store. *)
Definition set_world (w : World) s : Server :=
  with_loop (set_shared (set_site (set_site_world w (sh_site (l_world (event_loop_ s)))) (l_world (event_loop_ s)))
               (event_loop_ s)) s.

Lemma on_world_run {A} (m : M World A) s :
  on_world m s = match m (world_of s) with Ret (a, w) => Ret (a, set_world w s) | Fail f => Fail f end.
Proof. rw /on_world /on_shared /at_site /at_store /world_of. by destruct (m _) as [[]|]. Qed.

Lemma on_world_wp {A} E (m : M World A) Q s :
  wp E m (λ a w, Q a (set_world w s)) (world_of s) → wp E (on_world m) Q s.
Proof. rw /wp on_world_run. by destruct (m _) as [[]|]. Qed.

(** ** What every part of the server keeps *)

(** The gauge of open connections against the count of all. *)
Definition balanced (m : Metrics.Metrics) : Prop :=
  Metrics.active_connections_ m = Metrics.total_connections_ m.

Section Good.
Context (cfg : Config) (e : Env).
#[local] Abbreviation d0 := (e_disk e).
#[local] Existing Instance served_safe.
#[local] Abbreviation safe := (served_safe cfg d0).

Record good s : Prop := {
  g_cfg : cfg_ s = cfg;
  g_loop : inv (safe := safe) (event_loop_ s);
  g_path : Aof.path_ (aof_ s) = aof_path cfg;
  g_buf : Aof.buf (aof_ s) = [];
  g_gauge : balanced (l_metrics (event_loop_ s));
  g_kq : kq_or_epoll_fd_ (event_loop_ s) = e_kq e
}.

Lemma good_served s : good s → served_ok cfg d0 (l_world (event_loop_ s)).
Proof. intros [_ H _ _ _ _]. exact (i_store _ _ H). Qed.

Lemma good_shared s : good s → shared_ok cfg d0 (l_world (event_loop_ s)).
Proof. by intros []%good_served. Qed.

Lemma good_store s : good s → store_ok (store (world_of s)).
Proof. intros H%good_shared. by destruct H as [_ [] _]. Qed.

Lemma good_disk s p : good s → ¬ owned cfg p → default [] (disk_of s !! p) = default [] (d0 !! p).
Proof. intros H%good_shared. destruct H as [_ [_ Hd] _]. apply Hd. Qed.

Lemma set_shared_inv sh (l : SLoop) :
  inv (safe := safe) l → served_ok cfg d0 sh → inv (safe := safe) (set_shared sh l).
Proof. intros []. by split. Qed.

(** The maintenance thread does not run. *)
Definition settled s : Prop := sh_thread (l_world (event_loop_ s)) = None.

(** A loop with nothing registered. *)
Definition unused (l : SLoop) : Prop := connections_ l = ∅ ∧ interest l = ∅.

(** An operation on what the threads share. *)
Lemma shared_good {A} (E : fault → Prop) (m : M Shared A) s :
  good s → wp E m (λ _ sh, served_ok cfg d0 sh) (l_world (event_loop_ s)) →
  wp E (on_shared m) (λ _ s', good s' ∧
    running_ (event_loop_ s') = running_ (event_loop_ s) ∧
    (unused (event_loop_ s) → unused (event_loop_ s'))) s.
Proof.
  intros [] Hm. apply on_shared_wp. eapply wp_mono; [exact Hm|].
  intros a sh Hsh. split_and!; [split; try done; by apply set_shared_inv|done|by intros []].
Qed.

Lemma set_world_good w s :
  good s → store_ok (store w) →
  settled s ∨ (clock w = clock (world_of s) ∧ (ticks (world_of s) ≤ ticks w)%nat) → good (set_world w s).
Proof.
  intros Hs Hw Ht. pose proof (good_served s Hs) as [[? [] ?] [_ _ Hq]]. destruct Hs. split; try done.
  apply set_shared_inv; [done|]. split; [by split|]. destruct Ht as [Ht|[Hc Ht]]; [by apply idle_attentive|].
  apply (heeds_attentive (clock (world_of s))). split; [done..|]. intros p Hp. destruct (Hq p Hp) as (n & ? & ?).
  exists n. split; [|done]. rw /shared_world /=. change (shared_world _) with (world_of s) in *. lia.
Qed.

Lemma set_disk_good d s :
  good s → (∀ p, ¬ owned cfg p → default [] (d !! p) = default [] (d0 !! p)) → good (set_disk d s).
Proof.
  intros Hs Hd. pose proof (good_served s Hs) as [[? [] ?] Ha]. destruct Hs. split; try done.
  apply set_shared_inv; [done|]. split; [by split|]. by destruct Ha.
Qed.

(** An operation on the store that keeps it well-formed. *)
Lemma world_good {A} (E : fault → Prop) (m : M World A) s :
  good s → settled s → wp E m (λ _ w, store_ok (store w)) (world_of s) →
  wp E (on_world m) (λ _ s', good s' ∧
    settled s' ∧ disk_of s' = disk_of s ∧ (unused (event_loop_ s) → unused (event_loop_ s'))) s.
Proof.
  intros Hs Ht Hm. apply on_world_wp. eapply wp_mono; [exact Hm|].
  intros a w Hw. split_and!; [by apply set_world_good; [..|left]|done|done|by intros []].
Qed.

Lemma save_good s :
  good s → settled s → wp no_fault save_rdb (λ _ s', good s' ∧ settled s') s.
Proof.
  intros Hs Ht. rw /save_rdb. wp_go. apply on_world_wp. rw (g_cfg _ Hs) {1}/wp.
  destruct (save_cases (rdb_path cfg) (disk_of s) (world_of s)) as (ok & d' & w' & -> & Hst & _ & _ & Ho). wp_go.
  split; [|done]. apply set_disk_good.
  - apply set_world_good; [done| |by left]. rw Hst. by apply good_store.
  - intros p Hn. cbn. rw Ho; [intros ->; apply Hn; by left|intros ->; apply Hn; by right|]. by apply good_disk.
Qed.

(** ** Start-up *)

Lemma executor_safe cmd w :
  store_ok (store w) → wp handler_fault (executor cmd) (λ _ w', store_ok (store w')) w.
Proof.
  intros Hw. rw /executor. wp_go. eapply wp_mono; [by apply CommandsThms.dispatch_ok|].
  by intros r w' [_ ?].
Qed.

Lemma replay_safe fuel : ∀ view count w,
  store_ok (store w) → zlen view < 2 ^ 63 → (length view ≤ fuel)%nat →
  wp load_fault (Aof.replay_loop fuel executor view count) (λ _ w', store_ok (store w')) w.
Proof.
  induction fuel as [|fuel IH]; intros view count w Hw Hz Hf.
  { by destruct view; [apply wp_ret|simpl in Hf; lia]. }
  destruct (decide (view = [])) as [->|Hne]; [by apply wp_ret|]. rw replay_step //. wp_go.
  pose proof (parse_fuel_post (S (length view)) view ltac:(lia) Hz) as Hp.
  rw /parse_post in Hp. rw /RespParser.parse. destruct (RespParser.parse_fuel _ view) as [r|f].
  2:{ destruct Hp as [->| ->]; [by left|right; by left]. }
  destruct (status r); wp_go; try done.
  eapply wp_mono; [eapply wp_fault_mono; [by right; right|by apply executor_safe]|].
  intros [] w' Hw'. specialize (Hp eq_refl). apply IH; [done|rw length_drop; lia..].
Qed.

Lemma load_data_good s :
  good s → settled s → unused (event_loop_ s) → zlen (default [] (disk_of s !! aof_path cfg)) < 2 ^ 63 →
  wp load_fault load_data (λ _ s', good s' ∧ unused (event_loop_ s')) s.
Proof.
  intros Hs Ht Hcs Hz. rw /load_data. wp_go. rw (g_cfg _ Hs).
  apply (wp_mono _ _ (λ _ s', good s' ∧ unused (event_loop_ s') ∧ disk_of s' = disk_of s ∧ settled s')).
  { destruct (rdb_enabled cfg); [|by apply wp_ret]. wp_go.
    eapply wp_mono; [eapply wp_fault_mono; [apply overflow_loads|apply world_good; [done..|by apply load_safe, good_store]]|].
    intros ? s1 (? & ? & ? & Hc). wp_go. auto. }
  intros ? s1 (H1 & Hc1 & Hd1 & Ht1). destruct (aof_enabled cfg); [|by apply wp_ret]. wp_go.
  set (s2 := (let '(_, a, d) := Aof.open (aof_ s1) (disk_of s1) in with_aof a (set_disk d s1))).
  assert (settled s2) as Ht2 by (by rw /s2; destruct (Aof.open _ _) as [[]]).
  assert (good s2 ∧ unused (event_loop_ s2) ∧
    zlen (default [] (disk_of s2 !! Aof.path_ (aof_ s2))) < 2 ^ 63) as (H2 & Hc2 & Hz2).
  { pose proof (g_path _ H1) as Hp. pose proof (good_disk s1) as Hd.
    assert (∀ x, Aof.path_ x = aof_path cfg → Aof.buf x = [] → ∀ s', good s' → good (with_aof x s')) as Hwa.
    { intros x ?? s' []. by split. }
    rw /s2 /Aof.open Hp. destruct (_ && _); (split_and!; [apply Hwa; [done|apply (g_buf _ H1)|]; apply set_disk_good; [done|]|done|]);
      cbn [with_aof disk_of set_disk with_loop event_loop_ set_shared l_world set_site sh_site set_site_disk site_disk Aof.path_ aof_];
      rw ?lookup_insert_eq /= ?Hd1 //.
    - intros p Hn. destruct (decide (p = aof_path cfg)) as [->|]; [rw lookup_insert_eq /= -Hd1; by apply Hd|].
      rw lookup_insert_ne //. rw -Hd1. by apply Hd.
    - intros p Hn. rw -Hd1. by apply Hd. }
  clearbody s2. eapply wp_mono; [eapply world_good; [done..|]|].
  - pose proof (good_store _ H2). rw /Aof.replay. destruct (disk_of s2 !! Aof.path_ (aof_ s2)) as [content|]; [|by apply wp_ret].
    by apply replay_safe.
  - intros ? s3 (? & _ & _ & Hc3). wp_go. auto.
Qed.

Lemma listener_fault sys host port backlog open f :
  (TcpListener.create_tcp_listener sys host port backlog open).1 = Fail f → ∃ msg, f = Throw (runtime_error msg).
Proof. rw /TcpListener.create_tcp_listener. repeat case_match; cbn; intros [= <-]; eauto. Qed.

Lemma add_listener_inv b fd (l : SLoop) :
  inv (safe := safe) l → unused l →
  wp (boot_fault cfg b) (add_listener fd (b_fcntl b) (b_registered b))
    (λ _ l', inv (safe := safe) l' ∧ l_metrics l' = l_metrics l ∧ kq_or_epoll_fd_ l' = kq_or_epoll_fd_ l) l.
Proof.
  intros [Hc Ho Hs Hr Hw Hk Hl Hst Hrf] [He Hi].
  assert (∀ msg, ¬ (b_fcntl b = FcntlOk ∧ b_registered b = true) → boot_fault cfg b (Throw (runtime_error msg))) as Hbf.
  { intros msg Hn. right. left. split; [by eexists|]. intros (_ & ? & ?). by apply Hn. }
  rw /add_listener. wp_go. destruct (b_fcntl b); [|by apply Hbf; intros []..]. wp_go.
  apply (wp_mono _ _ (λ _ l', ∃ i, l' = with_mux (set_regs i (mux l)) (mkLoop (mux l) (kq_or_epoll_fd_ l) fd (running_ l)
    (connections_ l) (socks l) (gone l) (l_world l) (l_metrics l) (l_clock l) (l_ticks l) (accepts l)) ∧ i ⊆ {[ (fd, Read) ]})).
  { destruct (b_registered b); wp_go; [eexists; split; [done|rw /ctl_add /interest /= in Hi |- *; rw Hi; set_solver]|].
    destruct refused_spec as [->|[msg ->]]; [|by apply Hbf; intros []].
    exists (interest l). split; [by destruct l as [[]]|rw Hi; set_solver]. }
  intros ? l' (i & -> & Hsub).
  split; [|done]. split; rw /interest /refusals; cbn; try done; rw ?He.
  - intros fd' [? H]. by rw lookup_empty in H.
  - intros fd' c H. by rw lookup_empty in H.
  - intros fd' f H. left. apply Hsub in H. set_solver.
  - by rw lookup_empty.
Qed.

Lemma start_fault b s f :
  (HttpServer.start (b_http_fd b) (b_http_bound b) (b_http_thread b) (http_server_ s) (http_fds s)).1 = Fail f →
  f = Throw system_error ∧ b_http_thread b = false.
Proof. rw /HttpServer.start. repeat case_match; cbn; by intros [= <-]. Qed.

Lemma start_good b s :
  good s → unused (event_loop_ s) →
  wp (boot_fault cfg b) (start_endpoint b) (λ _ s', good s' ∧ unused (event_loop_ s')) s.
Proof.
  intros Hs Hcs. rw /start_endpoint. wp_go. destruct (metrics_enabled _); wp_go; [|done].
  pose proof (start_fault b s) as Hf.
  destruct (HttpServer.start _ _ _ _ _).1; [by destruct Hs|]. right. right. destruct (Hf _ eq_refl) as [-> ->]. done.
Qed.

Lemma listener_good b s :
  good s → unused (event_loop_ s) →
  wp (boot_fault cfg b) (open_listener b) (λ _ s', good s' ∧ unused (event_loop_ s')) s.
Proof.
  intros Hs Hcs. rw /open_listener. wp_go. rw (g_cfg _ Hs).
  destruct (TcpListener.create_tcp_listener _ _ _ _ _).1 as [fd|f] eqn:Hl.
  - wp_go. split; [by destruct Hs|done].
  - right. left. split; [by eapply listener_fault|]. intros [Hg _]. destruct (Hg (lsocks s)) as [fd Hfd]. congruence.
Qed.

Lemma register_good b s :
  good s → unused (event_loop_ s) → wp (boot_fault cfg b) (register_listener b) (λ _ s', good s') s.
Proof.
  intros [Hc Hi Hp Hb Hg Hq] Hcs. rw /register_listener. wp_go. apply on_loop_wp.
  eapply wp_mono; [by apply add_listener_inv|]. intros ? l (Hl' & Hm & Hk). split; try done; cbn; [by rw Hm|by rw Hk].
Qed.

Lemma maintenance_good b s : good s → wp (boot_fault cfg b) (start_maintenance b) (λ _ s', good s') s.
Proof.
  intros Hs. rw /start_maintenance. destruct (b_thread b) eqn:Hb; [|right; right; by rw Hb andb_false_r].
  eapply wp_mono; [eapply wp_fault_mono; [intros f H; left; by apply overflow_loads|apply shared_good; [done|]]|by intros ? ? []].
  by apply launch_served, good_served.
Qed.

(** ** Visits to the endpoint *)

Lemma snapshot_frame now m :
  match Metrics.snapshot now m with
  | Ret (_, m') => balanced m → balanced m'
  | Fail f => overflow_only f
  end.
Proof.
  rw /Metrics.snapshot /checked. destruct (in_i64 (Metrics.total_hits_ m + _)); cbn [obind]; [|done].
  destruct (in_i64 (now - _)); cbn [obind]; [|done]. destruct (100 <? _); cbn [obind]; [|done].
  destruct (in_i64 (Metrics.total_commands_ m - _)); cbn [obind]; [|done].
  destruct (in_i64 (_ * 1000)); cbn [obind]; [by rw /balanced|done].
Qed.

(** What a visit does to the metrics and the clock. *)
Definition view_step {A} (m : M HttpServer.View A) : Prop := ∀ v,
  wp overflow_only m (λ _ v', (balanced (HttpServer.v_metrics v) → balanced (HttpServer.v_metrics v')) ∧
    (HttpServer.ms_ticks v ≤ HttpServer.ms_ticks v')%nat) v.

Lemma view_ret {A} (a : A) : view_step (ret a).
Proof. intros v. by apply wp_ret. Qed.

Lemma view_bind {A B} (m : M HttpServer.View A) (k : A → M HttpServer.View B) :
  view_step m → (∀ a, view_step (k a)) → view_step (bind m k).
Proof.
  intros Hm Hk v. apply wp_bind. eapply wp_mono; [apply Hm|]. intros a v1 [H1 H1'].
  eapply wp_mono; [apply Hk|]. intros b v2 [H2 H2']. split; [auto|lia].
Qed.

Lemma client_view c : view_step (HttpServer.handle_client c).
Proof.
  assert (view_step HttpServer.take_snapshot) as Hs.
  { intros v. rw /wp /HttpServer.take_snapshot. pose proof (snapshot_frame (HttpServer.ms_clock v (HttpServer.ms_ticks v)) (HttpServer.v_metrics v)).
    destruct (Metrics.snapshot _ _) as [[]|]; [|done]. split; [done|]. cbn. lia. }
  rw /HttpServer.handle_client. destruct (HttpServer.req c) as [data| |]; [|apply view_ret..].
  destruct (take _ _); [apply view_ret|]. destruct (HttpServer.next_word _) as [m r].
  destruct (HttpServer.next_word r) as [p ?]. apply view_bind; [|intros; apply view_ret]. rw /HttpServer.route.
  repeat case_bool_decide; try apply view_ret; (apply view_bind; [done|intros; apply view_ret]).
Qed.

Lemma visit_view x h : view_step (HttpServer.serve_loop x h).
Proof.
  assert (∀ c, view_step (HttpServer.serve_one c h)) as Hone.
  { intros c. apply view_bind; [apply client_view|]. intros [out|]; apply view_ret. }
  rw /HttpServer.serve_loop. destruct (HttpServer.thread_ h), x; auto using view_ret.
Qed.

(** What a visit leaves alone. *)
Record beside_loop s s' : Prop := {
  bl_running : running_ (event_loop_ s') = running_ (event_loop_ s);
  bl_settled : settled s → settled s';
  bl_unused : unused (event_loop_ s) → unused (event_loop_ s');
  bl_disk : disk_of s' = disk_of s;
  bl_store : store (world_of s') = store (world_of s);
  bl_clock : clock (world_of s') = clock (world_of s) ∧ (ticks (world_of s) ≤ ticks (world_of s'))%nat
}.

Lemma visit_good x s :
  good s → wp overflow_only (serve_visit x) (λ _ s', good s' ∧ beside_loop s s') s.
Proof.
  intros Hs. rw /wp /serve_visit.
  pose proof (visit_view x (http_server_ s) (HttpServer.mkView (metrics_of s) (clock (world_of s)) (ticks (world_of s)))) as Hv.
  rw /wp in Hv. destruct (HttpServer.serve_loop x _ _) as [[[h out] v]|f]; [|done].
  rw on_world_run. cbn [modify].
  pose proof (set_world_good (mkWorld (clock (world_of s)) (HttpServer.ms_ticks v) (store (world_of s))) s Hs (good_store _ Hs)
    ltac:(right; split; [done|apply Hv]))
    as [Hc Hl Hp Hb Hg Hq].
  assert (balanced (HttpServer.v_metrics v)) as Hbal by apply Hv, (g_gauge _ Hs).
  destruct out; (split; [split; try done; by destruct Hl|split; try done; split; [done|apply Hv]]).
Qed.

Lemma visits_good vs : ∀ s,
  good s → wp overflow_only (serve_visits vs) (λ _ s', good s' ∧ beside_loop s s') s.
Proof.
  rw /serve_visits. induction vs as [|x vs IH]; intros s Hs; cbn [foldM]; [by apply wp_ret|]. wp_go.
  eapply wp_mono; [by apply visit_good|]. intros [] s1 [H1 [A1 A2 A3 A4 A5 [A6 A7]]]. eapply wp_mono; [by apply IH|].
  intros ? s2 [H2 [B1 B2 B3 B4 B5 [B6 B7]]]. split; [done|]. split; [congruence|auto|auto|congruence..|]. split; [congruence|lia].
Qed.

(** ** Serving *)

(** Whether a turn stops the server. *)
Definition stops (t : Turn) : bool := match t with TRound r => stopped r | THttp _ => false end.

Lemma accept_new fd m c : (accept_cb fd m).1 = Some c → c = new_connection fd.
Proof. by intros [= <-]. Qed.

Lemma balanced_record z (m m' : Metrics.Metrics) : Connection.record_command z m = Ret m' → balanced m → balanced m'.
Proof. cbn. rw /Metrics.record_command. destruct (Metrics.update_latency_ema _ _); [|done]. by intros [= <-]. Qed.

Lemma balanced_open fd m : balanced m → balanced (accept_cb fd m).2.
Proof. rw /balanced /=. by intros ->. Qed.

Lemma round_good r s :
  good s → wp loop_fault (on_loop (round accept_cb r)) (λ _ s', good s' ∧
    running_ (event_loop_ s') = running_ (event_loop_ s) && negb (stopped r)) s.
Proof.
  intros [Hc Hl Hp Hb Hg Hq]. apply on_loop_wp.
  eapply wp_mono; [apply wp_and; [by apply (round_inv (safe := safe) accept_cb accept_new)|
    by apply (round_closed accept_cb balanced balanced_record balanced_open)]|].
  intros ? l [(? & _ & ? & Hk) ?]. split; [|done]. split; try done. cbn. by rw Hk.
Qed.

Lemma stop_good s :
  good s → wp no_fault stop (λ _ s', good s' ∧ running_ (event_loop_ s') = false ∧
    sh_running_ (l_world (event_loop_ s')) = false) s.
Proof.
  intros Hs. pose proof (good_served _ Hs) as [[H1 H2 H3] []]. destruct Hs as [Hc [] Hp Hb Hg Hq]. rw /stop /EventLoop.stop. wp_go.
  apply on_loop_wp. wp_go. apply on_shared_wp. wp_go. split; [|done]. by split.
Qed.

Lemma serve_good turns : ∀ s,
  good s → wp loop_fault (serve turns) (λ b s', good s' ∧
    b = negb (running_ (event_loop_ s)) || existsb stops turns) s.
Proof.
  induction turns as [|t ts IH]; intros s Hs; cbn [serve]; wp_go;
    destruct (running_ (event_loop_ s)) eqn:Hr; wp_go; try done.
  destruct t as [r|c]; wp_go; cbn [existsb stops].
  - eapply wp_mono; [eapply wp_fault_mono; [apply overflow_stops|apply shared_good; [done|]]|].
    { by apply interfere_served, good_served. }
    intros ? s1 (H1 & Hr1 & _). wp_go. eapply wp_mono; [by apply round_good|]. intros ? s2 [H2 Hr2]. wp_go.
    apply (wp_mono _ _ (λ _ s', good s' ∧ running_ (event_loop_ s') = negb (stopped r))).
    { rw Hr1 Hr in Hr2. destruct (stopped r); wp_go; [|done]. apply wp_faultless. eapply wp_mono; [by apply stop_good|]. by intros ? ? (? & ? & _). }
    intros ? s3 [H3 He]. eapply wp_mono; [by apply IH|]. intros b s4 [? ->]. split; [done|]. rw He. by destruct (stopped r).
  - eapply wp_mono; [eapply wp_fault_mono; [apply overflow_stops|by apply visit_good]|]. intros ? s1 [H1 [Hr1 _ _ _ _ _]].
    eapply wp_mono; [by apply IH|]. intros b s2 [? ->]. by rw Hr1 Hr.
Qed.

(** ** Shutdown *)

Lemma close_keeps a d :
  Aof.buf a = [] → let '(a', d') := Aof.close a d in
  Aof.path_ a' = Aof.path_ a ∧ Aof.buf a' = [] ∧ Aof.is_open a' = false ∧
  ∀ p, default [] (d' !! p) = default [] (d !! p).
Proof.
  intros Hb. rw /Aof.close /Aof.flush Hb. destruct (Aof.is_open a) eqn:Ho; [|done]. destruct (_ || _); [done|].
  split_and!; try done. intros p. destruct (decide (p = Aof.path_ a)) as [->|]; [|by rw lookup_insert_ne].
  by rw lookup_insert_eq take_nil app_nil_r.
Qed.

Lemma close_log_good s :
  good s → good (let '(a, d) := Aof.close (aof_ s) (disk_of s) in with_aof a (set_disk d s)).
Proof.
  intros Hs. pose proof (close_keeps (aof_ s) (disk_of s) (g_buf _ Hs)) as Hk.
  destruct (Aof.close _ _) as [a d]. destruct Hk as (Hp & ? & _ & Hk).
  assert (good (set_disk d s)) as [].
  { apply set_disk_good; [done|]. intros p Hn. rw Hk. by apply good_disk. }
  split; try done. cbn. by rw Hp (g_path _ Hs).
Qed.

Lemma stop_endpoint_good late s :
  good s → wp overflow_only (stop_endpoint late) (λ _ s', good s') s.
Proof.
  intros Hs. rw /stop_endpoint. wp_go. eapply wp_mono; [apply visits_good; by destruct Hs|].
  intros ? s1 [H1 _]. wp_go. destruct (HttpServer.join _); wp_go; by destruct H1.
Qed.

Lemma shut_down_good q s : good s → settled s → wp overflow_only (shut_down q) (λ _ s', good s') s.
Proof.
  intros Hs Ht. rw /shut_down. wp_go. eapply wp_mono; [by apply visits_good|]. intros ? s1 [H1 [_ Ht1 _ _ _ _]]. wp_go.
  apply (wp_mono _ _ (λ _ s', good s')).
  { destruct (rdb_enabled _); [|by apply wp_ret]. apply wp_faultless. eapply wp_mono; [by apply save_good; [|apply Ht1]|]. by intros ? ? []. }
  intros ? s2 H2. wp_go. eapply wp_mono; [by apply visits_good|]. intros ? s3 [H3 _]. wp_go.
  apply (wp_mono _ _ (λ _ s', good s')).
  { destruct (aof_enabled _); [|by apply wp_ret]. apply wp_modify. by apply close_log_good. }
  intros ? s4 H4. wp_go. eapply wp_mono; [by apply visits_good|]. intros ? s5 [H5 _]. wp_go.
  apply (wp_mono _ _ (λ _ s', good s')).
  { destruct (metrics_enabled _); [by apply stop_endpoint_good|by apply wp_ret]. }
  intros [] s6 H6; wp_go; [|done]. rw /close_listener. wp_go. destruct H6. destruct (0 <=? _); by split.
Qed.

Lemma join_good s :
  good s → wp overflow_only (on_shared join) (λ _ s', good s' ∧ settled s') s.
Proof.
  intros Hs. pose proof (good_served _ Hs) as Hsh. destruct Hs. apply on_shared_wp.
  eapply wp_mono; [by apply (join_served cfg d0)|]. intros ? sh (? & ? & _).
  split; [|done]. split; try done. by apply set_shared_inv.
Qed.

Lemma run_threads_good turns q s :
  good s → wp loop_fault (run_threads turns q) (λ ph s', good s' ∧ (ph = Serving ↔ existsb stops turns = false)) s.
Proof.
  intros [Hc [] Hp Hb Hg Hq]. rw /run_threads. wp_go. apply on_loop_wp. wp_go.
  eapply wp_mono; [apply serve_good; by split|]. intros b s1 [H1 ->]. cbn [negb orb].
  change (negb (running_ _)) with false. cbn [orb]. destruct (existsb stops turns); [|by apply wp_ret].
  eapply wp_fault_mono; [apply overflow_stops|]. wp_go. eapply wp_mono; [by apply visits_good|]. intros ? s2 [H2 _]. wp_go.
  eapply wp_mono; [by apply join_good|]. intros ? s3 [H3 Ht3]. wp_go.
  eapply wp_mono; [by apply shut_down_good|]. intros [] s4 H4; by wp_go.
Qed.

End Good.

Lemma new_good cfg e : good cfg e (new_server cfg e).
Proof.
  split; try done. split; rw /interest /refusals; cbn; try done.
  - intros fd. split; intros [? H]; by rw lookup_empty in H.
  - intros fd [? H]. by rw lookup_empty in H.
  - split; [|by apply idle_attentive; [apply new_store_ok|]]. split; [done| |done]. split; [apply new_store_ok|done].
Qed.

Lemma set_up_good cfg e b :
  zlen (default [] (e_disk e !! aof_path cfg)) < 2 ^ 63 →
  wp (boot_fault cfg b) (set_up b) (λ _ s, good cfg e s) (new_server cfg e).
Proof.
  intros Hz. assert (∀ vs s, good cfg e s → wp (boot_fault cfg b) (serve_visits vs)
    (λ _ s', good cfg e s' ∧ beside_loop s s') s) as Hv.
  { intros vs s Hs. eapply wp_fault_mono; [intros f H; left; by apply overflow_loads|by apply visits_good]. }
  rw /set_up /boot_steps. cbn [sequence]. wp_go.
  eapply wp_mono; [eapply wp_fault_mono; [by left|by apply (load_data_good cfg e); [apply new_good|..]]|].
  intros ? s1 [H1 U1]. wp_go. eapply wp_mono; [by apply (start_good cfg e)|]. intros ? s2 [H2 U2]. wp_go.
  eapply wp_mono; [by apply Hv|]. intros ? s3 [H3 [_ _ U3 _ _ _]]. wp_go.
  eapply wp_mono; [by apply (listener_good cfg e); [|apply U3]|]. intros ? s4 [H4 U4]. wp_go.
  eapply wp_mono; [by apply Hv|]. intros ? s5 [H5 [_ _ U5 _ _ _]]. wp_go.
  eapply wp_mono; [by apply (register_good cfg e); [|apply U5]|]. intros ? s6 H6. wp_go.
  eapply wp_mono; [by apply Hv|]. intros ? s7 [H7 _]. wp_go.
  eapply wp_mono; [by apply (maintenance_good cfg e)|]. intros ? s8 H8. by wp_go.
Qed.

(** What can end [run] other than its return. *)
Definition run_fault cfg e b (f : fault) : Prop :=
  (set_up b (new_server cfg e) = Fail f ∧ boot_fault cfg b f) ∨
  ((∃ s, set_up b (new_server cfg e) = Ret (tt, s)) ∧ loop_fault f).

Lemma run_good cfg e b turns q :
  zlen (default [] (e_disk e !! aof_path cfg)) < 2 ^ 63 →
  wp (run_fault cfg e b) (run b turns q)
    (λ ph s, good cfg e s ∧ (ph = Serving ↔ existsb stops turns = false)) (new_server cfg e).
Proof.
  intros Hz. pose proof (set_up_good cfg e b Hz) as H. rw /wp /run {1}/bind in H |- *.
  destruct (set_up b (new_server cfg e)) as [[[] s]|f] eqn:Hu; [|by left].
  pose proof (run_threads_good cfg e turns q s H) as Hr. rw /wp in Hr.
  destruct (run_threads turns q s) as [[]|f]; [done|]. right. split; [by exists s|done].
Qed.

End Thms.
End ServerInv.
