(* ===== verification/ServerThms.v ===== *)
(** What the server guarantees: it is safe from start-up to shutdown whatever
    its clients, files and threads do, it touches no file but its snapshot, it
    closes what it opened, and a restart finds what a shutdown left. *)

From S2P Require Import Prelude Lru Storage StorageInv StorageSpec StorageThms Conc StoreConc StoreConcThms Resp RespThms Commands CommandsThms Persistence PersistenceThms Buffer Connection ConnectionThms EventLoop EventLoopInv EventLoopThms Config ConfigThms Maintenance MaintenanceThms MaintenanceLin Double Metrics MetricsThms HttpServer HttpThms ThreadPool ThreadPoolThms Listener Logger Server ServerInv.
#[local] Open Scope Z_scope.

Module ServerThms.
Import Conc HttpThms Connection CommandsThms RespThms ConnectionThms EventLoop EventLoopInv EventLoopThms PersistenceThms Store StoreInv StoreSpec Config Maintenance MaintenanceThms MaintenanceLin Server ServerInv.

Section Thms.
Context {plat : Store.Platform} {cc : Commands.Compiler} {limits : VecLimits} {io : Io}.
Context {fp : Double.FpContract} {fmt : Metrics.Fmt} {poller : Poller} {plaws : PollerLaws poller} {kernel : Kernel} {spd : Logger.Spdlog}.

Implicit Types s : Server.

(** ** The thread of the endpoint *)

(** The visits among the turns. *)
Definition visits_in (turns : list Turn) : list HttpServer.Visit :=
  turns ≫= λ t, match t with THttp v => [v] | TRound _ => [] end.

(** The visits from the start of the event loop to the stop of the endpoint. *)
Definition visits_after (turns : list Turn) (q : Quit) : list HttpServer.Visit :=
  visits_in turns ++ q_visits q 0 ++ q_visits q 1 ++ q_visits q 2 ++ q_visits q 3.

(** All of them, from the start of the endpoint to its stop. *)
Definition visits_of (b : Boot) (turns : list Turn) (q : Quit) : list HttpServer.Visit :=
  b_visits b 0 ++ b_visits b 1 ++ b_visits b 2 ++ visits_after turns q.

Definition conf s : Config * HttpServer.Http := (cfg_ s, http_server_ s).

Section Endpoint.
Context (cfg : Config) (P : HttpServer.Http → Prop).

Definition ep (x : Config * HttpServer.Http) : Prop := x.1 = cfg ∧ P x.2.

(** A visit that keeps a property of the endpoint. *)
Definition keeping (x : HttpServer.Visit) : Prop := ∀ h v,
  P h → wp any_fault (HttpServer.serve_loop x h) (λ r _, P r.1) v.

Lemma http_loop {A} (m : M SLoop A) : closed ep conf (on_loop m).
Proof. apply closed_same. intros s. rw /wp /on_loop. by destruct (m _) as [[]|]. Qed.
Lemma http_shared {A} (m : M Shared A) : closed ep conf (on_shared m).
Proof. apply closed_same. intros s. rw /wp /on_shared. by destruct (m _) as [[]|]. Qed.
Lemma http_world {A} (m : M World A) : closed ep conf (on_world m).
Proof. apply http_shared. Qed.

Lemma http_visit x : keeping x → closed ep conf (serve_visit x).
Proof.
  intros Hx s [Hc Hs]. rw /wp /serve_visit.
  pose proof (Hx (http_server_ s) (HttpServer.mkView (metrics_of s) (clock (world_of s)) (ticks (world_of s))) Hs) as Hv.
  rw /wp in Hv. destruct (HttpServer.serve_loop _ _ _) as [[[h out] v]|]; [|done]. rw on_world_run. by destruct out.
Qed.

Lemma http_visits vs : Forall keeping vs → closed ep conf (serve_visits vs).
Proof.
  rw /serve_visits. induction 1 as [|x vs Hx _ IH]; cbn [foldM]; [apply closed_ret|].
  apply closed_bind; [by apply http_visit|]. by intros [].
Qed.

Lemma http_serve turns : Forall keeping (visits_in turns) → closed ep conf (serve turns).
Proof.
  pose proof (@http_loop). pose proof (@http_shared).
  induction turns as [|[r|x] ts IH]; intros Hv; cbn [serve]; rw /signal_handler /stop.
  - close.
  - specialize (IH Hv). close.
  - apply Forall_cons in Hv as [Hx Hv]. specialize (IH Hv). pose proof (http_visit x Hx). close.
Qed.

Lemma http_save : closed ep conf save_rdb.
Proof. pose proof (@http_world). rw /save_rdb. close. Qed.

Lemma http_close_log : closed ep conf
  (modify (λ s, let '(a, d) := Aof.close (aof_ s) (disk_of s) in with_aof a (set_disk d s))).
Proof. apply closed_modify. intros s. by destruct (Aof.close _ _). Qed.

Lemma http_load : closed ep conf load_data.
Proof.
  pose proof (@http_world). rw /load_data. close.
  apply closed_modify. intros s. by destruct (Aof.open _ _) as [[]].
Qed.

(** Where [run] is depends on whether the endpoint can be joined. *)
Lemma run_threads_phase turns q (Q : Phase → HttpServer.Http → Prop) s :
  (∀ h, P h → Q Serving h) → (metrics_enabled cfg = false → ∀ h, P h → Q Returned h) →
  (metrics_enabled cfg = true → ∀ s', ep (conf s') →
     wp any_fault (stop_endpoint (q_late q)) (λ ok s'', Q (if ok then Returned else Joining) (http_server_ s'')) s') →
  Forall keeping (visits_after turns q) → ep (conf s) →
  wp any_fault (run_threads turns q) (λ ph s', Q ph (http_server_ s')) s.
Proof.
  intros Q1 Q2 Q3 Hv Hs. rw /visits_after !Forall_app in Hv. destruct Hv as (V & V0 & V1 & V2 & V3).
  assert (∀ s, http_server_ (if 0 <=? s_listen_fd_ s then with_listener (-1) (delete (s_listen_fd_ s) (lsocks s)) s else s) =
    http_server_ s) as Hcl by (intros s'; by destruct (0 <=? _)).
  rw /run_threads. wp_go. eapply wp_mono; [by apply http_loop|]. intros ? s1 H1. wp_go.
  eapply wp_mono; [by apply (http_serve turns V)|]. intros [] s2 H2; [|by apply wp_ret, Q1; destruct H2]. wp_go.
  eapply wp_mono; [by apply (http_visits _ V0)|]. intros ? s3 H3. wp_go.
  eapply wp_mono; [by apply http_shared|]. intros ? s4 H4. rw /shut_down. wp_go.
  rw (proj1 H4 : cfg_ s4 = cfg). eapply wp_mono; [by apply (http_visits _ V1)|]. intros ? s5 H5. wp_go.
  apply (wp_mono _ _ (λ _ s, ep (conf s))); [destruct (rdb_enabled cfg); [by apply http_save|by apply wp_ret]|].
  intros ? s6 H6. wp_go. eapply wp_mono; [by apply (http_visits _ V2)|]. intros ? s7 H7. wp_go.
  apply (wp_mono _ _ (λ _ s, ep (conf s))); [destruct (aof_enabled cfg); [by apply http_close_log|by apply wp_ret]|].
  intros ? s8 H8. wp_go. eapply wp_mono; [by apply (http_visits _ V3)|]. intros ? s9 H9. wp_go.
  rw /close_listener. destruct (metrics_enabled cfg); [|wp_go; rw Hcl; apply Q2; [done|by destruct H9]].
  eapply wp_mono; [by apply Q3|]. intros [] s10 Hq; wp_go; by rw ?Hcl.
Qed.
End Endpoint.

(** Visits to a thread that is not there, or behind its loop, have no effect. *)
Definition over (h : HttpServer.Http) : Prop := is_Some (HttpServer.join h).

Lemma over_visit x : keeping over x.
Proof.
  intros h v [h' Hh]. rw /HttpServer.join in Hh. rw /HttpServer.serve_loop.
  destruct (HttpServer.thread_ h) eqn:Ht; try done; destruct x; apply wp_ret; rw /over /HttpServer.join /= Ht; by eexists.
Qed.

(** Without a client that sends nothing, the endpoint can be stopped. *)
Lemma quiet_visit x : mute x = false → keeping (λ h, receiving h = false) x.
Proof. intros Hx h v Hh. by apply serve_loop_quiet. Qed.

Lemma quiet_stops late s :
  receiving (http_server_ s) = false → wp any_fault (stop_endpoint late) (λ ok s', ok = true ∧ receiving (http_server_ s') = false) s.
Proof.
  intros Hs. rw /stop_endpoint. wp_go.
  eapply wp_mono; [apply (http_visits (cfg_ s) over); [apply Forall_forall; intros; apply over_visit|]|].
  - split; [done|]. rw /over /HttpServer.join /HttpServer.stop /receiving in Hs |- *. cbn.
    destruct (0 <=? _), (HttpServer.thread_ _); try done; by eexists.
  - intros ? s1 [_ [h Hh]]. wp_go. cbn [conf snd] in Hh. rw Hh. wp_go. split; [done|].
    rw /HttpServer.join in Hh. by destruct (HttpServer.thread_ _); try done; injection Hh as <-.
Qed.

(** A client that goes on sending nothing keeps it from being stopped. *)
Lemma stuck_visit x : speaks x = false → keeping (λ h, receiving h = true) x.
Proof. intros Hx h v Hh. by apply serve_loop_stuck. Qed.

Lemma stuck_stops late s :
  existsb speaks late = false → receiving (http_server_ s) = true → wp any_fault (stop_endpoint late) (λ ok _, ok = false) s.
Proof.
  intros Hl Hs. rw /stop_endpoint. wp_go.
  eapply wp_mono; [apply (http_visits (cfg_ s) (λ h, receiving h = true))|].
  - apply Forall_forall. intros x Hx. apply stuck_visit. destruct (speaks x) eqn:E; [|done].
    exfalso. apply not_true_iff_false in Hl. apply Hl, existsb_exists. exists x. by rw -list_elem_of_In.
  - split; [done|]. rw /HttpServer.stop /receiving in Hs |- *. cbn. by destruct (0 <=? _), (HttpServer.thread_ _).
  - intros ? s1 [_ Hr]. wp_go. rw /receiving /= in Hr. rw /HttpServer.join. by destruct (HttpServer.thread_ _).
Qed.

Lemma existsb_none {A} (f : A → bool) l : existsb f l = false → Forall (λ x, f x = false) l.
Proof.
  induction l as [|x l IH]; cbn [existsb]; [constructor|]. intros [? ?]%orb_false_iff. constructor; auto.
Qed.

(** The set-up, step by step. *)
Lemma boot_closed cfg (P : HttpServer.Http → Prop) b :
  (∀ h fds, P h → P (HttpServer.start (b_http_fd b) (b_http_bound b) (b_http_thread b) h fds).2.1) →
  Forall (keeping P) (b_visits b 0 ++ b_visits b 1 ++ b_visits b 2) →
  Forall (closed (ep cfg P) conf) (boot_steps b).
Proof.
  intros Hst Hv. rw !Forall_app in Hv. destruct Hv as (V0 & V1 & V2).
  rw /boot_steps. repeat (apply Forall_cons; split); [..|constructor]; try by apply http_visits.
  - apply http_load.
  - intros s [Hc Hs]. rw /start_endpoint. wp_go. destruct (metrics_enabled _); wp_go; [|done].
    specialize (Hst (http_server_ s) (http_fds s) Hs). by destruct (HttpServer.start _ _ _ _ _).1.
  - rw /open_listener. close.
  - pose proof (@http_loop). rw /register_listener. close.
  - pose proof (@http_shared). rw /start_maintenance. close.
Qed.

Lemma boot_quiet cfg b :
  existsb mute (b_visits b 0 ++ b_visits b 1 ++ b_visits b 2) = false →
  Forall (closed (ep cfg (λ h, receiving h = false)) conf) (boot_steps b).
Proof.
  intros Hv%existsb_none. apply boot_closed; [|by eapply Forall_impl; [exact Hv|apply quiet_visit]].
  intros h fds Hh. rw /HttpServer.start. by destruct (_ <? _), (b_http_bound b), (b_http_thread b).
Qed.

Lemma attempt_closed {X} (Q : X → Prop) (f : Server → X) steps : ∀ s,
  Forall (closed Q f) steps → Q (f s) → Q (f (attempt steps s).2).
Proof.
  induction steps as [|m ms IH]; intros s Hc Hs; [done|]. apply Forall_cons in Hc as [Hm Hc]. cbn [attempt].
  specialize (Hm s Hs). rw /wp in Hm. destruct (m s) as [[? s']|]; [by apply IH|done].
Qed.

Lemma attempt_sequence (steps : list (M Server unit)) : ∀ s,
  sequence steps s = match attempt steps s with (Ret _, s') => Ret (tt, s') | (Fail f, _) => Fail f end.
Proof.
  induction steps as [|m ms IH]; intros s; [done|]. cbn [sequence attempt]. rw /bind.
  by destruct (m s) as [[? s']|].
Qed.

Lemma run_quiet cfg turns q s :
  cfg_ s = cfg → receiving (http_server_ s) = false → existsb mute (visits_after turns q) = false →
  wp any_fault (run_threads turns q) (λ ph s', ph ≠ Joining ∧ receiving (http_server_ s') = false) s.
Proof.
  intros Hc Hs Hv%existsb_none.
  apply (run_threads_phase cfg (λ h, receiving h = false) turns q (λ ph h, ph ≠ Joining ∧ receiving h = false)); try done.
  - intros _ s' [_ Hs']. eapply wp_mono; [by apply quiet_stops|]. by intros ? ? [-> ?].
  - eapply Forall_impl; [exact Hv|apply quiet_visit].
Qed.

Lemma visits_of_app b turns q :
  visits_of b turns q = (b_visits b 0 ++ b_visits b 1 ++ b_visits b 2) ++ visits_after turns q.
Proof. by rw /visits_of -!app_assoc. Qed.

(** The server waits for the thread of its endpoint only if a client connected to
    it and sent nothing. *)
Lemma joining_mute cfg e b turns q s :
  run b turns q (new_server cfg e) = Ret (Joining, s) →
  metrics_enabled cfg = true ∧ existsb mute (visits_of b turns q) = true.
Proof.
  rw /run /bind /set_up attempt_sequence. destruct (attempt _ _) as [[[]|f] s1] eqn:Ha; [|done]. intros Hrun. split.
  - apply not_false_is_true. intros Hm.
    assert (∀ x, keeping (λ _, True) x) as Hany.
    { intros x h v _. rw /wp. by destruct (HttpServer.serve_loop x h v) as [[]|]. }
    pose proof (attempt_closed (ep cfg (λ _, True)) conf (boot_steps b) (new_server cfg e)) as Hat. rw Ha in Hat.
    assert (wp any_fault (run_threads turns q) (λ ph s', ph ≠ Joining) s1) as Hwp; [|by rw /wp Hrun in Hwp].
    apply (run_threads_phase cfg (λ _, True) turns q (λ ph _, ph ≠ Joining)); try done; [by rw Hm|by apply Forall_forall|].
    apply Hat; [|done]. by apply boot_closed; [|apply Forall_forall].
  - apply not_false_is_true. rw visits_of_app existsb_app. intros [Hb Hq]%orb_false_iff.
    pose proof (attempt_closed (ep cfg (λ h, receiving h = false)) conf (boot_steps b) (new_server cfg e)
      (boot_quiet cfg b Hb) ltac:(done)) as Hat. rw Ha in Hat. destruct Hat as [Hc Hr].
    pose proof (run_quiet cfg turns q s1 Hc Hr Hq) as Hwp. rw /wp Hrun in Hwp. by destruct Hwp.
Qed.

(** ** From start-up to shutdown *)

(** C4: the server is safe from start-up to shutdown.  Whatever its files
    hold, whatever its clients and those of its endpoint do, wherever the
    scheduler lets the maintenance thread run between the sections of the
    commands, the invariants of the event loop and of the store hold.  It is in
    its event loop exactly as long as it has not been stopped.  Once stopped it
    returns, unless it waits for the thread of the metrics endpoint, which takes
    an enabled endpoint and a client that connected to it and sent nothing.  An
    error ends it otherwise: in the set-up, by memory or a number in the persisted
    data, by a listener that the system refuses or a thread that it does not
    start, and by nothing else; after that only by what can end the event loop
    ([loop_fault]: missing memory, a buffer over 64 MiB, an overflow, a failing
    [fcntl], the call in SetCmd.hpp evaluated from the right, a latency that
    cannot be averaged). *)
Theorem server_safe cfg e b turns q :
  zlen (default [] (e_disk e !! aof_path cfg)) < 2 ^ 63 →
  match run b turns q (new_server cfg e) with
  | Ret (ph, s) => inv (safe := served_safe cfg (e_disk e)) (event_loop_ s) ∧ store_ok (store (world_of s)) ∧
      (ph = Serving ↔ existsb stops turns = false) ∧
      (ph = Joining → metrics_enabled cfg = true ∧ existsb mute (visits_of b turns q) = true)
  | Fail f => (set_up b (new_server cfg e) = Fail f ∧ boot_fault cfg b f) ∨
      ((∃ s, set_up b (new_server cfg e) = Ret (tt, s)) ∧ loop_fault f)
  end.
Proof.
  intros Hz. pose proof (run_good cfg e b turns q Hz) as H. rw /wp in H.
  destruct (run _ _ _ _) as [[ph s]|f] eqn:Hrun; [|done]. destruct H as [H ?].
  split_and!; [by apply g_loop|by eapply good_store|done|]. intros ->. by eapply joining_mute.
Qed.

(** C8: a client of the metrics endpoint can keep the server from stopping.  When
    the thread of the endpoint waits for a client that has connected and sent
    nothing, and that client goes on sending nothing and does not go, a stop ends
    the event loop but not the process: [run] stays in the join of that thread,
    whatever else happens. *)
Theorem silent_client_blocks_stop cfg e b turns q s :
  zlen (default [] (e_disk e !! aof_path cfg)) < 2 ^ 63 → metrics_enabled cfg = true →
  set_up b (new_server cfg e) = Ret (tt, s) → receiving (http_server_ s) = true →
  existsb speaks (visits_after turns q) = false → existsb speaks (q_late q) = false →
  match run b turns q (new_server cfg e) with
  | Ret (ph, _) => ph = if existsb stops turns then Joining else Serving
  | Fail f => loop_fault f
  end.
Proof.
  intros Hz Hm Hset Hr Hv%existsb_none Hl. pose proof (set_up_good cfg e b Hz) as Hg. rw /wp Hset in Hg.
  pose proof (run_threads_good cfg e turns q s Hg) as Hrun.
  pose proof (run_threads_phase cfg (λ h, receiving h = true) turns q (λ ph _, ph ≠ Returned) s) as Hph.
  rw /run /bind Hset. rw /wp in Hrun, Hph. destruct (run_threads turns q s) as [[ph s']|f]; [|done].
  destruct Hrun as [_ Hserv]. assert (ph ≠ Returned) as Hne.
  { apply Hph; try done; [by rw Hm| |eapply Forall_impl; [exact Hv|apply stuck_visit]|by split; [apply (g_cfg _ _ _ Hg)|]].
    intros _ s'' [_ Hs'']. eapply wp_mono; [by apply stuck_stops|]. by intros ? ? ->. }
  destruct (existsb stops turns), ph; naive_solver.
Qed.

(** The append-only file is only read.  Whatever is executed, with the
    file enabled or not, when the server stops (or is still running) every file
    other than the snapshot and its temporary holds what it held before the
    start, the append-only file included. *)
Theorem log_never_written cfg e b turns q ph s p :
  zlen (default [] (e_disk e !! aof_path cfg)) < 2 ^ 63 →
  run b turns q (new_server cfg e) = Ret (ph, s) →
  p ≠ rdb_path cfg → p ≠ Rdb.tmp_path (rdb_path cfg) →
  default [] (disk_of s !! p) = default [] (e_disk e !! p).
Proof.
  intros Hz Hrun H1 H2. pose proof (run_good cfg e b turns q Hz) as H. rw /wp Hrun in H.
  destruct H as [Hg _]. apply (good_disk cfg e s p Hg). by intros [?|?].
Qed.

(** The gauge of open connections never falls.  At any time it equals the
    number of connections ever accepted, however many have been closed. *)
Theorem gauge_counts_all cfg e b turns q ph s :
  zlen (default [] (e_disk e !! aof_path cfg)) < 2 ^ 63 →
  run b turns q (new_server cfg e) = Ret (ph, s) →
  Metrics.active_connections_ (metrics_of s) = Metrics.total_connections_ (metrics_of s).
Proof.
  intros Hz Hrun. pose proof (run_good cfg e b turns q Hz) as H. rw /wp Hrun in H. by destruct H as [[] _].
Qed.

(** ** What the server holds open *)

Definition Held : Type := Config * (Z * Z * bool * bool) * gset Z * Z * gmap Z TcpListener.LSock * SPool.
Definition held s : Held := (cfg_ s, shape (http_server_ s), http_fds s, s_listen_fd_ s, lsocks s, thread_pool_ s).

Lemma held_loop {A} x (m : M SLoop A) : closed (eq x) (λ s, (held s, aof_ s)) (on_loop m).
Proof. apply closed_same. intros s. rw /wp /on_loop. by destruct (m _) as [[]|]. Qed.
Lemma held_shared {A} x (m : M Shared A) : closed (eq x) (λ s, (held s, aof_ s)) (on_shared m).
Proof. apply closed_same. intros s. rw /wp /on_shared. by destruct (m _) as [[]|]. Qed.
Lemma held_world {A} x (m : M World A) : closed (eq x) (λ s, (held s, aof_ s)) (on_world m).
Proof. apply held_shared. Qed.

Lemma save_held x : closed (eq x) (λ s, (held s, aof_ s)) save_rdb.
Proof. pose proof (@held_world). rw /save_rdb. close. Qed.

Definition thread_of s : option (Prog Site Z) := sh_thread (l_world (event_loop_ s)).

(** A visit changes none of this, nor the maintenance thread. *)
Lemma visit_held x v : closed (eq x) (λ s, (held s, aof_ s, thread_of s)) (serve_visit v).
Proof.
  apply closed_same. intros s. rw /wp /serve_visit.
  pose proof (serve_loop_shape v (http_server_ s) (HttpServer.mkView (metrics_of s) (clock (world_of s)) (ticks (world_of s)))) as Hv.
  rw /wp in Hv. destruct (HttpServer.serve_loop _ _ _) as [[[h out] w]|]; [|done]. rw on_world_run. cbn [modify].
  destruct out; rw /held; cbn; by rw Hv.
Qed.

Lemma visits_held vs s :
  wp any_fault (serve_visits vs) (λ _ s', held s' = held s ∧ aof_ s' = aof_ s ∧ thread_of s' = thread_of s) s.
Proof.
  eapply wp_mono; [apply (closed_foldM (eq (held s, aof_ s, thread_of s)) (λ s, (held s, aof_ s, thread_of s))); [|done]|].
  - intros ? v. apply visit_held.
  - intros ? s' H. pose proof (f_equal (λ x, x.1.1) H : held s = held s'). pose proof (f_equal (λ x, x.1.2) H : aof_ s = aof_ s').
    by pose proof (f_equal snd H : thread_of s = thread_of s').
Qed.

Lemma serve_held x turns : closed (eq x) (λ s, (held s, aof_ s)) (serve turns).
Proof.
  pose proof (@held_loop). pose proof (@held_shared).
  assert (∀ x v, closed (eq x) (λ s, (held s, aof_ s)) (serve_visit v)) as Hv.
  { intros y v s Hy. eapply wp_mono; [by apply (visit_held (held s, aof_ s, thread_of s))|].
    intros ? s' H1. rw Hy. exact (f_equal fst H1). }
  induction turns as [|t ts IH]; cbn [serve]; rw /signal_handler /stop; close.
Qed.

Lemma load_data_held s :
  wp any_fault load_data (λ _ s', held s' = held s ∧ (aof_enabled (cfg_ s) = false → aof_ s' = aof_ s)) s.
Proof.
  rw /load_data. wp_go.
  apply (wp_mono _ _ (λ _ s', (held s, aof_ s) = (held s', aof_ s'))).
  { assert (closed (eq (held s, aof_ s)) (λ s, (held s, aof_ s)) (if rdb_enabled (cfg_ s)
      then on_world (Rdb.load (rdb_path (cfg_ s)) (disk_of s)) ;;; ret tt else ret tt)) as H; [|by apply H].
    pose proof (@held_world). close. }
  intros _ s1 H. pose proof (f_equal fst H : held s = held s1) as H1. pose proof (f_equal snd H : aof_ s = aof_ s1).
  destruct (aof_enabled (cfg_ s)); [|by apply wp_ret]. wp_go.
  set (s2 := (let '(_, a, d) := Aof.open (aof_ s1) (disk_of s1) in with_aof a (set_disk d s1))).
  assert (held s2 = held s1) as H3 by (rw /s2; by destruct (Aof.open _ _) as [[]]).
  eapply wp_mono; [by apply (held_world (held s2, aof_ s2))|]. intros z s3 H4. wp_go.
  split; [|done]. rw H1 -H3. symmetry. exact (f_equal fst H4).
Qed.

Lemma held_eq s c h fds fd socks p :
  held s = (c, h, fds, fd, socks, p) →
  cfg_ s = c ∧ shape (http_server_ s) = h ∧ http_fds s = fds ∧ s_listen_fd_ s = fd ∧ lsocks s = socks ∧ thread_pool_ s = p.
Proof. intros H. injection H. rw /shape. intros. by split_and!; [|congruence|..]. Qed.

Lemma held_intro s c h fds fd socks p :
  cfg_ s = c → shape (http_server_ s) = h → http_fds s = fds → s_listen_fd_ s = fd → lsocks s = socks → thread_pool_ s = p →
  held s = (c, h, fds, fd, socks, p).
Proof. by intros <- <- <- <- <- <-. Qed.

Lemma listener_opens sys host port backlog open fd socks :
  TcpListener.create_tcp_listener sys host port backlog open = (Ret fd, socks) →
  ∃ x, TcpListener.sys_socket sys = Some fd ∧ socks = <[fd := x]> open.
Proof.
  rw /TcpListener.create_tcp_listener. repeat case_match; intros [=]; subst;
    eexists; (split; [done|apply insert_insert_eq]).
Qed.

(** The endpoint after its start. *)
Definition endpoint (cfg : Config) (b : Boot) : HttpServer.Http * gset Z :=
  if metrics_enabled cfg
  then (HttpServer.start (b_http_fd b) (b_http_bound b) (b_http_thread b) (HttpServer.new_http (metrics_port cfg)) ∅).2
  else (HttpServer.new_http (metrics_port cfg), ∅).

(** [stop] and [join] as far as they can be seen from outside. *)
Lemma stop_shape h h' fds :
  shape h = shape h' → shape (HttpServer.stop h fds).1 = shape (HttpServer.stop h' fds).1 ∧
    (HttpServer.stop h fds).2 = (HttpServer.stop h' fds).2.
Proof.
  destruct h as [p f r t], h' as [p' f' r' t']. rw /shape /HttpServer.joinable. cbn. intros [= -> -> -> Ht].
  rw /HttpServer.stop. cbn. destruct (0 <=? f'), t, t'; done.
Qed.

Lemma join_shape h port j :
  shape h = (port, -1, false, j) → ∀ h', HttpServer.join h = Some h' → h' = HttpServer.new_http port.
Proof.
  destruct h as [p f r t]. rw /shape. cbn. intros [= -> -> -> _]. rw /HttpServer.join. cbn.
  destruct t; by intros ? [= <-].
Qed.

Lemma shape_new h port : shape h = shape (HttpServer.new_http port) → h = HttpServer.new_http port.
Proof. destruct h as [p f r []]; rw /shape; cbn; by intros [= -> -> ->]. Qed.

Lemma endpoint_stops cfg b :
  -1 ≤ b_http_fd b →
  (∃ j, shape (HttpServer.stop (endpoint cfg b).1 (endpoint cfg b).2).1 = (metrics_port cfg, -1, false, j)) ∧
  (HttpServer.stop (endpoint cfg b).1 (endpoint cfg b).2).2 = ∅.
Proof.
  intros Hfd. rw /endpoint. destruct (metrics_enabled cfg); [|by split; [eexists|]].
  destruct (stop_start (metrics_port cfg) (b_http_fd b) (b_http_bound b) (b_http_thread b) ∅) as [Hj Hf]; [set_solver|done|].
  split; [|done]. destruct (HttpServer.stop _ _) as [[p f r t] fds]. cbn in Hj |- *. rw /HttpServer.join in Hj. cbn in Hj.
  destruct t; try done; injection Hj as -> -> ->; by eexists.
Qed.

Lemma sockets_held cfg b p s :
  held s = (cfg, shape (HttpServer.new_http (metrics_port cfg)), ∅, -1, ∅, p) →
  (∀ fd, TcpListener.sys_socket (b_sys b) = Some fd → 0 ≤ fd) →
  wp any_fault (sequence (drop 1 (boot_steps b))) (λ _ s', aof_ s' = aof_ s ∧ ∃ fd x, 0 ≤ fd ∧
    held s' = (cfg, shape (endpoint cfg b).1, (endpoint cfg b).2, fd, {[ fd := x ]}, p)) s.
Proof.
  intros (Hc & Hh & Hf & Hl & Hs & Hp)%held_eq Hfd. rw /boot_steps. cbn [drop sequence]. wp_go.
  apply (wp_mono _ _ (λ _ s', aof_ s' = aof_ s ∧ held s' = (cfg, shape (endpoint cfg b).1, (endpoint cfg b).2, -1, ∅, p))).
  { rw /start_endpoint. wp_go. rw Hc.
    pose proof (shape_new _ _ Hh) as Hh'.
    rw /endpoint. destruct (metrics_enabled cfg); wp_go.
    - rw Hh' Hf. destruct (HttpServer.start _ _ _ _ _) as [[] []]; [|done]. split; [done|]. by apply held_intro.
    - split; [done|]. by apply held_intro. }
  intros ? s1 [Ha1 H1]. wp_go. eapply wp_mono; [apply visits_held|]. intros ? s2 (H2 & Ha2 & _). rw H1 in H2.
  wp_go. rw /open_listener. wp_go. apply held_eq in H2 as (Hc2 & Hh2 & Hf2 & Hl2 & Hs2 & Hp2). rw Hs2.
  destruct (TcpListener.create_tcp_listener _ _ _ _ _) as [[fd|f] socks] eqn:Hcr; [|done]. cbn [fst snd]. wp_go.
  set (s3 := with_listener fd socks s2). eapply wp_mono; [apply visits_held|]. intros ? s4 (H4 & Ha4 & _). wp_go.
  rw /register_listener. wp_go. eapply wp_mono; [by apply (held_loop (held s4, aof_ s4))|]. intros ? s5 H5. wp_go.
  eapply wp_mono; [apply visits_held|]. intros ? s6 (H6 & Ha6 & _). wp_go. rw /start_maintenance.
  destruct (b_thread b); [|done]. wp_go.
  eapply wp_mono; [by apply (held_shared (held s6, aof_ s6))|]. intros ? s7 H7. wp_go.
  destruct (listener_opens _ _ _ _ _ _ _ Hcr) as (x & Hsock & Hsocks).
  pose proof (f_equal snd H5 : aof_ s4 = aof_ s5) as K1. pose proof (f_equal snd H7 : aof_ s6 = aof_ s7) as K2.
  pose proof (f_equal fst H5 : held s4 = held s5) as K3. pose proof (f_equal fst H7 : held s6 = held s7) as K4.
  split; [rw -K2 Ha6 -K1 Ha4 /s3 /= Ha2 Ha1; done|]. exists fd, x. split; [auto|].
  rw -K4 H6 -K3 H4. by apply held_intro.
Qed.

Lemma thread_world {A} x (m : M World A) : closed (eq x) thread_of (on_world m).
Proof. apply closed_same. intros s. rw /wp on_world_run. by destruct (m _) as [[]|]. Qed.

Lemma close_log_held s :
  let s' := (let '(a, d) := Aof.close (aof_ s) (disk_of s) in with_aof a (set_disk d s)) in
  held s' = held s ∧ Aof.is_open (aof_ s') = false ∧ thread_of s' = thread_of s.
Proof.
  rw /Aof.close. destruct (Aof.is_open (aof_ s)) eqn:E; [|done]. by destruct (Aof.flush _ _).
Qed.

(** What is left of the endpoint when its stop returns. *)
Lemma stop_endpoint_held cfg b late s :
  shape (http_server_ s) = shape (endpoint cfg b).1 → http_fds s = (endpoint cfg b).2 → -1 ≤ b_http_fd b →
  wp any_fault (stop_endpoint late) (λ ok s', ok = true →
    http_server_ s' = HttpServer.new_http (metrics_port cfg) ∧ http_fds s' = ∅ ∧ cfg_ s' = cfg_ s ∧
    s_listen_fd_ s' = s_listen_fd_ s ∧ lsocks s' = lsocks s ∧ thread_pool_ s' = thread_pool_ s ∧
    aof_ s' = aof_ s ∧ thread_of s' = thread_of s) s.
Proof.
  intros Hh Hf Hfd. destruct (endpoint_stops cfg b Hfd) as [[j Hj] Hfds]. rw /stop_endpoint. wp_go.
  destruct (stop_shape _ _ (http_fds s) Hh) as [Hs1 Hs2]. rw Hf Hfds in Hs2. rw Hf in Hs1. rw Hj in Hs1. rw Hf.
  set (s1 := with_http _ s). eapply wp_mono; [apply visits_held|]. intros ? s2 (H2 & Ha2 & Ht2). wp_go.
  apply held_eq in H2 as (K1 & K2 & K3 & K4 & K5 & K6). cbn in K2, K3. rw Hs1 in K2. rw Hs2 in K3.
  pose proof (join_shape _ _ _ K2) as Hjn. destruct (HttpServer.join (http_server_ s2)) as [h|]; wp_go; [|done].
  intros _. split_and!; try done. by apply Hjn.
Qed.

Lemma shut_down_held cfg fd x b p q s :
  held s = (cfg, shape (endpoint cfg b).1, (endpoint cfg b).2, fd, {[ fd := x ]}, p) → 0 ≤ fd → -1 ≤ b_http_fd b →
  (aof_enabled cfg = false → Aof.is_open (aof_ s) = false) → thread_of s = None →
  wp any_fault (shut_down q) (λ ok s', ok = true →
    http_server_ s' = HttpServer.new_http (metrics_port cfg) ∧ http_fds s' = ∅ ∧ s_listen_fd_ s' = -1 ∧ lsocks s' = ∅ ∧
    thread_pool_ s' = p ∧ Aof.is_open (aof_ s') = false ∧ thread_of s' = None) s.
Proof.
  intros H0 Hpos Hhttp Ho Hth. pose proof (held_eq _ _ _ _ _ _ _ H0) as (Hc & _).
  rw /shut_down. wp_go. rw Hc. eapply wp_mono; [apply visits_held|]. intros ? s1 (H1 & Ha1 & Ht1). wp_go.
  apply (wp_mono _ _ (λ _ s', held s' = held s ∧ aof_ s' = aof_ s ∧ thread_of s' = None)).
  { destruct (rdb_enabled cfg); [|apply wp_ret; rw H1 Ha1 Ht1; done].
    eapply wp_mono; [apply wp_and; [by apply (save_held (held s1, aof_ s1))|]|].
    - pose proof (@thread_world). assert (closed (eq None) thread_of save_rdb) as Hcl by (rw /save_rdb; close).
      apply Hcl. by rw Ht1.
    - intros ? s2 [H2 Ht2]. pose proof (f_equal fst H2 : held s1 = held s2). pose proof (f_equal snd H2 : aof_ s1 = aof_ s2).
      split_and!; [congruence..|done]. }
  intros ? s2 (H2 & Ha2 & Ht2). wp_go. eapply wp_mono; [apply visits_held|]. intros ? s3 (H3 & Ha3 & Ht3). wp_go.
  apply (wp_mono _ _ (λ _ s', held s' = held s ∧ Aof.is_open (aof_ s') = false ∧ thread_of s' = None)).
  { destruct (aof_enabled cfg); wp_go.
    - destruct (close_log_held s3) as (K1 & K2 & K3). rw K1 H3 K3 Ht3. by split_and!.
    - rw H3 H2 Ha3 Ha2 Ht3. auto. }
  intros ? s4 (H4 & Ho4 & Ht4). wp_go. eapply wp_mono; [apply visits_held|]. intros ? s5 (H5 & Ha5 & Ht5). wp_go.
  rw H4 H0 in H5. apply held_eq in H5 as (K1 & K2 & K3 & K4 & K5 & K6).
  apply (wp_mono _ _ (λ ok s', ok = true → http_server_ s' = HttpServer.new_http (metrics_port cfg) ∧ http_fds s' = ∅ ∧
    s_listen_fd_ s' = fd ∧ lsocks s' = {[ fd := x ]} ∧ thread_pool_ s' = p ∧ Aof.is_open (aof_ s') = false ∧ thread_of s' = None)).
  { destruct (metrics_enabled cfg) eqn:Hen.
    - eapply wp_mono; [by apply (stop_endpoint_held cfg b)|]. intros ok s6 H6 (? & ? & _ & ? & ? & ? & Ha6 & ?)%H6.
      rw Ha6 Ha5. split_and!; congruence.
    - wp_go. intros _. rw Ha5. rw /endpoint Hen in K2, K3. split_and!; try done; [|congruence].
      by apply shape_new. }
  intros [] s6 H6; rw /close_listener; wp_go; [|done].
  destruct (H6 eq_refl) as (L1 & L2 & L3 & L4 & L5 & L6 & L7). rw L3 (proj2 (Z.leb_le _ _)) //. intros _.
  split_and!; try done. cbn. by rw L4 delete_singleton_eq.
Qed.

(** What is left open when [run] returns. *)
Lemma run_held cfg e b turns q :
  (∀ fd, TcpListener.sys_socket (b_sys b) = Some fd → 0 ≤ fd) → -1 ≤ b_http_fd b →
  wp any_fault (run b turns q) (λ ph s, ph = Returned →
    http_server_ s = HttpServer.new_http (metrics_port cfg) ∧ http_fds s = ∅ ∧ s_listen_fd_ s = -1 ∧ lsocks s = ∅ ∧
    thread_pool_ s = ThreadPool.new_pool (Z.to_nat (worker_threads cfg)) ∧
    Aof.is_open (aof_ s) = false ∧ thread_of s = None) (new_server cfg e).
Proof.
  intros Hfd Hhttp. set (s0 := new_server cfg e).
  rw /run /set_up. wp_go. change (sequence (boot_steps b)) with (load_data ;;; sequence (drop 1 (boot_steps b))). wp_go.
  eapply wp_mono; [apply load_data_held|]. intros ? s1 [H1 Ha1].
  eapply wp_mono; [by apply (sockets_held cfg)|]. intros ? s2 (Ha2 & fd & x & Hpos & H2).
  rw /run_threads. wp_go. eapply wp_mono; [by apply (held_loop (held s2, aof_ s2))|]. intros ? s3 H3. wp_go.
  eapply wp_mono; [by apply (serve_held (held s3, aof_ s3))|]. intros fin s4 H4.
  destruct fin; [|by apply wp_ret]. wp_go. eapply wp_mono; [apply visits_held|]. intros ? s5 (H5 & Ha5 & _). wp_go.
  apply (wp_mono _ _ (λ _ s, (held s5, aof_ s5) = (held s, aof_ s) ∧ thread_of s = None)).
  { apply wp_and; [by apply held_shared|]. apply on_shared_wp. rw /wp /join. destruct (sh_thread _) as [p|]; [|done].
    by destruct (alone p _) as [[]|]. }
  intros ? s6 [H6 Ht6]. wp_go. pose proof (eq_trans H3 H4) as H34.
  pose proof (f_equal fst H34 : held s2 = held s4) as K1. pose proof (f_equal snd H34 : aof_ s2 = aof_ s4) as K2.
  pose proof (f_equal fst H6 : held s5 = held s6) as K3. pose proof (f_equal snd H6 : aof_ s5 = aof_ s6) as K4.
  rw K1 -H5 K3 in H2. eapply wp_mono; [eapply (shut_down_held cfg fd x b); try done|].
  - intros He. rw -K4 Ha5 -K2 Ha2 Ha1 //.
  - intros [] s7 H7; wp_go; [by intros _; apply H7|done].
Qed.

Lemma close_log_files s p :
  Aof.buf (aof_ s) = [] →
  let s' := (let '(a, d) := Aof.close (aof_ s) (disk_of s) in with_aof a (set_disk d s)) in
  default [] (disk_of s' !! p) = default [] (disk_of s !! p).
Proof.
  intros Hb. pose proof (close_keeps (aof_ s) (disk_of s) Hb) as Hk. destruct (Aof.close _ _) as [a d]. apply Hk.
Qed.

(** Without a thread a visit has no effect on the endpoint. *)
Lemma visits_idle vs : ∀ s,
  HttpServer.thread_ (http_server_ s) = HttpServer.NoThread →
  ∃ s', serve_visits vs s = Ret (tt, s') ∧ http_server_ s' = http_server_ s.
Proof.
  rw /serve_visits. induction vs as [|x vs IH]; intros s Hs; [by exists s|]. cbn [foldM]. rw /bind {1}/serve_visit.
  rw /HttpServer.serve_loop Hs /ret on_world_run. cbn [modify]. set (s1 := set_http _ _).
  destruct (IH s1 Hs) as (s' & -> & Hh). exists s'. by rw Hh.
Qed.

(** C37: the process gives back what it took.  When the server returns, its
    endpoint is stopped and its thread joined, the listening socket and the socket
    of the endpoint are closed, each once, the append-only file is closed and the
    maintenance thread is joined; destroying it then comes to its end, closes the
    multiplexer and every client socket and joins the workers, which have nothing
    to do, without touching a file. *)
Theorem exit_releases cfg e b turns q s late :
  zlen (default [] (e_disk e !! aof_path cfg)) < 2 ^ 63 → 0 ≤ e_kq e →
  (∀ fd, TcpListener.sys_socket (b_sys b) = Some fd → 0 ≤ fd) → -1 ≤ b_http_fd b →
  run b turns q (new_server cfg e) = Ret (Returned, s) →
  (http_server_ s = HttpServer.new_http (metrics_port cfg) ∧ http_fds s = ∅ ∧ s_listen_fd_ s = -1 ∧ lsocks s = ∅ ∧
   Aof.is_open (aof_ s) = false ∧ thread_of s = None) ∧
  ∃ s', destroy_server late s = Ret (true, s') ∧
    socks (event_loop_ s') = ∅ ∧ connections_ (event_loop_ s') = ∅ ∧ interest (event_loop_ s') = ∅ ∧
    kq_or_epoll_fd_ (event_loop_ s') = -1 ∧ http_fds s' = ∅ ∧ lsocks s' = ∅ ∧
    ThreadPool.joined (ThreadPool.return_all (ThreadPool.announce (thread_pool_ s))) = true ∧
    ThreadPool.workers_ (thread_pool_ s') = [] ∧
    ∀ p, default [] (disk_of s' !! p) = default [] (disk_of s !! p).
Proof.
  intros Hz Hkq Hfd Hhttp Hrun. pose proof (run_held cfg e b turns q Hfd Hhttp) as Hh. rw /wp Hrun in Hh.
  destruct (Hh eq_refl) as (H2 & H3 & H4 & H5 & H6 & Ho & Ht). split; [done|].
  pose proof (run_good cfg e b turns q Hz) as Hg. rw /wp Hrun in Hg. destruct Hg as [Hg _].
  assert (ThreadPool.joined (ThreadPool.return_all (ThreadPool.announce (thread_pool_ s))) = true) as Hj.
  { rw H6. apply ThreadPoolThms.idle_joined; [done|]. intros i t. rw lookup_replicate. by intros [? _]. }
  set (s1 := with_loop (set_shared (set_thread false (sh_thread (l_world (event_loop_ s))) (l_world (event_loop_ s)))
    (with_running false (event_loop_ s))) s).
  set (s2 := with_pool (ThreadPool.destroy_queue (ThreadPool.shutdown_idle (thread_pool_ s1))) s1).
  set (s3 := let '(a, d) := Aof.close (aof_ s2) (disk_of s2) in with_aof a (set_disk d s2)).
  assert (good cfg e s2) as Hg2.
  { pose proof (good_served _ _ _ Hg) as [[] []]. destruct Hg as [? [] ? ? ? ?]. by split; [|split| | | |]. }
  assert (good cfg e s3) as Hg3 by by apply close_log_good.
  pose proof (close_log_held s2) as (Hheld & _). fold s3 in Hheld.
  pose proof (close_log_files s2) as Hd. fold s3 in Hd.
  assert (http_server_ s3 = HttpServer.new_http (metrics_port cfg)) as K2 by (rw -H2 /s3; by destruct (Aof.close _ _)).
  pose proof (held_eq s3 _ _ _ _ _ _ Hheld) as (_ & _ & K3 & _ & K5 & K6).
  set (s4 := with_http (HttpServer.stop (http_server_ s3) (http_fds s3)) s3).
  assert (http_server_ s4 = HttpServer.new_http (metrics_port cfg)) as K4 by (by rw /s4 K2).
  destruct (visits_idle late s4) as (s5 & Hs5 & Hh5); [by rw K4|]. rw K4 in Hh5.
  pose proof (visits_good cfg e late s4) as Hg5. rw /wp Hs5 in Hg5. destruct Hg5 as [Hg5 [_ _ _ Hd5 _ _]]; [by destruct Hg3|].
  pose proof (visits_held late s4) as Hh'. rw /wp Hs5 in Hh'. destruct Hh' as [Hheld5 _].
  apply held_eq in Hheld5 as (_ & _ & J3 & _ & J5 & J6).
  set (s6 := set_http (HttpServer.new_http (metrics_port cfg)) s5).
  destruct (destroy_loop_closes (safe := served_safe cfg (e_disk e)) (event_loop_ s6)) as (L1 & L2 & L3 & L4 & _ & L6).
  { apply (g_loop _ _ _ Hg5). } { cbn. by rw (g_kq _ _ _ Hg5). }
  exists (with_loop (destroy_loop (event_loop_ s6)) s6). split.
  { trans ((let! stopped := stop_endpoint late in
      if stopped : bool then modify (λ s, with_loop (destroy_loop (event_loop_ s)) s) ;;; ret true else ret false) s3); [done|].
    assert (stop_endpoint late s3 = Ret (true, s6)) as Hst; [|by rw {1}/bind Hst].
    trans ((serve_visits late ;;; let! r := gets (λ s, HttpServer.join (http_server_ s)) in
      match r with Some h => modify (set_http h) ;;; ret true | None => ret false end) s4); [done|].
    rw {1}/bind Hs5 /bind /gets Hh5. done. }
  split_and!; try done.
  - cbn. rw J3 /s4 K2 K3. cbn. by rw H3.
  - cbn. by rw J5 /s4 /= K5.
  - cbn. by rw J6 /s4 /= K6.
  - intros p. rw /disk_of. cbn [event_loop_ with_loop]. rw L6. change (l_world (event_loop_ s6)) with (l_world (event_loop_ s5)).
    trans (default [] (disk_of s5 !! p)); [done|]. rw Hd5. apply (Hd p), (g_buf _ _ _ Hg2).
Qed.

(** ** Restart *)

(** The image of the store as of reading [n] of its clock. *)
Definition image_at (w : World) (n : nat) : bytes := image (snapshot (clock w n) (store w)).

(** What the shutdown leaves in the two files. *)
Definition saved cfg e s s' : Prop :=
  clock (world_of s') = clock (world_of s) ∧
  (∃ n, (ticks (world_of s) ≤ n ≤ ticks (world_of s'))%nat ∧
     disk_of s' !! rdb_path cfg = Some (image_at (world_of s) n)) ∧
  default [] (disk_of s' !! aof_path cfg) = default [] (e_disk e !! aof_path cfg).

Lemma visits_saved cfg e vs s s1 :
  good cfg e s1 → saved cfg e s s1 →
  wp overflow_only (serve_visits vs) (λ _ s', good cfg e s' ∧ saved cfg e s s') s1.
Proof.
  intros H1 (Hc & (n & Hn & Hi) & Hl). eapply wp_mono; [by apply (visits_good cfg e)|].
  intros ? s2 [H2 [_ _ _ Hd _ [Hck Htk]]]. split; [done|]. split_and!; [congruence| |by rw Hd].
  exists n. rw Hd. split; [lia|done].
Qed.

Lemma save_saved cfg e s s1 :
  good cfg e s1 → settled s1 → beside_loop s s1 → writable (rdb_path cfg) → ¬ owned cfg (aof_path cfg) →
  wp no_fault save_rdb (λ _ s', good cfg e s' ∧ saved cfg e s s') s1.
Proof.
  intros H1 Ht1 [_ _ _ _ Hst [Hck Htk]] Hw Hno.
  eapply wp_mono; [apply wp_and; [by apply (save_good cfg e)|]|intros u s2 [[Hg _] Hs2]; exact (conj Hg Hs2)].
  rw /save_rdb. wp_go. rw (g_cfg _ _ _ H1). apply on_world_wp.
  rw {1}/wp. destruct (save_writable (rdb_path cfg) (disk_of s1) (world_of s1) Hw) as (d' & w' & Hs).
  destruct (save_cases (rdb_path cfg) (disk_of s1) (world_of s1)) as (ok & d1 & w1 & Hs' & _ & Himg & _ & Ho).
  rw Hs in Hs'. injection Hs' as <- <- <-. rw Hs. wp_go. specialize (Himg eq_refl).
  assert (clock w' = clock (world_of s1) ∧ ticks w' = S (ticks (world_of s1))) as [Hck' Htk'].
  { rw /Rdb.save in Hs. rw (w_open _ Hw) in Hs. cbn [negb] in Hs. rw /bind save_image in Hs. by injection Hs as _ <-. }
  split_and!.
  - cbn. by rw Hck' Hck.
  - exists (ticks (world_of s1)). split; [cbn; lia|]. cbn. rw Himg /image_at Hck. by rw Hst.
  - cbn. rw Ho; [intros He; apply Hno; by left|intros He; apply Hno; by right|]. by apply (good_disk cfg e).
Qed.

Lemma shut_down_saves cfg e q s :
  good cfg e s → settled s → rdb_enabled cfg = true → writable (rdb_path cfg) → ¬ owned cfg (aof_path cfg) →
  wp overflow_only (shut_down q) (λ _ s', saved cfg e s s') s.
Proof.
  intros Hg Ht Hen Hw Hno. pose proof (g_cfg _ _ _ Hg) as Hc. rw /shut_down. wp_go. rw Hc Hen.
  eapply wp_mono; [by apply (visits_good cfg e)|]. intros ? s1 [H1 B1]. wp_go.
  apply wp_faultless. eapply wp_mono; [apply (save_saved cfg e s s1); [done|by apply B1|done..]|].
  intros ? s2 [H2 S2]. wp_go. eapply wp_mono; [by apply (visits_saved cfg e)|]. intros ? s3 [H3 S3]. wp_go.
  apply (wp_mono _ _ (λ _ s', good cfg e s' ∧ saved cfg e s s')).
  { destruct (aof_enabled cfg); wp_go; [|done]. split; [by apply close_log_good|].
    pose proof (close_keeps (aof_ s3) (disk_of s3) (g_buf _ _ _ H3)) as Hk.
    destruct (Aof.close _ _) as [lg d2]. destruct Hk as (_ & _ & _ & Hk). destruct S3 as (Sc & (n & Hn & Hi) & Hl).
    split_and!; [done| |cbn; by rw Hk]. exists n. split; [done|]. specialize (Hk (rdb_path cfg)). rw Hi in Hk. cbn in Hk |- *.
    by destruct (d2 !! rdb_path cfg); cbn in Hk; [rw Hk|]. }
  intros ? s4 [H4 S4]. wp_go. eapply wp_mono; [by apply (visits_saved cfg e)|]. intros ? s5 [H5 S5]. wp_go.
  apply (wp_mono _ _ (λ _ s', saved cfg e s s')).
  { destruct (metrics_enabled cfg); [|by apply wp_ret]. rw /stop_endpoint. wp_go.
    eapply wp_mono; [apply (visits_saved cfg e _ s); [by destruct H5|done]|]. intros ? s6 [_ S6]. wp_go.
    by destruct (HttpServer.join _); wp_go. }
  intros [] s6 S6; wp_go; [|done]. rw /close_listener. wp_go. by destruct (0 <=? _).
Qed.

(** C16: a restart finds what a shutdown left.  On a disk that takes the
    snapshot, and with an append-only file that holds nothing and is not one of
    the snapshot's, a server that shuts down, returning or waiting for its
    endpoint, and is started again with the same configuration has exactly the
    entries that are still live when it begins to load, with their values;
    deadlines come back no earlier, and later by at most [late], the time the load
    takes.  The clock does not go back; keys and values are short enough for the
    snapshot, deadlines far enough from the end of [int64_t], and there are no more
    than [max_keys] entries.  The shutdown itself can fail only by an overflow, in
    the endpoint's arithmetic. *)
Theorem restart_restores cfg e s q late :
  good cfg e s → settled s → rdb_enabled cfg = true → writable (rdb_path cfg) →
  ¬ owned cfg (aof_path cfg) → default [] (e_disk e !! aof_path cfg) = [] →
  0 ≤ clock (world_of s) (ticks (world_of s)) →
  (∀ n, clock (world_of s) n ≤ clock (world_of s) (S n)) →
  map_Forall (λ k vx, lasting late (k, vx)) (contents (store (world_of s))) →
  size_of (store (world_of s)) ≤ max_keys cfg →
  match shut_down q s with
  | Ret (_, s') => ∀ e2, e_disk e2 = disk_of s' →
      clock (world_of s') (ticks (world_of s')) ≤ e_clk e2 0%nat < 2 ^ 63 →
      (∀ i, Z.of_nat i ≤ size_of (store (world_of s)) + 1 → e_clk e2 0%nat ≤ e_clk e2 i ≤ e_clk e2 0%nat + late) →
      ∃ s2, load_data (new_server cfg e2) = Ret (tt, s2) ∧
        reloaded (e_clk e2 0%nat) late (contents (store (world_of s))) (contents (store (world_of s2)))
  | Fail f => f = Undef SignedOverflow
  end.
Proof.
  intros Hs Hset Hen Hw Hno Hempty H0 Hmono Hst Hroom.
  pose proof (shut_down_saves cfg e q s Hs Hset Hen Hw Hno) as Hsd. rw /wp in Hsd.
  destruct (shut_down q s) as [[ended s']|f]; [|done]. destruct Hsd as (Hck & (n & Hn & Himg) & Hlog).
  intros e2 Hdisk Ht Hclk.
  assert (∀ i j, (i ≤ j)%nat → clock (world_of s) i ≤ clock (world_of s) j) as Hle.
  { intros i j Hij. induction Hij as [|j _ IH]; [lia|]. specialize (Hmono j). lia. }
  set (w := mkWorld (clock (world_of s)) n (store (world_of s))). rw Hck in Ht.
  destruct (load_saved (rdb_path cfg) (disk_of s') w (max_keys cfg) (e_clk e2) late) as (w2 & Hload & _ & Hc2);
    [by eapply good_store| |lia|done..|].
  { cbn. pose proof (Hle _ _ (proj1 Hn)). pose proof (Hle _ _ (proj2 Hn)). lia. }
  enough (wp no_fault load_data (λ _ s2, store (world_of s2) = store w2) (new_server cfg e2)) as (u & s2 & Hl & Hs2)%wp_Ret.
  { exists s2. destruct u. by rw Hs2. }
  rw /load_data. wp_go. change (cfg_ (new_server cfg e2)) with cfg. change (disk_of (new_server cfg e2)) with (e_disk e2).
  rw Hen Hdisk. wp_go. apply on_world_wp. rw {1}/wp.
  change (world_of (new_server cfg e2)) with (mkWorld (e_clk e2) 0 (new_store (max_keys cfg))). rw Hload. wp_go.
  destruct (aof_enabled cfg); wp_go; [|done]. apply on_world_wp.
  set (s3 := set_world w2 _). assert (disk_of s3 = disk_of s') as Hd3 by (rw -Hdisk //).
  rw Hempty in Hlog. rw /Aof.open /Aof.replay. change (Aof.path_ (aof_ s3)) with (aof_path cfg).
  assert (∀ a d, disk_of (with_aof a (set_disk d s3)) = d) as Hdset by done.
  destruct (can_open _ _ && _); cbn [with_aof aof_ Aof.path_]; rw Hdset Hd3.
  - by rw lookup_insert_eq Hlog.
  - by destruct (disk_of s' !! aof_path cfg) as [c|]; [cbn in Hlog; subst c|].
Qed.

(** ** The process *)

Lemma make_store_cases reserve n :
  make_store reserve n = Ret (new_store n) ∨ ∃ x, make_store reserve n = Fail (Throw x).
Proof.
  rw /make_store. generalize (seq 0 SHARD_COUNT). intros l. induction l as [|i l IH]; [by left|]. cbn [foldO].
  destruct (reserve i _) as [x|]; cbn [obind]; [right; by exists x|done].
Qed.

Lemma make_server_cases cfg e :
  match make_server cfg e with
  | Ret (s, lg) => s = new_server cfg e ∧ 0 ≤ e_kq e ∧ worker_threads cfg ≤ Z.of_nat (ThreadPool.spawnable (e_spawn e))
  | Fail f => (∃ x, f = Throw x) ∨
      (f = Terminate ∧ 0 < Z.of_nat (ThreadPool.spawnable (e_spawn e)) < worker_threads cfg)
  end.
Proof.
  rw /make_server. destruct (make_store_cases (e_reserve e) (max_keys cfg)) as [->|[x ->]]; cbn [obind]; [|by left; eexists].
  rw /make_loop. destruct (Z.ltb_spec (e_kq e) 0); cbn [obind]; [by left; eexists|].
  rw /ThreadPool.make_pool. destruct (_ <? _); cbn [obind]; [by left; eexists|].
  destruct (_ <? _); cbn [obind]; [by left; eexists|]. destruct (Z.ltb_spec (Z.of_nat (ThreadPool.spawnable (e_spawn e))) (worker_threads cfg)).
  { cbn [obind]. destruct (Nat.eqb_spec (ThreadPool.spawnable (e_spawn e)) 0); [left; by eexists|right; split; [done|lia]]. }
  cbn [obind]. pose proof (Logger.init_logger_cases (log_level cfg) (log_file cfg)) as Hl.
  destruct (Logger.init_logger _ _); cbn [obind]; [done|]. destruct Hl as (_ & x & _ & ->). left. by eexists.
Qed.

(** Clients of the endpoint stop it by an overflow, and by nothing else. *)
Lemma visits_faults vs : ∀ s, wp overflow_only (serve_visits vs) (λ _ _, True) s.
Proof.
  rw /serve_visits. induction vs as [|x vs IH]; intros s; cbn [foldM]; [by apply wp_ret|]. wp_go.
  apply (wp_mono _ _ (λ _ _, True)); [|intros [] ? _; apply IH]. rw /wp /serve_visit.
  pose proof (visit_view x (http_server_ s) (HttpServer.mkView (metrics_of s) (clock (world_of s)) (ticks (world_of s)))) as Hv.
  rw /wp in Hv. destruct (HttpServer.serve_loop x _ _) as [[[h out] v]|f]; [|done]. by rw on_world_run.
Qed.

Lemma destroy_quiet late s :
  wp overflow_only (destroy_server late) (λ ok _, receiving (http_server_ s) = false → ok = true) s.
Proof.
  rw /destroy_server /stop. wp_go. apply on_loop_wp. rw /EventLoop.stop. wp_go. apply on_shared_wp. wp_go.
  set (s1 := with_pool _ _). set (s2 := let '(a, d) := _ in _).
  assert (http_server_ s2 = http_server_ s) as Hs2 by (rw /s2; by destruct (Aof.close _ _)). rw -Hs2.
  apply (wp_mono _ _ (λ ok _, receiving (http_server_ s2) = false → ok = true)); [|by intros [] s3 H; wp_go].
  destruct (receiving (http_server_ s2)) eqn:Hr.
  - rw /stop_endpoint. wp_go. eapply wp_mono; [apply visits_faults|]. intros ? s3 _. wp_go.
    by destruct (HttpServer.join _); wp_go.
  - eapply wp_mono; [apply wp_and; [|by apply (quiet_stops late)]|by intros ok s3 [_ [-> _]]].
    instantiate (1 := λ _ _, True). rw /stop_endpoint. wp_go. eapply wp_mono; [apply visits_faults|]. intros ? s3 _. wp_go.
    by destruct (HttpServer.join _); wp_go.
Qed.

(** What remains when an error in the set-up does not reach the handler. *)
Lemma boot_undef cfg b f : boot_fault cfg b f → (∀ x, f ≠ Throw x) → handler_fault f.
Proof. intros [[->|[->|?]]|[[[? ->] _]|[-> _]]] Hx; naive_solver. Qed.

(** How the process can be terminated once it has its configuration. *)
Definition terminated cfg e b (f : fault) : Prop :=
  (f = Terminate ∧ 0 < Z.of_nat (ThreadPool.spawnable (e_spawn e)) < worker_threads cfg) ∨
  (set_up b (new_server cfg e) = Fail f ∧ handler_fault f) ∨
  ((∃ s, set_up b (new_server cfg e) = Ret (tt, s)) ∧ loop_fault f) ∨
  ((∃ x, set_up b (new_server cfg e) = Fail (Throw x)) ∧ f = Undef SignedOverflow).

(** The server that was made, up to the exit. *)
Lemma set_up_exits cfg e b x s q :
  attempt (boot_steps b) (new_server cfg e) = (Fail (Throw x), s) →
  match exit_after 1 (destroy_server (q_late q) s) with
  | ExitStatus z => z = 1
  | Terminated f => f = Undef SignedOverflow
  | Hanging => existsb mute (b_visits b 0 ++ b_visits b 1 ++ b_visits b 2) = true
  | StillRunning => False
  end.
Proof.
  intros Ha. pose proof (destroy_quiet (q_late q) s) as Hd. rw /wp in Hd.
  destruct (destroy_server _ _) as [[[] s']|f]; cbn [exit_after]; [done| |done].
  apply not_false_is_true. intros Hb.
  pose proof (attempt_closed (ep cfg (λ h, receiving h = false)) conf (boot_steps b) (new_server cfg e)
    (boot_quiet cfg b Hb) ltac:(done)) as Hat. rw Ha in Hat. destruct Hat as [_ Hr]. by specialize (Hd Hr).
Qed.

Lemma returned_exits cfg e b s turns q s' :
  attempt (boot_steps b) (new_server cfg e) = (Ret tt, s) → run_threads turns q s = Ret (Returned, s') →
  match exit_after 0 (destroy_server [] s') with
  | ExitStatus z => z = 0
  | Terminated f => f = Undef SignedOverflow
  | Hanging => existsb mute (visits_of b turns q) = true
  | StillRunning => False
  end.
Proof.
  intros Ha Hrun. pose proof (destroy_quiet [] s') as Hd. rw /wp in Hd.
  destruct (destroy_server _ _) as [[[] s2]|f]; cbn [exit_after]; [done| |done].
  apply not_false_is_true. rw visits_of_app existsb_app. intros [Hb Hq]%orb_false_iff.
  pose proof (attempt_closed (ep cfg (λ h, receiving h = false)) conf (boot_steps b) (new_server cfg e)
    (boot_quiet cfg b Hb) ltac:(done)) as Hat. rw Ha in Hat. destruct Hat as [Hc Hr].
  pose proof (run_quiet cfg turns q s Hc Hr Hq) as Hwp. rw /wp Hrun in Hwp. destruct Hwp as [_ Hr']. by specialize (Hd Hr').
Qed.

(** C38: how the process ends.  For every configuration file, command line,
    persisted data and course of events: it exits with status 0 only after a
    stop; with status 1 only when the construction of the server or its set-up
    throws, so before the event loop is entered (the metrics endpoint may have
    answered by then).  It is still running only if it has not been stopped, and
    hangs only if it has been, or if its set-up threw, and a client of the metrics
    endpoint connected and sent nothing.  It is terminated only: by a number in the
    configuration that cannot be read; by a worker that cannot be started after
    others have been; by an overflow or the call of SetCmd.hpp, evaluated from the
    right, in the replay of the persisted data or, for the overflow, in the
    endpoint; or, after the set-up, by what can end the event loop. *)
Theorem main_outcomes file args e b turns q :
  (∀ p, zlen (default [] (e_disk e !! p)) < 2 ^ 63) →
  match main file args e b turns q with
  | ExitStatus z => (z = 0 ∧ existsb stops turns = true) ∨
      (z = 1 ∧ ∃ cfg x, main_config file args = Ret cfg ∧
         (make_server cfg e = Fail (Throw x) ∨ set_up b (new_server cfg e) = Fail (Throw x)))
  | StillRunning => existsb stops turns = false
  | Hanging => existsb mute (visits_of b turns q) = true ∧
      (existsb stops turns = true ∨ ∃ cfg x, main_config file args = Ret cfg ∧ set_up b (new_server cfg e) = Fail (Throw x))
  | Terminated f =>
      (main_config file args = Fail f ∧ (f = Throw invalid_argument ∨ f = Throw out_of_range)) ∨
      ∃ cfg, main_config file args = Ret cfg ∧ terminated cfg e b f
  end.
Proof.
  intros Hz. rw /main. destruct (main_config file args) as [cfg|f] eqn:Hcfg.
  2:{ left. split; [done|]. by eapply ConfigThms.main_config_fault. }
  pose proof (make_server_cases cfg e) as Hm. destruct (make_server cfg e) as [[s0 lg]|f] eqn:Hms.
  2:{ destruct Hm as [[x ->]|[-> ?]]; [right; split; [done|]; eauto 10|right; exists cfg; split; [done|]; by left]. }
  destruct Hm as (-> & _). pose proof (run_good cfg e b turns q (Hz _)) as H.
  rw /run /wp {1}/bind /run_fault /set_up !attempt_sequence in H.
  assert (set_up b (new_server cfg e) =
    match attempt (boot_steps b) (new_server cfg e) with (Ret _, s') => Ret (tt, s') | (Fail f, _) => Fail f end) as Hset
    by apply attempt_sequence.
  destruct (attempt _ _) as [[[]|f] s] eqn:Ha.
  - destruct (run_threads turns q s) as [[[] s']|f] eqn:Hrun.
    + by apply H.
    + destruct (joining_mute cfg e b turns q s') as [_ Hj]; [by rw /run /bind Hset|].
      split; [done|]. left. apply not_false_is_true. intros Hn. by apply H in Hn.
    + pose proof (returned_exits cfg e b s turns q s' Ha Hrun) as Hex.
      assert (existsb stops turns = true) by (apply not_false_is_true; intros Hn; by apply H in Hn).
      destruct (exit_after _ _); [by left| |done|by auto].
      right. exists cfg. split; [done|]. right. right. left. subst. split; [by eexists|]. by apply overflow_stops.
    + right. exists cfg. split; [done|]. destruct H as [[? _]|[? ?]]; [done|]. right. right. left. split; [by eexists|done].
  - destruct H as [[_ Hb]|[[? ?] _]]; [|done].
    destruct f as [x|u| |]; [|right; exists cfg; split; [done|]; right; left; split; [done|]; by eapply boot_undef..].
    pose proof (set_up_exits cfg e b x s q Ha) as Hex.
    destruct (exit_after _ _); [right; eauto 10| |done|].
    + right. exists cfg. split; [done|]. do 3 right. eauto.
    + split; [|eauto 10]. by rw visits_of_app existsb_app Hex.
Qed.

End Thms.

(** ** Concrete runs *)

Module Demo.
Import Commands StoreThms.Demo PersistenceThms.Demo EventLoopThms.Demo.
#[local] Existing Instances demo_platform demo_compiler demo_limits demo_io demo_kernel epoll MetricsThms.Demo.demo_fmt.
#[local] Instance demo_fp : Double.FpContract := Double.FuseRight.
#[local] Instance demo_spdlog : Logger.Spdlog := {|
  Logger.Level := bytes; Logger.from_str x := x; Logger.warn := bs "warning"; Logger.open_error _ := None |}.

(** The default configuration with the append-only file. *)
Definition demo_cfg : Config := set_aof_enabled true default_config.
Definition no_files : Disk := ∅.

(** A client of the endpoint, and one that connects to it and sends nothing. *)
Definition asks : HttpServer.Visit := HttpServer.Connects (HttpServer.mkClient (HttpServer.Got (bs "GET /health HTTP/1.1")) 4096).
Definition silent : HttpServer.Visit := HttpServer.Connects (HttpServer.mkClient HttpServer.Nothing 4096).

(** The set-up succeeds; the visits between the listener and its registration
    are given. *)
Definition boot_with (vs : list HttpServer.Visit) : Boot :=
  mkBoot 6 true true (TcpListener.mkSys (Some 3) (λ _, true) true true []) FcntlOk true true (λ i, if (i =? 1)%nat then vs else []).
Definition demo_boot : Boot := boot_with [asks].

(** Someone asks during the shutdown, and someone when it is too late. *)
Definition demo_quit : Quit := mkQuit (λ i, if (i =? 2)%nat then [asks] else []) [asks].

(** The maintenance thread reads its clock, tests [running_] and sweeps while
    commands are executed. *)
Definition demo_env : Env :=
  mkEnv (λ _ _, None) 4 (ThreadPool.mkSpawn 1000 1000 64) no_files (λ _, 7) (λ _, 7) [2; 3; 0; 5; 40; 1; 0; 70]%nat.

(** A client sends a command and leaves, the endpoint is asked for its metrics,
    the server is stopped. *)
Definition demo_turns : list Turn :=
  [TRound (mkRound [ArrConn [AConn (mkSock [RData (stream [[bs "SET"; bs "k"; bs "v"]])] [] []) FcntlOk]]
     [readable_event 3] false);
   TRound (mkRound [] [readable_event 5] false);
   THttp asks;
   TRound (mkRound [ArrIn 5 [REof]] [readable_event 5] false);
   TRound (mkRound [] [] true)].

Definition demo_start : Server := new_server demo_cfg demo_env.
Definition demo_end : Server :=
  match run demo_boot demo_turns demo_quit demo_start with Ret (_, s) => s | Fail _ => demo_start end.

Lemma demo_run : run demo_boot demo_turns demo_quit demo_start = Ret (Returned, demo_end).
Proof.
  assert (match run demo_boot demo_turns demo_quit demo_start with
          | Ret (Returned, _) => true | _ => false end = true) as Hok by (vm_compute; reflexivity).
  rw /demo_end. by destruct (run _ _ _ _) as [[[] s]|f].
Qed.

(** The maintenance thread has run between the sections of the command, and the
    endpoint has answered during the set-up, beside the event loop and during the
    shutdown. *)
Example demo_interleaved :
  sh_script (l_world (event_loop_ demo_end)) = [] ∧ size_of (store (world_of demo_end)) = 1 ∧
  length (http_sent demo_end) = 3%nat.
Proof. vm_compute. done. Qed.

Lemma server_safe_witness :
  inv (safe := served_safe demo_cfg no_files) (event_loop_ demo_end) ∧ store_ok (store (world_of demo_end)) ∧
  (Returned = Serving ↔ existsb stops demo_turns = false) ∧
  (Returned = Joining → metrics_enabled demo_cfg = true ∧ existsb mute (visits_of demo_boot demo_turns demo_quit) = true).
Proof.
  pose proof (server_safe demo_cfg demo_env demo_boot demo_turns demo_quit ltac:(reflexivity)) as H.
  fold demo_start in H. rewrite demo_run in H. exact H.
Defined.

(** A client connects to the endpoint and sends nothing; then the server is
    stopped. *)
Definition hung_boot : Boot := boot_with [silent].
Definition hung_start : Server :=
  match set_up hung_boot demo_start with Ret (_, s) => s | Fail _ => demo_start end.

Lemma hung_set_up : set_up hung_boot demo_start = Ret (tt, hung_start).
Proof.
  assert (match set_up hung_boot demo_start with Ret _ => true | _ => false end = true) as Hok by (vm_compute; reflexivity).
  rw /hung_start. by destruct (set_up _ _) as [[[] s]|f].
Qed.

Lemma silent_client_blocks_stop_witness :
  match run hung_boot demo_turns demo_quit (new_server demo_cfg demo_env) with
  | Ret (ph, _) => ph = if existsb stops demo_turns then Joining else Serving
  | Fail f => loop_fault f
  end.
Proof.
  apply (silent_client_blocks_stop demo_cfg demo_env hung_boot demo_turns demo_quit hung_start);
    [reflexivity|reflexivity|exact hung_set_up|vm_compute; reflexivity|vm_compute; reflexivity|vm_compute; reflexivity].
Defined.

(** The process is stopped and does not end, whoever connects after the silent
    client; it ends when that client goes. *)
Example demo_hangs :
  main (λ _, None) [] demo_env hung_boot demo_turns demo_quit = Hanging ∧
  main (λ _, None) [] demo_env hung_boot demo_turns (mkQuit (λ _, []) [HttpServer.Speaks HttpServer.Lost]) = ExitStatus 0.
Proof. vm_compute. done. Qed.

Lemma log_never_written_witness :
  default [] (disk_of demo_end !! bs "appendonly.aof") = [] ∧ size_of (store (world_of demo_end)) = 1.
Proof.
  split; [|vm_compute; reflexivity].
  apply (log_never_written demo_cfg demo_env demo_boot demo_turns demo_quit Returned demo_end (bs "appendonly.aof"));
    [reflexivity|exact demo_run|discriminate|discriminate].
Defined.

Lemma gauge_counts_all_witness :
  Metrics.active_connections_ (metrics_of demo_end) = Metrics.total_connections_ (metrics_of demo_end) ∧
  Metrics.total_connections_ (metrics_of demo_end) = 1 ∧ connections_ (event_loop_ demo_end) = ∅.
Proof.
  split; [|split; vm_compute; reflexivity].
  apply (gauge_counts_all demo_cfg demo_env demo_boot demo_turns demo_quit Returned demo_end); [reflexivity|exact demo_run].
Defined.

Lemma exit_releases_witness :
  thread_of demo_end = None ∧
  ∃ s', destroy_server [asks] demo_end = Ret (true, s') ∧ socks (event_loop_ s') = ∅ ∧ kq_or_epoll_fd_ (event_loop_ s') = -1 ∧
    http_fds s' = ∅ ∧ lsocks s' = ∅ ∧ ThreadPool.workers_ (thread_pool_ s') = [].
Proof.
  destruct (exit_releases demo_cfg demo_env demo_boot demo_turns demo_quit demo_end [asks]) as ((_ & _ & _ & _ & _ & Ht) & s' & H1 & H2 & _ & _ & H3 & H4 & H5 & _ & H6 & _);
    [reflexivity|vm_compute; discriminate|intros fd [= <-]; lia|cbn; lia|exact demo_run|].
  split; [exact Ht|]. exists s'. auto 10.
Defined.

(** The server with two entries in its store, before the shutdown and after. *)
Definition demo_full : Server := set_world demo4 demo_start.
Definition demo_down : Server :=
  match shut_down demo_quit demo_full with Ret (_, s) => s | Fail _ => demo_full end.

Lemma demo_full_good : good demo_cfg demo_env demo_full.
Proof. exact (set_world_good _ _ demo4 _ (new_good demo_cfg demo_env) demo4_ok (or_introl eq_refl)). Qed.

Lemma demo_down_run : shut_down demo_quit demo_full = Ret (true, demo_down).
Proof.
  assert (match shut_down demo_quit demo_full with Ret (true, _) => true | _ => false end = true) as Hok by (vm_compute; reflexivity).
  rw /demo_down. by destruct (shut_down _ _) as [[[] s]|f].
Qed.

(** The server is started again, with a clock that runs while it loads. *)
Definition demo_again : Env :=
  mkEnv (λ _ _, None) 4 (e_spawn demo_env) (disk_of demo_down) load_clock (λ _, 7) [].

Lemma restart_restores_witness :
  ∃ s2, load_data (new_server demo_cfg demo_again) = Ret (tt, s2) ∧
    reloaded 2000 10 (contents (store (world_of demo_full))) (contents (store (world_of s2))).
Proof.
  pose proof (restart_restores demo_cfg demo_env demo_full demo_quit 10 demo_full_good) as H.
  rewrite demo_down_run in H. cbv beta iota in H. apply (H eq_refl eq_refl) with (e2 := demo_again);
    [split; [intros d; reflexivity|intros d x; reflexivity|intros d; reflexivity]|intros [E|E]; discriminate E|reflexivity
    |vm_compute; discriminate|intros n; change (1000 + 10 * Z.of_nat n <= 1000 + 10 * Z.of_nat (S n)); lia|apply (bool_decide_unpack _); vm_compute; exact I
    |vm_compute; discriminate|reflexivity|vm_compute; split; [discriminate|reflexivity]|].
  intros i. assert (size_of (store (world_of demo_full)) = 2) as -> by (vm_compute; reflexivity).
  cbn [e_clk demo_again]. unfold load_clock. lia.
Defined.

Lemma main_outcomes_witness :
  match main (λ _, None) [bs "--port"; bs "7000"] demo_env demo_boot demo_turns demo_quit with
  | ExitStatus z => (z = 0 ∧ existsb stops demo_turns = true) ∨
      (z = 1 ∧ ∃ cfg x, main_config (λ _, None) [bs "--port"; bs "7000"] = Ret cfg ∧
         (make_server cfg demo_env = Fail (Throw x) ∨ set_up demo_boot (new_server cfg demo_env) = Fail (Throw x)))
  | StillRunning => existsb stops demo_turns = false
  | Hanging => existsb mute (visits_of demo_boot demo_turns demo_quit) = true ∧
      (existsb stops demo_turns = true ∨ ∃ cfg x, main_config (λ _, None) [bs "--port"; bs "7000"] = Ret cfg ∧
         set_up demo_boot (new_server cfg demo_env) = Fail (Throw x))
  | Terminated f =>
      (main_config (λ _, None) [bs "--port"; bs "7000"] = Fail f ∧ (f = Throw invalid_argument ∨ f = Throw out_of_range)) ∨
      ∃ cfg, main_config (λ _, None) [bs "--port"; bs "7000"] = Ret cfg ∧ terminated cfg demo_env demo_boot f
  end.
Proof.
  apply (main_outcomes (λ _, None) [bs "--port"; bs "7000"] demo_env demo_boot demo_turns demo_quit).
  intros p. cbn [e_disk demo_env]. unfold no_files. rewrite lookup_empty. reflexivity.
Defined.

(** The process, from the command line to its exit. *)
Example demo_main : main (λ _, None) [bs "--port"; bs "7000"] demo_env demo_boot demo_turns demo_quit = ExitStatus 0.
Proof. vm_compute. reflexivity. Qed.

(** Room for three threads: the fourth worker terminates the process. *)
Example demo_terminates :
  main (λ _, None) [] (mkEnv (λ _ _, None) 4 (ThreadPool.mkSpawn 1000 1000 3) no_files (λ _, 7) (λ _, 7) []) demo_boot demo_turns demo_quit =
    Terminated Terminate.
Proof. vm_compute. reflexivity. Qed.
End Demo.

End ServerThms.
