(* ===== verification/ServerLin.v ===== *)
(** What the clients of the running server get, from their sockets to the
    contract of the store. *)

From S2P Require Import Prelude Lru Storage StorageInv StorageSpec StorageThms Conc StoreConc StoreConcThms Resp RespThms Commands CommandsThms Persistence PersistenceThms Buffer Connection ConnectionThms EventLoop EventLoopInv EventLoopThms Config Maintenance MaintenanceThms MaintenanceLin Scans Requests Double Metrics MetricsThms HttpServer ThreadPool Listener Logger Server ServerInv ServerThms.
#[local] Open Scope Z_scope.

Module ServerLin.
Import StoreSpec StoreConcThms Connection EventLoop EventLoopInv EventLoopThms Config Maintenance MaintenanceThms MaintenanceLin Scans Requests Server ServerInv.

Section Thms.
Context {plat : Store.Platform} {cc : Commands.Compiler} {limits : VecLimits} {io : Io}.
Context {fp : Double.FpContract} {fmt : Metrics.Fmt} {poller : Poller} {plaws : PollerLaws poller} {kernel : Kernel}.

(** C5: the server answers as the contract says.  At any time of any run of the
    server, whatever files it found, whatever clients did before and wherever the
    maintenance thread is: for any mixture of requests by connected clients, and
    wherever sections of the maintenance thread fall between those of the
    commands, the handlers have the store perform one operation after the other,
    and these lead from the contents of the store before to those afterwards.
    Each takes effect at one moment of a history of the contract, in which the
    other thread only removes entries that had expired; a flush leaves nothing,
    the size is between those at the beginning and the end, and KEYS lists what
    was there at the beginning and all that is there at the end.  Each client is
    owed, behind what it was owed before, the replies to its own commands that
    the handlers compute from the results of these operations. *)
Theorem server_linearizable cfg e b turns q s reqs rs sh' :
  zlen (default [] (e_disk e !! aof_path cfg)) < 2 ^ 63 → run b turns q (new_server cfg e) = Ret (Serving, s) →
  idle (event_loop_ s) → Forall (fits (event_loop_ s)) reqs →
  run_requests reqs (l_world (event_loop_ s)) = Ret (rs, sh') → Buffer.MAX_CAP ≤ string_limit →
  (∀ fd c, connections_ (event_loop_ s) !! fd = Some c →
     zlen (Buffer.readable (out_buf_ c)) + zlen (replies_to fd rs) ≤ Buffer.MAX_CAP) →
  ∃ l' ops res, foldM (λ _ r, request r) reqs tt (event_loop_ s) = Ret (tt, l') ∧
    performs (abs (world_of s)) ops res (abs (shared_world (l_world l'))) ∧
    run_requests (ops := answers_ops) reqs (mkAnswers [] res) = Ret (rs, mkAnswers ops []) ∧
    ∀ fd c, connections_ (event_loop_ s) !! fd = Some c →
      ∃ c', connections_ l' !! fd = Some c' ∧
        Buffer.readable (out_buf_ c') = Buffer.readable (out_buf_ c) ++ replies_to fd rs.
Proof.
  intros Hz Hrun Hidle Hfits Hreqs Hlim Hcap. pose proof (run_good cfg e b turns q Hz) as H. rw /wp Hrun in H.
  destruct H as [Hg _]. exact (requests_explained cfg (e_disk e) reqs rs sh' _ (g_loop _ _ _ Hg) Hidle Hfits Hreqs Hlim Hcap).
Qed.

End Thms.

(** ** A client of a running server *)

Module Demo.
Import Commands Store StoreThms.Demo PersistenceThms.Demo ConnectionThms.Demo EventLoopThms.Demo ServerThms.ServerThms.Demo.
#[local] Existing Instances demo_platform demo_compiler demo_limits demo_io demo_kernel epoll MetricsThms.Demo.demo_fmt demo_fp.

(** A client connects and sends a command; the maintenance thread is about to run. *)
Definition first_turns : list Turn := take 3 demo_turns.

Definition demo_server : Server :=
  match run demo_boot first_turns demo_quit demo_start with Ret (_, s) => s | Fail _ => demo_start end.

Lemma demo_running : run demo_boot first_turns demo_quit demo_start = Ret (Serving, demo_server).
Proof.
  assert (match run demo_boot first_turns demo_quit demo_start with Ret (Serving, _) => true | _ => false end = true) as Hok
    by (vm_compute; reflexivity).
  rw /demo_server. by destruct (run _ _ _ _) as [[[] s]|f].
Qed.

Definition demo_reqs : list Request :=
  [(5, [[bs "GET"; bs "k"]; [bs "SET"; bs "n"; bs "1"; bs "PX"; bs "50"]]); (5, [[bs "INCR"; bs "n"]])].

Definition demo_result : list (Z * bytes) * Shared :=
  match run_requests demo_reqs (l_world (event_loop_ demo_server)) with
  | Ret r => r
  | Fail _ => ([], l_world (event_loop_ demo_server))
  end.

Lemma demo_serves : run_requests demo_reqs (l_world (event_loop_ demo_server)) = Ret (demo_result.1, demo_result.2).
Proof.
  assert (match run_requests demo_reqs (l_world (event_loop_ demo_server)) with Ret _ => true | Fail _ => false end = true) as H
    by (vm_compute; reflexivity).
  rw /demo_result. by destruct (run_requests _ _) as [[]|].
Qed.

Lemma by_list {X : Type} (p : Z → X → bool) (m : gmap Z X) fd x :
  forallb (λ kx, p kx.1 kx.2) (map_to_list m) = true → m !! fd = Some x → p fd x = true.
Proof. rewrite forallb_forall. intros H Hx%elem_of_map_to_list%list_elem_of_In. exact (H _ Hx). Qed.

Lemma demo_idle : idle (event_loop_ demo_server).
Proof.
  split.
  - intros fd c Hc. apply (bool_decide_eq_true_1 (Buffer.readable (in_buf_ c) = [])).
    apply (by_list (λ _ c, bool_decide (Buffer.readable (in_buf_ c) = [])) (connections_ (event_loop_ demo_server)) fd c); [|exact Hc].
    vm_compute. reflexivity.
  - intros fd k Hk. enough (match s_inbox k with [] => true | _ => false end = true) as H by (by destruct (s_inbox k)).
    apply (by_list (λ _ k, match s_inbox k with [] => true | _ => false end) (socks (event_loop_ demo_server)) fd k); [|exact Hk].
    vm_compute. reflexivity.
  - assert (l_clock (event_loop_ demo_server) = λ _, 7) as -> by (vm_compute; reflexivity).
    intros n. cbn [ConnectionThms.max_latency metrics_laws]. rw /MetricsThms.MAX_LATENCY. lia.
  - cbn [ConnectionThms.metrics_ok metrics_laws]. split; vm_compute; discriminate.
Qed.

Lemma server_fits : Forall (fits (event_loop_ demo_server)) demo_reqs.
Proof.
  assert (is_Some (connections_ (event_loop_ demo_server) !! 5)) as Hc.
  { apply (bool_decide_unpack _). vm_compute. exact I. }
  rw /demo_reqs. apply Forall_cons; split; [|apply Forall_cons; split; [|constructor]];
    (split_and!; [exact Hc|done| |vm_compute; discriminate]); repeat constructor; apply reservable_small; vm_compute; discriminate.
Qed.

Lemma demo_room fd c :
  connections_ (event_loop_ demo_server) !! fd = Some c →
  zlen (Buffer.readable (out_buf_ c)) + zlen (replies_to fd demo_result.1) ≤ Buffer.MAX_CAP.
Proof.
  intros Hc. apply Z.leb_le.
  apply (by_list (λ fd c, zlen (Buffer.readable (out_buf_ c)) + zlen (replies_to fd demo_result.1) <=? Buffer.MAX_CAP)
    (connections_ (event_loop_ demo_server)) fd c); [|exact Hc].
  vm_compute. reflexivity.
Qed.

Lemma server_linearizable_witness :
  ∃ l' ops res, foldM (λ _ r, request r) demo_reqs tt (event_loop_ demo_server) = Ret (tt, l') ∧
    performs (abs (world_of demo_server)) ops res (abs (shared_world (l_world l'))) ∧
    run_requests (ops := answers_ops) demo_reqs (mkAnswers [] res) = Ret (demo_result.1, mkAnswers ops []) ∧
    ∀ fd c, connections_ (event_loop_ demo_server) !! fd = Some c →
      ∃ c', connections_ l' !! fd = Some c' ∧
        Buffer.readable (out_buf_ c') = Buffer.readable (out_buf_ c) ++ replies_to fd demo_result.1.
Proof.
  apply (server_linearizable demo_cfg demo_env demo_boot first_turns demo_quit demo_server demo_reqs demo_result.1 demo_result.2);
    [reflexivity|exact demo_running|exact demo_idle|exact server_fits|exact demo_serves|vm_compute; discriminate|exact demo_room].
Defined.

(** The replies. *)
Example server_replies :
  demo_result.1 = [(5, RespSerializer.bulk (bs "v") ++ RespSerializer.ok); (5, RespSerializer.integer 2)].
Proof. vm_compute. reflexivity. Qed.
End Demo.

End ServerLin.
